(* ===== verification/_CoqProject ===== *)
-Q . S2P
Prelude.v
Ids.v
Texts.v
Store.v
DiffLog.v
SpaceDiff.v
UploadDiff.v
Metrics.v
Ledger.v
BlobRegistry.v
Upload.v
Accounting.v
Usage.v
UsageLedger.v
StorageProvider.v
RoutingPolicy.v
Routing.v
Consumer.v
Subscription.v
Customer.v
Provisioning.v
Replica.v
Ucan.v
Agent.v
Delegation.v
LibForge.v
Concrete.v
PiriClient.v
Service.v
Conclude.v
Poll.v
BlobAdd.v
BlobRemove.v
Access.v
EmailAuth.v
Spaces.v
Uploads.v
Admin.v
RoutingCommands.v
Indexing.v
MetricsSample.v
Config.v
Mailers.v
Setup.v
Codec.v
Cbor.v
DagJson.v
ProviderCodecs.v
ConcreteCodecs.v
Client.v
Sql.v
PgLedger.v
PgBlobRegistry.v
PgUpload.v
PgAccounting.v
PgReading.v
PgUsage.v
PgProviders.v
PgAccounts.v
PgSpaces.v
PgReplica.v
PgMessages.v
System.v
