(* ===== verification/Prelude.v ===== *)
(** * Sprue: a verified model of the Forge upload service

    Sprue is the upload service of the Forge network. Clients invoke its UCAN
    commands to add, list and remove blobs and uploads; it allocates the blobs
    on storage nodes, which it chooses among the registered ones, has the nodes
    accept what the clients put, keeps the accounts of what every space holds,
    and answers how much a space used over time. This library is a shallow
    embedding of its Go code: the stores, the services over them, the client
    of the storage nodes and the handlers of the commands, as executable
    functions on explicit states.

    ** Files

    Foundations.
    - [Prelude]: errors and [errors.Is], the [outcome] of a call (a value, an
      error, a panic, or [Diverge] when the fuel is spent), the monad of a
      fallible call on a state, integers at their widths, decimal texts,
      generic lemmas on lists and maps.
    - [Ids], [Ucan], [LibForge]: the classes that stand for what comes from
      other modules (DIDs, CIDs, tokens, containers, codecs), with the
      documented laws the service relies on. [Env] of [LibForge] is what is
      observed of the outside: the clock, the answers of nodes, random numbers.
    - [Texts]: what an error prints as, and did:mailto accounts.
    - [Concrete]: one instance of all the classes, on which the witnesses
      compute.

    The stores, in their memory backends ([pkg/store/*/memory/store.go]).
    - [Store] (pages, [Collect], the cursor of a diff log), [DiffLog] (the rows
      of both logs), [SpaceDiff], [UploadDiff], [Metrics], joined in [Ledger].
    - [BlobRegistry] and [Upload], which write to the ledger; [Accounting] runs
      them together.
    - [StorageProvider], [RoutingPolicy], [Consumer], [Subscription],
      [Customer] (with [pkg/billing]), [Replica] (with [pkg/store/revocation]),
      [Agent], [Delegation].

    The stores, in their PostgreSQL and S3 backends
    ([pkg/store/*/postgres/store.go]).
    - [Sql]: a connection (the tables, and the number of calls made on it), how
      a call, a transaction and a page of a listing go over it, and what is left
      to the server: class [Postgres].
    - [PgLedger] (diff logs and counters), [PgBlobRegistry], [PgUpload];
      [PgAccounting] and [PgReading] hold their theorems and [PgUsage] has the
      usage service read them.
    - [PgProviders] (storage providers, as an instance of
      [StorageProvider.Reads], and routing policies), [PgAccounts] (consumers,
      subscriptions, customers, and provisioning over them, which [PgSpaces]
      has the handler of [/provider/add] run over), [PgReplica] (replicas and
      revocations), [PgMessages] (agent messages and delegations, in a bucket
      with an index).

    The services.
    - [Usage]: [pkg/usage/usage.go], proved against the class [UsageStores];
      [UsageLedger] discharges the class with the ledger.
    - [Routing]: [pkg/routing/service.go], against the provider store's
      interface [StorageProvider.Reads].
    - [Provisioning]: [pkg/provisioning/service.go], over either backend.
    - [PiriClient]: [pkg/piriclient] and [pkg/lib/ucan_client/execute.go].

    The handlers ([pkg/service/handlers], one function per handler).
    - [Service]: requests, responses and [Node], the state the blob handlers
      share: agent messages and accounts.
    - [BlobAdd] ([blob_add.go]), [Conclude] ([ucan_conclude.go] and
      [ucan_conclude_http_put.go]), [BlobRemove] ([blob_remove.go],
      [blob_abort.go]), [Poll] ([pkg/lib/ucan_server/events.go] and the receipt
      endpoint of [pkg/service/service.go]).
    - [EmailAuth] ([pkg/lib/ucan_server/email_auth.go], the e-mail endpoint of
      [pkg/service/service.go] and its pages), over [Access].
    - [Uploads] ([upload_*.go], [blob_list.go]), [Access] ([access_*.go]),
      [Spaces] ([customer_add.go], [provider_add.go], [space_info.go]), [Admin]
      ([admin_provider_*.go]), [RoutingCommands] ([routing_put.go],
      [routing_use.go]), [Indexing] ([index_add.go] and
      [pkg/indexerclient/client.go]), [MetricsSample] ([metrics_sample.go]).

    The set-up of the service.
    - [Config] ([internal/config/config.go]), [Mailers] ([pkg/mailer] and the
      choice of a mailer), [Setup] ([internal/fx] and [createUCANServer] of
      [pkg/service/service.go]).

    The client of the administrator and what it exchanges with the handlers.
    - [Codec] (writers, readers and the round trip of a codec), [Cbor] and
      [DagJson] (the pieces of the generated codecs), [ProviderCodecs]
      ([pkg/commands/admin/provider], [cbor_gen.go] and [json_gen.go] of the
      package and of [proofs] and [weight]); [ConcreteCodecs] has an instance
      of the parameters and the witnesses.
    - [Client]: [pkg/client/client.go], which administers the providers and the
      routing, joined through those codecs to the handlers that answer it.

    The whole.
    - [System]: the blob and upload commands one after the other on one node,
      and the abstract machine they implement.

    Definitions have the names of the Go functions. A store is a record of the
    maps the Go struct holds; an operation takes it and returns it, with the
    outcome, also when it fails half way, so that the state a failed call leaves
    behind is the code's.

    ** What the theorems show

    - The whole service. Whatever blob and upload commands are served in
      whatever order, what the spaces hold changes as in a machine of plain sets
      ([run_refines]); a blob is held exactly when a conclusion or an add that a
      node answered for let it in and no removal followed ([blob_provenance]);
      and the accounts agree with the registry ([run_balances], over
      [accounts_balance] and [counters_exact]): modulo 2^64 whatever the sizes,
      and the byte logs exactly while the sizes are below 2^63. A larger size,
      which a client may choose, is logged as a negative change
      ([oversized_negative]).
    - The life of a blob. An add allocates on an eligible provider and comes to
      an end, when one allocates or every eligible one was asked in vain
      ([doAllocate_spec]), registers only on a node's word
      ([blobAdd_registers]), does nothing the second time ([blobAdd_again]), and
      names the accept its conclusion runs ([add_conclude_agree]). A conclusion
      registers only what a node accepted ([conclude_spec],
      [acceptOnProvider_spec]), groups and persists the acceptances without
      losing or splitting one ([groupAcceptances_exact], [acceptance_whole],
      [writeAgentMessages_spec]), and they can be polled for
      ([conclusion_polled], [HandleReceiptRequest_spec]). A batch answers for
      what the node answered ([AcceptBatch_spec]). Removal and abort do what
      they say and no more ([blobRemove_spec], [blobAbort_spec]).
    - Usage. A series is the one of the logs ([Sample_exact]), describes one
      instant though the stores change under it ([Sample_consistent]), is dense
      and bounded ([Sample_dense]) and always comes ([Sample_total]).
    - Routing. Selection draws among exactly the eligible providers
      ([SelectStorageProvider_spec], [weightedRandomInt_spec]); policies are
      stored and followed ([PutPolicy_spec], [policy_routes]); every node that
      may be drawn granted its commands ([providers_trusted]) and
      registering one draws nothing to it ([registered_idle]). What an
      operator's client sets is what it is shown and what routes
      ([registered_listed], [client_routes]).
    - Codecs. What is marshalled, in either format, is unmarshalled to the same
      value, to its last byte ([codec_roundtrip]), fields come in any order and
      among unknown ones ([codec_forward]), and exactly the values within the
      limits of the format are written ([codec_limits]).
    - Accounts and access. Provisioning and space info ([customer_provisions],
      [providerAdd_spec], [ListServiceProviders_spec]), where the backends
      differ on a space that has a provider: the memory stores let a second
      account provision it, PostgreSQL refuses ([pg_providerAdd_refused]);
      delegations stored whole and claimed back ([accessDelegate_spec],
      [PutMany_ListByAudience], [confirmed_claimed], [accessRequest_spec]).
      Who follows the link a request mailed is let in, and can claim from then
      on as long as no delegation is stored twice ([mailed_link_confirms], and
      with an SMTP mailer [request_mailed]), and nobody else is
      ([grants_asked]).
    - Set-up. What the environment configures ([env_configures]) and the one
      setting it does not ([skip_migrations_unset]), and the order in which the
      storage starts ([migrated_first]).
    - Uploads, listings and the agent messages ([uploadAdd_spec],
      [blobList_sizes], [GetInvocation_spec], [GetInvocations_spec]).
    - PostgreSQL. Whatever calls fail and whatever others commit, a write is
      done whole or not at all ([pgExec_atomic]). The accounts agree while the
      other connections commit what the two stores do, and exactly when no size
      exceeds an int64 and none of them resizes a blob that a removal has read
      ([pg_accounts_balance]; [Deregister_stale] has what
      happens otherwise). A space is provisioned once
      ([pg_provision_once]) and no index names an object that is not in its
      bucket ([pg_agent_sound], [pg_delegations_sound]). The policies and the
      revocations implement the memory stores ([pg_policies_refine],
      [pg_revocations_refine]). Listings end and are complete
      ([pg_list_all], [pg_delegations_collected]), also while the table changes
      ([pg_list_stable]), and usage is that of the logs ([Sample_postgres]).
      What was written is read back ([pg_registered_read], [pg_agent_read],
      [pg_customer_read], [pg_status_listed]).

    ** Modelling decisions

    - Handlers are served one at a time: the memory stores hold their lock for
      the length of a call, and no theorem speaks of two handlers at once. The
      exception is [Usage], whose service reads stores that go on changing:
      there the state of the stores at each call is an arbitrary function of the
      number of the call.
    - A PostgreSQL table is a map from its primary key to its other columns. A
      statement and a transaction run without others interleaved; other
      connections may commit anything a hypothesis allows before each call and
      before each commit. A call may fail, and one that failed may have been
      carried out. S3 calls are calls of the same kind on a map of objects. The
      columns have the widths of the migrations: BIGINT and INTEGER raise out
      of range, TIMESTAMPTZ drops what is below a microsecond, and texts compare
      by the collation of the database, which is a parameter.
    - An observation of the outside has a number, so that the same question may
      be answered differently the next time. Theorems hold for every node and
      every clock unless a hypothesis says otherwise, and every hypothesis is
      met by the concrete instance of a witness.
    - A panic is an outcome of its own. Counters are uint64 and wrap; sizes and
      limits are converted between int, int64 and uint64 where the code does.
    - The order in which Go ranges over a map is a parameter: theorems hold for
      every order.
    - ucantone's server, which executes the confirmations the e-mail endpoint is
      sent, is a parameter: [validates] and [unforgeable] of [EmailAuth] say what
      is relied on, that it runs the handler on what the service issued and has not
      expired, and on nothing else.
    - Texts are lists of bytes; hashes and the codecs of other modules are
      parameters with their round trips as laws. The generated codecs write
      through any [io.Writer] and read from a text that is used up; an error
      leaves the target half filled in Go, which no caller looks at, and drops
      it in the model. The texts CBOR carries are valid UTF-8, so
      [registered_listed] asks it of the endpoints.

    ** Fuel

    Loops whose end the code decides by its data take fuel, and theorems show
    that the fuel used is enough. [Collect] takes one unit per page; a page holds
    at least a record unless it is the last, so the number of records plus one is
    enough. [Usage]'s scan of a log takes [scanFuel], two more than the rows it
    may read before it gives up. [doAllocate] excludes a provider per round, so
    one more round than there are registered providers is enough. The batches
    of [AcceptBatch] and the messages of [writeAgentMessages] recurse on the
    requests that are left. That a listing ends needs its entries to differ in
    what the cursor names; where the code lets them repeat, it is proved that no
    fuel is enough ([listFrom_repeated], [List_stalls],
    [repeated_delegation_hangs]).

    ** Not modelled

    - The PostgreSQL server, S3 and pgx, which are parameters, and the running
      of the migrations; the tables they declare are the ones modelled.
    - The routes of the HTTP server and its starting and stopping, the wiring by
      fx, tracing, request logs and the command line: set-up and I/O around what is
      modelled. How viper finds a value is a parameter with its documented
      precedence.
    - cbor-gen and dag-json-gen, which the generated codecs call: parameters.
    - Replication ([blob_replicate.go],
      [ucan_conclude_blob_replica_transfer.go]), which is commented out in the
      source; [Replica] and [SelectReplicationProvider] of [Routing] are
      modelled.
    - The server and the HTTP client of ucantone between a client's call and
      the handler that answers it: [Client.answers] states what is relied on. *)
From stdpp Require Export base tactics option list gmap strings sorting.
From Stdlib Require Export ZArith Lia.
From Stdlib Require Import Ascii DecimalString DecimalPos DecimalZ.
From Stdlib Require HexadecimalString.

(** Linear arithmetic with division and remainder by constants. *)
Ltac divmod := zify; Z.to_euclidean_division_equations; lia.

(** ** Errors

    [Named] is ucantone's [errors.New(name, message)], [Errorf] is
    [fmt.Errorf] without [%w] and [Wrap] is [fmt.Errorf("ctx: %w", err)]. *)
Inductive error :=
  | Named (name msg : string)
  | Errorf (msg : string)
  | Wrap (ctx : string) (e : error).

#[export] Instance error_eq_dec : EqDecision error.
Proof. solve_decision. Defined.

(** [errors.Is]: the target occurs in the unwrap chain. *)
Fixpoint Is (e target : error) : bool :=
  bool_decide (e = target) ||
  match e with
  | Wrap _ e' => Is e' target
  | _ => false
  end.

Lemma Is_refl e : Is e e = true.
Proof. destruct e; simpl; by rewrite bool_decide_eq_true_2. Qed.

(** [errors.As] with a target of type [errors.Named]: the first named error of
    the unwrap chain. *)
Fixpoint AsNamed (e : error) : option (string * string) :=
  match e with
  | Named n m => Some (n, m)
  | Wrap _ e' => AsNamed e'
  | Errorf _ => None
  end.

(** ** Outcomes

    What a Go call does: it returns a value, returns an error, panics, or (for
    a loop run on fuel) has not finished yet. *)
Inductive outcome (A : Type) :=
  | Ok (a : A)
  | Err (e : error)
  | Panic
  | Diverge.
Arguments Ok {A} a.
Arguments Err {A} e.
Arguments Panic {A}.
Arguments Diverge {A}.

#[export] Instance outcome_eq_dec `{EqDecision A} : EqDecision (outcome A).
Proof. solve_decision. Defined.

#[export] Instance outcome_ret : MRet outcome := λ A a, Ok a.
#[export] Instance outcome_bind : MBind outcome := λ A B k m,
  match m with
  | Ok a => k a
  | Err e => Err e
  | Panic => Panic
  | Diverge => Diverge
  end.
#[export] Instance outcome_fmap : FMap outcome := λ A B f m,
  match m with
  | Ok a => Ok (f a)
  | Err e => Err e
  | Panic => Panic
  | Diverge => Diverge
  end.

Lemma Ok_pair {A B} (a a' : A) (b b' : B) : a = a' → b = b' → Ok (a, b) = Ok (a', b').
Proof. by intros -> ->. Qed.
Lemma Ok_triple {A B C} (a a' : A) (b b' : B) (c c' : C) :
  a = a' → b = b' → c = c' → Ok (a, b, c) = Ok (a', b', c').
Proof. by intros -> -> ->. Qed.

(** ** Stateful computations

    The state survives an error and a panic: Go keeps the writes made before
    either. *)
Definition M (S A : Type) : Type := S → outcome A * S.

#[export] Instance M_ret {S} : MRet (M S) := λ A a s, (Ok a, s).
#[export] Instance M_bind {S} : MBind (M S) := λ A B k m s,
  match m s with
  | (Ok a, s') => k a s'
  | (Err e, s') => (Err e, s')
  | (Panic, s') => (Panic, s')
  | (Diverge, s') => (Diverge, s')
  end.

Lemma M_bind_step {S A B} (m : M S A) (k : A → M S B) s :
  (m ≫= k) s =
  match m s with
  | (Ok a, s') => k a s'
  | (Err e, s') => (Err e, s')
  | (Panic, s') => (Panic, s')
  | (Diverge, s') => (Diverge, s')
  end.
Proof. done. Qed.

(** A sequence that returned went through both halves. *)
Lemma M_bind_Ok {S A B} (m : M S A) (k : A → M S B) s b s' :
  (m ≫= k) s = (Ok b, s') → ∃ a s1, m s = (Ok a, s1) ∧ k a s1 = (Ok b, s').
Proof.
  rewrite M_bind_step. destruct (m s) as [[a|e| |] s1]; [|done..]. by exists a, s1.
Qed.

(** Lift a read that cannot change the state. *)
Definition reads {S A} (f : S → outcome A) : M S A := λ s, (f s, s).
Definition lift {S A} (r : outcome A) : M S A := reads (λ _, r).
Definition fail {S A} (e : error) : M S A := λ s, (Err e, s).
(** [x, err := call(); if err != nil { ... }]: hand the error to the caller as
    a value; a panic still unwinds. *)
Definition try {S A} (m : M S A) : M S (A + error) := λ s,
  match m s with
  | (Ok a, s') => (Ok (inl a), s')
  | (Err e, s') => (Ok (inr e), s')
  | (Panic, s') => (Panic, s')
  | (Diverge, s') => (Diverge, s')
  end.
(** [return fmt.Errorf("ctx: %w", err)] on the error path of a call. *)
Definition wrap {S A} (ctx : string) (m : M S A) : M S A := λ s,
  match m s with
  | (Err e, s') => (Err (Wrap ctx e), s')
  | r => r
  end.
Definition owrap {A} (ctx : string) (m : outcome A) : outcome A :=
  match m with
  | Err e => Err (Wrap ctx e)
  | r => r
  end.

(** ** Machine integers

    Values are [Z]; [uint64] and [int64] are Go's conversions, and Go's [int]
    is 64 bits wide on the platforms the service is built for. *)
Definition uint64 (z : Z) : Z := z `mod` 2 ^ 64.
Definition int64 (z : Z) : Z := (z + 2 ^ 63) `mod` 2 ^ 64 - 2 ^ 63.
Definition max_int64 : Z := 2 ^ 63 - 1.
Definition is_uint64 (z : Z) : Prop := (0 ≤ z < 2 ^ 64)%Z.
Definition is_int64 (z : Z) : Prop := (- 2 ^ 63 ≤ z < 2 ^ 63)%Z.

Lemma uint64_range z : is_uint64 (uint64 z).
Proof. apply Z.mod_pos_bound. lia. Qed.
Lemma uint64_id z : is_uint64 z → uint64 z = z.
Proof. apply Z.mod_small. Qed.
(** Arithmetic modulo [2^64] may be carried out before or after reducing. *)
Lemma uint64_add_l a b : uint64 (uint64 a + b) = uint64 (a + b).
Proof. apply Zplus_mod_idemp_l. Qed.
Lemma uint64_sub_l a b : uint64 (uint64 a - b) = uint64 (a - b).
Proof. apply Zminus_mod_idemp_l. Qed.
Lemma uint64_sub_r a b : uint64 (a - uint64 b) = uint64 (a - b).
Proof. apply Zminus_mod_idemp_r. Qed.
Lemma uint64_congr a b c : uint64 a = uint64 b → uint64 (a + c) = uint64 (b + c).
Proof. intros Hab. by rewrite <-uint64_add_l, Hab, uint64_add_l. Qed.
(** A sum of two uint64 that did not go backwards did not wrap. *)
Lemma uint64_grows x v :
  is_uint64 x → is_uint64 v → (x ≤ uint64 (x + v))%Z → uint64 (x + v) = (x + v)%Z.
Proof. unfold is_uint64, uint64. intros. divmod. Qed.
Lemma int64_range z : is_int64 (int64 z).
Proof.
  unfold int64, is_int64.
  pose proof (Z.mod_pos_bound (z + 2 ^ 63) (2 ^ 64) ltac:(lia)). lia.
Qed.
Lemma int64_id z : is_int64 z → int64 z = z.
Proof. unfold is_int64, int64. intros ?. rewrite Z.mod_small; lia. Qed.
(** Two's complement: [int64] forgets whole turns. *)
Lemma int64_congr (a b : Z) : ((a - b) `mod` 2 ^ 64 = 0)%Z → int64 a = int64 b.
Proof.
  intros H. unfold int64. f_equal.
  apply Z.cong_iff_0. by replace (a + 2 ^ 63 - (b + 2 ^ 63))%Z with (a - b)%Z by lia.
Qed.
Lemma int64_mod (z : Z) : ((int64 z - z) `mod` 2 ^ 64 = 0)%Z.
Proof.
  unfold int64.
  replace ((z + 2 ^ 63) `mod` 2 ^ 64 - 2 ^ 63 - z)%Z
    with ((z + 2 ^ 63) `mod` 2 ^ 64 - (z + 2 ^ 63))%Z by lia.
  by rewrite Zminus_mod_idemp_l, Z.sub_diag.
Qed.

Lemma int64_add_l a b : int64 (int64 a + b) = int64 (a + b).
Proof. apply int64_congr. pose proof (int64_mod a) as Ha. by replace (int64 a + b - (a + b))%Z with (int64 a - a)%Z by lia. Qed.
Lemma int64_sub_l a b : int64 (int64 a - b) = int64 (a - b).
Proof. apply (int64_add_l a (- b)). Qed.
Lemma int64_sub_r a b : int64 (a - int64 b) = int64 (a - b).
Proof.
  apply int64_congr. pose proof (int64_mod b) as Hb.
  replace (a - int64 b - (a - b))%Z with (- (int64 b - b))%Z by lia.
  by rewrite Z.mod_opp_l_z.
Qed.
Lemma int64_uint64 a : int64 (uint64 a) = int64 a.
Proof.
  apply int64_congr. unfold uint64. rewrite Zminus_mod_idemp_l. by rewrite Z.sub_diag.
Qed.

(** A conversion of Go's between the two widths keeps the residue. *)
Lemma uint64_of_int64 z : uint64 (int64 z) = uint64 z.
Proof. by apply Z.cong_iff_0, int64_mod. Qed.
Lemma uint64_congr_add a b c d :
  uint64 a = uint64 b → uint64 c = uint64 d → uint64 (a + c) = uint64 (b + d).
Proof.
  intros Hab Hcd. rewrite (uint64_congr _ _ c Hab), !(Z.add_comm b). by apply uint64_congr.
Qed.
Lemma uint64_congr_opp a b : uint64 a = uint64 b → uint64 (- a) = uint64 (- b).
Proof.
  intros Hab. rewrite <-!(Z.sub_0_l _), <-(uint64_sub_r 0 a), Hab. apply uint64_sub_r.
Qed.

(** ** Time

    A [time.Time] is its distance from the Unix epoch in nanoseconds; a
    [time.Duration] is an int64 count of nanoseconds. Monotonic clock readings
    are not modelled. *)
Abbreviation time := Z (only parsing).
Definition zeroTime : Z := -62135596800000000000.
Definition Microsecond : Z := 1000.
Definition Second : Z := 1000000000.
Definition Hour : Z := 3600 * Second.
(** [t.Sub(u)] saturates instead of wrapping. *)
Definition Sub (t u : Z) : Z := Z.max (- 2 ^ 63) (Z.min max_int64 (t - u)).
(** [t.Truncate(d)] rounds down towards the zero time. *)
Definition Truncate (t d : Z) : Z := t - (t - zeroTime) `mod` d.
(** [time.Unix(sec, 0)] and [t.Unix()]. *)
Definition fromUnix (sec : Z) : Z := sec * Second.
Definition Unix (t : Z) : Z := t / Second.

(** ** Slices

    A read-only slice is a list; indices and lengths are Go [int]s. *)
Definition len {A} (l : list A) : Z := Z.of_nat (length l).
(** [s[i:]] *)
Definition slice_from {A} (l : list A) (i : Z) : outcome (list A) :=
  if bool_decide (0 ≤ i ≤ len l)%Z then Ok (drop (Z.to_nat i) l) else Panic.
(** [s[:n]]; the code only takes it with [n < len(s)], where capacity plays no
    part. *)
Definition slice_to {A} (l : list A) (n : Z) : outcome (list A) :=
  if bool_decide (0 ≤ n ≤ len l)%Z then Ok (take (Z.to_nat n) l) else Panic.
(** [s[i]] *)
Definition index {A} (l : list A) (i : Z) : outcome A :=
  if bool_decide (0 ≤ i)%Z
  then match l !! Z.to_nat i with Some x => Ok x | None => Panic end
  else Panic.

(** [slices.IndexFunc], with [None] for -1, and [slices.ContainsFunc]. *)
Fixpoint indexFunc {A} (f : A → bool) (l : list A) : option nat :=
  match l with
  | [] => None
  | x :: l' => if f x then Some 0 else S <$> indexFunc f l'
  end.
Definition containsFunc {A} (f : A → bool) (l : list A) : bool := existsb f l.
(** The first element a [for range] loop with an early return finds. *)
Fixpoint findFunc {A} (f : A → bool) (l : list A) : option A :=
  match l with
  | [] => None
  | x :: l' => if f x then Some x else findFunc f l'
  end.

(** [slices.SortFunc] with a comparison that is [<= 0] exactly when [R] holds.
    Go does not say how elements that compare equal are ordered; this sort is
    stable, and no theorem of the development depends on that order. *)
Definition sortFunc {A} (R : relation A) `{∀ x y, Decision (R x y)} (l : list A) : list A :=
  merge_sort R l.

Lemma index_last {A} (l : list A) :
  index l (len l - 1) = match last l with Some x => Ok x | None => Panic end.
Proof.
  unfold index, len. rewrite last_lookup.
  destruct l as [|x l]; [done|]. rewrite bool_decide_eq_true_2 by (simpl; lia).
  by replace (Z.to_nat (Z.of_nat (length (x :: l)) - 1)) with (pred (length (x :: l)))
    by (simpl; lia).
Qed.

Lemma slice_from_ok {A} (l : list A) (i : nat) :
  i ≤ length l → slice_from l (Z.of_nat i) = Ok (drop i l).
Proof.
  intros. unfold slice_from, len. rewrite bool_decide_eq_true_2 by lia. by rewrite Nat2Z.id.
Qed.
Lemma slice_to_ok {A} (l : list A) (n : Z) :
  (0 ≤ n ≤ len l)%Z → slice_to l n = Ok (take (Z.to_nat n) l).
Proof. intros. unfold slice_to. by rewrite bool_decide_eq_true_2. Qed.

Lemma findFunc_Some {A} (f : A → bool) l x :
  findFunc f l = Some x → x ∈ l ∧ f x = true.
Proof.
  induction l as [|y l IH]; simpl; [done|]. destruct (f y) eqn:?.
  - intros [= ->]. split; [left|done].
  - intros [??]%IH. split; [by right|done].
Qed.
Lemma findFunc_None {A} (f : A → bool) l :
  findFunc f l = None ↔ ∀ x, x ∈ l → f x = false.
Proof.
  induction l as [|y l IH]; simpl.
  { split; [intros _ x Hx; by apply elem_of_nil in Hx|done]. }
  destruct (f y) eqn:E.
  - split; [done|]. intros H. specialize (H y (list_elem_of_here _ _)). congruence.
  - rewrite IH. split; [intros H x [->|?]%elem_of_cons; auto|intros H x ?; apply H; by right].
Qed.
Lemma findFunc_app {A} (f : A → bool) l1 l2 :
  findFunc f (l1 ++ l2) =
  match findFunc f l1 with Some x => Some x | None => findFunc f l2 end.
Proof. induction l1 as [|y l1 IH]; simpl; [done|]. by destruct (f y). Qed.
Lemma indexFunc_Some {A} (f : A → bool) l i :
  indexFunc f l = Some i →
  ∃ x, l !! i = Some x ∧ f x = true ∧ ∀ j y, j < i → l !! j = Some y → f y = false.
Proof.
  revert i. induction l as [|y l IH]; simpl; [done|]. intros i.
  destruct (f y) eqn:E.
  - intros [= <-]. exists y. split_and!; [done..|lia].
  - intros (k & (x & ? & ? & Hlt)%IH & ->)%fmap_Some. exists x. split_and!; [done..|].
    intros [|j] z ? Hz; simplify_eq/=; [done|]. apply (Hlt j); [lia|done].
Qed.
Lemma indexFunc_None {A} (f : A → bool) l :
  indexFunc f l = None ↔ ∀ x, x ∈ l → f x = false.
Proof.
  induction l as [|y l IH]; simpl.
  { split; [intros _ x Hx; by apply elem_of_nil in Hx|done]. }
  destruct (f y) eqn:E.
  - split; [done|]. intros H. specialize (H y (list_elem_of_here _ _)). congruence.
  - rewrite fmap_None, IH. split; [intros H x [->|?]%elem_of_cons; auto|intros H x ?; apply H; by right].
Qed.
Lemma containsFunc_true {A} (f : A → bool) l :
  containsFunc f l = true ↔ ∃ x, x ∈ l ∧ f x = true.
Proof. unfold containsFunc. rewrite existsb_exists. by setoid_rewrite list_elem_of_In. Qed.

(** A cursor names an entry by a key; among distinct keys the index found is the
    entry's own, and what is listed after it is what follows it. *)
Lemma indexFunc_key {A K} `{EqDecision K} (key : A → K) l1 x l2 :
  NoDup (key <$> (l1 ++ x :: l2)) →
  indexFunc (λ y, bool_decide (key y = key x)) (l1 ++ x :: l2) = Some (length l1).
Proof.
  induction l1 as [|y l1 IH]; simpl; intros Hnd.
  - by rewrite bool_decide_eq_true_2.
  - apply NoDup_cons in Hnd as [Hnin Hnd]. rewrite bool_decide_eq_false_2, IH; [done..|].
    intros Heq. apply Hnin. rewrite Heq, fmap_app, fmap_cons. apply elem_of_app. right. left.
Qed.
Lemma indexFunc_proper {A} (f g : A → bool) l :
  (∀ x, x ∈ l → f x = g x) → indexFunc f l = indexFunc g l.
Proof.
  induction l as [|x l IH]; simpl; [done|]. intros Hfg.
  rewrite Hfg by left. destruct (g x); [done|]. f_equal. apply IH. intros. apply Hfg. by right.
Qed.
Lemma slice_from_suffix {A} (l1 : list A) x l2 :
  slice_from (l1 ++ x :: l2) (Z.of_nat (length l1) + 1) = Ok l2.
Proof.
  replace (Z.of_nat (length l1) + 1)%Z with (Z.of_nat (length (l1 ++ [x])))
    by (rewrite length_app; simpl; lia).
  rewrite (cons_middle x l1 l2), app_assoc, slice_from_ok by (rewrite !length_app; lia).
  by rewrite drop_app_length.
Qed.

Lemma filter_all {A} (P : A → Prop) `{∀ x, Decision (P x)} (l : list A) :
  Forall P l → filter P l = l.
Proof.
  induction 1 as [|x l ?? IH]; [done|]. by rewrite filter_cons_True, IH.
Qed.
Lemma filter_none {A} (P : A → Prop) `{∀ x, Decision (P x)} (l : list A) :
  Forall (λ x, ¬ P x) l → filter P l = [].
Proof.
  induction 1 as [|x l ?? IH]; [done|]. by rewrite filter_cons_False, IH.
Qed.

Lemma StronglySorted_filter {A} (R : relation A) (P : A → Prop) `{∀ x, Decision (P x)} l :
  StronglySorted R l → StronglySorted R (filter P l).
Proof.
  induction 1 as [|x l Hl IH Hx]; [constructor|]. rewrite filter_cons. case_decide; [|done].
  constructor; [done|]. rewrite Forall_forall in *. intros y [_ Hin]%list_elem_of_filter. auto.
Qed.

(** ** Arrays of machine integers, as tables *)
Definition tab {A} (n : nat) (f : nat → A) : list A := f <$> seq 0 n.
Lemma tab_ext {A} n (f g : nat → A) : (∀ k, k < n → f k = g k) → tab n f = tab n g.
Proof. intros Hfg. apply list_fmap_ext. intros i k [-> ?]%lookup_seq. apply Hfg. lia. Qed.
Lemma length_tab {A} n (f : nat → A) : length (tab n f) = n.
Proof. unfold tab. by rewrite length_fmap, length_seq. Qed.
Lemma lookup_tab {A} n (f : nat → A) k : k < n → tab n f !! k = Some (f k).
Proof. intros. unfold tab. rewrite list_lookup_fmap, lookup_seq_lt by done. done. Qed.
Lemma index_tab {A} n (f : nat → A) k : k < n → index (tab n f) (Z.of_nat k) = Ok (f k).
Proof.
  intros. unfold index. rewrite bool_decide_eq_true_2 by lia. by rewrite Nat2Z.id, lookup_tab.
Qed.
Lemma replicate_tab {A} n (x : A) : replicate n x = tab n (λ _, x).
Proof. unfold tab. generalize 0. induction n as [|n IH]; intros s; simpl; [done|].
  f_equal. apply IH. Qed.
Lemma alter_tab {A} n (f : nat → A) (g : A → A) k :
  alter g k (tab n f) = tab n (λ j, if decide (j = k) then g (f j) else f j).
Proof.
  apply list_eq. intros j. destruct (decide (j < n)) as [Hj|Hj].
  - rewrite (lookup_tab n _ j) by done. destruct (decide (j = k)) as [->|Hne].
    + by rewrite list_lookup_alter_eq, lookup_tab.
    + by rewrite list_lookup_alter_ne, lookup_tab.
  - rewrite !lookup_ge_None_2; [done|rewrite ?length_alter, length_tab; lia..].
Qed.

(** ** Text numbers: [strconv.Itoa] and [strconv.Atoi] *)
Definition Itoa (z : Z) : string := NilZero.string_of_int (Z.to_int z).
(** [%x] of a number that is not negative. *)
Definition hex (z : Z) : string := HexadecimalString.NilZero.string_of_uint (N.to_hex_uint (Z.to_N z)).
(** [%q] of text without characters to escape. *)
Definition quoted (s : string) : string :=
  let q := String (ascii_of_nat 34) "" in q +:+ s +:+ q.
Definition Atoi (s : string) : outcome Z :=
  let digits := match s with
                | String "+"%char (String c s') =>
                    if bool_decide (c = "-"%char) then "x"%string else String c s'
                | _ => s
                end in
  match NilZero.int_of_string digits with
  | Some d =>
      let z := Z.of_int d in
      if bool_decide (- 2 ^ 63 ≤ z < 2 ^ 63)%Z then Ok z else Err (Errorf "value out of range")
  | None => Err (Errorf "invalid syntax")
  end.

Lemma int_of_string_Itoa (z : Z) : NilZero.int_of_string (Itoa z) = Some (Z.to_int z).
Proof.
  apply NilZero.isi; destruct z as [|p|p]; simpl; try done.
  all: intros [= H]; by apply (DecimalPos.Unsigned.to_uint_nonnil p).
Qed.

Lemma Atoi_Itoa (z : Z) : is_int64 z → Atoi (Itoa z) = Ok z.
Proof.
  intros Hz. unfold Atoi. pose proof (int_of_string_Itoa z) as Hr.
  assert (∀ s' : string, Itoa z ≠ String "+"%char s') as Hplus.
  { intros s' Hs. rewrite Hs in Hr. cbn in Hr. by destruct (NilEmpty.uint_of_string s'). }
  destruct (Itoa z) as [|c s'] eqn:E.
  - rewrite Hr, of_to. by rewrite bool_decide_eq_true_2.
  - assert (c ≠ "+"%char) by (intros ->; by eapply Hplus).
    replace (match c with "+"%char => _ | _ => _ end) with (String c s').
    + rewrite Hr, of_to. by rewrite bool_decide_eq_true_2.
    + destruct c as [[] [] [] [] [] [] [] []]; done.
Qed.

Lemma string_app_empty_r (a : string) : a +:+ "" = a.
Proof. induction a as [|c a IH]; [done|]. exact (f_equal (String _) IH). Qed.
Lemma string_app_assoc (a b c : string) : a +:+ (b +:+ c) = (a +:+ b) +:+ c.
Proof. induction a as [|x a IH]; [done|]. exact (f_equal (String _) IH). Qed.
Lemma string_length_app (x y : string) : String.length (x +:+ y) = String.length x + String.length y.
Proof. induction x as [|a x IH]; [done|]. exact (f_equal S IH). Qed.
(** Concatenation cancels on the right, and texts with the same end have the same
    characters counted from there. *)
Lemma list_ascii_app (a b : string) :
  String.list_ascii_of_string (a +:+ b) =
  String.list_ascii_of_string a ++ String.list_ascii_of_string b.
Proof. induction a as [|c a IH]; [done|]. simpl. by f_equal. Qed.
Lemma string_app_cancel_r (a b s : string) : a +:+ s = b +:+ s → a = b.
Proof.
  intros Heq. apply (f_equal String.list_ascii_of_string) in Heq.
  rewrite !list_ascii_app in Heq. apply app_inv_tail in Heq.
  by rewrite <-(String.string_of_list_ascii_of_string a), Heq,
    String.string_of_list_ascii_of_string.
Qed.
Lemma string_app_end (a b s t : string) :
  a +:+ s = b +:+ t →
  ∀ i, i < length (String.list_ascii_of_string s) → i < length (String.list_ascii_of_string t) →
  reverse (String.list_ascii_of_string s) !! i = reverse (String.list_ascii_of_string t) !! i.
Proof.
  intros Heq i Hs Ht. apply (f_equal String.list_ascii_of_string) in Heq.
  rewrite !list_ascii_app in Heq. apply (f_equal reverse) in Heq.
  rewrite !reverse_app in Heq. apply (f_equal (λ l, l !! i)) in Heq.
  by rewrite !lookup_app_l in Heq by by rewrite length_reverse.
Qed.
