(* ===== verification/Ids.v ===== *)
(** * Identifiers

    DIDs, CIDs and multihashes come from ucantone, go-cid and go-multihash,
    which are not part of the repository: they are a parameter of the model,
    with the documented behaviour the service relies on as laws. [StrIds] is
    the concrete instance the witnesses compute with. *)
From S2P Require Export Prelude.

(** A multihash is a Go [[]byte]; a string is the list of its bytes. *)
Abbreviation Multihash := string (only parsing).

Class Ids := {
  (** [did.DID]: comparable, usable as a map key, printable *)
  DID : Type;
  DID_eq_dec :: EqDecision DID;
  DID_countable :: Countable DID;
  did_Undef : DID;
  did_String : DID → string;
  (** two DIDs print the same only when they are equal *)
  did_String_inj :: Inj (=) (=) did_String;
  (** [did.Parse] reads back what a DID prints as; the undefined one has no text *)
  did_Parse : string → outcome DID;
  did_Parse_String d : d ≠ did_Undef → did_Parse (did_String d) = Ok d;
  (** [cid.Cid] *)
  Cid : Type;
  Cid_eq_dec :: EqDecision Cid;
  Cid_countable :: Countable Cid;
  cid_Undef : Cid;
  cid_String : Cid → string;
  cid_String_inj :: Inj (=) (=) cid_String;
  cid_Parse : string → outcome Cid;
  cid_Parse_String c : c ≠ cid_Undef → cid_Parse (cid_String c) = Ok c;
  cid_Bytes : Cid → string;
  cid_Bytes_inj :: Inj (=) (=) cid_Bytes;
  (** [c.Hash()], the multihash inside a CID *)
  cid_Hash : Cid → Multihash;
  (** [Multihash.HexString] *)
  HexString : Multihash → string;
  HexString_inj :: Inj (=) (=) HexString;
  (** [digestutil]: the text of a multihash, and back when its bytes are one *)
  multihash_Valid : Multihash → Prop;
  digestutil_Format : Multihash → string;
  digestutil_Format_inj :: Inj (=) (=) digestutil_Format;
  digestutil_Parse : string → outcome Multihash;
  digestutil_Parse_Format d :
    multihash_Valid d → digestutil_Parse (digestutil_Format d) = Ok d;
}.

(** [Defined()] of a DID and of a CID. *)
Definition did_Defined `{Ids} (d : DID) : bool := bool_decide (d ≠ did_Undef).
Definition cid_Defined `{Ids} (c : Cid) : bool := bool_decide (c ≠ cid_Undef).

Lemma did_Parse_Defined `{Ids} d : did_Defined d → did_Parse (did_String d) = Ok d.
Proof. intros Hd%bool_decide_unpack. by apply did_Parse_String. Qed.
Lemma cid_Parse_Defined `{Ids} c : cid_Defined c → cid_Parse (cid_String c) = Ok c.
Proof. intros Hc%bool_decide_unpack. by apply cid_Parse_String. Qed.

(** The identity instance: every identifier is the text it prints as. *)
Definition parseText (s : string) : outcome string :=
  if bool_decide (s = "") then Err (Errorf "too short") else Ok s.
Lemma parseText_Ok s : s ≠ "" → parseText s = Ok s.
Proof. intros. unfold parseText. by rewrite bool_decide_eq_false_2. Qed.
Definition StrIds : Ids := {|
  DID := string; did_Undef := ""; did_String := id;
  did_Parse := parseText; did_Parse_String := parseText_Ok;
  Cid := string; cid_Undef := ""; cid_String := id;
  cid_Parse := parseText; cid_Parse_String := parseText_Ok; cid_Bytes := id;
  cid_Hash := id; HexString := id;
  multihash_Valid _ := True; digestutil_Format := id;
  digestutil_Parse := Ok; digestutil_Parse_Format _ _ := eq_refl;
|}.

Definition str_did (s : string) : @DID StrIds := s.
Definition str_cid (s : string) : @Cid StrIds := s.

(** The commands of libforge, as the texts they print as, of which the service
    relies only on the metrics derived from them having different names. *)
Class Commands := {
  blob_Add : string;
  blob_Remove : string;
  upload_Add : string;
  upload_Remove : string;
  metricNames_NoDup : NoDup
    [blob_Add +:+ "-total"; blob_Add +:+ "-size-total";
     blob_Remove +:+ "-total"; blob_Remove +:+ "-size-total";
     upload_Add +:+ "-total"; upload_Remove +:+ "-total"];
}.
Program Definition StrCommands : Commands := {|
  blob_Add := "/blob/add"; blob_Remove := "/blob/remove";
  upload_Add := "/upload/add"; upload_Remove := "/upload/remove";
|}.
Next Obligation. apply (bool_decide_unpack _). vm_compute. exact I. Qed.

(** The names of failures libforge declares, which clients see on receipts. *)
Class ErrorNames := {
  InvalidRangeErrorName : string;
  InvalidWindowErrorName : string;
  UsageUnstableErrorName : string;
  RangeTooBusyErrorName : string;
  TooManySamplesErrorName : string;
  InsufficientStorageErrorName : string;
  DelegationNotFoundErrorName : string;
  InvalidAccountErrorName : string;
  UnsupportedDigestCodeErrorName : string;
  MissingCauseErrorName : string;
  BlobAcceptedErrorName : string;
  InvalidCandidatesErrorName : string;
}.
Definition StrNames : ErrorNames := {|
  InvalidRangeErrorName := "InvalidRange";
  InvalidWindowErrorName := "InvalidWindow";
  UsageUnstableErrorName := "UsageUnstable";
  RangeTooBusyErrorName := "RangeTooBusy";
  TooManySamplesErrorName := "TooManySamples";
  InsufficientStorageErrorName := "InsufficientStorage";
  DelegationNotFoundErrorName := "DelegationNotFound";
  InvalidAccountErrorName := "InvalidAccount";
  UnsupportedDigestCodeErrorName := "UnsupportedDigestCode";
  MissingCauseErrorName := "MissingCause";
  BlobAcceptedErrorName := "BlobAccepted";
  InvalidCandidatesErrorName := "InvalidCandidates";
|}.

(** [ucan.Container]: a bundle of UCANs, which the service stores and hands on.
    Its [nil] is [None] where the code tests for it. *)
Class Containers := {
  Container : Type;
  Container_eq_dec :: EqDecision Container;
}.
Definition StrContainers : Containers := {| Container := string |}.
