(* ===== verification/Texts.v ===== *)
(** * Texts: what an error prints as, and the texts that are accounts *)
From S2P Require Export Ids.

(** [err.Error()]; how ucantone prints a named error is its own. *)
Class ErrorText := { named_Error : string → string → string }.
Fixpoint Error `{ErrorText} (e : error) : string :=
  match e with
  | Named name msg => named_Error name msg
  | Errorf msg => msg
  | Wrap ctx e => ctx +:+ ": " +:+ Error e
  end.
Definition StrErrorText : ErrorText := {| named_Error _ msg := msg |}.

(** What the handlers use of libforge and ucantone for accounts. *)
Class Accounts `{Ids} := {
  didmailto_Parse : string → outcome DID;
  didmailto_Parse_String s d :
    didmailto_Parse s = Ok d → didmailto_Parse (did_String d) = Ok d;
  didmailto_Email : DID → outcome string;
  plc_Parse : string → outcome DID;
}.
(** Account DIDs as texts with the prefixes of their methods. *)
Definition isMailto (s : string) : bool := String.prefix "did:mailto:" s.
Definition mailto (s : string) : outcome string :=
  if isMailto s then Ok s else Err (Errorf "not a did:mailto").
Lemma mailto_again s d : mailto s = Ok d → mailto d = Ok d.
Proof. unfold mailto. destruct (isMailto s) eqn:E; [|done]. intros [= <-]. by rewrite E. Qed.
Definition StrAccounts : @Accounts StrIds := {|
  didmailto_Parse := (mailto : string → outcome (@DID StrIds));
  didmailto_Parse_String := mailto_again;
  didmailto_Email := (λ d, Ok (String.substring 11 (String.length d) d))
                       : @DID StrIds → outcome string;
  plc_Parse := (λ s, if String.prefix "did:plc:" s then Ok s else Err (Errorf "not a did:plc"))
                 : string → outcome (@DID StrIds);
|}.

(** [url.Parse], of a URL as the text it prints as. *)
Class Urls := { url_Parse : string → outcome string }.
Definition StrUrls : Urls := {| url_Parse := Ok |}.
