(* ===== verification/Store.v ===== *)
(** * Paging: [pkg/store/store.go]

    Pages, the [Collect] loop over them, and the cursor the two diff logs share.
    [Pages] is the promise every [List] operation of a store makes to its
    callers; [Collect_Pages] is what a caller gets out of it. *)
From Stdlib Require Import DecimalString DecimalZ.
From S2P Require Export Ids.

Record Page (T : Type) := mkPage { Cursor : option string; Results : list T }.
Arguments mkPage {T} _ _.
Arguments Cursor {T} _.
Arguments Results {T} _.

Record PaginationConfig := { cfgCursor : option string; cfgLimit : option Z }.
Definition GetPageFunc (T : Type) : Type := PaginationConfig → outcome (Page T).

(** The option a caller applies: [WithListCursor] and [WithListLimit]. *)
Definition noOptions : PaginationConfig := {| cfgCursor := None; cfgLimit := None |}.
Definition WithListCursor (c : string) (cfg : PaginationConfig) : PaginationConfig :=
  {| cfgCursor := Some c; cfgLimit := cfgLimit cfg |}.
Definition WithListLimit (n : Z) (cfg : PaginationConfig) : PaginationConfig :=
  {| cfgCursor := cfgCursor cfg; cfgLimit := Some n |}.

Section Collect.
Context {T : Type} (getPage : GetPageFunc T).

(** The loop of [Collect]; [i] counts the pages, for the error message. *)
Fixpoint collectLoop (fuel : nat) (items : list T) (cursor : option string) (i : Z)
    : outcome (list T) :=
  match fuel with
  | O => Diverge
  | S fuel =>
      page ← owrap ("getting page " +:+ Itoa i)
               (getPage {| cfgCursor := cursor; cfgLimit := None |});
      let items := items ++ Results page in
      match Cursor page, Results page with
      | None, _ | _, [] => Ok items
      | Some c, _ :: _ => collectLoop fuel items (Some c) (i + 1)
      end
  end.
Definition Collect (fuel : nat) : outcome (list T) := collectLoop fuel [] None 0.

(** [Pages cursor l]: listing from [cursor] on serves exactly [l], in order,
    each page naming the cursor the next one resumes from. *)
Inductive Pages : option string → list T → Prop :=
  | Pages_last cur rs :
      getPage {| cfgCursor := cur; cfgLimit := None |} = Ok (mkPage None rs) →
      Pages cur rs
  | Pages_more cur c rs rest :
      getPage {| cfgCursor := cur; cfgLimit := None |} = Ok (mkPage (Some c) rs) →
      rs ≠ [] →
      Pages (Some c) rest →
      Pages cur (rs ++ rest).

Lemma collectLoop_Pages cur l :
  Pages cur l →
  ∀ fuel items i, length l < fuel → collectLoop fuel items cur i = Ok (items ++ l).
Proof.
  induction 1 as [cur rs Hp|cur c rs rest Hp Hne _ IH]; intros [|fuel] items i Hf; try lia.
  - simpl. by rewrite Hp.
  - simpl. rewrite Hp. simpl. destruct rs as [|x rs]; [done|].
    rewrite IH, <-app_assoc; [done|]. rewrite length_app in Hf. simpl in Hf. lia.
Qed.

(** One page per element and one more is enough fuel. *)
Lemma Collect_Pages l fuel : Pages None l → length l < fuel → Collect fuel = Ok l.
Proof. intros. unfold Collect. by rewrite collectLoop_Pages with (l := l). Qed.
End Collect.

(** Only what [getPage] answers without a limit matters to [Pages]. *)
Lemma Pages_ext {T} (g h : GetPageFunc T) cur l :
  (∀ c, g {| cfgCursor := c; cfgLimit := None |} = h {| cfgCursor := c; cfgLimit := None |}) →
  Pages g cur l → Pages h cur l.
Proof.
  intros Hgh. induction 1 as [cur rs Hp|cur c rs rest Hp Hne _ IH].
  - constructor. by rewrite <-Hgh.
  - eapply Pages_more; [by rewrite <-Hgh|done..].
Qed.

(** ** Cutting a page

    Most stores end their [List] the same way: when more entries match than the
    limit allows, the page is cut there and its cursor names the last entry of
    the page. A limit of zero cuts the page to nothing and then reads its last
    element, a negative one is no slice bound: both panic. *)
Definition cutPage {T} (limit : Z) (cursorOf : T → string) (l : list T) : outcome (Page T) :=
  if (limit <? len l)%Z then
    rs ← slice_to l limit;
    x ← index rs (len rs - 1);
    Ok (mkPage (Some (cursorOf x)) rs)
  else Ok (mkPage None l).

Lemma cutPage_all {T} limit (cursorOf : T → string) l :
  (len l ≤ limit)%Z → cutPage limit cursorOf l = Ok (mkPage None l).
Proof. intros. unfold cutPage. by rewrite (proj2 (Z.ltb_ge _ _)). Qed.

Lemma cutPage_more {T} (limit : nat) (cursorOf : T → string) l1 x l2 :
  length l1 = pred limit → limit ≠ 0 → l2 ≠ [] →
  cutPage (Z.of_nat limit) cursorOf (l1 ++ x :: l2) =
  Ok (mkPage (Some (cursorOf x)) (l1 ++ [x])).
Proof.
  intros Hl1 Hlim Hl2. unfold cutPage, len.
  rewrite (proj2 (Z.ltb_lt _ _)).
  2: { rewrite length_app. simpl. destruct l2; [done|simpl; lia]. }
  rewrite slice_to_ok by (unfold len; rewrite length_app; simpl; lia).
  rewrite Nat2Z.id, (cons_middle x l1 l2), app_assoc, take_app_length'
    by (rewrite length_app; simpl; lia).
  cbn [mbind outcome_bind]. fold (len (l1 ++ [x])). by rewrite index_last, last_snoc.
Qed.

Lemma cutPage_panics {T} limit (cursorOf : T → string) l :
  cutPage limit cursorOf l = Panic ↔ (limit ≤ 0)%Z ∧ l ≠ [] ∨ (limit < 0)%Z.
Proof.
  unfold cutPage. destruct (Z.ltb_spec limit (len l)) as [H|H].
  - unfold slice_to. case_bool_decide as Hb; cbn [mbind outcome_bind].
    + rewrite index_last. destruct (decide (limit = 0%Z)) as [->|Hne].
      * rewrite Z2Nat.inj_0, take_0. simpl. split; [|done]. intros _. left.
        split; [lia|]. intros ->. unfold len in H. simpl in H. lia.
      * destruct (last (take (Z.to_nat limit) l)) eqn:E; simpl.
        { split; [done|lia]. }
        exfalso. apply last_None in E. apply (f_equal length) in E.
        rewrite length_take in E. unfold len in *. simpl in E. lia.
    + split; [intros _|done]. right. unfold len in *. lia.
  - unfold len in *. split; [done|]. intros [[? Hne]|?]; [|lia].
    destruct l; [done|simpl in *; lia].
Qed.

Section PagesCut.
Context {T : Type} (getPage : GetPageFunc T) (limit : nat) (cursorOf : T → string).
Context (rows : list T).
Implicit Types (l : list T) (x : T).
(** resuming from an entry's cursor serves what follows that entry *)
Context (Hlimit : limit ≠ 0).
Context (Hresume : ∀ l1 x l2, rows = l1 ++ x :: l2 → l2 ≠ [] →
  getPage {| cfgCursor := Some (cursorOf x); cfgLimit := None |} =
  cutPage (Z.of_nat limit) cursorOf l2).

Lemma Pages_cut l2 : ∀ cur l1,
  rows = l1 ++ l2 →
  getPage {| cfgCursor := cur; cfgLimit := None |} = cutPage (Z.of_nat limit) cursorOf l2 →
  Pages getPage cur l2.
Proof using Hlimit Hresume.
  induction (well_founded_ltof _ (@length T) l2) as [l2 _ IH]. intros cur l1 Hrows Hget.
  destruct (decide (length l2 ≤ limit)) as [Hle|Hgt].
  - rewrite cutPage_all in Hget by (unfold len; lia). by constructor.
  - destruct (drop (pred limit) l2) as [|x rest] eqn:Ed.
    { apply (f_equal length) in Ed. rewrite length_drop in Ed. simpl in Ed. lia. }
    pose proof (take_drop (pred limit) l2) as Hl2. rewrite Ed in Hl2.
    assert (length (take (pred limit) l2) = pred limit) as Ha by (rewrite length_take; lia).
    revert Hl2 Ha. generalize (take (pred limit) l2) as l2a. intros l2a <- Ha.
    clear Ed.
    assert (rest ≠ []) by (intros ->; rewrite length_app in Hgt; simpl in Hgt; lia).
    rewrite cutPage_more in Hget by done.
    rewrite (cons_middle x l2a rest), app_assoc.
    eapply Pages_more; [done|by destruct l2a|].
    eapply (IH rest).
    + unfold ltof. rewrite length_app. simpl. lia.
    + rewrite Hrows. by rewrite (cons_middle x l2a rest), !app_assoc.
    + eapply (Hresume (l1 ++ l2a)); [|done]. by rewrite Hrows, <-app_assoc.
Qed.
End PagesCut.

(** ** Cursors that pass over the last entry

    The customer and delegation stores advance past the entry the cursor names
    only when something follows it: a cursor naming the last entry, like one
    naming no entry, starts over. *)
Definition resumeWithin {T} (cursorOf : T → string) (cur : option string) (l : list T)
    : outcome (list T) :=
  match cur with
  | Some c =>
      match indexFunc (λ x, bool_decide (cursorOf x = c)) l with
      | Some i => if (Z.of_nat i + 1 <? len l)%Z then slice_from l (Z.of_nat i + 1) else Ok l
      | None => Ok l
      end
  | None => Ok l
  end.

Lemma resumeWithin_next {T} (cursorOf : T → string) (l1 l2 : list T) x :
  NoDup (cursorOf <$> l1 ++ x :: l2) → l2 ≠ [] →
  resumeWithin cursorOf (Some (cursorOf x)) (l1 ++ x :: l2) = Ok l2.
Proof.
  intros Hnd Hne. unfold resumeWithin. rewrite (indexFunc_key cursorOf) by done.
  rewrite (proj2 (Z.ltb_lt _ _)); [apply slice_from_suffix|].
  unfold len. rewrite length_app. destruct l2; [done|]. simpl. lia.
Qed.
Lemma resumeWithin_last {T} (cursorOf : T → string) (l : list T) x :
  NoDup (cursorOf <$> l ++ [x]) →
  resumeWithin cursorOf (Some (cursorOf x)) (l ++ [x]) = Ok (l ++ [x]).
Proof.
  intros Hnd. unfold resumeWithin. rewrite (indexFunc_key cursorOf) by done.
  rewrite (proj2 (Z.ltb_ge _ _)); [done|]. unfold len. rewrite length_app. simpl. lia.
Qed.
Lemma resumeWithin_Pages {T} (cursorOf : T → string) (l : list T) (limit : nat) :
  limit ≠ 0 → NoDup (cursorOf <$> l) →
  Pages (λ cfg, rs ← resumeWithin cursorOf (cfgCursor cfg) l;
                cutPage (Z.of_nat limit) cursorOf rs) None l.
Proof.
  intros Hlim Hnd. apply (Pages_cut _ limit cursorOf l Hlim) with (l1 := []); [|done|done].
  intros l1 x l2 -> Hne. cbn [cfgCursor]. by rewrite resumeWithin_next.
Qed.

(** ** Cursors that count

    The consumer and subscription stores name a position: the index after the
    page's last record in the whole listing, in decimal. *)
Definition listIndexed {T} `{EqDecision T} (all : list T) (cur : option string) (limit : Z)
    : outcome (Page T) :=
  results ← match cur with
            | Some c =>
                i ← owrap "invalid cursor" (Atoi c);
                if (i <? 0)%Z || (len all <? i)%Z then Err (Errorf "cursor out of bounds")
                else slice_from all i
            | None => Ok all
            end;
  if (limit <? len results)%Z then
    results ← slice_to results limit;
    last ← index results (len results - 1);
    let idx := match indexFunc (λ x, bool_decide (x = last)) all with
               | Some i => Z.of_nat i
               | None => (-1)%Z
               end in
    Ok (mkPage (Some (Itoa (idx + 1))) results)
  else Ok (mkPage None results).

Lemma listIndexed_cut {T} `{EqDecision T} (all : list T) cur limit :
  listIndexed all cur limit =
  (results ← match cur with
             | Some c =>
                 i ← owrap "invalid cursor" (Atoi c);
                 if (i <? 0)%Z || (len all <? i)%Z then Err (Errorf "cursor out of bounds")
                 else slice_from all i
             | None => Ok all
             end;
   cutPage limit (λ x, Itoa (match indexFunc (λ y, bool_decide (y = x)) all with
                             | Some i => Z.of_nat i
                             | None => (-1)%Z
                             end + 1)) results).
Proof. done. Qed.

Lemma listIndexed_Pages {T} `{EqDecision T} (all : list T) (limit : nat) :
  limit ≠ 0 → NoDup all → (len all ≤ max_int64)%Z →
  Pages (λ cfg, listIndexed all (cfgCursor cfg) (Z.of_nat limit)) None all.
Proof.
  intros Hlim Hnd Hlen.
  eapply (Pages_cut _ limit (λ x, Itoa (match indexFunc (λ y, bool_decide (y = x)) all with
    | Some i => Z.of_nat i | None => (-1)%Z end + 1)) all Hlim) with (l1 := []); [|done|done].
  intros l1 x l2 Hl _. rewrite listIndexed_cut. cbn [cfgCursor].
  assert (indexFunc (λ y, bool_decide (y = x)) all = Some (length l1)) as Hi.
  { rewrite Hl. apply (indexFunc_key id). by rewrite list_fmap_id, <-Hl. }
  rewrite Hi. unfold len, max_int64 in Hlen.
  assert (length l1 < length all) as Hlt by (rewrite Hl, length_app; simpl; lia).
  rewrite Atoi_Itoa by (unfold is_int64; lia). cbn [owrap mbind outcome_bind].
  rewrite (proj2 (Z.ltb_ge _ _)), (proj2 (Z.ltb_ge _ _)) by (unfold len; lia). cbn [orb].
  assert (slice_from all (Z.of_nat (length l1) + 1) = Ok l2) as ->; [|done].
  rewrite Hl. apply slice_from_suffix.
Qed.

(** ** base64, unpadded and URL-safe: [base64.RawURLEncoding] *)
Definition b64alphabet : string :=
  "ABCDEFGHIJKLMNOPQRSTUVWXYZabcdefghijklmnopqrstuvwxyz0123456789-_".
Definition b64char (n : N) : Ascii.ascii :=
  match String.get (N.to_nat n) b64alphabet with Some c => c | None => Ascii.zero end.
Fixpoint b64find (s : string) (c : Ascii.ascii) (n : N) : option N :=
  match s with
  | EmptyString => None
  | String c' s' => if Ascii.eqb c c' then Some n else b64find s' c (n + 1)
  end.
Definition b64value (c : Ascii.ascii) : option N := b64find b64alphabet c 0.

Fixpoint sextets (bs : list N) : list N :=
  match bs with
  | a :: b :: c :: bs' =>
      (a / 4 :: (a `mod` 4) * 16 + b / 16 :: (b `mod` 16) * 4 + c / 64 :: c `mod` 64 :: sextets bs')%N
  | [a; b] => [a / 4; (a `mod` 4) * 16 + b / 16; (b `mod` 16) * 4]%N
  | [a] => [a / 4; (a `mod` 4) * 16]%N
  | [] => []
  end.
Fixpoint octets (ss : list N) : option (list N) :=
  match ss with
  | p :: q :: r :: s :: ss' =>
      rest ← octets ss';
      Some (p * 4 + q / 16 :: (q `mod` 16) * 16 + r / 4 :: (r `mod` 4) * 64 + s :: rest)%N
  | [p; q; r] => Some [p * 4 + q / 16; (q `mod` 16) * 16 + r / 4]%N
  | [p; q] => Some [p * 4 + q / 16]%N
  | [_] => None
  | [] => Some []
  end.

Definition bytesOf (s : string) : list N := Ascii.N_of_ascii <$> String.list_ascii_of_string s.
Definition ofBytes (bs : list N) : string :=
  String.string_of_list_ascii (Ascii.ascii_of_N <$> bs).
Definition base64Encode (s : string) : string :=
  String.string_of_list_ascii (b64char <$> sextets (bytesOf s)).
(** The decoder skips line breaks, as Go's does. *)
Definition base64Decode (s : string) : outcome string :=
  let cs := filter (λ c, c ≠ Ascii.ascii_of_nat 10 ∧ c ≠ Ascii.ascii_of_nat 13)
                   (String.list_ascii_of_string s) in
  match ss ← mapM b64value cs; octets ss with
  | Some bs => Ok (ofBytes bs)
  | None => Err (Errorf "illegal base64 data")
  end.

Lemma octets_sextets bs : Forall (λ b, (b < 256)%N) bs → octets (sextets bs) = Some bs.
Proof.
  remember (length bs) as n eqn:Hn. revert bs Hn.
  induction (lt_wf n) as [n _ IH]. intros bs -> Hbs.
  destruct bs as [|a [|b [|c bs]]]; cbn [sextets octets]; [done|..].
  all: rewrite ?Forall_cons in Hbs; destruct_and?.
  - do 2 f_equal; divmod.
  - do 2 f_equal; [divmod|f_equal; divmod].
  - rewrite (IH (length bs)); [|simpl; lia|done..]. cbn [mbind option_bind].
    f_equal. f_equal; [divmod|]. f_equal; [divmod|]. f_equal. divmod.
Qed.

Lemma sextets_range bs :
  Forall (λ b, (b < 256)%N) bs → Forall (λ n, (n < 64)%N) (sextets bs).
Proof.
  remember (length bs) as n eqn:Hn. revert bs Hn.
  induction (lt_wf n) as [n _ IH]. intros bs -> Hbs.
  destruct bs as [|a [|b [|c bs]]]; cbn [sextets]; [done|..].
  all: rewrite ?Forall_cons in *; destruct_and?; split_and?; try done; try divmod.
  eapply IH; [|done..]. simpl. lia.
Qed.

Lemma b64value_char (n : N) :
  (n < 64)%N →
  b64value (b64char n) = Some n ∧
  b64char n ≠ Ascii.ascii_of_nat 10 ∧ b64char n ≠ Ascii.ascii_of_nat 13.
Proof.
  intros Hn.
  assert (Forall (λ k, b64value (b64char (N.of_nat k)) = Some (N.of_nat k) ∧
    b64char (N.of_nat k) ≠ Ascii.ascii_of_nat 10 ∧
    b64char (N.of_nat k) ≠ Ascii.ascii_of_nat 13) (seq 0 64)) as Hall.
  { apply (bool_decide_unpack _). vm_compute. exact I. }
  rewrite Forall_forall in Hall. specialize (Hall (N.to_nat n)).
  rewrite N2Nat.id in Hall. apply Hall, elem_of_seq. lia.
Qed.

Lemma bytesOf_range s : Forall (λ b, (b < 256)%N) (bytesOf s).
Proof.
  unfold bytesOf. apply Forall_fmap, Forall_true. intros c. apply Ascii.N_ascii_bounded.
Qed.
Lemma ofBytes_bytesOf s : ofBytes (bytesOf s) = s.
Proof.
  unfold ofBytes, bytesOf. rewrite <-list_fmap_compose.
  rewrite (list_fmap_ext _ id), list_fmap_id.
  - apply String.string_of_list_ascii_of_string.
  - intros ? c _. apply Ascii.ascii_N_embedding.
Qed.

Lemma base64_roundtrip s : base64Decode (base64Encode s) = Ok s.
Proof.
  unfold base64Decode, base64Encode.
  rewrite String.list_ascii_of_string_of_list_ascii.
  pose proof (bytesOf_range s) as Hb. pose proof (sextets_range _ Hb) as Hs.
  assert (filter (λ c, c ≠ Ascii.ascii_of_nat 10 ∧ c ≠ Ascii.ascii_of_nat 13)
    (b64char <$> sextets (bytesOf s)) = b64char <$> sextets (bytesOf s)) as ->.
  { apply filter_all, Forall_fmap. eapply Forall_impl; [done|].
    intros n Hn. simpl. by destruct (b64value_char n Hn) as (_ & ? & ?). }
  assert (mapM b64value (b64char <$> sextets (bytesOf s)) = Some (sextets (bytesOf s))) as ->.
  { apply mapM_Some, Forall2_fmap_l, Forall_Forall2_diag.
    eapply Forall_impl; [done|]. intros n Hn. by destruct (b64value_char n Hn). }
  simpl. rewrite octets_sextets by done. by rewrite ofBytes_bytesOf.
Qed.

(** ** The diff log cursor

    [json.Marshal] and [json.Unmarshal] of a [cursorPayload] are the standard
    library's reflective codec. The model takes them as a parameter: all the
    logs rely on is that a payload reads back as itself. [json.Marshal] refuses
    a time whose year is not within [0,9999]; the code drops that error and
    encodes the empty text. *)
Definition marshalable (t : Z) : Prop :=
  (-62167219200 * Second ≤ t < 253402300800 * Second)%Z.

Class CursorJSON `{Ids} := {
  json_Marshal : Z → string → string;
  json_Unmarshal : string → outcome (Z * string);
  json_roundtrip t (c : Cid) : marshalable t →
    json_Unmarshal (json_Marshal t (cid_String c)) = Ok (t, cid_String c);
}.

Section Cursor.
Context `{CursorJSON}.

Definition EncodeCursor (receiptAt : Z) (cause : string) : string :=
  base64Encode (json_Marshal receiptAt cause).
Definition DecodeCursor (cursor : string) : outcome (Z * string) :=
  b ← base64Decode cursor;
  json_Unmarshal b.

Lemma DecodeCursor_EncodeCursor t (c : Cid) :
  marshalable t → DecodeCursor (EncodeCursor t (cid_String c)) = Ok (t, cid_String c).
Proof.
  intros Ht. unfold DecodeCursor, EncodeCursor. rewrite base64_roundtrip.
  by apply json_roundtrip.
Qed.
End Cursor.

(** A codec for the witnesses: the payload as one decimal number. *)
Definition numberMarshal (t : Z) (c : string) : string := Itoa (Zpos (encode (t, c))).
Definition numberUnmarshal (s : string) : outcome (Z * string) :=
  match option_map Z.of_int (NilZero.int_of_string s) with
  | Some (Zpos p) =>
      match decode p with Some tc => Ok tc | None => Err (Errorf "payload") end
  | _ => Err (Errorf "payload")
  end.
Lemma number_roundtrip t c : numberUnmarshal (numberMarshal t c) = Ok (t, c).
Proof.
  unfold numberUnmarshal, numberMarshal. rewrite int_of_string_Itoa. cbn [option_map].
  by rewrite DecimalZ.of_to, decode_encode.
Qed.
Definition NumberJSON `{Ids} : CursorJSON := {|
  json_Marshal := numberMarshal;
  json_Unmarshal := numberUnmarshal;
  json_roundtrip t c _ := number_roundtrip t (cid_String c);
|}.
