(* ===== verification/DiffLog.v ===== *)
(** * What the two diff logs share

    [pkg/store/space_diff] and [pkg/store/upload_diff] keep rows of the same
    shape in the same order, and resume a listing from the same cursor. *)
From S2P Require Export Store.

Section DiffLog.
Context `{Ids}.

Record DifferenceRecord := {
  Space : DID;
  Cause : Cid;
  Delta : Z;
  ReceiptAt : Z;
  InsertedAt : Z;
}.

#[export] Instance DifferenceRecord_eq_dec : EqDecision DifferenceRecord.
Proof. solve_decision. Defined.

(** The key rows are listed in, and the order on keys. *)
Definition rowKey (d : DifferenceRecord) : Z * string := (ReceiptAt d, cid_String (Cause d)).
Definition keyLe (k1 k2 : Z * string) : Prop :=
  (k1.1 < k2.1)%Z ∨ k1.1 = k2.1 ∧ String.le k1.2 k2.2.
Definition rowLe (a b : DifferenceRecord) : Prop := keyLe (rowKey a) (rowKey b).

#[export] Instance keyLe_dec : RelDecision keyLe.
Proof. intros ??. apply _. Defined.
#[export] Instance rowLe_dec : RelDecision rowLe.
Proof. intros ??. apply _. Defined.
#[export] Instance keyLe_preorder : PreOrder keyLe.
Proof.
  unfold keyLe. split.
  - intros [t c]. simpl. auto.
  - intros [t1 c1] [t2 c2] [t3 c3]; simpl.
    intros [?|[-> H1]] [?|[-> H2]]; [left; lia|left; lia|left; lia|].
    right. split; [done|]. by etrans.
Qed.
#[export] Instance keyLe_antisymm : AntiSymm (=) keyLe.
Proof.
  unfold keyLe. intros [t1 c1] [t2 c2]; simpl. intros [?|[-> H1]] [?|[? H2]]; try lia.
  f_equal. by apply (anti_symm String.le).
Qed.
#[export] Instance keyLe_total : Total keyLe.
Proof.
  unfold keyLe. intros [t1 c1] [t2 c2]; simpl.
  destruct (Z.lt_trichotomy t1 t2) as [?|[->|?]]; [auto| |auto].
  destruct (total String.le c1 c2); auto.
Qed.
#[export] Instance rowLe_preorder : PreOrder rowLe.
Proof. unfold rowLe. split; [by intros ?|]. intros ???. by etrans. Qed.
#[export] Instance rowLe_total : Total rowLe.
Proof. intros ??. apply keyLe_total. Qed.

Definition sortRows (l : list DifferenceRecord) : list DifferenceRecord := sortFunc rowLe l.

Lemma sortRows_sorted l : StronglySorted rowLe (sortRows l).
Proof. apply StronglySorted_merge_sort; apply _. Qed.
Lemma sortRows_perm l : sortRows l ≡ₚ l.
Proof. apply merge_sort_Permutation. Qed.

(** The sum of the deltas of the rows that satisfy [P]. *)
Definition sumDelta (l : list DifferenceRecord) : Z := foldr (λ d acc, Delta d + acc)%Z 0%Z l.
Lemma sumDelta_app l1 l2 : sumDelta (l1 ++ l2) = (sumDelta l1 + sumDelta l2)%Z.
Proof. induction l1 as [|d l1 IH]; simpl; [done|]. rewrite IH. lia. Qed.
#[export] Instance sumDelta_perm : Proper ((≡ₚ) ==> (=)) sumDelta.
Proof. induction 1; simpl; lia. Qed.

(** A sum over two disjoint halves. *)
Lemma sumDelta_split (P Q R : DifferenceRecord → Prop)
    `{∀ d, Decision (P d)} `{∀ d, Decision (Q d)} `{∀ d, Decision (R d)} l :
  (∀ d, d ∈ l → (P d ↔ Q d ∨ R d) ∧ ¬ (Q d ∧ R d)) →
  sumDelta (filter P l) = (sumDelta (filter Q l) + sumDelta (filter R l))%Z.
Proof.
  induction l as [|d l IH]; intros Hl; [done|].
  destruct (Hl d) as [Hd Hn]; [left|].
  rewrite !filter_cons. specialize (IH (λ e He, Hl e (list_elem_of_further _ _ _ He))).
  repeat case_decide; simpl; try lia; exfalso; tauto.
Qed.
Lemma sumDelta_filter_iff (P Q : DifferenceRecord → Prop)
    `{∀ d, Decision (P d)} `{∀ d, Decision (Q d)} l :
  (∀ d, d ∈ l → (P d ↔ Q d)) → sumDelta (filter P l) = sumDelta (filter Q l).
Proof.
  intros Hl. induction l as [|d l IH]; [done|]. rewrite !filter_cons.
  specialize (IH (λ e He, Hl e (list_elem_of_further _ _ _ He))).
  destruct (Hl d) as [? ?]; [left|]. repeat case_decide; simpl; try lia; exfalso; tauto.
Qed.

(** A predicate closed upwards keeps a suffix of a sorted log. *)
Lemma filter_suffix (P : DifferenceRecord → Prop) `{∀ d, Decision (P d)} l :
  StronglySorted rowLe l →
  (∀ a b, rowLe a b → P a → P b) →
  ∃ l1, l = l1 ++ filter P l ∧ Forall (λ d, ¬ P d) l1.
Proof.
  intros Hs Hup. induction Hs as [|d l Hs (l1 & IH & Hl1) Hd]; [by exists []|].
  destruct (decide (P d)) as [Hp|Hn].
  - exists []. split; [|done]. rewrite filter_all; [done|].
    constructor; [done|]. eapply Forall_impl; [done|]. eauto.
  - exists (d :: l1). rewrite filter_cons_False by done. simpl. rewrite <-IH. auto.
Qed.

(** [rows] after the row a cursor names. *)
Definition strictlyAfter (k : Z * string) (d : DifferenceRecord) : Prop := ¬ keyLe (rowKey d) k.
#[export] Instance strictlyAfter_dec k d : Decision (strictlyAfter k d).
Proof. apply _. Defined.

Lemma strictlyAfter_suffix l1 x l2 :
  StronglySorted rowLe (l1 ++ x :: l2) → NoDup (rowKey <$> (l1 ++ x :: l2)) →
  filter (strictlyAfter (rowKey x)) (l1 ++ x :: l2) = l2.
Proof.
  intros Hs Hnd. rewrite filter_app, filter_cons_False; [|by intros []].
  rewrite (filter_none _ l1); [|].
  - rewrite filter_all; [done|]. apply Forall_forall. intros d Hd Hle.
    assert (rowKey d = rowKey x) as Heq.
    { apply (anti_symm keyLe); [done|].
      eapply (StronglySorted_app_1_elem_of rowLe (l1 ++ [x]) l2); [|set_solver|done].
      by rewrite <-app_assoc. }
    rewrite fmap_app, fmap_cons in Hnd. apply NoDup_app in Hnd as (_ & _ & Hnd).
    apply NoDup_cons in Hnd as [Hnin _]. apply Hnin. rewrite <-Heq. by apply list_elem_of_fmap_2.
  - apply Forall_forall. intros d Hd Hn. apply Hn.
    eapply (StronglySorted_app_1_elem_of rowLe l1 (x :: l2)); [done|done|left].
Qed.
End DiffLog.
