(* ===== verification/SpaceDiff.v ===== *)
(** * The space diff log: [pkg/store/space_diff]

    One row per change of a space's bytes, in the memory backend of
    [pkg/store/space_diff/memory/store.go]. *)
From S2P Require Export DiffLog.

Module SpaceDiff.
Section SpaceDiff.
Context `{CursorJSON}.

(** space -> rows, sorted by (receiptAt, cause) *)
Record Store := { diffs : gmap DID (list DifferenceRecord) }.
Definition New : Store := {| diffs := ∅ |}.
Definition rows (s : Store) (space : DID) : list DifferenceRecord :=
  default [] (diffs s !! space).

(** Whether a row sorts after the (receiptAt, cause) a cursor names. *)
Definition afterKey (d : DifferenceRecord) (receiptAt : Z) (cause : string) : bool :=
  if bool_decide (ReceiptAt d = receiptAt)
  then negb (String.leb (cid_String (Cause d)) cause)
  else bool_decide (receiptAt < ReceiptAt d)%Z.

(** The loop of [List]: it stops one past the limit. *)
Fixpoint listLoop (limit : Z) (keep : DifferenceRecord → bool)
    (rs ds : list DifferenceRecord) : list DifferenceRecord :=
  match rs with
  | [] => ds
  | d :: rs =>
      if keep d then
        let ds := ds ++ [d] in
        if (limit <? len ds)%Z then ds else listLoop limit keep rs ds
      else listLoop limit keep rs ds
  end.

Definition List (s : Store) (space : DID) (after : Z) (cfg : PaginationConfig)
    : outcome (Page DifferenceRecord) :=
  let limit := default 1000%Z (cfgLimit cfg) in
  keep ← match cfgCursor cfg with
         | Some c =>
             '(t, cause) ← owrap "invalid cursor" (DecodeCursor c);
             Ok (λ d, afterKey d t cause)
         | None => Ok (λ d, bool_decide (after < ReceiptAt d)%Z)
         end;
  let ds := listLoop limit keep (rows s space) [] in
  if (limit <? len ds)%Z then
    ds ← slice_to ds limit;
    last ← index ds (len ds - 1);
    Ok (mkPage (Some (EncodeCursor (ReceiptAt last) (cid_String (Cause last)))) ds)
  else Ok (mkPage None ds).

(** [now] is the reading of the clock the row is stamped with. *)
Definition Put (space : DID) (cause : Cid) (delta receiptAt now : Z) (s : Store) : Store :=
  let row := {| Space := space; Cause := cause; Delta := delta;
                ReceiptAt := receiptAt; InsertedAt := now |} in
  {| diffs := <[space := sortRows (rows s space ++ [row])]> (diffs s) |}.

(** ** The log keeps its rows sorted *)
Definition sorted (s : Store) : Prop := ∀ space, StronglySorted rowLe (rows s space).

Lemma spaceDiff_rows_Put space cause delta at' now s space' :
  rows (Put space cause delta at' now s) space' =
  if decide (space' = space)
  then sortRows (rows s space ++
         [{| Space := space; Cause := cause; Delta := delta;
             ReceiptAt := at'; InsertedAt := now |}])
  else rows s space'.
Proof.
  unfold rows at 1, Put. simpl. case_decide; subst.
  - by rewrite lookup_insert_eq.
  - by rewrite lookup_insert_ne.
Qed.

Lemma sorted_New : sorted New.
Proof. intros space. unfold rows, New. simpl. rewrite lookup_empty. constructor. Qed.
Lemma sorted_Put space cause delta at' now s :
  sorted s → sorted (Put space cause delta at' now s).
Proof.
  intros Hs space'. rewrite spaceDiff_rows_Put. case_decide; [|done]. apply sortRows_sorted.
Qed.
Lemma spaceDiff_sumDelta_Put space cause delta at' now s space' :
  sumDelta (rows (Put space cause delta at' now s) space') =
  (sumDelta (rows s space') + if decide (space' = space) then delta else 0)%Z.
Proof.
  rewrite spaceDiff_rows_Put. case_decide; [|lia]. subst.
  rewrite sortRows_perm, sumDelta_app. simpl. lia.
Qed.

(** ** Listing *)
Lemma listLoop_take limit keep rs ds :
  (len ds ≤ limit)%Z →
  listLoop limit keep rs ds =
  take (S (Z.to_nat limit)) (ds ++ filter (λ d, keep d = true) rs).
Proof.
  revert ds. induction rs as [|d rs IH]; intros ds Hlen; simpl.
  - rewrite app_nil_r, take_ge; [done|]. unfold len in Hlen. lia.
  - destruct (keep d) eqn:Hk.
    + rewrite filter_cons_True by done.
      destruct (Z.ltb_spec limit (len (ds ++ [d]))) as [Hlt|Hge].
      * rewrite (cons_middle d ds (filter _ rs)), app_assoc, take_app_length'; [done|].
        unfold len in *. rewrite length_app in *. simpl in *. lia.
      * rewrite IH by done. by rewrite <-app_assoc.
    + rewrite filter_cons_False by congruence. by apply IH.
Qed.

(** The early exit of the loop is not observable. *)
Lemma spaceDiff_List_cut limit keep (rs : list DifferenceRecord) :
  (0 ≤ limit)%Z →
  let ds := listLoop limit keep rs [] in
  (if (limit <? len ds)%Z then
    ds ← slice_to ds limit;
    last ← index ds (len ds - 1);
    Ok (mkPage (Some (EncodeCursor (ReceiptAt last) (cid_String (Cause last)))) ds)
  else Ok (mkPage None ds)) =
  cutPage limit (λ d, EncodeCursor (ReceiptAt d) (cid_String (Cause d)))
    (filter (λ d, keep d = true) rs).
Proof.
  intros Hlim. rewrite listLoop_take by (unfold len; simpl; lia). simpl.
  set (l := filter _ rs). unfold cutPage, len.
  destruct (Z.ltb_spec limit (Z.of_nat (length l))) as [Hlt|Hge].
  - rewrite (proj2 (Z.ltb_lt _ _)) by (rewrite length_take; lia).
    rewrite !slice_to_ok by (unfold len; rewrite ?length_take; lia).
    cbn [mbind outcome_bind]. rewrite take_take.
    by replace (Z.to_nat limit `min` S (Z.to_nat limit)) with (Z.to_nat limit) by lia.
  - rewrite (proj2 (Z.ltb_ge _ _)) by (rewrite length_take; lia).
    rewrite take_ge by lia. done.
Qed.

Lemma afterKey_strictlyAfter d t c :
  afterKey d t c = true ↔ strictlyAfter (t, c) d.
Proof.
  unfold afterKey, strictlyAfter, keyLe, rowKey, String.le. simpl.
  case_bool_decide; [|rewrite bool_decide_eq_true; lia].
  rewrite negb_true_iff.
  destruct (String.leb _ c); split; intros Hx; [done| | |done].
  - exfalso. apply Hx. auto.
  - intros [?|[_ ?]]; [lia|done].
Qed.

(** What a listing is to serve: the rows issued after [after], in order. *)
Definition since (s : Store) (space : DID) (after : Z) : list DifferenceRecord :=
  filter (λ d, after < ReceiptAt d)%Z (rows s space).

Lemma spaceDiff_List_Pages (limit : nat) s space after :
  limit ≠ 0 →
  StronglySorted rowLe (rows s space) →
  NoDup (rowKey <$> rows s space) →
  Forall (λ d, marshalable (ReceiptAt d)) (rows s space) →
  Pages (λ cfg, List s space after
           {| cfgCursor := cfgCursor cfg; cfgLimit := Some (Z.of_nat limit) |})
    None (since s space after).
Proof.
  intros Hlim Hs Hnd Hm.
  destruct (filter_suffix (λ d, after < ReceiptAt d)%Z (rows s space)) as (l1 & Hl1 & _);
    [done| |].
  { unfold rowLe, keyLe, rowKey. simpl. lia. }
  eapply (Pages_cut _ limit (λ d, EncodeCursor (ReceiptAt d) (cid_String (Cause d)))
            (rows s space) Hlim); [|exact Hl1|].
  - intros l1' x l2 Hrows _. unfold List. cbn [cfgCursor cfgLimit default from_option id].
    rewrite Hrows, Forall_app, Forall_cons in Hm. destruct Hm as (_ & Hx & _).
    rewrite DecodeCursor_EncodeCursor by done. cbn [owrap mbind outcome_bind].
    rewrite spaceDiff_List_cut by lia. f_equal.
    rewrite <-(strictlyAfter_suffix l1' x l2) by (by rewrite <-Hrows). rewrite <-Hrows.
    apply list_filter_iff. intros d. apply afterKey_strictlyAfter.
  - unfold List. cbn [cfgCursor cfgLimit default from_option id mbind outcome_bind].
    rewrite spaceDiff_List_cut by lia. f_equal. apply list_filter_iff. intros d. by rewrite bool_decide_eq_true.
Qed.
End SpaceDiff.
End SpaceDiff.
