(* ===== verification/UploadDiff.v ===== *)
(** * The upload diff log: [pkg/store/upload_diff]

    One row per change of a space's object count, in the memory backend of
    [pkg/store/upload_diff/memory/store.go]. It differs from the space diff log
    in three ways: times are kept to the microsecond, recording the same change
    twice does nothing, and a non-positive limit means none was given. *)
From S2P Require Export DiffLog.

Module UploadDiff.
Section UploadDiff.
Context `{CursorJSON}.

Definition Instant (t : Z) : Z := Truncate t Microsecond.
Definition defaultListLimit : Z := 1000.

Record Store := { diffs : gmap DID (list DifferenceRecord) }.
Definition New : Store := {| diffs := ∅ |}.
Definition rows (s : Store) (space : DID) : list DifferenceRecord :=
  default [] (diffs s !! space).

Definition List (s : Store) (space : DID) (after : Z) (cfg : PaginationConfig)
    : outcome (Page DifferenceRecord) :=
  let limit := match cfgLimit cfg with
               | Some n => if (0 <? n)%Z then n else defaultListLimit
               | None => defaultListLimit
               end in
  skip ← match cfgCursor cfg with
         | Some c =>
             '(cursorAt, cursorCause) ← owrap "invalid cursor" (DecodeCursor c);
             Ok (λ d, (ReceiptAt d <? cursorAt)%Z
                      || (ReceiptAt d =? cursorAt)%Z
                         && String.leb (cid_String (Cause d)) cursorCause)
         | None => Ok (λ d, negb (after <? ReceiptAt d)%Z)
         end;
  let ds := filter (λ d, skip d = false) (rows s space) in
  if (limit <? len ds)%Z then
    ds ← slice_to ds limit;
    last ← index ds (len ds - 1);
    Ok (mkPage (Some (EncodeCursor (ReceiptAt last) (cid_String (Cause last)))) ds)
  else Ok (mkPage None ds).

(** Whether the log already holds the change. *)
Definition recorded (rs : list DifferenceRecord) (cause : Cid) (at' : Z) : bool :=
  containsFunc (λ d, bool_decide (Cause d = cause) && bool_decide (ReceiptAt d = at')) rs.

Definition Put (space : DID) (cause : Cid) (delta receiptAt now : Z) (s : Store)
    : bool * Store :=
  let at' := Instant receiptAt in
  if recorded (rows s space) cause at' then (false, s)
  else
    let row := {| Space := space; Cause := cause; Delta := delta;
                  ReceiptAt := at'; InsertedAt := now |} in
    (true, {| diffs := <[space := sortRows (rows s space ++ [row])]> (diffs s) |}).

(** ** Invariant: sorted, and no change recorded twice *)
Definition wf (s : Store) : Prop :=
  ∀ space, StronglySorted rowLe (rows s space) ∧ NoDup (rowKey <$> rows s space).

Lemma Instant_le t : (Instant t ≤ t < Instant t + Microsecond)%Z.
Proof.
  unfold Instant, Truncate, Microsecond.
  pose proof (Z.mod_pos_bound (t - zeroTime) 1000 ltac:(lia)). lia.
Qed.
Lemma Instant_idemp t : Instant (Instant t) = Instant t.
Proof. unfold Instant, Truncate, Microsecond, zeroTime. divmod. Qed.

Lemma recorded_true rs cause at' :
  recorded rs cause at' = true ↔ (at', cid_String cause) ∈ (rowKey <$> rs).
Proof.
  unfold recorded. rewrite containsFunc_true, list_elem_of_fmap. split.
  - intros (d & ? & [Hc Ha]%andb_true_iff). exists d.
    rewrite bool_decide_eq_true in Hc, Ha. by unfold rowKey; rewrite Hc, Ha.
  - intros (d & [= Ha Hc] & ?). exists d. split; [done|].
    apply (inj cid_String) in Hc as ->. subst. by rewrite !bool_decide_eq_true_2.
Qed.

Lemma uploadDiff_rows_Put space cause delta at' now s space' :
  rows (Put space cause delta at' now s).2 space' =
  if decide (space' = space ∧ recorded (rows s space) cause (Instant at') = false)
  then sortRows (rows s space ++
         [{| Space := space; Cause := cause; Delta := delta;
             ReceiptAt := Instant at'; InsertedAt := now |}])
  else rows s space'.
Proof.
  unfold Put. destruct (recorded _ _ _) eqn:E; simpl.
  - rewrite decide_False by (intros [_ ?]; done). done.
  - unfold rows at 1. simpl. destruct (decide (space' = space)) as [->|Hne].
    + rewrite decide_True by done. by rewrite lookup_insert_eq.
    + rewrite decide_False by (intros [? _]; done). by rewrite lookup_insert_ne.
Qed.

Lemma uploadDiff_wf_New : wf New.
Proof.
  intros space. unfold rows, New. simpl. rewrite lookup_empty. split; constructor.
Qed.
Lemma wf_Put space cause delta at' now s :
  wf s → wf (Put space cause delta at' now s).2.
Proof.
  intros Hwf space'. rewrite uploadDiff_rows_Put. case_decide as Hd; [|done].
  destruct Hd as [-> Hrec]. split; [apply sortRows_sorted|].
  rewrite sortRows_perm, fmap_app. simpl. rewrite Permutation_app_comm. simpl.
  constructor; [|apply Hwf].
  intros Hin. apply recorded_true in Hin. simpl in Hin. congruence.
Qed.
Lemma uploadDiff_sumDelta_Put space cause delta at' now s space' :
  sumDelta (rows (Put space cause delta at' now s).2 space') =
  (sumDelta (rows s space') +
   if decide (space' = space) then
     if (Put space cause delta at' now s).1 then delta else 0
   else 0)%Z.
Proof.
  rewrite uploadDiff_rows_Put. unfold Put.
  destruct (decide (space' = space)) as [->|Hne];
    [|rewrite decide_False by (intros [? _]; done); lia].
  destruct (recorded _ _ _) eqn:E; simpl.
  - rewrite decide_False by (intros [_ ?]; done). lia.
  - rewrite decide_True by done. rewrite sortRows_perm, sumDelta_app. simpl. lia.
Qed.

(** ** Listing *)
Definition since (s : Store) (space : DID) (after : Z) : list DifferenceRecord :=
  filter (λ d, after < ReceiptAt d)%Z (rows s space).

Lemma skip_strictlyAfter d t c :
  (ReceiptAt d <? t)%Z || (ReceiptAt d =? t)%Z && String.leb (cid_String (Cause d)) c = false
  ↔ strictlyAfter (t, c) d.
Proof.
  unfold strictlyAfter, keyLe, rowKey, String.le. simpl.
  rewrite orb_false_iff, andb_false_iff, Z.ltb_ge, Z.eqb_neq.
  destruct (String.leb _ c); split.
  - intros [? [?|?]]; [lia|done].
  - intros Hn. split; [lia|]. left. intros Heq. apply Hn. auto.
  - intros [? _] [?|[_ ?]]; [lia|done].
  - intros Hn. split; [lia|]. auto.
Qed.

Lemma uploadDiff_List_Pages (limit : nat) s space after :
  limit ≠ 0 → wf s →
  Forall (λ d, marshalable (ReceiptAt d)) (rows s space) →
  Pages (λ cfg, List s space after
           {| cfgCursor := cfgCursor cfg; cfgLimit := Some (Z.of_nat limit) |})
    None (since s space after).
Proof.
  intros Hlim Hwf Hm. destruct (Hwf space) as [Hs Hnd].
  destruct (filter_suffix (λ d, after < ReceiptAt d)%Z (rows s space)) as (l1 & Hl1 & _);
    [done| |].
  { unfold rowLe, keyLe, rowKey. simpl. lia. }
  eapply (Pages_cut _ limit (λ d, EncodeCursor (ReceiptAt d) (cid_String (Cause d)))
            (rows s space) Hlim); [|exact Hl1|].
  - intros l1' x l2 Hrows _. unfold List. cbn [cfgCursor cfgLimit].
    rewrite (proj2 (Z.ltb_lt 0 (Z.of_nat limit))) by lia.
    rewrite Hrows, Forall_app, Forall_cons in Hm. destruct Hm as (_ & Hx & _).
    rewrite DecodeCursor_EncodeCursor by done. cbn [owrap mbind outcome_bind].
    unfold cutPage.
    rewrite <-(strictlyAfter_suffix l1' x l2) by (by rewrite <-Hrows). rewrite <-Hrows.
    by rewrite (list_filter_iff _ (strictlyAfter (rowKey x)))
      by (intros; apply skip_strictlyAfter).
  - unfold List. cbn [cfgCursor cfgLimit mbind outcome_bind].
    rewrite (proj2 (Z.ltb_lt 0 (Z.of_nat limit))) by lia. unfold cutPage.
    by rewrite (list_filter_iff _ (λ d, after < ReceiptAt d)%Z)
      by (intros; rewrite negb_false_iff, Z.ltb_lt; done).
Qed.
End UploadDiff.
End UploadDiff.
