(* ===== verification/Metrics.v ===== *)
(** * Metrics: [pkg/store/metrics]

    The running totals of the service and of each space, in the memory backend
    of [pkg/store/metrics/memory/store.go]. Totals are uint64 and wrap. *)
From S2P Require Export Ids.

Section MetricNames.
Context `{Commands}.
Definition BlobAddTotalMetric : string := blob_Add +:+ "-total".
Definition BlobAddSizeTotalMetric : string := blob_Add +:+ "-size-total".
Definition BlobRemoveTotalMetric : string := blob_Remove +:+ "-total".
Definition BlobRemoveSizeTotalMetric : string := blob_Remove +:+ "-size-total".
Definition UploadAddTotalMetric : string := upload_Add +:+ "-total".
Definition UploadRemoveTotalMetric : string := upload_Remove +:+ "-total".

(** The names as indices, so that comparing two metrics is deciding two
    numbers. *)
Definition metricNames : list string :=
  [BlobAddTotalMetric; BlobAddSizeTotalMetric; BlobRemoveTotalMetric;
   BlobRemoveSizeTotalMetric; UploadAddTotalMetric; UploadRemoveTotalMetric].
Lemma metricNames_ne i j x y :
  metricNames !! i = Some x → metricNames !! j = Some y → i ≠ j → x ≠ y.
Proof.
  intros Hi Hj Hne ->. apply Hne. eapply NoDup_lookup; [|done..]. apply metricNames_NoDup.
Qed.
End MetricNames.

(** Two of the six names are different: find them in the list. *)
Ltac metric_ne :=
  let side := first [by apply (metricNames_ne 0 1)|by apply (metricNames_ne 0 2)
    |by apply (metricNames_ne 0 3)|by apply (metricNames_ne 0 4)|by apply (metricNames_ne 0 5)
    |by apply (metricNames_ne 1 2)|by apply (metricNames_ne 1 3)|by apply (metricNames_ne 1 4)
    |by apply (metricNames_ne 1 5)|by apply (metricNames_ne 2 3)|by apply (metricNames_ne 2 4)
    |by apply (metricNames_ne 2 5)|by apply (metricNames_ne 3 4)|by apply (metricNames_ne 3 5)
    |by apply (metricNames_ne 4 5)] in
  first [side | apply not_eq_sym; side].

Module Metrics.
Section Metrics.
Context `{Ids}.

(** The totals of one scope. *)
Record Store := { metrics : gmap string Z }.
Definition New : Store := {| metrics := ∅ |}.
Definition Get (s : Store) : gmap string Z := metrics s.
(** [m[k]] of a Go map: the zero value when the key is absent. *)
Definition total (m : gmap string Z) (k : string) : Z := default 0%Z (m !! k).
(** [for k, v := range inc { a.metrics[k] += v }] *)
Definition IncrementTotals (inc : gmap string Z) (s : Store) : Store :=
  {| metrics := map_fold (λ k v m, <[k := uint64 (total m k + v)]> m) (metrics s) inc |}.

(** The totals of every space. *)
Record SpaceStore := { spaces : gmap DID Store }.
Definition NewSpaceStore : SpaceStore := {| spaces := ∅ |}.
Definition GetSpace (s : SpaceStore) (space : DID) : gmap string Z :=
  match spaces s !! space with
  | Some st => Get st
  | None => ∅
  end.
Definition IncrementSpaceTotals (space : DID) (inc : gmap string Z) (s : SpaceStore)
    : SpaceStore :=
  {| spaces := <[space := IncrementTotals inc (default New (spaces s !! space))]> (spaces s) |}.

(** ** What an increment does to a total *)
Lemma total_IncrementTotals inc s k :
  total (Get (IncrementTotals inc s)) k =
  match inc !! k with
  | Some v => uint64 (total (Get s) k + v)
  | None => total (Get s) k
  end.
Proof.
  unfold Get, IncrementTotals. simpl. revert k.
  apply (map_fold_weak_ind (λ m inc, ∀ k, total m k =
    match inc !! k with
    | Some v => uint64 (total (metrics s) k + v)
    | None => total (metrics s) k
    end)).
  - intros k. by rewrite lookup_empty.
  - intros i x inc' m Hi IH k. unfold total at 1. destruct (decide (i = k)) as [->|Hne].
    + rewrite !lookup_insert_eq. simpl. rewrite IH, Hi. done.
    + rewrite !lookup_insert_ne by done. apply IH.
Qed.

Lemma GetSpace_IncrementSpaceTotals space inc s space' k :
  total (GetSpace (IncrementSpaceTotals space inc s) space') k =
  match inc !! k with
  | Some v => if decide (space' = space) then uint64 (total (GetSpace s space') k + v)
              else total (GetSpace s space') k
  | None => total (GetSpace s space') k
  end.
Proof.
  unfold GetSpace, IncrementSpaceTotals. simpl. case_decide as Hd.
  - subst. rewrite lookup_insert_eq, total_IncrementTotals.
    destruct (spaces s !! space); simpl; [done|].
    by destruct (inc !! k).
  - rewrite lookup_insert_ne by done. by destruct (inc !! k).
Qed.

(** The sum of a total over every space. *)
Definition sumSpaces (s : SpaceStore) (k : string) : Z :=
  map_fold (λ _ st acc, total (Get st) k + acc)%Z 0%Z (spaces s).

Lemma sumSpaces_insert s space st k :
  sumSpaces {| spaces := <[space := st]> (spaces s) |} k =
  (sumSpaces s k + total (Get st) k - total (GetSpace s space) k)%Z.
Proof.
  unfold sumSpaces, GetSpace. simpl. set (f := λ (_ : DID) st acc, _).
  assert (∀ j1 j2 z1 z2 y, f j1 z1 (f j2 z2 y) = f j2 z2 (f j1 z1 y)) as Hcomm
    by (intros; subst f; simpl; lia).
  rewrite <-insert_delete_eq, map_fold_insert_L; [|auto|by rewrite lookup_delete_eq].
  destruct (spaces s !! space) as [st'|] eqn:E.
  - rewrite (map_fold_delete_L f 0%Z space st' (spaces s)) by auto. subst f. simpl. lia.
  - rewrite delete_id by done. subst f. simpl.
    replace (total (∅ : gmap string Z) k) with 0%Z by (unfold total; by rewrite lookup_empty).
    lia.
Qed.
Lemma sumSpaces_Increment space inc s k :
  uint64 (sumSpaces (IncrementSpaceTotals space inc s) k) =
  uint64 (sumSpaces s k + total inc k).
Proof.
  unfold IncrementSpaceTotals. rewrite sumSpaces_insert, total_IncrementTotals.
  assert (total (Get (default New (spaces s !! space))) k = total (GetSpace s space) k) as ->.
  { unfold GetSpace. by destruct (spaces s !! space). }
  change (total inc k) with (default 0%Z (inc !! k)). destruct (inc !! k) as [v|]; simpl; [|f_equal; lia].
  replace (sumSpaces s k + uint64 (total (GetSpace s space) k + v) - total (GetSpace s space) k)%Z
    with (uint64 (total (GetSpace s space) k + v) + (sumSpaces s k - total (GetSpace s space) k))%Z
    by lia.
  rewrite uint64_add_l. f_equal. lia.
Qed.
End Metrics.
End Metrics.
