(* ===== verification/Ledger.v ===== *)
(** * The ledger: the stores every change of a space is written to

    The memory backend shares one space diff log, one upload diff log, one set
    of space totals and one set of service totals between the blob registry, the
    upload store and the usage service ([internal/fx/store/memory/provider.go]).
    The ledger is the four of them together. *)
From S2P Require Export Metrics SpaceDiff UploadDiff.

Section Ledger.
Context `{CursorJSON} `{Commands}.

Record Ledger := {
  spaceDiffs : SpaceDiff.Store;
  uploadDiffs : UploadDiff.Store;
  spaceMetrics : Metrics.SpaceStore;
  adminMetrics : Metrics.Store;
}.
Definition emptyLedger : Ledger := {|
  spaceDiffs := SpaceDiff.New; uploadDiffs := UploadDiff.New;
  spaceMetrics := Metrics.NewSpaceStore; adminMetrics := Metrics.New |}.

Definition putSpaceDiff (space : DID) (cause : Cid) (delta receiptAt now : Z) (l : Ledger)
    : Ledger :=
  {| spaceDiffs := SpaceDiff.Put space cause delta receiptAt now (spaceDiffs l);
     uploadDiffs := uploadDiffs l; spaceMetrics := spaceMetrics l;
     adminMetrics := adminMetrics l |}.
Definition putUploadDiff (space : DID) (cause : Cid) (delta receiptAt now : Z) (l : Ledger)
    : bool * Ledger :=
  let '(recorded, s) := UploadDiff.Put space cause delta receiptAt now (uploadDiffs l) in
  (recorded, {| spaceDiffs := spaceDiffs l; uploadDiffs := s;
                spaceMetrics := spaceMetrics l; adminMetrics := adminMetrics l |}).
Definition incrementSpace (space : DID) (inc : gmap string Z) (l : Ledger) : Ledger :=
  {| spaceDiffs := spaceDiffs l; uploadDiffs := uploadDiffs l;
     spaceMetrics := Metrics.IncrementSpaceTotals space inc (spaceMetrics l);
     adminMetrics := adminMetrics l |}.
Definition incrementAdmin (inc : gmap string Z) (l : Ledger) : Ledger :=
  {| spaceDiffs := spaceDiffs l; uploadDiffs := uploadDiffs l;
     spaceMetrics := spaceMetrics l;
     adminMetrics := Metrics.IncrementTotals inc (adminMetrics l) |}.

(** What the ledger says about a space. *)
Definition byteRows (l : Ledger) (space : DID) : list DifferenceRecord :=
  SpaceDiff.rows (spaceDiffs l) space.
Definition uploadRows (l : Ledger) (space : DID) : list DifferenceRecord :=
  UploadDiff.rows (uploadDiffs l) space.
Definition spaceTotal (l : Ledger) (space : DID) (k : string) : Z :=
  Metrics.total (Metrics.GetSpace (spaceMetrics l) space) k.
Definition adminTotal (l : Ledger) (k : string) : Z :=
  Metrics.total (Metrics.Get (adminMetrics l)) k.

(** ** How a write shows in what the ledger says *)
Section Writes.
Context (l : Ledger) (space space' : DID) (cause : Cid) (delta at' now : Z).
Context (inc : gmap string Z) (k : string).

Lemma sumDelta_putSpaceDiff :
  sumDelta (byteRows (putSpaceDiff space cause delta at' now l) space') =
  (sumDelta (byteRows l space') + if decide (space' = space) then delta else 0)%Z.
Proof. apply SpaceDiff.spaceDiff_sumDelta_Put. Qed.
Lemma putUploadDiff_spaceTotal :
  spaceTotal (putUploadDiff space cause delta at' now l).2 space' k = spaceTotal l space' k.
Proof. unfold putUploadDiff. by destruct (UploadDiff.Put _ _ _ _ _ _). Qed.
Lemma putUploadDiff_adminTotal :
  adminTotal (putUploadDiff space cause delta at' now l).2 k = adminTotal l k.
Proof. unfold putUploadDiff. by destruct (UploadDiff.Put _ _ _ _ _ _). Qed.
Lemma putUploadDiff_spaceMetrics :
  spaceMetrics (putUploadDiff space cause delta at' now l).2 = spaceMetrics l.
Proof. unfold putUploadDiff. by destruct (UploadDiff.Put _ _ _ _ _ _). Qed.
Lemma putUploadDiff_byteRows :
  byteRows (putUploadDiff space cause delta at' now l).2 space' = byteRows l space'.
Proof. unfold putUploadDiff. by destruct (UploadDiff.Put _ _ _ _ _ _). Qed.
Lemma sumDelta_putUploadDiff :
  sumDelta (uploadRows (putUploadDiff space cause delta at' now l).2 space') =
  (sumDelta (uploadRows l space') +
   if decide (space' = space) then
     if (putUploadDiff space cause delta at' now l).1 then delta else 0
   else 0)%Z.
Proof.
  pose proof (UploadDiff.uploadDiff_sumDelta_Put space cause delta at' now (uploadDiffs l) space') as Hp.
  unfold putUploadDiff. by destruct (UploadDiff.Put _ _ _ _ _ _).
Qed.
Lemma spaceTotal_incrementSpace :
  spaceTotal (incrementSpace space inc l) space' k =
  match inc !! k with
  | Some v => if decide (space' = space) then uint64 (spaceTotal l space' k + v)
              else spaceTotal l space' k
  | None => spaceTotal l space' k
  end.
Proof. apply Metrics.GetSpace_IncrementSpaceTotals. Qed.
Lemma adminTotal_incrementAdmin :
  adminTotal (incrementAdmin inc l) k =
  match inc !! k with
  | Some v => uint64 (adminTotal l k + v)
  | None => adminTotal l k
  end.
Proof. apply Metrics.total_IncrementTotals. Qed.
End Writes.
End Ledger.

(** The totals written under a metric are read back under that metric only. *)
Create Rewrite HintDb ledger.
#[export] Hint Rewrite @sumDelta_putSpaceDiff @putUploadDiff_spaceTotal
  @putUploadDiff_adminTotal @putUploadDiff_byteRows @sumDelta_putUploadDiff
  @spaceTotal_incrementSpace @adminTotal_incrementAdmin : ledger.

(** Look a metric up in the increments of one change. *)
Ltac lookup_metric :=
  rewrite ?lookup_empty;
  repeat first [rewrite lookup_insert_eq
    |rewrite lookup_insert_ne by metric_ne|rewrite lookup_empty|rewrite lookup_singleton_eq
    |rewrite lookup_singleton_ne by metric_ne].
