(* ===== verification/BlobRegistry.v ===== *)
(** * The blob registry: [pkg/store/blob_registry]

    Which blobs a space holds, in the memory backend of
    [pkg/store/blob_registry/memory/store.go]. Registering and removing a blob
    also writes the change to the ledger. *)
From S2P Require Export Ledger.

Record Blob := { Digest : Multihash; BlobSize : Z }.
#[export] Instance Blob_eq_dec : EqDecision Blob.
Proof. solve_decision. Defined.

Definition ErrEntryNotFound : error := Named "EntryNotFound" "blob not found".
Definition ErrEntryExists : error := Named "EntryExists" "blob already exists".

Module BlobRegistry.
Section BlobRegistry.
Context `{CursorJSON} `{Commands}.

Record Record_ := {
  Space : DID;
  blob : Blob;
  Cause : Cid;
  InsertedAt : Z;
}.
#[export] Instance Record_eq_dec : EqDecision Record_.
Proof. solve_decision. Defined.

(** space -> list of blob entries *)
Record Store := { blobs : gmap DID (list Record_) }.
Definition New : Store := {| blobs := ∅ |}.
Definition entries (s : Store) (space : DID) : list Record_ := default [] (blobs s !! space).
Definition sameDigest (digest : Multihash) (ent : Record_) : bool :=
  bool_decide (Digest (blob ent) = digest).

Definition Get (s : Store) (space : DID) (digest : Multihash) : outcome Record_ :=
  match findFunc (sameDigest digest) (entries s space) with
  | Some ent => Ok ent
  | None => Err ErrEntryNotFound
  end.

Definition List (s : Store) (space : DID) (cfg : PaginationConfig) : outcome (Page Record_) :=
  ents ← match cfgCursor cfg with
         | None => Ok (entries s space)
         | Some c =>
             match indexFunc (λ ent, bool_decide (HexString (Digest (blob ent)) = c))
                     (entries s space) with
             | Some i => slice_from (entries s space) (Z.of_nat i + 1)
             | None => Err (Errorf "invalid cursor")
             end
         end;
  match cfgLimit cfg with
  | Some limit =>
      if (limit <? len ents)%Z then
        ents ← slice_to ents limit;
        last ← index ents (len ents - 1);
        Ok (mkPage (Some (HexString (Digest (blob last)))) ents)
      else Ok (mkPage None ents)
  | None => Ok (mkPage None ents)
  end.

(** [Register]. [now] stamps the entry, [receiptAt] is the instant of the
    change and [insertedAt] stamps its diff row. *)
Definition Register (space : DID) (b : Blob) (cause : Cid) (now receiptAt insertedAt : Z)
    : M (Store * Ledger) unit := λ '(s, l),
  if containsFunc (sameDigest (Digest b)) (entries s space)
  then (Err ErrEntryExists, (s, l))
  else
    let ent := {| Space := space; blob := b; Cause := cause; InsertedAt := now |} in
    let s := {| blobs := <[space := entries s space ++ [ent]]> (blobs s) |} in
    let inc : gmap string Z :=
      <[BlobAddTotalMetric := 1%Z]> (<[BlobAddSizeTotalMetric := BlobSize b]> ∅) in
    let l := putSpaceDiff space cause (int64 (BlobSize b)) receiptAt insertedAt l in
    let l := incrementSpace space inc l in
    let l := incrementAdmin inc l in
    (Ok tt, (s, l)).

(** The loop of [Deregister]: every entry of the digest is written to the
    ledger, the others are kept. [clock] is the sequence of clock readings. *)
Fixpoint deregisterLoop (space : DID) (digest : Multihash) (cause : Cid) (clock : nat → Z)
    (ents kept : list Record_) (l : Ledger) : list Record_ * Ledger :=
  match ents with
  | [] => (kept, l)
  | ent :: ents =>
      if sameDigest digest ent then
        let inc : gmap string Z :=
          <[BlobRemoveTotalMetric := 1%Z]>
            (<[BlobRemoveSizeTotalMetric := BlobSize (blob ent)]> ∅) in
        let l := putSpaceDiff space cause (int64 (- int64 (BlobSize (blob ent)))) (clock 0)
                   (clock 1) l in
        let l := incrementSpace space inc l in
        let l := incrementAdmin inc l in
        deregisterLoop space digest cause (λ n, clock (S (S n))) ents kept l
      else deregisterLoop space digest cause clock ents (kept ++ [ent]) l
  end.

Definition Deregister (space : DID) (digest : Multihash) (cause : Cid) (clock : nat → Z)
    : M (Store * Ledger) unit := λ '(s, l),
  let '(ents, l) := deregisterLoop space digest cause clock (entries s space) [] l in
  if bool_decide (length ents = length (entries s space))
  then (Err ErrEntryNotFound, (s, l))
  else (Ok tt, ({| blobs := <[space := ents]> (blobs s) |}, l)).

(** ** A space holds a digest once *)
Definition digests (s : Store) (space : DID) : list Multihash :=
  (λ ent, Digest (blob ent)) <$> entries s space.
Definition wf (s : Store) : Prop := ∀ space, NoDup (digests s space).

Lemma blobs_entries_insert bs space ents space' :
  entries {| blobs := <[space := ents]> bs |} space' =
  if decide (space' = space) then ents else entries {| blobs := bs |} space'.
Proof.
  unfold entries. simpl. case_decide; subst;
    [by rewrite lookup_insert_eq|by rewrite lookup_insert_ne].
Qed.

Lemma in_digests ent (ents : list Record_) :
  ent ∈ ents → Digest (blob ent) ∈ ((λ ent, Digest (blob ent)) <$> ents).
Proof. intros. apply list_elem_of_fmap. by exists ent. Qed.
Lemma sameDigest_notin s space digest :
  (∀ ent, ent ∈ entries s space → sameDigest digest ent = false) ↔
  digest ∉ digests s space.
Proof.
  unfold digests, sameDigest. rewrite list_elem_of_fmap. split.
  - intros H' (ent & -> & Hin). specialize (H' _ Hin). by rewrite bool_decide_eq_false in H'.
  - intros H' ent Hin. apply bool_decide_eq_false. intros <-. eauto.
Qed.
Lemma findFunc_digest s space ent :
  wf s → ent ∈ entries s space →
  findFunc (sameDigest (Digest (blob ent))) (entries s space) = Some ent.
Proof.
  intros Hwf Hin. specialize (Hwf space). unfold digests in Hwf.
  induction (entries s space) as [|e es IH]; [by apply elem_of_nil in Hin|].
  simpl in *. apply NoDup_cons in Hwf as [Hnin Hwf]. unfold sameDigest at 1.
  apply elem_of_cons in Hin as [<-|Hin]; [by rewrite bool_decide_eq_true_2|].
  rewrite bool_decide_eq_false_2; [auto|]. intros Heq. apply Hnin. rewrite Heq.
  by apply in_digests.
Qed.

(** What the loop of [Deregister] keeps does not depend on the ledger. *)
Lemma deregisterLoop_kept space digest cause clock ents kept l :
  (deregisterLoop space digest cause clock ents kept l).1 =
  kept ++ filter (λ ent, sameDigest digest ent = false) ents.
Proof.
  revert clock kept l. induction ents as [|ent ents IH]; intros clock kept l; simpl.
  { by rewrite app_nil_r. }
  rewrite filter_cons. destruct (sameDigest digest ent) eqn:E; rewrite IH; simpl.
  - done.
  - by rewrite <-app_assoc.
Qed.
Lemma deregisterLoop_none space digest cause clock ents kept l :
  (∀ ent, ent ∈ ents → sameDigest digest ent = false) →
  deregisterLoop space digest cause clock ents kept l = (kept ++ ents, l).
Proof.
  revert clock kept. induction ents as [|ent ents IH]; intros clock kept Hn; simpl.
  { by rewrite app_nil_r. }
  rewrite Hn by left. rewrite IH by (intros; apply Hn; by right). by rewrite <-app_assoc.
Qed.

Lemma filter_length_eq {A} (P : A → Prop) `{∀ x, Decision (P x)} (xs : list A) :
  length (filter P xs) = length xs → Forall P xs.
Proof.
  induction xs as [|x xs IH]; [done|]. rewrite filter_cons. case_decide; simpl.
  - intros [= ?]. constructor; auto.
  - intros Hl. pose proof (length_filter P xs). lia.
Qed.

(** ** The two operations, by cases *)

(** The counters a registration and a removal move. *)
Definition addInc (b : Blob) : gmap string Z :=
  <[BlobAddTotalMetric := 1%Z]> (<[BlobAddSizeTotalMetric := BlobSize b]> ∅).
Definition removeInc (b : Blob) : gmap string Z :=
  <[BlobRemoveTotalMetric := 1%Z]> (<[BlobRemoveSizeTotalMetric := BlobSize b]> ∅).

Lemma Register_exists space b cause now at' at2 s l :
  Digest b ∈ digests s space →
  Register space b cause now at' at2 (s, l) = (Err ErrEntryExists, (s, l)).
Proof.
  intros Hin. unfold Register. destruct (containsFunc _ _) eqn:E; [done|].
  exfalso. unfold containsFunc in E. apply list_elem_of_fmap in Hin as (ent & Hd & Hin).
  assert (containsFunc (sameDigest (Digest b)) (entries s space) = true) as E'.
  { apply containsFunc_true. exists ent. split; [done|]. unfold sameDigest.
    by apply bool_decide_eq_true. }
  unfold containsFunc in E'. congruence.
Qed.
Lemma Register_fresh space b cause now at' at2 s l :
  Digest b ∉ digests s space →
  Register space b cause now at' at2 (s, l) =
  (Ok tt,
   ({| blobs := <[space := entries s space ++
          [{| Space := space; blob := b; Cause := cause; InsertedAt := now |}]]> (blobs s) |},
    incrementAdmin (addInc b) (incrementSpace space (addInc b)
      (putSpaceDiff space cause (int64 (BlobSize b)) at' at2 l)))).
Proof.
  intros Hnin. unfold Register. destruct (containsFunc _ _) eqn:E; [|done].
  apply containsFunc_true in E as (ent & Hin & Hs). exfalso.
  apply sameDigest_notin with (ent := ent) in Hnin; [congruence|done].
Qed.

Lemma Deregister_absent space digest cause clock s l :
  digest ∉ digests s space →
  Deregister space digest cause clock (s, l) = (Err ErrEntryNotFound, (s, l)).
Proof.
  intros Hnin. unfold Deregister. rewrite deregisterLoop_none by by apply sameDigest_notin.
  by rewrite bool_decide_eq_true_2.
Qed.
Lemma Deregister_present space digest cause clock s l :
  wf s → digest ∈ digests s space →
  ∃ l1 ent l2, entries s space = l1 ++ ent :: l2 ∧ Digest (blob ent) = digest ∧
  Deregister space digest cause clock (s, l) =
  (Ok tt,
   ({| blobs := <[space := l1 ++ l2]> (blobs s) |},
    incrementAdmin (removeInc (blob ent)) (incrementSpace space (removeInc (blob ent))
      (putSpaceDiff space cause (int64 (- int64 (BlobSize (blob ent)))) (clock 0) (clock 1) l)))).
Proof.
  intros Hwf (ent & -> & Hin)%list_elem_of_fmap.
  specialize (Hwf space). unfold digests in Hwf.
  apply list_elem_of_split in Hin as (l1 & l2 & Hents). exists l1, ent, l2.
  split_and!; [done..|]. unfold Deregister. rewrite Hents in *.
  rewrite fmap_app, fmap_cons in Hwf. apply NoDup_app in Hwf as (_ & Hl1 & Hl2).
  apply NoDup_cons in Hl2 as [Hl2 _].
  assert (∀ e, e ∈ l1 → sameDigest (Digest (blob ent)) e = false) as Hfst.
  { intros e He. apply bool_decide_eq_false. intros Heq.
    apply (Hl1 (Digest (blob e))); [by apply in_digests|]. rewrite Heq. left. }
  assert (∀ e, e ∈ l2 → sameDigest (Digest (blob ent)) e = false) as Hsnd.
  { intros e He. apply bool_decide_eq_false. intros Heq. apply Hl2. rewrite <-Heq.
    by apply in_digests. }
  assert (∀ ck kept l, deregisterLoop space (Digest (blob ent)) cause ck (l1 ++ ent :: l2) kept l
    = deregisterLoop space (Digest (blob ent)) cause ck (ent :: l2) (kept ++ l1) l) as Hskip.
  { clear -Hfst. induction l1 as [|e l1 IH]; intros ck kept l; simpl; [by rewrite app_nil_r|].
    rewrite Hfst by left. rewrite IH by (intros; apply Hfst; by right). by rewrite <-app_assoc. }
  rewrite Hskip. simpl. unfold sameDigest at 1. rewrite bool_decide_eq_true_2 by done.
  rewrite deregisterLoop_none by done.
  rewrite bool_decide_eq_false_2 by (rewrite !length_app; simpl; lia). done.
Qed.

(** ** What they leave in the registry *)
Lemma Register_digests space b cause now at' at2 s l space' d :
  d ∈ digests (Register space b cause now at' at2 (s, l)).2.1 space' ↔
  d ∈ digests s space' ∨ space' = space ∧ d = Digest b.
Proof.
  destruct (decide (Digest b ∈ digests s space)) as [Hin|Hnin].
  { rewrite Register_exists by done. simpl. split; [by left|]. by intros [?|[-> ->]]. }
  rewrite Register_fresh by done. unfold digests. cbn [snd fst]. rewrite blobs_entries_insert.
  case_decide as Hs.
  - subst. rewrite fmap_app, elem_of_app. cbn [fmap list_fmap blob].
    rewrite list_elem_of_singleton. intuition.
  - split; [by left|]. by intros [?|[? _]].
Qed.
Lemma Register_result space b cause now at' at2 s l :
  (Register space b cause now at' at2 (s, l)).1 =
  if decide (Digest b ∈ digests s space) then Err ErrEntryExists else Ok tt.
Proof.
  case_decide as Hin; [by rewrite Register_exists|by rewrite Register_fresh].
Qed.
Lemma Deregister_entries space digest cause clock s l space' :
  entries (Deregister space digest cause clock (s, l)).2.1 space' =
  if decide (space' = space)
  then filter (λ ent, sameDigest digest ent = false) (entries s space) else entries s space'.
Proof.
  unfold Deregister.
  pose proof (deregisterLoop_kept space digest cause clock (entries s space) [] l) as Hk.
  destruct (deregisterLoop _ _ _ _ _ _ _) as [ents l']. simpl in Hk. subst ents.
  case_bool_decide as Hb; cbn [snd fst].
  - case_decide; [subst|done]. apply filter_length_eq in Hb. by rewrite filter_all.
  - by rewrite blobs_entries_insert.
Qed.
Lemma Deregister_digests space digest cause clock s l space' d :
  d ∈ digests (Deregister space digest cause clock (s, l)).2.1 space' ↔
  d ∈ digests s space' ∧ ¬ (space' = space ∧ d = digest).
Proof.
  unfold digests. rewrite Deregister_entries. case_decide as Hs; [subst|by intuition].
  rewrite !list_elem_of_fmap. split.
  - intros (ent & -> & [Hd Hin]%list_elem_of_filter). split; [eauto|]. intros [_ Heq].
    unfold sameDigest in Hd. by apply bool_decide_eq_false in Hd.
  - intros [(ent & -> & Hin) Hne]. exists ent. split; [done|]. apply list_elem_of_filter.
    split; [|done]. apply bool_decide_eq_false. intros Heq. by apply Hne.
Qed.
Lemma Deregister_result space digest cause clock s l :
  (Deregister space digest cause clock (s, l)).1 =
  if decide (digest ∈ digests s space) then Ok tt else Err ErrEntryNotFound.
Proof.
  case_decide as Hin; [|by rewrite Deregister_absent].
  unfold Deregister.
  pose proof (deregisterLoop_kept space digest cause clock (entries s space) [] l) as Hk.
  destruct (deregisterLoop _ _ _ _ _ _ _) as [ents l']. simpl in Hk. subst ents.
  rewrite bool_decide_eq_false_2; [done|]. intros Hl. apply filter_length_eq in Hl.
  apply list_elem_of_fmap in Hin as (ent & -> & Hin). rewrite Forall_forall in Hl.
  specialize (Hl ent Hin). unfold sameDigest in Hl. by apply bool_decide_eq_false in Hl.
Qed.
Lemma Get_result s space digest :
  (∃ ent, Get s space digest = Ok ent ∧ ent ∈ entries s space ∧ Digest (blob ent) = digest) ∨
  (Get s space digest = Err ErrEntryNotFound ∧ digest ∉ digests s space).
Proof.
  unfold Get. destruct (findFunc _ _) as [ent|] eqn:Ef.
  - left. apply findFunc_Some in Ef as [Hin Hd]. exists ent.
    by apply bool_decide_eq_true in Hd.
  - right. split; [done|]. apply sameDigest_notin. by apply findFunc_None.
Qed.

(** ** The invariant is kept *)
Lemma blobs_wf_New : wf New.
Proof. intros space. unfold digests, entries, New. simpl. rewrite lookup_empty. constructor. Qed.
Lemma wf_Register space b cause now at' at2 s l :
  wf s → wf (Register space b cause now at' at2 (s, l)).2.1.
Proof.
  intros Hwf. destruct (decide (Digest b ∈ digests s space)) as [Hin|Hnin].
  { by rewrite Register_exists. }
  rewrite Register_fresh by done. intros space'. unfold digests. cbn [snd fst].
  rewrite blobs_entries_insert. case_decide; [subst|apply (Hwf space')].
  rewrite fmap_app. apply NoDup_app. split_and!; [apply Hwf| |apply NoDup_singleton].
  intros d Hd ->%list_elem_of_singleton. done.
Qed.
Lemma wf_Deregister space digest cause clock s l :
  wf s → wf (Deregister space digest cause clock (s, l)).2.1.
Proof.
  intros Hwf. destruct (decide (digest ∈ digests s space)) as [Hin|Hnin].
  2: { by rewrite Deregister_absent. }
  destruct (Deregister_present space digest cause clock s l Hwf Hin)
    as (l1 & ent & l2 & Hents & _ & ->). intros space'. unfold digests. cbn [snd fst].
  rewrite blobs_entries_insert. case_decide; [subst|apply (Hwf space')].
  specialize (Hwf space). unfold digests in Hwf. rewrite Hents in Hwf.
  eapply sublist_NoDup; [done|]. apply fmap_sublist. apply sublist_app; [done|].
  by apply sublist_cons.
Qed.
(** ** Listing *)
Lemma blobs_List_cut s space cur limit :
  List s space {| cfgCursor := cur; cfgLimit := Some limit |} =
  (ents ← match cur with
         | None => Ok (entries s space)
         | Some c =>
             match indexFunc (λ ent, bool_decide (HexString (Digest (blob ent)) = c))
                     (entries s space) with
             | Some i => slice_from (entries s space) (Z.of_nat i + 1)
             | None => Err (Errorf "invalid cursor")
             end
         end;
   cutPage limit (λ ent, HexString (Digest (blob ent))) ents).
Proof. done. Qed.

Lemma hex_digests s space :
  wf s → NoDup ((λ ent, HexString (Digest (blob ent))) <$> entries s space).
Proof.
  intros Hwf. pose proof (NoDup_fmap_2 HexString _ (Hwf space)) as Hnd.
  unfold digests in Hnd. by rewrite <-list_fmap_compose in Hnd.
Qed.

Lemma blobs_List_Pages (limit : nat) s space :
  limit ≠ 0 → wf s →
  Pages (λ cfg, List s space
           {| cfgCursor := cfgCursor cfg; cfgLimit := Some (Z.of_nat limit) |})
    None (entries s space).
Proof.
  intros Hlim Hwf. pose proof (hex_digests s space Hwf) as Hnd.
  eapply (Pages_cut _ limit (λ ent, HexString (Digest (blob ent))) (entries s space) Hlim)
    with (l1 := []); [|done|done].
  intros l1 x l2 Hl _. rewrite blobs_List_cut. cbn [cfgCursor]. rewrite Hl in *.
  rewrite (indexFunc_key (λ ent, HexString (Digest (blob ent)))) by done.
  by rewrite slice_from_suffix.
Qed.
End BlobRegistry.
End BlobRegistry.
