(* ===== verification/Upload.v ===== *)
(** * Uploads: [pkg/store/upload]

    The roots a space has uploaded and the shards of each, in the memory backend
    of [pkg/store/upload/memory/store.go]. Adding a new root and removing one
    also write the change to the ledger. *)
From S2P Require Export Ledger.

Definition ErrUploadNotFound : error := Named "UploadNotFound" "upload not found".

Module Upload.
Section Upload.
Context `{CursorJSON} `{Commands}.

Record UploadRecord := {
  Space : DID;
  Root : Cid;
  Index : option Cid;
  Cause : Cid;
  InsertedAt : Z;
  UpdatedAt : Z;
}.
#[export] Instance UploadRecord_eq_dec : EqDecision UploadRecord.
Proof. solve_decision. Defined.

Record Store := {
  uploads : gmap DID (list UploadRecord);
  (** space -> upload root -> shards *)
  shards : gmap DID (gmap Cid (list Cid));
}.
Definition New : Store := {| uploads := ∅; shards := ∅ |}.
Definition entries (s : Store) (space : DID) : list UploadRecord :=
  default [] (uploads s !! space).
Definition sameRoot (root : Cid) (r : UploadRecord) : bool :=
  bool_decide (cid_String (Root r) = cid_String root).
Definition sameCid (a b : Cid) : bool := bool_decide (cid_String b = cid_String a).

Definition Exists (s : Store) (space : DID) (root : Cid) : bool :=
  match uploads s !! space with
  | Some us => containsFunc (sameRoot root) us
  | None => false
  end.

Definition Get (s : Store) (space : DID) (root : Cid) : outcome UploadRecord :=
  match findFunc (sameRoot root) (entries s space) with
  | Some r => Ok r
  | None => Err ErrUploadNotFound
  end.

(** The spaces come in the order of the map's iteration, which Go leaves open. *)
Definition Inspect (s : Store) (root : Cid) : list DID :=
  (filter (λ '(_, us), containsFunc (sameRoot root) us = true) (map_to_list (uploads s))).*1.

(** Every non-empty page names its last entry, and an unknown cursor is
    ignored: both listings of this store end with an empty page. *)
Definition listFrom {T} (cursorOf : T → string) (cur : option string) (limit : option Z)
    (l : list T) : outcome (Page T) :=
  l ← match cur with
      | None => Ok l
      | Some c =>
          match indexFunc (λ x, bool_decide (cursorOf x = c)) l with
          | Some i => slice_from l (Z.of_nat i + 1)
          | None => Ok l
          end
      end;
  l ← match limit with
      | Some n => if (n <? len l)%Z then slice_to l n else Ok l
      | None => Ok l
      end;
  if (0 <? len l)%Z then
    x ← index l (len l - 1);
    Ok (mkPage (Some (cursorOf x)) l)
  else Ok (mkPage None l).

Definition List (s : Store) (space : DID) (cfg : PaginationConfig)
    : outcome (Page UploadRecord) :=
  let limit := default 1000%Z (cfgLimit cfg) in
  listFrom (λ r, cid_String (Root r)) (cfgCursor cfg) (Some limit) (entries s space).

Definition ListShards (s : Store) (space : DID) (root : Cid) (cfg : PaginationConfig)
    : outcome (Page Cid) :=
  match shards s !! space with
  | None => Ok (mkPage None [])
  | Some shardsByUpload =>
      listFrom cid_String (cfgCursor cfg) (cfgLimit cfg) (default [] (shardsByUpload !! root))
  end.

(** [recordDelta]: the counter moves only when the log took the change. *)
Definition recordDelta (space : DID) (cause : Cid) (delta : Z) (metric : string)
    (at' now : Z) (l : Ledger) : Ledger :=
  let '(recorded, l) := putUploadDiff space cause delta at' now l in
  if negb recorded then l
  else
    let inc : gmap string Z := <[metric := 1%Z]> ∅ in
    let l := incrementSpace space inc l in
    incrementAdmin inc l.

Definition Remove (space : DID) (root cause : Cid) (at' now : Z) : M (Store * Ledger) unit :=
  λ '(s, l),
  match uploads s !! space with
  | None => (Err ErrUploadNotFound, (s, l))
  | Some us =>
      match indexFunc (sameRoot root) us with
      | None => (Err ErrUploadNotFound, (s, l))
      | Some idx =>
          let s := {| uploads := <[space := take idx us ++ drop (S idx) us]> (uploads s);
                      shards := alter (delete root) space (shards s) |} in
          (Ok tt, (s, recordDelta space cause (-1) UploadRemoveTotalMetric at' now l))
      end
  end.

Definition cidLe (a b : Cid) : Prop := String.le (cid_Bytes a) (cid_Bytes b).
#[export] Instance cidLe_dec : RelDecision cidLe.
Proof. intros a b. unfold cidLe. apply _. Defined.

(** The shards a root has after [Upsert]: all of [new] for the first upload of
    the space, else the stored ones and those of [new] not yet among them. *)
Definition addShards (stored new : list Cid) : list Cid :=
  foldl (λ acc s, if containsFunc (sameCid s) acc then acc else acc ++ [s]) stored new.
Definition mergeShards (s : Store) (space : DID) (root : Cid) (new : list Cid) : list Cid :=
  match shards s !! space with
  | None => new
  | Some shardsByUpload => addShards (default [] (shardsByUpload !! root)) new
  end.

Definition Upsert (space : DID) (root : Cid) (idx : option Cid) (new : list Cid) (cause : Cid)
    (now at' now' : Z) : M (Store * Ledger) unit := λ '(s, l),
  let us := entries s space in
  let at_root := indexFunc (sameRoot root) us in
  let us :=
    match at_root with
    | None => us ++ [{| Space := space; Root := root; Index := idx; Cause := cause;
                        InsertedAt := now; UpdatedAt := zeroTime |}]
    | Some i =>
        alter (λ r, {| Space := Space r; Root := Root r; Index := idx; Cause := cause;
                       InsertedAt := InsertedAt r; UpdatedAt := now |}) i us
    end in
  let merged := sortFunc cidLe (mergeShards s space root new) in
  let s := {| uploads := <[space := us]> (uploads s);
              shards := <[space := <[root := merged]> (default ∅ (shards s !! space))]>
                          (shards s) |} in
  match at_root with
  | Some _ => (Ok tt, (s, l))
  | None => (Ok tt, (s, recordDelta space cause 1 UploadAddTotalMetric at' now' l))
  end.

(** ** A space holds a root once *)
Definition roots (s : Store) (space : DID) : list Cid := Root <$> entries s space.
Definition wf (s : Store) : Prop := ∀ space, NoDup (roots s space).

Lemma sameRoot_true root r : sameRoot root r = true ↔ Root r = root.
Proof.
  unfold sameRoot. rewrite bool_decide_eq_true. split; [apply (inj cid_String)|by intros ->].
Qed.
Lemma sameRoot_false root r : sameRoot root r = false ↔ Root r ≠ root.
Proof. rewrite <-not_true_iff_false. by rewrite sameRoot_true. Qed.

Lemma indexFunc_root_None root us :
  indexFunc (sameRoot root) us = None ↔ root ∉ Root <$> us.
Proof.
  rewrite indexFunc_None, list_elem_of_fmap. setoid_rewrite sameRoot_false. split.
  - intros Hn (r & -> & Hin). by eapply Hn.
  - intros Hn r Hin <-. eauto.
Qed.
Lemma indexFunc_root_Some root us i :
  indexFunc (sameRoot root) us = Some i →
  ∃ us1 r us2, us = us1 ++ r :: us2 ∧ length us1 = i ∧ Root r = root.
Proof.
  intros (r & Hr & Hs & _)%indexFunc_Some. apply sameRoot_true in Hs.
  exists (take i us), r, (drop (S i) us). split_and!; [by rewrite take_drop_middle| |done].
  apply length_take_le. apply lookup_lt_Some in Hr. lia.
Qed.
Lemma uploads_entries_insert us m space us' space' :
  entries {| uploads := <[space := us']> us; shards := m |} space' =
  if decide (space' = space) then us' else entries {| uploads := us; shards := m |} space'.
Proof.
  unfold entries. simpl. case_decide; subst;
    [by rewrite lookup_insert_eq|by rewrite lookup_insert_ne].
Qed.
Lemma entries_uploads us m m' space :
  entries {| uploads := us; shards := m |} space = entries {| uploads := us; shards := m' |} space.
Proof. done. Qed.

Lemma Remove_absent space root cause at' now s l :
  root ∉ roots s space →
  Remove space root cause at' now (s, l) = (Err ErrUploadNotFound, (s, l)).
Proof.
  unfold Remove, roots, entries. intros Hn. destruct (uploads s !! space) as [us|]; [|done].
  simpl in Hn. by rewrite (proj2 (indexFunc_root_None root us)).
Qed.
Lemma Remove_present space root cause at' now s l :
  root ∈ roots s space →
  ∃ us1 r us2, entries s space = us1 ++ r :: us2 ∧ Root r = root ∧
  Remove space root cause at' now (s, l) =
  (Ok tt, ({| uploads := <[space := us1 ++ us2]> (uploads s);
              shards := alter (delete root) space (shards s) |},
           recordDelta space cause (-1) UploadRemoveTotalMetric at' now l)).
Proof.
  unfold Remove, roots, entries. intros Hin. destruct (uploads s !! space) as [us|]; simpl in *;
    [|by apply elem_of_nil in Hin].
  destruct (indexFunc (sameRoot root) us) as [i|] eqn:E.
  - apply indexFunc_root_Some in E as (us1 & r & us2 & -> & <- & Hr).
    exists us1, r, us2. split_and!; [done..|].
    rewrite take_app_length, (cons_middle r us1 us2), app_assoc, drop_app_length'; [done|].
    rewrite length_app. simpl. lia.
  - by apply indexFunc_root_None in E.
Qed.

Lemma Upsert_new space root idx new cause now at' now' s l :
  root ∉ roots s space →
  ∃ m, Upsert space root idx new cause now at' now' (s, l) =
  (Ok tt, ({| uploads := <[space := entries s space ++
                [{| Space := space; Root := root; Index := idx; Cause := cause;
                    InsertedAt := now; UpdatedAt := zeroTime |}]]> (uploads s);
              shards := m |},
           recordDelta space cause 1 UploadAddTotalMetric at' now' l)).
Proof.
  intros Hn%indexFunc_root_None. unfold Upsert. rewrite Hn. eauto.
Qed.
Lemma Upsert_again space root idx new cause now at' now' s l :
  root ∈ roots s space →
  ∃ m us, Upsert space root idx new cause now at' now' (s, l) =
  (Ok tt, ({| uploads := <[space := us]> (uploads s); shards := m |}, l)) ∧
  Root <$> us = roots s space.
Proof.
  intros Hin. unfold Upsert.
  destruct (indexFunc (sameRoot root) (entries s space)) as [i|] eqn:E.
  - eexists _, _. split; [done|]. unfold roots.
    apply list_eq. intros j. rewrite !list_lookup_fmap.
    destruct (decide (i = j)) as [->|Hne].
    + rewrite list_lookup_alter_eq. by destruct (entries s space !! j).
    + by rewrite list_lookup_alter_ne.
  - by apply indexFunc_root_None in E.
Qed.

Lemma uploads_wf_New : wf New.
Proof. intros space. unfold roots, entries, New. simpl. rewrite lookup_empty. constructor. Qed.
Lemma wf_Remove space root cause at' now s l :
  wf s → wf (Remove space root cause at' now (s, l)).2.1.
Proof.
  intros Hwf. destruct (decide (root ∈ roots s space)) as [Hin|Hn];
    [|by rewrite Remove_absent].
  destruct (Remove_present space root cause at' now s l Hin)
    as (us1 & r & us2 & Hents & _ & ->). intros space'. unfold roots. cbn [snd fst].
  rewrite uploads_entries_insert. case_decide; [subst|apply (Hwf space')].
  specialize (Hwf space). unfold roots in Hwf. rewrite Hents in Hwf.
  eapply sublist_NoDup; [done|]. apply fmap_sublist, sublist_app; [done|]. by apply sublist_cons.
Qed.
Lemma wf_Upsert space root idx new cause now at' now' s l :
  wf s → wf (Upsert space root idx new cause now at' now' (s, l)).2.1.
Proof.
  intros Hwf space'. unfold roots. destruct (decide (root ∈ roots s space)) as [Hin|Hn].
  - destruct (Upsert_again space root idx new cause now at' now' s l Hin) as (m & us & -> & Hus).
    cbn [snd fst]. rewrite uploads_entries_insert. case_decide; [subst|apply (Hwf space')].
    rewrite Hus. apply Hwf.
  - destruct (Upsert_new space root idx new cause now at' now' s l Hn) as (m & ->).
    cbn [snd fst]. rewrite uploads_entries_insert. case_decide; [subst|apply (Hwf space')].
    rewrite fmap_app. apply NoDup_app. split_and!; [apply Hwf| |apply NoDup_singleton].
    intros d Hd ->%list_elem_of_singleton. done.
Qed.

(** ** Listing *)
Definition cutFrom {T} (cursorOf : T → string) (limit : option Z) (l : list T)
    : outcome (Page T) := listFrom cursorOf None limit l.

Lemma cutFrom_nil {T} (cursorOf : T → string) (limit : option nat) :
  cutFrom cursorOf (Z.of_nat <$> limit) [] = Ok (mkPage None []).
Proof.
  unfold cutFrom, listFrom, len. cbn [mbind outcome_bind length]. destruct limit as [n|]; simpl; [|done].
  rewrite (proj2 (Z.ltb_ge _ _)) by lia. done.
Qed.
Lemma cutFrom_more {T} (cursorOf : T → string) (limit : option nat) l :
  limit ≠ Some 0 → l ≠ [] →
  ∃ l1 x l2, l = l1 ++ x :: l2 ∧
  cutFrom cursorOf (Z.of_nat <$> limit) l = Ok (mkPage (Some (cursorOf x)) (l1 ++ [x])).
Proof.
  intros Hlim Hl. set (n := match limit with Some n => n | None => length l end).
  assert (take n l ≠ []) as Htake.
  { destruct l; [done|]. subst n. destruct limit as [[|n]|]; done. }
  destruct (exists_last Htake) as (l1 & x & Hsplit). exists l1, x, (drop n l). split.
  { rewrite (cons_middle x), app_assoc, <-Hsplit. by rewrite take_drop. }
  unfold cutFrom, listFrom. cbn [mbind outcome_bind].
  assert (match Z.of_nat <$> limit with
      | Some n => if (n <? len l)%Z then slice_to l n else Ok l
      | None => Ok l
      end = Ok (l1 ++ [x])) as ->.
  { rewrite <-Hsplit. subst n. destruct limit as [n|]; simpl.
    - destruct (Z.ltb_spec (Z.of_nat n) (len l)).
      + rewrite slice_to_ok by lia. by rewrite Nat2Z.id.
      + unfold len in *. by rewrite take_ge by lia.
    - by rewrite firstn_all. }
  cbn [mbind outcome_bind]. rewrite (proj2 (Z.ltb_lt _ _)).
  - by rewrite index_last, last_snoc.
  - unfold len. rewrite length_app. simpl. lia.
Qed.

Lemma listFrom_Pages {T} (cursorOf : T → string) (limit : option nat) (l : list T) :
  limit ≠ Some 0 → NoDup (cursorOf <$> l) →
  Pages (λ cfg, listFrom cursorOf (cfgCursor cfg) (Z.of_nat <$> limit) l) None l.
Proof.
  intros Hlim Hnd.
  assert (∀ l2 l1 cur, l = l1 ++ l2 →
    listFrom cursorOf cur (Z.of_nat <$> limit) l = cutFrom cursorOf (Z.of_nat <$> limit) l2 →
    Pages (λ cfg, listFrom cursorOf (cfgCursor cfg) (Z.of_nat <$> limit) l) cur l2) as Hgen;
    [|by apply (Hgen l [])].
  intros l2. induction (well_founded_ltof _ (@length T) l2) as [l2 _ IH]. intros l1 cur Hl Hget.
  destruct l2 as [|y l2'].
  { constructor. cbn [cfgCursor]. by rewrite Hget, cutFrom_nil. }
  destruct (cutFrom_more cursorOf limit (y :: l2')) as (l2a & x & rest & Hsplit & Hcut); [done..|].
  assert (l = (l1 ++ l2a) ++ x :: rest) as Hl' by by rewrite Hl, Hsplit, <-app_assoc.
  assert (length rest < length (y :: l2')) as Hlt.
  { rewrite Hsplit, length_app. simpl. lia. }
  replace (y :: l2') with ((l2a ++ [x]) ++ rest) by by rewrite Hsplit, <-app_assoc.
  eapply Pages_more; [|by destruct l2a|].
  { cbn [cfgCursor]. rewrite Hget. exact Hcut. }
  apply (IH rest Hlt (l1 ++ l2a ++ [x])).
  - rewrite Hl'. by rewrite <-!app_assoc.
  - unfold listFrom at 1. rewrite Hl' in Hnd |- *.
    rewrite (indexFunc_key cursorOf) by done. by rewrite slice_from_suffix.
Qed.

(** A listing with a repeated entry can stop advancing: the cursor of a page
    of one names the first of the two, and the next page serves the second. *)
Lemma listFrom_repeated {T} (cursorOf : T → string) x y l :
  cursorOf x = cursorOf y →
  ∀ fuel, Collect (λ cfg, listFrom cursorOf (cfgCursor cfg) (Some 1%Z) (x :: y :: l)) fuel
  = Diverge.
Proof.
  intros Heq.
  set (get := λ cfg : PaginationConfig,
    listFrom cursorOf (cfgCursor cfg) (Some 1%Z) (x :: y :: l)).
  assert (∀ z zs, cutFrom cursorOf (Some 1%Z) (z :: zs) = Ok (mkPage (Some (cursorOf z)) [z]))
    as Hone.
  { intros z zs. destruct (cutFrom_more cursorOf (Some 1) (z :: zs))
      as (l1 & w & l2 & Hl & Hc); [done..|].
    change (Z.of_nat <$> Some 1) with (Some 1%Z) in Hc. rewrite Hc.
    unfold cutFrom, listFrom in Hc. cbn [mbind outcome_bind] in Hc.
    destruct (Z.ltb_spec 1 (len (z :: zs))).
    - rewrite slice_to_ok in Hc by lia. cbn in Hc. by simplify_eq.
    - destruct zs; [|unfold len in *; simpl in *; lia]. by cbn in Hc; simplify_eq. }
  assert (get {| cfgCursor := Some (cursorOf y); cfgLimit := None |} =
    Ok (mkPage (Some (cursorOf y)) [y])) as Hnext.
  { subst get. unfold listFrom at 1. cbn [cfgCursor indexFunc].
    rewrite bool_decide_eq_true_2 by done.
    change (Z.of_nat 0 + 1)%Z with (Z.of_nat 1). rewrite slice_from_ok by (simpl; lia).
    exact (Hone y l). }
  assert (∀ fuel items i, collectLoop get fuel items (Some (cursorOf y)) i = Diverge) as Hloop.
  { induction fuel as [|fuel IH]; intros items i; simpl; [done|]. rewrite Hnext. apply IH. }
  intros [|fuel]; [done|]. unfold Collect. cbn [collectLoop].
  change (get {| cfgCursor := None; cfgLimit := None |})
    with (cutFrom cursorOf (Some 1%Z) (x :: y :: l)).
  rewrite Hone. cbn [owrap mbind outcome_bind Cursor Results]. rewrite Heq. apply Hloop.
Qed.

Lemma uploads_List_Pages (limit : nat) s space :
  limit ≠ 0 → wf s →
  Pages (λ cfg, List s space
           {| cfgCursor := cfgCursor cfg; cfgLimit := Some (Z.of_nat limit) |})
    None (entries s space).
Proof.
  intros Hlim Hwf. apply (listFrom_Pages (λ r, cid_String (Root r)) (Some limit)).
  { intros [= ->]. done. }
  rewrite (list_fmap_compose Root cid_String). apply (NoDup_fmap_2 cid_String), Hwf.
Qed.

(** ** Shards are kept in byte order *)
#[export] Instance cidLe_trans : Transitive cidLe.
Proof. intros ???. unfold cidLe. by etrans. Qed.
#[export] Instance cidLe_total : Total cidLe.
Proof. intros a b. apply String.le_total. Qed.
Lemma addShards_In stored new c : c ∈ addShards stored new ↔ c ∈ stored ∨ c ∈ new.
Proof.
  unfold addShards. revert stored. induction new as [|d new IH]; intros stored; simpl.
  { rewrite elem_of_nil. tauto. }
  rewrite IH, elem_of_cons. destruct (containsFunc (sameCid d) stored) eqn:E.
  - apply containsFunc_true in E as (e & Hin & Hs).
    apply bool_decide_eq_true, (inj cid_String) in Hs as ->.
    split; [tauto|]. intros [?|[->|?]]; auto.
  - rewrite elem_of_app, list_elem_of_singleton. tauto.
Qed.
Lemma addShards_NoDup stored new : NoDup stored → NoDup (addShards stored new).
Proof.
  unfold addShards. revert stored. induction new as [|d new IH]; intros stored Hnd; simpl; [done|].
  apply IH. destruct (containsFunc (sameCid d) stored) eqn:E; [done|].
  apply NoDup_app. split_and!; [done| |apply NoDup_singleton].
  intros c Hin ->%list_elem_of_singleton. apply not_true_iff_false in E. apply E.
  apply containsFunc_true. exists d. split; [done|]. by apply bool_decide_eq_true.
Qed.
Definition shardsOf (s : Store) (space : DID) (root : Cid) : list Cid :=
  default [] (shards s !! space ≫= lookup root).

Lemma Upsert_shards space root idx new cause now at' now' s l space' root' :
  shardsOf (Upsert space root idx new cause now at' now' (s, l)).2.1 space' root' =
  if decide (space' = space ∧ root' = root)
  then sortFunc cidLe (mergeShards s space root new)
  else shardsOf s space' root'.
Proof.
  assert (shards (Upsert space root idx new cause now at' now' (s, l)).2.1 =
    <[space := <[root := sortFunc cidLe (mergeShards s space root new)]>
                 (default ∅ (shards s !! space))]> (shards s)) as Hs.
  { unfold Upsert. by destruct (indexFunc _ _). }
  unfold shardsOf. rewrite Hs. destruct (decide (space' = space)) as [->|Hne].
  - rewrite lookup_insert_eq. simpl. destruct (decide (root' = root)) as [->|Hr].
    + by rewrite lookup_insert_eq, decide_True.
    + rewrite lookup_insert_ne, decide_False by (first [congruence|intros [? ?]; congruence]).
      destruct (shards s !! space); simpl; [done|]. by rewrite lookup_empty.
  - rewrite lookup_insert_ne, decide_False by (first [congruence|intros [? ?]; congruence]). done.
Qed.

(** ** What a space has uploaded: roots with their indexes *)
Definition uploaded (s : Store) (space : DID) : list (Cid * option Cid) :=
  (λ r, (Root r, Index r)) <$> entries s space.
Lemma uploaded_roots s space : (uploaded s space).*1 = roots s space.
Proof. unfold uploaded, roots. by rewrite <-list_fmap_compose. Qed.

Lemma alter_middle {A} (f : A → A) (l1 : list A) x l2 :
  alter f (length l1) (l1 ++ x :: l2) = l1 ++ f x :: l2.
Proof. by rewrite <-(Nat.add_0_r (length l1)), alter_app_r. Qed.
Lemma in_uploaded (root : Cid) (i : option Cid) (us : list UploadRecord) :
  (root, i) ∈ ((λ r, (Root r, Index r)) <$> us) → root ∈ Root <$> us.
Proof. intros (r & [= -> ->] & ?)%list_elem_of_fmap. apply list_elem_of_fmap. by exists r. Qed.

Lemma Upsert_uploaded space root idx new cause now at' now' s l space' root' i :
  wf s →
  (root', i) ∈ uploaded (Upsert space root idx new cause now at' now' (s, l)).2.1 space' ↔
  if decide (space' = space ∧ root' = root) then i = idx else (root', i) ∈ uploaded s space'.
Proof.
  intros Hwf. unfold Upsert. unfold uploaded at 1.
  destruct (indexFunc (sameRoot root) (entries s space)) as [k|] eqn:E; cbn [snd fst];
    rewrite uploads_entries_insert.
  - apply indexFunc_root_Some in E as (us1 & r & us2 & Hents & <- & Hr).
    destruct (decide (space' = space)) as [->|Hne]; [|by rewrite decide_False by (by intros [? _])].
    specialize (Hwf space). unfold roots in Hwf. unfold uploaded.
    rewrite Hents, alter_middle, !fmap_app, !fmap_cons, !elem_of_app, !elem_of_cons.
    cbn [Root Index]. rewrite Hents, fmap_app, fmap_cons in Hwf.
    apply NoDup_app in Hwf as (_ & Hl1 & [Hl2 _]%NoDup_cons).
    destruct (decide (root' = root)) as [->|Hrne]; [rewrite decide_True by done|
      rewrite decide_False by (by intros [_ ?])].
    + split; [|intros ->; right; left; by rewrite Hr].
      intros [Hin%in_uploaded|[[= _ ->]|Hin%in_uploaded]]; [|done|].
      * destruct (Hl1 _ Hin). rewrite Hr. left.
      * by rewrite <-Hr in Hin.
    + rewrite elem_of_app, elem_of_cons.
      split; (intros [?|[[= -> ->]|?]]; [by left|by destruct Hrne|by right; right]).
  - apply indexFunc_root_None in E.
    destruct (decide (space' = space)) as [->|Hne]; [|by rewrite decide_False by (by intros [? _])].
    rewrite fmap_app, elem_of_app. cbn. rewrite list_elem_of_singleton. unfold uploaded.
    destruct (decide (root' = root)) as [->|Hrne]; [rewrite decide_True by done|
      rewrite decide_False by (by intros [_ ?])].
    + split; [|intros ->; by right]. intros [(r & [= Hr _] & Hin)%list_elem_of_fmap|[= ->]]; [|done].
      destruct E. apply list_elem_of_fmap. by exists r.
    + split; [|by left]. intros [?|[= -> _]]; done.
Qed.
Lemma Remove_uploaded space root cause at' now s l space' root' i :
  wf s →
  (root', i) ∈ uploaded (Remove space root cause at' now (s, l)).2.1 space' ↔
  (root', i) ∈ uploaded s space' ∧ ¬ (space' = space ∧ root' = root).
Proof.
  intros Hwf. destruct (decide (root ∈ roots s space)) as [Hin|Hn].
  - destruct (Remove_present space root cause at' now s l Hin) as (us1 & r & us2 & Hents & Hr & ->).
    unfold uploaded at 1. cbn [snd fst]. rewrite uploads_entries_insert.
    destruct (decide (space' = space)) as [->|Hne]; [|split; [intros ?; split; [done|by intros [? _]]|by intros [? _]]].
    specialize (Hwf space). unfold roots in Hwf. unfold uploaded.
    rewrite Hents in *. rewrite !fmap_app, !fmap_cons in *.
    apply NoDup_app in Hwf as (_ & Hl1 & [Hl2 _]%NoDup_cons).
    rewrite !elem_of_app, !elem_of_cons. split.
    + intros [Hi|Hi]; (split; [tauto|]); intros [_ ->]; apply in_uploaded in Hi.
      * destruct (Hl1 _ Hi). rewrite Hr. left.
      * by rewrite <-Hr in Hi.
    + intros [[?|[[= -> _]|?]] Hne]; [by left|by destruct Hne|by right].
  - rewrite Remove_absent by done. cbn [snd fst]. split; [|by intros [? _]].
    intros Hin. split; [done|]. intros [-> ->]. apply Hn. rewrite <-uploaded_roots.
    apply list_elem_of_fmap. by exists (root, i).
Qed.

(** Without a limit the first page holds every shard. *)
Lemma ListShards_all s space root :
  ∃ c, ListShards s space root noOptions = Ok (mkPage c (shardsOf s space root)).
Proof.
  unfold ListShards, shardsOf. destruct (shards s !! space) as [m|]; cbn [mbind option_bind]; [|by eexists].
  unfold listFrom. cbn [noOptions cfgCursor cfgLimit mbind outcome_bind].
  rewrite index_last. destruct (default [] (m !! root)) as [|c cs] eqn:E; [by eexists|].
  rewrite (proj2 (Z.ltb_lt _ _)) by (unfold len; simpl; lia).
  destruct (last (c :: cs)) eqn:El; [by eexists|by apply last_None in El].
Qed.
End Upload.
End Upload.
