(* ===== verification/Accounting.v ===== *)
(** * Accounting: the registry, the uploads and the ledger together

    The blob registry and the upload store write to one ledger. This file runs
    their operations against it in any order and proves that the ledger's
    running totals and its diff logs go on agreeing with what the stores hold,
    which is what the usage service reads. *)
From S2P Require Export BlobRegistry Upload.

Section Accounting.
Context `{CursorJSON} `{Commands}.

Record World := {
  registry : BlobRegistry.Store;
  uploadStore : Upload.Store;
  ledger : Ledger;
}.
Definition emptyWorld : World :=
  {| registry := BlobRegistry.New; uploadStore := Upload.New; ledger := emptyLedger |}.

(** A call of a store, with the clock readings it makes. *)
Inductive call :=
  | CallRegister (space : DID) (b : Blob) (cause : Cid) (now at' insertedAt : Z)
  | CallDeregister (space : DID) (digest : Multihash) (cause : Cid) (clock : nat → Z)
  | CallUpsert (space : DID) (root : Cid) (idx : option Cid) (new : list Cid) (cause : Cid)
      (now at' insertedAt : Z)
  | CallRemove (space : DID) (root cause : Cid) (at' insertedAt : Z).

Definition onRegistry (m : M (BlobRegistry.Store * Ledger) unit) (w : World)
    : outcome unit * World :=
  let '(r, (s, l)) := m (registry w, ledger w) in
  (r, {| registry := s; uploadStore := uploadStore w; ledger := l |}).
Definition onUploads (m : M (Upload.Store * Ledger) unit) (w : World) : outcome unit * World :=
  let '(r, (s, l)) := m (uploadStore w, ledger w) in
  (r, {| registry := registry w; uploadStore := s; ledger := l |}).

Definition exec (c : call) : M World unit :=
  match c with
  | CallRegister space b cause now at' ins =>
      onRegistry (BlobRegistry.Register space b cause now at' ins)
  | CallDeregister space digest cause clock =>
      onRegistry (BlobRegistry.Deregister space digest cause clock)
  | CallUpsert space root idx new cause now at' ins =>
      onUploads (Upload.Upsert space root idx new cause now at' ins)
  | CallRemove space root cause at' ins => onUploads (Upload.Remove space root cause at' ins)
  end.

(** The sizes the service can account for. A blob's size is a uint64 and its
    diff row an int64: the largest half of the sizes has no positive row. *)
Definition accountable (size : Z) : Prop := (0 ≤ size ≤ max_int64)%Z.
(** What is registered has a size of the kind [ok]. *)
Definition sized (ok : Z → Prop) (c : call) : Prop :=
  match c with
  | CallRegister _ b _ _ _ _ => ok (BlobSize b)
  | _ => True
  end.

(** A call, when only sizes of the kind [ok] are registered; any call; and a call
    that registers no size without a diff row. *)
Inductive stepFor (ok : Z → Prop) : World → World → Prop :=
  | step_call c w : sized ok c → stepFor ok w (exec c w).2.
Definition step : World → World → Prop := stepFor (λ _, True).
Definition smallStep : World → World → Prop := stepFor accountable.

(** A sequence of calls. *)
Definition runCalls (cs : list call) (w : World) : World := foldl (λ w c, (exec c w).2) w cs.
Lemma runCalls_steps ok cs w : Forall (sized ok) cs → rtc (stepFor ok) w (runCalls cs w).
Proof.
  revert w. induction cs as [|c cs IH]; intros w; [intros _; apply rtc_refl|].
  intros [Hc Hcs]%Forall_cons. eapply rtc_l; [by apply step_call|by apply IH].
Qed.
Lemma stepFor_any ok w w' : rtc (stepFor ok) w w' → rtc step w w'.
Proof.
  induction 1 as [|w1 w2 w3 [c w0 _] _ IH]; [done|].
  eapply rtc_l; [apply (step_call _ c); by destruct c|done].
Qed.

(** What the registry says a space holds. *)
Definition held (w : World) (space : DID) : Z :=
  foldr (λ ent acc, BlobSize (BlobRegistry.blob ent) + acc)%Z 0%Z
    (BlobRegistry.entries (registry w) space).
Definition heldBlobs (w : World) (space : DID) : Z :=
  len (BlobRegistry.entries (registry w) space).

Record Books (w : World) : Prop := {
  books_registry : BlobRegistry.wf (registry w);
  books_uploads : Upload.wf (uploadStore w);
  (** the byte log adds up to what the registry holds, as a uint64 *)
  books_byteRows : ∀ space,
    uint64 (sumDelta (byteRows (ledger w) space)) = uint64 (held w space);
  (** so does the difference of the two byte counters *)
  books_bytes : ∀ space,
    uint64 (spaceTotal (ledger w) space BlobAddSizeTotalMetric -
            spaceTotal (ledger w) space BlobRemoveSizeTotalMetric) = uint64 (held w space);
  (** and of the two object counters *)
  books_blobs : ∀ space,
    uint64 (spaceTotal (ledger w) space BlobAddTotalMetric -
            spaceTotal (ledger w) space BlobRemoveTotalMetric) = uint64 (heldBlobs w space);
  (** the upload counters and the upload log move together *)
  books_uploadRows : ∀ space,
    uint64 (spaceTotal (ledger w) space UploadAddTotalMetric -
            spaceTotal (ledger w) space UploadRemoveTotalMetric) =
    uint64 (sumDelta (uploadRows (ledger w) space));
  (** the service totals are those of the spaces *)
  books_admin : ∀ k,
    uint64 (adminTotal (ledger w) k) = uint64 (Metrics.sumSpaces (spaceMetrics (ledger w)) k);
  books_range : ∀ space k, is_uint64 (spaceTotal (ledger w) space k);
}.

(** While every size has a diff row, the byte log is exact. *)
Record Exact (w : World) : Prop := {
  (** every entry's size was accounted for when it was added *)
  exact_sized : ∀ space, Forall (λ ent, accountable (BlobSize (BlobRegistry.blob ent)))
                           (BlobRegistry.entries (registry w) space);
  exact_byteRows : ∀ space, sumDelta (byteRows (ledger w) space) = held w space;
}.

(** ** One change of a space's bytes *)

(** The ledger after a diff row and the counters that go with it. *)
Definition bookBytes (space : DID) (cause : Cid) (delta at' now : Z) (inc : gmap string Z)
    (l : Ledger) : Ledger :=
  incrementAdmin inc (incrementSpace space inc (putSpaceDiff space cause delta at' now l)).

Lemma bookBytes_byteRows space cause delta at' now inc l space' :
  sumDelta (byteRows (bookBytes space cause delta at' now inc l) space') =
  (sumDelta (byteRows l space') + if decide (space' = space) then delta else 0)%Z.
Proof. apply sumDelta_putSpaceDiff. Qed.
Lemma bookBytes_total space cause delta at' now inc l space' k :
  spaceTotal (bookBytes space cause delta at' now inc l) space' k =
  match inc !! k with
  | Some v => if decide (space' = space) then uint64 (spaceTotal l space' k + v)
              else spaceTotal l space' k
  | None => spaceTotal l space' k
  end.
Proof. apply (spaceTotal_incrementSpace (putSpaceDiff space cause delta at' now l)). Qed.

(** Adding the same increments to a space and to the service keeps the service
    the sum of the spaces. *)
Lemma admin_kept l inc space k :
  uint64 (adminTotal l k) = uint64 (Metrics.sumSpaces (spaceMetrics l) k) →
  uint64 (adminTotal (incrementAdmin inc (incrementSpace space inc l)) k) =
  uint64 (Metrics.sumSpaces (spaceMetrics (incrementAdmin inc (incrementSpace space inc l))) k).
Proof.
  intros Hk. cbn [incrementAdmin incrementSpace spaceMetrics].
  rewrite Metrics.sumSpaces_Increment, adminTotal_incrementAdmin.
  change (Metrics.total inc k) with (default 0%Z (inc !! k)).
  change (adminTotal (incrementSpace space inc l) k) with (adminTotal l k).
  destruct (inc !! k) as [v|]; simpl.
  - rewrite <-(uint64_congr _ _ v Hk). apply uint64_id, uint64_range.
  - by rewrite Z.add_0_r.
Qed.

Lemma range_kept l inc space space' k :
  is_uint64 (spaceTotal l space' k) →
  is_uint64 (spaceTotal (incrementAdmin inc (incrementSpace space inc l)) space' k).
Proof.
  intros Hr. change (is_uint64 (spaceTotal (incrementSpace space inc l) space' k)).
  rewrite spaceTotal_incrementSpace.
  destruct (inc !! k); [|done]. case_decide; [apply uint64_range|done].
Qed.

(** A pair of counters and the quantity their difference tracks. *)
Lemma pair_add a r h v h' :
  uint64 (a - r) = uint64 h → h' = (h + v)%Z → uint64 (uint64 (a + v) - r) = uint64 h'.
Proof.
  intros Hp ->. rewrite uint64_sub_l, Z.add_sub_swap. by apply uint64_congr.
Qed.
Lemma pair_sub a r h v h' :
  uint64 (a - r) = uint64 h → h' = (h - v)%Z → uint64 (a - uint64 (r + v)) = uint64 h'.
Proof.
  intros Hp ->. rewrite uint64_sub_r, Z.sub_add_distr. by apply (uint64_congr _ _ (- v)).
Qed.

(** ** Every call keeps the books *)
Lemma sizes_app l1 l2 :
  foldr (λ ent acc, BlobSize (BlobRegistry.blob ent) + acc)%Z 0%Z (l1 ++ l2) =
  (foldr (λ ent acc, BlobSize (BlobRegistry.blob ent) + acc) 0 l1 +
   foldr (λ ent acc, BlobSize (BlobRegistry.blob ent) + acc) 0 l2)%Z.
Proof. induction l1 as [|e l1 IH]; simpl; [done|]. rewrite IH. lia. Qed.

Lemma int64_neg z : accountable z → int64 (- int64 z) = (- z)%Z.
Proof.
  unfold accountable, max_int64. intros. rewrite (int64_id z) by (unfold is_int64; lia).
  apply int64_id. unfold is_int64. lia.
Qed.
Lemma int64_size z : accountable z → int64 z = z.
Proof. unfold accountable, max_int64. intros. apply int64_id. unfold is_int64. lia. Qed.

(** The row of a removal undoes that of the registration, whatever the size. *)
Lemma uint64_negRow z : uint64 (int64 (- int64 z)) = uint64 (- z).
Proof. rewrite uint64_of_int64. apply uint64_congr_opp, uint64_of_int64. Qed.

Lemma Books_Register space b cause now at' ins w :
  Books w → Books (exec (CallRegister space b cause now at' ins) w).2.
Proof.
  intros Hw. cbn [exec]. unfold onRegistry.
  pose proof (BlobRegistry.wf_Register space b cause now at' ins (registry w) (ledger w)
    (books_registry w Hw)) as Hwf.
  destruct (decide (Digest b ∈ BlobRegistry.digests (registry w) space)) as [Hin|Hn].
  { rewrite BlobRegistry.Register_exists by done. by destruct w. }
  rewrite BlobRegistry.Register_fresh in Hwf |- * by done. cbn [snd fst] in Hwf |- *.
  fold (bookBytes space cause (int64 (BlobSize b)) at' ins (BlobRegistry.addInc b) (ledger w)).
  destruct Hw as [_ Hup Hrows Hbytes Hblobs Hurows Hadm Hrange].
  split; cbn [registry uploadStore ledger]; [done|done|..]; try intros space'.
  - rewrite bookBytes_byteRows. unfold held. cbn [registry].
    rewrite BlobRegistry.blobs_entries_insert. case_decide; [subst|].
    + rewrite sizes_app. apply uint64_congr_add; [apply Hrows|]. simpl.
      by rewrite Z.add_0_r, uint64_of_int64.
    + rewrite Z.add_0_r. apply Hrows.
  - rewrite !bookBytes_total. unfold BlobRegistry.addInc, held. lookup_metric. cbn [registry].
    rewrite BlobRegistry.blobs_entries_insert. case_decide; [subst|apply (Hbytes space')].
    eapply pair_add; [apply Hbytes|]. unfold held. rewrite sizes_app. simpl. lia.
  - rewrite !bookBytes_total. unfold BlobRegistry.addInc, heldBlobs. lookup_metric.
    cbn [registry]. rewrite BlobRegistry.blobs_entries_insert.
    case_decide; [subst|apply (Hblobs space')].
    eapply pair_add; [apply Hblobs|]. unfold heldBlobs, len. rewrite length_app. simpl. lia.
  - rewrite !bookBytes_total. unfold BlobRegistry.addInc. lookup_metric. apply Hurows.
  - by apply admin_kept, Hadm.
  - intros k. apply range_kept, Hrange.
Qed.

Lemma Books_Deregister space digest cause clock w :
  Books w → Books (exec (CallDeregister space digest cause clock) w).2.
Proof.
  intros Hw. cbn [exec]. unfold onRegistry.
  pose proof (BlobRegistry.wf_Deregister space digest cause clock (registry w) (ledger w)
    (books_registry w Hw)) as Hwf.
  destruct (decide (digest ∈ BlobRegistry.digests (registry w) space)) as [Hin|Hn].
  2: { rewrite BlobRegistry.Deregister_absent by done. by destruct w. }
  destruct (BlobRegistry.Deregister_present space digest cause clock (registry w) (ledger w)
    (books_registry w Hw) Hin) as (l1 & ent & l2 & Hents & _ & Hd).
  rewrite Hd in Hwf |- *. cbn [snd fst] in Hwf |- *.
  fold (bookBytes space cause (int64 (- int64 (BlobSize (BlobRegistry.blob ent)))) (clock 0)
    (clock 1) (BlobRegistry.removeInc (BlobRegistry.blob ent)) (ledger w)).
  destruct Hw as [_ Hup Hrows Hbytes Hblobs Hurows Hadm Hrange].
  split; cbn [registry uploadStore ledger]; [done|done|..]; try intros space'.
  - rewrite bookBytes_byteRows. unfold held. cbn [registry].
    rewrite BlobRegistry.blobs_entries_insert.
    case_decide; [subst|rewrite Z.add_0_r; apply Hrows].
    erewrite uint64_congr_add; [|apply Hrows|apply uint64_negRow]. unfold held.
    rewrite Hents, !sizes_app. simpl. f_equal. lia.
  - rewrite !bookBytes_total. unfold BlobRegistry.removeInc, held. lookup_metric. cbn [registry].
    rewrite BlobRegistry.blobs_entries_insert. case_decide; [subst|apply (Hbytes space')].
    eapply pair_sub; [apply Hbytes|]. unfold held. rewrite Hents, !sizes_app. simpl. lia.
  - rewrite !bookBytes_total. unfold BlobRegistry.removeInc, heldBlobs. lookup_metric.
    cbn [registry]. rewrite BlobRegistry.blobs_entries_insert.
    case_decide; [subst|apply (Hblobs space')].
    eapply pair_sub; [apply Hblobs|].
    unfold heldBlobs, len. rewrite Hents, !length_app. simpl. lia.
  - rewrite !bookBytes_total. unfold BlobRegistry.removeInc. lookup_metric. apply Hurows.
  - by apply admin_kept, Hadm.
  - intros k. apply range_kept, Hrange.
Qed.

(** ** One change of a space's uploads *)
Lemma recordDelta_byteRows space cause delta metric at' ins l space' :
  byteRows (Upload.recordDelta space cause delta metric at' ins l) space' = byteRows l space'.
Proof.
  unfold Upload.recordDelta. pose proof (putUploadDiff_byteRows l space space' cause delta at' ins) as Hp.
  destruct (putUploadDiff _ _ _ _ _ _) as [[] l']; exact Hp.
Qed.
Lemma recordDelta_uploadRows space cause delta metric at' ins l space' :
  sumDelta (uploadRows (Upload.recordDelta space cause delta metric at' ins l) space') =
  (sumDelta (uploadRows l space') +
   if decide (space' = space) then
     if (putUploadDiff space cause delta at' ins l).1 then delta else 0
   else 0)%Z.
Proof.
  unfold Upload.recordDelta. pose proof (sumDelta_putUploadDiff l space space' cause delta at' ins) as Hp.
  destruct (putUploadDiff _ _ _ _ _ _) as [[] l']; exact Hp.
Qed.
Lemma recordDelta_total space cause delta metric at' ins l space' k :
  spaceTotal (Upload.recordDelta space cause delta metric at' ins l) space' k =
  if decide (k = metric ∧ space' = space ∧ (putUploadDiff space cause delta at' ins l).1 = true)
  then uint64 (spaceTotal l space' k + 1) else spaceTotal l space' k.
Proof.
  unfold Upload.recordDelta.
  pose proof (putUploadDiff_spaceTotal l space space' cause delta at' ins k) as Hp.
  destruct (putUploadDiff _ _ _ _ _ _) as [[] l']; cbn [fst snd negb] in *.
  - rewrite <-Hp.
    change (spaceTotal (incrementAdmin ?i ?m) space' k) with (spaceTotal m space' k).
    rewrite spaceTotal_incrementSpace. destruct (decide (k = metric)) as [->|Hk].
    + rewrite lookup_insert_eq. case_decide; [by rewrite decide_True|].
      rewrite decide_False; [done|]. by intros (_ & ? & _).
    + rewrite lookup_insert_ne, lookup_empty, decide_False; [done| |done]. by intros (? & _).
  - rewrite decide_False; [done|]. by intros (_ & _ & ?).
Qed.
Lemma recordDelta_admin space cause delta metric at' ins l k :
  uint64 (adminTotal l k) = uint64 (Metrics.sumSpaces (spaceMetrics l) k) →
  uint64 (adminTotal (Upload.recordDelta space cause delta metric at' ins l) k) =
  uint64 (Metrics.sumSpaces (spaceMetrics (Upload.recordDelta space cause delta metric at' ins l)) k).
Proof.
  intros Hk. unfold Upload.recordDelta.
  pose proof (putUploadDiff_adminTotal l space cause delta at' ins k) as Ha.
  pose proof (putUploadDiff_spaceMetrics l space cause delta at' ins) as Hs.
  destruct (putUploadDiff _ _ _ _ _ _) as [[] l']; cbn [fst snd negb] in *.
  - apply admin_kept. by rewrite Ha, Hs.
  - by rewrite Ha, Hs.
Qed.

(** The books of a world whose registry is untouched and whose ledger took one
    upload change: [delta] under the counter that carries its sign. *)
Lemma Books_recordDelta w space cause delta metric at' ins us :
  Upload.wf us →
  (delta, metric) = (1%Z, UploadAddTotalMetric) ∨ (delta, metric) = ((-1)%Z, UploadRemoveTotalMetric) →
  Books w →
  Books {| registry := registry w; uploadStore := us;
           ledger := Upload.recordDelta space cause delta metric at' ins (ledger w) |}.
Proof.
  intros Hus Hdm [Hreg Hup Hrows Hbytes Hblobs Hurows Hadm Hrange].
  assert (metric ≠ BlobAddSizeTotalMetric ∧ metric ≠ BlobRemoveSizeTotalMetric ∧
    metric ≠ BlobAddTotalMetric ∧ metric ≠ BlobRemoveTotalMetric) as (?&?&?&?)
    by (destruct Hdm; simplify_eq; split_and!; metric_ne).
  assert (UploadAddTotalMetric ≠ UploadRemoveTotalMetric) as Hne by metric_ne.
  split; cbn [registry uploadStore ledger]; [done|done|..]; try intros space'.
  - rewrite recordDelta_byteRows. apply Hrows.
  - rewrite !recordDelta_total, !decide_False by (intros [? _]; congruence). apply Hbytes.
  - rewrite !recordDelta_total, !decide_False by (intros [? _]; congruence). apply Hblobs.
  - rewrite !recordDelta_total, recordDelta_uploadRows.
    destruct (decide (space' = space)) as [Heq|Hsp];
      [|rewrite !decide_False by (intros (_ & ? & _); done); by rewrite Z.add_0_r].
    destruct (putUploadDiff _ _ _ _ _ _).1;
      [|rewrite !decide_False by (intros (_ & _ & ?); done); by rewrite Z.add_0_r].
    destruct Hdm as [[= -> ->]|[= -> ->]].
    + rewrite decide_True, decide_False by (auto || (intros [? _]; congruence)).
      eapply pair_add; [apply Hurows|done].
    + rewrite decide_False, decide_True by (auto || (intros [? _]; congruence)).
      eapply pair_sub; [apply Hurows|lia].
  - by apply recordDelta_admin.
  - intros k. rewrite recordDelta_total. case_decide; [apply uint64_range|apply Hrange].
Qed.

Lemma Books_uploadStore w us :
  Upload.wf us → Books w →
  Books {| registry := registry w; uploadStore := us; ledger := ledger w |}.
Proof. intros Hus []. by split. Qed.

Lemma Books_Remove space root cause at' ins w :
  Books w → Books (exec (CallRemove space root cause at' ins) w).2.
Proof.
  intros Hw. cbn [exec]. unfold onUploads.
  pose proof (Upload.wf_Remove space root cause at' ins (uploadStore w) (ledger w)
    (books_uploads w Hw)) as Hwf.
  destruct (decide (root ∈ Upload.roots (uploadStore w) space)) as [Hin|Hn].
  - destruct (Upload.Remove_present space root cause at' ins _ (ledger w) Hin)
      as (us1 & r & us2 & _ & _ & Hr).
    rewrite Hr in Hwf |- *. cbn [snd fst] in *. apply Books_recordDelta; auto.
  - rewrite Upload.Remove_absent by done. by destruct w.
Qed.
Lemma Books_Upsert space root idx new cause now at' ins w :
  Books w → Books (exec (CallUpsert space root idx new cause now at' ins) w).2.
Proof.
  intros Hw. cbn [exec]. unfold onUploads.
  pose proof (Upload.wf_Upsert space root idx new cause now at' ins (uploadStore w) (ledger w)
    (books_uploads w Hw)) as Hwf.
  destruct (decide (root ∈ Upload.roots (uploadStore w) space)) as [Hin|Hn].
  - destruct (Upload.Upsert_again space root idx new cause now at' ins _ (ledger w) Hin)
      as (m & us & Hu & _).
    rewrite Hu in Hwf |- *. cbn [snd fst] in *. by apply Books_uploadStore.
  - destruct (Upload.Upsert_new space root idx new cause now at' ins _ (ledger w) Hn)
      as (m & Hu).
    rewrite Hu in Hwf |- *. cbn [snd fst] in *. apply Books_recordDelta; auto.
Qed.

Lemma Books_empty : Books emptyWorld.
Proof.
  split; try apply BlobRegistry.blobs_wf_New; try apply Upload.uploads_wf_New; intros;
    unfold held, heldBlobs, BlobRegistry.entries, byteRows, uploadRows, SpaceDiff.rows,
      UploadDiff.rows, spaceTotal, adminTotal, Metrics.GetSpace, Metrics.total, Metrics.Get;
    simpl; rewrite ?lookup_empty; try done.
Qed.
Lemma Books_step ok w w' : stepFor ok w w' → Books w → Books w'.
Proof.
  intros [c w0 _] Hw. destruct c; [by apply Books_Register|by apply Books_Deregister|
    by apply Books_Upsert|by apply Books_Remove].
Qed.
Lemma Books_reachable ok w : rtc (stepFor ok) emptyWorld w → Books w.
Proof.
  intros Hr. pose proof Books_empty as Hb. revert Hb.
  induction Hr as [|w1 w2 w3 Hs _ IH]; [done|]. intros Hb. apply IH. by eapply Books_step.
Qed.

(** ** The byte log is exact while the sizes have a row *)
Lemma Exact_empty : Exact emptyWorld.
Proof.
  split; intros; unfold held, BlobRegistry.entries, byteRows, SpaceDiff.rows; simpl;
    rewrite ?lookup_empty; done.
Qed.
Lemma Exact_same w w' :
  registry w' = registry w →
  (∀ space, byteRows (ledger w') space = byteRows (ledger w) space) → Exact w → Exact w'.
Proof.
  intros Hr Hb [Hs He]. split; intros space.
  - rewrite Hr. apply Hs.
  - rewrite Hb, He. unfold held. by rewrite Hr.
Qed.
Lemma Exact_Register space b cause now at' ins w :
  accountable (BlobSize b) → Exact w → Exact (exec (CallRegister space b cause now at' ins) w).2.
Proof.
  intros Hb Hw. cbn [exec]. unfold onRegistry.
  destruct (decide (Digest b ∈ BlobRegistry.digests (registry w) space)) as [Hin|Hn].
  { rewrite BlobRegistry.Register_exists by done. by destruct w. }
  rewrite BlobRegistry.Register_fresh by done. cbn [snd fst].
  fold (bookBytes space cause (int64 (BlobSize b)) at' ins (BlobRegistry.addInc b) (ledger w)).
  destruct Hw as [Hsz Hrows]. split; cbn [registry ledger]; intros space'.
  - rewrite BlobRegistry.blobs_entries_insert. case_decide; [|apply Hsz].
    apply Forall_app. split; [apply Hsz|by apply Forall_singleton].
  - rewrite bookBytes_byteRows, Hrows. unfold held. cbn [registry].
    rewrite BlobRegistry.blobs_entries_insert. case_decide; [subst|by rewrite Z.add_0_r].
    rewrite sizes_app, int64_size by done. simpl. lia.
Qed.
Lemma Exact_Deregister space digest cause clock w :
  Books w → Exact w → Exact (exec (CallDeregister space digest cause clock) w).2.
Proof.
  intros Hbk Hw. cbn [exec]. unfold onRegistry.
  destruct (decide (digest ∈ BlobRegistry.digests (registry w) space)) as [Hin|Hn].
  2: { rewrite BlobRegistry.Deregister_absent by done. by destruct w. }
  destruct (BlobRegistry.Deregister_present space digest cause clock (registry w) (ledger w)
    (books_registry w Hbk) Hin) as (l1 & ent & l2 & Hents & _ & ->). cbn [snd fst].
  fold (bookBytes space cause (int64 (- int64 (BlobSize (BlobRegistry.blob ent)))) (clock 0)
    (clock 1) (BlobRegistry.removeInc (BlobRegistry.blob ent)) (ledger w)).
  destruct Hw as [Hsz Hrows]. pose proof (Hsz space) as Hsp.
  rewrite Hents, Forall_app, Forall_cons in Hsp. destruct Hsp as (Hsz1 & Hent & Hsz2).
  split; cbn [registry ledger]; intros space'.
  - rewrite BlobRegistry.blobs_entries_insert. case_decide; [|apply Hsz]. by apply Forall_app.
  - rewrite bookBytes_byteRows, Hrows. unfold held. cbn [registry].
    rewrite BlobRegistry.blobs_entries_insert. case_decide; [subst|by rewrite Z.add_0_r].
    rewrite Hents, !sizes_app, int64_neg by done. simpl. lia.
Qed.
Lemma Exact_uploads m w :
  (∀ s space, byteRows (m (s, ledger w)).2.2 space = byteRows (ledger w) space) →
  Exact w → Exact (onUploads m w).2.
Proof.
  intros Hm. unfold onUploads. specialize (Hm (uploadStore w)).
  destruct (m (uploadStore w, ledger w)) as [r [s l]]. by apply Exact_same.
Qed.
Lemma Exact_step w w' : smallStep w w' → Books w → Exact w → Exact w'.
Proof.
  intros [c w0 Hc] Hbk Hw. destruct c as [sp b cause now at' ins|sp d cause clock
    |sp root idx new cause now at' ins|sp root cause at' ins].
  - by apply Exact_Register.
  - by apply Exact_Deregister.
  - apply Exact_uploads; [|done]. intros s space.
    destruct (decide (root ∈ Upload.roots s sp)) as [Hin|Hn].
    + by destruct (Upload.Upsert_again sp root idx new cause now at' ins _ (ledger w0) Hin)
        as (m & us & -> & _).
    + destruct (Upload.Upsert_new sp root idx new cause now at' ins _ (ledger w0) Hn)
        as (m & ->). apply recordDelta_byteRows.
  - apply Exact_uploads; [|done]. intros s space.
    destruct (decide (root ∈ Upload.roots s sp)) as [Hin|Hn].
    + destruct (Upload.Remove_present sp root cause at' ins _ (ledger w0) Hin)
        as (us1 & r & us2 & _ & _ & ->). apply recordDelta_byteRows.
    + by rewrite Upload.Remove_absent.
Qed.
Lemma Exact_reachable w : rtc smallStep emptyWorld w → Exact w.
Proof.
  intros Hr. pose proof Books_empty as Hb. pose proof Exact_empty as He. revert Hb He.
  induction Hr as [|w1 w2 w3 Hs _ IH]; [done|]. intros Hb He.
  apply IH; [by eapply Books_step|by eapply Exact_step].
Qed.

Lemma held_nonneg w space : Exact w → (0 ≤ held w space)%Z.
Proof.
  intros Hw. unfold held. pose proof (exact_sized w Hw space) as Hs.
  induction Hs as [|ent ents [? _] _ IH]; simpl; lia.
Qed.

(** ** The logs stay in order *)
Definition logsOk (l : Ledger) : Prop :=
  SpaceDiff.sorted (spaceDiffs l) ∧ UploadDiff.wf (uploadDiffs l).
Lemma logsOk_bookBytes space cause delta at' now inc l :
  logsOk l → logsOk (bookBytes space cause delta at' now inc l).
Proof. intros [Hs Hu]. split; [by apply SpaceDiff.sorted_Put|done]. Qed.
Lemma logsOk_recordDelta space cause delta metric at' ins l :
  logsOk l → logsOk (Upload.recordDelta space cause delta metric at' ins l).
Proof.
  intros [Hs Hu]. pose proof (UploadDiff.wf_Put space cause delta at' ins _ Hu) as Hp.
  unfold Upload.recordDelta, putUploadDiff.
  by destruct (UploadDiff.Put space cause delta at' ins (uploadDiffs l)) as [[] u].
Qed.
Lemma logsOk_step ok w w' : Books w → stepFor ok w w' → logsOk (ledger w) → logsOk (ledger w').
Proof.
  intros Hw Hs. revert Hw. destruct Hs as [c w0 _]. intros Hw Hl.
  destruct c as [sp b cause now at' ins|sp d cause clock|sp root idx new cause now at' ins
    |sp root cause at' ins]; cbn [exec]; unfold onRegistry, onUploads.
  - destruct (decide (Digest b ∈ BlobRegistry.digests (registry w0) sp)) as [Hin|Hn].
    + by rewrite BlobRegistry.Register_exists.
    + rewrite BlobRegistry.Register_fresh by done. by apply logsOk_bookBytes.
  - destruct (decide (d ∈ BlobRegistry.digests (registry w0) sp)) as [Hin|Hn].
    + destruct (BlobRegistry.Deregister_present sp d cause clock (registry w0) (ledger w0)
        (books_registry w0 Hw) Hin) as (l1 & ent & l2 & _ & _ & ->). by apply logsOk_bookBytes.
    + by rewrite BlobRegistry.Deregister_absent.
  - destruct (decide (root ∈ Upload.roots (uploadStore w0) sp)) as [Hin|Hn].
    + by destruct (Upload.Upsert_again sp root idx new cause now at' ins _ (ledger w0) Hin)
        as (m & us & -> & _).
    + destruct (Upload.Upsert_new sp root idx new cause now at' ins _ (ledger w0) Hn)
        as (m & ->). by apply logsOk_recordDelta.
  - destruct (decide (root ∈ Upload.roots (uploadStore w0) sp)) as [Hin|Hn].
    + destruct (Upload.Remove_present sp root cause at' ins _ (ledger w0) Hin)
        as (us1 & r & us2 & _ & _ & ->). by apply logsOk_recordDelta.
    + by rewrite Upload.Remove_absent.
Qed.
Lemma logsOk_reachable ok w : rtc (stepFor ok) emptyWorld w → logsOk (ledger w).
Proof.
  intros Hr. assert (logsOk (ledger emptyWorld)) as Hl.
  { split; [apply SpaceDiff.sorted_New|apply UploadDiff.uploadDiff_wf_New]. }
  pose proof Books_empty as Hb. revert Hb Hl.
  induction Hr as [|w1 w2 w3 Hs _ IH]; [done|]. intros Hb Hl.
  apply IH; [by eapply Books_step|by eapply logsOk_step].
Qed.

(** ** While no counter wraps, the counters are exact *)

(** "The counters only ever increase": no call set a total back. *)
Definition grows (w w' : World) : Prop := ∀ space k,
  (spaceTotal (ledger w) space k ≤ spaceTotal (ledger w') space k)%Z.
Definition growing (w w' : World) : Prop := smallStep w w' ∧ grows w w'.

Record Anchored (l : Ledger) (space : DID) : Prop := {
  anchored_bytes :
    (spaceTotal l space BlobAddSizeTotalMetric - spaceTotal l space BlobRemoveSizeTotalMetric
     = sumDelta (byteRows l space))%Z;
  anchored_uploads :
    (spaceTotal l space UploadAddTotalMetric - spaceTotal l space UploadRemoveTotalMetric
     = sumDelta (uploadRows l space))%Z;
}.

(** A change moves one counter of a pair, and the log by as much. *)
Definition moved (a r h a' r' h' : Z) : Prop := ∃ v, is_uint64 v ∧
  (a' = uint64 (a + v) ∧ r' = r ∧ h' = (h + v)%Z ∨
   a' = a ∧ r' = uint64 (r + v) ∧ h' = (h - v)%Z).

Lemma moved_none a r h : is_uint64 a → moved a r h a r h.
Proof.
  intros Ha. exists 0%Z. split; [unfold is_uint64; lia|]. left.
  rewrite Z.add_0_r, uint64_id by done. split_and!; lia.
Qed.
Lemma moved_exact a r h a' r' h' :
  is_uint64 a → is_uint64 r → moved a r h a' r' h' →
  (a ≤ a')%Z → (r ≤ r')%Z → (a - r = h)%Z → (a' - r' = h')%Z.
Proof.
  intros Ha Hr (v & Hv & [(-> & -> & ->)|(-> & -> & ->)]) Hla Hlr Heq.
  - rewrite uint64_grows by done. lia.
  - rewrite uint64_grows by done. lia.
Qed.

Lemma step_moves_bytes w w' space : Books w → Exact w → smallStep w w' →
  moved (spaceTotal (ledger w) space BlobAddSizeTotalMetric)
        (spaceTotal (ledger w) space BlobRemoveSizeTotalMetric)
        (sumDelta (byteRows (ledger w) space))
        (spaceTotal (ledger w') space BlobAddSizeTotalMetric)
        (spaceTotal (ledger w') space BlobRemoveSizeTotalMetric)
        (sumDelta (byteRows (ledger w') space)).
Proof.
  intros Hw Hex Hs. revert Hw Hex. destruct Hs as [c w0 Hc]. intros Hw Hex.
  pose proof (books_range w0 Hw space BlobAddSizeTotalMetric) as Hran.
  destruct c as [sp b cause now at' ins|sp d cause clock|sp root idx new cause now at' ins
    |sp root cause at' ins]; cbn [exec]; unfold onRegistry, onUploads.
  - destruct (decide (Digest b ∈ BlobRegistry.digests (registry w0) sp)) as [Hin|Hn].
    { rewrite BlobRegistry.Register_exists by done. by apply moved_none. }
    rewrite BlobRegistry.Register_fresh by done. cbn [snd fst ledger].
    fold (bookBytes sp cause (int64 (BlobSize b)) at' ins (BlobRegistry.addInc b) (ledger w0)).
    rewrite !bookBytes_total, bookBytes_byteRows. unfold BlobRegistry.addInc. lookup_metric.
    case_decide; [|rewrite Z.add_0_r; by apply moved_none].
    cbn [sized] in Hc. exists (BlobSize b). rewrite int64_size by done.
    split; [unfold accountable, is_uint64, max_int64 in *; lia|]. left. auto.
  - destruct (decide (d ∈ BlobRegistry.digests (registry w0) sp)) as [Hin|Hn].
    2: { rewrite BlobRegistry.Deregister_absent by done. by apply moved_none. }
    destruct (BlobRegistry.Deregister_present sp d cause clock (registry w0) (ledger w0)
      (books_registry w0 Hw) Hin) as (l1 & ent & l2 & Hents & _ & ->). cbn [snd fst ledger].
    fold (bookBytes sp cause (int64 (- int64 (BlobSize (BlobRegistry.blob ent)))) (clock 0)
      (clock 1) (BlobRegistry.removeInc (BlobRegistry.blob ent)) (ledger w0)).
    rewrite !bookBytes_total, bookBytes_byteRows. unfold BlobRegistry.removeInc. lookup_metric.
    case_decide; [|rewrite Z.add_0_r; by apply moved_none].
    pose proof (exact_sized w0 Hex sp) as Hsz.
    rewrite Hents, Forall_app, Forall_cons in Hsz. destruct Hsz as (_ & Hent & _).
    exists (BlobSize (BlobRegistry.blob ent)). rewrite int64_neg by done.
    split; [unfold accountable, is_uint64, max_int64 in *; lia|]. right. split_and!; [done..|lia].
  - destruct (decide (root ∈ Upload.roots (uploadStore w0) sp)) as [Hin|Hn].
    + destruct (Upload.Upsert_again sp root idx new cause now at' ins _ (ledger w0) Hin)
        as (m & us & -> & _). by apply moved_none.
    + destruct (Upload.Upsert_new sp root idx new cause now at' ins _ (ledger w0) Hn)
        as (m & ->). cbn [snd fst ledger]. rewrite recordDelta_byteRows, !recordDelta_total.
      rewrite !decide_False by (intros [He _]; revert He; metric_ne). by apply moved_none.
  - destruct (decide (root ∈ Upload.roots (uploadStore w0) sp)) as [Hin|Hn].
    + destruct (Upload.Remove_present sp root cause at' ins _ (ledger w0) Hin)
        as (us1 & r & us2 & _ & _ & ->). cbn [snd fst ledger].
      rewrite recordDelta_byteRows, !recordDelta_total.
      rewrite !decide_False by (intros [He _]; revert He; metric_ne). by apply moved_none.
    + rewrite Upload.Remove_absent by done. by apply moved_none.
Qed.

Lemma recordDelta_moved l sp cause delta metric at' ins space :
  (delta, metric) = (1%Z, UploadAddTotalMetric) ∨ (delta, metric) = ((-1)%Z, UploadRemoveTotalMetric) →
  is_uint64 (spaceTotal l space UploadAddTotalMetric) →
  moved (spaceTotal l space UploadAddTotalMetric)
    (spaceTotal l space UploadRemoveTotalMetric)
    (sumDelta (uploadRows l space))
    (spaceTotal (Upload.recordDelta sp cause delta metric at' ins l) space UploadAddTotalMetric)
    (spaceTotal (Upload.recordDelta sp cause delta metric at' ins l) space UploadRemoveTotalMetric)
    (sumDelta (uploadRows (Upload.recordDelta sp cause delta metric at' ins l) space)).
Proof.
  intros Hdm Hran. rewrite !recordDelta_total, recordDelta_uploadRows.
  assert (UploadAddTotalMetric ≠ UploadRemoveTotalMetric) as Hne by metric_ne.
  destruct (decide (space = sp)) as [->|Hsp].
  2: { rewrite !decide_False by (intros (_ & ? & _); done). rewrite Z.add_0_r.
       by apply moved_none. }
  destruct (putUploadDiff _ _ _ _ _ _).1.
  2: { rewrite !decide_False by (intros (_ & _ & ?); done). rewrite Z.add_0_r.
       by apply moved_none. }
  exists 1%Z. split; [unfold is_uint64; lia|].
  destruct Hdm as [[= -> ->]|[= -> ->]]; [left|right].
  - rewrite decide_True, decide_False by (auto || (intros [? _]; congruence)). auto.
  - rewrite decide_False, decide_True by (auto || (intros [? _]; congruence)).
    split_and!; [done..|lia].
Qed.
Lemma step_moves_uploads ok w w' space : Books w → stepFor ok w w' →
  moved (spaceTotal (ledger w) space UploadAddTotalMetric)
        (spaceTotal (ledger w) space UploadRemoveTotalMetric)
        (sumDelta (uploadRows (ledger w) space))
        (spaceTotal (ledger w') space UploadAddTotalMetric)
        (spaceTotal (ledger w') space UploadRemoveTotalMetric)
        (sumDelta (uploadRows (ledger w') space)).
Proof.
  intros Hw Hs. revert Hw. destruct Hs as [c w0 Hc]. intros Hw.
  pose proof (books_range w0 Hw space UploadAddTotalMetric) as Hran.
  destruct c as [sp b cause now at' ins|sp d cause clock|sp root idx new cause now at' ins
    |sp root cause at' ins]; cbn [exec]; unfold onRegistry, onUploads.
  - destruct (decide (Digest b ∈ BlobRegistry.digests (registry w0) sp)) as [Hin|Hn].
    { rewrite BlobRegistry.Register_exists by done. by apply moved_none. }
    rewrite BlobRegistry.Register_fresh by done. cbn [snd fst ledger].
    fold (bookBytes sp cause (int64 (BlobSize b)) at' ins (BlobRegistry.addInc b) (ledger w0)).
    rewrite !bookBytes_total. unfold BlobRegistry.addInc. lookup_metric.
    by apply moved_none.
  - destruct (decide (d ∈ BlobRegistry.digests (registry w0) sp)) as [Hin|Hn].
    2: { rewrite BlobRegistry.Deregister_absent by done. by apply moved_none. }
    destruct (BlobRegistry.Deregister_present sp d cause clock (registry w0) (ledger w0)
      (books_registry w0 Hw) Hin) as (l1 & ent & l2 & Hents & _ & ->). cbn [snd fst ledger].
    fold (bookBytes sp cause (int64 (- int64 (BlobSize (BlobRegistry.blob ent)))) (clock 0)
      (clock 1) (BlobRegistry.removeInc (BlobRegistry.blob ent)) (ledger w0)).
    rewrite !bookBytes_total. unfold BlobRegistry.removeInc. lookup_metric.
    by apply moved_none.
  - destruct (decide (root ∈ Upload.roots (uploadStore w0) sp)) as [Hin|Hn].
    + destruct (Upload.Upsert_again sp root idx new cause now at' ins _ (ledger w0) Hin)
        as (m & us & -> & _). by apply moved_none.
    + destruct (Upload.Upsert_new sp root idx new cause now at' ins _ (ledger w0) Hn)
        as (m & ->). cbn [snd fst ledger]. apply recordDelta_moved; auto.
  - destruct (decide (root ∈ Upload.roots (uploadStore w0) sp)) as [Hin|Hn].
    + destruct (Upload.Remove_present sp root cause at' ins _ (ledger w0) Hin)
        as (us1 & r & us2 & _ & _ & ->). cbn [snd fst ledger]. apply recordDelta_moved; auto.
    + rewrite Upload.Remove_absent by done. by apply moved_none.
Qed.

Lemma Anchored_reachable w space : rtc growing emptyWorld w → Anchored (ledger w) space.
Proof.
  intros Hr. assert (Anchored (ledger emptyWorld) space) as Ha.
  { split; unfold spaceTotal, byteRows, uploadRows, SpaceDiff.rows, UploadDiff.rows,
      Metrics.GetSpace, Metrics.total; simpl; by rewrite !lookup_empty. }
  pose proof Books_empty as Hb. pose proof Exact_empty as He. revert Ha Hb He.
  induction Hr as [|w1 w2 w3 [Hs Hg] _ IH]; [done|]. intros [Hb1 Hu1] Hb He.
  apply IH; [|by eapply Books_step|by eapply Exact_step]. split.
  - eapply moved_exact; [by apply books_range|by apply books_range|by apply step_moves_bytes|apply Hg|apply Hg|done].
  - eapply moved_exact; [by apply books_range|by apply books_range|by eapply step_moves_uploads|apply Hg|apply Hg|done].
Qed.
Lemma growing_step w w' : rtc growing w w' → rtc smallStep w w'.
Proof. induction 1 as [|w1 w2 w3 [? _] _ IH]; [done|]. by eapply rtc_l. Qed.

(** What the accounts say of a space, whatever the sizes: the byte log and the
    byte counters account, modulo 2^64, for the bytes the space holds, the blob
    counters for the number of its blobs, the upload counters for the upload log,
    and the service's totals for the sums over the spaces. *)
Definition balanced (w : World) (space : DID) : Prop :=
  uint64 (sumDelta (byteRows (ledger w) space)) = uint64 (held w space) ∧
  uint64 (spaceTotal (ledger w) space BlobAddSizeTotalMetric -
          spaceTotal (ledger w) space BlobRemoveSizeTotalMetric) = uint64 (held w space) ∧
  uint64 (spaceTotal (ledger w) space BlobAddTotalMetric -
          spaceTotal (ledger w) space BlobRemoveTotalMetric) = uint64 (heldBlobs w space) ∧
  uint64 (spaceTotal (ledger w) space UploadAddTotalMetric -
          spaceTotal (ledger w) space UploadRemoveTotalMetric) =
    uint64 (sumDelta (uploadRows (ledger w) space)) ∧
  ∀ k, uint64 (adminTotal (ledger w) k) =
       uint64 (Metrics.sumSpaces (spaceMetrics (ledger w)) k).
Lemma Books_balanced w space : Books w → balanced w space.
Proof. intros []. by unfold balanced. Qed.

(** C8: after any sequence of [Register], [Deregister], [Upsert] and [Remove]
    calls, successful or not, in any order and of blobs of any size, every space's
    byte diff log sums, modulo 2^64, to the bytes of the blobs registered in it, its
    byte counters and its blob counters differ (modulo 2^64) by the bytes and the
    number of those blobs, its upload counters differ by the sum of its upload log,
    and every service total is the sum of that total over the spaces. The byte log
    sums to those bytes exactly when no size exceeds the int64 of a diff row; a
    larger one is logged as a negative number of bytes. *)
Theorem accounts_balance (cs : list call) (space : DID) :
  let w := runCalls cs emptyWorld in
  balanced w space ∧
  (Forall (sized accountable) cs → sumDelta (byteRows (ledger w) space) = held w space).
Proof.
  intros w. split.
  - eapply Books_balanced, (Books_reachable (λ _, True)), runCalls_steps, Forall_true.
    by intros [].
  - intros Hs. by apply exact_byteRows, Exact_reachable, runCalls_steps.
Qed.

(** A size with the top bit set: the first registration of such a blob is logged as
    a loss of bytes, while the registry holds it and the counter counts it. *)
Theorem oversized_negative (space : DID) (b : Blob) (cause : Cid) (now at' ins : Z) :
  (2 ^ 63 ≤ BlobSize b < 2 ^ 64)%Z →
  let w := (exec (CallRegister space b cause now at' ins) emptyWorld).2 in
  held w space = BlobSize b ∧
  spaceTotal (ledger w) space BlobAddSizeTotalMetric = BlobSize b ∧
  sumDelta (byteRows (ledger w) space) = (BlobSize b - 2 ^ 64)%Z ∧
  (sumDelta (byteRows (ledger w) space) < 0)%Z.
Proof.
  intros Hb. cbn [exec]. unfold onRegistry.
  assert (Digest b ∉ BlobRegistry.digests (registry emptyWorld) space) as Hn.
  { unfold BlobRegistry.digests, BlobRegistry.entries. simpl. rewrite lookup_empty.
    apply not_elem_of_nil. }
  rewrite BlobRegistry.Register_fresh by done. cbn [snd fst registry ledger].
  fold (bookBytes space cause (int64 (BlobSize b)) at' ins (BlobRegistry.addInc b)
    (ledger emptyWorld)).
  rewrite bookBytes_byteRows, bookBytes_total. unfold BlobRegistry.addInc, held. lookup_metric.
  cbn [registry ledger]. rewrite BlobRegistry.blobs_entries_insert, !decide_True by done.
  assert (int64 (BlobSize b) = BlobSize b - 2 ^ 64)%Z as ->.
  { unfold int64. rewrite <-(Z.mod_unique _ (2 ^ 64) 1 (BlobSize b + 2 ^ 63 - 2 ^ 64)); lia. }
  unfold BlobRegistry.entries, byteRows, SpaceDiff.rows, spaceTotal, Metrics.GetSpace,
    Metrics.total. simpl. rewrite !lookup_empty. simpl.
  rewrite uint64_id by (unfold is_uint64; lia).
  split_and!; lia.
Qed.

(** As long as no running total has been set back by wrapping around, the
    byte counters of a space differ by exactly the bytes it holds and its
    upload counters by exactly the sum of its upload log: removed never
    exceeds added for the bytes. *)
Theorem counters_exact (w : World) (space : DID) :
  rtc growing emptyWorld w →
  (spaceTotal (ledger w) space BlobAddSizeTotalMetric -
   spaceTotal (ledger w) space BlobRemoveSizeTotalMetric = held w space)%Z ∧
  (spaceTotal (ledger w) space UploadAddTotalMetric -
   spaceTotal (ledger w) space UploadRemoveTotalMetric
     = sumDelta (uploadRows (ledger w) space))%Z ∧
  (spaceTotal (ledger w) space BlobRemoveSizeTotalMetric ≤
   spaceTotal (ledger w) space BlobAddSizeTotalMetric)%Z.
Proof.
  intros Hr. destruct (Anchored_reachable w space Hr) as [Hb Hu].
  apply growing_step, Exact_reachable in Hr. rewrite exact_byteRows in Hb by done.
  split_and!; [done..|].
  pose proof (held_nonneg w space Hr). lia.
Qed.
End Accounting.

(** ** Witnesses *)
Section Witnesses.
#[local] Existing Instance StrIds.
#[local] Existing Instance NumberJSON.
#[local] Existing Instance StrCommands.

Definition exampleBlob : Blob := {| Digest := "d"; BlobSize := 7 |}.
Definition exampleRegister : call := CallRegister "s" exampleBlob "c" 10 11 12.
Definition exampleWorld : World := (exec exampleRegister emptyWorld).2.

Lemma example_step : smallStep emptyWorld exampleWorld.
Proof. apply step_call. vm_compute. split; discriminate. Qed.
Lemma example_grows : grows emptyWorld exampleWorld.
Proof.
  intros space k. unfold spaceTotal at 1, Metrics.GetSpace, Metrics.total. simpl.
  rewrite lookup_empty. simpl. rewrite lookup_empty. simpl. apply books_range.
  eapply Books_step; [apply example_step|apply Books_empty].
Qed.

(** A blob of 7 bytes, and one of 2^63 whose row is negative. *)
Definition exampleOther : DID := "t".
Definition exampleCalls : list call :=
  [exampleRegister; CallRegister exampleOther {| Digest := "e"; BlobSize := 2 ^ 63 |} "c" 20 21 22].
Lemma accounts_balance_witness :
  (balanced (runCalls exampleCalls emptyWorld) exampleOther ∧
   sumDelta (byteRows (ledger (runCalls exampleCalls emptyWorld)) exampleOther) = (- 2 ^ 63)%Z) ∧
  sumDelta (byteRows (ledger (runCalls [exampleRegister] emptyWorld)) "s") = 7%Z.
Proof.
  split; [split; [apply (accounts_balance exampleCalls exampleOther)|vm_compute; reflexivity]|].
  destruct (accounts_balance [exampleRegister] "s") as [_ Hrows]. rewrite Hrows.
  - vm_compute. reflexivity.
  - constructor; [vm_compute; split; discriminate|constructor].
Defined.
Lemma oversized_negative_witness :
  (sumDelta (byteRows (ledger (exec (CallRegister exampleOther {| Digest := "e"; BlobSize := 2 ^ 63 |}
     "c" 20 21 22) emptyWorld).2) exampleOther) < 0)%Z.
Proof.
  apply (oversized_negative exampleOther {| Digest := "e"; BlobSize := 2 ^ 63 |}).
  split; [discriminate|reflexivity].
Defined.

Lemma counters_exact_witness :
  (spaceTotal (ledger exampleWorld) "s" BlobAddSizeTotalMetric -
   spaceTotal (ledger exampleWorld) "s" BlobRemoveSizeTotalMetric = 7)%Z.
Proof.
  destruct (counters_exact exampleWorld "s") as [Hrows _].
  - apply rtc_once. split; [apply example_step|apply example_grows].
  - rewrite Hrows. reflexivity.
Defined.
End Witnesses.
