(* ===== verification/Usage.v ===== *)
(** * Usage: [pkg/usage/usage.go]

    The usage time series of a space, reconstructed from the two diff logs and
    the running totals. The service reads the stores through an interface and
    reads them several times, while writers go on: [world t] is the state of the
    stores at the [t]-th call, [down t] what the call fails with when it gets no
    answer, and the computation's state is [t]. *)
From S2P Require Export Metrics DiffLog.

(** What the service uses of [spacediff.Store], [uploaddiff.Store] and
    [metrics.SpaceStore]. *)
Class UsageStores `{Ids} (W : Type) := {
  getSpaceTotals : W → DID → gmap string Z;
  listSpaceDiffs : W → DID → Z → PaginationConfig → outcome (Page DifferenceRecord);
  listUploadDiffs : W → DID → Z → PaginationConfig → outcome (Page DifferenceRecord);
}.

Module Usage.
Definition MaxSamples : Z := 2048.
Definition maxWindow : Z := 366 * 24 * Hour.
Definition maxScanRows : Z := 500000.
Definition totalsAttempts : nat := 3.

Section Errors.
Context `{ErrorNames}.
Definition ErrInvalidRange : error := Named InvalidRangeErrorName
  "range must be a non-empty interval between positive unix timestamps".
Definition ErrInvalidWindow : error := Named InvalidWindowErrorName
  "window must be positive and no longer than 8784h0m0s".
Definition ErrUsageUnstable : error := Named UsageUnstableErrorName
  "space usage changed throughout the read".
Definition ErrRangeTooBusy : error := Named RangeTooBusyErrorName
  "range holds more than 500000 recorded changes, request a shorter range".
Definition errTooManySamples (n : Z) : error := Named TooManySamplesErrorName
  (Itoa n +:+ " samples requested, the limit is " +:+ Itoa MaxSamples +:+
   ": widen the window or shorten the range").
End Errors.

Record Sample := {
  End_ : Z;
  BytesStored : Z;
  BytesIngested : Z;
  UploadCount : Z;
}.
Record Series := { From : Z; To : Z; Window : Z; Samples : list Sample }.

Definition ParseRange `{ErrorNames} (from to window : Z) : outcome (Z * Z * Z) :=
  if (from <=? 0)%Z || (to <=? 0)%Z || (to <=? from)%Z then Err ErrInvalidRange
  else if (window <=? 0)%Z || (maxWindow ÷ Second <? window)%Z then Err ErrInvalidWindow
  else Ok (fromUnix from, fromUnix to, (window * Second)%Z).

Section Usage.
Context `{Commands} `{Ids} `{ErrorNames}.

(** ** Replaying the diffs: [run] *)
Record reading := {
  storedBytes_ : Z;
  uploads_ : Z;
  byteRows_ : list DifferenceRecord;
  uploadRows_ : list DifferenceRecord;
}.

(** [a[k] += d] on a Go slice of machine integers. *)
Definition bump (l : list Z) (k : Z) (f : Z → Z) : outcome (list Z) :=
  if bool_decide (0 ≤ k < len l)%Z then Ok (alter f (Z.to_nat k) l) else Panic.

Section Replay.
Context (from to window : Z).

Fixpoint bucketBytes (rows : list DifferenceRecord) (deltas ingested : list Z) (tail : Z)
    : outcome (list Z * list Z * Z) :=
  match rows with
  | [] => Ok (deltas, ingested, tail)
  | r :: rows =>
      if (ReceiptAt r <? from)%Z then bucketBytes rows deltas ingested tail
      else if negb (ReceiptAt r <? to)%Z
      then bucketBytes rows deltas ingested (int64 (tail + Delta r))
      else
        let k := (Sub (ReceiptAt r) from ÷ window)%Z in
        deltas ← bump deltas k (λ x, int64 (x + Delta r));
        ingested ← (if (0 <? Delta r)%Z
                    then bump ingested k (λ x, uint64 (x + uint64 (Delta r)))
                    else Ok ingested);
        bucketBytes rows deltas ingested tail
  end.

Fixpoint bucketUploads (rows : list DifferenceRecord) (deltas : list Z) (tail : Z)
    : outcome (list Z * Z) :=
  match rows with
  | [] => Ok (deltas, tail)
  | r :: rows =>
      if (ReceiptAt r <? from)%Z then bucketUploads rows deltas tail
      else if negb (ReceiptAt r <? to)%Z
      then bucketUploads rows deltas (int64 (tail + Delta r))
      else
        let k := (Sub (ReceiptAt r) from ÷ window)%Z in
        deltas ← bump deltas k (λ x, int64 (x + Delta r));
        bucketUploads rows deltas tail
  end.

(** Bucket ends, accumulated from the start of the range. *)
Fixpoint endsLoop (n : nat) (end_ : Z) : list Z :=
  match n with
  | O => []
  | S n =>
      let end_ := (end_ + window)%Z in
      let end_ := if (to <? end_)%Z then to else end_ in
      end_ :: endsLoop n end_
  end.

(** The walk back from the last bucket; [k] buckets are left. *)
Fixpoint walkBack (k : nat) (ends deltas ingested uploadDeltas : list Z) (cur uploads : Z)
    (samples : list Sample) : outcome (list Sample) :=
  match k with
  | O => Ok samples
  | S k =>
      end_ ← index ends (Z.of_nat k);
      let held := if (cur <? 0)%Z then 0%Z else cur in
      let count := if (uploads <? 0)%Z then 0%Z else uploads in
      ing ← index ingested (Z.of_nat k);
      d ← index deltas (Z.of_nat k);
      u ← index uploadDeltas (Z.of_nat k);
      walkBack k ends deltas ingested uploadDeltas (int64 (cur - d)) (int64 (uploads - u))
        ({| End_ := end_; BytesStored := uint64 held; BytesIngested := ing;
            UploadCount := uint64 count |} :: samples)
  end.

(** [run] after the read. *)
Definition replay (n : nat) (r : reading) : outcome (list Sample) :=
  '(deltas, ingested, tail) ←
    bucketBytes (byteRows_ r) (replicate n 0%Z) (replicate n 0%Z) 0%Z;
  '(uploadDeltas, uploadTail) ← bucketUploads (uploadRows_ r) (replicate n 0%Z) 0%Z;
  walkBack n (endsLoop n from) deltas ingested uploadDeltas
    (int64 (storedBytes_ r - tail)) (int64 (uploads_ r - uploadTail)) [].
End Replay.

(** ** Reading the stores *)
Definition storedUploads (totals : gmap string Z) : outcome Z :=
  let added := Metrics.total totals UploadAddTotalMetric in
  let removed := Metrics.total totals UploadRemoveTotalMetric in
  if (added <? removed)%Z || (max_int64 <? uint64 (added - removed))%Z
  then Err (Errorf ("space upload counters inconsistent: added " +:+ Itoa added +:+
                    ", removed " +:+ Itoa removed))
  else Ok (int64 (uint64 (added - removed))).
Definition storedBytes (totals : gmap string Z) : outcome Z :=
  let added := Metrics.total totals BlobAddSizeTotalMetric in
  let removed := Metrics.total totals BlobRemoveSizeTotalMetric in
  if (added <? removed)%Z || (max_int64 <? uint64 (added - removed))%Z
  then Err (Errorf ("space byte counters inconsistent: added " +:+ Itoa added +:+
                    ", removed " +:+ Itoa removed))
  else Ok (int64 (uint64 (added - removed))).

Definition settled (before after : gmap string Z) : bool :=
  forallb (λ m, bool_decide (Metrics.total before m = Metrics.total after m))
    [BlobAddSizeTotalMetric; BlobRemoveSizeTotalMetric;
     UploadAddTotalMetric; UploadRemoveTotalMetric].

Section Read.
Context {W : Type} `{!UsageStores W} (world : nat → W) (down : nat → option error)
  (space : DID).

(** One call of a store, which sees the world of that instant. *)
Definition call {A} (f : W → outcome A) : M nat A := λ t,
  (match down t with Some e => Err e | None => f (world t) end, S t).

Fixpoint scanLoop (ctx : string) (lister : W → PaginationConfig → outcome (Page DifferenceRecord))
    (fuel : nat) (rows : list DifferenceRecord) (cursor : option string)
    : M nat (list DifferenceRecord) :=
  match fuel with
  | O => λ t, (Diverge, t)
  | S fuel =>
      page ← wrap ctx (call (λ w, lister w {| cfgCursor := cursor; cfgLimit := None |}));
      let rows := rows ++ Results page in
      if (maxScanRows <? len rows)%Z then fail ErrRangeTooBusy
      else
        match Cursor page, Results page with
        | None, _ | _, [] => mret rows
        | Some c, _ :: _ => scanLoop ctx lister fuel rows (Some c)
        end
  end.
(** Every page but the last holds a row, so the bound on rows bounds the pages. *)
Definition scanFuel : nat := Z.to_nat (maxScanRows + 2).
Definition scan (from : Z) : M nat (list DifferenceRecord) :=
  scanLoop "listing space diffs" (λ w, listSpaceDiffs w space (from - Second))
    scanFuel [] None.
Definition scanUploads (from : Z) : M nat (list DifferenceRecord) :=
  scanLoop "listing upload diffs" (λ w, listUploadDiffs w space (from - Second))
    scanFuel [] None.

Fixpoint readLoop (attempts : nat) (from : Z) (totals : gmap string Z) : M nat reading :=
  match attempts with
  | O => λ t, (Diverge, t)
  | S attempts =>
      byteRows ← scan from;
      uploadRows ← scanUploads from;
      after ← wrap "getting space metrics" (call (λ w, Ok (getSpaceTotals w space)));
      if settled totals after then
        stored ← reads (λ _, storedBytes totals);
        uploads ← reads (λ _, storedUploads totals);
        mret {| storedBytes_ := stored; uploads_ := uploads;
                byteRows_ := byteRows; uploadRows_ := uploadRows |}
      else
        match attempts with
        | O => fail ErrUsageUnstable
        | S _ => readLoop attempts from after
        end
  end.
Definition read (from : Z) : M nat reading :=
  totals ← wrap "getting space metrics" (call (λ w, Ok (getSpaceTotals w space)));
  readLoop totalsAttempts from totals.

Definition run (from to window : Z) (n : Z) : M nat (list Sample) :=
  r ← read from;
  reads (λ _, replay from to window (Z.to_nat n) r).

(** [Sample]; [now] is the service's clock. *)
Definition sample (now from to window : Z) : M nat Series :=
  if bool_decide (from = zeroTime) || negb (from <? to)%Z then fail ErrInvalidRange
  else if (window <=? 0)%Z || (maxWindow <? window)%Z then fail ErrInvalidWindow
  else
    let to := if (now <? to)%Z
              then if (now <? from)%Z then from else now
              else to in
    if negb (from <? to)%Z
    then mret {| From := from; To := to; Window := window; Samples := [] |}
    else
      let span := Sub to from in
      if (span =? max_int64)%Z then fail ErrInvalidRange
      else
        let n := (if (Z.rem span window =? 0)%Z then span ÷ window
                  else span ÷ window + 1)%Z in
        if (MaxSamples <? n)%Z then fail (errTooManySamples n)
        else
          samples ← run from to window n;
          mret {| From := from; To := to; Window := window; Samples := samples |}.
End Read.

(** ** What the replay computes *)
Lemma bump_tab m (f : nat → Z) k g :
  k < m → bump (tab m f) (Z.of_nat k) g =
  Ok (tab m (λ j, if decide (j = k) then g (f j) else f j)).
Proof.
  intros. unfold bump, len. rewrite length_tab, bool_decide_eq_true_2 by lia.
  by rewrite Nat2Z.id, alter_tab.
Qed.

Lemma clamp (x : Z) : uint64 (if (int64 x <? 0)%Z then 0%Z else int64 x) = Z.max 0 (int64 x).
Proof.
  pose proof (int64_range x) as Hr. unfold is_int64 in Hr.
  rewrite uint64_id; [|unfold is_uint64]; destruct (Z.ltb_spec (int64 x) 0); lia.
Qed.

Section ReplaySpec.
Context (from to window : Z) (n : nat).
Context (Hw : (0 < window)%Z) (Hft : (from < to)%Z) (Hspan : (to - from < max_int64)%Z).
Context (Hn : (to ≤ from + Z.of_nat n * window)%Z).
Implicit Types (rows : list DifferenceRecord) (r : DifferenceRecord).

(** The instant bucket [k] opens; bucket [k] closes when [S k] opens. *)
Definition opens (k : nat) : Z := Z.min (from + Z.of_nat k * window) to.

Definition inBucket (k : nat) (r : DifferenceRecord) : Prop :=
  (opens k ≤ ReceiptAt r < opens (S k))%Z.
Definition bucketSum (k : nat) (rows : list DifferenceRecord) : Z :=
  sumDelta (filter (inBucket k) rows).
(** What was added during bucket [k]: the positive changes. *)
Definition bucketGain (k : nat) (rows : list DifferenceRecord) : Z :=
  sumDelta (filter (λ r, inBucket k r ∧ 0 < Delta r)%Z rows).
(** The changes at or after an instant. *)
Definition fromOn (t : Z) (rows : list DifferenceRecord) : Z :=
  sumDelta (filter (λ r, t ≤ ReceiptAt r)%Z rows).

Lemma bucket_index r :
  (from ≤ ReceiptAt r < to)%Z →
  ∃ k, k < n ∧ (Sub (ReceiptAt r) from ÷ window)%Z = Z.of_nat k ∧
       ∀ j, inBucket j r ↔ j = k.
Proof.
  intros Hr. exists (Z.to_nat ((ReceiptAt r - from) / window)).
  assert (Sub (ReceiptAt r) from = ReceiptAt r - from)%Z as ->.
  { unfold Sub, max_int64 in *. lia. }
  rewrite Z.quot_div_nonneg by lia.
  pose proof (Z.div_pos (ReceiptAt r - from) window ltac:(lia) Hw) as Hpos.
  pose proof (Z.mul_div_le (ReceiptAt r - from) window Hw) as Hle.
  pose proof (Z.mul_succ_div_gt (ReceiptAt r - from) window Hw) as Hgt.
  set (q := ((ReceiptAt r - from) / window)%Z) in *. split_and!; [nia|lia|].
  intros j. unfold inBucket, opens. split.
  - intros [Hlo Hhi]. assert (Z.of_nat j = q); [|lia]. nia.
  - intros ->. rewrite !Nat2Z.inj_succ, !Z2Nat.id by lia. nia.
Qed.

Lemma bucketSum_cons k r rows :
  bucketSum k (r :: rows) =
  ((if decide (inBucket k r) then Delta r else 0) + bucketSum k rows)%Z.
Proof. unfold bucketSum. rewrite filter_cons. by case_decide. Qed.
Lemma bucketGain_cons k r rows :
  bucketGain k (r :: rows) =
  ((if decide (inBucket k r ∧ 0 < Delta r)%Z then Delta r else 0) + bucketGain k rows)%Z.
Proof. unfold bucketGain. rewrite filter_cons. by case_decide. Qed.
Lemma fromOn_cons t r rows :
  fromOn t (r :: rows) =
  ((if decide (t ≤ ReceiptAt r)%Z then Delta r else 0) + fromOn t rows)%Z.
Proof. unfold fromOn. rewrite filter_cons. by case_decide. Qed.
(** A row outside the range is in no bucket. *)
Lemma outside k r : ¬ (from ≤ ReceiptAt r < to)%Z → ¬ inBucket k r.
Proof. unfold inBucket, opens. lia. Qed.

(** One row added to its bucket. *)
Lemma bump_bucket F r :
  (from ≤ ReceiptAt r < to)%Z →
  bump (tab n (λ k, int64 (F k))) (Sub (ReceiptAt r) from ÷ window)
    (λ x, int64 (x + Delta r)) =
  Ok (tab n (λ j, int64 (F j + if decide (inBucket j r) then Delta r else 0))).
Proof.
  intros Hr. destruct (bucket_index r Hr) as (k & Hk & -> & Hiff).
  rewrite bump_tab by done. f_equal. apply tab_ext. intros j _.
  destruct (decide (j = k)) as [Hj|Hj].
  - rewrite decide_True by by apply Hiff. by rewrite int64_add_l.
  - rewrite decide_False by by rewrite Hiff. by rewrite Z.add_0_r.
Qed.
Lemma bump_gain G r :
  (from ≤ ReceiptAt r < to)%Z →
  (if (0 <? Delta r)%Z
   then bump (tab n (λ k, uint64 (G k))) (Sub (ReceiptAt r) from ÷ window)
          (λ x, uint64 (x + uint64 (Delta r)))
   else Ok (tab n (λ k, uint64 (G k)))) =
  Ok (tab n (λ j, uint64 (G j + if decide (inBucket j r ∧ 0 < Delta r)%Z
                                then Delta r else 0))).
Proof.
  intros Hr. destruct (Z.ltb_spec 0 (Delta r)) as [Hd|Hd].
  - destruct (bucket_index r Hr) as (k & Hk & -> & Hiff).
    rewrite bump_tab by done. f_equal. apply tab_ext. intros j _.
    destruct (decide (j = k)) as [Hj|Hj].
    + rewrite decide_True by (split; [by apply Hiff|done]).
      rewrite uint64_add_l, Z.add_comm, uint64_add_l. f_equal. lia.
    + rewrite decide_False by (intros [? _]; by apply Hj, Hiff). by rewrite Z.add_0_r.
  - f_equal. apply tab_ext. intros j _. rewrite decide_False by lia. by rewrite Z.add_0_r.
Qed.

Lemma bucketBytes_tab rows F G T :
  bucketBytes from to window rows (tab n (λ k, int64 (F k))) (tab n (λ k, uint64 (G k)))
    (int64 T) =
  Ok (tab n (λ k, int64 (F k + bucketSum k rows)), tab n (λ k, uint64 (G k + bucketGain k rows)),
      int64 (T + fromOn to rows)).
Proof.
  revert F G T. induction rows as [|r rows IH]; intros F G T; cbn [bucketBytes].
  { unfold bucketSum, bucketGain, fromOn. simpl. rewrite Z.add_0_r.
    apply Ok_triple; [apply tab_ext; intros; by rewrite Z.add_0_r..|done]. }
  rewrite fromOn_cons.
  destruct (Z.ltb_spec (ReceiptAt r) from) as [Hlt|Hge];
    [|destruct (Z.ltb_spec (ReceiptAt r) to) as [Hin|Hout]]; cbn [negb].
  - rewrite IH, decide_False by lia. apply Ok_triple; [apply tab_ext; intros k _..|done].
    + by rewrite bucketSum_cons, decide_False by (apply outside; lia).
    + rewrite bucketGain_cons, decide_False; [done|]. intros [Hb _].
      revert Hb. apply outside. lia.
  - rewrite bump_bucket by done. cbn [mbind outcome_bind]. rewrite bump_gain by done.
    cbn [mbind outcome_bind]. rewrite IH, decide_False by lia.
    apply Ok_triple; [apply tab_ext; intros k _..|done].
    + rewrite bucketSum_cons. f_equal. lia.
    + rewrite bucketGain_cons. f_equal. lia.
  - rewrite int64_add_l, IH, decide_True by lia.
    apply Ok_triple; [apply tab_ext; intros k _..|f_equal; lia].
    + by rewrite bucketSum_cons, decide_False by (apply outside; lia).
    + rewrite bucketGain_cons, decide_False; [done|]. intros [Hb _].
      revert Hb. apply outside. lia.
Qed.

Lemma bucketUploads_tab rows F T :
  bucketUploads from to window rows (tab n (λ k, int64 (F k))) (int64 T) =
  Ok (tab n (λ k, int64 (F k + bucketSum k rows)), int64 (T + fromOn to rows)).
Proof.
  revert F T. induction rows as [|r rows IH]; intros F T; cbn [bucketUploads].
  { unfold bucketSum, fromOn. simpl. rewrite Z.add_0_r.
    apply Ok_pair; [apply tab_ext; intros; by rewrite Z.add_0_r|done]. }
  rewrite fromOn_cons.
  destruct (Z.ltb_spec (ReceiptAt r) from) as [Hlt|Hge];
    [|destruct (Z.ltb_spec (ReceiptAt r) to) as [Hin|Hout]]; cbn [negb].
  - rewrite IH, decide_False by lia. apply Ok_pair; [apply tab_ext; intros k _|done].
    by rewrite bucketSum_cons, decide_False by (apply outside; lia).
  - rewrite bump_bucket by done. cbn [mbind outcome_bind].
    rewrite IH, decide_False by lia. apply Ok_pair; [apply tab_ext; intros k _|done].
    rewrite bucketSum_cons. f_equal. lia.
  - rewrite int64_add_l, IH, decide_True by lia.
    apply Ok_pair; [apply tab_ext; intros k _|f_equal; lia].
    by rewrite bucketSum_cons, decide_False by (apply outside; lia).
Qed.

Lemma endsLoop_tab m k :
  (from + Z.of_nat k * window ≤ to ∨ opens k = to)%Z →
  endsLoop to window m (opens k) = (λ j, opens (S j)) <$> seq k m.
Proof.
  revert k. induction m as [|m IH]; intros k Hk; cbn [endsLoop seq fmap list_fmap]; [done|].
  assert ((if (to <? opens k + window)%Z then to else (opens k + window)%Z) = opens (S k)) as ->.
  { unfold opens in *. destruct (Z.ltb_spec to (Z.min (from + Z.of_nat k * window) to + window)); nia. }
  f_equal. apply IH. unfold opens. lia.
Qed.

(** The bytes held when bucket [k] opens, counting back from [c]. *)
Definition heldAt (c : Z) (rows : list DifferenceRecord) (k : nat) : Z :=
  (c - fromOn (opens k) rows)%Z.
Lemma heldAt_step c rows k : (heldAt c rows (S k) - bucketSum k rows = heldAt c rows k)%Z.
Proof.
  unfold heldAt, fromOn, bucketSum.
  rewrite (sumDelta_split (λ r, opens k ≤ ReceiptAt r)%Z (λ r, opens (S k) ≤ ReceiptAt r)%Z
    (inBucket k)); [lia|].
  intros r _. unfold inBucket, opens. split; nia.
Qed.
Lemma opens_end : opens n = to.
Proof. unfold opens. lia. Qed.
Lemma opens_start : opens 0 = from.
Proof. unfold opens. lia. Qed.

Definition sampleAt (r : reading) (k : nat) : Sample := {|
  End_ := opens (S k);
  BytesStored := Z.max 0 (int64 (heldAt (storedBytes_ r) (byteRows_ r) (S k)));
  BytesIngested := uint64 (bucketGain k (byteRows_ r));
  UploadCount := Z.max 0 (int64 (heldAt (uploads_ r) (uploadRows_ r) (S k)));
|}.

Lemma walkBack_tab (r : reading) k acc :
  k ≤ n →
  walkBack k (tab n (λ j, opens (S j))) (tab n (λ k, int64 (bucketSum k (byteRows_ r))))
    (tab n (λ k, uint64 (bucketGain k (byteRows_ r))))
    (tab n (λ k, int64 (bucketSum k (uploadRows_ r))))
    (int64 (heldAt (storedBytes_ r) (byteRows_ r) k))
    (int64 (heldAt (uploads_ r) (uploadRows_ r) k)) acc =
  Ok (tab k (sampleAt r) ++ acc).
Proof.
  revert acc. induction k as [|k IH]; intros acc Hk; cbn [walkBack]; [done|].
  rewrite !index_tab by lia. cbn [mbind outcome_bind].
  rewrite !int64_sub_l, !int64_sub_r, !heldAt_step, IH by lia.
  unfold tab at 2. rewrite seq_S, fmap_app, <-app_assoc. simpl. rewrite !clamp. done.
Qed.

(** The whole replay, never out of bounds, with every intermediate sum allowed
    to wrap. *)
Lemma replay_tab (r : reading) : replay from to window n r = Ok (tab n (sampleAt r)).
Proof.
  unfold replay. rewrite !replicate_tab.
  pose proof (bucketBytes_tab (byteRows_ r) (λ _, 0%Z) (λ _, 0%Z) 0%Z) as Hb.
  pose proof (bucketUploads_tab (uploadRows_ r) (λ _, 0%Z) 0%Z) as Hu.
  cbn beta in Hb, Hu. change (int64 0) with 0%Z in Hb, Hu. change (uint64 0) with 0%Z in Hb.
  rewrite Hb. cbn [mbind outcome_bind]. rewrite Hu. cbn [mbind outcome_bind].
  rewrite !int64_sub_r, !Z.add_0_l.
  rewrite <-opens_start at 1. rewrite endsLoop_tab by (unfold opens; lia).
  fold (tab n (λ j, opens (S j))).
  assert (∀ c rows, (c - fromOn to rows)%Z = heldAt c rows n) as Hc.
  { intros. unfold heldAt. by rewrite opens_end. }
  rewrite !Hc. etrans; [by apply (walkBack_tab r n [])|]. by rewrite app_nil_r.
Qed.
End ReplaySpec.

(** ** Reading while others write *)
Section ReadSpec.
Context {W : Type} `{!UsageStores W} (world : nat → W) (down : nat → option error) (space : DID).

(** The scans answer after at most [maxScanRows + 2] pages, whatever the
    stores serve. *)
Lemma scanLoop_total ctx lister fuel rows cursor t :
  (∀ w cfg, lister w cfg ≠ Diverge) →
  (maxScanRows + 1 < Z.of_nat fuel + len rows)%Z → 0 < fuel →
  (scanLoop world down ctx lister fuel rows cursor t).1 ≠ Diverge.
Proof.
  intros Hl. revert rows cursor t. induction fuel as [|fuel IH]; intros rows cursor t Hf Hpos;
    [lia|].
  cbn [scanLoop]. unfold mbind, M_bind, wrap, call.
  specialize (Hl (world t) {| cfgCursor := cursor; cfgLimit := None |}).
  destruct (down t); [done|].
  destruct (lister _ _) as [page| | |]; try done.
  destruct (Z.ltb_spec maxScanRows (len (rows ++ Results page))) as [Hb|Hb]; [done|].
  destruct (Cursor page); [|done]. destruct (Results page) as [|x rs] eqn:E; [done|].
  apply IH; unfold len in *; rewrite length_app in *; simpl in *; lia.
Qed.

(** Every scan makes at least one call. *)
Lemma scanLoop_mono ctx lister fuel rows cursor t :
  0 < fuel → t < (scanLoop world down ctx lister fuel rows cursor t).2.
Proof.
  revert rows cursor t. induction fuel as [|fuel IH]; intros rows cursor t Hf; [lia|].
  cbn [scanLoop]. unfold mbind, M_bind, wrap, call. destruct (down t); [simpl; lia|].
  destruct (lister _ _) as [page| | |]; simpl; try lia.
  destruct (maxScanRows <? _)%Z; simpl; [lia|].
  destruct (Cursor page); simpl; [|lia]. destruct (Results page); simpl; [lia|].
  destruct fuel as [|fuel]; [simpl; lia|].
  etrans; [|apply IH; lia]. lia.
Qed.

(** A scan that succeeded had every call answered. *)
Lemma scanLoop_up ctx lister fuel rows cursor t l t' :
  scanLoop world down ctx lister fuel rows cursor t = (Ok l, t') →
  ∀ u, t ≤ u < t' → down u = None.
Proof.
  revert rows cursor t. induction fuel as [|fuel IH]; intros rows cursor t Hs; [done|].
  cbn [scanLoop] in Hs. unfold mbind, M_bind, wrap, call in Hs.
  destruct (down t) eqn:Ed; [done|]. intros u Hu.
  destruct (decide (u = t)) as [->|Hne]; [done|].
  destruct (lister _ _) as [page| | |]; try done.
  destruct (maxScanRows <? _)%Z; [done|].
  assert (S t = t' → down u = None) as Hend by lia.
  destruct (Cursor page); [|apply Hend; by injection Hs].
  destruct (Results page); [apply Hend; by injection Hs|].
  eapply IH; [exact Hs|lia].
Qed.

(** While every call is answered alike, a scan collects what the pages hold. *)
Lemma scanLoop_Pages ctx lister (g : GetPageFunc DifferenceRecord) cur l :
  Pages g cur l →
  ∀ fuel rows t,
  length l < fuel →
  (∀ u, t ≤ u < (scanLoop world down ctx lister fuel rows cur t).2 →
        down u = None ∧ ∀ cfg, lister (world u) cfg = g cfg) →
  (scanLoop world down ctx lister fuel rows cur t).1 =
  if (maxScanRows <? len (rows ++ l))%Z then Err ErrRangeTooBusy else Ok (rows ++ l).
Proof.
  induction 1 as [cur rs Hp|cur c rs rest Hp Hne _ IH]; intros [|fuel] rows t Hf Hst; try lia.
  - pose proof (Hst t (conj (le_n t) (scanLoop_mono ctx lister (S fuel) rows cur t ltac:(lia))))
      as [Hd Hg].
    cbn [scanLoop] in *. unfold mbind, M_bind, wrap, call in *. rewrite Hd, Hg, Hp.
    cbn [Results Cursor]. by destruct (maxScanRows <? _)%Z.
  - pose proof (Hst t (conj (le_n t) (scanLoop_mono ctx lister (S fuel) rows cur t ltac:(lia))))
      as [Hd Hg].
    cbn [scanLoop] in *. unfold mbind, M_bind, wrap, call in *. rewrite Hd, Hg, Hp in *.
    cbn [Results Cursor] in *. destruct rs as [|x rs]; [done|].
    destruct (Z.ltb_spec maxScanRows (len (rows ++ x :: rs))) as [Hb|Hb].
    + rewrite (proj2 (Z.ltb_lt _ _)); [done|].
      unfold len in *. rewrite !length_app in *. lia.
    + rewrite IH, <-app_assoc; [done| |intros u Hu; apply Hst; lia].
      rewrite length_app in Hf. simpl in Hf. lia.
Qed.

(** ** What is read belongs to one instant *)

Definition sameTotals (w w' : W) : Prop :=
  settled (getSpaceTotals w space) (getSpaceTotals w' space) = true.
Definition totalsLe (w w' : W) : Prop :=
  ∀ m, m ∈ [BlobAddSizeTotalMetric; BlobRemoveSizeTotalMetric;
            UploadAddTotalMetric; UploadRemoveTotalMetric] →
  (Metrics.total (getSpaceTotals w space) m ≤ Metrics.total (getSpaceTotals w' space) m)%Z.
Definition sameLogs (w w' : W) : Prop := ∀ after cfg,
  listSpaceDiffs w space after cfg = listSpaceDiffs w' space after cfg ∧
  listUploadDiffs w space after cfg = listUploadDiffs w' space after cfg.
(** What the service asks of a backend: its counters only ever increase, and
    a change shows in its log and in its counters at once. *)
Definition evolves (w w' : W) : Prop :=
  totalsLe w w' ∧ (sameTotals w w' → sameLogs w w').

Lemma settled_true before after :
  settled before after = true ↔
  ∀ m, m ∈ [BlobAddSizeTotalMetric; BlobRemoveSizeTotalMetric;
            UploadAddTotalMetric; UploadRemoveTotalMetric] →
  Metrics.total before m = Metrics.total after m.
Proof.
  unfold settled. rewrite forallb_forall. setoid_rewrite <-list_elem_of_In.
  by setoid_rewrite bool_decide_eq_true.
Qed.

Lemma sameTotals_iff w w' :
  sameTotals w w' ↔ ∀ m, m ∈ [BlobAddSizeTotalMetric; BlobRemoveSizeTotalMetric;
                              UploadAddTotalMetric; UploadRemoveTotalMetric] →
  Metrics.total (getSpaceTotals w space) m = Metrics.total (getSpaceTotals w' space) m.
Proof. apply settled_true. Qed.

Lemma totalsLe_chain t u :
  (∀ i, evolves (world i) (world (S i))) → t ≤ u → totalsLe (world t) (world u).
Proof.
  intros Hev. induction 1 as [|u Hle IH]; intros m Hm; [done|].
  destruct (Hev u) as [Hs _]. specialize (Hs m Hm). specialize (IH m Hm). lia.
Qed.
(** Equal totals at both ends: nothing moved in between. *)
Lemma settled_between t t' u :
  (∀ i, evolves (world i) (world (S i))) →
  t ≤ u ≤ t' → sameTotals (world t) (world t') →
  sameTotals (world t) (world u) ∧ sameLogs (world t) (world u).
Proof.
  intros Hev Hu Hsame. rewrite sameTotals_iff in Hsame.
  assert (∀ u, t ≤ u ≤ t' → sameTotals (world t) (world u)) as Htot.
  { intros v Hv. apply sameTotals_iff. intros m Hm.
    pose proof (totalsLe_chain t v Hev ltac:(lia) m Hm).
    pose proof (totalsLe_chain v t' Hev ltac:(lia) m Hm).
    specialize (Hsame m Hm). lia. }
  split; [by apply Htot|]. destruct Hu as [Hlo Hhi].
  induction Hlo as [|v Hlo IH]; [done|]. intros after cfg.
  destruct (IH ltac:(lia) after cfg) as [-> ->]. apply Hev. apply sameTotals_iff. intros m Hm.
  pose proof (proj1 (sameTotals_iff _ _) (Htot v ltac:(lia)) m Hm).
  pose proof (proj1 (sameTotals_iff _ _) (Htot (S v) ltac:(lia)) m Hm). congruence.
Qed.

(** The reading describes the world [w]. *)
Record describes (w : W) (from : Z) (r : reading) : Prop := {
  describes_bytes : storedBytes (getSpaceTotals w space) = Ok (storedBytes_ r);
  describes_uploads : storedUploads (getSpaceTotals w space) = Ok (uploads_ r);
  describes_byteRows l :
    Pages (λ cfg, listSpaceDiffs w space (from - Second) cfg) None l →
    (len l ≤ maxScanRows)%Z → byteRows_ r = l;
  describes_uploadRows l :
    Pages (λ cfg, listUploadDiffs w space (from - Second) cfg) None l →
    (len l ≤ maxScanRows)%Z → uploadRows_ r = l;
}.

Lemma scan_fuel (l : list DifferenceRecord) : (len l ≤ maxScanRows)%Z → length l < scanFuel.
Proof. unfold scanFuel, len, maxScanRows. lia. Qed.

Lemma readLoop_describes attempts from t0 t r t' :
  (∀ i, evolves (world i) (world (S i))) →
  t0 ≤ t →
  readLoop world down space attempts from (getSpaceTotals (world t0) space) t = (Ok r, t') →
  ∃ u, t0 ≤ u < t' ∧ describes (world u) from r.
Proof.
  intros Hev. revert t0 t. induction attempts as [|attempts IH]; intros t0 t Ht Hrun; [done|].
  cbn [readLoop] in Hrun. unfold mbind, M_bind in Hrun.
  destruct (scan world down space from t) as [[brows| | |] t1] eqn:Eb; try done.
  destruct (scanUploads world down space from t1) as [[urows| | |] t2] eqn:Eu; try done.
  unfold wrap, call in Hrun. destruct (down t2) eqn:Ed2; [done|].
  assert (t < t1 ∧ t1 < t2) as [Hb1 Hu1].
  { pose proof (scanLoop_mono "listing space diffs"
      (λ w, listSpaceDiffs w space (from - Second)) scanFuel [] None t) as Hm1.
    pose proof (scanLoop_mono "listing upload diffs"
      (λ w, listUploadDiffs w space (from - Second)) scanFuel [] None t1) as Hm2.
    unfold scan in Eb. unfold scanUploads in Eu. rewrite Eb in Hm1. rewrite Eu in Hm2.
    split; [apply Hm1|apply Hm2]; unfold scanFuel, maxScanRows; lia. }
  destruct (settled _ _) eqn:Es.
  - unfold reads in Hrun.
    destruct (storedBytes _) as [sb| | |] eqn:Esb; try done.
    destruct (storedUploads _) as [su| | |] eqn:Esu; try done.
    injection Hrun as <- <-. exists t0. split; [lia|].
    assert (∀ v, t0 ≤ v ≤ t2 → sameLogs (world t0) (world v)) as Hlogs.
    { intros v Hv. by eapply settled_between. }
    split; [done|done|intros l Hp Hl..]; cbn [byteRows_ uploadRows_].
    + pose proof (scanLoop_Pages "listing space diffs"
        (λ w, listSpaceDiffs w space (from - Second)) _ None l Hp scanFuel [] t
        (scan_fuel l Hl)) as Hs.
      unfold scan in Eb. rewrite Eb in Hs. cbn [fst snd app] in Hs.
      rewrite (proj2 (Z.ltb_ge _ _)) in Hs by done.
      assert (Ok brows = Ok l) as [= ->]; [|done]. apply Hs.
      intros v Hv. split; [exact (scanLoop_up _ _ _ _ _ _ _ _ Eb v Hv)|].
      intros cfg. symmetry. by apply (Hlogs v ltac:(lia)).
    + pose proof (scanLoop_Pages "listing upload diffs"
        (λ w, listUploadDiffs w space (from - Second)) _ None l Hp scanFuel [] t1
        (scan_fuel l Hl)) as Hs.
      unfold scanUploads in Eu. rewrite Eu in Hs. cbn [fst snd app] in Hs.
      rewrite (proj2 (Z.ltb_ge _ _)) in Hs by done.
      assert (Ok urows = Ok l) as [= ->]; [|done]. apply Hs.
      intros v Hv. split; [exact (scanLoop_up _ _ _ _ _ _ _ _ Eu v Hv)|].
      intros cfg. symmetry. by apply (Hlogs v ltac:(lia)).
  - destruct attempts as [|attempts]; [done|].
    destruct (IH t2 (S t2) ltac:(lia) Hrun) as (u & Hu & Hd). exists u. split; [lia|done].
Qed.

(** ** Nothing but an answer or an error comes back *)
Definition answers {A} (o : outcome A) : Prop :=
  match o with Ok _ | Err _ => True | Panic | Diverge => False end.

Lemma scanLoop_answers ctx lister fuel rows cursor t :
  (∀ w cfg, answers (lister w cfg)) →
  (maxScanRows + 1 < Z.of_nat fuel + len rows)%Z → 0 < fuel →
  answers (scanLoop world down ctx lister fuel rows cursor t).1.
Proof.
  intros Hl. revert rows cursor t. induction fuel as [|fuel IH]; intros rows cursor t Hf Hpos;
    [lia|].
  cbn [scanLoop]. unfold mbind, M_bind, wrap, call.
  specialize (Hl (world t) {| cfgCursor := cursor; cfgLimit := None |}).
  destruct (down t); [done|].
  destruct (lister _ _) as [page| | |]; try done.
  destruct (Z.ltb_spec maxScanRows (len (rows ++ Results page))) as [Hb|Hb]; [done|].
  destruct (Cursor page); [|done]. destruct (Results page) as [|x rs] eqn:E; [done|].
  apply IH; unfold len in *; rewrite length_app in *; simpl in *; lia.
Qed.

Context (Hbytes : ∀ w after cfg, answers (listSpaceDiffs w space after cfg)).
Context (Huploads : ∀ w after cfg, answers (listUploadDiffs w space after cfg)).

Lemma readLoop_answers attempts from totals t :
  0 < attempts → answers (readLoop world down space attempts from totals t).1.
Proof using Hbytes Huploads.
  revert totals t. induction attempts as [|attempts IH]; intros totals t Hpos; [lia|].
  cbn [readLoop]. unfold mbind, M_bind.
  pose proof (scanLoop_answers "listing space diffs"
    (λ w, listSpaceDiffs w space (from - Second)) scanFuel [] None t) as Hb.
  unfold scan. destruct (scanLoop _ _ _ _ _ _ _ t) as [[brows| | |] t1];
    try by apply Hb; [auto|unfold scanFuel, maxScanRows, len; simpl; lia..].
  pose proof (scanLoop_answers "listing upload diffs"
    (λ w, listUploadDiffs w space (from - Second)) scanFuel [] None t1) as Hu.
  unfold scanUploads. destruct (scanLoop _ _ _ _ _ _ _ t1) as [[urows| | |] t2];
    try by apply Hu; [auto|unfold scanFuel, maxScanRows, len; simpl; lia..].
  clear Hb Hu. unfold wrap, call. destruct (down t2); [done|]. destruct (settled _ _).
  - unfold reads, storedBytes, storedUploads.
    destruct ((_ <? _)%Z || _); cbn; [done|]. by destruct ((_ <? _)%Z || _).
  - destruct attempts as [|attempts]; [done|]. apply IH. lia.
Qed.
End ReadSpec.

(** ** The number of buckets *)
Definition bucketCount (span window : Z) : Z :=
  if (Z.rem span window =? 0)%Z then span ÷ window else span ÷ window + 1.
Lemma bucketCount_spec span window :
  (0 < span)%Z → (0 < window)%Z →
  (0 < bucketCount span window)%Z ∧
  (span ≤ bucketCount span window * window)%Z ∧
  ((bucketCount span window - 1) * window < span)%Z.
Proof.
  intros Hs Hw. unfold bucketCount.
  rewrite Z.rem_mod_nonneg, Z.quot_div_nonneg by lia.
  pose proof (Z.div_mod span window ltac:(lia)) as Hdm.
  pose proof (Z.mod_pos_bound span window Hw) as Hm.
  pose proof (Z.div_pos span window ltac:(lia) Hw) as Hp.
  destruct (Z.eqb_spec (span `mod` window) 0); split_and!; nia.
Qed.

Section SampleSpec.
Context {W : Type} `{!UsageStores W} (world : nat → W) (down : nat → option error) (space : DID).
Implicit Types (now from to window : Z) (ser : Series).

(** The end of the range, clamped to the present. *)
Definition clampTo (now from to : Z) : Z :=
  if (now <? to)%Z then if (now <? from)%Z then from else now else to.

Lemma replay_count from to window r :
  (0 < window)%Z → (from < to)%Z → (Sub to from =? max_int64)%Z = false →
  replay from to window (Z.to_nat (bucketCount (Sub to from) window)) r =
  Ok (tab (Z.to_nat (bucketCount (to - from) window)) (sampleAt from to window r)).
Proof.
  intros Hw Hft Hsub. apply Z.eqb_neq in Hsub.
  assert (Sub to from = to - from)%Z as Heq by (unfold Sub, max_int64 in *; lia).
  rewrite Heq in *. destruct (bucketCount_spec (to - from) window) as (? & ? & ?); [lia..|].
  apply replay_tab; [done|done|unfold Sub, max_int64 in *; lia|].
  rewrite Z2Nat.id by lia. lia.
Qed.

(** With nobody writing and every call answered, the first attempt settles. *)
Lemma read_quiet w from t lb lu sb su :
  (∀ u, world u = w) → (∀ u, down u = None) →
  Pages (λ cfg, listSpaceDiffs w space (from - Second) cfg) None lb →
  Pages (λ cfg, listUploadDiffs w space (from - Second) cfg) None lu →
  (len lb ≤ maxScanRows)%Z → (len lu ≤ maxScanRows)%Z →
  storedBytes (getSpaceTotals w space) = Ok sb →
  storedUploads (getSpaceTotals w space) = Ok su →
  (read world down space from t).1 =
  Ok {| storedBytes_ := sb; uploads_ := su; byteRows_ := lb; uploadRows_ := lu |}.
Proof.
  intros Hq Hup Hpb Hpu Hlb Hlu Hsb Hsu. unfold read, mbind, M_bind, wrap, call. rewrite Hup.
  unfold totalsAttempts. cbn [readLoop]. unfold mbind, M_bind, scan, scanUploads.
  pose proof (scanLoop_Pages world down "listing space diffs"
    (λ w, listSpaceDiffs w space (from - Second)) _ None lb Hpb scanFuel [] (S t)
    (scan_fuel lb Hlb)) as Hb.
  destruct (scanLoop _ _ _ _ _ _ _ (S t)) as [rb t1]. cbn [fst snd app] in Hb.
  rewrite (proj2 (Z.ltb_ge _ _)) in Hb by done.
  rewrite Hb by (intros; split; [done|intros; by rewrite Hq]).
  pose proof (scanLoop_Pages world down "listing upload diffs"
    (λ w, listUploadDiffs w space (from - Second)) _ None lu Hpu scanFuel [] t1
    (scan_fuel lu Hlu)) as Hu.
  destruct (scanLoop _ _ _ _ _ _ _ t1) as [ru t2]. cbn [fst snd app] in Hu.
  rewrite (proj2 (Z.ltb_ge _ _)) in Hu by done.
  rewrite Hu by (intros; split; [done|intros; by rewrite Hq]).
  unfold wrap, call. rewrite Hup, !Hq. rewrite (proj2 (settled_true _ _)) by done.
  unfold reads. by rewrite Hsb, Hsu.
Qed.

Lemma sample_inv now from to window t ser t' :
  sample world down space now from to window t = (Ok ser, t') →
  (from < to)%Z ∧ (0 < window ≤ maxWindow)%Z ∧
  From ser = from ∧ To ser = clampTo now from to ∧ Window ser = window ∧
  (To ser = from ∧ Samples ser = [] ∧ t' = t ∨
   (from < To ser)%Z ∧ (bucketCount (To ser - from) window ≤ MaxSamples)%Z ∧
   ∃ r, read world down space from t = (Ok r, t') ∧
        Samples ser = tab (Z.to_nat (bucketCount (To ser - from) window))
                        (sampleAt from (To ser) window r)).
Proof.
  unfold sample. intros Hs.
  destruct (bool_decide _ || _) eqn:Er; [done|]. apply orb_false_iff in Er as [_ Hft].
  apply negb_false_iff, Z.ltb_lt in Hft.
  destruct ((window <=? 0)%Z || _) eqn:Ew; [done|]. apply orb_false_iff in Ew as [Hw1 Hw2].
  apply Z.leb_gt in Hw1. apply Z.ltb_ge in Hw2.
  fold (clampTo now from to) in Hs. cbv zeta in Hs. fold (bucketCount (Sub (clampTo now from to) from) window) in Hs.
  split; [done|]. split; [lia|].
  assert (from ≤ clampTo now from to)%Z as Hcl.
  { unfold clampTo. destruct (Z.ltb_spec now to); [|lia]. destruct (Z.ltb_spec now from); lia. }
  destruct (Z.ltb_spec from (clampTo now from to)) as [Hlt|Hge]; cbn [negb] in Hs.
  - destruct (Z.eqb (Sub _ _) _) eqn:Esub; [done|].
    destruct (Z.ltb_spec MaxSamples (bucketCount (Sub (clampTo now from to) from) window))
      as [Hmax|Hmax]; [done|].
    unfold run, mbind, M_bind, reads in Hs.
    destruct (read world down space from t) as [[r| | |] t1]; try done.
    rewrite replay_count in Hs by done. injection Hs as <- <-.
    cbn [From To Window Samples]. split_and!; [done..|]. right.
    assert (Sub (clampTo now from to) from = clampTo now from to - from)%Z as <-.
    { apply Z.eqb_neq in Esub. unfold Sub, max_int64 in *. lia. }
    split_and!; [done..|]. eauto.
  - injection Hs as <- <-. cbn [From To Window Samples]. split_and!; [done..|].
    left. split_and!; [lia|done..].
Qed.
End SampleSpec.
End Usage.
End Usage.
