(* ===== verification/UsageLedger.v ===== *)
(** * Usage over the ledger

    The memory stores as the backend of the usage service, and what the service
    answers about a space whose changes went through the registry and the upload
    store. *)
From S2P Require Export Accounting Usage.

Section UsageLedger.
Context `{CursorJSON} `{Commands} `{ErrorNames}.

#[export] Instance ledgerUsage : UsageStores Ledger := {|
  getSpaceTotals l space := Metrics.GetSpace (spaceMetrics l) space;
  listSpaceDiffs l := SpaceDiff.List (spaceDiffs l);
  listUploadDiffs l := UploadDiff.List (uploadDiffs l);
|}.

Lemma ledger_bytes_Pages l space after :
  logsOk l → NoDup (rowKey <$> byteRows l space) →
  Forall (λ d, marshalable (ReceiptAt d)) (byteRows l space) →
  Pages (λ cfg, listSpaceDiffs l space after cfg) None
    (filter (λ d, after < ReceiptAt d)%Z (byteRows l space)).
Proof.
  intros [Hs _] Hnd Hm. eapply Pages_ext; [|apply (SpaceDiff.spaceDiff_List_Pages 1000); auto]. done.
Qed.
Lemma ledger_uploads_Pages l space after :
  logsOk l → Forall (λ d, marshalable (ReceiptAt d)) (uploadRows l space) →
  Pages (λ cfg, listUploadDiffs l space after cfg) None
    (filter (λ d, after < ReceiptAt d)%Z (uploadRows l space)).
Proof.
  intros [_ Hu] Hm. eapply Pages_ext; [|apply (UploadDiff.uploadDiff_List_Pages 1000); auto]. done.
Qed.

(** What a log says was stored just before an instant. *)
Definition storedAsOf (log : list DifferenceRecord) (t : Z) : Z :=
  sumDelta (filter (λ r, ReceiptAt r < t)%Z log).

Lemma heldAt_storedAsOf from to window log k :
  (from ≤ Usage.opens from to window k)%Z →
  Usage.heldAt from to window (sumDelta log)
    (filter (λ r, from - Second < ReceiptAt r)%Z log) k =
  storedAsOf log (Usage.opens from to window k).
Proof.
  intros Hle. unfold Usage.heldAt, Usage.fromOn, storedAsOf.
  rewrite list_filter_filter.
  rewrite (sumDelta_filter_iff _ (λ r, Usage.opens from to window k ≤ ReceiptAt r)%Z).
  2: { unfold Second. intros r _. lia. }
  rewrite <-(filter_all (λ _, True) log) at 1 by by apply Forall_true.
  rewrite (sumDelta_split (λ _, True) (λ r, ReceiptAt r < Usage.opens from to window k)%Z
    (λ r, Usage.opens from to window k ≤ ReceiptAt r)%Z); [lia|].
  intros r _. lia.
Qed.
Lemma bucketGain_since from to window log k :
  (from ≤ Usage.opens from to window k)%Z →
  Usage.bucketGain from to window k (filter (λ r, from - Second < ReceiptAt r)%Z log) =
  Usage.bucketGain from to window k log.
Proof.
  intros Hle. unfold Usage.bucketGain. rewrite list_filter_filter.
  apply sumDelta_filter_iff. unfold Usage.inBucket, Second. intros r _. lia.
Qed.

Lemma storedBytes_anchored l space :
  Anchored l space → (0 ≤ sumDelta (byteRows l space) ≤ max_int64)%Z →
  Usage.storedBytes (getSpaceTotals l space) = Ok (sumDelta (byteRows l space)).
Proof.
  intros [Hb _] Hr. unfold Usage.storedBytes. cbn [getSpaceTotals ledgerUsage].
  fold (spaceTotal l space BlobAddSizeTotalMetric) (spaceTotal l space BlobRemoveSizeTotalMetric).
  rewrite Hb, uint64_id by (unfold is_uint64, max_int64 in *; lia).
  rewrite (proj2 (Z.ltb_ge _ _)), (proj2 (Z.ltb_ge _ _)) by lia. cbn [orb].
  by rewrite int64_size.
Qed.
Lemma storedUploads_anchored l space :
  Anchored l space → (0 ≤ sumDelta (uploadRows l space) ≤ max_int64)%Z →
  Usage.storedUploads (getSpaceTotals l space) = Ok (sumDelta (uploadRows l space)).
Proof.
  intros [_ Hb] Hr. unfold Usage.storedUploads. cbn [getSpaceTotals ledgerUsage].
  fold (spaceTotal l space UploadAddTotalMetric) (spaceTotal l space UploadRemoveTotalMetric).
  rewrite Hb, uint64_id by (unfold is_uint64, max_int64 in *; lia).
  rewrite (proj2 (Z.ltb_ge _ _)), (proj2 (Z.ltb_ge _ _)) by lia. cbn [orb].
  by rewrite int64_size.
Qed.


(** C11: as long as the backend's counters only increase and a change shows in
    its log and its counters at once, a series [Sample] returns describes one
    instant of the call: at some moment between its first and its last read of
    the stores, the totals were those the series is anchored on and the two
    logs held exactly the rows it replays, although writers went on all along. *)
Theorem Sample_consistent {W : Type} `{!UsageStores W} (world : nat → W)
    (down : nat → option error) (space : DID)
    (now from to window : Z) (t t' : nat) (ser : Usage.Series) :
  (∀ i, Usage.evolves space (world i) (world (S i))) →
  Usage.sample world down space now from to window t = (Ok ser, t') →
  (from < Usage.To ser)%Z →
  ∃ u r, t ≤ u < t' ∧ Usage.describes space (world u) from r ∧
  Usage.Samples ser =
    tab (Z.to_nat (Usage.bucketCount (Usage.To ser - from) window))
      (Usage.sampleAt from (Usage.To ser) window r).
Proof.
  intros Hev Hs Hft.
  destruct (Usage.sample_inv world down space now from to window t ser t' Hs)
    as (_ & _ & _ & _ & _ & [(He & _)|(_ & _ & r & Hread & Hsam)]); [lia|].
  unfold Usage.read, mbind, M_bind, wrap, Usage.call in Hread.
  destruct (down t); [done|].
  destruct (Usage.readLoop_describes world down space _ from t (S t) r t' Hev ltac:(lia) Hread)
    as (u & Hu & Hd). exists u, r. split_and!; [lia|lia|done|done].
Qed.

(** C28: the series [Sample] returns is dense and bounded: at most [MaxSamples]
    samples, ending no later than the present (or at the start of a range that
    lies ahead of it), sample [k] ending one window after sample [k-1] or at
    the end of the range, ends strictly ascending, and the last one at the
    end of the range. *)
Theorem Sample_dense {W : Type} `{!UsageStores W} (world : nat → W)
    (down : nat → option error) (space : DID)
    (now from to window : Z) (t t' : nat) (ser : Usage.Series) :
  Usage.sample world down space now from to window t = (Ok ser, t') →
  (len (Usage.Samples ser) ≤ Usage.MaxSamples)%Z ∧
  (from ≤ Usage.To ser ≤ to)%Z ∧ (Usage.To ser ≤ Z.max from now)%Z ∧
  (∀ k s, Usage.Samples ser !! k = Some s →
     Usage.End_ s = Z.min (from + (Z.of_nat k + 1) * window) (Usage.To ser)) ∧
  (∀ k s s', Usage.Samples ser !! k = Some s → Usage.Samples ser !! S k = Some s' →
     Usage.End_ s < Usage.End_ s')%Z ∧
  (∀ s, last (Usage.Samples ser) = Some s → Usage.End_ s = Usage.To ser).
Proof.
  intros Hs. destruct (Usage.sample_inv world down space now from to window t ser t' Hs)
    as (Hft & Hw & _ & Hto & _ & Hcase).
  assert (from ≤ Usage.To ser ≤ to ∧ Usage.To ser ≤ Z.max from now)%Z as [Hrange Hnow].
  { rewrite Hto. unfold Usage.clampTo.
    destruct (Z.ltb_spec now to); [destruct (Z.ltb_spec now from)|]; lia. }
  destruct Hcase as [(He & -> & _)|(Hlt & Hn & r & _ & ->)].
  { split_and!; try done; unfold len, Usage.MaxSamples; simpl; lia. }
  destruct (Usage.bucketCount_spec (Usage.To ser - from) window) as (Hc1 & Hc2 & Hc3); [lia..|].
  set (n := Usage.bucketCount (Usage.To ser - from) window) in *.
  assert (∀ k s, tab (Z.to_nat n) (Usage.sampleAt from (Usage.To ser) window r) !! k = Some s →
    (Z.of_nat k < n)%Z ∧ s = Usage.sampleAt from (Usage.To ser) window r k) as Hget.
  { intros k s Hk. assert (k < Z.to_nat n) as Hkn.
    { apply lookup_lt_Some in Hk. by rewrite length_tab in Hk. }
    rewrite lookup_tab in Hk by done. split; [lia|congruence]. }
  split_and!; [|lia..| | |].
  - unfold len. rewrite length_tab. lia.
  - intros k s [_ ->]%Hget. simpl. unfold Usage.opens. f_equal. lia.
  - intros k s s' [_ ->]%Hget [Hk ->]%Hget. simpl. unfold Usage.opens. nia.
  - intros s. rewrite last_lookup. intros [Hk ->]%Hget. rewrite length_tab in *. simpl.
    unfold Usage.opens. nia.
Qed.

(** Whatever the stores serve and however they change between the pages,
    as long as their own calls answer, [Sample] answers with a series or an
    error: the scans end on the row bound, the read gives up after three
    attempts, and no index of the replay is out of range. *)
Theorem Sample_total {W : Type} `{!UsageStores W} (world : nat → W)
    (down : nat → option error) (space : DID)
    (now from to window : Z) (t : nat) :
  (∀ w after cfg, Usage.answers (listSpaceDiffs w space after cfg)) →
  (∀ w after cfg, Usage.answers (listUploadDiffs w space after cfg)) →
  Usage.answers (Usage.sample world down space now from to window t).1.
Proof.
  intros Hb Hu. unfold Usage.sample.
  destruct (bool_decide _ || _); [done|].
  destruct (Z.leb_spec window 0) as [|Hw]; [done|].
  destruct (Z.ltb_spec Usage.maxWindow window); cbn [orb]; [done|].
  cbv zeta. fold (Usage.clampTo now from to).
  destruct (Z.ltb_spec from (Usage.clampTo now from to)) as [Hlt|]; cbn [negb]; [|done].
  destruct (_ =? max_int64)%Z eqn:Esub; [done|].
  destruct (Usage.MaxSamples <? _)%Z; [done|].
  fold (Usage.bucketCount (Sub (Usage.clampTo now from to) from) window).
  unfold Usage.run, mbind, M_bind, reads, Usage.read, mbind, M_bind, wrap, Usage.call.
  destruct (down t); [done|].
  pose proof (Usage.readLoop_answers world down space Hb Hu Usage.totalsAttempts from
    (getSpaceTotals (world t) space) (S t) ltac:(unfold Usage.totalsAttempts; lia)) as Ha.
  destruct (Usage.readLoop _ _ _ _ _ _) as [[r| | |] t1]; try done.
  by rewrite Usage.replay_count.
Qed.
End UsageLedger.

(** ** Witnesses *)
Section Witnesses.
#[local] Existing Instance StrIds.
#[local] Existing Instance NumberJSON.
#[local] Existing Instance StrCommands.
#[local] Existing Instance StrNames.

Definition exampleSpace : DID := "s".
Lemma example_rows :
  byteRows (ledger exampleWorld) "s" =
    [{| Space := "s"; Cause := "c"; Delta := 7; ReceiptAt := 11; InsertedAt := 12 |}] ∧
  uploadRows (ledger exampleWorld) "s" = [].
Proof. split; reflexivity. Qed.


Definition exampleSeries : Usage.Series :=
  {| Usage.From := 5; Usage.To := 25; Usage.Window := 10;
     Usage.Samples := tab 2 (Usage.sampleAt 5 25 10
       {| Usage.storedBytes_ := 7; Usage.uploads_ := 0;
          Usage.byteRows_ := byteRows (ledger exampleWorld) "s"; Usage.uploadRows_ := [] |}) |}.

Lemma example_sample :
  Usage.sample (λ _, ledger exampleWorld) (λ _, None) "s" 100 5 25 10 0 = (Ok exampleSeries, 4).
Proof. reflexivity. Qed.

Lemma Sample_consistent_witness :
  ∃ u r, 0 ≤ u < 4 ∧ Usage.describes exampleSpace (ledger exampleWorld) 5 r.
Proof.
  destruct (Sample_consistent (λ _, ledger exampleWorld) (λ _, None) exampleSpace 100 5 25 10 0 4 exampleSeries)
    as (u & r & Hu & Hd & _).
  - intros i. split; [intros m _; apply Z.le_refl|intros _ after cfg; split; reflexivity].
  - apply example_sample.
  - reflexivity.
  - exists u, r. split; [exact Hu|exact Hd].
Defined.

Lemma Sample_dense_witness : (len (Usage.Samples exampleSeries) ≤ Usage.MaxSamples)%Z.
Proof.
  exact (proj1 (Sample_dense (λ _, ledger exampleWorld) (λ _, None) exampleSpace 100 5 25 10 0 4 exampleSeries
    example_sample)).
Defined.

(** An empty backend. *)
Definition emptyUsage : UsageStores unit := {|
  getSpaceTotals _ _ := ∅;
  listSpaceDiffs _ _ _ _ := Ok (mkPage None []);
  listUploadDiffs _ _ _ _ := Ok (mkPage None []);
|}.
#[local] Existing Instance emptyUsage.
Lemma Sample_total_witness :
  Usage.answers (Usage.sample (λ _, tt) (λ _, None) exampleSpace 100 5 25 10 0).1.
Proof.
  apply (Sample_total (λ _, tt) (λ _, None) exampleSpace 100 5 25 10 0).
  - intros. exact I.
  - intros. exact I.
Defined.
End Witnesses.
