(* ===== verification/StorageProvider.v ===== *)
(** * Storage providers: [pkg/store/storage_provider]

    The nodes blobs may be stored on, in the memory backend of
    [pkg/store/storage_provider/memory/store.go], and the part of the store's
    interface routing relies on. An [url.URL] is the text it prints as. *)
From S2P Require Export Store.

Definition ErrStorageProviderNotFound : error :=
  Named "StorageProviderNotFound" "storage provider not found".
Definition ErrStorageProviderExists : error :=
  Named "StorageProviderExists" "storage provider already exists".

Module StorageProvider.
Record Record_ `{Ids} `{Containers} := {
  Provider : DID;
  Endpoint : string;
  Weight : Z;
  ReplicationWeight : option Z;
  Proofs : Container;
  InsertedAt : Z;
  UpdatedAt : Z;
}.
#[export] Instance Record_eq_dec `{Ids} `{Containers} : EqDecision Record_.
Proof. solve_decision. Defined.

(** ** The promise of the interface: [Get] and [List] agree on one listing *)
Class Reads `{Ids} `{Containers} (S : Type) := {
  sp_Get : S → DID → outcome Record_;
  sp_List : S → PaginationConfig → outcome (Page Record_);
  (** the registered providers, one record per DID *)
  listing : S → list Record_;
  listing_NoDup s : NoDup (Provider <$> listing s);
  sp_Get_spec s d :
    sp_Get s d = match findFunc (λ r, bool_decide (Provider r = d)) (listing s) with
                 | Some r => Ok r
                 | None => Err ErrStorageProviderNotFound
                 end;
  sp_List_Pages s : Pages (sp_List s) None (listing s);
}.

Section StorageProvider.
Context `{Ids} `{Containers}.

Record Store := {
  providers : gmap DID Record_;
}.
Definition New : Store := {| providers := ∅ |}.

Definition Delete (providerID : DID) (s : Store) : outcome unit * Store :=
  match providers s !! providerID with
  | None => (Err ErrStorageProviderNotFound, s)
  | Some _ => (Ok tt, {| providers := delete providerID (providers s) |})
  end.

Definition Get (s : Store) (providerID : DID) : outcome Record_ :=
  match providers s !! providerID with
  | Some sp => Ok sp
  | None => Err ErrStorageProviderNotFound
  end.

Definition recordLe (a b : Record_) : Prop :=
  String.le (did_String (Provider a)) (did_String (Provider b)).
#[export] Instance recordLe_dec : RelDecision recordLe.
Proof. intros a b. unfold recordLe. apply _. Defined.
Definition sorted (s : Store) : list Record_ :=
  sortFunc recordLe ((map_to_list (providers s)).*2).

Definition List (s : Store) (cfg : PaginationConfig) : outcome (Page Record_) :=
  let limit := default 1000%Z (cfgLimit cfg) in
  let records := sorted s in
  records ← match cfgCursor cfg with
            | Some c =>
                match indexFunc (λ r, bool_decide (did_String (Provider r) = c)) records with
                | Some i => slice_from records (Z.of_nat i + 1)
                | None => Ok records
                end
            | None => Ok records
            end;
  if (limit <? len records)%Z then
    records ← slice_to records limit;
    last ← index records (len records - 1);
    Ok (mkPage (Some (did_String (Provider last))) records)
  else Ok (mkPage None records).

Definition Add (id : DID) (endpoint : string) (weight : Z) (replicationWeight : option Z)
    (proofs : option Container) (now : Z) (s : Store) : outcome unit * Store :=
  match proofs with
  | None => (Err (Errorf "missing proofs"), s)
  | Some proofs =>
      match providers s !! id with
      | Some _ => (Err ErrStorageProviderExists, s)
      | None =>
          (Ok tt,
           {| providers := <[id := {| Provider := id; Endpoint := endpoint; Weight := weight;
                                      ReplicationWeight := replicationWeight; Proofs := proofs;
                                      InsertedAt := now; UpdatedAt := now |}]> (providers s) |})
      end
  end.

Definition SetWeights (id : DID) (weight : Z) (replicationWeight : option Z) (now : Z) (s : Store)
    : outcome unit * Store :=
  match providers s !! id with
  | None => (Err ErrStorageProviderNotFound, s)
  | Some sp =>
      let sp := {| Provider := Provider sp; Endpoint := Endpoint sp; Weight := weight;
                   ReplicationWeight := replicationWeight; Proofs := Proofs sp;
                   InsertedAt := InsertedAt sp; UpdatedAt := now |} in
      (Ok tt, {| providers := <[id := sp]> (providers s) |})
  end.

Definition SetProofs (id : DID) (proofs : option Container) (now : Z) (s : Store)
    : outcome unit * Store :=
  match proofs with
  | None => (Err (Errorf "missing proofs"), s)
  | Some proofs =>
      match providers s !! id with
      | None => (Err ErrStorageProviderNotFound, s)
      | Some sp =>
          let sp := {| Provider := Provider sp; Endpoint := Endpoint sp; Weight := Weight sp;
                       ReplicationWeight := ReplicationWeight sp; Proofs := proofs;
                       InsertedAt := InsertedAt sp; UpdatedAt := now |} in
          (Ok tt, {| providers := <[id := sp]> (providers s) |})
      end
  end.

(** ** A record is filed under its own DID *)
Definition wf (s : Store) : Prop := map_Forall (λ d r, Provider r = d) (providers s).

Lemma providers_wf_New : wf New.
Proof. apply map_Forall_empty. Qed.
Lemma wf_Delete d s : wf s → wf (Delete d s).2.
Proof.
  unfold Delete. destruct (providers s !! d); [|done]. intros Hwf. by apply map_Forall_delete.
Qed.
Lemma providers_wf_Add id e w rw p now s : wf s → wf (Add id e w rw p now s).2.
Proof.
  unfold Add. destruct p; [|done]. destruct (providers s !! id); [done|].
  intros Hwf. by apply map_Forall_insert_2.
Qed.
Lemma wf_SetWeights id w rw now s : wf s → wf (SetWeights id w rw now s).2.
Proof.
  unfold SetWeights. destruct (providers s !! id) as [sp|] eqn:E; [|done].
  intros Hwf. apply map_Forall_insert_2; [|done]. by apply (Hwf id sp).
Qed.
Lemma wf_SetProofs id p now s : wf s → wf (SetProofs id p now s).2.
Proof.
  unfold SetProofs. destruct p; [|done]. destruct (providers s !! id) as [sp|] eqn:E; [|done].
  intros Hwf. apply map_Forall_insert_2; [|done]. by apply (Hwf id sp).
Qed.

(** ** Listing *)
#[export] Instance recordLe_trans : Transitive recordLe.
Proof. intros ???. unfold recordLe. by etrans. Qed.
#[export] Instance recordLe_total : Total recordLe.
Proof. intros a b. apply String.le_total. Qed.

Lemma sorted_perm s : sorted s ≡ₚ (map_to_list (providers s)).*2.
Proof. apply merge_sort_Permutation. Qed.
Lemma sorted_sorted s : StronglySorted recordLe (sorted s).
Proof. apply StronglySorted_merge_sort; apply _. Qed.
Lemma elem_of_sorted s r : r ∈ sorted s ↔ ∃ d, providers s !! d = Some r.
Proof.
  rewrite sorted_perm, list_elem_of_fmap. split.
  - intros ([d r'] & -> & Hin). apply elem_of_map_to_list in Hin. eauto.
  - intros (d & Hd). exists (d, r). split; [done|]. by apply elem_of_map_to_list.
Qed.
Lemma sorted_NoDup s : wf s → NoDup (Provider <$> sorted s).
Proof.
  intros Hwf. rewrite sorted_perm.
  assert (Provider <$> (map_to_list (providers s)).*2 = (map_to_list (providers s)).*1) as ->.
  { rewrite <-list_fmap_compose. apply list_fmap_ext. intros i [d r] Hi. simpl.
    apply (Hwf d r), elem_of_map_to_list. by apply list_elem_of_lookup_2 in Hi. }
  apply NoDup_fst_map_to_list.
Qed.

Lemma providers_List_cut s cur limit :
  List s {| cfgCursor := cur; cfgLimit := limit |} =
  (records ← match cur with
             | Some c =>
                 match indexFunc (λ r, bool_decide (did_String (Provider r) = c)) (sorted s) with
                 | Some i => slice_from (sorted s) (Z.of_nat i + 1)
                 | None => Ok (sorted s)
                 end
             | None => Ok (sorted s)
             end;
   cutPage (default 1000%Z limit) (λ r, did_String (Provider r)) records).
Proof. done. Qed.

Lemma List_Pages_limit (limit : nat) s :
  limit ≠ 0 → wf s →
  Pages (λ cfg, List s {| cfgCursor := cfgCursor cfg; cfgLimit := Some (Z.of_nat limit) |})
    None (sorted s).
Proof.
  intros Hlim Hwf. assert (NoDup ((λ r, did_String (Provider r)) <$> sorted s)) as Hnd.
  { pose proof (NoDup_fmap_2 did_String _ (sorted_NoDup s Hwf)) as Hnd.
    by rewrite <-list_fmap_compose in Hnd. }
  eapply (Pages_cut _ limit (λ r, did_String (Provider r)) (sorted s) Hlim)
    with (l1 := []); [|done|done].
  intros l1 x l2 Hl _. rewrite providers_List_cut. rewrite Hl in *. cbn [cfgCursor].
  rewrite (indexFunc_key (λ r, did_String (Provider r))) by done. by rewrite slice_from_suffix.
Qed.
Lemma providers_List_Pages s : wf s → Pages (List s) None (sorted s).
Proof.
  intros Hwf. eapply Pages_ext; [|apply (List_Pages_limit 1000 s); [done|exact Hwf]]. done.
Qed.

Lemma Get_sorted s d :
  wf s →
  Get s d = match findFunc (λ r, bool_decide (Provider r = d)) (sorted s) with
            | Some r => Ok r
            | None => Err ErrStorageProviderNotFound
            end.
Proof.
  intros Hwf. unfold Get. destruct (findFunc _ _) as [r|] eqn:E.
  - apply findFunc_Some in E as [Hin Hb]. apply bool_decide_eq_true in Hb.
    apply elem_of_sorted in Hin as (d' & Hd). rewrite (Hwf d' r Hd) in Hb. subst. by rewrite Hd.
  - destruct (providers s !! d) as [r|] eqn:Hd; [|done].
    rewrite findFunc_None in E. specialize (E r).
    rewrite bool_decide_eq_false in E. exfalso. apply E; [|by apply (Hwf d r)].
    apply elem_of_sorted. eauto.
Qed.

(** A store that only its own operations have touched. *)
Record Kept := { kept_store : Store; kept_wf : wf kept_store }.
#[export] Program Instance Kept_Reads : Reads Kept := {|
  sp_Get k := Get (kept_store k);
  sp_List k := List (kept_store k);
  listing k := sorted (kept_store k);
|}.
Next Obligation. intros k. apply sorted_NoDup, kept_wf. Qed.
Next Obligation. intros k d. apply Get_sorted, kept_wf. Qed.
Next Obligation. intros k. apply providers_List_Pages, kept_wf. Qed.
End StorageProvider.
End StorageProvider.
