(* ===== verification/RoutingPolicy.v ===== *)
(** * Routing policies: [pkg/store/routing_policy]

    The candidate sets of policies and the policy each space references, in the
    memory backend of [pkg/store/routing_policy/memory/store.go]. *)
From S2P Require Export Ids.

Definition ErrPolicyNotFound : error := Named "RoutingPolicyNotFound" "routing policy not found".
Definition ErrSpacePolicyNotFound : error :=
  Named "SpaceRoutingPolicyNotFound" "space has no routing policy".

Module RoutingPolicy.
Section RoutingPolicy.
Context `{Ids}.

Record PolicyRecord := {
  Policy : DID;
  Candidates : list DID;
  policyCause : Cid;
  policyInsertedAt : Z;
  policyUpdatedAt : Z;
}.
Record SpaceRecord := {
  Space : DID;
  spacePolicy : DID;
  spaceCause : Cid;
  spaceInsertedAt : Z;
  spaceUpdatedAt : Z;
}.
Record Store := {
  policies : gmap DID PolicyRecord;
  spaces : gmap DID SpaceRecord;
}.
Definition New : Store := {| policies := ∅; spaces := ∅ |}.

Definition SetCandidates (policy : DID) (candidates : list DID) (cause : Cid) (now : Z)
    (s : Store) : outcome unit * Store :=
  match candidates with
  | [] => (Err (Errorf "missing candidates"), s)
  | _ :: _ =>
      let rec :=
        match policies s !! policy with
        | Some rec => {| Policy := Policy rec; Candidates := candidates; policyCause := cause;
                         policyInsertedAt := policyInsertedAt rec; policyUpdatedAt := now |}
        | None => {| Policy := policy; Candidates := candidates; policyCause := cause;
                     policyInsertedAt := now; policyUpdatedAt := now |}
        end in
      (Ok tt, {| policies := <[policy := rec]> (policies s); spaces := spaces s |})
  end.

Definition GetPolicy (s : Store) (policy : DID) : outcome PolicyRecord :=
  match policies s !! policy with
  | Some rec => Ok rec
  | None => Err ErrPolicyNotFound
  end.

Definition SetSpacePolicy (space policy : DID) (cause : Cid) (now : Z) (s : Store)
    : outcome unit * Store :=
  match policies s !! policy with
  | None => (Err ErrPolicyNotFound, s)
  | Some _ =>
      let rec :=
        match spaces s !! space with
        | Some rec => {| Space := Space rec; spacePolicy := policy; spaceCause := cause;
                         spaceInsertedAt := spaceInsertedAt rec; spaceUpdatedAt := now |}
        | None => {| Space := space; spacePolicy := policy; spaceCause := cause;
                     spaceInsertedAt := now; spaceUpdatedAt := now |}
        end in
      (Ok tt, {| policies := policies s; spaces := <[space := rec]> (spaces s) |})
  end.

Definition ClearSpacePolicy (space : DID) (s : Store) : outcome unit * Store :=
  (Ok tt, {| policies := policies s; spaces := delete space (spaces s) |}).

Definition GetSpacePolicy (s : Store) (space : DID) : outcome SpaceRecord :=
  match spaces s !! space with
  | Some rec => Ok rec
  | None => Err ErrSpacePolicyNotFound
  end.

(** ** Every reference names a policy, and every policy names candidates *)
Record wf (s : Store) : Prop := {
  wf_references : map_Forall (λ _ rec, is_Some (policies s !! spacePolicy rec)) (spaces s);
  wf_candidates : map_Forall (λ _ rec, Candidates rec ≠ []) (policies s);
}.
Lemma policies_wf_New : wf New.
Proof. split; apply map_Forall_empty. Qed.
Lemma wf_SetCandidates policy candidates cause now s :
  wf s → wf (SetCandidates policy candidates cause now s).2.
Proof.
  intros [Hr Hc]. unfold SetCandidates. destruct candidates as [|c cs]; [done|].
  split; cbn [snd policies spaces].
  - intros space rec Hs. destruct (decide (policy = spacePolicy rec)) as [->|Hne].
    + by rewrite lookup_insert_eq.
    + rewrite lookup_insert_ne by done. by apply (Hr space).
  - apply map_Forall_insert_2; [|done]. by destruct (policies s !! policy).
Qed.
Lemma wf_SetSpacePolicy space policy cause now s :
  wf s → wf (SetSpacePolicy space policy cause now s).2.
Proof.
  intros [Hr Hc]. unfold SetSpacePolicy. destruct (policies s !! policy) eqn:E; [|done].
  split; cbn [snd policies spaces]; [|done].
  apply map_Forall_insert_2; [|done]. destruct (spaces s !! space); cbn; by rewrite E.
Qed.
Lemma wf_ClearSpacePolicy space s : wf s → wf (ClearSpacePolicy space s).2.
Proof. intros [Hr Hc]. split; cbn; [by apply map_Forall_delete|done]. Qed.

Lemma GetPolicy_referenced s space rec :
  wf s → GetSpacePolicy s space = Ok rec →
  ∃ p, GetPolicy s (spacePolicy rec) = Ok p ∧ Candidates p ≠ [].
Proof.
  intros [Hr Hc] Hg. unfold GetSpacePolicy in Hg. destruct (spaces s !! space) eqn:E; [|done].
  injection Hg as ->. destruct (Hr space rec E) as [p Hp]. exists p. unfold GetPolicy.
  rewrite Hp. split; [done|]. by apply (Hc (spacePolicy rec)).
Qed.
End RoutingPolicy.
End RoutingPolicy.
