(* ===== verification/Routing.v ===== *)
(** * Routing: [pkg/routing/service.go]

    Which storage node a blob is allocated on: the registered providers, less
    those the space's policy, the caller's exclusions and their weights rule
    out, and a weighted draw among the rest. The provider store is behind its
    interface. *)
From S2P Require Export StorageProvider RoutingPolicy.

Definition ErrCandidateUnavailable : error :=
  Named "CandidateUnavailable" "no storage providers available".

Module Routing.
Section Draw.
(** [rand.Int63n n]: some number of [0,n), and a panic without one. [rand] is
    the draw for each bound. *)
Context (rand : Z → Z).
Definition Int63n (n : Z) : outcome Z := if (n <=? 0)%Z then Panic else Ok (rand n).

Fixpoint weightLoop (random : Z) (weights : list Z) (i : nat) : outcome nat :=
  match weights with
  | [] => Panic
  | weight :: weights =>
      let random := int64 (random - int64 weight) in
      if (random <=? 0)%Z then Ok i else weightLoop random weights (S i)
  end.
Definition weightedRandomInt (weights : list Z) : outcome nat :=
  let totalWeight := foldl (λ total weight, uint64 (total + weight)) 0%Z weights in
  random ← Int63n (int64 totalWeight);
  weightLoop random weights 0.
End Draw.

Section Routing.
Context `{Ids} `{Containers} `{ErrorNames}.
Import StorageProvider.

Record StorageProviderInfo := {
  ID : DID;
  infoEndpoint : string;
  infoProofs : Container;
}.
Definition infoOf (rec : Record_) : StorageProviderInfo :=
  {| ID := Provider rec; infoEndpoint := Endpoint rec; infoProofs := Proofs rec |}.

Definition filterToCandidates (providers : list Record_) (candidates : list DID) : list Record_ :=
  let candidateSet : gset DID := list_to_set candidates in
  filter (λ prov, Provider prov ∈ candidateSet) providers.

Fixpoint filterExcludedProviders (providers : list Record_) (exclusions : list DID)
    : list Record_ :=
  match providers with
  | [] => []
  | prov :: providers =>
      if (Weight prov <=? 0)%Z then filterExcludedProviders providers exclusions
      else if containsFunc (λ ex, bool_decide (Provider prov = ex)) exclusions
      then filterExcludedProviders providers exclusions
      else prov :: filterExcludedProviders providers exclusions
  end.

Definition filterZeroWeightProviders (providers : list Record_) : list Record_ :=
  filter (λ prov, 0 < Weight prov)%Z providers.

Definition filterZeroReplicationWeightProviders (providers : list Record_) : list Record_ :=
  filter (λ prov, 0 < default (Weight prov) (ReplicationWeight prov))%Z providers.

Section Service.
Context {P : Type} `{!Reads P} (storageProviderStore : P).

Definition listProviders (fuel : nat) : outcome (list Record_) :=
  Collect (sp_List storageProviderStore) fuel.

Definition GetProviderInfo (provider : DID) : outcome StorageProviderInfo :=
  rec ← sp_Get storageProviderStore provider;
  Ok (infoOf rec).

(** The check of [PutPolicy], candidate by candidate. *)
Fixpoint checkCandidates (candidates : list DID) : outcome unit :=
  match candidates with
  | [] => Ok tt
  | c :: candidates =>
      match sp_Get storageProviderStore c with
      | Ok _ => checkCandidates candidates
      | Err err =>
          if Is err ErrStorageProviderNotFound
          then Err (Named InvalidCandidatesErrorName
                 ("candidate " +:+ did_String c +:+ " is not a registered storage provider"))
          else Err (Wrap ("getting storage provider " +:+ did_String c) err)
      | Panic => Panic
      | Diverge => Diverge
      end
  end.
Definition PutPolicy (policy : DID) (candidates : list DID) (cause : Cid) (now : Z)
    : M RoutingPolicy.Store unit :=
  if bool_decide (length candidates = 0)
  then fail (Named InvalidCandidatesErrorName "routing policy requires at least one candidate")
  else
    _ ← reads (λ _, checkCandidates candidates);
    wrap "storing routing policy" (RoutingPolicy.SetCandidates policy candidates cause now).

Definition UseSpacePolicy (space policy : DID) (cause : Cid) (now : Z)
    : M RoutingPolicy.Store unit :=
  RoutingPolicy.SetSpacePolicy space policy cause now.
Definition ClearSpacePolicy (space : DID) : M RoutingPolicy.Store unit :=
  RoutingPolicy.ClearSpacePolicy space.

Definition resolvePolicy (ps : RoutingPolicy.Store) (space : DID)
    : outcome (option RoutingPolicy.PolicyRecord) :=
  match RoutingPolicy.GetSpacePolicy ps space with
  | Err err =>
      if Is err ErrSpacePolicyNotFound then Ok None
      else Err (Wrap "getting space routing policy" err)
  | Ok ref =>
      match RoutingPolicy.GetPolicy ps (RoutingPolicy.spacePolicy ref) with
      | Err err =>
          if Is err ErrPolicyNotFound then Err ErrCandidateUnavailable
          else Err (Wrap "getting routing policy" err)
      | Ok rec => Ok (Some rec)
      | Panic => Panic
      | Diverge => Diverge
      end
  | Panic => Panic
  | Diverge => Diverge
  end.

(** The draw both selections end with. *)
Definition drawCandidate (rand : Z → Z) (candidates : list Record_)
    : outcome StorageProviderInfo :=
  let weights := (λ c, uint64 (Weight c)) <$> candidates in
  i ← weightedRandomInt rand weights;
  selected ← index candidates (Z.of_nat i);
  Ok (infoOf selected).

Definition SelectStorageProvider (rand : Z → Z) (fuel : nat) (ps : RoutingPolicy.Store)
    (space : DID) (exclusions : list DID) : outcome StorageProviderInfo :=
  candidates ← listProviders fuel;
  policy ← resolvePolicy ps space;
  let candidates :=
    match policy with
    | Some policy => filterToCandidates candidates (RoutingPolicy.Candidates policy)
    | None => candidates
    end in
  let candidates := filterExcludedProviders candidates exclusions in
  let candidates := filterZeroWeightProviders candidates in
  if bool_decide (length candidates = 0) then Err ErrCandidateUnavailable
  else drawCandidate rand candidates.

Definition SelectReplicationProvider (rand : Z → Z) (fuel : nat) (primary : DID)
    (exclusions : list DID) : outcome StorageProviderInfo :=
  candidates ← listProviders fuel;
  let candidates := filterExcludedProviders candidates (exclusions ++ [primary]) in
  let candidates := filterZeroReplicationWeightProviders candidates in
  if bool_decide (length candidates = 0) then Err ErrCandidateUnavailable
  else drawCandidate rand candidates.
End Service.

(** ** The draw *)

(** A generator that keeps [Int63n]'s promise. *)
Definition fair (rand : Z → Z) : Prop := ∀ n, (0 < n)%Z → (0 ≤ rand n < n)%Z.
Definition total (weights : list Z) : Z := foldr Z.add 0%Z weights.
(** Weights that are positive and whose sum an int64 holds. *)
Definition weighty (weights : list Z) : Prop :=
  Forall (λ w, 0 < w)%Z weights ∧ (total weights ≤ max_int64)%Z.

Lemma total_cons w ws : total (w :: ws) = (w + total ws)%Z.
Proof. done. Qed.
Lemma total_nonneg weights : Forall (λ w, 0 < w)%Z weights → (0 ≤ total weights)%Z.
Proof. induction 1; simpl; lia. Qed.
Lemma total_app l1 l2 : total (l1 ++ l2) = (total l1 + total l2)%Z.
Proof. induction l1 as [|w l1 IH]; simpl; [done|]. rewrite IH. lia. Qed.
Lemma total_fold weights acc :
  Forall (λ w, 0 < w)%Z weights → (0 ≤ acc)%Z → (acc + total weights ≤ max_int64)%Z →
  foldl (λ t w, uint64 (t + w)) acc weights = (acc + total weights)%Z.
Proof.
  intros Hp. revert acc. induction Hp as [|w ws Hw Hp IH]; intros acc Ha Hsum; simpl in *; [lia|].
  pose proof (total_nonneg ws Hp).
  rewrite uint64_id by (unfold is_uint64, max_int64 in *; lia). rewrite IH by lia. lia.
Qed.

(** Which draws end on which candidate: candidate [k] takes the draws after the
    weights before it, up to and with its own; the first also takes zero. *)
Definition lands (random : Z) (weights : list Z) (k : nat) : Prop :=
  k < length weights ∧
  (random ≤ total (take (S k) weights))%Z ∧ (k ≠ 0 → (total (take k weights) < random)%Z).

Lemma weightLoop_lands weights : ∀ random i,
  Forall (λ w, 0 < w)%Z weights → weights ≠ [] →
  (0 ≤ random ≤ total weights)%Z → (total weights ≤ max_int64)%Z →
  ∃ k, weightLoop random weights i = Ok (i + k) ∧ lands random weights k.
Proof.
  induction weights as [|w ws IH]; intros random i Hp Hne Hr Hmax; [done|].
  apply Forall_cons in Hp as [Hw Hp]. pose proof (total_nonneg ws Hp) as Hnn.
  rewrite total_cons in Hr, Hmax. unfold max_int64 in *. cbn [weightLoop].
  rewrite (int64_id w) by (unfold is_int64; lia).
  rewrite int64_id by (unfold is_int64; lia).
  destruct (Z.leb_spec (random - w) 0) as [Hle|Hgt].
  - exists 0. split; [by rewrite Nat.add_0_r|]. unfold lands. cbn [length].
    rewrite firstn_cons, total_cons, take_0. change (total []) with 0%Z.
    split_and!; [lia|lia|done].
  - destruct (IH (random - w)%Z (S i)) as (k & Hk & Hl1 & Hl2 & Hl3); [done| |lia|lia|].
    { intros ->. change (total []) with 0%Z in *. lia. }
    exists (S k). split; [by rewrite Hk, Nat.add_succ_r|]. unfold lands. cbn [length].
    rewrite !firstn_cons, !total_cons. split_and!; [lia|lia|]. intros _.
    destruct k as [|k]; [simpl; lia|]. specialize (Hl3 ltac:(done)). lia.
Qed.
Lemma lands_unique random weights k k' :
  Forall (λ w, 0 < w)%Z weights → lands random weights k → lands random weights k' → k = k'.
Proof.
  assert (∀ i j, Forall (λ w, 0 < w)%Z weights → i ≤ j →
    (total (take i weights) ≤ total (take j weights))%Z) as Hmono.
  { intros i j Hp Hij. replace j with (i + (j - i)) by lia.
    rewrite <-take_take_drop, total_app.
    pose proof (total_nonneg (take (j - i) (drop i weights))
      ltac:(by apply Forall_take, Forall_drop)). lia. }
  intros Hp (? & Hk1 & Hk2) (? & Hk1' & Hk2').
  destruct (Nat.lt_trichotomy k k') as [Hlt|[->|Hlt]]; [|done|]; exfalso.
  - pose proof (Hmono (S k) k' Hp ltac:(lia)). specialize (Hk2' ltac:(lia)). lia.
  - pose proof (Hmono (S k') k Hp ltac:(lia)). specialize (Hk2 ltac:(lia)). lia.
Qed.

Lemma weightedRandomInt_lands rand weights :
  fair rand → weighty weights → weights ≠ [] →
  ∃ k, weightedRandomInt rand weights = Ok k ∧ lands (rand (total weights)) weights k.
Proof.
  intros Hf [Hp Hmax] Hne.
  assert (0 < total weights)%Z as Hpos.
  { destruct Hp as [|w ws ? Hp]; [done|]. pose proof (total_nonneg ws Hp). simpl. lia. }
  unfold weightedRandomInt. rewrite total_fold by (done || lia). rewrite Z.add_0_l.
  rewrite int64_id by (unfold is_int64, max_int64 in *; lia).
  unfold Int63n. rewrite (proj2 (Z.leb_gt _ _)) by lia. cbn [mbind outcome_bind].
  pose proof (Hf _ Hpos).
  destruct (weightLoop_lands weights (rand (total weights)) 0) as (k & Hk & Hl); [done|done|lia|done|].
  exists k. done.
Qed.

(** ** The candidates *)
Lemma elem_of_filterExcluded providers exclusions prov :
  prov ∈ filterExcludedProviders providers exclusions ↔
  prov ∈ providers ∧ (0 < Weight prov)%Z ∧ Provider prov ∉ exclusions.
Proof.
  induction providers as [|p ps IH]; simpl.
  { split; [by intros ?%elem_of_nil|by intros [?%elem_of_nil _]]. }
  assert (containsFunc (λ ex, bool_decide (Provider p = ex)) exclusions = true ↔
    Provider p ∈ exclusions) as Hc.
  { rewrite containsFunc_true. split.
    - by intros (ex & ? & ->%bool_decide_eq_true).
    - intros Hin. exists (Provider p). split; [done|]. by apply bool_decide_eq_true. }
  destruct (Z.leb_spec (Weight p) 0) as [Hw|Hw].
  - rewrite IH, elem_of_cons. split; [tauto|]. intros ([->|?] & ? & ?); [lia|tauto].
  - destruct (containsFunc _ _).
    + rewrite IH, elem_of_cons. split; [tauto|]. intros ([->|?] & ? & Hn); [|tauto].
      exfalso. apply Hn, Hc. done.
    + rewrite !elem_of_cons, IH. split; [|tauto]. intros [->|?]; [|tauto].
      split_and!; [auto|done|]. intros Hin. apply Hc in Hin. done.
Qed.

(** What a space may be allocated on. *)
Definition eligible {P} `{!Reads P} (s : P) (policy : option RoutingPolicy.PolicyRecord)
    (exclusions : list DID) (prov : Record_) : Prop :=
  prov ∈ listing s ∧ (0 < Weight prov)%Z ∧ (Provider prov ∉ exclusions) ∧
  match policy with
  | Some policy => Provider prov ∈ RoutingPolicy.Candidates policy
  | None => True
  end.

Lemma elem_of_candidates {P} `{!Reads P} (s : P) policy exclusions prov :
  prov ∈ filterZeroWeightProviders (filterExcludedProviders
           (match policy with
            | Some policy => filterToCandidates (listing s) (RoutingPolicy.Candidates policy)
            | None => listing s
            end) exclusions) ↔
  eligible s policy exclusions prov.
Proof.
  unfold filterZeroWeightProviders, eligible.
  rewrite list_elem_of_filter, elem_of_filterExcluded. destruct policy as [p|]; [|tauto].
  unfold filterToCandidates. rewrite list_elem_of_filter, elem_of_list_to_set. tauto.
Qed.

Lemma uint64_weights candidates :
  Forall (λ c, 0 < Weight c)%Z candidates → (total (Weight <$> candidates) ≤ max_int64)%Z →
  (λ c, uint64 (Weight c)) <$> candidates = Weight <$> candidates.
Proof.
  induction 1 as [|c cs Hc Hp IH]; [done|]. rewrite !fmap_cons, total_cons. intros Hmax.
  pose proof (total_nonneg (Weight <$> cs) ltac:(by apply Forall_fmap)).
  rewrite uint64_id by (unfold is_uint64, max_int64 in *; lia). f_equal. apply IH. lia.
Qed.

Lemma drawCandidate_lands rand candidates :
  fair rand → candidates ≠ [] →
  Forall (λ c, 0 < Weight c)%Z candidates → (total (Weight <$> candidates) ≤ max_int64)%Z →
  ∃ k c, drawCandidate rand candidates = Ok (infoOf c) ∧ candidates !! k = Some c ∧
    lands (rand (total (Weight <$> candidates))) (Weight <$> candidates) k.
Proof.
  intros Hf Hne Hp Hmax. unfold drawCandidate. rewrite uint64_weights by done.
  destruct (weightedRandomInt_lands rand (Weight <$> candidates)) as (k & -> & Hl); [done| | |].
  { split; [by apply Forall_fmap|done]. }
  { by destruct candidates. }
  cbn [mbind outcome_bind]. destruct Hl as [Hk Hl]. rewrite length_fmap in Hk.
  destruct (lookup_lt_is_Some_2 candidates k Hk) as [c Hc].
  exists k, c. unfold index. rewrite bool_decide_eq_true_2 by lia. rewrite Nat2Z.id, Hc.
  split_and!; [done..|]. split; [by rewrite length_fmap|done].
Qed.

Lemma listProviders_listing {P} `{!Reads P} (s : P) fuel :
  length (listing s) < fuel → listProviders s fuel = Ok (listing s).
Proof. intros. apply Collect_Pages; [apply sp_List_Pages|done]. Qed.

(** A filter of positive weights weighs no more than a larger one. *)
Lemma filterExcluded_filter providers exclusions :
  filterExcludedProviders providers exclusions =
  filter (λ prov, 0 < Weight prov ∧ Provider prov ∉ exclusions)%Z providers.
Proof.
  induction providers as [|p ps IH]; simpl; [done|]. rewrite filter_cons, IH.
  assert (containsFunc (λ ex, bool_decide (Provider p = ex)) exclusions = true ↔
    Provider p ∈ exclusions) as Hc.
  { rewrite containsFunc_true. split.
    - by intros (ex & ? & ->%bool_decide_eq_true).
    - intros Hin. exists (Provider p). split; [done|]. by apply bool_decide_eq_true. }
  destruct (Z.leb_spec (Weight p) 0); [rewrite decide_False by lia; done|].
  destruct (containsFunc _ _).
  - rewrite decide_False; [done|]. intros [_ Hn]. by apply Hn, Hc.
  - rewrite decide_True; [done|]. split; [done|]. intros Hin. by apply Hc in Hin.
Qed.
Lemma total_filter (Q R : Record_ → Prop) `{∀ c, Decision (Q c)} `{∀ c, Decision (R c)} l :
  (∀ c, Q c → R c) → (∀ c, R c → 0 < Weight c)%Z →
  (total (Weight <$> filter Q l) ≤ total (Weight <$> filter R l))%Z.
Proof.
  intros HQR HR. induction l as [|c l IH]; [done|]. rewrite !filter_cons.
  pose proof (total_nonneg (Weight <$> filter R l) ltac:(apply Forall_fmap, Forall_forall;
    intros x [? _]%list_elem_of_filter; by apply HR)).
  destruct (decide (Q c)) as [Hq|]; destruct (decide (R c)) as [Hr|Hnr];
    rewrite ?fmap_cons, ?total_cons.
  - lia.
  - by destruct Hnr; apply HQR.
  - specialize (HR c Hr). lia.
  - done.
Qed.

(** The policy a space is under, with a policy store that kept its references. *)
Lemma resolvePolicy_wf ps space :
  RoutingPolicy.wf ps →
  (∃ ref p, RoutingPolicy.GetSpacePolicy ps space = Ok ref ∧
     RoutingPolicy.GetPolicy ps (RoutingPolicy.spacePolicy ref) = Ok p ∧
     resolvePolicy ps space = Ok (Some p)) ∨
  (RoutingPolicy.GetSpacePolicy ps space = Err ErrSpacePolicyNotFound ∧
   resolvePolicy ps space = Ok None).
Proof.
  intros Hwf. unfold resolvePolicy.
  destruct (RoutingPolicy.GetSpacePolicy ps space) as [ref|e| |] eqn:E.
  - left. destruct (RoutingPolicy.GetPolicy_referenced ps space ref Hwf E) as (p & Hp & _).
    exists ref, p. by rewrite Hp.
  - right. unfold RoutingPolicy.GetSpacePolicy in E.
    destruct (RoutingPolicy.spaces ps !! space); [done|]. injection E as <-. done.
  - exfalso. unfold RoutingPolicy.GetSpacePolicy in E. by destruct (RoutingPolicy.spaces ps !! space).
  - exfalso. unfold RoutingPolicy.GetSpacePolicy in E. by destruct (RoutingPolicy.spaces ps !! space).
Qed.

(** The weights the positive providers may add up to. *)
Definition weighable {P} `{!Reads P} (s : P) : Prop :=
  (total (Weight <$> filter (λ c, 0 < Weight c)%Z (listing s)) ≤ max_int64)%Z.

Lemma drawFrom {P} `{!Reads P} (s : P) rand (Q : Record_ → Prop) `{∀ c, Decision (Q c)} :
  fair rand → weighable s → (∀ c, Q c → 0 < Weight c)%Z →
  (∃ prov, prov ∈ listing s ∧ Q prov ∧
     drawCandidate rand (filter Q (listing s)) = Ok (infoOf prov)) ∨
  filter Q (listing s) = [].
Proof.
  intros Hf Hw HQ. destruct (decide (filter Q (listing s) = [])) as [|Hne]; [auto|]. left.
  destruct (drawCandidate_lands rand (filter Q (listing s))) as (k & c & Hd & Hk & _); [done|done| | |].
  - apply Forall_forall. intros c [Hq _]%list_elem_of_filter. by apply HQ.
  - etrans; [|exact Hw]. by apply total_filter.
  - exists c. apply list_elem_of_lookup_2, list_elem_of_filter in Hk as [? ?]. done.
Qed.

Lemma SelectStorageProvider_cases {P} `{!Reads P} (s : P) (rand : Z → Z) (fuel : nat)
    (ps : RoutingPolicy.Store) (space : DID) (exclusions : list DID) :
  RoutingPolicy.wf ps → fair rand → weighable s → length (listing s) < fuel →
  ∃ policy,
    match RoutingPolicy.GetSpacePolicy ps space with
    | Ok ref => ∃ p, RoutingPolicy.GetPolicy ps (RoutingPolicy.spacePolicy ref) = Ok p ∧
                     policy = Some p
    | _ => policy = None
    end ∧
    ((∃ prov, eligible s policy exclusions prov ∧
        SelectStorageProvider s rand fuel ps space exclusions = Ok (infoOf prov)) ∨
     ((∀ prov, ¬ eligible s policy exclusions prov) ∧
        SelectStorageProvider s rand fuel ps space exclusions = Err ErrCandidateUnavailable)).
Proof.
  intros Hps Hf Hw Hfuel. unfold SelectStorageProvider.
  rewrite listProviders_listing by done. cbn [mbind outcome_bind].
  assert (∃ policy, resolvePolicy ps space = Ok policy ∧
    match RoutingPolicy.GetSpacePolicy ps space with
    | Ok ref => ∃ p, RoutingPolicy.GetPolicy ps (RoutingPolicy.spacePolicy ref) = Ok p ∧
                     policy = Some p
    | _ => policy = None
    end) as (policy & -> & Hpol).
  { destruct (resolvePolicy_wf ps space Hps) as [(ref & p & Hr & Hp & ->)|[Hr ->]].
    - exists (Some p). rewrite Hr. eauto.
    - exists None. by rewrite Hr. }
  exists policy. split; [done|]. cbn [mbind outcome_bind].
  pose proof (λ prov, elem_of_candidates s policy exclusions prov) as Hel.
  set (cs := filterZeroWeightProviders _) in *.
  assert (∃ (Q : Record_ → Prop) (HQ : ∀ c, Decision (Q c)),
    cs = filter Q (listing s) ∧ ∀ c, Q c → (0 < Weight c)%Z) as (Q & HQ & Hcs & Hpos).
  { subst cs. unfold filterZeroWeightProviders. rewrite filterExcluded_filter.
    destruct policy as [p|].
    - unfold filterToCandidates. rewrite !list_filter_filter. eexists _, _. split; [done|].
      simpl. tauto.
    - rewrite list_filter_filter. eexists _, _. split; [done|]. simpl. tauto. }
  rewrite Hcs in *. destruct (drawFrom s rand Q Hf Hw Hpos) as [(prov & Hin & Hq & Hd)|Hnil].
  - left. exists prov.
    assert (prov ∈ filter Q (listing s)) as Hin' by by apply list_elem_of_filter.
    split; [by apply Hel|]. rewrite bool_decide_eq_false_2; [done|].
    by destruct (filter Q (listing s)); [apply elem_of_nil in Hin'|].
  - right. rewrite Hnil in *. split; [|done].
    intros prov Hp. apply Hel in Hp. by apply elem_of_nil in Hp.
Qed.

(** C7: selecting a provider for a space resolves to one of two cases: some
    registered provider is eligible (its weight is positive, it is not
    excluded, and the space's policy, if the space references one, names it),
    and one that is eligible is returned with its own endpoint and proofs; or
    none is, and the caller gets [ErrCandidateUnavailable]. It never panics
    and never finds a referenced policy missing. *)
Theorem SelectStorageProvider_spec {P} `{!Reads P} (s : P) (rand : Z → Z) (fuel : nat)
    (ps : RoutingPolicy.Store) (space : DID) (exclusions : list DID) :
  RoutingPolicy.wf ps → fair rand → weighable s → length (listing s) < fuel →
  ∃ policy,
    match RoutingPolicy.GetSpacePolicy ps space with
    | Ok ref => ∃ p, RoutingPolicy.GetPolicy ps (RoutingPolicy.spacePolicy ref) = Ok p ∧
                     policy = Some p
    | _ => policy = None
    end ∧
    ((∃ prov, eligible s policy exclusions prov ∧
        SelectStorageProvider s rand fuel ps space exclusions = Ok (infoOf prov)) ∨
     ((∀ prov, ¬ eligible s policy exclusions prov) ∧
        SelectStorageProvider s rand fuel ps space exclusions = Err ErrCandidateUnavailable)).
Proof. apply SelectStorageProvider_cases. Qed.

(** With a generator that keeps its promise, [weightedRandomInt] lands on
    candidate [k] exactly when the number drawn exceeds the weights before [k]
    and does not exceed them with [k]'s own added, where the first candidate
    also takes the draw of zero. *)
Theorem weightedRandomInt_spec (rand : Z → Z) (weights : list Z) (k : nat) :
  fair rand → weighty weights → weights ≠ [] →
  weightedRandomInt rand weights = Ok k ↔ lands (rand (total weights)) weights k.
Proof.
  intros Hf Hw Hne. destruct (weightedRandomInt_lands rand weights Hf Hw Hne) as (k' & -> & Hl).
  destruct Hw as [Hp _]. split; [by intros [= ->]|].
  intros Hk. f_equal. by apply (lands_unique _ _ _ _ Hp Hl).
Qed.

(** The draw favours the first candidate by one and shorts the last by one:
    a last candidate of weight one among others is never selected, whatever is
    drawn, though its weight is positive. *)
Theorem weightedRandomInt_starves (rand : Z → Z) (weights : list Z) :
  fair rand → weighty (weights ++ [1%Z]) → weights ≠ [] →
  weightedRandomInt rand (weights ++ [1%Z]) ≠ Ok (length weights).
Proof.
  intros Hf Hw Hne Heq.
  destruct (weightedRandomInt_lands rand (weights ++ [1%Z]) Hf Hw) as (k & Hk & Hl);
    [by destruct weights|].
  rewrite Heq in Hk. injection Hk as <-. destruct Hl as (_ & _ & Hgt).
  destruct Hw as [Hp _].
  assert (0 < total (weights ++ [1%Z]))%Z as Hpos.
  { apply Forall_app in Hp as [Hp _]. pose proof (total_nonneg weights Hp).
    rewrite total_app. change (total [1%Z]) with 1%Z. lia. }
  pose proof (Hf _ Hpos) as Hr. rewrite take_app_length in Hgt.
  rewrite total_app in Hr, Hgt. change (total [1%Z]) with 1%Z in *.
  specialize (Hgt ltac:(by destruct weights)). lia.
Qed.

(** A provider is only selected for a replica when its upload weight is
    positive, whatever its replication weight says: with the primary excluded,
    a lone other provider of upload weight zero and a positive replication
    weight is refused. *)
Theorem SelectReplicationProvider_ignores_replication_weight {P} `{!Reads P} (s : P)
    (rand : Z → Z) (fuel : nat) (primary : DID) (exclusions : list DID) :
  length (listing s) < fuel →
  (∀ prov, prov ∈ listing s → Provider prov ≠ primary →
     (Weight prov ≤ 0)%Z ∧ ∃ rw, ReplicationWeight prov = Some rw ∧ (0 < rw)%Z) →
  SelectReplicationProvider s rand fuel primary exclusions = Err ErrCandidateUnavailable.
Proof.
  intros Hfuel Hall. unfold SelectReplicationProvider.
  rewrite listProviders_listing by done. cbn [mbind outcome_bind].
  assert (filterExcludedProviders (listing s) (exclusions ++ [primary]) = []) as ->; [|done].
  rewrite filterExcluded_filter. apply filter_none, Forall_forall.
  intros prov Hin [Hw Hn]. destruct (Hall prov Hin) as [Hle _]; [|lia].
  intros Heq. apply Hn, elem_of_app. right. by apply list_elem_of_singleton.
Qed.

Lemma PutPolicy_cases {P} `{!Reads P} (s : P) (policy : DID) (candidates : list DID)
    (cause : Cid) (now : Z) (ps : RoutingPolicy.Store) :
  (candidates ≠ [] ∧ Forall (λ c, c ∈ Provider <$> listing s) candidates ∧
   PutPolicy s policy candidates cause now ps =
     RoutingPolicy.SetCandidates policy candidates cause now ps ∧
   (PutPolicy s policy candidates cause now ps).1 = Ok tt) ∨
  ((candidates = [] ∨ ¬ Forall (λ c, c ∈ Provider <$> listing s) candidates) ∧
   ∃ msg, PutPolicy s policy candidates cause now ps =
     (Err (Named InvalidCandidatesErrorName msg), ps)).
Proof.
  assert (∀ cs, (Forall (λ c, c ∈ Provider <$> listing s) cs ∧ checkCandidates s cs = Ok tt) ∨
    (¬ Forall (λ c, c ∈ Provider <$> listing s) cs ∧
     ∃ msg, checkCandidates s cs = Err (Named InvalidCandidatesErrorName msg))) as Hcheck.
  { induction cs as [|c cs IH]; [left; by split|]. cbn [checkCandidates].
    rewrite sp_Get_spec. destruct (findFunc _ _) as [r|] eqn:E.
    - apply findFunc_Some in E as [Hin Hr]. apply bool_decide_eq_true in Hr.
      assert (c ∈ Provider <$> listing s) as Hc by (rewrite <-Hr; by apply list_elem_of_fmap_2).
      rewrite Forall_cons. destruct IH as [[? ->]|[? ?]]; [left|right]; tauto.
    - right. rewrite findFunc_None in E. rewrite Forall_cons. split.
      + intros [(r & -> & Hin)%list_elem_of_fmap _]. specialize (E r Hin).
        by rewrite bool_decide_eq_false in E.
      + rewrite Is_refl. by eexists. }
  unfold PutPolicy. destruct candidates as [|c cs].
  { right. split; [auto|]. by eexists. }
  rewrite bool_decide_eq_false_2 by done. unfold mbind, M_bind, reads.
  destruct (Hcheck (c :: cs)) as [[Hall ->]|[Hn (msg & ->)]].
  - left. split_and!; [done..| |]; unfold wrap, RoutingPolicy.SetCandidates; done.
  - right. split; [auto|]. by exists msg.
Qed.

(** [PutPolicy] stores the candidates exactly when there is at least one
    and each is registered; otherwise it answers [InvalidCandidates] and the
    policies are what they were. *)
Theorem PutPolicy_spec {P} `{!Reads P} (s : P) (policy : DID) (candidates : list DID)
    (cause : Cid) (now : Z) (ps : RoutingPolicy.Store) :
  (candidates ≠ [] ∧ Forall (λ c, c ∈ Provider <$> listing s) candidates ∧
   PutPolicy s policy candidates cause now ps =
     RoutingPolicy.SetCandidates policy candidates cause now ps ∧
   (PutPolicy s policy candidates cause now ps).1 = Ok tt) ∨
  ((candidates = [] ∨ ¬ Forall (λ c, c ∈ Provider <$> listing s) candidates) ∧
   ∃ msg, PutPolicy s policy candidates cause now ps =
     (Err (Named InvalidCandidatesErrorName msg), ps)).
Proof. apply PutPolicy_cases. Qed.
End Routing.
End Routing.

(** ** Witnesses *)
Section Witnesses.
#[local] Existing Instance StrIds.
#[local] Existing Instance StrContainers.
#[local] Existing Instance StrNames.
Import StorageProvider.

Definition exampleStore : Store :=
  (Add (str_did "q") "https://q" 0 (Some 5%Z) (Some "proof") 0
     (Add (str_did "p") "https://p" 1 None (Some "proof") 0 New).2).2.
Definition exampleProviders : Kept :=
  {| kept_store := exampleStore; kept_wf := providers_wf_Add _ _ _ _ _ _ _ (providers_wf_Add _ _ _ _ _ _ _ providers_wf_New) |}.
Definition zeroDraw (n : Z) : Z := 0.

Lemma zeroDraw_fair : Routing.fair zeroDraw.
Proof. intros n Hn. unfold zeroDraw. lia. Qed.

Lemma SelectStorageProvider_spec_witness :
  Routing.SelectStorageProvider exampleProviders zeroDraw 3 RoutingPolicy.New (str_did "s") [] =
    Ok {| Routing.ID := "p"; Routing.infoEndpoint := "https://p"; Routing.infoProofs := "proof" |} ∧
  ∃ policy : option RoutingPolicy.PolicyRecord, policy = None.
Proof.
  split; [reflexivity|].
  destruct (Routing.SelectStorageProvider_spec exampleProviders zeroDraw 3 RoutingPolicy.New (str_did "s") [])
    as (policy & Hp & _).
  - apply RoutingPolicy.policies_wf_New.
  - apply zeroDraw_fair.
  - vm_compute. discriminate.
  - vm_compute. lia.
  - exists policy. exact Hp.
Defined.

Lemma weightedRandomInt_spec_witness :
  Routing.weightedRandomInt zeroDraw [2%Z; 3%Z] = Ok 0.
Proof.
  apply (Routing.weightedRandomInt_spec zeroDraw [2%Z; 3%Z] 0).
  - apply zeroDraw_fair.
  - split; [repeat constructor|vm_compute; discriminate].
  - discriminate.
  - split; [simpl; lia|]. split; [vm_compute; discriminate|]. intros Hn. destruct (Hn eq_refl).
Defined.

Lemma weightedRandomInt_starves_witness :
  Routing.weightedRandomInt zeroDraw [1%Z; 1%Z] ≠ Ok 1.
Proof.
  apply (Routing.weightedRandomInt_starves zeroDraw [1%Z]).
  - apply zeroDraw_fair.
  - split; [repeat constructor|vm_compute; discriminate].
  - discriminate.
Defined.

Lemma SelectReplicationProvider_ignores_replication_weight_witness :
  Routing.SelectReplicationProvider exampleProviders zeroDraw 3 (str_did "p") [] =
  Err ErrCandidateUnavailable.
Proof.
  apply (Routing.SelectReplicationProvider_ignores_replication_weight exampleProviders zeroDraw 3
    (str_did "p") []).
  - vm_compute. lia.
  - intros prov Hin.
    assert (Forall (λ prov : Record_, Provider prov ≠ str_did "p" →
      (Weight prov ≤ 0)%Z ∧ ∃ rw, ReplicationWeight prov = Some rw ∧ (0 < rw)%Z)
      (listing exampleProviders)) as Hall.
    { assert (listing exampleProviders =
        [{| Provider := "p"; Endpoint := "https://p"; Weight := 1; ReplicationWeight := None;
            Proofs := "proof"; InsertedAt := 0; UpdatedAt := 0 |};
         {| Provider := "q"; Endpoint := "https://q"; Weight := 0;
            ReplicationWeight := Some 5%Z; Proofs := "proof"; InsertedAt := 0;
            UpdatedAt := 0 |}]) as -> by reflexivity.
      apply Forall_cons; split; [|apply Forall_singleton].
      - intros Hp. destruct (Hp eq_refl).
      - intros _. split; [discriminate|]. exists 5%Z. split; reflexivity. }
    rewrite Forall_forall in Hall. exact (Hall prov Hin).
Defined.
End Witnesses.
