(* ===== verification/Consumer.v ===== *)
(** * Consumers: [pkg/store/consumer]

    Which spaces a provider serves, and for which customer, in the memory
    backend of [pkg/store/consumer/memory/store.go]. *)
From S2P Require Export Store.

Definition ErrConsumerNotFound : error := Named "ConsumerNotFound" "consumer not found".
Definition ErrConsumerExists : error := Named "ConsumerExists" "consumer already exists".

Module Consumer.
Section Consumer.
Context `{Ids}.

Record Record_ := {
  Provider : DID;
  Consumer : DID;
  Customer : DID;
  Subscription : string;
  Cause : Cid;
}.
#[export] Instance Record_eq_dec : EqDecision Record_.
Proof. solve_decision. Defined.

(** space -> list of consumer records *)
Record Store := { consumers : gmap DID (list Record_) }.
Definition New : Store := {| consumers := ∅ |}.
Definition records (s : Store) (space : DID) : list Record_ := default [] (consumers s !! space).

Definition same (provider space customer : DID) (subscription : string) (c : Record_) : bool :=
  bool_decide (Provider c = provider) && bool_decide (Consumer c = space) &&
  bool_decide (Customer c = customer) && bool_decide (Subscription c = subscription).

Definition Add (provider space customer : DID) (subscription : string) (cause : Cid)
    (s : Store) : outcome unit * Store :=
  if containsFunc (same provider space customer subscription) (records s space)
  then (Err ErrConsumerExists, s)
  else
    let rec := {| Provider := provider; Consumer := space; Customer := customer;
                  Subscription := subscription; Cause := cause |} in
    (Ok tt, {| consumers := <[space := records s space ++ [rec]]> (consumers s) |}).

Definition Get (s : Store) (provider space : DID) : outcome Record_ :=
  match findFunc (λ c, bool_decide (Provider c = provider) && bool_decide (Consumer c = space))
          (records s space) with
  | Some c => Ok c
  | None => Err ErrConsumerNotFound
  end.

(** The spaces are searched in the order of the map's iteration, which Go
    leaves open: [order] is one such order. *)
Definition GetBySubscription (order : gmap DID (list Record_) → list (DID * list Record_))
    (s : Store) (provider : DID) (subscription : string) : outcome Record_ :=
  match findFunc (λ r, bool_decide (Provider r = provider)
                       && bool_decide (Subscription r = subscription))
          (concat (order (consumers s)).*2) with
  | Some r => Ok r
  | None => Err ErrConsumerNotFound
  end.

Definition List (s : Store) (space : DID) (cfg : PaginationConfig) : outcome (Page Record_) :=
  listIndexed (records s space) (cfgCursor cfg) (default 1000%Z (cfgLimit cfg)).

Definition consumerLe (a b : Record_) : Prop :=
  String.le (did_String (Consumer a)) (did_String (Consumer b)).
#[export] Instance consumerLe_dec : RelDecision consumerLe.
Proof. intros a b. unfold consumerLe. apply _. Defined.

Definition ListByCustomer (order : gmap DID (list Record_) → list (DID * list Record_))
    (s : Store) (customer : DID) (cfg : PaginationConfig) : outcome (Page Record_) :=
  let allConsumers := filter (λ r, Customer r = customer) (concat (order (consumers s)).*2) in
  let allConsumers := sortFunc consumerLe allConsumers in
  listIndexed allConsumers (cfgCursor cfg) (default 1000%Z (cfgLimit cfg)).

(** ** Records are filed under their space, each once *)
Definition key (r : Record_) : DID * DID * string := (Provider r, Customer r, Subscription r).
Definition wf (s : Store) : Prop := ∀ space,
  Forall (λ r, Consumer r = space) (records s space) ∧ NoDup (key <$> records s space).

Lemma consumers_records_insert m space rs space' :
  records {| consumers := <[space := rs]> m |} space' =
  if decide (space' = space) then rs else records {| consumers := m |} space'.
Proof.
  unfold records. simpl. case_decide; subst;
    [by rewrite lookup_insert_eq|by rewrite lookup_insert_ne].
Qed.
Lemma same_true provider space customer subscription c :
  same provider space customer subscription c = true ↔
  Consumer c = space ∧ key c = (provider, customer, subscription).
Proof.
  unfold same, key. rewrite !andb_true_iff, !bool_decide_eq_true. split.
  - intros [[[-> ->] ->] ->]. done.
  - intros [-> [= -> -> ->]]. done.
Qed.
Lemma consumers_wf_New : wf New.
Proof. intros space. unfold records, New. simpl. rewrite lookup_empty. split; constructor. Qed.
Lemma consumers_wf_Add provider space customer subscription cause s :
  wf s → wf (Add provider space customer subscription cause s).2.
Proof.
  intros Hwf. unfold Add. destruct (containsFunc _ _) eqn:E; [done|]. intros space'.
  cbn [snd]. rewrite consumers_records_insert. case_decide; [subst|apply (Hwf space')].
  destruct (Hwf space) as [Hsp Hnd]. split.
  - apply Forall_app. split; [done|by apply Forall_singleton].
  - rewrite fmap_app. apply NoDup_app. split_and!; [done| |apply NoDup_singleton].
    intros k Hk ->%list_elem_of_singleton.
    apply list_elem_of_fmap in Hk as (c & Hc & Hin).
    apply not_true_iff_false in E. apply E, containsFunc_true. exists c. split; [done|].
    apply same_true. rewrite Forall_forall in Hsp. split; [by apply Hsp|done].
Qed.
Lemma consumers_List_Pages s space :
  wf s → (len (records s space) ≤ max_int64)%Z → Pages (List s space) None (records s space).
Proof.
  intros Hwf Hlen. eapply Pages_ext; [|apply (listIndexed_Pages (records s space) 1000); [done| |done]].
  - done.
  - destruct (Hwf space) as [_ Hnd]. by apply NoDup_fmap_1 in Hnd.
Qed.
Lemma Add_fresh provider space customer subscription cause s :
  wf s → (provider, customer, subscription) ∉ key <$> records s space →
  Add provider space customer subscription cause s =
  (Ok tt, {| consumers := <[space := records s space ++
     [{| Provider := provider; Consumer := space; Customer := customer;
         Subscription := subscription; Cause := cause |}]]> (consumers s) |}).
Proof.
  intros Hwf Hn. unfold Add. destruct (containsFunc _ _) eqn:E; [|done].
  apply containsFunc_true in E as (c & Hin & [_ Hk]%same_true). exfalso. apply Hn.
  rewrite <-Hk. by apply list_elem_of_fmap_2.
Qed.
Lemma Add_again provider space customer subscription cause s :
  wf s → (provider, customer, subscription) ∈ key <$> records s space →
  Add provider space customer subscription cause s = (Err ErrConsumerExists, s).
Proof.
  intros Hwf (c & Hk & Hin)%list_elem_of_fmap. unfold Add.
  assert (containsFunc (same provider space customer subscription) (records s space) = true) as ->; [|done].
  apply containsFunc_true. exists c. split; [done|]. apply same_true.
  destruct (Hwf space) as [Hsp _]. rewrite Forall_forall in Hsp. split; [by apply Hsp|done].
Qed.
End Consumer.
End Consumer.
