(* ===== verification/Subscription.v ===== *)
(** * Subscriptions: [pkg/store/subscription]

    The relationship between a customer and a provider, in the memory backend of
    [pkg/store/subscription/memory/store.go]. *)
From S2P Require Export Store.

Definition ErrSubscriptionExists : error := Named "SubscriptionExists" "subscription already exists".
Definition ErrSubscriptionNotFound : error := Named "SubscriptionNotFound" "subscription not found".

Module Subscription.
Section Subscription.
Context `{Ids}.

Record Record_ := {
  Provider : DID;
  Subscription : string;
  Customer : DID;
  Cause : Cid;
  InsertedAt : Z;
}.
#[export] Instance Record_eq_dec : EqDecision Record_.
Proof. solve_decision. Defined.

(** provider DID -> subscription ID -> subscription record *)
Record Store := { subs : gmap DID (gmap string Record_) }.
Definition New : Store := {| subs := ∅ |}.
Definition records (s : Store) (provider : DID) : gmap string Record_ :=
  default ∅ (subs s !! provider).

(** The provider's map is created even when the subscription exists; the
    memory backend leaves [InsertedAt] unset. *)
Definition Add (provider : DID) (subscriptionID : string) (customer : DID) (cause : Cid)
    (s : Store) : outcome unit * Store :=
  let s := {| subs := <[provider := records s provider]> (subs s) |} in
  match records s provider !! subscriptionID with
  | Some _ => (Err ErrSubscriptionExists, s)
  | None =>
      let rec := {| Provider := provider; Subscription := subscriptionID; Customer := customer;
                    Cause := cause; InsertedAt := zeroTime |} in
      (Ok tt, {| subs := <[provider := <[subscriptionID := rec]> (records s provider)]> (subs s) |})
  end.

Definition Get (s : Store) (provider : DID) (subscriptionID : string) : outcome Record_ :=
  match subs s !! provider with
  | Some m =>
      match m !! subscriptionID with
      | Some sub => Ok sub
      | None => Err ErrSubscriptionNotFound
      end
  | None => Err ErrSubscriptionNotFound
  end.

Definition subLe (a b : Record_) : Prop := String.le (Subscription a) (Subscription b).
#[export] Instance subLe_dec : RelDecision subLe.
Proof. intros a b. unfold subLe. apply _. Defined.

(** What a listing walks: the map's iteration order is undone by the sort,
    subscription IDs being the map's keys. *)
Definition matching (s : Store) (provider customer : DID) : list Record_ :=
  sortFunc subLe (filter (λ sub, Customer sub = customer) (map_to_list (records s provider)).*2).
Definition ListByProviderAndCustomer (s : Store) (provider customer : DID)
    (cfg : PaginationConfig) : outcome (Page Record_) :=
  listIndexed (matching s provider customer) (cfgCursor cfg) (default 1000%Z (cfgLimit cfg)).

(** ** Records are filed under their own provider and ID *)
Definition wf (s : Store) : Prop := ∀ provider,
  map_Forall (λ id r, Provider r = provider ∧ Subscription r = id) (records s provider).

Lemma subs_records_insert m provider x provider' :
  records {| subs := <[provider := x]> m |} provider' =
  if decide (provider' = provider) then x else records {| subs := m |} provider'.
Proof.
  unfold records. simpl. case_decide; subst;
    [by rewrite lookup_insert_eq|by rewrite lookup_insert_ne].
Qed.
Lemma Get_records s provider id :
  Get s provider id = match records s provider !! id with
                      | Some sub => Ok sub
                      | None => Err ErrSubscriptionNotFound
                      end.
Proof. unfold Get, records. destruct (subs s !! provider); simpl; [done|]. by rewrite lookup_empty. Qed.
Lemma records_Add provider id customer cause s provider' :
  records (Add provider id customer cause s).2 provider' =
  if decide (provider' = provider ∧ records s provider !! id = None)
  then <[id := {| Provider := provider; Subscription := id; Customer := customer;
                  Cause := cause; InsertedAt := zeroTime |}]> (records s provider)
  else records s provider'.
Proof.
  unfold Add. rewrite !subs_records_insert, decide_True by done.
  destruct (records s provider !! id) eqn:E; cbn [snd].
  - rewrite subs_records_insert, (decide_False (P := _ ∧ _)) by (intros [_ ?]; done).
    by case_decide; subst.
  - cbn [subs]. rewrite subs_records_insert. destruct (decide (provider' = provider)) as [->|Hne].
    + by rewrite decide_True.
    + rewrite decide_False by (intros [? _]; done). rewrite subs_records_insert.
      by rewrite decide_False.
Qed.
Lemma Add_result provider id customer cause s :
  (Add provider id customer cause s).1 =
  match records s provider !! id with Some _ => Err ErrSubscriptionExists | None => Ok tt end.
Proof.
  unfold Add. rewrite subs_records_insert, decide_True by done. by destruct (records s provider !! id).
Qed.
Lemma subs_wf_New : wf New.
Proof. intros p. unfold records, New. simpl. rewrite lookup_empty. apply map_Forall_empty. Qed.
Lemma subs_wf_Add provider id customer cause s : wf s → wf (Add provider id customer cause s).2.
Proof.
  intros Hwf p. rewrite records_Add. case_decide as Hd; [|apply Hwf].
  destruct Hd as [-> _]. apply map_Forall_insert_2; [done|apply Hwf].
Qed.

Lemma matching_NoDup s provider customer : wf s → NoDup (matching s provider customer).
Proof.
  intros Hwf. unfold matching, sortFunc. rewrite merge_sort_Permutation. apply NoDup_filter.
  apply (NoDup_fmap_1 Subscription).
  assert (Subscription <$> (map_to_list (records s provider)).*2 = (map_to_list (records s provider)).*1) as ->.
  { rewrite <-list_fmap_compose. apply list_fmap_ext. intros i [id r] Hi. simpl.
    apply (Hwf provider id r), elem_of_map_to_list. by apply list_elem_of_lookup_2 in Hi. }
  apply NoDup_fst_map_to_list.
Qed.
Lemma subs_List_Pages s provider customer :
  wf s → (len (matching s provider customer) ≤ max_int64)%Z →
  Pages (ListByProviderAndCustomer s provider customer) None (matching s provider customer).
Proof.
  intros Hwf Hlen. eapply Pages_ext;
    [|apply (listIndexed_Pages (matching s provider customer) 1000); [done| |done]]; [done|].
  by apply matching_NoDup.
Qed.
End Subscription.
End Subscription.
