(* ===== verification/Customer.v ===== *)
(** * Customers and their plans: [pkg/store/customer] and [pkg/billing]

    The accounts that may be billed, in the memory backend of
    [pkg/store/customer/memory/store.go], and the payment plan the billing
    service reads off them. *)
From S2P Require Export Store.

Definition ErrCustomerNotFound : error := Named "CustomerNotFound" "customer not found".
Definition ErrCustomerExists : error := Named "CustomerExists" "customer already exists".

Module Customer.
Section Customer.
(** [Val] is the type of the values of the free-form details. *)
Context `{Ids} {Val : Type}.

Record Record_ := {
  Customer : DID;
  ExternalAccount : option string;
  Product : DID;
  Details : gmap string Val;
  ReservedCapacity : option Z;
  InsertedAt : Z;
  UpdatedAt : Z;
}.
Record Store := { customers : list Record_ }.
Definition New : Store := {| customers := [] |}.

Definition Get (s : Store) (customerID : DID) : outcome Record_ :=
  match findFunc (λ c, bool_decide (Customer c = customerID)) (customers s) with
  | Some c => Ok c
  | None => Err ErrCustomerNotFound
  end.

Definition List (s : Store) (cfg : PaginationConfig) : outcome (Page Record_) :=
  let limit := default 1000%Z (cfgLimit cfg) in
  entries ← resumeWithin (λ c, did_String (Customer c)) (cfgCursor cfg) (customers s);
  if (limit <? len entries)%Z then
    entries ← slice_to entries limit;
    last ← index entries (limit - 1);
    Ok (mkPage (Some (did_String (Customer last))) entries)
  else Ok (mkPage None entries).

Definition customerLe (a b : Record_) : Prop :=
  String.le (did_String (Customer a)) (did_String (Customer b)).
#[export] Instance customerLe_dec : RelDecision customerLe.
Proof. intros a b. unfold customerLe. apply _. Defined.

Definition Add (customerID : DID) (externalAccount : option string) (product : DID)
    (details : gmap string Val) (reservedCapacity : option Z) (now : Z) (s : Store)
    : outcome unit * Store :=
  if containsFunc (λ c, bool_decide (Customer c = customerID)) (customers s)
  then (Err ErrCustomerExists, s)
  else
    let c := {| Customer := customerID; ExternalAccount := externalAccount; Product := product;
                Details := details; ReservedCapacity := reservedCapacity;
                InsertedAt := now; UpdatedAt := zeroTime |} in
    (Ok tt, {| customers := sortFunc customerLe (customers s ++ [c]) |}).

Definition UpdateProduct (customerID product : DID) (now : Z) (s : Store)
    : outcome unit * Store :=
  match indexFunc (λ c, bool_decide (Customer c = customerID)) (customers s) with
  | Some i =>
      (Ok tt, {| customers := alter (λ c,
         {| Customer := Customer c; ExternalAccount := ExternalAccount c; Product := product;
            Details := Details c; ReservedCapacity := ReservedCapacity c;
            InsertedAt := InsertedAt c; UpdatedAt := now |}) i (customers s) |})
  | None => (Err ErrCustomerNotFound, s)
  end.

(** ** One record per customer *)
Definition wf (s : Store) : Prop := NoDup (Customer <$> customers s).

Lemma customers_wf_New : wf New.
Proof. constructor. Qed.
Lemma contains_customer customerID s :
  containsFunc (λ c, bool_decide (Customer c = customerID)) (customers s) = true ↔
  customerID ∈ Customer <$> customers s.
Proof.
  rewrite containsFunc_true, list_elem_of_fmap. split.
  - intros (c & ? & Hc%bool_decide_eq_true). exists c. done.
  - intros (c & -> & ?). exists c. split; [done|]. by apply bool_decide_eq_true.
Qed.
Lemma customers_wf_Add customerID ext product details cap now s :
  wf s → wf (Add customerID ext product details cap now s).2.
Proof.
  intros Hwf. unfold Add. destruct (containsFunc _ _) eqn:E; [done|].
  unfold wf, sortFunc. cbn [snd customers]. rewrite merge_sort_Permutation, fmap_app.
  apply NoDup_app. split_and!; [done| |apply NoDup_singleton].
  intros d Hd ->%list_elem_of_singleton. apply not_true_iff_false in E.
  by apply E, contains_customer.
Qed.
Lemma UpdateProduct_customers customerID product now s :
  Customer <$> customers (UpdateProduct customerID product now s).2 = Customer <$> customers s.
Proof.
  unfold UpdateProduct. destruct (indexFunc _ _) as [i|]; [|done]. cbn [snd customers].
  apply list_eq. intros j. rewrite !list_lookup_fmap. destruct (decide (i = j)) as [->|].
  - rewrite list_lookup_alter_eq. by destruct (customers s !! j).
  - by rewrite list_lookup_alter_ne.
Qed.
Lemma wf_UpdateProduct customerID product now s :
  wf s → wf (UpdateProduct customerID product now s).2.
Proof. unfold wf. by rewrite UpdateProduct_customers. Qed.

(** ** Listing *)
Lemma cut_at_limit {T} (limit : nat) (cursorOf : T → string) (l : list T) :
  limit ≠ 0 →
  (if (Z.of_nat limit <? len l)%Z then
     rs ← slice_to l (Z.of_nat limit);
     x ← index rs (Z.of_nat limit - 1);
     Ok (mkPage (Some (cursorOf x)) rs)
   else Ok (mkPage None l)) = cutPage (Z.of_nat limit) cursorOf l.
Proof.
  intros Hlim. unfold cutPage. destruct (Z.ltb_spec (Z.of_nat limit) (len l)); [|done].
  rewrite slice_to_ok by lia. cbn [mbind outcome_bind].
  by replace (len (take (Z.to_nat (Z.of_nat limit)) l)) with (Z.of_nat limit)
    by (unfold len in *; rewrite length_take; lia).
Qed.

Lemma customer_names_NoDup s : wf s → NoDup ((λ c, did_String (Customer c)) <$> customers s).
Proof.
  intros Hwf. pose proof (NoDup_fmap_2 did_String _ Hwf) as Hnd. by rewrite <-list_fmap_compose in Hnd.
Qed.
Lemma customers_List_Pages (limit : nat) s :
  limit ≠ 0 → wf s →
  Pages (λ cfg, List s {| cfgCursor := cfgCursor cfg; cfgLimit := Some (Z.of_nat limit) |})
    None (customers s).
Proof.
  intros Hlim Hwf.
  eapply Pages_ext; [|apply (resumeWithin_Pages (λ c, did_String (Customer c)) _ limit);
    [done|by apply customer_names_NoDup]].
  intros c. unfold List. cbn [cfgCursor cfgLimit default from_option id].
  destruct (resumeWithin _ _ _) as [rs|e| |]; cbn [mbind outcome_bind]; [|done..].
  by rewrite cut_at_limit.
Qed.

(** A cursor that names the last customer starts over. *)
Lemma List_last_cursor s c rest limit :
  wf s → customers s = rest ++ [c] →
  List s {| cfgCursor := Some (did_String (Customer c)); cfgLimit := limit |} =
  List s {| cfgCursor := None; cfgLimit := limit |}.
Proof.
  intros Hwf%customer_names_NoDup Hs. unfold List. cbn [cfgCursor cfgLimit].
  rewrite Hs in *. by rewrite (resumeWithin_last (λ c, did_String (Customer c))).
Qed.
End Customer.
End Customer.
Arguments Customer.Record_ {_} Val : assert.
Arguments Customer.Store {_} Val : assert.

(** ** [pkg/billing/service.go] *)
Definition ErrMissingPaymentPlan : error :=
  Named "MissingPaymentPlan" "account does not have a payment plan".

Module Billing.
Section Billing.
Context `{Ids} {Val : Type}.
Definition PaymentPlan (customerStore : Customer.Store Val) (account : DID) : outcome DID :=
  match Customer.Get customerStore account with
  | Ok r => Ok (Customer.Product r)
  | Err err =>
      if Is err ErrCustomerNotFound then Err ErrMissingPaymentPlan
      else Err (Wrap "getting customer" err)
  | Panic => Panic
  | Diverge => Diverge
  end.
End Billing.
End Billing.
