(* ===== verification/Provisioning.v ===== *)
(** * Provisioning: [pkg/provisioning/service.go]

    Which services hold a space. Provisioning adds a subscription and a consumer
    record. The subscription ID hashes the space's DID with the DAG-CBOR codec
    and the CID library, which are a parameter. *)
From S2P Require Export Consumer Subscription Customer.

Definition ErrProviderNotAllowed : error := Named "ProviderNotAllowed" "provider not allowed".

(** The CBOR encoding of a one-entry map, and [cid.Prefix.Sum] of its bytes. *)
Class SubscriptionHash `{Ids} := {
  MarshalCBOR : string → string → outcome string;
  Prefix_Sum : string → outcome Cid;
}.

Module Provisioning.
Section Provisioning.
Context `{Ids} `{!SubscriptionHash}.

Record State := { consumerStore : Consumer.Store; subscriptionStore : Subscription.Store }.
Definition New : State :=
  {| consumerStore := Consumer.New; subscriptionStore := Subscription.New |}.

Definition GetConsumer (s : State) (provider space : DID) : outcome Consumer.Record_ :=
  Consumer.Get (consumerStore s) provider space.
Definition GetSubscription (s : State) (provider : DID) (subscription : string)
    : outcome Subscription.Record_ :=
  Subscription.Get (subscriptionStore s) provider subscription.

(** The inner loop: the providers of a page not seen before. *)
Fixpoint addProviders (recs : list Consumer.Record_) (providers : list DID) (seen : gset DID)
    : list DID * gset DID :=
  match recs with
  | [] => (providers, seen)
  | rec :: recs =>
      if bool_decide (Consumer.Provider rec ∈ seen) then addProviders recs providers seen
      else addProviders recs (providers ++ [Consumer.Provider rec])
             ({[ Consumer.Provider rec ]} ∪ seen)
  end.
Fixpoint listServiceProvidersLoop (fuel : nat) (s : State) (space : DID)
    (page : Page Consumer.Record_) (providers : list DID) (seen : gset DID)
    : outcome (list DID) :=
  match fuel with
  | O => Diverge
  | S fuel =>
      let '(providers, seen) := addProviders (Results page) providers seen in
      match Cursor page with
      | None => Ok providers
      | Some c =>
          page ← Consumer.List (consumerStore s) space (WithListCursor c noOptions);
          listServiceProvidersLoop fuel s space page providers seen
      end
  end.
Definition ListServiceProviders (fuel : nat) (s : State) (space : DID) : outcome (list DID) :=
  page ← Consumer.List (consumerStore s) space noOptions;
  listServiceProvidersLoop fuel s space page [] ∅.

Definition NewSubscriptionID (consumer : DID) : outcome string :=
  buf ← MarshalCBOR "consumer" (did_String consumer);
  c ← Prefix_Sum buf;
  Ok (cid_String c).

Definition onSubscriptions {A} (m : M Subscription.Store A) : M State A := λ s,
  let '(r, st) := m (subscriptionStore s) in
  (r, {| consumerStore := consumerStore s; subscriptionStore := st |}).
Definition onConsumers {A} (m : M Consumer.Store A) : M State A := λ s,
  let '(r, st) := m (consumerStore s) in
  (r, {| consumerStore := st; subscriptionStore := subscriptionStore s |}).

(** [Provision], over whatever keeps the subscriptions and the consumers. *)
Definition provisionWith {S} (addSubscription : DID → string → DID → Cid → M S unit)
    (addConsumer : DID → DID → DID → string → Cid → M S unit)
    (providers : list DID) (customer consumer provider : DID) (cause : Cid) : M S string :=
  if negb (containsFunc (λ p, bool_decide (did_String p = did_String provider)) providers)
  then fail ErrProviderNotAllowed
  else
    subscriptionID ← wrap "creating subscription ID" (reads (λ _, NewSubscriptionID consumer));
    added ← try (addSubscription provider subscriptionID customer cause);
    _ ← match added with
        | inl _ => mret tt
        | inr err =>
            if negb (Is err ErrSubscriptionExists) then fail (Wrap "adding subscription" err)
            else mret tt
        end;
    _ ← wrap "adding consumer" (addConsumer provider consumer customer subscriptionID cause);
    mret subscriptionID.
Definition Provision : list DID → DID → DID → DID → Cid → M State string :=
  provisionWith (λ p id c cause, onSubscriptions (Subscription.Add p id c cause))
    (λ p sp c id cause, onConsumers (Consumer.Add p sp c id cause)).

Record wf (s : State) : Prop := {
  wf_consumers : Consumer.wf (consumerStore s);
  wf_subscriptions : Subscription.wf (subscriptionStore s);
}.
Lemma provisioning_wf_New : wf New.
Proof. split; [apply Consumer.consumers_wf_New|apply Subscription.subs_wf_New]. Qed.

(** The services a space is provisioned with, as the records name them. *)
Definition provisioned (s : State) (space : DID) : list DID :=
  Consumer.Provider <$> Consumer.records (consumerStore s) space.

Lemma allowed_iff providers provider :
  containsFunc (λ p, bool_decide (did_String p = did_String provider)) providers = true ↔
  provider ∈ providers.
Proof.
  rewrite containsFunc_true. split.
  - by intros (p & Hin & ->%bool_decide_eq_true%(inj did_String)).
  - intros Hin. exists provider. split; [done|]. by apply bool_decide_eq_true.
Qed.

(** [Provision] with its subscription ID in hand. *)
Lemma Provision_unfold providers customer consumer provider cause id s :
  provider ∈ providers → NewSubscriptionID consumer = Ok id →
  Provision providers customer consumer provider cause s =
  let st := (Subscription.Add provider id customer cause (subscriptionStore s)).2 in
  match Consumer.Add provider consumer customer id cause (consumerStore s) with
  | (Ok _, cs) => (Ok id, {| consumerStore := cs; subscriptionStore := st |})
  | (Err e, cs) => (Err (Wrap "adding consumer" e), {| consumerStore := cs; subscriptionStore := st |})
  | (Panic, cs) => (Panic, {| consumerStore := cs; subscriptionStore := st |})
  | (Diverge, cs) => (Diverge, {| consumerStore := cs; subscriptionStore := st |})
  end.
Proof.
  intros Hp%allowed_iff Hid. unfold Provision, provisionWith. rewrite Hp. cbn [negb].
  unfold mbind, M_bind, wrap, reads. rewrite Hid. unfold try, onSubscriptions, onConsumers.
  pose proof (Subscription.Add_result provider id customer cause (subscriptionStore s)) as Hr.
  destruct (Subscription.Add provider id customer cause (subscriptionStore s)) as [r st].
  cbn [fst snd] in *. subst r.
  destruct (Subscription.records (subscriptionStore s) provider !! id);
    rewrite ?Is_refl; cbn [negb mret M_ret consumerStore subscriptionStore];
    unfold mret, M_ret;
    by destruct (Consumer.Add provider consumer customer id cause (consumerStore s)) as [[] cs].
Qed.

Lemma wf_Provision providers customer consumer provider cause s :
  wf s → wf (Provision providers customer consumer provider cause s).2.
Proof.
  intros [Hc Hs].
  destruct (decide (provider ∈ providers)) as [Hp|Hp].
  - destruct (NewSubscriptionID consumer) as [id|e| |] eqn:Hid.
    + rewrite (Provision_unfold _ _ _ _ _ id) by done.
      pose proof (Consumer.consumers_wf_Add provider consumer customer id cause _ Hc) as Hca.
      pose proof (Subscription.subs_wf_Add provider id customer cause _ Hs) as Hsa.
      cbv zeta. by destruct (Consumer.Add _ _ _ _ _ _) as [[] cs]; split.
    + unfold Provision, provisionWith. rewrite (proj2 (allowed_iff _ _) Hp).
      unfold mbind, M_bind, wrap, reads. cbn [negb]. rewrite Hid. by split.
    + unfold Provision, provisionWith. rewrite (proj2 (allowed_iff _ _) Hp).
      unfold mbind, M_bind, wrap, reads. cbn [negb]. rewrite Hid. by split.
    + unfold Provision, provisionWith. rewrite (proj2 (allowed_iff _ _) Hp).
      unfold mbind, M_bind, wrap, reads. cbn [negb]. rewrite Hid. by split.
  - unfold Provision, provisionWith. destruct (containsFunc _ _) eqn:E; [by apply allowed_iff in E|by split].
Qed.

(** ** The providers of a space *)
Lemma addProviders_spec recs providers seen :
  NoDup providers → (∀ p, p ∈ seen ↔ p ∈ providers) →
  let '(providers', seen') := addProviders recs providers seen in
  NoDup providers' ∧ (∀ p, p ∈ seen' ↔ p ∈ providers') ∧
  (∀ p, p ∈ providers' ↔ p ∈ providers ∨ p ∈ Consumer.Provider <$> recs).
Proof.
  revert providers seen. induction recs as [|r recs IH]; intros providers seen Hnd Hseen; simpl.
  { split_and!; [done..|]. intros p. rewrite elem_of_nil. tauto. }
  case_bool_decide as Hin.
  - specialize (IH providers seen Hnd Hseen).
    destruct (addProviders recs providers seen) as [ps' seen'].
    destruct IH as (? & ? & Hel). split_and!; [done..|]. intros p.
    rewrite Hel, elem_of_cons. apply Hseen in Hin. split; [tauto|]. intros [?|[->|?]]; auto.
  - specialize (IH (providers ++ [Consumer.Provider r]) ({[Consumer.Provider r]} ∪ seen)).
    destruct (addProviders recs _ _) as [ps' seen'].
    destruct IH as (? & ? & Hel).
    + apply NoDup_app. split_and!; [done| |apply NoDup_singleton].
      intros p Hp ->%list_elem_of_singleton. by apply Hin, Hseen.
    + intros p. rewrite elem_of_union, elem_of_singleton, elem_of_app, list_elem_of_singleton, Hseen.
      tauto.
    + split_and!; [done..|]. intros p.
      rewrite Hel, elem_of_cons, elem_of_app, list_elem_of_singleton. tauto.
Qed.

Lemma listServiceProvidersLoop_spec s space cur l :
  Pages (Consumer.List (consumerStore s) space) cur l →
  ∀ fuel page providers seen,
  Consumer.List (consumerStore s) space {| cfgCursor := cur; cfgLimit := None |} = Ok page →
  length l < fuel → NoDup providers → (∀ p, p ∈ seen ↔ p ∈ providers) →
  ∃ ps, listServiceProvidersLoop fuel s space page providers seen = Ok ps ∧ NoDup ps ∧
  ∀ p, p ∈ ps ↔ p ∈ providers ∨ p ∈ Consumer.Provider <$> l.
Proof.
  induction 1 as [cur rs Hget|cur c rs rest Hget Hne Hp IH];
    intros [|fuel] page providers seen Hpage Hf Hnd Hseen; try lia;
    rewrite Hget in Hpage; injection Hpage as <-; cbn [listServiceProvidersLoop Results Cursor].
  - pose proof (addProviders_spec rs providers seen Hnd Hseen) as Ha.
    destruct (addProviders rs providers seen) as [ps seen']. destruct Ha as (? & ? & ?). eauto.
  - pose proof (addProviders_spec rs providers seen Hnd Hseen) as Ha.
    destruct (addProviders rs providers seen) as [ps seen']. destruct Ha as (Hnd' & Hseen' & Hel).
    assert (∃ page, Consumer.List (consumerStore s) space (WithListCursor c noOptions) = Ok page)
      as (page & Hpage) by by inversion Hp; subst; eexists.
    rewrite Hpage. cbn [mbind outcome_bind].
    destruct (IH fuel page ps seen' Hpage) as (ps' & Hps & ? & Hel'); [|done..|].
    { rewrite length_app in Hf. destruct rs; [done|]. simpl in Hf. lia. }
    exists ps'. split_and!; [done..|]. intros p. rewrite Hel', Hel, fmap_app, elem_of_app. tauto.
Qed.

Lemma ListServiceProviders_lists (s : State) (space : DID) (fuel : nat) :
  wf s → (len (Consumer.records (consumerStore s) space) ≤ max_int64)%Z →
  length (Consumer.records (consumerStore s) space) < fuel →
  ∃ ps, ListServiceProviders fuel s space = Ok ps ∧ NoDup ps ∧
  ∀ p, p ∈ ps ↔ p ∈ provisioned s space.
Proof.
  intros [Hwf _] Hlen Hf.
  pose proof (Consumer.consumers_List_Pages (consumerStore s) space Hwf Hlen) as Hp.
  assert (∃ page, Consumer.List (consumerStore s) space noOptions = Ok page) as (page & Hpage)
    by by inversion Hp; subst; eexists.
  unfold ListServiceProviders. rewrite Hpage. cbn [mbind outcome_bind].
  destruct (listServiceProvidersLoop_spec s space None _ Hp fuel page [] ∅ Hpage Hf)
    as (ps & Hps & Hnd & Hel); [constructor| |].
  { intros p. by rewrite elem_of_empty, elem_of_nil. }
  exists ps. split_and!; [done..|]. intros p. rewrite Hel, elem_of_nil. unfold provisioned. tauto.
Qed.

(** [ListServiceProviders] pages through the whole listing and returns each
    service that holds the space once, and no other. *)
Theorem ListServiceProviders_spec (s : State) (space : DID) (fuel : nat) :
  wf s → (len (Consumer.records (consumerStore s) space) ≤ max_int64)%Z →
  length (Consumer.records (consumerStore s) space) < fuel →
  ∃ ps, ListServiceProviders fuel s space = Ok ps ∧ NoDup ps ∧
  ∀ p, p ∈ ps ↔ p ∈ provisioned s space.
Proof. apply ListServiceProviders_lists. Qed.

Lemma Provision_outcomes (providers : list DID) (customer consumer provider : DID) (cause : Cid)
    (id : string) (s : State) :
  wf s → NewSubscriptionID consumer = Ok id →
  let '(r, s') := Provision providers customer consumer provider cause s in
  (provider ∉ providers → r = Err ErrProviderNotAllowed ∧ s' = s) ∧
  (provider ∈ providers →
   (provider, customer, id) ∈ Consumer.key <$> Consumer.records (consumerStore s) consumer →
   r = Err (Wrap "adding consumer" ErrConsumerExists) ∧ consumerStore s' = consumerStore s) ∧
  (provider ∈ providers →
   (provider, customer, id) ∉ Consumer.key <$> Consumer.records (consumerStore s) consumer →
   r = Ok id ∧ provisioned s' consumer = provisioned s consumer ++ [provider] ∧
   (∀ space, space ≠ consumer → provisioned s' space = provisioned s space) ∧
   ∃ sub, GetSubscription s' provider id = Ok sub).
Proof.
  intros [Hc Hs] Hid. destruct (decide (provider ∈ providers)) as [Hp|Hp].
  - rewrite (Provision_unfold _ _ _ _ _ id) by done. cbv zeta.
    destruct (decide ((provider, customer, id) ∈
      Consumer.key <$> Consumer.records (consumerStore s) consumer)) as [Hk|Hk].
    + rewrite Consumer.Add_again by done. done.
    + rewrite Consumer.Add_fresh by done. split_and!; [done|done|].
      intros _ _. unfold provisioned. cbn [consumerStore]. split_and!.
      * done.
      * by rewrite Consumer.consumers_records_insert, decide_True, fmap_app.
      * intros space Hne. by rewrite Consumer.consumers_records_insert, decide_False.
      * unfold GetSubscription. cbn [subscriptionStore].
        rewrite Subscription.Get_records, Subscription.records_Add.
        destruct (Subscription.records (subscriptionStore s) provider !! id) as [sub|] eqn:E.
        -- rewrite decide_False by (intros [_ ?]; done). rewrite E. eauto.
        -- rewrite decide_True by done. rewrite lookup_insert_eq. eauto.
  - unfold Provision, provisionWith. destruct (containsFunc _ _) eqn:E; [by apply allowed_iff in E|done].
Qed.

(** Every branch of [Provision]: a provider that is not allowed changes
    nothing; one that already serves the space for that customer under that
    subscription is refused as existing and the consumers stay; otherwise the
    space is provisioned with the provider, every other space's records are
    kept, and the subscription it names is stored. *)
Theorem Provision_spec (providers : list DID) (customer consumer provider : DID) (cause : Cid)
    (id : string) (s : State) :
  wf s → NewSubscriptionID consumer = Ok id →
  let '(r, s') := Provision providers customer consumer provider cause s in
  (provider ∉ providers → r = Err ErrProviderNotAllowed ∧ s' = s) ∧
  (provider ∈ providers →
   (provider, customer, id) ∈ Consumer.key <$> Consumer.records (consumerStore s) consumer →
   r = Err (Wrap "adding consumer" ErrConsumerExists) ∧ consumerStore s' = consumerStore s) ∧
  (provider ∈ providers →
   (provider, customer, id) ∉ Consumer.key <$> Consumer.records (consumerStore s) consumer →
   r = Ok id ∧ provisioned s' consumer = provisioned s consumer ++ [provider] ∧
   (∀ space, space ≠ consumer → provisioned s' space = provisioned s space) ∧
   ∃ sub, GetSubscription s' provider id = Ok sub).
Proof. apply Provision_outcomes. Qed.

(** A second account can provision a space that another already has: the
    call succeeds with the same subscription ID, the subscription goes on
    naming the first account, and [GetConsumer] goes on answering with the
    first account's record. *)
Theorem Provision_second_account (providers : list DID) (c1 c2 consumer provider : DID)
    (cause cause' : Cid) (id : string) :
  provider ∈ providers → c1 ≠ c2 → NewSubscriptionID consumer = Ok id →
  let s1 := (Provision providers c1 consumer provider cause New).2 in
  ∃ s2, Provision providers c2 consumer provider cause' s1 = (Ok id, s2) ∧
  GetSubscription s2 provider id = GetSubscription s1 provider id ∧
  Subscription.Customer <$> GetSubscription s2 provider id = Ok c1 ∧
  Consumer.Customer <$> GetConsumer s2 provider consumer = Ok c1 ∧
  length (Consumer.records (consumerStore s2) consumer) = 2.
Proof.
  intros Hp Hne Hid. cbv zeta.
  rewrite (Provision_unfold _ c1 _ _ _ id) by done. cbv zeta. cbn [New consumerStore subscriptionStore].
  rewrite Consumer.Add_fresh; [|apply Consumer.consumers_wf_New|].
  2: { unfold Consumer.records, Consumer.New. simpl. rewrite lookup_empty. apply not_elem_of_nil. }
  cbn [snd]. set (s1 := {| consumerStore := _; subscriptionStore := _ |}).
  assert (Consumer.records (consumerStore s1) consumer =
    [{| Consumer.Provider := provider; Consumer.Consumer := consumer; Consumer.Customer := c1;
        Consumer.Subscription := id; Consumer.Cause := cause |}]) as Hrec.
  { subst s1. cbn [consumerStore]. rewrite Consumer.consumers_records_insert, decide_True by done.
    unfold Consumer.records, Consumer.New. simpl. by rewrite lookup_empty. }
  assert (wf s1) as [Hwc _].
  { split; [|apply Subscription.subs_wf_Add, Subscription.subs_wf_New]. intros space.
    subst s1. cbn [consumerStore]. rewrite Consumer.consumers_records_insert.
    case_decide; [subst|apply Consumer.consumers_wf_New].
    unfold Consumer.records, Consumer.New. simpl. rewrite lookup_empty. simpl.
    split; [by apply Forall_singleton|apply NoDup_singleton]. }
  assert (Subscription.records (subscriptionStore s1) provider !! id =
    Some {| Subscription.Provider := provider; Subscription.Subscription := id;
            Subscription.Customer := c1; Subscription.Cause := cause;
            Subscription.InsertedAt := zeroTime |}) as Hsub.
  { subst s1. cbn [subscriptionStore]. rewrite Subscription.records_Add, decide_True.
    - by rewrite lookup_insert_eq.
    - split; [done|]. unfold Subscription.records, Subscription.New. simpl. by rewrite lookup_empty. }
  rewrite (Provision_unfold _ c2 _ _ _ id) by done. cbv zeta.
  rewrite Consumer.Add_fresh; [|done|].
  2: { rewrite Hrec. intros [= ->]%list_elem_of_singleton. done. }
  eexists. split; [done|]. unfold GetSubscription, GetConsumer. cbn [consumerStore subscriptionStore].
  rewrite !Subscription.Get_records, Subscription.records_Add.
  rewrite decide_False by (intros [_ ?]; congruence). rewrite Hsub.
  split_and!; [done|done| |].
  - unfold Consumer.Get. rewrite Consumer.consumers_records_insert, decide_True, Hrec by done. simpl.
    by rewrite !bool_decide_eq_true_2.
  - by rewrite Consumer.consumers_records_insert, decide_True, Hrec.
Qed.
End Provisioning.
End Provisioning.

(** ** Witnesses *)
Section Witnesses.
#[local] Existing Instance StrIds.
(** A hash that keeps what it hashes. *)
Definition StrHash : SubscriptionHash := {|
  MarshalCBOR k v := Ok (k +:+ ":" +:+ v);
  Prefix_Sum s := Ok s;
|}.
#[local] Existing Instance StrHash.

Definition exampleState : Provisioning.State :=
  (Provisioning.Provision [str_did "p"] (str_did "a") (str_did "s") (str_did "p") (str_cid "c")
     Provisioning.New).2.
Lemma exampleState_wf : Provisioning.wf exampleState.
Proof. apply Provisioning.wf_Provision, Provisioning.provisioning_wf_New. Qed.

Lemma ListServiceProviders_spec_witness :
  ∃ ps, Provisioning.ListServiceProviders 2 exampleState (str_did "s") = Ok ps ∧ NoDup ps.
Proof.
  destruct (Provisioning.ListServiceProviders_spec exampleState (str_did "s") 2)
    as (ps & Hps & Hnd & _).
  - apply exampleState_wf.
  - vm_compute. discriminate.
  - vm_compute. lia.
  - exists ps. split; [exact Hps|exact Hnd].
Defined.

Lemma Provision_spec_witness :
  (Provisioning.Provision [str_did "p"] (str_did "a") (str_did "s") (str_did "q") (str_cid "c")
     exampleState) = (Err ErrProviderNotAllowed, exampleState).
Proof.
  pose proof (Provisioning.Provision_spec [str_did "p"] (str_did "a") (str_did "s") (str_did "q")
    (str_cid "c") _ exampleState exampleState_wf eq_refl) as Hp.
  destruct (Provisioning.Provision _ _ _ _ _ exampleState) as [r s'].
  destruct Hp as [Hn _]. destruct Hn as [-> ->]; [|reflexivity].
  intros Hin%list_elem_of_singleton. discriminate.
Defined.

Lemma Provision_second_account_witness :
  ∃ s2, Provisioning.Provision [str_did "p"] (str_did "b") (str_did "s") (str_did "p") (str_cid "d")
    exampleState = (Ok "consumer:s", s2).
Proof.
  destruct (Provisioning.Provision_second_account [str_did "p"] (str_did "a") (str_did "b")
    (str_did "s") (str_did "p") (str_cid "c") (str_cid "d") "consumer:s") as (s2 & Hs & _).
  - left.
  - discriminate.
  - reflexivity.
  - exists s2. exact Hs.
Defined.
End Witnesses.
