(* ===== verification/Replica.v ===== *)
(** * Replicas and revocations: [pkg/store/replica] and [pkg/store/revocation]

    The memory backends of [pkg/store/replica/memory/store.go] and
    [pkg/store/revocation/memory/store.go]. The slice [List] of the replica store
    hands out is the stored one, which [Retry] and [SetStatus] change in place;
    the model returns its contents at the time of the call. *)
From S2P Require Export Ids.

Definition ErrReplicaExists : error := Named "ReplicaExists" "replica already exists".
Definition ErrReplicaNotFound : error := Named "ReplicaNotFound" "replica not found".

Module Replica.
Inductive ReplicationStatus := Allocated | Transferred | Failed.
#[export] Instance ReplicationStatus_eq_dec : EqDecision ReplicationStatus.
Proof. solve_decision. Defined.
Definition status_String (s : ReplicationStatus) : string :=
  match s with
  | Allocated => "allocated"
  | Transferred => "transferred"
  | Failed => "failed"
  end.

Section Replica.
Context `{Ids}.
Record Record_ := {
  Space : DID;
  Digest : Multihash;
  Provider : DID;
  Status : ReplicationStatus;
  Cause : Cid;
  CreatedAt : Z;
  UpdatedAt : Z;
}.
(** space DID -> blob digest -> replica records *)
Record Store := { replicas : gmap DID (gmap Multihash (list Record_)) }.
Definition New : Store := {| replicas := ∅ |}.

Definition List (s : Store) (space : DID) (digest : Multihash) : list Record_ :=
  default [] (replicas s !! space ≫= lookup digest).
Definition put (space : DID) (digest : Multihash) (rs : list Record_) (s : Store) : Store :=
  {| replicas := <[space := <[digest := rs]> (default ∅ (replicas s !! space))]> (replicas s) |}.
(** The space's map is created before the search, whatever it finds. *)
Definition touch (space : DID) (s : Store) : Store :=
  {| replicas := <[space := default ∅ (replicas s !! space)]> (replicas s) |}.

Definition names (space : DID) (digest : Multihash) (provider : DID) (r : Record_) : bool :=
  bool_decide (Space r = space) && bool_decide (Digest r = digest) &&
  bool_decide (Provider r = provider).
Definition providerLe (a b : Record_) : Prop :=
  String.le (did_String (Provider a)) (did_String (Provider b)).
#[export] Instance providerLe_dec : RelDecision providerLe.
Proof. intros a b. unfold providerLe. apply _. Defined.

Definition Add (space : DID) (digest : Multihash) (provider : DID) (status : ReplicationStatus)
    (cause : Cid) (now : Z) (s : Store) : outcome unit * Store :=
  let s := touch space s in
  let rs := List s space digest in
  if containsFunc (names space digest provider) rs then (Err ErrReplicaExists, s)
  else
    let r := {| Space := space; Digest := digest; Provider := provider; Status := status;
                Cause := cause; CreatedAt := now; UpdatedAt := zeroTime |} in
    (Ok tt, put space digest (sortFunc providerLe (rs ++ [r])) s).

Definition Retry (space : DID) (digest : Multihash) (provider : DID)
    (status : ReplicationStatus) (cause : Cid) (now : Z) (s : Store) : outcome unit * Store :=
  let s := touch space s in
  let rs := List s space digest in
  match indexFunc (names space digest provider) rs with
  | Some i =>
      (Ok tt, put space digest (alter (λ r,
         {| Space := Space r; Digest := Digest r; Provider := Provider r; Status := status;
            Cause := cause; CreatedAt := CreatedAt r; UpdatedAt := now |}) i rs) s)
  | None => (Err ErrReplicaNotFound, s)
  end.

Definition SetStatus (space : DID) (digest : Multihash) (provider : DID)
    (status : ReplicationStatus) (now : Z) (s : Store) : outcome unit * Store :=
  let s := touch space s in
  let rs := List s space digest in
  match indexFunc (names space digest provider) rs with
  | Some i =>
      (Ok tt, put space digest (alter (λ r,
         {| Space := Space r; Digest := Digest r; Provider := Provider r; Status := status;
            Cause := Cause r; CreatedAt := CreatedAt r; UpdatedAt := now |}) i rs) s)
  | None => (Err ErrReplicaNotFound, s)
  end.

(** ** One replica per provider, filed under its own space and digest *)
Definition wf (s : Store) : Prop := ∀ space digest,
  Forall (λ r, Space r = space ∧ Digest r = digest) (List s space digest) ∧
  NoDup (Provider <$> List s space digest).

Lemma List_touch space s space' digest' :
  List (touch space s) space' digest' = List s space' digest'.
Proof.
  unfold List, touch. simpl. destruct (decide (space' = space)) as [->|Hne].
  - rewrite lookup_insert_eq. simpl. by destruct (replicas s !! space).
  - by rewrite lookup_insert_ne.
Qed.
Lemma List_put space digest rs s space' digest' :
  List (put space digest rs s) space' digest' =
  if decide (space' = space ∧ digest' = digest) then rs else List s space' digest'.
Proof.
  unfold List, put. simpl. destruct (decide (space' = space)) as [->|Hne].
  - rewrite lookup_insert_eq. simpl. destruct (decide (digest' = digest)) as [->|Hd].
    + by rewrite lookup_insert_eq, decide_True.
    + rewrite lookup_insert_ne, decide_False by (done || by intros [_ ?]).
      by destruct (replicas s !! space).
  - rewrite lookup_insert_ne, decide_False; [done| |done]. by intros [? _].
Qed.
Lemma names_true space digest provider r :
  names space digest provider r = true ↔ (Space r = space ∧ Digest r = digest) ∧ Provider r = provider.
Proof. unfold names. rewrite !andb_true_iff, !bool_decide_eq_true. tauto. Qed.

Lemma wf_touch space s : wf s → wf (touch space s).
Proof. intros Hwf sp d. rewrite List_touch. apply Hwf. Qed.
Lemma wf_put space digest rs s :
  wf s → Forall (λ r, Space r = space ∧ Digest r = digest) rs → NoDup (Provider <$> rs) →
  wf (put space digest rs s).
Proof.
  intros Hwf Hf Hnd sp d. rewrite List_put. case_decide as Hd; [|apply Hwf].
  destruct Hd as [-> ->]. done.
Qed.
Lemma replicas_wf_New : wf New.
Proof. intros sp d. unfold List, New. simpl. rewrite lookup_empty. simpl. split; constructor. Qed.

Lemma replicas_wf_Add space digest provider status cause now s :
  wf s → wf (Add space digest provider status cause now s).2.
Proof.
  intros Hwf. unfold Add. cbv zeta. rewrite List_touch.
  destruct (containsFunc _ _) eqn:E; [by apply wf_touch|]. cbn [snd].
  destruct (Hwf space digest) as [Hf Hnd]. unfold sortFunc.
  apply wf_put; [by apply wf_touch|rewrite merge_sort_Permutation..].
  - apply Forall_app. split; [done|]. by apply Forall_singleton.
  - rewrite fmap_app. apply NoDup_app. split_and!; [done| |apply NoDup_singleton].
    intros p (r & -> & Hin)%list_elem_of_fmap Heq%list_elem_of_singleton.
    apply not_true_iff_false in E. apply E, containsFunc_true. exists r. split; [done|].
    apply names_true. rewrite Forall_forall in Hf. split; [by apply Hf|done].
Qed.
Lemma wf_alter space digest (f : Record_ → Record_) i s :
  wf s → (∀ r, Space (f r) = Space r ∧ Digest (f r) = Digest r ∧ Provider (f r) = Provider r) →
  wf (put space digest (alter f i (List s space digest)) s).
Proof.
  intros Hwf Hf. destruct (Hwf space digest) as [Hall Hnd]. apply wf_put; [done| |].
  - apply Forall_forall. intros r Hin. apply list_elem_of_lookup in Hin as [j Hj].
    rewrite list_lookup_alter in Hj. rewrite Forall_forall in Hall.
    case_decide; subst.
    + apply fmap_Some in Hj as (r' & Hr' & ->). destruct (Hf r') as (-> & -> & _).
      apply Hall. by eapply list_elem_of_lookup_2.
    + apply Hall. by eapply list_elem_of_lookup_2.
  - assert (Provider <$> alter f i (List s space digest) = Provider <$> List s space digest) as ->;
      [|done].
    apply list_eq. intros j. rewrite !list_lookup_fmap, list_lookup_alter.
    case_decide; subst; [|done]. destruct (List s space digest !! j) as [r|]; [|done].
    simpl. by destruct (Hf r) as (_ & _ & ->).
Qed.
Lemma wf_Retry space digest provider status cause now s :
  wf s → wf (Retry space digest provider status cause now s).2.
Proof.
  intros Hwf. unfold Retry. cbv zeta.
  destruct (indexFunc _ _); [|by apply wf_touch]. apply wf_alter; [by apply wf_touch|done].
Qed.
Lemma wf_SetStatus space digest provider status now s :
  wf s → wf (SetStatus space digest provider status now s).2.
Proof.
  intros Hwf. unfold SetStatus. cbv zeta.
  destruct (indexFunc _ _); [|by apply wf_touch]. apply wf_alter; [by apply wf_touch|done].
Qed.

(** The record of one replica. *)
Definition lookupReplica (s : Store) (space : DID) (digest : Multihash) (provider : DID)
    : option Record_ := findFunc (names space digest provider) (List s space digest).
End Replica.
End Replica.

Module Revocation.
Section Revocation.
Context `{Ids}.
(** delegation CID -> scope DID -> cause CID *)
Record Store := { revocations : gmap Cid (gmap DID Cid) }.
Definition New : Store := {| revocations := ∅ |}.

Definition Add (delegation : Cid) (scope : DID) (cause : Cid) (s : Store)
    : outcome unit * Store :=
  let m := default ∅ (revocations s !! delegation) in
  match m !! scope with
  | Some _ => (Ok tt, {| revocations := <[delegation := m]> (revocations s) |})
  | None => (Ok tt, {| revocations := <[delegation := <[scope := cause]> m]> (revocations s) |})
  end.

Fixpoint findLoop (s : Store) (delegations : list Cid) (result : gmap Cid (gmap DID Cid))
    : gmap Cid (gmap DID Cid) :=
  match delegations with
  | [] => result
  | delegation :: delegations =>
      match revocations s !! delegation with
      | Some m => findLoop s delegations (<[delegation := m]> result)
      | None => findLoop s delegations result
      end
  end.
Definition Find (s : Store) (delegations : list Cid) : gmap Cid (gmap DID Cid) :=
  findLoop s delegations ∅.

Definition Reset (delegation : Cid) (scope : DID) (cause : Cid) (s : Store)
    : outcome unit * Store :=
  (Ok tt, {| revocations := <[delegation := {[ scope := cause ]}]> (revocations s) |}).

(** The revocation of a delegation by an authority. *)
Definition revoked (s : Store) (delegation : Cid) (scope : DID) : option Cid :=
  revocations s !! delegation ≫= lookup scope.

Lemma revoked_Add d scope cause s d' scope' :
  revoked (Add d scope cause s).2 d' scope' =
  if decide (d' = d ∧ scope' = scope ∧ revoked s d scope = None) then Some cause
  else revoked s d' scope'.
Proof.
  unfold revoked, Add.
  assert (default ∅ (revocations s !! d) !! scope = (revocations s !! d ≫= lookup scope)) as Hm.
  { destruct (revocations s !! d); simpl; [done|]. by rewrite lookup_empty. }
  rewrite Hm. destruct (decide (d' = d)) as [->|Hne].
  - destruct (revocations s !! d ≫= lookup scope) as [c|] eqn:E; cbn [snd revocations].
    + rewrite lookup_insert_eq, decide_False by (intros (_ & _ & ?); done). simpl.
      destruct (revocations s !! d); [done|]. simpl in *. done.
    + rewrite lookup_insert_eq. simpl. destruct (decide (scope' = scope)) as [->|Hs].
      * by rewrite lookup_insert_eq, decide_True.
      * rewrite lookup_insert_ne, decide_False; [|by intros (_ & ? & _)|done].
        destruct (revocations s !! d); simpl; [done|]. by rewrite lookup_empty.
  - rewrite decide_False by (intros [? _]; done).
    destruct (revocations s !! d ≫= lookup scope); cbn [snd revocations];
      by rewrite lookup_insert_ne.
Qed.
Lemma Find_lookup s delegations d :
  Find s delegations !! d = if decide (d ∈ delegations) then revocations s !! d else None.
Proof.
  unfold Find. assert (∀ result, findLoop s delegations result !! d =
    if decide (d ∈ delegations) then
      match revocations s !! d with Some m => Some m | None => result !! d end
    else result !! d) as Hl.
  { induction delegations as [|e ds IH]; intros result; cbn [findLoop].
    { rewrite decide_False; [done|]. apply not_elem_of_nil. }
    destruct (revocations s !! e) as [m|] eqn:E; rewrite IH.
    - destruct (decide (d = e)) as [->|Hne].
      + rewrite (decide_True (P := e ∈ e :: ds)) by left. rewrite E. case_decide; [done|].
        by rewrite lookup_insert_eq.
      + rewrite lookup_insert_ne by done. destruct (decide (d ∈ ds)).
        * rewrite decide_True by by right. done.
        * rewrite decide_False by by intros [?|?]%elem_of_cons. done.
    - destruct (decide (d ∈ ds)).
      + rewrite decide_True by by right. done.
      + destruct (decide (d = e)) as [->|Hne].
        * rewrite decide_True by left. by rewrite E.
        * rewrite decide_False by by intros [?|?]%elem_of_cons. done. }
  rewrite Hl, lookup_empty. by destruct (revocations s !! d).
Qed.
End Revocation.
End Revocation.
