(* ===== verification/Ucan.v ===== *)
(** * UCANs

    Invocations, receipts, delegations and the containers they travel in come
    from ucantone, which is not part of the repository. The service reads them
    through accessors; the laws are the documented ones it relies on: a token is
    known by its link, and a container holds the tokens it was built from. *)
From Stdlib Require Import Ascii.
From S2P Require Export Ids.

Class Ucan `{Ids} `{Containers} := {
  (** [ucan.Invocation] *)
  Invocation : Type;
  Invocation_eq_dec :: EqDecision Invocation;
  inv_Link : Invocation → Cid;
  inv_Link_inj :: Inj (=) (=) inv_Link;
  (** [Task().Link()]: shared by invocations that differ in issuer or expiry *)
  inv_Task : Invocation → Cid;
  inv_Issuer : Invocation → DID;
  inv_Subject : Invocation → DID;
  inv_Audience : Invocation → DID;
  inv_Command : Invocation → string;
  inv_ArgumentsBytes : Invocation → string;
  inv_Nonce : Invocation → string;
  inv_Proofs : Invocation → list Cid;
  (** [ucan.Receipt]; the result is the encoded success or failure *)
  Receipt : Type;
  Receipt_eq_dec :: EqDecision Receipt;
  rcpt_Link : Receipt → Cid;
  rcpt_Link_inj :: Inj (=) (=) rcpt_Link;
  rcpt_Ran : Receipt → Cid;
  rcpt_Out : Receipt → string + string;
  (** [ucan.Delegation] *)
  Delegation : Type;
  Delegation_eq_dec :: EqDecision Delegation;
  dlg_Link : Delegation → Cid;
  dlg_Link_inj :: Inj (=) (=) dlg_Link;
  dlg_Audience : Delegation → DID;
  dlg_Subject : Delegation → DID;
  (** [container.New], the accessors, and whether a container is already what
      [container.New] makes: the interface has other implementations *)
  ct_concrete : Container → bool;
  container_New : list Invocation → list Receipt → list Delegation → Container;
  ct_Invocations : Container → list Invocation;
  ct_Receipts : Container → list Receipt;
  ct_Delegations : Container → list Delegation;
  ct_Receipt : Container → Cid → option Receipt;
  ct_Delegation : Container → Cid → option Delegation;
  ct_New_Invocations invs rcpts dlgs inv :
    inv ∈ ct_Invocations (container_New invs rcpts dlgs) ↔ inv ∈ invs;
  ct_New_Receipts invs rcpts dlgs rcpt :
    rcpt ∈ ct_Receipts (container_New invs rcpts dlgs) ↔ rcpt ∈ rcpts;
  ct_New_Delegations invs rcpts dlgs dlg :
    dlg ∈ ct_Delegations (container_New invs rcpts dlgs) ↔ dlg ∈ dlgs;
  ct_Receipt_Some c task rcpt :
    ct_Receipt c task = Some rcpt → rcpt ∈ ct_Receipts c ∧ rcpt_Ran rcpt = task;
  ct_Receipt_None c task :
    ct_Receipt c task = None → ∀ rcpt, rcpt ∈ ct_Receipts c → rcpt_Ran rcpt ≠ task;
  (** the CBOR encoding of a container, hashed to its CID *)
  container_MarshalCBOR : Container → outcome string;
  message_Sum : string → outcome Cid;
}.

(** [Out().IsErr()]. *)
Definition IsErr `{Ucan} (rcpt : Receipt) : bool :=
  match rcpt_Out rcpt with inl _ => false | inr _ => true end.

(** ** Fields packed as text: each field ends with a comma, and a comma or a
    backslash inside one stands behind a backslash *)
Definition comma : ascii := ",".
Definition backslash : ascii := "\".
Definition special (c : ascii) : bool := bool_decide (c = comma ∨ c = backslash).
Fixpoint packField (f rest : string) : string :=
  match f with
  | "" => String comma rest
  | String c f =>
      if special c then String backslash (String c (packField f rest))
      else String c (packField f rest)
  end.
Definition pack (fields : list string) : string := foldr packField "" fields.
Fixpoint unpackFrom (acc s : string) : list string :=
  match s with
  | "" => []
  | String c s =>
      if bool_decide (c = backslash) then
        match s with
        | "" => []
        | String c s => unpackFrom (acc +:+ String c "") s
        end
      else if bool_decide (c = comma) then acc :: unpackFrom "" s
      else unpackFrom (acc +:+ String c "") s
  end.
Definition unpack (s : string) : list string := unpackFrom "" s.

Lemma unpackFrom_packField acc f rest :
  unpackFrom acc (packField f rest) = (acc +:+ f) :: unpackFrom "" rest.
Proof.
  revert acc. induction f as [|c f IH]; intros acc; cbn [packField].
  { cbn [unpackFrom]. by rewrite string_app_empty_r. }
  unfold special. case_bool_decide as Hs; cbn [unpackFrom].
  - rewrite bool_decide_eq_true_2 by done. rewrite IH. by rewrite <-string_app_assoc.
  - rewrite !bool_decide_eq_false_2 by tauto. rewrite IH. by rewrite <-string_app_assoc.
Qed.
Lemma unpack_pack fields : unpack (pack fields) = fields.
Proof.
  induction fields as [|f fields IH]; [done|]. unfold unpack, pack in *. cbn [foldr].
  by rewrite unpackFrom_packField, IH.
Qed.
#[export] Instance pack_inj : Inj (=) (=) pack.
Proof. intros l l' Hl. by rewrite <-(unpack_pack l), Hl, unpack_pack. Qed.

(** ** A concrete family of tokens

    Tokens as records, told apart by every field, in containers that are three
    lists; a link is the fields it stands for. *)
Record token := {
  t_task : string; t_issuer : string; t_subject : string; t_audience : string;
  t_command : string; t_args : string; t_nonce : string;
}.
#[export] Instance token_eq_dec : EqDecision token.
Proof. solve_decision. Defined.
Definition tokenLink (t : token) : string :=
  pack [t_task t; t_issuer t; t_subject t; t_audience t; t_command t; t_args t; t_nonce t].
#[export] Instance tokenLink_inj : Inj (=) (=) tokenLink.
Proof. intros [] [] Hl. apply (inj pack) in Hl. cbn in Hl. congruence. Qed.

(** The link of a token sent as a delegation is not that of one sent as an
    invocation. *)
Definition dlgLink (t : token) : string :=
  pack [t_task t; t_issuer t; t_subject t; t_audience t; t_command t; t_args t; t_nonce t; "delegation"].
#[export] Instance dlgLink_inj : Inj (=) (=) dlgLink.
Proof. intros [] [] Hl. apply (inj pack) in Hl. cbn in Hl. congruence. Qed.
Lemma token_dlgLink a b : tokenLink a ≠ dlgLink b.
Proof. intros Hl. apply (inj pack) in Hl. discriminate Hl. Qed.

Record rtoken := { rt_ran : string; rt_out : string + string }.
#[export] Instance rtoken_eq_dec : EqDecision rtoken.
Proof. solve_decision. Defined.
Definition rtokenLink (r : rtoken) : string :=
  pack (rt_ran r :: match rt_out r with inl o => ["ok"; o] | inr x => ["err"; x] end).
#[export] Instance rtokenLink_inj : Inj (=) (=) rtokenLink.
Proof. intros [? []] [? []] Hl; apply (inj pack) in Hl; cbn in Hl; congruence. Qed.

Record rcontainer := {
  rc_invs : list token; rc_rcpts : list rtoken; rc_dlgs : list token;
}.
#[export] Instance rcontainer_eq_dec : EqDecision rcontainer.
Proof. solve_decision. Defined.
Definition containerLink (c : rcontainer) : string :=
  pack [pack (tokenLink <$> rc_invs c); pack (rtokenLink <$> rc_rcpts c);
        pack (dlgLink <$> rc_dlgs c)].
#[export] Instance containerLink_inj : Inj (=) (=) containerLink.
Proof.
  intros [is1 rs1 ds1] [is2 rs2 ds2] Hl. apply (inj pack) in Hl. cbn in Hl.
  injection Hl as Hi Hr Hd. apply (inj pack), (inj (fmap tokenLink)) in Hi.
  apply (inj pack), (inj (fmap rtokenLink)) in Hr.
  apply (inj pack), (inj (fmap dlgLink)) in Hd. by subst.
Qed.

(** A container is read back from its link. *)
Definition readToken (s : string) : token :=
  match unpack s with
  | a :: b :: c :: d :: e :: f :: g :: _ =>
      {| t_task := a; t_issuer := b; t_subject := c; t_audience := d; t_command := e; t_args := f; t_nonce := g |}
  | _ => {| t_task := ""; t_issuer := ""; t_subject := ""; t_audience := ""; t_command := ""; t_args := ""; t_nonce := "" |}
  end.
Definition readReceipt (s : string) : rtoken :=
  match unpack s with
  | [ran; tag; o] => {| rt_ran := ran; rt_out := if bool_decide (tag = "ok") then inl o else inr o |}
  | _ => {| rt_ran := ""; rt_out := inl "" |}
  end.
Definition readContainer (s : string) : outcome rcontainer :=
  match unpack s with
  | [i; r; d] => Ok ({| rc_invs := readToken <$> unpack i; rc_rcpts := readReceipt <$> unpack r;
                        rc_dlgs := readToken <$> unpack d |})
  | _ => Err (Errorf "container")
  end.
Lemma readToken_tokenLink t : readToken (tokenLink t) = t.
Proof. unfold readToken, tokenLink. rewrite unpack_pack. by destruct t. Qed.
Lemma readToken_dlgLink t : readToken (dlgLink t) = t.
Proof. unfold readToken, dlgLink. rewrite unpack_pack. by destruct t. Qed.
Lemma readReceipt_link r : readReceipt (rtokenLink r) = r.
Proof. unfold readReceipt, rtokenLink. rewrite unpack_pack. by destruct r as [ran [o|x]]. Qed.
Lemma map_read {A B} (f : A → B) (g : B → A) (l : list A) : (∀ x, g (f x) = x) → g <$> (f <$> l) = l.
Proof. intros Hg. induction l as [|x l IH]; [done|]. rewrite !fmap_cons. by rewrite IH, Hg. Qed.
Lemma readContainer_link (c : rcontainer) : readContainer (containerLink c) = Ok c.
Proof.
  unfold readContainer, containerLink. rewrite unpack_pack, !unpack_pack.
  rewrite (map_read _ _ _ readToken_tokenLink), (map_read _ _ _ readReceipt_link), (map_read _ _ _ readToken_dlgLink).
  by destruct c.
Qed.

(** Texts of two lower-case letters per byte, which a URL carries as they are. *)
Definition letterOf (n : N) : ascii := ascii_of_N (97 + n).
Definition ofLetter (c : ascii) : N := N_of_ascii c - 97.
Fixpoint letters (s : string) : string :=
  match s with
  | "" => ""
  | String c s => String (letterOf (N_of_ascii c / 16)) (String (letterOf (N_of_ascii c `mod` 16)) (letters s))
  end.
Fixpoint unletters (s : string) : string :=
  match s with
  | String a (String b s) => String (ascii_of_N (16 * ofLetter a + ofLetter b)) (unletters s)
  | _ => ""
  end.
Lemma unletters_letters s : unletters (letters s) = s.
Proof.
  induction s as [|c s IH]; [done|]. cbn [letters unletters]. rewrite IH. f_equal.
  destruct c as [[] [] [] [] [] [] [] []]; reflexivity.
Qed.

Definition RecContainers : Containers := {| Container := rcontainer |}.
Lemma rec_receipt_Some (rcpts : list rtoken) task r :
  findFunc (λ r, bool_decide (rt_ran r = task)) rcpts = Some r → r ∈ rcpts ∧ rt_ran r = task.
Proof. intros [Hin Hb]%findFunc_Some. by apply bool_decide_eq_true in Hb. Qed.
Lemma rec_receipt_None (rcpts : list rtoken) task :
  findFunc (λ r, bool_decide (rt_ran r = task)) rcpts = None →
  ∀ r, r ∈ rcpts → rt_ran r ≠ task.
Proof. intros Hn r Hin. rewrite findFunc_None in Hn. by apply Hn, bool_decide_eq_false in Hin. Qed.

Definition RecUcan : @Ucan StrIds RecContainers := {|
  Invocation := token; inv_Link := (tokenLink : token → @Cid StrIds);
  inv_Link_inj := tokenLink_inj;
  inv_Task := (t_task : token → @Cid StrIds);
  inv_Issuer := (t_issuer : token → @DID StrIds);
  inv_Subject := (t_subject : token → @DID StrIds);
  inv_Audience := (t_audience : token → @DID StrIds);
  inv_Command := t_command; inv_ArgumentsBytes := t_args; inv_Nonce := t_nonce;
  inv_Proofs _ := [];
  Receipt := rtoken; rcpt_Link := (rtokenLink : rtoken → @Cid StrIds);
  rcpt_Link_inj := rtokenLink_inj;
  rcpt_Ran := (rt_ran : rtoken → @Cid StrIds); rcpt_Out := rt_out;
  Delegation := token; dlg_Link := (dlgLink : token → @Cid StrIds);
  dlg_Link_inj := dlgLink_inj;
  dlg_Audience := (t_audience : token → @DID StrIds);
  dlg_Subject := (t_subject : token → @DID StrIds);
  ct_concrete _ := true;
  container_New invs rcpts dlgs :=
    {| rc_invs := invs; rc_rcpts := rcpts; rc_dlgs := dlgs |} : @Container RecContainers;
  ct_Invocations := (rc_invs : @Container RecContainers → _);
  ct_Receipts := (rc_rcpts : @Container RecContainers → _);
  ct_Delegations := (rc_dlgs : @Container RecContainers → _);
  ct_Receipt c task := findFunc (λ r, bool_decide (rt_ran r = task)) (rc_rcpts c);
  ct_Delegation c link := findFunc (λ d, bool_decide (dlgLink d = link)) (rc_dlgs c);
  ct_New_Invocations _ _ _ _ := iff_refl _;
  ct_New_Receipts _ _ _ _ := iff_refl _;
  ct_New_Delegations _ _ _ _ := iff_refl _;
  ct_Receipt_Some c := rec_receipt_Some (rc_rcpts c);
  ct_Receipt_None c := rec_receipt_None (rc_rcpts c);
  container_MarshalCBOR c := Ok (containerLink c);
  message_Sum s := Ok (s : @Cid StrIds);
|}.
