(* ===== verification/Agent.v ===== *)
(** * Agent messages: [pkg/store/agent]

    The messages the service received and sent, found again by the task their
    invocations and receipts belong to. The memory store keeps each message
    under its CID and an index from a task's keys to the messages it occurs in. *)
From S2P Require Export Store Ucan.

Definition ErrInvocationNotFound : error := Named "InvocationNotFound" "invocation not found".
Definition ErrReceiptNotFound : error := Named "ReceiptNotFound" "receipt not found".

Module Agent.
Section Agent.
Context `{Ucan}.

Record InvocationSource := { is_Task : Cid; is_Invocation : Invocation }.
Record ReceiptSource := { rs_Task : Cid; rs_Receipt : Receipt }.
Record IndexEntry := {
  ie_Invocation : option InvocationSource;
  ie_Receipt : option ReceiptSource;
}.

(** [Index] of [index.go]: an entry per invocation, then one per receipt. *)
Definition Index (message : Container) : list IndexEntry :=
  ((λ inv, {| ie_Invocation := Some {| is_Task := inv_Task inv; is_Invocation := inv |};
              ie_Receipt := None |}) <$> ct_Invocations message) ++
  ((λ rcpt, {| ie_Invocation := None;
               ie_Receipt := Some {| rs_Task := rcpt_Ran rcpt; rs_Receipt := rcpt |} |})
     <$> ct_Receipts message).

Record Store := {
  store : gmap Cid Container;
  index_ : gmap string (list Cid);
}.
Definition New : Store := {| store := ∅; index_ := ∅ |}.

Definition invocationKey (task : Cid) : string := "/" +:+ cid_String task +:+ "/invocation/".
Definition receiptKey (task : Cid) : string := "/" +:+ cid_String task +:+ "/receipt/".
(** A Go map read: the zero value of an absent key is the empty slice. *)
Definition links (s : Store) (key : string) : list Cid := default [] (index_ s !! key).

Definition ofTask (task : Cid) (inv : Invocation) : bool := bool_decide (inv_Task inv = task).

(** [invocation]; a method called on the nil container of an absent link panics. *)
Definition invocation (s : Store) (task : Cid) : outcome (option Invocation) :=
  match links s (invocationKey task) with
  | [] => Ok None
  | at' :: _ =>
      match store s !! at' with
      | Some ct => Ok (findFunc (ofTask task) (ct_Invocations ct))
      | None => Panic
      end
  end.

Definition GetInvocation (s : Store) (task : Cid) : outcome Invocation :=
  inv ← invocation s task;
  match inv with
  | Some inv => Ok inv
  | None => Err ErrInvocationNotFound
  end.

Fixpoint getInvocationsLoop (s : Store) (tasks : list Cid) (found : gmap Cid Invocation)
    : outcome (gmap Cid Invocation) :=
  match tasks with
  | [] => Ok found
  | task :: tasks =>
      if bool_decide (is_Some (found !! task)) then getInvocationsLoop s tasks found
      else
        inv ← invocation s task;
        match inv with
        | Some inv => getInvocationsLoop s tasks (<[task := inv]> found)
        | None => getInvocationsLoop s tasks found
        end
  end.
Definition GetInvocations (s : Store) (tasks : list Cid) : outcome (gmap Cid Invocation) :=
  getInvocationsLoop s tasks ∅.

Definition GetReceipt (s : Store) (task : Cid) : outcome Receipt :=
  match links s (receiptKey task) with
  | [] => Err ErrReceiptNotFound
  | at' :: _ =>
      match store s !! at' with
      | Some ct =>
          match ct_Receipt ct task with
          | Some rcpt => Ok rcpt
          | None => Err ErrReceiptNotFound
          end
      | None => Panic
      end
  end.

(** The CID a message is stored under. *)
Definition messageLink (message : Container) : outcome Cid :=
  let c := if ct_concrete message then message
           else container_New (ct_Invocations message) (ct_Receipts message)
                  (ct_Delegations message) in
  buf ← owrap "marshaling agent message to CBOR" (container_MarshalCBOR c);
  owrap "hashing agent message" (message_Sum buf).

(** [s.index[key] = append(s.index[key], at)]. *)
Definition addLink (key : string) (at' : Cid) (ix : gmap string (list Cid))
    : gmap string (list Cid) :=
  <[key := default [] (ix !! key) ++ [at']]> ix.
Definition indexEntry (at' : Cid) (ix : gmap string (list Cid)) (e : IndexEntry)
    : gmap string (list Cid) :=
  let ix := match ie_Invocation e with
            | Some src => addLink (invocationKey (is_Task src)) at' ix
            | None => ix
            end in
  match ie_Receipt e with
  | Some src => addLink (receiptKey (rs_Task src)) at' ix
  | None => ix
  end.

Definition Write (message : Container) (entries : list IndexEntry) : M Store unit := λ s,
  match messageLink message with
  | Ok at' =>
      (Ok (), {| store := <[at' := message]> (store s);
                 index_ := foldl (indexEntry at') (index_ s) entries |})
  | Err e => (Err e, s)
  | Panic => (Panic, s)
  | Diverge => (Diverge, s)
  end.

Definition linkLe (a b : Cid) : Prop := String.le (cid_Bytes a) (cid_Bytes b).
#[export] Instance linkLe_dec : RelDecision linkLe.
Proof. intros a b. unfold linkLe. apply _. Defined.

Definition msgLinks (s : Store) (task : Cid) : list Cid :=
  sortFunc linkLe (links s (invocationKey task) ++ links s (receiptKey task)).

(** [List]; a link without a message would be served as a nil container. *)
Definition List (s : Store) (task : Cid) (cfg : PaginationConfig)
    : outcome (Page (option Container)) :=
  let all := msgLinks s task in
  resultLinks ←
    match cfgCursor cfg with
    | Some c =>
        match indexFunc (λ l, bool_decide (cid_String l = c)) all with
        | None => Err (Errorf ("invalid cursor: " +:+ c))
        | Some i => slice_from all (Z.of_nat i + 1)
        end
    | None => Ok all
    end;
  resultLinks ←
    match cfgLimit cfg with
    | Some limit => if (limit <? len resultLinks)%Z then slice_to resultLinks limit
                    else Ok resultLinks
    | None => Ok resultLinks
    end;
  cursor ←
    match resultLinks with
    | [] => Ok None
    | _ :: _ =>
        r ← index resultLinks (len resultLinks - 1);
        m ← index all (len all - 1);
        Ok (if bool_decide (r = m) then None else Some (cid_String r))
    end;
  Ok (mkPage cursor ((λ l, store s !! l) <$> resultLinks)).

(** ** The index *)
#[export] Instance invocationKey_inj : Inj (=) (=) invocationKey.
Proof.
  intros a b Hk. unfold invocationKey in Hk. apply (inj (String.append "/")) in Hk.
  apply string_app_cancel_r in Hk. by apply (inj cid_String).
Qed.
#[export] Instance receiptKey_inj : Inj (=) (=) receiptKey.
Proof.
  intros a b Hk. unfold receiptKey in Hk. apply (inj (String.append "/")) in Hk.
  apply string_app_cancel_r in Hk. by apply (inj cid_String).
Qed.
Lemma keys_differ a b : invocationKey a ≠ receiptKey b.
Proof.
  unfold invocationKey, receiptKey. intros Hk. apply (inj (String.append "/")) in Hk.
  pose proof (string_app_end _ _ _ _ Hk 7) as Hc.
  specialize (Hc ltac:(simpl; lia) ltac:(simpl; lia)). vm_compute in Hc. congruence.
Qed.

(** The keys an entry is indexed under. *)
Definition entryKeys (e : IndexEntry) : list string :=
  match ie_Invocation e with Some src => [invocationKey (is_Task src)] | None => [] end ++
  match ie_Receipt e with Some src => [receiptKey (rs_Task src)] | None => [] end.

Lemma addLink_lookup key at' ix k :
  default [] (addLink key at' ix !! k) =
  default [] (ix !! k) ++ (if decide (key = k) then [at'] else []).
Proof.
  unfold addLink. destruct (decide (key = k)) as [->|Hne].
  - by rewrite lookup_insert_eq.
  - by rewrite lookup_insert_ne, app_nil_r.
Qed.
Lemma indexEntry_lookup at' ix e k :
  default [] (indexEntry at' ix e !! k) =
  default [] (ix !! k) ++ replicate (length (filter (.= k) (entryKeys e))) at'.
Proof.
  unfold indexEntry, entryKeys. destruct (ie_Invocation e), (ie_Receipt e); simpl.
  all: rewrite ?addLink_lookup, ?filter_cons, ?filter_nil; repeat case_decide; simpl.
  all: by rewrite ?app_nil_r, <-?app_assoc.
Qed.
Lemma indexEntries_lookup at' entries ix k :
  default [] (foldl (indexEntry at') ix entries !! k) =
  default [] (ix !! k) ++ replicate (length (filter (.= k) (entries ≫= entryKeys))) at'.
Proof.
  revert ix. induction entries as [|e entries IH]; intros ix.
  { simpl. by rewrite app_nil_r. }
  cbn [foldl]. rewrite IH, indexEntry_lookup, bind_cons, filter_app, length_app.
  by rewrite replicate_add, app_assoc.
Qed.

(** How many of a message's tokens have a key. *)
Definition occurrences (key : string) (message : Container) : nat :=
  length (filter (.= key) (Index message ≫= entryKeys)).
Lemma Index_keys message :
  Index message ≫= entryKeys =
  ((λ inv, invocationKey (inv_Task inv)) <$> ct_Invocations message) ++
  ((λ rcpt, receiptKey (rcpt_Ran rcpt)) <$> ct_Receipts message).
Proof.
  unfold Index. rewrite bind_app. f_equal.
  - induction (ct_Invocations message) as [|inv l IH]; [done|]. simpl. by f_equal.
  - induction (ct_Receipts message) as [|r l IH]; [done|]. simpl. by f_equal.
Qed.
Lemma occurs message key :
  occurrences key message = 0 ↔ key ∉ Index message ≫= entryKeys.
Proof.
  unfold occurrences. split.
  - intros Hz Hin. apply nil_length_inv in Hz.
    assert (key ∈ filter (.= key) (Index message ≫= entryKeys)) as Hf
      by by apply list_elem_of_filter.
    rewrite Hz in Hf. by apply elem_of_nil in Hf.
  - intros Hnin. rewrite filter_none; [done|]. apply Forall_forall. by intros k Hk ->.
Qed.
Lemma occurs_invocation message task :
  occurrences (invocationKey task) message = 0 ↔
  ∀ inv, inv ∈ ct_Invocations message → inv_Task inv ≠ task.
Proof.
  rewrite occurs, Index_keys, not_elem_of_app, !list_elem_of_fmap. split.
  - intros [Hn _] inv Hin <-. apply Hn. by exists inv.
  - intros Hn. split.
    + intros (inv & Hk%(inj invocationKey) & Hin). by apply (Hn inv).
    + intros (rcpt & Hk & _). by apply (keys_differ _ _ Hk).
Qed.
Lemma occurs_receipt message task :
  occurrences (receiptKey task) message = 0 ↔
  ∀ rcpt, rcpt ∈ ct_Receipts message → rcpt_Ran rcpt ≠ task.
Proof.
  rewrite occurs, Index_keys, not_elem_of_app, !list_elem_of_fmap. split.
  - intros [_ Hn] rcpt Hin <-. apply Hn. by exists rcpt.
  - intros Hn. split.
    + intros (inv & Hk & _). by apply (keys_differ _ _ (eq_sym Hk)).
    + intros (rcpt & Hk%(inj receiptKey) & Hin). by apply (Hn rcpt).
Qed.

(** ** What the store answers after a sequence of writes *)
Definition storable (message : Container) : Prop := ∃ c, messageLink message = Ok c.
#[export] Instance storable_dec message : Decision (storable message).
Proof.
  unfold storable. destruct (messageLink message) as [c|e| |] eqn:E.
  - left. by exists c.
  - right. by intros [? [=]].
  - right. by intros [? [=]].
  - right. by intros [? [=]].
Defined.

(** Messages written one after the other, each with its own index. *)
Definition writes (ms : list Container) : Store :=
  foldl (λ s m, (Write m (Index m) s).2) New ms.
(** CIDs are content addresses: different messages have different ones. *)
Definition addressed (ms : list Container) : Prop := ∀ m m' c,
  m ∈ ms → m' ∈ ms → messageLink m = Ok c → messageLink m' = Ok c → m = m'.

Lemma writes_snoc ms m : writes (ms ++ [m]) = (Write m (Index m) (writes ms)).2.
Proof. unfold writes. by rewrite foldl_app. Qed.

Lemma Write_stored m entries s c :
  messageLink m = Ok c →
  Write m entries s = (Ok (), {| store := <[c := m]> (store s);
                                 index_ := foldl (indexEntry c) (index_ s) entries |}).
Proof. intros Hc. unfold Write. by rewrite Hc. Qed.
Lemma Write_unstorable m entries s : ¬ storable m → (Write m entries s).2 = s.
Proof.
  unfold Write, storable. intros Hn. destruct (messageLink m) as [c|e| |]; [|done..].
  exfalso. apply Hn. by exists c.
Qed.

(** The first link under a key is that of the first stored message with the key. *)
Lemma writes_links ms key :
  addressed ms →
  match findFunc (λ m, negb (occurrences key m =? 0)) (filter storable ms) with
  | Some m => ∃ c l, links (writes ms) key = c :: l ∧ messageLink m = Ok c ∧
                     store (writes ms) !! c = Some m
  | None => links (writes ms) key = []
  end.
Proof.
  induction ms as [|m ms IH] using rev_ind; intros Ha; [done|].
  assert (addressed ms) as Ha' by (intros a b c Hin Hin'; apply Ha; set_solver).
  specialize (IH Ha'). rewrite writes_snoc, filter_app, findFunc_app.
  rewrite filter_cons, filter_nil. case_decide as Hst.
  2: { rewrite Write_unstorable by done. simpl. by destruct (findFunc _ _). }
  destruct Hst as [c Hc]. rewrite (Write_stored _ _ _ c) by done.
  unfold links. cbn [snd store index_]. rewrite indexEntries_lookup.
  fold (occurrences key m). fold (links (writes ms) key).
  destruct (findFunc _ (filter storable ms)) as [m0|] eqn:Ef.
  - destruct IH as (c0 & l & Hl & Hc0 & Hs). rewrite Hl.
    eexists c0, _. split_and!; [done..|].
    destruct (decide (c = c0)) as [<-|Hne]; [|by rewrite lookup_insert_ne].
    rewrite lookup_insert_eq. f_equal. apply findFunc_Some in Ef as [Hin _].
    apply list_elem_of_filter in Hin as [_ Hin].
    apply (Ha m m0 c); [set_solver|set_solver|done..].
  - rewrite IH. cbn [findFunc app]. destruct (occurrences key m) as [|n]; [done|].
    cbn [Nat.eqb negb replicate]. eexists c, _. split_and!; [done..|].
    by rewrite lookup_insert_eq.
Qed.

Lemma occurs_invocation_find task m :
  negb (occurrences (invocationKey task) m =? 0) =
  bool_decide (is_Some (findFunc (ofTask task) (ct_Invocations m))).
Proof.
  destruct (findFunc _ _) as [inv|] eqn:Ef.
  - rewrite bool_decide_eq_true_2 by by eexists. apply findFunc_Some in Ef as [Hin Ht].
    apply bool_decide_eq_true in Ht.
    destruct (Nat.eqb_spec (occurrences (invocationKey task) m) 0) as [Hz|]; [|done].
    exfalso. by apply (proj1 (occurs_invocation _ _) Hz inv).
  - rewrite bool_decide_eq_false_2 by by apply eq_None_not_Some.
    assert (occurrences (invocationKey task) m = 0) as ->; [|done].
    apply occurs_invocation. intros inv Hin. rewrite findFunc_None in Ef.
    by apply Ef, bool_decide_eq_false in Hin.
Qed.

(** The first invocation of a task in a sequence of messages. *)
Definition firstInvocation (ms : list Container) (task : Cid) : option Invocation :=
  findFunc (ofTask task) (ms ≫= ct_Invocations).
Lemma firstInvocation_find ms task :
  firstInvocation ms task =
  match findFunc (λ m, negb (occurrences (invocationKey task) m =? 0)) ms with
  | Some m => findFunc (ofTask task) (ct_Invocations m)
  | None => None
  end.
Proof.
  unfold firstInvocation. induction ms as [|m ms IH]; [done|].
  rewrite bind_cons, findFunc_app. cbn [findFunc]. rewrite occurs_invocation_find, IH.
  destruct (findFunc (ofTask task) (ct_Invocations m)) as [inv|] eqn:Ef.
  - rewrite bool_decide_eq_true_2 by by eexists. by rewrite Ef.
  - by rewrite bool_decide_eq_false_2 by by apply eq_None_not_Some.
Qed.

Lemma invocation_writes ms task :
  addressed ms →
  invocation (writes ms) task = Ok (firstInvocation (filter storable ms) task).
Proof.
  intros Ha. pose proof (writes_links ms (invocationKey task) Ha) as Hl.
  rewrite firstInvocation_find. unfold invocation. destruct (findFunc _ _) as [m|].
  - destruct Hl as (c & l & -> & _ & ->). done.
  - by rewrite Hl.
Qed.

Lemma getInvocationsLoop_writes ms tasks found :
  addressed ms →
  (∀ task inv, found !! task = Some inv → firstInvocation (filter storable ms) task = Some inv) →
  ∃ found', getInvocationsLoop (writes ms) tasks found = Ok found' ∧
    ∀ task, found' !! task =
      if bool_decide (task ∈ tasks) then firstInvocation (filter storable ms) task
      else found !! task.
Proof.
  intros Ha. revert found. induction tasks as [|t tasks IH]; intros found Hf.
  { exists found. split; [done|]. intros task.
    by rewrite bool_decide_eq_false_2 by apply not_elem_of_nil. }
  assert (∀ (found' : gmap Cid Invocation) task,
    (∀ task', found' !! task' = if decide (task' = t) then firstInvocation (filter storable ms) t
                                else found !! task') →
    (if bool_decide (task ∈ tasks) then firstInvocation (filter storable ms) task
     else found' !! task) =
    (if bool_decide (task ∈ t :: tasks) then firstInvocation (filter storable ms) task
     else found !! task)) as Hstep.
  { intros found' task Hf'. rewrite Hf'. repeat case_bool_decide; repeat case_decide; set_solver. }
  cbn [getInvocationsLoop]. case_bool_decide as Hs.
  - destruct (IH found Hf) as (found' & -> & Hall). exists found'. split; [done|].
    intros task. rewrite Hall. apply Hstep. intros task'. case_decide as Ht; [|done].
    subst task'. destruct Hs as [inv Hs]. rewrite Hs. symmetry. by apply Hf.
  - rewrite invocation_writes by done. cbn [mbind outcome_bind].
    destruct (firstInvocation (filter storable ms) t) as [inv|] eqn:Ei.
    + destruct (IH (<[t := inv]> found)) as (found' & -> & Hall).
      { intros task inv' [[<- <-]|[_ Hl]]%lookup_insert_Some; [done|by apply Hf]. }
      exists found'. split; [done|]. intros task. rewrite Hall. apply Hstep.
      intros task'. case_decide as Ht; [subst; by rewrite lookup_insert_eq|].
      by rewrite lookup_insert_ne.
    + destruct (IH found Hf) as (found' & -> & Hall). exists found'. split; [done|].
      intros task. rewrite Hall. apply Hstep. intros task'. case_decide as Ht; [|done].
      subst task'. rewrite <-eq_None_not_Some in Hs. done.
Qed.

(** Every indexed link has its message: what keeps the lookups from reading a nil
    container. *)
Definition sound (s : Store) : Prop := ∀ key l, l ∈ links s key → is_Some (store s !! l).
Lemma sound_New : sound New.
Proof. intros key l Hl. unfold links, New in Hl. cbn in Hl. by apply elem_of_nil in Hl. Qed.
Lemma sound_Write m entries s : sound s → sound (Write m entries s).2.
Proof.
  intros Hs. unfold Write. destruct (messageLink m) as [c|e| |]; [|done..]. intros key l.
  unfold links. cbn [snd store index_]. rewrite indexEntries_lookup. fold (links s key).
  destruct (decide (c = l)) as [->|Hne]; [rewrite lookup_insert_eq; eauto|].
  rewrite lookup_insert_ne by done. intros [Hin|[-> _]%elem_of_replicate]%elem_of_app; [|done].
  by apply (Hs key).
Qed.
Lemma GetReceipt_sound s task :
  sound s → (∃ rcpt, GetReceipt s task = Ok rcpt) ∨ GetReceipt s task = Err ErrReceiptNotFound.
Proof.
  intros Hs. unfold GetReceipt. specialize (Hs (receiptKey task)).
  destruct (links s (receiptKey task)) as [|l ls]; [by right|].
  destruct (Hs l) as [ct ->]; [left|]. destruct (ct_Receipt ct task); [left; eauto|by right].
Qed.
Lemma invocation_sound s task : sound s → ∃ inv, invocation s task = Ok inv.
Proof.
  intros Hs. unfold invocation. specialize (Hs (invocationKey task)).
  destruct (links s (invocationKey task)) as [|l ls]; [eauto|].
  destruct (Hs l) as [ct ->]; [left|eauto].
Qed.
Lemma GetInvocation_task s task inv : GetInvocation s task = Ok inv → inv_Task inv = task.
Proof.
  unfold GetInvocation, invocation. destruct (links _ _) as [|l ls]; [done|].
  destruct (store s !! l) as [ct|]; [|done]. cbn [mbind outcome_bind].
  destruct (findFunc _ _) as [i|] eqn:Ef; [|done]. intros [= <-].
  apply findFunc_Some in Ef as [_ Ht]. by apply bool_decide_eq_true in Ht.
Qed.
Lemma GetInvocations_elem s tasks found task inv :
  GetInvocations s tasks = Ok found → found !! task = Some inv → GetInvocation s task = Ok inv.
Proof.
  assert (∀ found found', getInvocationsLoop s tasks found = Ok found' →
    (∀ task inv, found !! task = Some inv → GetInvocation s task = Ok inv) →
    ∀ task inv, found' !! task = Some inv → GetInvocation s task = Ok inv) as Hloop.
  { induction tasks as [|t tasks IH]; intros f f'; cbn [getInvocationsLoop]; [by intros [= <-]|].
    case_bool_decide; [apply IH|]. destruct (invocation s t) as [[i|]|e| |] eqn:Ei; [| |done..];
      cbn [mbind outcome_bind]; [|apply IH].
    intros Hf Hall. apply (IH _ _ Hf). intros t' i' [[<- <-]|[_ Hl]]%lookup_insert_Some; [|by apply Hall].
    unfold GetInvocation. by rewrite Ei. }
  intros Hf. apply (Hloop _ _ Hf). intros t i. by rewrite lookup_empty.
Qed.
Lemma GetInvocations_sound s tasks : sound s → ∃ found, GetInvocations s tasks = Ok found.
Proof.
  intros Hs. unfold GetInvocations. generalize (∅ : gmap Cid Invocation).
  induction tasks as [|t tasks IH]; intros f; cbn [getInvocationsLoop]; [eauto|].
  case_bool_decide; [done|]. destruct (invocation_sound s t Hs) as [[i|] ->]; apply IH.
Qed.
Lemma GetInvocation_sound s task :
  sound s → (∃ inv, GetInvocation s task = Ok inv) ∨
            GetInvocation s task = Err ErrInvocationNotFound.
Proof.
  intros Hs. unfold GetInvocation. destruct (invocation_sound s task Hs) as [[inv|] ->]; eauto.
Qed.

(** The agent store finds what was written. After any sequence of messages,
    each indexed by [Index], [GetInvocation] answers the first invocation of the
    task in the order of the writes, and [ErrInvocationNotFound] exactly when no
    stored message has one; it never panics on a link without a message. *)
Theorem GetInvocation_spec (ms : list Container) (task : Cid) :
  addressed ms →
  GetInvocation (writes ms) task =
  match firstInvocation (filter storable ms) task with
  | Some inv => Ok inv
  | None => Err ErrInvocationNotFound
  end.
Proof.
  intros Ha. unfold GetInvocation. rewrite invocation_writes by done.
  cbn [mbind outcome_bind]. by destruct (firstInvocation _ _).
Qed.

(** [GetInvocations] is [GetInvocation] for each of the tasks: the map it
    returns holds the invocation of every task asked for that has one, and
    nothing else. *)
Theorem GetInvocations_spec (ms : list Container) (tasks : list Cid) :
  addressed ms →
  ∃ found, GetInvocations (writes ms) tasks = Ok found ∧
    ∀ task inv, found !! task = Some inv ↔
      task ∈ tasks ∧ GetInvocation (writes ms) task = Ok inv.
Proof.
  intros Ha. destruct (getInvocationsLoop_writes ms tasks ∅ Ha) as (found & Hg & Hall).
  { intros task inv Hl. by rewrite lookup_empty in Hl. }
  exists found. split; [done|]. intros task inv. rewrite Hall, lookup_empty.
  unfold GetInvocation. rewrite invocation_writes by done. cbn [mbind outcome_bind].
  case_bool_decide as Hin; destruct (firstInvocation _ _); naive_solver.
Qed.

(** [GetReceipt] answers a receipt for the task from the first stored message
    that has one, and [ErrReceiptNotFound] exactly when none has. *)
Theorem GetReceipt_spec (ms : list Container) (task : Cid) :
  addressed ms →
  (∃ m rcpt, findFunc (λ m, negb (occurrences (receiptKey task) m =? 0)) (filter storable ms) = Some m ∧
     GetReceipt (writes ms) task = Ok rcpt ∧ rcpt ∈ ct_Receipts m ∧ rcpt_Ran rcpt = task) ∨
  (GetReceipt (writes ms) task = Err ErrReceiptNotFound ∧
   ∀ m rcpt, m ∈ ms → storable m → rcpt ∈ ct_Receipts m → rcpt_Ran rcpt ≠ task).
Proof.
  intros Ha. pose proof (writes_links ms (receiptKey task) Ha) as Hl. unfold GetReceipt.
  destruct (findFunc _ _) as [m|] eqn:Ef.
  - left. destruct Hl as (c & l & -> & _ & ->). apply findFunc_Some in Ef as [_ Ho].
    destruct (ct_Receipt m task) as [rcpt|] eqn:Er.
    { exists m, rcpt. by apply ct_Receipt_Some in Er as [??]. }
    pose proof (ct_Receipt_None _ _ Er) as Hn. apply occurs_receipt in Hn. by rewrite Hn in Ho.
  - right. rewrite Hl. split; [done|]. intros m rcpt Hm Hs Hin.
    rewrite findFunc_None in Ef. assert (m ∈ filter storable ms) as Hf
      by by apply list_elem_of_filter.
    apply Ef in Hf. apply negb_false_iff, Nat.eqb_eq in Hf. by apply (proj1 (occurs_receipt _ _) Hf).
Qed.

(** A message in which a task occurs twice is listed twice, and its CID
    names the first of the two as a cursor: a caller that pages one message at a
    time is served that message again and again, and never sees those after it. *)
Theorem List_stalls (s : Store) (task c : Cid) (l : list Cid) (m : Container) :
  msgLinks s task = c :: c :: l →
  last l ≠ Some c → l ≠ [] →
  store s !! c = Some m →
  let page := mkPage (Some (cid_String c)) [Some m] in
  List s task {| cfgCursor := None; cfgLimit := Some 1%Z |} = Ok page ∧
  List s task {| cfgCursor := Some (cid_String c); cfgLimit := Some 1%Z |} = Ok page.
Proof.
  intros Hl Hlast Hne Hm page. destruct l as [|d l]; [done|].
  assert (index (c :: c :: d :: l) (len (c :: c :: d :: l) - 1) =
    match last (d :: l) with Some x => Ok x | None => Panic end) as Hidx by by rewrite index_last.
  unfold List. rewrite Hl. cbn [cfgCursor cfgLimit indexFunc].
  rewrite bool_decide_eq_true_2 by done.
  change (slice_from (c :: c :: d :: l) (Z.of_nat 0 + 1)) with
    (slice_from (c :: c :: d :: l) (Z.of_nat 1)).
  rewrite slice_from_ok by (simpl; lia). cbn [mbind outcome_bind drop].
  assert (∀ x y k, (1 <? len (x :: y :: k : list Cid))%Z = true) as Hlong
    by (intros; unfold len; simpl; apply Z.ltb_lt; lia).
  assert (∀ x y k, slice_to (x :: y :: k : list Cid) 1 = Ok [x]) as Hcut
    by (intros; rewrite slice_to_ok by (unfold len; simpl; lia); done).
  rewrite !Hlong, !Hcut. cbn [mbind outcome_bind].
  rewrite Hidx. change (index [c] (len [c] - 1)) with (Ok c). cbn [mbind outcome_bind].
  destruct (last (d :: l)) as [x|] eqn:El; [|by apply last_None in El].
  cbn [mbind outcome_bind]. rewrite bool_decide_eq_false_2 by congruence.
  cbn [fmap list_fmap]. by rewrite Hm.
Qed.

End Agent.
End Agent.

(** ** Witnesses *)
Section Witnesses.
#[local] Existing Instances StrIds RecContainers RecUcan.

Lemma rec_addressed (ms : list (@Container RecContainers)) : Agent.addressed ms.
Proof.
  intros m m' c _ _ [= <-] [= Hc]. symmetry. by apply (inj containerLink).
Qed.

Definition exampleInvocation : token := {|
  t_task := "t"; t_issuer := "i"; t_subject := "s"; t_audience := "a";
  t_command := "/blob/add"; t_args := ""; t_nonce := "n" |}.
Definition exampleReceipt : rtoken := {| rt_ran := "t"; rt_out := inl "ok" |}.
Definition exampleRequest : @Container RecContainers :=
  {| rc_invs := [exampleInvocation]; rc_rcpts := []; rc_dlgs := [] |}.
Definition exampleReply : @Container RecContainers :=
  {| rc_invs := []; rc_rcpts := [exampleReceipt]; rc_dlgs := [] |}.
Definition exampleConclude : @Container RecContainers :=
  {| rc_invs := [exampleInvocation]; rc_rcpts := [exampleReceipt]; rc_dlgs := [] |}.

Lemma GetInvocation_spec_witness :
  Agent.GetInvocation (Agent.writes [exampleReply; exampleRequest]) (str_cid "t") =
  Ok (exampleInvocation : @Invocation _ _ RecUcan).
Proof.
  etransitivity; [apply (Agent.GetInvocation_spec [exampleReply; exampleRequest]), rec_addressed|].
  reflexivity.
Defined.

Lemma GetInvocations_spec_witness :
  ∃ found, Agent.GetInvocations (Agent.writes [exampleRequest]) [str_cid "t"; str_cid "u"] =
    Ok found ∧ ∀ task inv, found !! task = Some inv ↔
      task ∈ [str_cid "t"; str_cid "u"] ∧
      Agent.GetInvocation (Agent.writes [exampleRequest]) task = Ok inv.
Proof. apply (Agent.GetInvocations_spec [exampleRequest]), rec_addressed. Defined.

Lemma GetReceipt_spec_witness :
  ∃ rcpt, Agent.GetReceipt (Agent.writes [exampleRequest; exampleReply]) (str_cid "t") = Ok rcpt ∧
    rcpt_Ran rcpt = str_cid "t".
Proof.
  destruct (Agent.GetReceipt_spec [exampleRequest; exampleReply] (str_cid "t")
    (rec_addressed _)) as [(m & rcpt & _ & Hg & _ & Hr)|[Hn _]].
  - by exists rcpt.
  - exfalso. vm_compute in Hn. discriminate Hn.
Defined.

Definition exampleOther : token := {|
  t_task := "t"; t_issuer := "j"; t_subject := "s"; t_audience := "a";
  t_command := "/blob/add"; t_args := ""; t_nonce := "n" |}.
Definition exampleLater : @Container RecContainers :=
  {| rc_invs := [exampleOther]; rc_rcpts := []; rc_dlgs := [] |}.
Definition exampleAgent : Agent.Store := Agent.writes [exampleConclude; exampleLater].
Lemma List_stalls_witness :
  let page := mkPage (Some (containerLink exampleConclude)) [Some exampleConclude] in
  Agent.List exampleAgent (str_cid "t") {| cfgCursor := None; cfgLimit := Some 1%Z |} = Ok page.
Proof.
  apply (Agent.List_stalls exampleAgent (str_cid "t") (containerLink exampleConclude)
    [containerLink exampleLater]).
  - vm_compute. reflexivity.
  - vm_compute. discriminate.
  - discriminate.
  - vm_compute. reflexivity.
Defined.

End Witnesses.
