(* ===== verification/Delegation.v ===== *)
(** * Delegations: [pkg/store/delegation]

    The tokens granted to an audience, which [access/claim] hands out. The memory
    store keeps them per audience, ordered by CID, and does not look for a token
    it already holds. *)
From S2P Require Export Store Ucan.

Module Delegation.
Section Delegation.
Context `{Ucan}.

(** [ucan.Token]: what is stored is a delegation or an invocation. *)
Inductive Token :=
  | OfDelegation (d : Delegation)
  | OfInvocation (i : Invocation).
#[export] Instance Token_eq_dec : EqDecision Token.
Proof. solve_decision. Defined.
Definition Link (t : Token) : Cid :=
  match t with OfDelegation d => dlg_Link d | OfInvocation i => inv_Link i end.
Definition Audience (t : Token) : DID :=
  match t with OfDelegation d => dlg_Audience d | OfInvocation i => inv_Audience i end.
Definition Subject (t : Token) : DID :=
  match t with OfDelegation d => dlg_Subject d | OfInvocation i => inv_Subject i end.

Record Store := { tokens : gmap DID (list Token) }.
Definition New : Store := {| tokens := ∅ |}.
Definition tokensOf (s : Store) (audience : DID) : list Token :=
  default [] (tokens s !! audience).

Definition linkName (t : Token) : string := cid_String (Link t).
Definition ListByAudience (s : Store) (audience : DID) (cfg : PaginationConfig)
    : outcome (Page Token) :=
  rs ← resumeWithin linkName (cfgCursor cfg) (tokensOf s audience);
  cutPage (default 1000%Z (cfgLimit cfg)) linkName rs.

Definition tokenLe (a b : Token) : Prop := String.le (cid_Bytes (Link a)) (cid_Bytes (Link b)).
#[export] Instance tokenLe_dec : RelDecision tokenLe.
Proof. intros a b. unfold tokenLe. apply _. Defined.

(** The audience may be undefined when the token is an invocation. *)
Definition audienceOf (t : Token) : DID :=
  if did_Defined (Audience t) then Audience t else Subject t.
Definition put (t : Token) (s : Store) : Store :=
  {| tokens := <[audienceOf t := sortFunc tokenLe (tokensOf s (audienceOf t) ++ [t])]> (tokens s) |}.
Definition PutMany (ts : list Token) (s : Store) : Store := foldl (λ s t, put t s) s ts.

(** ** What an audience finds *)
#[export] Instance tokenLe_trans : Transitive tokenLe.
Proof. intros ???. unfold tokenLe. by etrans. Qed.
#[export] Instance tokenLe_total : Total tokenLe.
Proof. intros a b. apply String.le_total. Qed.

Definition ordered (s : Store) : Prop := ∀ audience, StronglySorted tokenLe (tokensOf s audience).
Lemma tokensOf_put t s audience :
  tokensOf (put t s) audience =
  if decide (audience = audienceOf t) then sortFunc tokenLe (tokensOf s audience ++ [t])
  else tokensOf s audience.
Proof.
  unfold tokensOf, put. cbn [tokens]. case_decide as Ha.
  - subst. by rewrite lookup_insert_eq.
  - by rewrite lookup_insert_ne.
Qed.
Lemma ordered_put t s : ordered s → ordered (put t s).
Proof.
  intros Ho audience. rewrite tokensOf_put. case_decide; [|apply Ho].
  apply StronglySorted_merge_sort; apply _.
Qed.
Lemma ordered_PutMany ts s : ordered s → ordered (PutMany ts s).
Proof. revert s. induction ts as [|t ts IH]; intros s Ho; [done|]. by apply IH, ordered_put. Qed.
Lemma tokensOf_PutMany ts s audience :
  tokensOf (PutMany ts s) audience ≡ₚ
  tokensOf s audience ++ filter (λ t, audienceOf t = audience) ts.
Proof.
  revert s. induction ts as [|t ts IH]; intros s; [by rewrite app_nil_r|].
  unfold PutMany in *. cbn [foldl]. rewrite IH, tokensOf_put, filter_cons.
  repeat case_decide; subst; try done.
  rewrite merge_sort_Permutation. by rewrite <-app_assoc.
Qed.

Lemma ListByAudience_Pages (limit : nat) s audience :
  limit ≠ 0 → NoDup (linkName <$> tokensOf s audience) →
  Pages (λ cfg, ListByAudience s audience
           {| cfgCursor := cfgCursor cfg; cfgLimit := Some (Z.of_nat limit) |})
    None (tokensOf s audience).
Proof. intros Hlim Hnd. by apply resumeWithin_Pages. Qed.

(** An audience is served exactly the tokens put for it, in the order of
    their CIDs: collecting the pages after [PutMany] gives the tokens it had
    before and the new ones whose audience (the subject, where a token has none)
    it is. This needs the tokens to be different: the store would keep both of two
    equal ones. *)
Theorem PutMany_ListByAudience (s : Store) (ts : list Token) (audience : DID) (fuel : nat) :
  ordered s →
  NoDup (linkName <$> tokensOf s audience ++ filter (λ t, audienceOf t = audience) ts) →
  length (tokensOf s audience) + length ts < fuel →
  ∃ l, Collect (ListByAudience (PutMany ts s) audience) fuel = Ok l ∧
    l ≡ₚ tokensOf s audience ++ filter (λ t, audienceOf t = audience) ts ∧
    StronglySorted tokenLe l.
Proof.
  intros Ho Hnd Hf. pose proof (tokensOf_PutMany ts s audience) as Hp.
  exists (tokensOf (PutMany ts s) audience). split_and!; [|done|by apply ordered_PutMany].
  apply Collect_Pages.
  - eapply Pages_ext; [|apply (ListByAudience_Pages 1000); [done|]]; [done|].
    by rewrite Hp.
  - rewrite Hp, length_app. pose proof (length_filter (λ t, audienceOf t = audience) ts). lia.
Qed.

(** A cursor naming the last token of an audience starts the listing over: a
    caller that resumes from the last token it was served, to see whether more
    have come, is served every token again. *)
Theorem ListByAudience_restarts (s : Store) (audience : DID) (l : list Token) (t : Token)
    (limit : option Z) :
  tokensOf s audience = l ++ [t] →
  NoDup (linkName <$> l ++ [t]) →
  ListByAudience s audience {| cfgCursor := Some (linkName t); cfgLimit := limit |} =
  ListByAudience s audience {| cfgCursor := None; cfgLimit := limit |}.
Proof.
  intros Hs Hnd. unfold ListByAudience. cbn [cfgCursor cfgLimit]. rewrite Hs.
  by rewrite resumeWithin_last.
Qed.
End Delegation.
End Delegation.

(** ** Witnesses *)
Section Witnesses.
#[local] Existing Instances StrIds RecContainers RecUcan.

Definition exampleDelegation (audience subject nonce : string) : Delegation.Token :=
  Delegation.OfDelegation ({|
    t_task := "t"; t_issuer := "i"; t_subject := subject; t_audience := audience;
    t_command := "/"; t_args := ""; t_nonce := nonce |} : @Ucan.Delegation _ _ RecUcan).
Definition exampleStore : Delegation.Store :=
  Delegation.PutMany [exampleDelegation "alice" "s" "1"] Delegation.New.

Lemma exampleStore_ordered : Delegation.ordered exampleStore.
Proof. apply Delegation.ordered_PutMany. intros audience. constructor. Qed.

Lemma PutMany_ListByAudience_witness :
  ∃ l, Collect (Delegation.ListByAudience (Delegation.PutMany
      [exampleDelegation "alice" "s" "2"; exampleDelegation "bob" "s" "3"] exampleStore)
      (str_did "alice")) 10 = Ok l ∧
    l ≡ₚ [exampleDelegation "alice" "s" "1"; exampleDelegation "alice" "s" "2"] ∧
    StronglySorted Delegation.tokenLe l.
Proof.
  apply (Delegation.PutMany_ListByAudience exampleStore
    [exampleDelegation "alice" "s" "2"; exampleDelegation "bob" "s" "3"] (str_did "alice") 10).
  - apply exampleStore_ordered.
  - apply (bool_decide_unpack _). vm_compute. exact I.
  - vm_compute. lia.
Defined.

Lemma ListByAudience_restarts_witness :
  Delegation.ListByAudience exampleStore (str_did "alice")
    {| cfgCursor := Some (Delegation.linkName (exampleDelegation "alice" "s" "1"));
       cfgLimit := None |} =
  Ok (mkPage None [exampleDelegation "alice" "s" "1"]).
Proof.
  transitivity (Delegation.ListByAudience exampleStore (str_did "alice") {| cfgCursor := None; cfgLimit := None |}).
  - apply (Delegation.ListByAudience_restarts exampleStore (str_did "alice") []
      (exampleDelegation "alice" "s" "1") None).
    + reflexivity.
    + apply (bool_decide_unpack _). vm_compute. exact I.
  - reflexivity.
Defined.
End Witnesses.
