(* ===== verification/LibForge.v ===== *)
(** * Commands, nodes and the clock

    What the handlers use of libforge and ucantone beyond the tokens themselves:
    the arguments and results of the commands, the codecs between them and a
    token's bytes, the issuing of invocations, and, behind [Env], everything the
    service observes of the outside: the clock and the answers of the storage
    nodes. Each observation has a number, so that the same question may be
    answered differently the next time it is asked. *)
From S2P Require Export Ucan.

(** ** Arguments and results, with the fields the service fills in or reads *)
Section Arguments.
Context `{Ids} {BlobSpec : Type}.
Record AllocateArguments := { aa_Space : DID; aa_Blob : BlobSpec; aa_Cause : Cid }.
(** [Put] awaits the /http/put task. *)
Record AcceptArguments := { ca_Space : DID; ca_Blob : BlobSpec; ca_Put : Cid }.
Record ReleaseArguments := { ra_Space : DID; ra_Digest : Multihash; ra_Cause : Cid }.
Record RejectArguments := { ja_Allocation : Cid }.
(** [Destination] awaits the /blob/allocate task. *)
Record PutArguments := { pa_Body : BlobSpec; pa_Destination : Cid }.

Record ReplicaAllocateArguments := {
  rp_Digest : Multihash; rp_Size : Z; rp_Site : Cid; rp_Cause : Cid;
}.

Inductive Arguments :=
  | OfAllocate (args : AllocateArguments)
  | OfAccept (args : AcceptArguments)
  | OfRelease (args : ReleaseArguments)
  | OfReject (args : RejectArguments)
  | OfPut (args : PutArguments)
  | OfReplicaAllocate (args : ReplicaAllocateArguments).

(** An acceptance: the location commitment and the PDP task it promises. *)
Record AcceptOK := { ok_Site : Cid; ok_PDP : Cid }.
(** No address: the node holds the blob already. *)
Record AllocateOK := { ok_Address : option string }.
End Arguments.
Arguments AllocateArguments {_} _.
Arguments AcceptArguments {_} _.
Arguments PutArguments {_} _.
Arguments Arguments {_} _.

Class LibForge `{Ucan} := {
  (** [blob.BlobSpec]: a blob named by its digest or only by the hash function *)
  BlobSpec : Type;
  BlobSpec_eq_dec :: EqDecision BlobSpec;
  spec_Digest : BlobSpec → option Multihash;
  spec_Size : BlobSpec → Z;
  spec_DigestCode : BlobSpec → Z;
  (** the commands *)
  cmd_Allocate : string; cmd_Accept : string; cmd_Release : string; cmd_Reject : string;
  cmd_Put : string; cmd_Location : string; cmd_ReplicaAllocate : string;
  ErrUnsupportedDigestCode : error;
  ErrMissingCause : error;
  ErrConclusionReceiptNotFound : error;
  (** signers *)
  Issuer : Type;
  issuer_DID : Issuer → DID;
  issuer_Bytes : Issuer → string;
  ed25519_SeedSize : Z;
  ed25519_FromRaw : string → outcome Issuer;
  (** invocations: [InvOption] are the options the service passes *)
  InvOption : Type;
  WithAudience : DID → InvOption;
  WithProofs : list Cid → InvOption;
  WithExpiration : Z → InvOption;
  WithNoNonce : InvOption;
  WithKeys : DID → string → InvOption;
  Invoke : nat → Issuer → DID → Arguments BlobSpec → list InvOption → outcome Invocation;
  (** codecs *)
  UnmarshalAllocateArguments : string → outcome (AllocateArguments BlobSpec);
  UnmarshalAcceptArguments : string → outcome (AcceptArguments BlobSpec);
  UnmarshalPutArguments : string → outcome (PutArguments BlobSpec);
  (** the content a location commitment names *)
  UnmarshalLocationArguments : string → outcome Multihash;
  (** the /blob/accept task an add's result awaits *)
  UnmarshalAddOK : string → outcome Cid;
  UnmarshalAllocateOK : string → outcome AllocateOK;
  UnmarshalAcceptOK : string → outcome AcceptOK;
  (** the digest a put reports, when it reports one *)
  UnmarshalPutOK : string → outcome (option Multihash);
  UnmarshalReleaseOK : string → outcome ();
  UnmarshalRejectOK : string → outcome ();
  UnmarshalReplicaAllocateOK : string → outcome ();
  UnmarshalErrorModel : string → outcome (string * string);
  multihash_Code : Multihash → outcome Z;
  (** the most tokens a container holds *)
  container_MaxTokens : Z;
  (** [receipt.IssueOK] of a put, which reports nothing *)
  IssuePutOK : nat → Issuer → Cid → outcome Receipt;
  (** [NewContainerProofStore(proofs).ProofChain(audience, command, subject)] *)
  ProofChain : Container → DID → string → DID → outcome (list Delegation * list Cid);
  (** an invocation is about what it was issued for *)
  Invoke_Subject t iss sub args opts inv :
    Invoke t iss sub args opts = Ok inv → inv_Subject inv = sub;
  Invoke_Allocate t iss sub args opts inv :
    Invoke t iss sub (OfAllocate args) opts = Ok inv →
    inv_Command inv = cmd_Allocate ∧ UnmarshalAllocateArguments (inv_ArgumentsBytes inv) = Ok args;
  Invoke_Accept t iss sub args opts inv :
    Invoke t iss sub (OfAccept args) opts = Ok inv →
    inv_Command inv = cmd_Accept ∧ UnmarshalAcceptArguments (inv_ArgumentsBytes inv) = Ok args;
  Invoke_Put t iss sub args opts inv :
    Invoke t iss sub (OfPut args) opts = Ok inv →
    inv_Command inv = cmd_Put ∧ UnmarshalPutArguments (inv_ArgumentsBytes inv) = Ok args;
  (** a task is its subject, command, arguments and nonce alone *)
  Invoke_Task t t' iss iss' sub args opts opts' inv inv' :
    WithNoNonce ∈ opts → WithNoNonce ∈ opts' →
    Invoke t iss sub args opts = Ok inv → Invoke t' iss' sub args opts' = Ok inv' →
    inv_Task inv = inv_Task inv';
  IssuePutOK_Ran t iss task rcpt :
    IssuePutOK t iss task = Ok rcpt → rcpt_Ran rcpt = task ∧ IsErr rcpt = false;
}.

(** A request to a node: the invocations to execute and the tokens that travel
    with them. *)
Record NodeRequest `{Ucan} := {
  nr_Invocations : list Invocation;
  nr_Delegations : list Delegation;
  nr_ExtraInvocations : list Invocation;
  nr_ExtraReceipts : list Receipt;
}.

(** What the service observes of the outside, one numbered observation at a time. *)
Class Env `{LibForge} := {
  (** [time.Now()] *)
  clock : nat → Z;
  (** [rand.Int63n]: the number drawn below a bound *)
  rand : nat → Z → Z;
  (** [client.NewHTTP] for an endpoint *)
  NewHTTP : string → outcome ();
  (** one invocation executed by the node at an endpoint: the receipt and the
      response's metadata *)
  Execute_ : nat → string → NodeRequest → outcome (Receipt * option Container);
  (** many: a receipt per task, and the metadata *)
  ExecuteBatch : nat → string → NodeRequest →
    outcome ((Cid → option Receipt) * option Container);
  (** the client guarantees a receipt for every invocation it sent, and each
      receipt ran the task it is given for *)
  ExecuteBatch_Receipt t ep req find meta inv :
    ExecuteBatch t ep req = Ok (find, meta) → inv ∈ nr_Invocations req →
    ∃ rcpt, find (inv_Task inv) = Some rcpt ∧ rcpt_Ran rcpt = inv_Task inv;
}.

(** A computation that only observes keeps the number of the next observation. *)
Definition observe {A} (f : nat → outcome A) : M nat A := λ t, (f t, S t).
(** [x, err := f(); if err != nil { ... } else { ... }] for a call that changes
    nothing. *)
Definition attempt {St A} (o : outcome A) : M St (A + error) := try (reads (λ _, o)).

(** ** [pkg/lib/ucan_client/execute.go]: send an invocation, decode its result *)
Definition Execute `{Env} {A} (endpoint : string) (decode : string → outcome A) (inv : Invocation)
    (delegations : list Delegation) (invs : list Invocation) (rcpts : list Receipt)
    : M nat (A * Receipt * option Container) :=
  '(rcpt, meta) ← wrap "executing invocation" (observe (λ t, Execute_ t endpoint
    {| nr_Invocations := [inv]; nr_Delegations := delegations;
       nr_ExtraInvocations := invs; nr_ExtraReceipts := rcpts |}));
  match rcpt_Out rcpt with
  | inr x =>
      model ← attempt (UnmarshalErrorModel x);
      match model with
      | inl (name, message) => fail (Wrap "executing invocation" (Named name message))
      | inr _ => fail (Errorf "executing invocation")
      end
  | inl o =>
      ok ← wrap "unmarshaling invocation response" (reads (λ _, decode o));
      mret (ok, rcpt, meta)
  end.

(** ** Calls that come back

    Every call outside the repository ends in a value or an error: the codecs and
    the proof chains do, and a node that stops answering is cut off by the
    client's timeout. Where a theorem says that an operation returns, it is under
    this assumption. *)
Definition returns {A} (o : outcome A) : Prop :=
  match o with Ok _ | Err _ => True | Panic | Diverge => False end.

Record responsive `{Env} : Prop := {
  ret_NewHTTP ep : returns (NewHTTP ep);
  ret_Execute t ep req : returns (Execute_ t ep req);
  ret_ExecuteBatch t ep req : returns (ExecuteBatch t ep req);
  ret_Invoke t iss sub args opts : returns (Invoke t iss sub args opts);
  ret_IssuePutOK t iss task : returns (IssuePutOK t iss task);
  ret_ProofChain ct aud cmd sub : returns (ProofChain ct aud cmd sub);
  ret_FromRaw seed : returns (ed25519_FromRaw seed);
  ret_AllocateArguments b : returns (UnmarshalAllocateArguments b);
  ret_AcceptArguments b : returns (UnmarshalAcceptArguments b);
  ret_PutArguments b : returns (UnmarshalPutArguments b);
  ret_LocationArguments b : returns (UnmarshalLocationArguments b);
  ret_AddOK b : returns (UnmarshalAddOK b);
  ret_AllocateOK b : returns (UnmarshalAllocateOK b);
  ret_AcceptOK b : returns (UnmarshalAcceptOK b);
  ret_PutOK b : returns (UnmarshalPutOK b);
  ret_ReleaseOK b : returns (UnmarshalReleaseOK b);
  ret_RejectOK b : returns (UnmarshalRejectOK b);
  ret_ErrorModel b : returns (UnmarshalErrorModel b);
  ret_multihash_Code d : returns (multihash_Code d);
  ret_MarshalCBOR ct : returns (container_MarshalCBOR ct);
  ret_Sum b : returns (message_Sum b);
}.

(** A stateful computation that always comes back. *)
Definition comesBack {St A} (m : M St A) : Prop := ∀ s, returns (m s).1.

Lemma comesBack_ret {St A} (a : A) : comesBack (mret a : M St A).
Proof. done. Qed.
Lemma comesBack_fail {St A} e : comesBack (fail e : M St A).
Proof. done. Qed.
Lemma comesBack_bind {St A B} (m : M St A) (k : A → M St B) :
  comesBack m → (∀ a, comesBack (k a)) → comesBack (m ≫= k).
Proof.
  intros Hm Hk s. unfold mbind, M_bind. specialize (Hm s).
  destruct (m s) as [[a|e| |] s']; [apply Hk|done..].
Qed.
Lemma comesBack_try {St A} (m : M St A) : comesBack m → comesBack (try m).
Proof. intros Hm s. unfold try. specialize (Hm s). by destruct (m s) as [[] ?]. Qed.
Lemma comesBack_wrap {St A} ctx (m : M St A) : comesBack m → comesBack (wrap ctx m).
Proof. intros Hm s. unfold wrap. specialize (Hm s). by destruct (m s) as [[] ?]. Qed.
Lemma comesBack_reads {St A} (f : St → outcome A) : (∀ s, returns (f s)) → comesBack (reads f).
Proof. intros Hf s. apply Hf. Qed.
Lemma comesBack_observe {A} (f : nat → outcome A) : (∀ t, returns (f t)) → comesBack (observe f).
Proof. intros Hf t. apply Hf. Qed.
Create HintDb returns.
#[export] Hint Resolve comesBack_ret comesBack_fail comesBack_bind comesBack_try comesBack_wrap
  comesBack_reads comesBack_observe : returns.

(** Observations are numbered upwards: an operation never goes back. *)
Definition advances {A} (m : M nat A) : Prop := ∀ t, t ≤ (m t).2.
Lemma advances_ret {A} (a : A) : advances (mret a).
Proof. intros t. cbn. lia. Qed.
Lemma advances_fail {A} e : advances (fail e : M nat A).
Proof. intros t. cbn. lia. Qed.
Lemma advances_bind {A B} (m : M nat A) (k : A → M nat B) :
  advances m → (∀ a, advances (k a)) → advances (m ≫= k).
Proof.
  intros Hm Hk t. unfold mbind, M_bind. specialize (Hm t).
  destruct (m t) as [[a|e| |] t']; [etrans; [exact Hm|apply Hk]|done..].
Qed.
Lemma advances_try {A} (m : M nat A) : advances m → advances (try m).
Proof. intros Hm t. unfold try. specialize (Hm t). by destruct (m t) as [[] ?]. Qed.
Lemma advances_wrap {A} ctx (m : M nat A) : advances m → advances (wrap ctx m).
Proof. intros Hm t. unfold wrap. specialize (Hm t). by destruct (m t) as [[] ?]. Qed.
Lemma advances_reads {A} (f : nat → outcome A) : advances (reads f).
Proof. intros t. cbn. lia. Qed.
Lemma advances_observe {A} (f : nat → outcome A) : advances (observe f).
Proof. intros t. cbn. lia. Qed.
Create HintDb advances.
#[export] Hint Resolve advances_ret advances_fail advances_bind advances_try advances_wrap
  advances_reads advances_observe : advances.

Lemma comesBack_Execute `{Env} {A} ep (decode : string → outcome A) inv ds extra rs :
  responsive → (∀ b, returns (decode b)) → comesBack (Execute ep decode inv ds extra rs).
Proof.
  intros Hr Hd. unfold Execute. apply comesBack_bind.
  { apply comesBack_wrap, comesBack_observe. intros t. by apply ret_Execute. }
  intros [rcpt meta]. destruct (rcpt_Out rcpt) as [o|x].
  - apply comesBack_bind; [by apply comesBack_wrap, comesBack_reads|done].
  - apply comesBack_bind; [apply comesBack_try, comesBack_reads; intros; by apply ret_ErrorModel|].
    by intros [[]|].
Qed.
(** A decoded result came with a successful receipt. *)
Lemma Execute_Ok `{Env} {A} ep (decode : string → outcome A) inv ds extra rs t a rcpt meta t' :
  Execute ep decode inv ds extra rs t = (Ok (a, rcpt, meta), t') →
  ∃ o, rcpt_Out rcpt = inl o ∧ decode o = Ok a.
Proof.
  unfold Execute. rewrite M_bind_step. unfold wrap at 1, observe.
  destruct (Execute_ _ _ _) as [[r m]|e| |]; [|done..].
  destruct (rcpt_Out r) as [o|x] eqn:Eo; rewrite M_bind_step.
  - unfold wrap, reads. destruct (decode o) as [a'|e| |] eqn:Ed; [|done..].
    intros [= <- <- <- _]. by exists o.
  - unfold attempt, try, reads. by destruct (UnmarshalErrorModel x) as [[]|e| |].
Qed.
