(* ===== verification/Concrete.v ===== *)
(** * A concrete family of commands and nodes

    What the witnesses compute with: arguments packed as text, signers that are
    their own DIDs, and a storage node that accepts whatever it is asked to, names
    a location commitment for the digest, and cannot be reached at the endpoint
    [down]. *)
From Stdlib Require Import Ascii DecimalString DecimalZ.
From S2P Require Export LibForge.

(** ** Blobs and arguments *)
Record spec := { s_digest : option string; s_size : Z; s_code : Z }.
#[export] Instance spec_eq_dec : EqDecision spec.
Proof. solve_decision. Defined.

Definition number (s : string) : Z := default 0%Z (Z.of_int <$> NilZero.int_of_string s).
Lemma number_Itoa z : number (Itoa z) = z.
Proof. unfold number. rewrite int_of_string_Itoa. cbn. apply of_to. Qed.

Definition specFields (b : spec) : list string :=
  [Itoa (s_size b); Itoa (s_code b)] ++ option_list (s_digest b).
Definition fieldsSpec (l : list string) : option spec :=
  match l with
  | [size; code] => Some {| s_digest := None; s_size := number size; s_code := number code |}
  | [size; code; d] => Some {| s_digest := Some d; s_size := number size; s_code := number code |}
  | _ => None
  end.
Lemma fieldsSpec_specFields b : fieldsSpec (specFields b) = Some b.
Proof. destruct b as [[d|] size code]; cbn; by rewrite !number_Itoa. Qed.

Inductive option_ :=
  | ToAudience (d : string)
  | ByProofs (l : list string)
  | Until (t : Z)
  | NoNonce
  | HoldingKeys (d k : string).
#[export] Instance option__eq_dec : EqDecision option_.
Proof. solve_decision. Defined.

Section Concrete.
#[local] Existing Instances StrIds RecContainers RecUcan.

Definition argsCommand (args : Arguments spec) : string :=
  match args with
  | OfAllocate _ => "/blob/allocate"
  | OfAccept _ => "/blob/accept"
  | OfRelease _ => "/blob/release"
  | OfReject _ => "/blob/reject"
  | OfPut _ => "/http/put"
  | OfReplicaAllocate _ => "/blob/replica/allocate"
  end.
Definition argsBytes (args : Arguments spec) : string :=
  match args with
  | OfAllocate a => pack (aa_Space a :: aa_Cause a :: specFields (aa_Blob a))
  | OfAccept a => pack (ca_Space a :: ca_Put a :: specFields (ca_Blob a))
  | OfRelease a => pack [ra_Space a; ra_Digest a; ra_Cause a]
  | OfReject a => pack [ja_Allocation a : string]
  | OfPut a => pack ((pa_Destination a : string) :: specFields (pa_Body a))
  | OfReplicaAllocate a => pack [rp_Digest a; Itoa (rp_Size a); rp_Site a; rp_Cause a]
  end.
Definition malformed {A} : outcome A := Err (Errorf "malformed").
Definition readAllocate (s : string) : outcome (AllocateArguments spec) :=
  match unpack s with
  | space :: cause :: b =>
      match fieldsSpec b with
      | Some b => Ok {| aa_Space := space : DID; aa_Blob := b; aa_Cause := cause : Cid |}
      | None => malformed
      end
  | _ => malformed
  end.
Definition readAccept (s : string) : outcome (AcceptArguments spec) :=
  match unpack s with
  | space :: put :: b =>
      match fieldsSpec b with
      | Some b => Ok {| ca_Space := space : DID; ca_Blob := b; ca_Put := put : Cid |}
      | None => malformed
      end
  | _ => malformed
  end.
Definition readPut (s : string) : outcome (PutArguments spec) :=
  match unpack s with
  | dest :: b =>
      match fieldsSpec b with
      | Some b => Ok {| pa_Body := b; pa_Destination := dest : Cid |}
      | None => malformed
      end
  | _ => malformed
  end.
Definition readAcceptOK (s : string) : outcome AcceptOK :=
  match unpack s with
  | [site; pdp] => Ok {| ok_Site := site : Cid; ok_PDP := pdp : Cid |}
  | _ => malformed
  end.
Definition readError (s : string) : outcome (string * string) :=
  match unpack s with [name; msg] => Ok (name, msg) | _ => malformed end.

Fixpoint lastAudience (opts : list option_) (d : string) : string :=
  match opts with
  | [] => d
  | ToAudience d' :: opts => lastAudience opts d'
  | _ :: opts => lastAudience opts d
  end.
Definition issue (t : nat) (iss sub : string) (args : Arguments spec) (opts : list option_)
    : outcome token :=
  let nonce := if bool_decide (NoNonce ∈ opts) then "" else Itoa (Z.of_nat t) in
  Ok {| t_task := sub +:+ argsCommand args +:+ argsBytes args +:+ nonce;
        t_issuer := iss; t_subject := sub; t_audience := lastAudience opts "";
        t_command := argsCommand args; t_args := argsBytes args; t_nonce := nonce |}.

Lemma issue_Task t t' iss iss' sub args opts opts' inv inv' :
  NoNonce ∈ opts → NoNonce ∈ opts' →
  issue t iss sub args opts = Ok inv → issue t' iss' sub args opts' = Ok inv' →
  t_task inv = t_task inv'.
Proof.
  unfold issue. intros H1 H2. rewrite !bool_decide_eq_true_2 by done. by intros [= <-] [= <-].
Qed.
Lemma issue_args t iss sub args opts inv :
  issue t iss sub args opts = Ok inv →
  t_command inv = argsCommand args ∧ t_args inv = argsBytes args.
Proof. by intros [= <-]. Qed.
Lemma issue_Allocate t iss sub args opts inv :
  issue t iss sub (OfAllocate args) opts = Ok inv →
  t_command inv = "/blob/allocate" ∧ readAllocate (t_args inv) = Ok args.
Proof.
  intros [-> ->]%issue_args. split; [done|]. cbn [argsBytes]. unfold readAllocate.
  rewrite unpack_pack, fieldsSpec_specFields. by destruct args.
Qed.
Lemma issue_Accept t iss sub args opts inv :
  issue t iss sub (OfAccept args) opts = Ok inv →
  t_command inv = "/blob/accept" ∧ readAccept (t_args inv) = Ok args.
Proof.
  intros [-> ->]%issue_args. split; [done|]. cbn [argsBytes]. unfold readAccept.
  rewrite unpack_pack, fieldsSpec_specFields. by destruct args.
Qed.
Lemma issue_Put t iss sub args opts inv :
  issue t iss sub (OfPut args) opts = Ok inv →
  t_command inv = "/http/put" ∧ readPut (t_args inv) = Ok args.
Proof.
  intros [-> ->]%issue_args. split; [done|]. cbn [argsBytes]. unfold readPut.
  rewrite unpack_pack, fieldsSpec_specFields. by destruct args.
Qed.

(** The delegations of a container from a subject to an audience for a command. *)
Definition grants (proofs : Container) (audience : DID) (command : string) (subject : DID)
    : outcome (list Delegation * list Cid) :=
  let dlgs := filter (λ d, t_audience d = audience ∧ t_command d = command ∧ t_subject d = subject)
                (rc_dlgs proofs) in
  Ok (dlgs : list Delegation, dlg_Link <$> (dlgs : list Delegation)).
Definition RecForge : @LibForge StrIds RecContainers RecUcan := {|
  BlobSpec := spec; spec_Digest := s_digest; spec_Size := s_size; spec_DigestCode := s_code;
  cmd_Allocate := "/blob/allocate"; cmd_Accept := "/blob/accept";
  cmd_Release := "/blob/release"; cmd_Reject := "/blob/reject"; cmd_Put := "/http/put";
  cmd_Location := "/assert/location"; cmd_ReplicaAllocate := "/blob/replica/allocate";
  ErrUnsupportedDigestCode := Named "UnsupportedDigestCode" "unsupported digest code";
  ErrMissingCause := Named "MissingCause" "missing cause";
  ErrConclusionReceiptNotFound := Named "ConclusionReceiptNotFound" "receipt not found";
  Issuer := string; issuer_DID := (λ iss, iss : DID); issuer_Bytes := id;
  ed25519_SeedSize := 4; ed25519_FromRaw seed := Ok ("did:key:" +:+ seed);
  InvOption := option_; WithAudience := ToAudience; WithProofs := ByProofs;
  WithExpiration := Until; WithNoNonce := NoNonce; WithKeys := HoldingKeys;
  Invoke := (issue : nat → string → DID → _ → _ → outcome Invocation);
  UnmarshalAllocateArguments := readAllocate; UnmarshalAcceptArguments := readAccept;
  UnmarshalPutArguments := readPut;
  UnmarshalLocationArguments := Ok;
  UnmarshalAddOK s := Ok (s : Cid);
  UnmarshalAllocateOK s := Ok {| ok_Address := if bool_decide (s = "") then None else Some s |};
  UnmarshalAcceptOK := readAcceptOK;
  UnmarshalPutOK s := Ok (if bool_decide (s = "") then None else Some s);
  UnmarshalReleaseOK _ := Ok (); UnmarshalRejectOK _ := Ok ();
  UnmarshalReplicaAllocateOK _ := Ok ();
  UnmarshalErrorModel := readError;
  multihash_Code d := Ok (match d with String c _ => Z.of_nat (nat_of_ascii c) | "" => 0%Z end);
  container_MaxTokens := 8192;
  IssuePutOK _ _ task := Ok ({| rt_ran := task; rt_out := inl "" |} : Receipt);
  ProofChain := grants;
  Invoke_Subject t iss sub args opts inv Hi := match Hi with eq_refl => eq_refl end;
  Invoke_Allocate := issue_Allocate; Invoke_Accept := issue_Accept; Invoke_Put := issue_Put;
  Invoke_Task := issue_Task;
  IssuePutOK_Ran t iss task rcpt Hi := match Hi with eq_refl => conj eq_refl eq_refl end;
|}.
#[local] Existing Instance RecForge.

(** ** A node *)
Definition locationClaim (node digest : string) : token := {|
  t_task := node +:+ "/assert/location" +:+ digest; t_issuer := node; t_subject := node;
  t_audience := ""; t_command := "/assert/location"; t_args := digest; t_nonce := "" |}.
(** The digest of the blob an accept is about, or the one its put reports. *)
Definition acceptedDigest (rcpts : list rtoken) (args : string) : option string :=
  match readAccept args with
  | Ok a =>
      match s_digest (ca_Blob a) with
      | Some d => Some d
      | None =>
          match rt_out <$> findFunc (λ r, bool_decide (rt_ran r = ca_Put a)) rcpts with
          | Some (inl d) => Some d
          | _ => None
          end
      end
  | _ => None
  end.
(** The node at [strict] takes no blob without a digest; the one at [holding] has
    every blob already. *)
Definition answer (ep : string) (rcpts : list rtoken) (inv : token) : rtoken * list token :=
  if bool_decide (t_command inv = "/blob/accept") then
    match acceptedDigest rcpts (t_args inv) with
    | Some d =>
        let c := locationClaim (t_subject inv) d in
        ({| rt_ran := t_task inv;
            rt_out := inl (pack [tokenLink c; t_task inv +:+ "/pdp"]) |}, [c])
    | None => ({| rt_ran := t_task inv; rt_out := inr (pack ["MissingDigest"; ""]) |}, [])
    end
  else if bool_decide (t_command inv = "/blob/allocate" ∧ ep = "strict") then
    match readAllocate (t_args inv) with
    | Ok {| aa_Blob := {| s_digest := None |} |} =>
        ({| rt_ran := t_task inv; rt_out := inr (pack ["UnsupportedDigestCode"; ""]) |}, [])
    | _ => ({| rt_ran := t_task inv; rt_out := inl "https://put" |}, [])
    end
  else
    let held := bool_decide (t_command inv ≠ "/blob/allocate" ∨ ep = "holding") in
    ({| rt_ran := t_task inv; rt_out := inl (if held then "" else "https://put") |}, []).
Lemma answer_ran ep rcpts inv : rt_ran (answer ep rcpts inv).1 = t_task inv.
Proof. unfold answer. by repeat case_match. Qed.

Definition nodeExecute (t : nat) (ep : string) (req : NodeRequest)
    : outcome (Receipt * option Container) :=
  match nr_Invocations req with
  | inv :: _ =>
      if bool_decide (ep = "down") then Err (Errorf "unreachable")
      else let '(r, claims) := answer ep (nr_ExtraReceipts req) inv in
           Ok (r, Some ({| rc_invs := claims; rc_rcpts := [r]; rc_dlgs := [] |} : Container))
  | [] => malformed
  end.
Definition nodeBatch (t : nat) (ep : string) (req : NodeRequest)
    : outcome ((Cid → option Receipt) * option Container) :=
  if bool_decide (ep = "down") then Err (Errorf "unreachable")
  else
    let answers := answer ep (nr_ExtraReceipts req) <$> nr_Invocations req in
    Ok (λ task, findFunc (λ r, bool_decide (rt_ran r = task)) answers.*1,
        Some ({| rc_invs := answers.*2 ≫= id; rc_rcpts := answers.*1; rc_dlgs := [] |}
              : Container)).
Lemma nodeBatch_Receipt t ep req find meta inv :
  nodeBatch t ep req = Ok (find, meta) → inv ∈ nr_Invocations req →
  ∃ rcpt, find (inv_Task inv) = Some rcpt ∧ rcpt_Ran rcpt = inv_Task inv.
Proof.
  unfold nodeBatch. case_bool_decide; [done|]. intros [= <- _] Hin.
  destruct (findFunc _ _) as [r|] eqn:E.
  - exists r. split; [done|]. by apply rec_receipt_Some in E as [_ ?].
  - exfalso. apply (rec_receipt_None _ _ E (answer ep (nr_ExtraReceipts req) inv).1).
    + by apply list_elem_of_fmap_2, list_elem_of_fmap_2.
    + apply answer_ran.
Qed.

Definition RecEnv : @Env StrIds RecContainers RecUcan RecForge := {|
  clock t := (Z.of_nat t * Second)%Z;
  rand _ _ := 0%Z;
  NewHTTP _ := Ok ();
  Execute_ := nodeExecute;
  ExecuteBatch := nodeBatch;
  ExecuteBatch_Receipt := nodeBatch_Receipt;
|}.
#[local] Existing Instance RecEnv.

Lemma rec_responsive : responsive.
Proof.
  split; intros; try exact I; cbn.
  all: unfold nodeExecute, nodeBatch, readAllocate, readAccept, readPut, readAcceptOK, readError;
    by repeat case_match.
Qed.
End Concrete.
