(* ===== verification/PiriClient.v ===== *)
(** * The storage node client: [pkg/piriclient]

    What the service asks of a storage node: to allocate, accept, release and
    reject blobs, each on a proof chain rooted at the node. A batch of accepts is
    cut into requests a node can answer in one container. *)
From S2P Require Export LibForge Routing.
From S2P Require Import Concrete.

Module PiriClient.
Section PiriClient.
Context `{Env}.

Definition replicaAllocationTTL : Z := 24 * Hour.
Definition acceptInvocationTTL : Z := 5 * 60.
Definition maxAcceptBatch : nat := 1000.

Record Client := { piriDID : DID; issuer : Issuer; endpoint : string }.
(** [New], and [Client] of the provider, which only adds its own issuer. *)
Definition New (ep : string) (piri : DID) (iss : Issuer) : outcome Client :=
  _ ← owrap "creating HTTP client" (NewHTTP ep);
  Ok {| piriDID := piri; issuer := iss; endpoint := ep |}.
Definition client (iss : Issuer) (id : DID) (ep : string) : outcome Client := New ep id iss.

Lemma client_returns iss id ep : responsive → returns (client iss id ep).
Proof. intros Hr. unfold client, New. pose proof (ret_NewHTTP Hr ep). by destruct (NewHTTP ep). Qed.
Lemma client_DID iss id ep c : client iss id ep = Ok c → piriDID c = id.
Proof. unfold client, New. destruct (NewHTTP ep); [|done..]. by intros [= <-]. Qed.

Record AllocateRequest := { al_Space : DID; al_Blob : BlobSpec; al_Cause : Cid }.
Record AcceptRequest := {
  ac_Space : DID;
  ac_Blob : BlobSpec;
  ac_Put : Cid;
  ac_PutInvocation : option Invocation;
  ac_PutReceipt : option Receipt;
}.
Record ReleaseRequest := {
  re_Space : DID;
  re_Digest : Multihash;
  re_Cause : Invocation;
  re_CauseProofs : list Delegation;
}.
Record ReplicaAllocateRequest := {
  rr_Space : DID; rr_Digest : Multihash; rr_Size : Z; rr_Site : Invocation; rr_Cause : Cid;
}.

Section Client.
Context (c : Client) (proofStore : Container).

(** The proof chain for a command: rooted at the node, for this service. *)
Definition proofChain (command : string) (subject : DID) : M nat (list Delegation * list Cid) :=
  wrap "building proof chain"
    (reads (λ _, ProofChain proofStore (issuer_DID (issuer c)) command subject)).

Definition AllocateInvocation (req : AllocateRequest) (options : list InvOption)
    : M nat (Invocation * list Delegation) :=
  '(prfs, prfLinks) ← proofChain cmd_Allocate (piriDID c);
  let options := options ++ [WithAudience (piriDID c); WithProofs prfLinks] in
  inv ← wrap "creating allocate invocation" (observe (λ t, Invoke t (issuer c) (piriDID c)
    (OfAllocate {| aa_Space := al_Space req; aa_Blob := al_Blob req; aa_Cause := al_Cause req |})
    options));
  mret (inv, prfs).

Definition Allocate (req : AllocateRequest) (options : list InvOption)
    : M nat (AllocateOK * Invocation * Receipt) :=
  '(inv, prfs) ← wrap "creating allocate invocation" (AllocateInvocation req options);
  '(allocOK, rcpt, _) ← Execute (endpoint c) UnmarshalAllocateOK inv prfs [] [];
  mret (allocOK, inv, rcpt).

(** [putEvidence]: a blob without a digest must carry its put. *)
Fixpoint putEvidence (reqs : list AcceptRequest) : outcome (list Invocation * list Receipt) :=
  match reqs with
  | [] => Ok ([], [])
  | req :: reqs =>
      if bool_decide (spec_Digest (ac_Blob req) = None) &&
         (bool_decide (ac_PutInvocation req = None) || bool_decide (ac_PutReceipt req = None))
      then Err (Errorf ("accept of a blob without a digest needs its " +:+ cmd_Put +:+
                        " invocation and receipt (put " +:+ cid_String (ac_Put req) +:+ ")"))
      else
        '(invs, rcpts) ← putEvidence reqs;
        Ok (option_list (ac_PutInvocation req) ++ invs, option_list (ac_PutReceipt req) ++ rcpts)
  end.

Definition acceptProofs : M nat (list Delegation * list Cid) := proofChain cmd_Accept (piriDID c).

(** The invocation's life runs from the clock at its issue. *)
Definition acceptInvocation (req : AcceptRequest) (options : list InvOption)
    (prfLinks : list Cid) : M nat Invocation :=
  now ← observe (λ t, Ok (Unix (clock t)));
  let options := options ++ [WithAudience (piriDID c); WithProofs prfLinks;
                             WithExpiration (now + acceptInvocationTTL)] in
  wrap "creating accept invocation" (observe (λ t, Invoke t (issuer c) (piriDID c)
    (OfAccept {| ca_Space := ac_Space req; ca_Blob := ac_Blob req; ca_Put := ac_Put req |})
    options)).

Definition AcceptInvocation (req : AcceptRequest) (options : list InvOption)
    : M nat (Invocation * list Delegation) :=
  '(prfs, prfLinks) ← acceptProofs;
  inv ← acceptInvocation req options prfLinks;
  mret (inv, prfs).

Definition Accept (req : AcceptRequest) (options : list InvOption)
    : M nat (AcceptOK * Invocation * Receipt * option Container) :=
  '(putInvs, putRcpts) ← reads (λ _, putEvidence [req]);
  '(inv, prfs) ← wrap "creating accept invocation" (AcceptInvocation req options);
  '(acceptOK, rcpt, meta) ← Execute (endpoint c) UnmarshalAcceptOK inv prfs putInvs putRcpts;
  mret (acceptOK, inv, rcpt, meta).

(** ** A batch of accepts *)
Record AcceptResult := {
  res_Request : option AcceptRequest;
  res_Invocation : option Invocation;
  res_Receipt : option Receipt;
}.
(** the zero value, of a request no chunk has reached *)
Definition unreached : AcceptResult :=
  {| res_Request := None; res_Invocation := None; res_Receipt := None |}.
Definition issued (req : AcceptRequest) (inv : Invocation) : AcceptResult :=
  {| res_Request := Some req; res_Invocation := Some inv; res_Receipt := None |}.

(** Issue a chunk's invocations; the ones issued before an error stay issued. *)
Fixpoint issueChunk (reqs : list AcceptRequest) (options : list InvOption) (prfLinks : list Cid)
    : M nat (list (AcceptRequest * Invocation) * option error) :=
  match reqs with
  | [] => mret ([], None)
  | req :: reqs =>
      inv ← try (acceptInvocation req options prfLinks);
      match inv with
      | inr err => mret ([], Some err)
      | inl inv =>
          '(more, err) ← issueChunk reqs options prfLinks;
          mret ((req, inv) :: more, err)
      end
  end.

Definition batchResult : Type := list AcceptResult * list (option Container) * option error.

(** One pass of the loop over the chunks: [results] are the results of the chunks
    before, [rest] the requests not yet reached. *)
Fixpoint acceptChunks (fuel : nat) (options : list InvOption) (prfs : list Delegation)
    (prfLinks : list Cid) (rest : list AcceptRequest) (results : list AcceptResult)
    (metas : list (option Container)) : M nat batchResult :=
  match rest, fuel with
  | [], _ => mret (results, metas, None)
  | _ :: _, O => λ t, (Diverge, t)
  | _ :: _, S fuel =>
      let chunk := take maxAcceptBatch rest in
      let rest := drop maxAcceptBatch rest in
      '(invs, err) ← issueChunk chunk options prfLinks;
      let stopped := results ++ ((λ '(req, inv), issued req inv) <$> invs) ++
                     replicate (length chunk - length invs + length rest) unreached in
      match err with
      | Some err => mret (stopped, metas, Some err)
      | None =>
          evidence ← attempt (putEvidence chunk);
          match evidence with
          | inr err => mret (stopped, metas, Some err)
          | inl (putInvs, putRcpts) =>
              res ← try (observe (λ t, ExecuteBatch t (endpoint c)
                {| nr_Invocations := invs.*2; nr_Delegations := prfs;
                   nr_ExtraInvocations := putInvs; nr_ExtraReceipts := putRcpts |}));
              match res with
              | inr err => mret (stopped, metas, Some (Wrap "executing accept batch" err))
              | inl (find, meta) =>
                  acceptChunks fuel options prfs prfLinks rest
                    (results ++ ((λ '(req, inv),
                       {| res_Request := Some req; res_Invocation := Some inv;
                          res_Receipt := find (inv_Task inv) |}) <$> invs))
                    (metas ++ [meta])
              end
          end
      end
  end.

(** [AcceptBatch]: the results so far are returned alongside an error. *)
Definition AcceptBatch (reqs : list AcceptRequest) (options : list InvOption)
    : M nat batchResult :=
  match reqs with
  | [] => mret ([], [], None)
  | _ :: _ =>
      evidence ← attempt (putEvidence reqs);
      match evidence with
      | inr err => mret ([], [], Some err)
      | inl _ =>
          proofs ← try acceptProofs;
          match proofs with
          | inr err => mret ([], [], Some err)
          | inl (prfs, prfLinks) =>
              acceptChunks (length reqs) options prfs prfLinks reqs [] []
          end
      end
  end.

(** ** Releasing and rejecting *)
Definition ReleaseInvocation (req : ReleaseRequest) (options : list InvOption)
    : M nat (Invocation * list Delegation) :=
  '(prfs, prfLinks) ← proofChain cmd_Release (piriDID c);
  let options := options ++ [WithAudience (piriDID c); WithProofs prfLinks] in
  inv ← wrap "creating release invocation" (observe (λ t, Invoke t (issuer c) (piriDID c)
    (OfRelease {| ra_Space := re_Space req; ra_Digest := re_Digest req;
                  ra_Cause := inv_Task (re_Cause req) |}) options));
  mret (inv, prfs).
Definition Release (req : ReleaseRequest) (options : list InvOption)
    : M nat (Invocation * Receipt) :=
  '(inv, prfs) ← wrap "creating release invocation" (ReleaseInvocation req options);
  '(_, rcpt, _) ← Execute (endpoint c) UnmarshalReleaseOK inv (prfs ++ re_CauseProofs req)
                    [re_Cause req] [];
  mret (inv, rcpt).

Definition RejectInvocation (req : RejectArguments) (options : list InvOption)
    : M nat (Invocation * list Delegation) :=
  '(prfs, prfLinks) ← proofChain cmd_Reject (piriDID c);
  let options := options ++ [WithAudience (piriDID c); WithProofs prfLinks] in
  inv ← wrap "creating reject invocation"
    (observe (λ t, Invoke t (issuer c) (piriDID c) (OfReject req) options));
  mret (inv, prfs).
Definition Reject (req : RejectArguments) (options : list InvOption)
    : M nat (Invocation * Receipt) :=
  '(inv, prfs) ← wrap "creating reject invocation" (RejectInvocation req options);
  '(_, rcpt, _) ← Execute (endpoint c) UnmarshalRejectOK inv prfs [] [];
  mret (inv, rcpt).

(** The space is the subject here, not the node. *)
Definition ReplicaAllocate (req : ReplicaAllocateRequest) (options : list InvOption)
    : M nat (Invocation * Receipt * option Container) :=
  '(prfs, prfLinks) ← proofChain cmd_ReplicaAllocate (rr_Space req);
  now ← observe (λ t, Ok (clock t));
  let options := options ++ [WithAudience (piriDID c); WithProofs prfLinks;
                             WithExpiration (Unix (now + replicaAllocationTTL))] in
  inv ← wrap "creating replica allocate invocation" (observe (λ t, Invoke t (issuer c)
    (rr_Space req)
    (OfReplicaAllocate {| rp_Digest := rr_Digest req; rp_Size := rr_Size req;
                          rp_Site := inv_Link (rr_Site req); rp_Cause := rr_Cause req |})
    options));
  '(_, rcpt, meta) ← Execute (endpoint c) UnmarshalReplicaAllocateOK inv prfs [] [];
  mret (inv, rcpt, meta).
(** ** What an allocation returns *)

(** [inv] asks this node to allocate what [req] names. *)
Definition allocates (req : AllocateRequest) (inv : Invocation) : Prop :=
  inv_Command inv = cmd_Allocate ∧ inv_Subject inv = piriDID c ∧
  UnmarshalAllocateArguments (inv_ArgumentsBytes inv) =
    Ok {| aa_Space := al_Space req; aa_Blob := al_Blob req; aa_Cause := al_Cause req |}.

Lemma Allocate_Ok req options t allocOK inv rcpt t' :
  Allocate req options t = (Ok (allocOK, inv, rcpt), t') →
  allocates req inv ∧ ∃ o, rcpt_Out rcpt = inl o ∧ UnmarshalAllocateOK o = Ok allocOK.
Proof.
  unfold Allocate. rewrite M_bind_step. unfold wrap at 1, AllocateInvocation, proofChain.
  rewrite M_bind_step. unfold wrap at 1, reads.
  destruct (ProofChain _ _ _ _) as [[prfs links]|e| |]; [|done..].
  rewrite M_bind_step. unfold wrap at 1, observe.
  destruct (Invoke _ _ _ _ _) as [i|e| |] eqn:Ei; [|done..].
  cbn beta iota delta [mret M_ret]. rewrite M_bind_step.
  destruct (Execute _ _ _ _ _ _ _) as [[[[a r] m]|e| |] t2] eqn:Ee; [|done..].
  intros [= <- <- <- _]. split; [|by eapply Execute_Ok].
  destruct (Invoke_Allocate _ _ _ _ _ _ Ei) as [Hc Ha]. by apply Invoke_Subject in Ei.
Qed.
Lemma comesBack_Allocate req options : responsive → comesBack (Allocate req options).
Proof.
  intros Hr. apply comesBack_bind.
  - apply comesBack_wrap, comesBack_bind.
    { apply comesBack_wrap, comesBack_reads. intros t. by apply ret_ProofChain. }
    intros [prfs links]. apply comesBack_bind; [|done].
    apply comesBack_wrap, comesBack_observe. intros t. by apply ret_Invoke.
  - intros [inv prfs]. apply comesBack_bind; [|by intros [[]]].
    apply comesBack_Execute; [done|]. intros b. by apply ret_AllocateOK.
Qed.

(** ** What a batch of accepts returns *)

(** [inv] asks this node to accept what [req] names. *)
Definition accepts (req : AcceptRequest) (inv : Invocation) : Prop :=
  inv_Command inv = cmd_Accept ∧ inv_Subject inv = piriDID c ∧
  UnmarshalAcceptArguments (inv_ArgumentsBytes inv) =
    Ok {| ca_Space := ac_Space req; ca_Blob := ac_Blob req; ca_Put := ac_Put req |}.
(** The node answered [req]: its receipt ran the accept of that request. *)
Definition answered (req : AcceptRequest) (res : AcceptResult) : Prop :=
  ∃ inv rcpt, res = {| res_Request := Some req; res_Invocation := Some inv;
                       res_Receipt := Some rcpt |} ∧
    accepts req inv ∧ rcpt_Ran rcpt = inv_Task inv.

Lemma acceptInvocation_accepts req options prfLinks t inv t' :
  acceptInvocation req options prfLinks t = (Ok inv, t') → accepts req inv.
Proof.
  unfold acceptInvocation, wrap, observe, mbind, M_bind. intros Hi.
  destruct (Invoke _ _ _ _ _) as [i|e| |] eqn:Ei; simplify_eq.
  destruct (Invoke_Accept _ _ _ _ _ _ Ei) as [Hc Ha].
  by apply Invoke_Subject in Ei.
Qed.
Lemma comesBack_acceptInvocation req options prfLinks :
  responsive → comesBack (acceptInvocation req options prfLinks).
Proof.
  intros Hr. apply comesBack_bind; [by apply comesBack_observe|]. intros now.
  apply comesBack_wrap, comesBack_observe. intros t. by apply ret_Invoke.
Qed.

Lemma issueChunk_spec options prfLinks reqs t :
  responsive →
  ∃ invs err t', issueChunk reqs options prfLinks t = (Ok (invs, err), t') ∧
    Forall2 (λ req '(r, inv), r = req ∧ accepts req inv) (take (length invs) reqs) invs ∧
    length invs ≤ length reqs ∧ (err = None → length invs = length reqs).
Proof.
  intros Hr. revert t. induction reqs as [|req reqs IH]; intros t; simpl.
  { by eexists [], None, t. }
  pose proof (comesBack_acceptInvocation req options prfLinks Hr t) as Hb.
  unfold mbind, M_bind, try. destruct (acceptInvocation _ _ _ t) as [o t1] eqn:Ea.
  destruct o as [inv|e| |]; [|by eexists [], (Some e), t1; repeat split; [constructor|simpl; lia|]|done..].
  destruct (IH t1) as (invs & err & t2 & -> & Hall & Hle & Hn).
  eexists ((req, inv) :: invs), err, t2. split_and!; [done|..]; simpl.
  - constructor; [|done]. split; [done|]. by eapply acceptInvocation_accepts.
  - lia.
  - intros. f_equal. by apply Hn.
Qed.

Lemma issueChunk_stopped options prfLinks reqs t invs e t' :
  issueChunk reqs options prfLinks t = (Ok (invs, Some e), t') → length invs < length reqs.
Proof.
  revert t invs t'. induction reqs as [|req reqs IH]; intros t invs t'; cbn [issueChunk]; [done|].
  rewrite M_bind_step. unfold try.
  destruct (acceptInvocation req options prfLinks t) as [[inv|err| |] t1]; [|by intros [= <- _ _]; simpl; lia|done..].
  rewrite M_bind_step. destruct (issueChunk reqs options prfLinks t1) as [[[more err]|?| |] t2] eqn:Ei; [|done..].
  intros [= <- -> <-]. cbn [length]. apply IH in Ei. lia.
Qed.
Lemma advances_acceptInvocation req options prfLinks :
  advances (acceptInvocation req options prfLinks).
Proof. unfold acceptInvocation. auto with advances. Qed.
Lemma advances_issueChunk reqs options prfLinks : advances (issueChunk reqs options prfLinks).
Proof.
  induction reqs as [|req reqs IH]; cbn [issueChunk]; [auto with advances|].
  apply advances_bind; [apply advances_try, advances_acceptInvocation|].
  intros [inv|err]; [|auto with advances]. apply advances_bind; [exact IH|].
  intros [more err]. auto with advances.
Qed.
Lemma putEvidence_returns reqs : returns (putEvidence reqs).
Proof.
  induction reqs as [|req reqs IH]; [done|]. cbn [putEvidence]. case_match; [done|].
  by destruct (putEvidence reqs) as [[]| | |].
Qed.
Lemma putEvidence_app reqs1 reqs2 ev :
  putEvidence (reqs1 ++ reqs2) = Ok ev →
  (∃ ev1, putEvidence reqs1 = Ok ev1) ∧ ∃ ev2, putEvidence reqs2 = Ok ev2.
Proof.
  revert ev. induction reqs1 as [|req reqs1 IH]; intros ev; cbn [putEvidence app].
  { intros ->. split; by eexists. }
  destruct (_ && _); [done|].
  destruct (putEvidence (reqs1 ++ reqs2)) as [[invs rcpts]|e| |]; [|done..]. intros _.
  destruct (IH _ eq_refl) as [[[is1 rs1] ->] ?]. split; [by eexists|done].
Qed.

(** Why a batch stops at [chunk], of which [invs] was issued: issuing the next
    invocation fails, or all is issued and the node fails to execute it. The
    evidence of the chunk was checked before. *)
Definition stopsAt (options : list InvOption) (prfs : list Delegation) (prfLinks : list Cid)
    (chunk : list AcceptRequest) (t : nat) (invs : list (AcceptRequest * Invocation)) (e : error) : Prop :=
  ∃ err t', issueChunk chunk options prfLinks t = (Ok (invs, err), t') ∧
  match err with
  | Some err => e = err ∧ length invs < length chunk
  | None => length invs = length chunk ∧ ∃ putInvs putRcpts err,
      putEvidence chunk = Ok (putInvs, putRcpts) ∧ e = Wrap "executing accept batch" err ∧
      ExecuteBatch t' (endpoint c)
        {| nr_Invocations := invs.*2; nr_Delegations := prfs;
           nr_ExtraInvocations := putInvs; nr_ExtraReceipts := putRcpts |} = Err err
  end.
(** The outcome of the chunks of a batch begun at [t]: there is a meta per chunk
    executed, and the requests of those chunks are answered; without an error that is
    all of them. With one, the next chunk stopped at it: its invocations issued so far
    are returned without a receipt, and the requests after them are unreached. *)
Definition chunksSpec (options : list InvOption) (prfs : list Delegation) (prfLinks : list Cid)
    (reqs : list AcceptRequest) (t : nat) (r : batchResult) : Prop :=
  let '(results, metas, err) := r in
  let k := Nat.min (length reqs) (length metas * maxAcceptBatch) in
  match err with
  | None => k = length reqs ∧ Forall2 answered reqs results
  | Some e => k < length reqs ∧ Forall2 answered (take k reqs) (take k results) ∧
      ∃ invs t1, t ≤ t1 ∧
        drop k results = ((λ '(req, inv), issued req inv) <$> invs) ++
                         replicate (length reqs - k - length invs) unreached ∧
        Forall2 (λ req '(r, inv), r = req ∧ accepts req inv) (take (length invs) (drop k reqs)) invs ∧
        stopsAt options prfs prfLinks (take maxAcceptBatch (drop k reqs)) t1 invs e
  end.

Lemma chunksSpec_stopped options prfs prfLinks t t1 done_ rest results invs metas e n :
  Forall2 answered done_ results →
  length done_ = length metas * maxAcceptBatch → rest ≠ [] → t ≤ t1 →
  length invs + n = length rest →
  Forall2 (λ req '(r, inv), r = req ∧ accepts req inv) (take (length invs) rest) invs →
  stopsAt options prfs prfLinks (take maxAcceptBatch rest) t1 invs e →
  chunksSpec options prfs prfLinks (done_ ++ rest) t
    (results ++ ((λ '(req, inv), issued req inv) <$> invs) ++ replicate n unreached,
     metas, Some e).
Proof.
  intros Hd Hk Hne Ht Hn Hall Hs. pose proof (Forall2_length _ _ _ Hd) as Hlen.
  assert (0 < length rest) as Hpos by (destruct rest; [done|simpl; lia]).
  unfold chunksSpec. rewrite length_app, <-Hk, Nat.min_r by lia.
  rewrite take_app_length, drop_app_length, Hlen, take_app_length, drop_app_length.
  split_and!; [lia|done|]. exists invs, t1. split_and!; [done| |done|done].
  do 2 f_equal. lia.
Qed.

Lemma acceptChunks_spec options prfs prfLinks t0 fuel :
  responsive →
  ∀ rest done_ results metas t,
  length rest ≤ fuel → Forall2 answered done_ results → t0 ≤ t →
  length done_ = Nat.min (length (done_ ++ rest)) (length metas * maxAcceptBatch) →
  (∃ ev, putEvidence rest = Ok ev) →
  ∃ r t', acceptChunks fuel options prfs prfLinks rest results metas t = (Ok r, t') ∧
    chunksSpec options prfs prfLinks (done_ ++ rest) t0 r.
Proof.
  intros Hr. induction fuel as [|fuel IH]; intros [|req rest] done_ results metas t Hf Hd Ht Hk Hev.
  all: try (simpl in Hf; lia).
  1,2: eexists _, t; split; [done|]; rewrite app_nil_r in *; unfold chunksSpec; by rewrite <-Hk.
  cbn [acceptChunks]. remember (req :: rest) as reqs eqn:Hreqs.
  assert (reqs ≠ [] ∧ 0 < length reqs) as [Hne Hpos] by (subst; split; [done|simpl; lia]).
  rewrite length_app in Hk. assert (length done_ = length metas * maxAcceptBatch) as Hk' by lia.
  assert (length (take maxAcceptBatch reqs) + length (drop maxAcceptBatch reqs) = length reqs) as Hcut.
  { by rewrite <-length_app, take_drop. }
  assert (0 < length (take maxAcceptBatch reqs)) as Hpos'.
  { rewrite length_take. unfold maxAcceptBatch. lia. }
  destruct Hev as [ev Hev]. rewrite <-(take_drop maxAcceptBatch reqs) in Hev.
  apply putEvidence_app in Hev as [[[putInvs putRcpts] Hev] Hev'].
  destruct (issueChunk_spec options prfLinks (take maxAcceptBatch reqs) t Hr)
    as (invs & err & t1 & Hi & Hall & Hle & Hn).
  pose proof (advances_issueChunk (take maxAcceptBatch reqs) options prfLinks t) as Hadv.
  rewrite Hi in Hadv. cbn [snd] in Hadv.
  unfold mbind at 1, M_bind at 1. rewrite Hi. cbn beta iota.
  assert (Forall2 (λ req '(r, inv), r = req ∧ accepts req inv) (take (length invs) reqs) invs) as Hinvs.
  { rewrite take_take, Nat.min_l in Hall; [done|]. rewrite length_take in Hle. lia. }
  assert (∀ e t', stopsAt options prfs prfLinks (take maxAcceptBatch reqs) t invs e →
    ∃ r t'', (mret (results ++ ((λ '(req, inv), issued req inv) <$> invs) ++
      replicate (length (take maxAcceptBatch reqs) - length invs +
                 length (drop maxAcceptBatch reqs)) unreached, metas, Some e) : M nat batchResult) t'
      = (Ok r, t'') ∧ chunksSpec options prfs prfLinks (done_ ++ reqs) t0 r) as Hstop.
  { intros e t' Hs. eexists _, t'. split; [done|].
    eapply chunksSpec_stopped; [done|done|done| | |done|exact Hs]; lia. }
  destruct err as [e|].
  { apply Hstop. exists (Some e), t1. split_and!; [done|done|].
    by apply (issueChunk_stopped options prfLinks _ t _ e t1). }
  specialize (Hn eq_refl). unfold mbind, M_bind, attempt, try, reads. rewrite Hev.
  unfold observe at 1.
  pose proof (ret_ExecuteBatch Hr t1 (endpoint c) {| nr_Invocations := invs.*2;
    nr_Delegations := prfs; nr_ExtraInvocations := putInvs; nr_ExtraReceipts := putRcpts |}) as Hx.
  destruct (ExecuteBatch _ _ _) as [[find meta]|e| |] eqn:Ex; [| |done..].
  2: { apply Hstop. exists None, t1. split_and!; [done|done|]. by exists putInvs, putRcpts, e. }
  assert (done_ ++ reqs = (done_ ++ take maxAcceptBatch reqs) ++ drop maxAcceptBatch reqs) as ->
    by by rewrite <-app_assoc, take_drop.
  apply IH; [lia| |lia| |done].
  2: { rewrite !length_app, length_take. cbn [length]. rewrite length_drop. lia. }
  apply Forall2_app; [done|]. rewrite Hn, firstn_all in Hall.
  clear -Hall Ex. apply Forall2_fmap_r.
  assert (∀ x, x ∈ invs → ∃ rcpt, find (inv_Task x.2) = Some rcpt ∧ rcpt_Ran rcpt = inv_Task x.2)
    as Hf.
  { intros x Hx. apply (ExecuteBatch_Receipt _ _ _ _ _ x.2 Ex). by apply list_elem_of_fmap_2. }
  clear Ex. induction Hall as [|rq [r inv] l invs [-> Ha] _ IHall]; constructor.
  - destruct (Hf (rq, inv)) as (rcpt & Hfind & Hran); [left|]. exists inv, rcpt.
    simpl in *. by rewrite Hfind.
  - apply IHall. intros x Hx. apply Hf. by right.
Qed.

(** What [AcceptBatch] returns: a batch without the evidence of its puts, or for a
    node that granted no acceptance, fails as a whole before any chunk; any other goes
    chunk by chunk. *)
Definition batchOutcome (reqs : list AcceptRequest) (options : list InvOption) (t : nat)
    (r : batchResult) : Prop :=
  match reqs with
  | [] => r = ([], [], None)
  | _ :: _ =>
      match putEvidence reqs with
      | Err e => r = ([], [], Some e)
      | Ok _ =>
          match (acceptProofs t).1 with
          | Err e => r = ([], [], Some e)
          | Ok (prfs, prfLinks) => chunksSpec options prfs prfLinks reqs t r
          | _ => False
          end
      | _ => False
      end
  end.
Lemma AcceptBatch_outcome reqs options t :
  responsive → ∃ r t', AcceptBatch reqs options t = (Ok r, t') ∧ batchOutcome reqs options t r.
Proof.
  intros Hr. unfold AcceptBatch, batchOutcome. destruct reqs as [|req reqs]; [by eexists _, t|].
  unfold mbind, M_bind, attempt, try, reads. pose proof (putEvidence_returns (req :: reqs)) as Hev.
  destruct (putEvidence (req :: reqs)) as [ev|e| |] eqn:Eev; [|by eexists _, t|done..].
  unfold acceptProofs, proofChain, wrap, reads.
  pose proof (ret_ProofChain Hr proofStore (issuer_DID (issuer c)) cmd_Accept (piriDID c)) as Hp.
  destruct (ProofChain _ _ _ _) as [[prfs prfLinks]|e| |]; [|by eexists _, t|done..].
  apply (acceptChunks_spec options prfs prfLinks t _ Hr (req :: reqs) []);
    [done|constructor|done|simpl; lia|by exists ev].
Qed.

(** In short: the first [k] requests are answered, the others have no receipt;
    without an error all are answered. *)
Definition batchSpec (reqs : list AcceptRequest) (r : batchResult) : Prop :=
  let '(results, _, err) := r in
  ∃ k, k ≤ length reqs ∧ (err = None → k = length reqs) ∧
    Forall2 answered (take k reqs) (take k results) ∧
    Forall (λ res, res_Receipt res = None) (drop k results) ∧
    (length results = length reqs ∨ results = []).
Lemma chunksSpec_batch options prfs prfLinks reqs t r :
  chunksSpec options prfs prfLinks reqs t r → batchSpec reqs r.
Proof.
  destruct r as [[results metas] [e|]]; unfold chunksSpec; set (k := Nat.min _ _).
  - intros (Hk & Hall & invs & t1 & _ & Hd & Hinvs & Hs). exists k.
    assert (length invs ≤ length reqs - k) as Hle.
    { apply Forall2_length in Hinvs. rewrite length_take, length_drop in Hinvs. lia. }
    split_and!; [lia|done|done| |].
    + rewrite Hd. apply Forall_app. split; [|by apply Forall_replicate].
      apply Forall_fmap, Forall_true. by intros [].
    + left. rewrite <-(take_drop k results), Hd, !length_app, length_fmap, length_replicate.
      rewrite <-(Forall2_length _ _ _ Hall), length_take. lia.
  - intros [Hk Hall]. pose proof (Forall2_length _ _ _ Hall). exists (length reqs).
    rewrite !firstn_all2, skipn_all2 by lia. split_and!; auto.
Qed.
Lemma AcceptBatch_returns (reqs : list AcceptRequest) (options : list InvOption) (t : nat) :
  responsive →
  ∃ r t', AcceptBatch reqs options t = (Ok r, t') ∧ batchSpec reqs r.
Proof.
  intros Hr. destruct (AcceptBatch_outcome reqs options t Hr) as (r & t' & Hb & Ho).
  exists r, t'. split; [done|]. unfold batchOutcome in Ho.
  assert (∀ e, batchSpec reqs ([], [], Some e)) as Hnone.
  { intros e. exists 0. split_and!; [lia|done|constructor|constructor|by right]. }
  destruct reqs as [|req reqs]; [subst r; exists 0; split_and!; auto|].
  destruct (putEvidence _) as [ev|e| |]; [|by subst|done..].
  destruct (acceptProofs t).1 as [[prfs links]|e| |]; [by eapply chunksSpec_batch|by subst|done..].
Qed.

(** C27: while the calls it makes return, [AcceptBatch] answers, in the order of the requests, for exactly the
    requests the node answered. A batch that lacks the evidence of a put, or for which
    no proof chain is found, fails before anything is sent, with no results. Any other
    returns one result per request: as many chunks of 1000 as it returns metas have
    been executed, whatever became of the next, and each of their requests has the
    receipt of its own accept. Without an error these are all the requests; with one,
    it is what stopped the very next chunk (an invocation that could not be issued, or
    the node's failure to execute it): the invocations issued for it are returned
    without a receipt, and nothing is said of the requests after them. *)
Theorem AcceptBatch_spec (reqs : list AcceptRequest) (options : list InvOption) (t : nat) :
  responsive →
  ∃ r t', AcceptBatch reqs options t = (Ok r, t') ∧ batchOutcome reqs options t r.
Proof. apply AcceptBatch_outcome. Qed.

Lemma comesBack_proofChain command subject : responsive → comesBack (proofChain command subject).
Proof. intros Hr. apply comesBack_wrap, comesBack_reads. intros t. by apply ret_ProofChain. Qed.
Lemma comesBack_Invoke iss sub args opts :
  responsive → comesBack (observe (λ t, Invoke t iss sub args opts)).
Proof. intros Hr. apply comesBack_observe. intros t. by apply ret_Invoke. Qed.
Lemma comesBack_AcceptInvocation req options : responsive → comesBack (AcceptInvocation req options).
Proof.
  intros Hr. apply comesBack_bind; [by apply comesBack_proofChain|]. intros [prfs links].
  apply comesBack_bind; [by apply comesBack_acceptInvocation|done].
Qed.
Lemma comesBack_Accept req options : responsive → comesBack (Accept req options).
Proof.
  intros Hr. apply comesBack_bind; [apply comesBack_reads; intros; apply putEvidence_returns|].
  intros [pis prs]. apply comesBack_bind; [by apply comesBack_wrap, comesBack_AcceptInvocation|].
  intros [inv prfs]. apply comesBack_bind; [|by intros [[]]].
  apply comesBack_Execute; [done|]. intros b. by apply ret_AcceptOK.
Qed.
Lemma comesBack_Release req options : responsive → comesBack (Release req options).
Proof.
  intros Hr. apply comesBack_bind.
  { apply comesBack_wrap, comesBack_bind; [by apply comesBack_proofChain|]. intros [prfs links].
    apply comesBack_bind; [by apply comesBack_wrap, comesBack_Invoke|done]. }
  intros [inv prfs]. apply comesBack_bind; [|by intros [[]]].
  apply comesBack_Execute; [done|]. intros b. by apply ret_ReleaseOK.
Qed.
Lemma comesBack_Reject req options : responsive → comesBack (Reject req options).
Proof.
  intros Hr. apply comesBack_bind.
  { apply comesBack_wrap, comesBack_bind; [by apply comesBack_proofChain|]. intros [prfs links].
    apply comesBack_bind; [by apply comesBack_wrap, comesBack_Invoke|done]. }
  intros [inv prfs]. apply comesBack_bind; [|by intros [[]]].
  apply comesBack_Execute; [done|]. intros b. by apply ret_RejectOK.
Qed.

(** ** The task of an accept *)
Lemma AcceptInvocation_Ok req options t inv prfs t' :
  AcceptInvocation req options t = (Ok (inv, prfs), t') →
  ∃ links t0 t1, acceptInvocation req options links t0 = (Ok inv, t1).
Proof.
  unfold AcceptInvocation. rewrite M_bind_step.
  destruct (acceptProofs t) as [[[ps links]|e| |] t0]; [|done..]. rewrite M_bind_step.
  destruct (acceptInvocation req options links t0) as [[i|e| |] t1] eqn:Ei; [|done..].
  intros [= <- <- _]. by exists links, t0, t1.
Qed.
Lemma Accept_Ok req options t acceptOK inv rcpt meta t' :
  Accept req options t = (Ok (acceptOK, inv, rcpt, meta), t') →
  (∃ links t0 t1, acceptInvocation req options links t0 = (Ok inv, t1)) ∧
  ∃ o, rcpt_Out rcpt = inl o ∧ UnmarshalAcceptOK o = Ok acceptOK.
Proof.
  unfold Accept. rewrite M_bind_step. unfold reads at 1.
  destruct (putEvidence [req]) as [[pis prs]|e| |]; [|done..]. rewrite M_bind_step. unfold wrap at 1.
  destruct (AcceptInvocation req options t) as [[[i prfs]|e| |] t1] eqn:Ei; [|done..].
  rewrite M_bind_step.
  destruct (Execute _ _ _ _ _ _ _) as [[[[a r] m]|e| |] t2] eqn:Ee; [|done..].
  intros [= <- <- <- <- _]. split; [by eapply AcceptInvocation_Ok|by eapply Execute_Ok].
Qed.
End Client.

(** Whoever issues it, and whenever, an accept without a nonce of the same put for
    the same blob, space and node is the same task. *)
Lemma acceptInvocation_task (c c' : Client) req req' links links' t t' inv inv' u u' :
  piriDID c = piriDID c' →
  ac_Space req = ac_Space req' → ac_Blob req = ac_Blob req' → ac_Put req = ac_Put req' →
  acceptInvocation c req [WithNoNonce] links t = (Ok inv, u) →
  acceptInvocation c' req' [WithNoNonce] links' t' = (Ok inv', u') →
  inv_Task inv = inv_Task inv'.
Proof.
  intros Hc Hs Hb Hp. unfold acceptInvocation. rewrite !M_bind_step. unfold observe, wrap.
  rewrite <-Hc, <-Hs, <-Hb, <-Hp.
  destruct (Invoke (S t) _ _ _ _) as [i|e| |] eqn:E; [|done..].
  destruct (Invoke (S t') _ _ _ _) as [i'|e| |] eqn:E'; [|done..].
  intros [= <- _] [= <- _]. eapply Invoke_Task; [| |exact E|exact E']; left.
Qed.
End PiriClient.
End PiriClient.

(** ** Witnesses *)
Section Witnesses.
#[local] Existing Instances StrIds RecContainers RecUcan RecForge RecEnv.

Definition exampleClient : PiriClient.Client :=
  {| PiriClient.piriDID := "did:web:node" : DID; PiriClient.issuer := "did:web:sprue" : Issuer;
     PiriClient.endpoint := "https://node" |}.
Definition noProofs : @Container RecContainers := {| rc_invs := []; rc_rcpts := []; rc_dlgs := [] |}.
Definition exampleAccept (digest : string) : PiriClient.AcceptRequest :=
  {| PiriClient.ac_Space := "did:key:space" : DID;
     PiriClient.ac_Blob := {| s_digest := Some digest; s_size := 3; s_code := 18 |} : BlobSpec;
     PiriClient.ac_Put := "put" : Cid; PiriClient.ac_PutInvocation := None;
     PiriClient.ac_PutReceipt := None |}.

Lemma AcceptBatch_spec_witness :
  ∃ results metas err t', PiriClient.AcceptBatch exampleClient noProofs
      [exampleAccept "a"; exampleAccept "b"] [WithNoNonce] 0 = (Ok (results, metas, err), t') ∧
    PiriClient.batchOutcome exampleClient noProofs [exampleAccept "a"; exampleAccept "b"] [WithNoNonce] 0
      (results, metas, err) ∧
    length metas = 1 ∧ err = None.
Proof.
  destruct (PiriClient.AcceptBatch_spec exampleClient noProofs
    [exampleAccept "a"; exampleAccept "b"] [WithNoNonce] 0 rec_responsive)
    as ([[results metas] err] & t' & Hr & Hs).
  exists results, metas, err, t'. split; [exact Hr|]. split; [exact Hs|].
  apply (f_equal (λ r, match r.1 with
    | Ok (_, metas, err) => (length metas, err) | _ => (0, None) end)) in Hr.
  vm_compute in Hr. injection Hr as Hm He. split; symmetry; [exact Hm|exact He].
Defined.
End Witnesses.
