(* ===== verification/Service.v ===== *)
(** * Handlers and the state they share

    A handler answers one invocation. It fails with an error, which the server
    turns into a failure of its own, or sets the result on the response: a
    success, with the tokens that travel along, or a named failure. The blob
    handlers read and write the agent messages and the accounts, and observe the
    clock and the nodes; [Node] is the state they share. *)
From S2P Require Export PiriClient Agent Accounting.
From S2P Require Import Concrete.

(** [binding.Request] and [binding.Response]. *)
Record Request `{Ucan} (A : Type) := {
  req_Invocation : Invocation;
  req_Arguments : A;
  req_Metadata : option Container;
}.
Arguments req_Invocation {_ _ _ A} _.
Arguments req_Arguments {_ _ _ A} _.
Arguments req_Metadata {_ _ _ A} _.
Inductive Reply `{Containers} (A : Type) :=
  | SetSuccess (ok : A) (meta : option Container)
  | SetFailure (e : error).
Arguments SetSuccess {_ A} ok meta.
Arguments SetFailure {_ A} e.

(** The halves of a receipt's [Out().Unpack()]; the other one is [nil]. *)
Definition outOK `{Ucan} (rcpt : Receipt) : string :=
  match rcpt_Out rcpt with inl o => o | inr _ => "" end.
Definition outErr `{Ucan} (rcpt : Receipt) : string :=
  match rcpt_Out rcpt with inl _ => "" | inr x => x end.

Section Service.
Context `{Env} `{!CursorJSON} `{Commands}.

Record Node := {
  ticks : nat;
  agentStore : Agent.Store;
  world : World;
}.

Definition onTicks {A} (m : M nat A) : M Node A := λ n,
  let '(r, t) := m (ticks n) in
  (r, {| ticks := t; agentStore := agentStore n; world := world n |}).
Definition onAgent {A} (m : M Agent.Store A) : M Node A := λ n,
  let '(r, s) := m (agentStore n) in
  (r, {| ticks := ticks n; agentStore := s; world := world n |}).

(** [blobRegistry.Register] reads the clock three times. *)
Definition register (space : DID) (b : Blob) (cause : Cid) : M Node unit := λ n,
  let t := ticks n in
  let '(r, w) := exec (CallRegister space b cause (clock t) (clock (1 + t)) (clock (2 + t)))
                   (world n) in
  (r, {| ticks := 3 + t; agentStore := agentStore n; world := w |}).
(** [blobRegistry.Deregister] reads it twice per entry it removes. *)
Definition deregister (space : DID) (digest : Multihash) (cause : Cid) : M Node unit := λ n,
  let t := ticks n in
  let '(r, w) := exec (CallDeregister space digest cause (λ i, clock (i + t))) (world n) in
  (r, {| ticks := 2 * length (BlobRegistry.entries (registry (world n)) space) + t;
         agentStore := agentStore n; world := w |}).

Definition getInvocation (task : Cid) : M Node Invocation :=
  reads (λ n, Agent.GetInvocation (agentStore n) task).
Definition getReceipt (task : Cid) : M Node Receipt :=
  reads (λ n, Agent.GetReceipt (agentStore n) task).

(** [writeAgentMessage] of [blob_add.go]. *)
Definition writeAgentMessage (invs : list Invocation) (rcpts : list Receipt) : M Node unit :=
  let msg := container_New invs rcpts [] in
  onAgent (Agent.Write msg (Agent.Index msg)).

(** ** What registering and deregistering leave behind *)
Definition holds (n : Node) (space : DID) (digest : Multihash) : Prop :=
  digest ∈ BlobRegistry.digests (registry (world n)) space.
#[export] Instance holds_dec n space digest : Decision (holds n space digest).
Proof. unfold holds. apply _. Defined.

Lemma register_spec space b cause n :
  ∃ n', register space b cause n =
    (if decide (holds n space (Digest b)) then Err ErrEntryExists else Ok tt, n') ∧
    agentStore n' = agentStore n ∧
    ∀ space' d, holds n' space' d ↔ holds n space' d ∨ space' = space ∧ d = Digest b.
Proof.
  unfold register, exec, onRegistry, holds.
  pose proof (BlobRegistry.Register_result space b cause (clock (ticks n)) (clock (1 + ticks n))
    (clock (2 + ticks n)) (registry (world n)) (ledger (world n))) as Hr.
  pose proof (BlobRegistry.Register_digests space b cause (clock (ticks n)) (clock (1 + ticks n))
    (clock (2 + ticks n)) (registry (world n)) (ledger (world n))) as Hd.
  destruct (BlobRegistry.Register _ _ _ _ _ _ _) as [r [s l]]. simpl in *. subst r.
  eexists. split_and!; [done..|]. apply Hd.
Qed.
Lemma deregister_spec space digest cause n :
  ∃ n', deregister space digest cause n =
    (if decide (holds n space digest) then Ok tt else Err ErrEntryNotFound, n') ∧
    agentStore n' = agentStore n ∧
    ∀ space' d, holds n' space' d ↔ holds n space' d ∧ ¬ (space' = space ∧ d = digest).
Proof.
  unfold deregister, exec, onRegistry, holds.
  pose proof (BlobRegistry.Deregister_result space digest cause (λ i, clock (i + ticks n))
    (registry (world n)) (ledger (world n))) as Hr.
  pose proof (BlobRegistry.Deregister_digests space digest cause (λ i, clock (i + ticks n))
    (registry (world n)) (ledger (world n))) as Hd.
  destruct (BlobRegistry.Deregister _ _ _ _ _) as [r [s l]]. simpl in *. subst r.
  eexists. split_and!; [done..|]. apply Hd.
Qed.

(** Computations that leave the registry alone. *)
Definition keepsRegistry {A} (m : M Node A) : Prop := ∀ n, world (m n).2 = world n.
Lemma keepsRegistry_bind {A B} (m : M Node A) (k : A → M Node B) :
  keepsRegistry m → (∀ a, keepsRegistry (k a)) → keepsRegistry (m ≫= k).
Proof.
  intros Hm Hk n. unfold mbind, M_bind. specialize (Hm n).
  destruct (m n) as [[a|e| |] n']; simpl in *; [|done..]. by rewrite Hk.
Qed.
Lemma keepsRegistry_try {A} (m : M Node A) : keepsRegistry m → keepsRegistry (try m).
Proof. intros Hm n. specialize (Hm n). unfold try. by destruct (m n) as [[] ?]. Qed.
Lemma keepsRegistry_wrap {A} ctx (m : M Node A) : keepsRegistry m → keepsRegistry (wrap ctx m).
Proof. intros Hm n. specialize (Hm n). unfold wrap. by destruct (m n) as [[] ?]. Qed.
Lemma keepsRegistry_ret {A} (a : A) : keepsRegistry (mret a).
Proof. done. Qed.
Lemma keepsRegistry_fail {A} e : keepsRegistry (fail e : M Node A).
Proof. done. Qed.
Lemma keepsRegistry_reads {A} (f : Node → outcome A) : keepsRegistry (reads f).
Proof. done. Qed.
Lemma keepsRegistry_onTicks {A} (m : M nat A) : keepsRegistry (onTicks m).
Proof. intros n. unfold onTicks. by destruct (m (ticks n)). Qed.
Lemma keepsRegistry_onAgent {A} (m : M Agent.Store A) : keepsRegistry (onAgent m).
Proof. intros n. unfold onAgent. by destruct (m (agentStore n)). Qed.
Lemma keepsRegistry_writeAgentMessage invs rcpts : keepsRegistry (writeAgentMessage invs rcpts).
Proof. apply keepsRegistry_onAgent. Qed.

(** Computations that only read. *)
Definition readsOnly {A} (m : M Node A) : Prop := ∀ n, (m n).2 = n.
Lemma readsOnly_bind {A B} (m : M Node A) (k : A → M Node B) :
  readsOnly m → (∀ a, readsOnly (k a)) → readsOnly (m ≫= k).
Proof.
  intros Hm Hk n. rewrite M_bind_step. specialize (Hm n).
  destruct (m n) as [[a|e| |] n']; simpl in *; [|done..]. by rewrite Hk.
Qed.
Lemma readsOnly_try {A} (m : M Node A) : readsOnly m → readsOnly (try m).
Proof. intros Hm n. specialize (Hm n). unfold try. by destruct (m n) as [[] ?]. Qed.
Lemma readsOnly_wrap {A} ctx (m : M Node A) : readsOnly m → readsOnly (wrap ctx m).
Proof. intros Hm n. specialize (Hm n). unfold wrap. by destruct (m n) as [[] ?]. Qed.
Lemma readsOnly_ret {A} (a : A) : readsOnly (mret a).
Proof. done. Qed.
Lemma readsOnly_fail {A} e : readsOnly (fail e : M Node A).
Proof. done. Qed.
Lemma readsOnly_reads {A} (f : Node → outcome A) : readsOnly (reads f).
Proof. done. Qed.
Lemma readsOnly_getInvocation task : readsOnly (getInvocation task).
Proof. done. Qed.
Lemma readsOnly_getReceipt task : readsOnly (getReceipt task).
Proof. done. Qed.

(** ** Handlers that always come back

    Where every outside call returns and the message store is sound, a handler
    ends in a value or an error, and leaves the message store sound. *)
Definition sound (n : Node) : Prop := Agent.sound (agentStore n).
Definition completes {A} (m : M Node A) : Prop := ∀ n, sound n → returns (m n).1 ∧ sound (m n).2.

Lemma completes_bind {A B} (m : M Node A) (k : A → M Node B) :
  completes m → (∀ a, completes (k a)) → completes (m ≫= k).
Proof.
  intros Hm Hk n Hn. rewrite M_bind_step. destruct (Hm n Hn) as [Hr Hs].
  destruct (m n) as [[a|e| |] n']; [by apply Hk|done..].
Qed.
Lemma completes_try {A} (m : M Node A) : completes m → completes (try m).
Proof.
  intros Hm n Hn. unfold try. destruct (Hm n Hn). by destruct (m n) as [[] ?].
Qed.
Lemma completes_wrap {A} ctx (m : M Node A) : completes m → completes (wrap ctx m).
Proof.
  intros Hm n Hn. unfold wrap. destruct (Hm n Hn). by destruct (m n) as [[] ?].
Qed.
Lemma completes_ret {A} (a : A) : completes (mret a).
Proof. by intros n Hn. Qed.
Lemma completes_fail {A} e : completes (fail e : M Node A).
Proof. by intros n Hn. Qed.
Lemma completes_reads {A} (f : Node → outcome A) :
  (∀ n, sound n → returns (f n)) → completes (reads f).
Proof. intros Hf n Hn. split; [by apply Hf|done]. Qed.
Lemma completes_onTicks {A} (m : M nat A) : comesBack m → completes (onTicks m).
Proof.
  intros Hm n Hn. unfold onTicks. specialize (Hm (ticks n)). by destruct (m (ticks n)) as [[] ?].
Qed.
Lemma completes_getInvocation task : completes (getInvocation task).
Proof.
  apply completes_reads. intros n Hn. by destruct (Agent.GetInvocation_sound _ task Hn) as [[? ->]| ->].
Qed.
Lemma completes_getReceipt task : completes (getReceipt task).
Proof.
  apply completes_reads. intros n Hn. by destruct (Agent.GetReceipt_sound _ task Hn) as [[? ->]| ->].
Qed.
Lemma returns_writeAgentMessage invs rcpts n :
  responsive → returns (writeAgentMessage invs rcpts n).1.
Proof.
  intros Hr. unfold writeAgentMessage, onAgent, Agent.Write, Agent.messageLink.
  set (ct := if ct_concrete _ then _ else _). pose proof (ret_MarshalCBOR Hr ct) as Hm.
  destruct (container_MarshalCBOR ct) as [buf|e| |]; cbn [owrap mbind outcome_bind]; [|done..].
  pose proof (ret_Sum Hr buf) as Hs. by destruct (message_Sum buf); cbn [owrap].
Qed.
Lemma sound_writeAgentMessage invs rcpts n : sound n → sound (writeAgentMessage invs rcpts n).2.
Proof.
  intros Hn. unfold writeAgentMessage, onAgent. set (msg := container_New invs rcpts []).
  pose proof (Agent.sound_Write msg (Agent.Index msg) _ Hn) as Hs.
  by destruct (Agent.Write _ _ _) as [r s].
Qed.
Lemma completes_writeAgentMessage invs rcpts :
  responsive → completes (writeAgentMessage invs rcpts).
Proof.
  intros Hr n Hn. split; [by apply returns_writeAgentMessage|by apply sound_writeAgentMessage].
Qed.
Lemma completes_register space b cause : completes (register space b cause).
Proof.
  intros n Hn. destruct (register_spec space b cause n) as (n' & -> & Ha & _). unfold sound.
  cbn [fst snd]. rewrite Ha. split; [by case_decide|done].
Qed.
Lemma completes_deregister space digest cause : completes (deregister space digest cause).
Proof.
  intros n Hn. destruct (deregister_spec space digest cause n) as (n' & -> & Ha & _). unfold sound.
  cbn [fst snd]. rewrite Ha. split; [by case_decide|done].
Qed.

(** ** The accounts only move by the registry's and the upload store's own calls *)
(** All registrations a handler makes have sizes of the kind [ok]. *)
Definition keepsBooks (ok : Z → Prop) {A} (m : M Node A) : Prop := ∀ n,
  rtc (stepFor ok) (world n) (world (m n).2).

Section KeepsBooks.
Context {ok : Z → Prop}.

Lemma keepsBooks_bind {A B} (m : M Node A) (k : A → M Node B) :
  keepsBooks ok m → (∀ a, keepsBooks ok (k a)) → keepsBooks ok (m ≫= k).
Proof.
  intros Hm Hk n. unfold mbind, M_bind. specialize (Hm n).
  destruct (m n) as [[a|e| |] n']; [|done..]. etrans; [exact Hm|apply Hk].
Qed.
Lemma keepsBooks_try {A} (m : M Node A) : keepsBooks ok m → keepsBooks ok (try m).
Proof. intros Hm n. specialize (Hm n). unfold try. by destruct (m n) as [[] ?]. Qed.
Lemma keepsBooks_wrap {A} ctx (m : M Node A) : keepsBooks ok m → keepsBooks ok (wrap ctx m).
Proof. intros Hm n. specialize (Hm n). unfold wrap. by destruct (m n) as [[] ?]. Qed.
Lemma keepsBooks_ret {A} (a : A) : keepsBooks ok (mret a).
Proof. intros n. apply rtc_refl. Qed.
Lemma keepsBooks_fail {A} e : keepsBooks ok (fail e : M Node A).
Proof. intros n. apply rtc_refl. Qed.
Lemma keepsBooks_reads {A} (f : Node → outcome A) : keepsBooks ok (reads f).
Proof. intros n. apply rtc_refl. Qed.
Lemma keepsBooks_onTicks {A} (m : M nat A) : keepsBooks ok (onTicks m).
Proof. intros n. unfold onTicks. destruct (m (ticks n)). apply rtc_refl. Qed.
Lemma keepsBooks_onAgent {A} (m : M Agent.Store A) : keepsBooks ok (onAgent m).
Proof. intros n. unfold onAgent. destruct (m (agentStore n)). apply rtc_refl. Qed.
Lemma keepsBooks_register space b cause :
  ok (BlobSize b) → keepsBooks ok (register space b cause).
Proof.
  intros Hb n. apply rtc_once. unfold register.
  pose proof (step_call ok (CallRegister space b cause (clock (ticks n)) (clock (1 + ticks n))
    (clock (2 + ticks n))) (world n) Hb) as Hs.
  by destruct (exec _ _) as [r w].
Qed.
Lemma keepsBooks_deregister space digest cause : keepsBooks ok (deregister space digest cause).
Proof.
  intros n. apply rtc_once. unfold deregister.
  pose proof (step_call ok (CallDeregister space digest cause (λ i, clock (i + ticks n)))
    (world n) I) as Hs.
  by destruct (exec _ _) as [r w].
Qed.
Lemma keepsBooks_writeAgentMessage invs rcpts : keepsBooks ok (writeAgentMessage invs rcpts).
Proof. apply keepsBooks_onAgent. Qed.
End KeepsBooks.
End Service.

Create HintDb readonly.
#[export] Hint Resolve readsOnly_bind readsOnly_try readsOnly_wrap readsOnly_ret readsOnly_fail
  readsOnly_reads readsOnly_getInvocation readsOnly_getReceipt : readonly.
Create HintDb completes.
#[export] Hint Resolve completes_bind completes_try completes_wrap completes_ret completes_fail
  completes_reads completes_onTicks completes_getInvocation completes_getReceipt
  completes_writeAgentMessage completes_register completes_deregister : completes.
Create HintDb registry.
#[export] Hint Resolve keepsRegistry_bind keepsRegistry_try keepsRegistry_wrap keepsRegistry_ret
  keepsRegistry_fail keepsRegistry_reads keepsRegistry_onTicks keepsRegistry_onAgent
  keepsRegistry_writeAgentMessage : registry.
Create HintDb books.
#[export] Hint Resolve keepsBooks_bind keepsBooks_try keepsBooks_wrap keepsBooks_ret
  keepsBooks_fail keepsBooks_reads keepsBooks_onTicks keepsBooks_onAgent
  keepsBooks_register keepsBooks_deregister keepsBooks_writeAgentMessage : books.

(** ** A service to compute with: one registered node, nothing stored yet *)
Section Examples.
#[local] Existing Instances StrIds NumberJSON StrCommands RecContainers RecUcan RecForge RecEnv.

Definition nodeAt (endpoint : string) : StorageProvider.Kept :=
  {| StorageProvider.kept_store :=
       (StorageProvider.Add (str_did "did:web:node") endpoint 1 None (Some noProofs) 0
          StorageProvider.New).2;
     StorageProvider.kept_wf :=
       StorageProvider.providers_wf_Add _ _ _ _ _ _ _ StorageProvider.providers_wf_New |}.
Definition sprue : @Issuer StrIds RecContainers RecUcan RecForge := "did:web:sprue".
Definition freshNode : Node :=
  {| ticks := 0; agentStore := Agent.New; world := emptyWorld |}.
(** An invocation of [command] on [subject], issued by [issuer]. *)
Definition asks {A} (task issuer subject command : string) (args : A) : Request A := {|
  req_Invocation := {| t_task := task; t_issuer := issuer; t_subject := subject;
    t_audience := "did:web:sprue"; t_command := command; t_args := ""; t_nonce := "1" |}
      : Invocation;
  req_Arguments := args; req_Metadata := None |}.
End Examples.
