(* ===== verification/Conclude.v ===== *)
(** * Concluding: [ucan_conclude.go] and [ucan_conclude_http_put.go]

    A client that put its blobs reports the receipts with [/ucan/conclude]. The
    receipts are grouped by the command they ran; the puts among them are
    accepted on the nodes their allocations name, one batch per node, and the
    blobs the nodes accepted are registered. *)
From S2P Require Export Service.
From S2P Require Import Concrete.

Module Conclude.
Section Conclude.
Context `{Env} `{!CursorJSON} `{Commands}.
Import PiriClient.

Record Conclusion := { co_Invocation : Invocation; co_Receipt : Receipt }.
(** What a conclusion handler returns: a container, which may be nil, and an
    error, which may be too. *)
Definition ConclusionHandlerFunc : Type :=
  list Conclusion → M Node (option Container * option error).

(** ** From a delivered put to the allocation it fulfils *)
Record concludedPut := {
  putInv : Invocation;
  provider : DID;
  space : DID;
  blob : Blob;
  cause : Cid;
  acceptReq : AcceptRequest;
}.

Definition putDigest (rcpt : Receipt) (code : Z) : outcome Multihash :=
  putOK ← owrap "decoding put result" (UnmarshalPutOK (outOK rcpt));
  match putOK with
  | None => Err (Errorf "put result reports no digest")
  | Some digest =>
      decoded ← owrap "decoding reported digest" (multihash_Code digest);
      if bool_decide (decoded ≠ code)
      then Err (Errorf ("reported digest has code 0x" +:+ hex decoded +:+
                        ", allocation names 0x" +:+ hex code))
      else Ok digest
  end.

(** The first loop of [resolveAllocations]: the allocation each put names. *)
Fixpoint allocTasks (conclusions : list Conclusion) : outcome (list Cid) :=
  match conclusions with
  | [] => Ok []
  | c :: conclusions =>
      putArgs ← owrap "unmarshaling HTTP PUT arguments"
                  (UnmarshalPutArguments (inv_ArgumentsBytes (co_Invocation c)));
      tasks ← allocTasks conclusions;
      Ok (pa_Destination putArgs :: tasks)
  end.

(** One put of the second loop; [None] is one that is skipped. *)
Definition resolvePut (allocInvs : gmap Cid Invocation) (conclusion : Conclusion) (task : Cid)
    : outcome (option concludedPut) :=
  match allocInvs !! task with
  | None => Err (Wrap "getting allocation invocation" ErrInvocationNotFound)
  | Some allocInv =>
      allocArgs ← owrap "unmarshaling allocate arguments"
                    (UnmarshalAllocateArguments (inv_ArgumentsBytes allocInv));
      let req := {| ac_Space := aa_Space allocArgs; ac_Blob := aa_Blob allocArgs;
                    ac_Put := inv_Task (co_Invocation conclusion);
                    ac_PutInvocation := Some (co_Invocation conclusion);
                    ac_PutReceipt := Some (co_Receipt conclusion) |} in
      let put digest := {| putInv := co_Invocation conclusion;
                           provider := inv_Subject allocInv;
                           space := aa_Space allocArgs;
                           blob := {| Digest := digest;
                                      BlobSize := spec_Size (aa_Blob allocArgs) |};
                           cause := aa_Cause allocArgs;
                           acceptReq := req |} in
      match spec_Digest (aa_Blob allocArgs) with
      | Some digest => Ok (Some (put digest))
      | None =>
          match putDigest (co_Receipt conclusion) (spec_DigestCode (aa_Blob allocArgs)) with
          | Ok digest => Ok (Some (put digest))
          | Err _ => Ok None
          | Panic => Panic
          | Diverge => Diverge
          end
      end
  end.

Fixpoint resolveLoop (allocInvs : gmap Cid Invocation) (conclusions : list (Conclusion * Cid))
    : outcome (list concludedPut) :=
  match conclusions with
  | [] => Ok []
  | (c, task) :: conclusions =>
      put ← resolvePut allocInvs c task;
      puts ← resolveLoop allocInvs conclusions;
      Ok (option_list put ++ puts)
  end.

Definition resolveAllocations (s : Agent.Store) (conclusions : list Conclusion)
    : outcome (list concludedPut) :=
  tasks ← allocTasks conclusions;
  allocInvs ← owrap "getting allocation invocations" (Agent.GetInvocations s tasks);
  resolveLoop allocInvs (zip conclusions tasks).

(** ** What an accept receipt names *)
Definition acceptResult (rcpt : Receipt) : outcome AcceptOK :=
  acceptOK ← owrap "decoding accept result" (UnmarshalAcceptOK (outOK rcpt));
  if negb (cid_Defined (ok_Site acceptOK))
  then Err (Errorf "accept result names no location commitment")
  else if negb (cid_Defined (ok_PDP acceptOK))
  then Err (Errorf "accept result names no PDP task")
  else Ok acceptOK.

Definition attachedLinks (rcpt : Receipt) : list Cid :=
  if IsErr rcpt then []
  else match acceptResult rcpt with
       | Ok acceptOK => [ok_Site acceptOK; ok_PDP acceptOK]
       | _ => []
       end.

(** ** Pairing receipts with what the node attached *)
Record acceptance := { acc_invs : list Invocation; acc_rcpts : list Receipt }.
Definition tokens (a : acceptance) : Z := len (acc_invs a) + len (acc_rcpts a).

(** The containers a node sent, in order, without the nil ones. *)
Definition metaInvs (metas : list (option Container)) : list Invocation :=
  metas ≫= λ meta, match meta with Some ct => ct_Invocations ct | None => [] end.
Definition metaRcpts (metas : list (option Container)) : list Receipt :=
  metas ≫= λ meta, match meta with Some ct => ct_Receipts ct | None => [] end.

(** A Go map filled in order: a later value replaces an earlier one. *)
Definition invsBy (key : Invocation → Cid) (invs : list Invocation) : gmap Cid Invocation :=
  foldl (λ m inv, <[key inv := inv]> m) ∅ invs.
Definition rcptsByRan (rcpts : list Receipt) (task : Cid) : list Receipt :=
  filter (λ rcpt, rcpt_Ran rcpt = task) rcpts.

(** The links that have been claimed by an acceptance. *)
Record claimed := { claimedInvs : gset Cid; claimedRcpts : gset Cid }.

(** The innermost loop: the receipts of an attached task. *)
Fixpoint claimRcpts (rcpts : list Receipt) (a : acceptance) (cl : claimed)
    : acceptance * claimed :=
  match rcpts with
  | [] => (a, cl)
  | rcpt :: rcpts =>
      if bool_decide (rcpt_Link rcpt ∈ claimedRcpts cl) then claimRcpts rcpts a cl
      else claimRcpts rcpts
             {| acc_invs := acc_invs a; acc_rcpts := acc_rcpts a ++ [rcpt] |}
             {| claimedInvs := claimedInvs cl;
                claimedRcpts := {[ rcpt_Link rcpt ]} ∪ claimedRcpts cl |}
  end.

(** The loop over the links a receipt names. *)
Fixpoint claimLinks (metas : list (option Container)) (links : list Cid) (a : acceptance)
    (cl : claimed) : acceptance * claimed :=
  match links with
  | [] => (a, cl)
  | link :: links =>
      let byLink := invsBy inv_Link (metaInvs metas) in
      let byTask := invsBy inv_Task (metaInvs metas) in
      let found := match byLink !! link with Some inv => Some inv | None => byTask !! link end in
      match found with
      | None => claimLinks metas links a cl
      | Some inv =>
          if bool_decide (inv_Link inv ∈ claimedInvs cl) then claimLinks metas links a cl
          else
            let '(a, cl) := claimRcpts (rcptsByRan (metaRcpts metas) (inv_Task inv))
              {| acc_invs := acc_invs a ++ [inv]; acc_rcpts := acc_rcpts a |}
              {| claimedInvs := {[ inv_Link inv ]} ∪ claimedInvs cl;
                 claimedRcpts := claimedRcpts cl |} in
            claimLinks metas links a cl
      end
  end.

(** The loop over the results. *)
Fixpoint claimResults (metas : list (option Container)) (results : list AcceptResult)
    (cl : claimed) : list acceptance * claimed :=
  match results with
  | [] => ([], cl)
  | res :: results =>
      match res_Receipt res with
      | None => claimResults metas results cl
      | Some rcpt =>
          let '(a, cl) := claimLinks metas (attachedLinks rcpt)
            {| acc_invs := option_list (res_Invocation res); acc_rcpts := [rcpt] |}
            {| claimedInvs := claimedInvs cl;
               claimedRcpts := {[ rcpt_Link rcpt ]} ∪ claimedRcpts cl |} in
          let '(acceptances, cl) := claimResults metas results cl in
          (a :: acceptances, cl)
      end
  end.

(** What no acceptance claimed, container by container. *)
Fixpoint leftInvs (invs : list Invocation) (cl : claimed) : list acceptance * claimed :=
  match invs with
  | [] => ([], cl)
  | inv :: invs =>
      if bool_decide (inv_Link inv ∈ claimedInvs cl) then leftInvs invs cl
      else
        let '(acceptances, cl) := leftInvs invs
          {| claimedInvs := {[ inv_Link inv ]} ∪ claimedInvs cl;
             claimedRcpts := claimedRcpts cl |} in
        ({| acc_invs := [inv]; acc_rcpts := [] |} :: acceptances, cl)
  end.
Fixpoint leftRcpts (rcpts : list Receipt) (cl : claimed) : list acceptance * claimed :=
  match rcpts with
  | [] => ([], cl)
  | rcpt :: rcpts =>
      if bool_decide (rcpt_Link rcpt ∈ claimedRcpts cl) then leftRcpts rcpts cl
      else
        let '(acceptances, cl) := leftRcpts rcpts
          {| claimedInvs := claimedInvs cl;
             claimedRcpts := {[ rcpt_Link rcpt ]} ∪ claimedRcpts cl |} in
        ({| acc_invs := []; acc_rcpts := [rcpt] |} :: acceptances, cl)
  end.
Fixpoint leftOver (metas : list (option Container)) (cl : claimed) : list acceptance * claimed :=
  match metas with
  | [] => ([], cl)
  | None :: metas => leftOver metas cl
  | Some meta :: metas =>
      let '(invs, cl) := leftInvs (ct_Invocations meta) cl in
      let '(rcpts, cl) := leftRcpts (ct_Receipts meta) cl in
      let '(acceptances, cl) := leftOver metas cl in
      (invs ++ rcpts ++ acceptances, cl)
  end.

Definition noneClaimed : claimed := {| claimedInvs := ∅; claimedRcpts := ∅ |}.
Definition groupAcceptances (results : list AcceptResult) (metas : list (option Container))
    : list acceptance :=
  let '(acceptances, cl) := claimResults metas results noneClaimed in
  acceptances ++ (leftOver metas cl).1.

(** ** Persisting and answering within a container's tokens *)
Definition containerTokenBudget : Z := container_MaxTokens - 256.

Fixpoint writeLoop (acceptances : list acceptance) (invs : list Invocation)
    (rcpts : list Receipt) : M Node unit :=
  match acceptances with
  | [] => if (0 <? len invs + len rcpts)%Z then writeAgentMessage invs rcpts else mret tt
  | a :: acceptances =>
      if (0 <? len invs + len rcpts)%Z &&
         (containerTokenBudget <? len invs + len rcpts + tokens a)%Z
      then
        _ ← writeAgentMessage invs rcpts;
        writeLoop acceptances (acc_invs a) (acc_rcpts a)
      else writeLoop acceptances (invs ++ acc_invs a) (rcpts ++ acc_rcpts a)
  end.
Definition writeAgentMessages (acceptances : list acceptance) : M Node unit :=
  writeLoop acceptances [] [].

Definition concludeResponse (invs : list Invocation) (rcpts : list Receipt) : option Container :=
  let ct := container_New invs rcpts [] in
  if (containerTokenBudget <? len (ct_Invocations ct) + len (ct_Receipts ct) +
                              len (ct_Delegations ct))%Z
  then None else Some ct.

(** ** Accepting on one provider *)
Definition invocationsByLink (metas : list (option Container)) : gmap Cid Invocation :=
  invsBy inv_Link (metaInvs metas).

Definition checkLocationContent (claim : option Invocation) (digest : Multihash) : outcome unit :=
  match claim with
  | None => Err (Errorf "location commitment not in the response")
  | Some claim =>
      if bool_decide (inv_Command claim ≠ cmd_Location)
      then Err (Errorf ("site is a " +:+ inv_Command claim +:+ " invocation"))
      else
        content ← owrap "decoding location commitment"
                    (UnmarshalLocationArguments (inv_ArgumentsBytes claim));
        if bool_decide (content ≠ digest)
        then Err (Errorf ("location commitment names " +:+ digestutil_Format content +:+
                          ", put reports " +:+ digestutil_Format digest))
        else Ok tt
  end.

(** Whether a result shows that the node holds the blob of the put: a success
    that decodes as an acceptance and, for a blob the node hashed itself, names a
    location commitment for the digest the put reported. *)
Definition acceptable (claims : gmap Cid Invocation) (put : concludedPut) (res : AcceptResult)
    : outcome bool :=
  match res_Receipt res with
  | None => Ok false
  | Some rcpt =>
      if IsErr rcpt then
        match UnmarshalErrorModel (outErr rcpt) with
        | Panic => Panic
        | Diverge => Diverge
        | _ => Ok false
        end
      else
        match acceptResult rcpt with
        | Err _ => Ok false
        | Ok acceptOK =>
            match spec_Digest (ac_Blob (acceptReq put)) with
            | Some _ => Ok true
            | None =>
                match checkLocationContent (claims !! ok_Site acceptOK) (Digest (blob put)) with
                | Ok _ => Ok true
                | Err _ => Ok false
                | Panic => Panic
                | Diverge => Diverge
                end
            end
        | Panic => Panic
        | Diverge => Diverge
        end
  end.

(** The loop over the results; an error other than an existing entry ends it. *)
Fixpoint registerLoop (claims : gmap Cid Invocation) (results : list AcceptResult)
    (puts : list concludedPut) : M Node (option error) :=
  match results, puts with
  | [], _ => mret None
  | _ :: _, [] => λ n, (Panic, n)
  | res :: results, put :: puts =>
      ok ← reads (λ _, acceptable claims put res);
      if ok : bool then
        registered ← try (register (space put) (blob put) (cause put));
        match registered with
        | inl _ => registerLoop claims results puts
        | inr err => if Is err ErrEntryExists then registerLoop claims results puts
                     else mret (Some err)
        end
      else registerLoop claims results puts
  end.

Section Provider.
Context {P : Type} `{!StorageProvider.Reads P} (router : P) (serviceIssuer : Issuer).

Definition acceptOnProvider (prov : DID) (puts : list concludedPut)
    : M Node (list Invocation * list Receipt * option error) :=
  info ← try (wrap "getting storage provider info"
                (reads (λ _, Routing.GetProviderInfo router prov)));
  match info with
  | inr err => mret ([], [], Some err)
  | inl info =>
      cl ← try (wrap "creating client"
                  (reads (λ _, client serviceIssuer (Routing.ID info) (Routing.infoEndpoint info))));
      match cl with
      | inr err => mret ([], [], Some err)
      | inl cl =>
          '(results, metas, acceptErr) ←
            onTicks (AcceptBatch cl (Routing.infoProofs info) (acceptReq <$> puts) [WithNoNonce]);
          let acceptErr := Wrap "executing blob accept" <$> acceptErr in
          let acceptances := groupAcceptances results metas in
          let accInvs := acceptances ≫= acc_invs in
          let accRcpts := acceptances ≫= acc_rcpts in
          written ← try (wrap "writing agent message" (writeAgentMessages acceptances));
          match written with
          | inr err => mret (accInvs, accRcpts, Some err)
          | inl _ =>
              err ← registerLoop (invocationsByLink metas) results puts;
              match err with
              | Some err => mret (accInvs, accRcpts, Some err)
              | None => mret (accInvs, accRcpts, acceptErr)
              end
          end
      end
  end.

(** The puts of each provider, the providers in the order they are first met. *)
Definition providersOf (puts : list concludedPut) : list DID :=
  foldl (λ l put, if bool_decide (provider put ∈ l) then l else l ++ [provider put]) [] puts.
Definition byProvider (puts : list concludedPut) (prov : DID) : list concludedPut :=
  filter (λ put, provider put = prov) puts.

Fixpoint acceptLoop (puts : list concludedPut) (provs : list DID) (invs : list Invocation)
    (rcpts : list Receipt) : M Node (option Container * option error) :=
  match provs with
  | [] => mret (concludeResponse invs rcpts, None)
  | prov :: provs =>
      '(is_, rs, err) ← acceptOnProvider prov (byProvider puts prov);
      match err with
      | Some err => mret (concludeResponse (invs ++ is_) (rcpts ++ rs), Some err)
      | None => acceptLoop puts provs (invs ++ is_) (rcpts ++ rs)
      end
  end.

(** [NewHTTPPutConcludeHandler]: failed puts are skipped. *)
Definition httpPutConclude : ConclusionHandlerFunc := λ conclusions,
  match filter (λ c, IsErr (co_Receipt c) = false) conclusions with
  | [] => mret (None, None)
  | delivered =>
      puts ← try (reads (λ n, resolveAllocations (agentStore n) delivered));
      match puts with
      | inr err => mret (None, Some err)
      | inl puts => acceptLoop puts (providersOf puts) [] []
      end
  end.
End Provider.

(** ** [/ucan/conclude] *)
Definition rcptsByLink (rcpts : list Receipt) : gmap Cid Receipt :=
  foldl (λ m rcpt, <[rcpt_Link rcpt := rcpt]> m) ∅ rcpts.

(** The delivered receipts with the invocations they ran; a receipt whose
    invocation nobody knows is passed over. [inl] ends the handler. *)
Fixpoint matchReceipts (byLink : gmap Cid Receipt) (byTask : gmap Cid Invocation)
    (roots : list Cid) : M Node (Reply unit + list Conclusion) :=
  match roots with
  | [] => mret (inr [])
  | root :: roots =>
      match byLink !! root with
      | None => mret (inl (SetFailure ErrConclusionReceiptNotFound))
      | Some rcpt =>
          found ← match byTask !! rcpt_Ran rcpt with
                  | Some inv => mret (Some inv)
                  | None =>
                      inv ← try (getInvocation (rcpt_Ran rcpt));
                      match inv with
                      | inl inv => mret (Some inv)
                      | inr err => if Is err ErrInvocationNotFound then mret None
                                   else fail (Wrap "getting invocation" err)
                      end
                  end;
          rest ← matchReceipts byLink byTask roots;
          match found, rest with
          | Some inv, inr conclusions =>
              mret (inr ({| co_Invocation := inv; co_Receipt := rcpt |} :: conclusions))
          | _, _ => mret rest
          end
      end
  end.

Definition commandOf (c : Conclusion) : string := inv_Command (co_Invocation c).
(** The commands ran, in the order they are first met, and the group of each. *)
Definition commandsOf (conclusions : list Conclusion) : list string :=
  foldl (λ l c, if bool_decide (commandOf c ∈ l) then l else l ++ [commandOf c]) [] conclusions.
Definition byCommand (conclusions : list Conclusion) (cmd : string) : list Conclusion :=
  filter (λ c, commandOf c = cmd) conclusions.

Record gathered := {
  ga_invs : list Invocation; ga_rcpts : list Receipt; ga_dlgs : list Delegation;
}.
Definition gather (g : gathered) (meta : option Container) : gathered :=
  match meta with
  | None => g
  | Some ct => {| ga_invs := ga_invs g ++ ct_Invocations ct;
                  ga_rcpts := ga_rcpts g ++ ct_Receipts ct;
                  ga_dlgs := ga_dlgs g ++ ct_Delegations ct |}
  end.

Fixpoint runHandlers (handlers : gmap string ConclusionHandlerFunc)
    (conclusions : list Conclusion) (cmds : list string) (g : gathered) : M Node gathered :=
  match cmds with
  | [] => mret g
  | cmd :: cmds =>
      match handlers !! cmd with
      | None => runHandlers handlers conclusions cmds g
      | Some handler =>
          '(meta, err) ← handler (byCommand conclusions cmd);
          let g := gather g meta in
          match err with
          | Some err => fail (Wrap ("concluding " +:+ quoted cmd) err)
          | None => runHandlers handlers conclusions cmds g
          end
      end
  end.

Definition conclude (handlers : gmap string ConclusionHandlerFunc)
    (req : Request (list Cid)) : M Node (Reply unit) :=
  let metaRcpts := match req_Metadata req with Some ct => ct_Receipts ct | None => [] end in
  let metaInvs := match req_Metadata req with Some ct => ct_Invocations ct | None => [] end in
  matched ← matchReceipts (rcptsByLink metaRcpts) (invsBy inv_Task metaInvs) (req_Arguments req);
  match matched with
  | inl reply => mret reply
  | inr conclusions =>
      g ← runHandlers handlers conclusions (commandsOf conclusions)
            {| ga_invs := []; ga_rcpts := []; ga_dlgs := [] |};
      let meta :=
        if (0 <? len (ga_invs g))%Z || (0 <? len (ga_rcpts g))%Z || (0 <? len (ga_dlgs g))%Z
        then Some (container_New (ga_invs g) (ga_rcpts g) (ga_dlgs g)) else None in
      mret (SetSuccess tt meta)
  end.
(** ** Nothing a node sent is lost or recorded twice *)

(** Between two sets of claims, the invocations and receipts of the node's
    metadata that were claimed; [own] are the receipts of the results. *)
Record claims (metas : list (option Container)) (cl cl' : claimed) (own : list Receipt)
    (invs : list Invocation) (rcpts : list Receipt) : Prop := {
  cl_invs l : l ∈ claimedInvs cl' ↔ l ∈ claimedInvs cl ∨ l ∈ inv_Link <$> invs;
  cl_rcpts l : l ∈ claimedRcpts cl' ↔ l ∈ claimedRcpts cl ∨ l ∈ rcpt_Link <$> (own ++ rcpts);
  cl_invs_NoDup : NoDup invs;
  cl_rcpts_NoDup : NoDup rcpts;
  cl_invs_fresh inv : inv ∈ invs → inv_Link inv ∉ claimedInvs cl ∧ inv ∈ metaInvs metas;
  cl_rcpts_fresh rcpt : rcpt ∈ rcpts → rcpt_Link rcpt ∉ claimedRcpts cl ∧ rcpt ∈ metaRcpts metas;
}.

Lemma claims_refl metas cl : claims metas cl cl [] [] [].
Proof. split; try constructor; set_solver. Qed.

Lemma claims_trans metas cl cl1 cl2 own1 own2 i1 i2 r1 r2 :
  claims metas cl cl1 own1 i1 r1 → claims metas cl1 cl2 own2 i2 r2 →
  claims metas cl cl2 (own1 ++ own2) (i1 ++ i2) (r1 ++ r2).
Proof.
  intros [Hi1 Hr1 Hn1 Hm1 Hf1 Hg1] [Hi2 Hr2 Hn2 Hm2 Hf2 Hg2]. split.
  - intros l. rewrite Hi2, Hi1, fmap_app, elem_of_app. tauto.
  - intros l. rewrite Hr2, Hr1, !fmap_app, !elem_of_app. tauto.
  - apply NoDup_app. split_and!; [done| |done]. intros inv Hin Hin2.
    apply Hf2 in Hin2 as [Hnin _]. apply Hnin, Hi1. right. by apply list_elem_of_fmap_2.
  - apply NoDup_app. split_and!; [done| |done]. intros rcpt Hin Hin2.
    apply Hg2 in Hin2 as [Hnin _]. apply Hnin, Hr1. right. rewrite fmap_app. apply elem_of_app.
    right. by apply list_elem_of_fmap_2.
  - intros inv [Hin|Hin]%elem_of_app; [by apply Hf1|]. apply Hf2 in Hin as [Hnin ?].
    split; [|done]. intros ?. apply Hnin, Hi1. by left.
  - intros rcpt [Hin|Hin]%elem_of_app; [by apply Hg1|]. apply Hg2 in Hin as [Hnin ?].
    split; [|done]. intros ?. apply Hnin, Hr1. by left.
Qed.

Lemma claims_own metas cl rcpt :
  claims metas cl {| claimedInvs := claimedInvs cl;
                     claimedRcpts := {[ rcpt_Link rcpt ]} ∪ claimedRcpts cl |} [rcpt] [] [].
Proof. split; cbn [claimedInvs claimedRcpts]; try constructor; set_solver. Qed.
Lemma claims_inv metas cl inv :
  inv_Link inv ∉ claimedInvs cl → inv ∈ metaInvs metas →
  claims metas cl {| claimedInvs := {[ inv_Link inv ]} ∪ claimedInvs cl;
                     claimedRcpts := claimedRcpts cl |} [] [inv] [].
Proof.
  intros. split; cbn [claimedInvs claimedRcpts]; try apply NoDup_singleton; try constructor;
    set_solver.
Qed.
Lemma claims_rcpt metas cl rcpt :
  rcpt_Link rcpt ∉ claimedRcpts cl → rcpt ∈ metaRcpts metas →
  claims metas cl {| claimedInvs := claimedInvs cl;
                     claimedRcpts := {[ rcpt_Link rcpt ]} ∪ claimedRcpts cl |} [] [] [rcpt].
Proof.
  intros. split; cbn [claimedInvs claimedRcpts]; try apply NoDup_singleton; try constructor;
    set_solver.
Qed.

Lemma claimRcpts_claims metas rcpts a cl a' cl' :
  (∀ r, r ∈ rcpts → r ∈ metaRcpts metas) →
  claimRcpts rcpts a cl = (a', cl') →
  ∃ new, acc_invs a' = acc_invs a ∧ acc_rcpts a' = acc_rcpts a ++ new ∧
    claims metas cl cl' [] [] new.
Proof.
  revert a cl. induction rcpts as [|rcpt rcpts IH]; intros a cl Hm Hc; simpl in Hc.
  { simplify_eq. exists []. rewrite app_nil_r. split_and!; [done..|apply claims_refl]. }
  case_bool_decide as Hb.
  - apply IH in Hc; [done|]. set_solver.
  - apply IH in Hc as (new & Hi & Hr & Hc); [|set_solver]. simpl in Hi, Hr.
    exists (rcpt :: new). split_and!; [done|by rewrite Hr, <-app_assoc|].
    eapply (claims_trans _ _ _ _ [] [] [] [] [rcpt]); [|done]. apply claims_rcpt; set_solver.
Qed.

Lemma invsBy_elem key invs link inv : invsBy key invs !! link = Some inv → inv ∈ invs ∧ key inv = link.
Proof.
  unfold invsBy. induction invs as [|x invs IH] using rev_ind; [done|].
  rewrite foldl_app. simpl. intros [[<- <-]|[_ Hin]]%lookup_insert_Some; [set_solver|].
  apply IH in Hin. set_solver.
Qed.
Lemma invsBy_is_Some key invs inv : inv ∈ invs → is_Some (invsBy key invs !! key inv).
Proof.
  unfold invsBy. induction invs as [|x invs IH] using rev_ind; [by intros ?%elem_of_nil|].
  rewrite foldl_app. simpl. intros Hin. destruct (decide (key x = key inv)) as [->|Hne].
  - rewrite lookup_insert_eq. eauto.
  - rewrite lookup_insert_ne by done. apply IH. set_solver.
Qed.

(** The invocation of the metadata a link names. *)
Definition attached (metas : list (option Container)) (link : Cid) : option Invocation :=
  match invsBy inv_Link (metaInvs metas) !! link with
  | Some inv => Some inv
  | None => invsBy inv_Task (metaInvs metas) !! link
  end.
Lemma attached_elem metas link inv : attached metas link = Some inv → inv ∈ metaInvs metas.
Proof.
  unfold attached. destruct (invsBy inv_Link _ !! _) as [i|] eqn:E; intros Ha; simplify_eq.
  - by apply invsBy_elem in E as [??].
  - by apply invsBy_elem in Ha as [??].
Qed.
Lemma attached_link metas inv : inv ∈ metaInvs metas → attached metas (inv_Link inv) = Some inv.
Proof.
  intros Hin. unfold attached. destruct (invsBy_is_Some inv_Link _ _ Hin) as [i Hi].
  rewrite Hi. f_equal. apply invsBy_elem in Hi as [_ Hl]. by apply (inj inv_Link).
Qed.

Lemma claimLinks_claims metas links a cl a' cl' :
  claimLinks metas links a cl = (a', cl') →
  ∃ invs rcpts, acc_invs a' = acc_invs a ++ invs ∧ acc_rcpts a' = acc_rcpts a ++ rcpts ∧
    claims metas cl cl' [] invs rcpts ∧
    (∀ link inv, link ∈ links → attached metas link = Some inv → inv_Link inv ∈ claimedInvs cl') ∧
    ∀ inv, inv ∈ invs → ∃ link, link ∈ links ∧ attached metas link = Some inv.
Proof.
  revert a cl. induction links as [|link links IH]; intros a cl Hc.
  { simpl in Hc. simplify_eq. exists [], []. rewrite !app_nil_r.
    split_and!; [done..|apply claims_refl|set_solver|set_solver]. }
  cbn [claimLinks] in Hc. fold (attached metas link) in Hc.
  destruct (attached metas link) as [inv|] eqn:Ea.
  2: { apply IH in Hc as (invs & rcpts & Hi & Hr & Hcl & Hall & Honly). exists invs, rcpts.
       split_and!; [done..| |].
       - intros l i [->|Hl]%elem_of_cons ?; [congruence|by eapply Hall].
       - intros i (l & ? & ?)%Honly. exists l. split; [by right|done]. }
  case_bool_decide as Hb.
  { apply IH in Hc as (invs & rcpts & Hi & Hr & Hcl & Hall & Honly). exists invs, rcpts.
    split_and!; [done..| |].
    - intros l i [->|Hl]%elem_of_cons Hli; [|by eapply Hall].
      simplify_eq. apply (cl_invs _ _ _ _ _ _ Hcl). by left.
    - intros i (l & ? & ?)%Honly. exists l. split; [by right|done]. }
  destruct (claimRcpts _ _ _) as [a1 cl1] eqn:Er.
  apply (claimRcpts_claims metas) in Er as (new & Hi1 & Hr1 & Hcl1).
  2: { unfold rcptsByRan. intros r [_ Hin]%list_elem_of_filter. done. }
  apply IH in Hc as (invs & rcpts & Hi & Hr & Hcl & Hall & Honly). simpl in Hi1, Hr1.
  exists (inv :: invs), (new ++ rcpts). split_and!.
  - by rewrite Hi, Hi1, <-app_assoc.
  - by rewrite Hr, Hr1, <-app_assoc.
  - eapply (claims_trans _ _ _ _ [] [] [inv] invs new); [|done].
    eapply (claims_trans _ _ _ _ [] [] [inv] [] [] new); [|done].
    apply claims_inv; [done|]. by eapply attached_elem.
  - intros l i [->|Hl]%elem_of_cons Hli; [|by eapply Hall]. simplify_eq.
    apply (cl_invs _ _ _ _ _ _ Hcl). left. apply (cl_invs _ _ _ _ _ _ Hcl1). left.
    simpl. set_solver.
  - intros i [->|Hin]%elem_of_cons; [exists link; split; [left|done]|].
    apply Honly in Hin as (l & ? & ?). exists l. split; [by right|done].
Qed.

(** The receipts of the results and the invocations they came with. *)
Definition ownRcpts (results : list AcceptResult) : list Receipt :=
  results ≫= λ res, option_list (res_Receipt res).
Definition ownInvs (results : list AcceptResult) : list Invocation :=
  results ≫= λ res, match res_Receipt res with
                    | Some _ => option_list (res_Invocation res)
                    | None => []
                    end.

Lemma claimResults_claims metas results cl acceptances cl' :
  claimResults metas results cl = (acceptances, cl') →
  ∃ invs rcpts, claims metas cl cl' (ownRcpts results) invs rcpts ∧
    acceptances ≫= acc_invs ≡ₚ ownInvs results ++ invs ∧
    acceptances ≫= acc_rcpts ≡ₚ ownRcpts results ++ rcpts ∧
    ∀ inv, inv ∈ invs → ∃ rcpt link, rcpt ∈ ownRcpts results ∧ link ∈ attachedLinks rcpt ∧
      attached metas link = Some inv.
Proof.
  revert cl acceptances. induction results as [|res results IH]; intros cl acceptances Hc.
  { simpl in Hc. simplify_eq. exists [], []. split_and!; [apply claims_refl|done..|set_solver]. }
  cbn [claimResults] in Hc. unfold ownRcpts, ownInvs in *. rewrite !bind_cons.
  destruct (res_Receipt res) as [rcpt|]; [|by apply IH in Hc].
  destruct (claimLinks _ _ _ _) as [a cl1] eqn:El.
  apply claimLinks_claims in El as (i1 & r1 & Hi1 & Hr1 & Hcl1 & _ & Ho1). simpl in Hi1, Hr1.
  destruct (claimResults _ _ _) as [acc cl2] eqn:Er. simplify_eq.
  apply IH in Er as (i2 & r2 & Hcl2 & Hp & Hq & Ho2).
  exists (i1 ++ i2), (r1 ++ r2). split_and!.
  - eapply (claims_trans _ _ _ _ [rcpt] _ i1 i2 r1); [|done].
    eapply (claims_trans _ _ _ _ [rcpt] [] [] i1 [] r1); [|done]. apply claims_own.
  - rewrite bind_cons, Hi1, Hp. solve_Permutation.
  - rewrite bind_cons, Hr1, Hq. cbn [option_list]. solve_Permutation.
  - intros inv [(l & ? & ?)%Ho1|(r & l & ? & ? & ?)%Ho2]%elem_of_app.
    + exists rcpt, l. split_and!; [left|done..].
    + exists r, l. split_and!; [by right|done..].
Qed.
Lemma claimResults_app metas l1 l2 cl :
  claimResults metas (l1 ++ l2) cl =
  let '(a1, cl1) := claimResults metas l1 cl in
  let '(a2, cl2) := claimResults metas l2 cl1 in (a1 ++ a2, cl2).
Proof.
  revert cl. induction l1 as [|res l1 IH]; intros cl; cbn [claimResults app].
  { by destruct (claimResults metas l2 cl). }
  destruct (res_Receipt res) as [rcpt|]; [|apply IH].
  destruct (claimLinks _ _ _ _) as [a cl0]. rewrite IH.
  destruct (claimResults metas l1 cl0) as [a1 cl1]. by destruct (claimResults metas l2 cl1).
Qed.

Lemma leftInvs_claims metas invs cl acceptances cl' :
  (∀ i, i ∈ invs → i ∈ metaInvs metas) →
  leftInvs invs cl = (acceptances, cl') →
  ∃ new, claims metas cl cl' [] new [] ∧ acceptances ≫= acc_invs = new ∧
    acceptances ≫= acc_rcpts = [] ∧ ∀ i, i ∈ invs → inv_Link i ∈ claimedInvs cl'.
Proof.
  revert cl acceptances. induction invs as [|inv invs IH]; intros cl acceptances Hm Hl; simpl in Hl.
  { simplify_eq. exists []. split_and!; [apply claims_refl|done..|set_solver]. }
  assert (∀ i, i ∈ invs → i ∈ metaInvs metas) as Hm' by set_solver.
  case_bool_decide as Hb.
  - apply IH in Hl as (new & Hc & Hi & Hr & Hall); [|done]. exists new. split_and!; [done..|].
    intros i [->|Hin]%elem_of_cons; [|by apply Hall]. apply (cl_invs _ _ _ _ _ _ Hc). by left.
  - destruct (leftInvs _ _) as [acc cl1] eqn:El. simplify_eq.
    apply IH in El as (new & Hc & Hi & Hr & Hall); [|done]. exists (inv :: new). split_and!.
    + eapply (claims_trans _ _ _ _ [] [] [inv] new []); [|done]. apply claims_inv; set_solver.
    + by rewrite bind_cons, Hi.
    + by rewrite bind_cons, Hr.
    + intros i [->|Hin]%elem_of_cons; [|by apply Hall]. apply (cl_invs _ _ _ _ _ _ Hc). left.
      simpl. set_solver.
Qed.
Lemma leftRcpts_claims metas rcpts cl acceptances cl' :
  (∀ r, r ∈ rcpts → r ∈ metaRcpts metas) →
  leftRcpts rcpts cl = (acceptances, cl') →
  ∃ new, claims metas cl cl' [] [] new ∧ acceptances ≫= acc_rcpts = new ∧
    acceptances ≫= acc_invs = [] ∧ ∀ r, r ∈ rcpts → rcpt_Link r ∈ claimedRcpts cl'.
Proof.
  revert cl acceptances. induction rcpts as [|rcpt rcpts IH]; intros cl acceptances Hm Hl; simpl in Hl.
  { simplify_eq. exists []. split_and!; [apply claims_refl|done..|set_solver]. }
  assert (∀ r, r ∈ rcpts → r ∈ metaRcpts metas) as Hm' by set_solver.
  case_bool_decide as Hb.
  - apply IH in Hl as (new & Hc & Hi & Hr & Hall); [|done]. exists new. split_and!; [done..|].
    intros i [->|Hin]%elem_of_cons; [|by apply Hall]. apply (cl_rcpts _ _ _ _ _ _ Hc). by left.
  - destruct (leftRcpts _ _) as [acc cl1] eqn:El. simplify_eq.
    apply IH in El as (new & Hc & Hi & Hr & Hall); [|done]. exists (rcpt :: new). split_and!.
    + eapply (claims_trans _ _ _ _ [] [] [] [] [rcpt] new); [|done]. apply claims_rcpt; set_solver.
    + by rewrite bind_cons, Hi.
    + by rewrite bind_cons, Hr.
    + intros i [->|Hin]%elem_of_cons; [|by apply Hall]. apply (cl_rcpts _ _ _ _ _ _ Hc). left.
      simpl. set_solver.
Qed.

Lemma leftOver_claims metas ms cl acceptances cl' :
  (∀ i, i ∈ metaInvs ms → i ∈ metaInvs metas) → (∀ r, r ∈ metaRcpts ms → r ∈ metaRcpts metas) →
  leftOver ms cl = (acceptances, cl') →
  ∃ invs rcpts, claims metas cl cl' [] invs rcpts ∧
    acceptances ≫= acc_invs ≡ₚ invs ∧ acceptances ≫= acc_rcpts ≡ₚ rcpts ∧
    (∀ i, i ∈ metaInvs ms → inv_Link i ∈ claimedInvs cl') ∧
    (∀ r, r ∈ metaRcpts ms → rcpt_Link r ∈ claimedRcpts cl').
Proof.
  revert cl acceptances. induction ms as [|[ct|] ms IH]; intros cl acceptances Hmi Hmr Hl.
  - simpl in Hl. simplify_eq. exists [], [].
    split_and!; [apply claims_refl|done..|set_solver|set_solver].
  - assert (metaInvs (Some ct :: ms) = ct_Invocations ct ++ metaInvs ms) as Hei by done.
    assert (metaRcpts (Some ct :: ms) = ct_Receipts ct ++ metaRcpts ms) as Her by done.
    rewrite Hei in *. rewrite Her in *.
    cbn [leftOver] in Hl. destruct (leftInvs _ _) as [a1 cl1] eqn:E1.
    apply (leftInvs_claims metas) in E1 as (i1 & Hc1 & Hi1 & Hr1 & Hall1); [|set_solver].
    destruct (leftRcpts _ _) as [a2 cl2] eqn:E2.
    apply (leftRcpts_claims metas) in E2 as (r2 & Hc2 & Hr2 & Hi2 & Hall2); [|set_solver].
    destruct (leftOver _ _) as [a3 cl3] eqn:E3. simplify_eq.
    apply IH in E3 as (i3 & r3 & Hc3 & Hi3 & Hr3 & Hall3 & Hall4); [|set_solver..].
    exists ((a1 ≫= acc_invs) ++ i3), ((a2 ≫= acc_rcpts) ++ r3). split_and!.
    + eapply (claims_trans _ _ _ _ [] [] _ i3 _ r3); [|done].
      pose proof (claims_trans _ _ _ _ _ _ _ _ _ _ Hc1 Hc2) as Hc. by rewrite !app_nil_r in Hc.
    + by rewrite !bind_app, Hi2, Hi3.
    + by rewrite !bind_app, Hr1, Hr3.
    + intros i [Hin|Hin]%elem_of_app; [|by apply Hall3].
      apply (cl_invs _ _ _ _ _ _ Hc3). left. apply (cl_invs _ _ _ _ _ _ Hc2). left. by apply Hall1.
    + intros r [Hin|Hin]%elem_of_app; [|by apply Hall4].
      apply (cl_rcpts _ _ _ _ _ _ Hc3). left. by apply Hall2.
  - by apply IH in Hl.
Qed.

Lemma groupAcceptances_partition (results : list AcceptResult) (metas : list (option Container)) :
  ∃ invs rcpts,
    groupAcceptances results metas ≫= acc_invs ≡ₚ ownInvs results ++ invs ∧
    groupAcceptances results metas ≫= acc_rcpts ≡ₚ ownRcpts results ++ rcpts ∧
    NoDup invs ∧ (∀ inv, inv ∈ invs ↔ inv ∈ metaInvs metas) ∧
    NoDup rcpts ∧ (∀ rcpt, rcpt ∈ rcpts → rcpt ∈ metaRcpts metas) ∧
    (∀ rcpt, rcpt ∈ metaRcpts metas → rcpt ∈ ownRcpts results ++ rcpts).
Proof.
  unfold groupAcceptances. destruct (claimResults _ _ _) as [acc cl] eqn:Ec.
  apply claimResults_claims in Ec as (i1 & r1 & Hc1 & Hi1 & Hr1 & _).
  destruct (leftOver metas cl) as [acc2 cl2] eqn:El.
  apply (leftOver_claims metas) in El as (i2 & r2 & Hc2 & Hi2 & Hr2 & Ha & Hb); [|done..].
  pose proof (claims_trans _ _ _ _ _ _ _ _ _ _ Hc1 Hc2) as Hc. rewrite !app_nil_r in Hc.
  exists (i1 ++ i2), (r1 ++ r2). cbn [fst]. split_and!.
  - by rewrite bind_app, Hi1, Hi2, app_assoc.
  - by rewrite bind_app, Hr1, Hr2, app_assoc.
  - apply Hc.
  - intros inv. split; [apply Hc|]. intros Hin. apply Ha, (cl_invs _ _ _ _ _ _ Hc) in Hin.
    destruct Hin as [Hin|(i & Hl & Hin)%list_elem_of_fmap]; [set_solver|].
    apply (inj inv_Link) in Hl. by subst.
  - apply Hc.
  - intros rcpt. apply Hc.
  - intros rcpt Hin. apply Hb, (cl_rcpts _ _ _ _ _ _ Hc) in Hin.
    destruct Hin as [Hin|(r & Hl & Hin)%list_elem_of_fmap]; [set_solver|].
    apply (inj rcpt_Link) in Hl. by subst.
Qed.

(** Grouping the results of a batch loses nothing and records nothing twice:
    taken together, the acceptances hold the invocation and receipt of every
    result that has a receipt, each invocation of the node's metadata exactly
    once, and each receipt of the metadata (at most once beside the results'
    own). *)
Theorem groupAcceptances_exact (results : list AcceptResult) (metas : list (option Container)) :
  ∃ invs rcpts,
    groupAcceptances results metas ≫= acc_invs ≡ₚ ownInvs results ++ invs ∧
    groupAcceptances results metas ≫= acc_rcpts ≡ₚ ownRcpts results ++ rcpts ∧
    NoDup invs ∧ (∀ inv, inv ∈ invs ↔ inv ∈ metaInvs metas) ∧
    NoDup rcpts ∧ (∀ rcpt, rcpt ∈ rcpts → rcpt ∈ metaRcpts metas) ∧
    (∀ rcpt, rcpt ∈ metaRcpts metas → rcpt ∈ ownRcpts results ++ rcpts).
Proof. apply groupAcceptances_partition. Qed.

Lemma acceptance_holds (pre post : list AcceptResult) (res : AcceptResult) (rcpt : Receipt)
    (metas : list (option Container)) (link : Cid) (inv : Invocation) :
  res_Receipt res = Some rcpt →
  link ∈ attachedLinks rcpt →
  attached metas link = Some inv →
  (∀ r l, r ∈ ownRcpts pre → l ∈ attachedLinks r → attached metas l ≠ Some inv) →
  ∃ a, a ∈ groupAcceptances (pre ++ res :: post) metas ∧ rcpt ∈ acc_rcpts a ∧ inv ∈ acc_invs a.
Proof.
  intros Hres Hlink Hatt Hfirst. unfold groupAcceptances. rewrite claimResults_app.
  destruct (claimResults metas pre noneClaimed) as [a1 cl1] eqn:E1.
  apply claimResults_claims in E1 as (i1 & r1 & Hc1 & _ & _ & Honly).
  cbn [claimResults]. rewrite Hres. destruct (claimLinks _ _ _ _) as [a cl2] eqn:El.
  apply claimLinks_claims in El as (i2 & r2 & Hi2 & Hr2 & Hc2 & Hall & _).
  destruct (claimResults metas post cl2) as [a3 cl3].
  exists a. split_and!.
  - apply elem_of_app. left. apply elem_of_app. right. left.
  - rewrite Hr2. simpl. left.
  - specialize (Hall link inv Hlink Hatt). apply (cl_invs _ _ _ _ _ _ Hc2) in Hall.
    cbn [claimedInvs] in Hall. rewrite Hi2. apply elem_of_app. right.
    destruct Hall as [Hin|(i & Hl & Hin)%list_elem_of_fmap].
    + exfalso. apply (cl_invs _ _ _ _ _ _ Hc1) in Hin.
      destruct Hin as [Hin|(i & Hl & Hin)%list_elem_of_fmap]; [set_solver|].
      apply (inj inv_Link) in Hl. subst i. apply Honly in Hin as (r & l & ? & ? & Ha).
      by apply (Hfirst r l).
    + apply (inj inv_Link) in Hl. by subst.
Qed.

(** C26: an accept receipt is kept together with the location commitment it names
    (and with the PDP promise): whatever invocation of the node's metadata the
    receipt names by link is in the receipt's own acceptance, unless the receipt
    of an earlier result names it too. *)
Theorem acceptance_whole (pre post : list AcceptResult) (res : AcceptResult) (rcpt : Receipt)
    (metas : list (option Container)) (link : Cid) (inv : Invocation) :
  res_Receipt res = Some rcpt →
  link ∈ attachedLinks rcpt →
  attached metas link = Some inv →
  (∀ r l, r ∈ ownRcpts pre → l ∈ attachedLinks r → attached metas l ≠ Some inv) →
  ∃ a, a ∈ groupAcceptances (pre ++ res :: post) metas ∧ rcpt ∈ acc_rcpts a ∧ inv ∈ acc_invs a.
Proof. apply acceptance_holds. Qed.

(** ** Persisting without splitting an acceptance *)
Lemma groupAcceptances_tokens results metas :
  Forall (λ a, 0 < tokens a)%Z (groupAcceptances results metas).
Proof.
  assert (∀ invs cl, Forall (λ a, 0 < tokens a)%Z (leftInvs invs cl).1) as Hli.
  { induction invs as [|inv invs IH]; intros cl; simpl; [constructor|].
    case_bool_decide; [done|]. specialize (IH {| claimedInvs := {[inv_Link inv]} ∪ claimedInvs cl;
      claimedRcpts := claimedRcpts cl |}). destruct (leftInvs _ _). by constructor. }
  assert (∀ rcpts cl, Forall (λ a, 0 < tokens a)%Z (leftRcpts rcpts cl).1) as Hlr.
  { induction rcpts as [|rcpt rcpts IH]; intros cl; simpl; [constructor|].
    case_bool_decide; [done|]. specialize (IH {| claimedInvs := claimedInvs cl;
      claimedRcpts := {[rcpt_Link rcpt]} ∪ claimedRcpts cl |}).
    destruct (leftRcpts _ _). by constructor. }
  assert (∀ ms cl, Forall (λ a, 0 < tokens a)%Z (leftOver ms cl).1) as Hlo.
  { induction ms as [|[ct|] ms IH]; intros cl; simpl; [constructor| |done].
    specialize (Hli (ct_Invocations ct) cl). destruct (leftInvs _ _) as [a1 cl1].
    specialize (Hlr (ct_Receipts ct) cl1). destruct (leftRcpts _ _) as [a2 cl2].
    specialize (IH cl2). destruct (leftOver ms cl2). simpl in *. by rewrite !Forall_app. }
  assert (∀ l cl, Forall (λ a, 0 < tokens a)%Z (claimResults metas l cl).1) as Hcr.
  { induction l as [|res l IH]; intros cl; cbn [claimResults]; [constructor|].
    destruct (res_Receipt res) as [rcpt|]; [|done].
    destruct (claimLinks _ _ _ _) as [a cl1] eqn:El.
    apply claimLinks_claims in El as (i & r & Hi & Hr & _). specialize (IH cl1).
    destruct (claimResults _ _ _). simpl in *. constructor; [|done].
    unfold tokens, len. rewrite Hi, Hr, !length_app. cbn [acc_invs acc_rcpts length]. lia. }
  unfold groupAcceptances. specialize (Hcr results noneClaimed).
  destruct (claimResults _ _ _) as [acc cl]. by apply Forall_app.
Qed.

(** Several messages written one after the other. *)
Fixpoint writeEach (msgs : list (list acceptance)) : M Node unit :=
  match msgs with
  | [] => mret tt
  | m :: msgs => _ ← writeAgentMessage (m ≫= acc_invs) (m ≫= acc_rcpts); writeEach msgs
  end.
Definition weight (m : list acceptance) : Z := len (m ≫= acc_invs) + len (m ≫= acc_rcpts).
Definition fits (m : list acceptance) : Prop :=
  m ≠ [] ∧ ((weight m ≤ containerTokenBudget)%Z ∨ length m = 1).

Lemma bind_one {A B} (f : A → list B) x : [x] ≫= f = f x.
Proof. apply app_nil_r. Qed.
Lemma weight_snoc m a : weight (m ++ [a]) = (weight m + tokens a)%Z.
Proof.
  unfold weight, tokens, len. rewrite !bind_app, !length_app. simpl. rewrite !app_nil_r. lia.
Qed.
Lemma weight_pos m : Forall (λ a, 0 < tokens a)%Z m → m ≠ [] → (0 < weight m)%Z.
Proof.
  intros Hm Hne. induction m as [|a m IH] using rev_ind; [done|]. rewrite weight_snoc.
  apply Forall_app in Hm as [Hm Ha]. apply Forall_inv in Ha.
  destruct m as [|b m]; [change (weight []) with 0%Z; lia|]. specialize (IH Hm ltac:(done)). lia.
Qed.

Lemma writeLoop_spec acceptances :
  Forall (λ a, 0 < tokens a)%Z acceptances →
  ∀ p, Forall (λ a, 0 < tokens a)%Z p → p = [] ∨ fits p →
  ∃ msgs, concat msgs = p ++ acceptances ∧ Forall fits msgs ∧
    ∀ n, writeLoop acceptances (p ≫= acc_invs) (p ≫= acc_rcpts) n = writeEach msgs n.
Proof.
  induction 1 as [|a acceptances Ha Hacc IH]; intros p Hp Hfit.
  - destruct Hfit as [->|Hfit].
    { exists []. split_and!; [done|constructor|done]. }
    exists [p]. split_and!; [done|by apply Forall_cons|]. intros n. cbn [writeLoop].
    fold (weight p). rewrite (proj2 (Z.ltb_lt _ _)) by (apply weight_pos; [done|apply Hfit]).
    cbn [writeEach]. unfold mbind, M_bind.
    destruct (writeAgentMessage _ _ n) as [[[]|e| |] n']; done.
  - cbn [writeLoop]. fold (weight p).
    destruct ((0 <? weight p)%Z && (containerTokenBudget <? weight p + tokens a)%Z) eqn:Hb.
    + apply andb_true_iff in Hb as [Hpos Hbig].
      assert (p ≠ []) as Hne by (intros ->; done).
      destruct Hfit as [->|Hfit]; [done|].
      destruct (IH [a]) as (msgs & Hc & Hf & Hw).
      { by apply Forall_cons. } { right. split; [done|by right]. }
      exists (p :: msgs). split_and!; [simpl; by rewrite Hc|by constructor|].
      intros n. cbn [writeEach]. rewrite !M_bind_step.
      destruct (writeAgentMessage _ _ n) as [[u|e| |] n']; [|done..].
      rewrite <-Hw. by rewrite !bind_one.
    + destruct (IH (p ++ [a])) as (msgs & Hc & Hf & Hw).
      { apply Forall_app. split; [done|]. by apply Forall_cons. }
      { right. split; [by destruct p|]. rewrite weight_snoc.
        destruct (decide (p = [])) as [->|Hne]; [by right|]. left.
        pose proof (weight_pos p Hp Hne) as Hpos.
        rewrite (proj2 (Z.ltb_lt _ _) Hpos) in Hb. cbn [andb] in Hb. by apply Z.ltb_ge in Hb. }
      exists msgs. split_and!; [by rewrite Hc, <-app_assoc|done|]. intros n. rewrite <-Hw.
      by rewrite !bind_app, !bind_one.
Qed.

Lemma writeAgentMessages_cut (results : list AcceptResult) (metas : list (option Container)) :
  ∃ msgs, concat msgs = groupAcceptances results metas ∧ Forall fits msgs ∧
    ∀ n, writeAgentMessages (groupAcceptances results metas) n = writeEach msgs n.
Proof.
  apply (writeLoop_spec _ (groupAcceptances_tokens results metas) []); [constructor|by left].
Qed.

(** The acceptances are persisted in messages that fit a container, none of
    them split over two: in their order, cut into messages each of which stays
    within the token budget or holds a single acceptance. *)
Theorem writeAgentMessages_spec (results : list AcceptResult) (metas : list (option Container)) :
  ∃ msgs, concat msgs = groupAcceptances results metas ∧ Forall fits msgs ∧
    ∀ n, writeAgentMessages (groupAcceptances results metas) n = writeEach msgs n.
Proof. apply writeAgentMessages_cut. Qed.

Lemma keepsRegistry_writeLoop acceptances invs rcpts :
  keepsRegistry (writeLoop acceptances invs rcpts).
Proof.
  revert invs rcpts. induction acceptances as [|a acceptances IH]; intros invs rcpts; cbn [writeLoop].
  - case_match; auto with registry.
  - case_match; [|done]. apply keepsRegistry_bind; auto with registry.
Qed.

(** ** What is registered *)

(** The puts whose results show an acceptance. *)
Definition acceptedPuts (claims : gmap Cid Invocation) (results : list AcceptResult)
    (puts : list concludedPut) : list concludedPut :=
  (filter (λ '(put, res), acceptable claims put res = Ok true) (zip puts results)).*1.

Lemma acceptResult_returns rcpt : responsive → returns (acceptResult rcpt).
Proof.
  intros Hr. unfold acceptResult. pose proof (ret_AcceptOK Hr (outOK rcpt)).
  destruct (UnmarshalAcceptOK _); [|done..]. cbn [owrap mbind outcome_bind]. by repeat case_match.
Qed.
Lemma checkLocationContent_returns claim digest :
  responsive → returns (checkLocationContent claim digest).
Proof.
  intros Hr. unfold checkLocationContent. destruct claim as [claim|]; [|done].
  case_match; [done|]. pose proof (ret_LocationArguments Hr (inv_ArgumentsBytes claim)).
  destruct (UnmarshalLocationArguments _); [|done..]. cbn [owrap mbind outcome_bind].
  by case_match.
Qed.
Lemma acceptable_returns claims put res :
  responsive → ∃ b, acceptable claims put res = Ok b.
Proof.
  intros Hr. unfold acceptable. destruct (res_Receipt res) as [rcpt|]; [|eauto].
  destruct (IsErr rcpt).
  { pose proof (ret_ErrorModel Hr (outErr rcpt)). destruct (UnmarshalErrorModel _); eauto; done. }
  pose proof (acceptResult_returns rcpt Hr). destruct (acceptResult rcpt) as [ok|e| |]; eauto; try done.
  destruct (spec_Digest _); [eauto|].
  pose proof (checkLocationContent_returns (claims !! ok_Site ok) (Digest (blob put)) Hr).
  destruct (checkLocationContent _ _); eauto; done.
Qed.

Lemma registerLoop_spec claims results puts n :
  responsive → length results ≤ length puts →
  ∃ n', registerLoop claims results puts n = (Ok None, n') ∧ agentStore n' = agentStore n ∧
    ∀ sp d, holds n' sp d ↔ holds n sp d ∨
      ∃ put, put ∈ acceptedPuts claims results puts ∧ space put = sp ∧ Digest (blob put) = d.
Proof.
  intros Hr. revert puts n. induction results as [|res results IH]; intros puts n Hlen.
  { exists n. split_and!; [by destruct puts|done|]. intros sp d. split; [by left|].
    intros [?|(put & Hin & _)]; [done|]. unfold acceptedPuts in Hin. rewrite zip_with_nil_r in Hin.
    by apply elem_of_nil in Hin. }
  destruct puts as [|put puts]; [simpl in Hlen; lia|]. simpl in Hlen.
  cbn [registerLoop]. unfold mbind, M_bind, reads.
  destruct (acceptable_returns claims put res Hr) as [b Hb]. rewrite Hb.
  unfold acceptedPuts. cbn [zip zip_with]. rewrite filter_cons.
  destruct b.
  - unfold try. destruct (register_spec (space put) (blob put) (cause put) n) as (n1 & -> & Ha & Hh).
    destruct (IH puts n1) as (n2 & He & Ha2 & Hh2); [lia|].
    exists n2. rewrite (decide_True (P := acceptable claims put res = Ok true)) by done. split_and!.
    + destruct (decide _); [|done]. rewrite Is_refl. done.
    + by rewrite Ha2, Ha.
    + intros sp d. rewrite Hh2, Hh. cbn [fmap list_fmap fst]. setoid_rewrite elem_of_cons.
      split.
      * intros [[?|[-> ->]]|(p & ? & ? & ?)]; [by left|right; exists put; eauto|right; eauto].
      * intros [?|(p & [->|?] & ? & ?)]; [by left; left|subst; by left; right|right; eauto].
  - rewrite (decide_False (P := acceptable claims put res = Ok true)) by (rewrite Hb; done).
    apply IH. lia.
Qed.

Lemma elem_of_acceptedPuts cls results puts put :
  put ∈ acceptedPuts cls results puts →
  ∃ i res, puts !! i = Some put ∧ results !! i = Some res ∧ acceptable cls put res = Ok true.
Proof.
  unfold acceptedPuts. intros ([p res] & -> & [Ha Hin]%list_elem_of_filter)%list_elem_of_fmap.
  apply list_elem_of_lookup in Hin as [i Hi]. apply lookup_zip_Some in Hi as [Hp Hres].
  by exists i, res.
Qed.

(** What stands behind a registered put: a successful receipt, from the put's
    provider, of the accept of that put's request, that decodes as an
    acceptance and, when the node hashed the blob, names a location commitment
    for the registered digest. *)
Record shown (cls : gmap Cid Invocation) (put : concludedPut) (inv : Invocation)
    (rcpt : Receipt) : Prop := {
  sh_command : inv_Command inv = cmd_Accept;
  sh_subject : inv_Subject inv = provider put;
  sh_args : UnmarshalAcceptArguments (inv_ArgumentsBytes inv) =
    Ok {| ca_Space := ac_Space (acceptReq put); ca_Blob := ac_Blob (acceptReq put);
          ca_Put := ac_Put (acceptReq put) |};
  sh_ran : rcpt_Ran rcpt = inv_Task inv;
  sh_ok : IsErr rcpt = false;
  sh_result : ∃ ok, acceptResult rcpt = Ok ok ∧
    (spec_Digest (ac_Blob (acceptReq put)) = None →
     checkLocationContent (cls !! ok_Site ok) (Digest (blob put)) = Ok tt);
}.

Lemma acceptable_shown cl cls put res :
  piriDID cl = provider put → acceptable cls put res = Ok true →
  answered cl (acceptReq put) res →
  ∃ inv rcpt, res = {| res_Request := Some (acceptReq put); res_Invocation := Some inv;
                       res_Receipt := Some rcpt |} ∧ shown cls put inv rcpt.
Proof.
  intros Hcl Hok (inv & rcpt & -> & (Hcmd & Hsub & Hargs) & Hran). exists inv, rcpt.
  split; [done|]. unfold acceptable in Hok. cbn [res_Receipt] in Hok.
  destruct (IsErr rcpt) eqn:Herr; [by destruct (UnmarshalErrorModel _)|].
  destruct (acceptResult rcpt) as [ok|e| |] eqn:Hres; [|done..].
  split; [done|by rewrite Hsub|done..|]. exists ok. split; [done|]. intros Hn. rewrite Hn in Hok.
  by destruct (checkLocationContent _ _) as [[]|e| |].
Qed.

Lemma in_ownRcpts results i res rcpt inv :
  results !! i = Some res →
  res = {| res_Request := res_Request res; res_Invocation := Some inv; res_Receipt := Some rcpt |} →
  rcpt ∈ ownRcpts results ∧ inv ∈ ownInvs results.
Proof.
  intros Hi Hres. unfold ownRcpts, ownInvs. rewrite !list_elem_of_bind.
  apply list_elem_of_lookup_2 in Hi. rewrite Hres in Hi.
  split; eexists; (split; [|exact Hi]); left.
Qed.

Section ProviderSpec.
Context {P : Type} `{!StorageProvider.Reads P} (router : P) (serviceIssuer : Issuer).

Lemma GetProviderInfo_ID prov info :
  Routing.GetProviderInfo router prov = Ok info → Routing.ID info = prov.
Proof.
  unfold Routing.GetProviderInfo. rewrite StorageProvider.sp_Get_spec.
  destruct (findFunc _ _) as [rec|] eqn:Ef; [|done]. intros [= <-].
  apply findFunc_Some in Ef as [_ Hb]. by apply bool_decide_eq_true in Hb.
Qed.
Lemma GetProviderInfo_returns prov : returns (Routing.GetProviderInfo router prov).
Proof.
  unfold Routing.GetProviderInfo. rewrite StorageProvider.sp_Get_spec. by destruct (findFunc _ _).
Qed.

(** A store that is written to, then a message: no other outcome than those. *)
Lemma writeAgentMessage_returns invs rcpts n :
  responsive → ∃ r n', writeAgentMessage invs rcpts n = (r, n') ∧ returns r ∧
    world n' = world n ∧ (sound n → sound n').
Proof.
  intros Hr. pose proof (returns_writeAgentMessage invs rcpts n Hr) as Hret.
  pose proof (keepsRegistry_writeAgentMessage invs rcpts n) as Hw.
  pose proof (sound_writeAgentMessage invs rcpts n) as Hs.
  destruct (writeAgentMessage invs rcpts n) as [r n']. by exists r, n'.
Qed.
Lemma writeEach_returns msgs n :
  responsive → ∃ r n', writeEach msgs n = (r, n') ∧ returns r ∧ world n' = world n ∧
    (sound n → sound n').
Proof.
  intros Hr. revert n. induction msgs as [|m msgs IH]; intros n; [by eexists _, n|].
  cbn [writeEach]. rewrite M_bind_step.
  destruct (writeAgentMessage_returns (m ≫= acc_invs) (m ≫= acc_rcpts) n Hr)
    as (r & n1 & -> & Hret & Hw & Hs).
  destruct r as [u|e| |]; [|by eauto 6|done..].
  destruct (IH n1) as (r2 & n2 & -> & ? & Hw2 & Hs2). exists r2, n2. rewrite Hw2. split_and!; auto.
Qed.

Lemma acceptOnProvider_registers (prov : DID) (puts : list concludedPut) (n : Node) :
  responsive →
  (∀ put, put ∈ puts → provider put = prov) →
  ∃ invs rcpts err n',
    acceptOnProvider router serviceIssuer prov puts n = (Ok (invs, rcpts, err), n') ∧
    (sound n → sound n') ∧
    (err ≠ None ∧ world n' = world n ∨
     ∃ accepted cls, accepted ⊆ puts ∧
       (∀ sp d, holds n' sp d ↔ holds n sp d ∨
          ∃ put, put ∈ accepted ∧ space put = sp ∧ Digest (blob put) = d) ∧
       ∀ put, put ∈ accepted → ∃ inv rcpt, inv ∈ invs ∧ rcpt ∈ rcpts ∧ shown cls put inv rcpt).
Proof.
  intros Hr Hprov. unfold acceptOnProvider. rewrite M_bind_step. unfold try at 1, wrap at 1, reads at 1.
  pose proof (GetProviderInfo_returns prov) as Hret.
  destruct (Routing.GetProviderInfo router prov) as [info|e| |] eqn:Einfo; [| |done..].
  2: { eexists [], [], (Some _), n. split_and!; [done|done|by left]. }
  apply GetProviderInfo_ID in Einfo as Hid. rewrite M_bind_step. unfold try at 1, wrap at 1, reads at 1.
  unfold client, New. pose proof (ret_NewHTTP Hr (Routing.infoEndpoint info)) as Hnew.
  destruct (NewHTTP _) as [u|e| |]; cbn [owrap mbind outcome_bind]; [| |done..].
  2: { eexists [], [], (Some _), n. split_and!; [done|done|by left]. }
  set (cl := {| piriDID := _ |}). rewrite M_bind_step. unfold onTicks.
  destruct (AcceptBatch_returns cl (Routing.infoProofs info) (acceptReq <$> puts) [WithNoNonce]
    (ticks n) Hr) as ([[results metas] batchErr] & t & -> & Hbatch).
  set (n1 := {| ticks := t; agentStore := agentStore n; world := world n |}).
  destruct (groupAcceptances_partition results metas) as (xi & xr & Hxi & Hxr & _).
  rewrite M_bind_step. unfold try at 1, wrap at 1.
  destruct (writeAgentMessages_cut results metas) as (msgs & _ & _ & ->).
  destruct (writeEach_returns msgs n1 Hr) as (r & n2 & -> & Hwr & Hw & Hsd).
  destruct r as [u'|e| |]; [| |done..].
  2: { eexists _, _, (Some _), n2. split_and!; [done|done|by left]. }
  destruct Hbatch as (k & Hk & _ & Hall & Hnone & Hlen). rewrite length_fmap in Hk, Hlen.
  rewrite M_bind_step.
  destruct (registerLoop_spec (invocationsByLink metas) results puts n2 Hr) as (n3 & -> & Hag & Hh).
  { destruct Hlen as [-> | ->]; simpl; lia. }
  eexists _, _, _, n3. split_and!; [done|unfold sound in *; by rewrite Hag|]. right.
  exists (acceptedPuts (invocationsByLink metas) results puts), (invocationsByLink metas).
  split_and!.
  - intros put (i & res & Hp & _)%elem_of_acceptedPuts. by apply list_elem_of_lookup_2 in Hp.
  - intros sp d. rewrite Hh. unfold holds. by rewrite Hw.
  - intros put (i & res & Hp & Hres & Hok)%elem_of_acceptedPuts.
    assert (i < k) as Hik.
    { destruct (decide (i < k)) as [|Hge]; [done|exfalso].
      assert (drop k results !! (i - k) = Some res) as Hd
        by by rewrite lookup_drop, Nat.add_comm, Nat.sub_add by lia.
      apply (Forall_lookup_1 _ _ _ _ Hnone) in Hd. unfold acceptable in Hok. by rewrite Hd in Hok. }
    assert (answered cl (acceptReq put) res) as Hans.
    { eapply (Forall2_lookup_lr _ _ _ i _ _ Hall).
      - by rewrite lookup_take_lt, list_lookup_fmap, Hp.
      - by rewrite lookup_take_lt. }
    apply acceptable_shown with (cls := invocationsByLink metas) in Hans
      as (inv & rcpt & Heq & Hs); [|simpl; rewrite Hid; symmetry; apply Hprov;
        by apply list_elem_of_lookup_2 in Hp|done].
    destruct (in_ownRcpts results i res rcpt inv Hres) as [Hri Hii]; [by rewrite Heq|].
    exists inv, rcpt. split_and!; [rewrite Hxi|rewrite Hxr|done]; apply elem_of_app; by left.
Qed.

(** Accepting on one provider registers exactly the blobs it accepted. It
    always returns; on an error before the results are persisted the registry is
    as it was; otherwise a space holds a digest afterwards iff it held it before
    or it is the digest of a put whose result is an acceptance, and each such
    acceptance's invocation and receipt are among the ones handed back. *)
Theorem acceptOnProvider_spec (prov : DID) (puts : list concludedPut) (n : Node) :
  responsive →
  (∀ put, put ∈ puts → provider put = prov) →
  ∃ invs rcpts err n',
    acceptOnProvider router serviceIssuer prov puts n = (Ok (invs, rcpts, err), n') ∧
    (sound n → sound n') ∧
    (err ≠ None ∧ world n' = world n ∨
     ∃ accepted cls, accepted ⊆ puts ∧
       (∀ sp d, holds n' sp d ↔ holds n sp d ∨
          ∃ put, put ∈ accepted ∧ space put = sp ∧ Digest (blob put) = d) ∧
       ∀ put, put ∈ accepted → ∃ inv rcpt, inv ∈ invs ∧ rcpt ∈ rcpts ∧ shown cls put inv rcpt).
Proof. apply acceptOnProvider_registers. Qed.

(** ** What a conclusion registers *)

(** What a put was resolved from: a delivered conclusion and the allocation its put
    names, which the store has. *)
Definition resolvedFrom (s : Agent.Store) (c : Conclusion) (put : concludedPut) : Prop :=
  ∃ putArgs allocInv args,
    UnmarshalPutArguments (inv_ArgumentsBytes (co_Invocation c)) = Ok putArgs ∧
    Agent.GetInvocation s (pa_Destination putArgs) = Ok allocInv ∧
    UnmarshalAllocateArguments (inv_ArgumentsBytes allocInv) = Ok args ∧
    provider put = inv_Subject allocInv ∧ space put = aa_Space args ∧
    cause put = aa_Cause args ∧ BlobSize (blob put) = spec_Size (aa_Blob args) ∧
    ac_Blob (acceptReq put) = aa_Blob args ∧
    ac_Put (acceptReq put) = inv_Task (co_Invocation c) ∧
    match spec_Digest (aa_Blob args) with
    | Some d => Digest (blob put) = d
    | None => putDigest (co_Receipt c) (spec_DigestCode (aa_Blob args)) = Ok (Digest (blob put))
    end.

Lemma allocTasks_lookup cs tasks :
  allocTasks cs = Ok tasks →
  Forall2 (λ c task, ∃ putArgs,
    UnmarshalPutArguments (inv_ArgumentsBytes (co_Invocation c)) = Ok putArgs ∧
    pa_Destination putArgs = task) cs tasks.
Proof.
  revert tasks. induction cs as [|c cs IH]; intros tasks; cbn [allocTasks]; [by intros [= <-]|].
  destruct (UnmarshalPutArguments _) as [pa|e| |] eqn:E; [|done..]. cbn [owrap mbind outcome_bind].
  destruct (allocTasks cs) as [ts|e| |]; [|done..]. intros [= <-]. constructor; [by exists pa|].
  by apply IH.
Qed.
Lemma resolvePut_from s allocInvs c task put putArgs :
  (∀ inv, allocInvs !! task = Some inv → Agent.GetInvocation s task = Ok inv) →
  UnmarshalPutArguments (inv_ArgumentsBytes (co_Invocation c)) = Ok putArgs →
  pa_Destination putArgs = task →
  resolvePut allocInvs c task = Ok (Some put) → resolvedFrom s c put.
Proof.
  unfold resolvePut. intros Hs Hpa <-. destruct (allocInvs !! _) as [allocInv|]; [|done].
  specialize (Hs _ eq_refl).
  destruct (UnmarshalAllocateArguments _) as [args|e| |] eqn:Ea; [|done..].
  cbn [owrap mbind outcome_bind]. exists putArgs, allocInv, args.
  destruct (spec_Digest (aa_Blob args)) as [d|].
  - simplify_eq. done.
  - destruct (putDigest _ _) as [d|e| |] eqn:Ed; simplify_eq. done.
Qed.
Lemma resolveAllocations_from s cs puts put :
  resolveAllocations s cs = Ok puts → put ∈ puts → ∃ c, c ∈ cs ∧ resolvedFrom s c put.
Proof.
  unfold resolveAllocations. destruct (allocTasks cs) as [tasks|e| |] eqn:Et; [|done..].
  apply allocTasks_lookup in Et. cbn [mbind outcome_bind].
  destruct (Agent.GetInvocations s tasks) as [found|e| |] eqn:Eg; [|done..].
  cbn [owrap mbind outcome_bind].
  assert (∀ task inv, found !! task = Some inv → Agent.GetInvocation s task = Ok inv) as Hf
    by (intros task inv; by eapply Agent.GetInvocations_elem).
  clear Eg. revert puts. induction Et as [|c task cs tasks (pa & Hpa & Hdest) Et IH]; intros puts.
  { cbn. intros [= <-] Hin. by apply elem_of_nil in Hin. }
  cbn [zip zip_with resolveLoop].
  destruct (resolvePut found c task) as [p|e| |] eqn:Ep; [|done..]. cbn [mbind outcome_bind].
  fold (zip cs tasks). destruct (resolveLoop found (zip cs tasks)) as [ps|e| |]; [|done..].
  cbn [mbind outcome_bind]. intros [= <-] [Hin|Hin]%elem_of_app.
  - exists c. split; [left|]. destruct p as [p|]; [|by apply elem_of_nil in Hin].
    apply list_elem_of_singleton in Hin as <-.
    eapply resolvePut_from; [|done..]. intros inv. apply Hf.
  - destruct (IH ps eq_refl Hin) as (c' & ? & ?). exists c'. split; [by right|done].
Qed.

(** From [n] to [n'] the registry has gained only digests of puts among [puts]
    that were shown to be accepted. *)
Definition gains (puts : list concludedPut) (n n' : Node) : Prop :=
  (∀ sp d, holds n sp d → holds n' sp d) ∧
  ∀ sp d, holds n' sp d → holds n sp d ∨
    ∃ put cls inv rcpt, put ∈ puts ∧ space put = sp ∧ Digest (blob put) = d ∧
      shown cls put inv rcpt.
Lemma gains_refl puts n n' : world n' = world n → gains puts n n'.
Proof. intros Hw. unfold gains, holds. rewrite Hw. auto. Qed.
Lemma gains_trans puts n n1 n2 : gains puts n n1 → gains puts n1 n2 → gains puts n n2.
Proof.
  intros [Hm1 Hg1] [Hm2 Hg2]. split; [auto|]. intros sp d [Hd|?]%Hg2; [by apply Hg1|by right].
Qed.

Lemma acceptLoop_gains puts provs invs rcpts n :
  responsive → sound n →
  ∃ meta err n', acceptLoop router serviceIssuer puts provs invs rcpts n = (Ok (meta, err), n') ∧ sound n' ∧
    gains puts n n'.
Proof.
  intros Hr. revert invs rcpts n. induction provs as [|prov provs IH]; intros invs rcpts n Hn.
  { eexists _, None, n. split_and!; [done|done|by apply gains_refl]. }
  cbn [acceptLoop]. rewrite M_bind_step.
  destruct (acceptOnProvider_registers prov (byProvider puts prov) n Hr)
    as (is1 & rs1 & err & n1 & -> & Hs & Hcase).
  { by intros put [? _]%list_elem_of_filter. }
  assert (gains puts n n1) as Hg.
  { destruct Hcase as [[_ Hw]|(accepted & cls & Hsub & Hh & Hsh)]; [by apply gains_refl|].
    split; [intros sp d Hd; apply Hh; by left|].
    intros sp d [?|(put & Hin & Hsp & Hd)]%Hh; [by left|right].
    destruct (Hsh put Hin) as (inv & rcpt & _ & _ & Hshown).
    exists put, cls, inv, rcpt. split_and!; [|done..].
    apply Hsub in Hin. by apply list_elem_of_filter in Hin as [_ ?]. }
  destruct err as [err|].
  { eexists _, (Some err), n1. split_and!; [done|by apply Hs|done]. }
  destruct (IH (invs ++ is1) (rcpts ++ rs1) n1 (Hs Hn)) as (meta & err & n2 & -> & Hs2 & Hg2).
  exists meta, err, n2. split_and!; [done..|]. by eapply gains_trans.
Qed.

(** The puts of a group of conclusions that were delivered and resolved. *)
Definition deliveredPuts (s : Agent.Store) (cs : list Conclusion) : list concludedPut :=
  match resolveAllocations s (filter (λ c, IsErr (co_Receipt c) = false) cs) with
  | Ok puts => puts
  | _ => []
  end.

Lemma deliveredPuts_from s cs put :
  put ∈ deliveredPuts s cs →
  ∃ c, c ∈ cs ∧ IsErr (co_Receipt c) = false ∧ resolvedFrom s c put.
Proof.
  unfold deliveredPuts. destruct (resolveAllocations _ _) as [puts|e| |] eqn:Er;
    [|by intros ?%elem_of_nil..].
  intros Hin. destruct (resolveAllocations_from _ _ _ _ Er Hin) as (c & Hc & Hfrom).
  apply list_elem_of_filter in Hc as [Hok Hc]. by exists c.
Qed.
Lemma resolveAllocations_returns s cs :
  responsive → Agent.sound s → returns (resolveAllocations s cs).
Proof.
  intros Hr Hs. unfold resolveAllocations.
  assert (returns (allocTasks cs)) as Ht.
  { induction cs as [|c cs IH]; [done|]. cbn [allocTasks].
    pose proof (ret_PutArguments Hr (inv_ArgumentsBytes (co_Invocation c))).
    destruct (UnmarshalPutArguments _); [|done..]. cbn [owrap mbind outcome_bind].
    by destruct (allocTasks cs). }
  destruct (allocTasks cs) as [tasks|e| |]; [|done..]. cbn [mbind outcome_bind].
  destruct (Agent.GetInvocations_sound s tasks Hs) as [found ->]. cbn [owrap mbind outcome_bind].
  induction (zip cs tasks) as [|[c task] l IH]; [done|]. cbn [resolveLoop].
  assert (returns (resolvePut found c task)) as Hp.
  { unfold resolvePut. destruct (found !! task) as [inv|]; [|done].
    pose proof (ret_AllocateArguments Hr (inv_ArgumentsBytes inv)).
    destruct (UnmarshalAllocateArguments _) as [args|e| |]; [|done..].
    cbn [owrap mbind outcome_bind]. destruct (spec_Digest _); [done|].
    unfold putDigest. pose proof (ret_PutOK Hr (outOK (co_Receipt c))).
    destruct (UnmarshalPutOK _) as [[d|]|e| |]; [|done..]. cbn [owrap mbind outcome_bind].
    pose proof (ret_multihash_Code Hr d). destruct (multihash_Code d); [|done..].
    cbn [owrap mbind outcome_bind]. by destruct (bool_decide _). }
  destruct (resolvePut found c task); [|done..]. cbn [mbind outcome_bind].
  by destruct (resolveLoop found l).
Qed.

Lemma httpPutConclude_gains cs n :
  responsive → sound n →
  ∃ meta err n', httpPutConclude router serviceIssuer cs n = (Ok (meta, err), n') ∧ sound n' ∧
    gains (deliveredPuts (agentStore n) cs) n n'.
Proof.
  intros Hr Hn. unfold httpPutConclude, deliveredPuts.
  destruct (filter _ cs) as [|c delivered] eqn:Ef.
  { eexists None, None, n. split_and!; [done|done|by apply gains_refl]. }
  rewrite M_bind_step. unfold try, reads.
  pose proof (resolveAllocations_returns (agentStore n) (c :: delivered) Hr Hn) as Hret.
  destruct (resolveAllocations _ _) as [puts|e| |]; [|eexists None, (Some e), n;
    split_and!; [done|done|by apply gains_refl]|done..].
  by apply acceptLoop_gains.
Qed.

(** ** A whole conclusion *)
Lemma rcptsByLink_elem rcpts link rcpt :
  rcptsByLink rcpts !! link = Some rcpt → rcpt ∈ rcpts ∧ rcpt_Link rcpt = link.
Proof.
  unfold rcptsByLink. induction rcpts as [|x rcpts IH] using rev_ind; [done|].
  rewrite foldl_app. simpl. intros [[<- <-]|[_ Hin]]%lookup_insert_Some; [set_solver|].
  apply IH in Hin. set_solver.
Qed.

Lemma matchReceipts_spec byLink byTask roots n :
  sound n → (∀ task inv, byTask !! task = Some inv → inv_Task inv = task) →
  ∃ r, matchReceipts byLink byTask roots n = (r, n) ∧ returns r ∧
    ∀ cs c, r = Ok (inr cs) → c ∈ cs →
      (∃ root, root ∈ roots ∧ byLink !! root = Some (co_Receipt c)) ∧
      inv_Task (co_Invocation c) = rcpt_Ran (co_Receipt c).
Proof.
  intros Hn Hby. induction roots as [|root roots (r & IH & Hret & Hall)].
  { eexists. split_and!; [done|done|]. intros cs c [= <-] Hc. by apply elem_of_nil in Hc. }
  cbn [matchReceipts]. destruct (byLink !! root) as [rcpt|] eqn:El.
  2: { eexists. by split_and!. }
  rewrite M_bind_step. set (found := match byTask !! _ with Some _ => _ | None => _ end).
  assert (∃ f, found n = (f, n) ∧ returns f ∧
    ∀ inv, f = Ok (Some inv) → inv_Task inv = rcpt_Ran rcpt) as (f & -> & Hf & Htask).
  { subst found. destruct (byTask !! rcpt_Ran rcpt) as [inv|] eqn:Eb.
    { eexists. split_and!; [done|done|]. intros i [= <-]. by apply Hby. }
    rewrite M_bind_step. unfold try, getInvocation, reads.
    destruct (Agent.GetInvocation_sound (agentStore n) (rcpt_Ran rcpt) Hn) as [[inv Hinv]|Hinv];
      rewrite Hinv.
    - eexists. split_and!; [done|done|]. intros i [= <-]. by apply Agent.GetInvocation_task in Hinv.
    - rewrite Is_refl. by eexists. }
  destruct f as [found'|e| |]; [|by eexists|done..]. rewrite M_bind_step, IH.
  destruct r as [rest|e| |]; [|by eexists|done..].
  assert (∀ cs c, rest = inr cs → c ∈ cs →
    (∃ root', root' ∈ root :: roots ∧ byLink !! root' = Some (co_Receipt c)) ∧
    inv_Task (co_Invocation c) = rcpt_Ran (co_Receipt c)) as Hrest.
  { intros cs c -> Hc. destruct (Hall cs c eq_refl Hc) as [(root' & Hin & Hl) Ht].
    split; [|done]. exists root'. split; [by right|done]. }
  destruct found' as [inv|]; [|eexists; split_and!; [done|done|]; intros cs c [= Heq]; by apply Hrest].
  destruct rest as [reply|cs]; [by eexists|]. eexists. split_and!; [done|done|].
  intros cs' c [= <-] [->|Hc]%elem_of_cons; [|by apply (Hrest cs)].
  cbn [co_Receipt co_Invocation]. split; [exists root; split; [left|done]|]. by apply Htask.
Qed.

Lemma runHandlers_absent cmd (h : ConclusionHandlerFunc) cs cmds g n :
  cmd ∉ cmds → runHandlers {[ cmd := h ]} cs cmds g n = (Ok g, n).
Proof.
  induction cmds as [|c cmds IH]; intros Hnin; [done|]. apply not_elem_of_cons in Hnin as [? ?].
  cbn [runHandlers]. rewrite lookup_singleton_ne by done. by apply IH.
Qed.
(** One handler among the commands runs once, on its own group. *)
Lemma runHandlers_single cmd (h : ConclusionHandlerFunc) cs cmds g n :
  NoDup cmds →
  (runHandlers {[ cmd := h ]} cs cmds g n = (Ok g, n)) ∨
  ∃ r, runHandlers {[ cmd := h ]} cs cmds g n = (r, (h (byCommand cs cmd) n).2) ∧
    (returns (h (byCommand cs cmd) n).1 → returns r).
Proof.
  intros Hnd. induction Hnd as [|c cmds Hnin Hnd IH]; [by left|]. cbn [runHandlers].
  destruct (decide (cmd = c)) as [<-|Hne]; [|rewrite lookup_singleton_ne by done; apply IH].
  right. rewrite lookup_singleton_eq, M_bind_step.
  destruct (h _ n) as [[[meta err]|e| |] n1]; [|by eexists..].
  destruct err as [err|]; [by eexists|]. rewrite runHandlers_absent by done. by eexists.
Qed.
Lemma commandsOf_NoDup cs : NoDup (commandsOf cs).
Proof.
  unfold commandsOf.
  assert (∀ l, NoDup l → NoDup (foldl (λ l c,
    if bool_decide (commandOf c ∈ l) then l else l ++ [commandOf c]) l cs)) as Hgo;
    [|apply Hgo; constructor].
  induction cs as [|c cs IH]; intros l Hl; [done|]. cbn [foldl].
  apply IH. case_bool_decide; [done|]. apply NoDup_app. split_and!; [done| |apply NoDup_singleton].
  intros x Hx ->%list_elem_of_singleton. done.
Qed.

(** [c] was delivered by the request: the receipt is one of those it came with and
    names, and the invocation is of the task the receipt ran. *)
Definition delivered (req : Request (list Cid)) (c : Conclusion) : Prop :=
  ∃ ct, req_Metadata req = Some ct ∧ co_Receipt c ∈ ct_Receipts ct ∧
    rcpt_Link (co_Receipt c) ∈ req_Arguments req ∧
    inv_Task (co_Invocation c) = rcpt_Ran (co_Receipt c).

Lemma conclude_match req n :
  sound n →
  ∃ r, matchReceipts
    (rcptsByLink match req_Metadata req with Some ct => ct_Receipts ct | None => [] end)
    (invsBy inv_Task match req_Metadata req with Some ct => ct_Invocations ct | None => [] end)
    (req_Arguments req) n = (r, n) ∧ returns r ∧
  ∀ cs c, r = Ok (inr cs) → c ∈ cs → delivered req c.
Proof.
  intros Hn. set (rcpts := match req_Metadata req with Some ct => ct_Receipts ct | None => [] end).
  set (invs := match req_Metadata req with Some ct => ct_Invocations ct | None => [] end).
  destruct (matchReceipts_spec (rcptsByLink rcpts) (invsBy inv_Task invs) (req_Arguments req) n Hn)
    as (r & Hr & Hret & Hall).
  { intros task inv Hl. by apply invsBy_elem in Hl as [_ ?]. }
  exists r. split_and!; [done..|]. intros cs c -> Hc.
  destruct (Hall cs c eq_refl Hc) as [(root & Hroot & [Hin Hl]%rcptsByLink_elem) Ht].
  subst rcpts. unfold delivered. destruct (req_Metadata req) as [ct|]; [|by apply elem_of_nil in Hin].
  exists ct. by subst root.
Qed.

Lemma conclude_gains (req : Request (list Cid)) (n : Node) :
  responsive → sound n →
  ∃ r n', conclude {[ cmd_Put := httpPutConclude router serviceIssuer ]} req n = (r, n') ∧
    returns r ∧ sound n' ∧
    (∀ sp d, holds n sp d → holds n' sp d) ∧
    ∀ sp d, holds n' sp d → holds n sp d ∨
      ∃ c put cls inv rcpt, delivered req c ∧ inv_Command (co_Invocation c) = cmd_Put ∧
        IsErr (co_Receipt c) = false ∧ resolvedFrom (agentStore n) c put ∧
        space put = sp ∧ Digest (blob put) = d ∧ shown cls put inv rcpt.
Proof.
  intros Hr Hn. unfold conclude. rewrite M_bind_step.
  destruct (conclude_match req n Hn) as (m & -> & Hret & Hdel).
  destruct m as [[reply|cs]|e| |]; [| | |done..].
  1,3: by eexists _, n; split_and!; [done|done|done|done|by left].
  rewrite M_bind_step. set (g := {| ga_invs := []; ga_rcpts := []; ga_dlgs := [] |}).
  destruct (runHandlers_single cmd_Put (httpPutConclude router serviceIssuer) cs (commandsOf cs) g n
    (commandsOf_NoDup cs)) as [->|(o & -> & Ho)].
  { by eexists _, n; split_and!; [done|done|done|done|by left]. }
  destruct (httpPutConclude_gains (byCommand cs cmd_Put) n Hr Hn)
    as (meta & err & n1 & Hh & Hs & Hmono & Hg).
  rewrite Hh in Ho |- *. cbn [fst snd] in *. specialize (Ho I).
  destruct o as [g'|e| |]; [| |done..]; (eexists _, n1; split_and!; [done|done|done|done|]).
  all: intros sp d [?|(put & cls & inv & rcpt & Hin & Hsp & Hd & Hsh)]%Hg; [by left|right].
  all: apply deliveredPuts_from in Hin as (c & Hc & Hok & Hfrom);
    apply list_elem_of_filter in Hc as [Hcmd Hc];
    exists c, put, cls, inv, rcpt; split_and!; [by eapply Hdel|done..].
Qed.


(** ** A conclusion keeps the books *)
Section KeepsBooks.
Context (ok : Z → Prop).
(** The allocations the service has made are of sizes of the kind [ok]. *)
Definition sizedAllocations (s : Agent.Store) : Prop := ∀ task inv args,
  Agent.GetInvocation s task = Ok inv →
  UnmarshalAllocateArguments (inv_ArgumentsBytes inv) = Ok args → ok (spec_Size (aa_Blob args)).
Definition sizedPut (put : concludedPut) : Prop := ok (BlobSize (blob put)).

Lemma keepsBooks_writeLoop acceptances invs rcpts : keepsBooks ok (writeLoop acceptances invs rcpts).
Proof. intros n. by rewrite keepsRegistry_writeLoop. Qed.
Lemma keepsBooks_registerLoop cls results puts :
  Forall sizedPut puts → keepsBooks ok (registerLoop cls results puts).
Proof.
  intros Hp. revert puts Hp. induction results as [|res results IH]; intros puts Hp.
  { by destruct puts; apply keepsBooks_ret. }
  destruct puts as [|put puts]; [intros n; apply rtc_refl|]. apply Forall_cons in Hp as [Hs Hp].
  cbn [registerLoop]. apply keepsBooks_bind; [apply keepsBooks_reads|]. intros [|]; [|by apply IH].
  apply keepsBooks_bind; [by apply keepsBooks_try, keepsBooks_register|].
  intros [u|err]; [by apply IH|]. case_match; [by apply IH|apply keepsBooks_ret].
Qed.
Lemma keepsBooks_acceptOnProvider prov puts :
  Forall sizedPut puts → keepsBooks ok (acceptOnProvider router serviceIssuer prov puts).
Proof.
  intros Hp. unfold acceptOnProvider.
  apply keepsBooks_bind; [auto with books|]. intros [info|err]; [|apply keepsBooks_ret].
  apply keepsBooks_bind; [auto with books|]. intros [cl|err]; [|apply keepsBooks_ret].
  apply keepsBooks_bind; [auto with books|]. intros [[results metas] acceptErr].
  apply keepsBooks_bind; [apply keepsBooks_try, keepsBooks_wrap, keepsBooks_writeLoop|].
  intros [u|err]; [|apply keepsBooks_ret].
  apply keepsBooks_bind; [by apply keepsBooks_registerLoop|].
  intros [err|]; apply keepsBooks_ret.
Qed.
Lemma keepsBooks_acceptLoop puts provs invs rcpts :
  Forall sizedPut puts → keepsBooks ok (acceptLoop router serviceIssuer puts provs invs rcpts).
Proof.
  intros Hp. revert invs rcpts. induction provs as [|prov provs IH]; intros invs rcpts;
    cbn [acceptLoop]; [apply keepsBooks_ret|].
  apply keepsBooks_bind.
  { apply keepsBooks_acceptOnProvider, Forall_forall. intros put [_ Hin]%list_elem_of_filter.
    rewrite Forall_forall in Hp. by apply Hp. }
  intros [[is1 rs1] [err|]]; [apply keepsBooks_ret|apply IH].
Qed.
Lemma deliveredPuts_sized s cs : sizedAllocations s → Forall sizedPut (deliveredPuts s cs).
Proof.
  intros Hs. apply Forall_forall. intros put (c & _ & _ & Hfrom)%deliveredPuts_from.
  destruct Hfrom as (pa & allocInv & args & _ & Hg & Ha & _ & _ & _ & Hsize & _).
  unfold sizedPut. rewrite Hsize. by eapply Hs.
Qed.
Lemma keepsBooks_httpPutConclude cs n :
  sizedAllocations (agentStore n) →
  rtc (stepFor ok) (world n) (world (httpPutConclude router serviceIssuer cs n).2).
Proof.
  intros Hs. pose proof (deliveredPuts_sized (agentStore n) cs Hs) as Hp.
  unfold httpPutConclude, deliveredPuts in *.
  destruct (filter _ cs) as [|c delivered]; [apply rtc_refl|].
  rewrite M_bind_step. unfold try, reads.
  destruct (resolveAllocations _ _) as [puts|e| |]; [|apply rtc_refl..].
  by apply keepsBooks_acceptLoop.
Qed.
Lemma keepsBooks_conclude req n :
  sound n → sizedAllocations (agentStore n) →
  rtc (stepFor ok) (world n)
    (world (conclude {[ cmd_Put := httpPutConclude router serviceIssuer ]} req n).2).
Proof.
  intros Hn Hs. unfold conclude. rewrite M_bind_step.
  destruct (conclude_match req n Hn) as (m & -> & Hret & _).
  destruct m as [[reply|cs]|e| |]; [apply rtc_refl| |apply rtc_refl..].
  rewrite M_bind_step. set (g := {| ga_invs := []; ga_rcpts := []; ga_dlgs := [] |}).
  destruct (runHandlers_single cmd_Put (httpPutConclude router serviceIssuer) cs (commandsOf cs) g n
    (commandsOf_NoDup cs)) as [->|(o & -> & _)]; [apply rtc_refl|].
  pose proof (keepsBooks_httpPutConclude (byCommand cs cmd_Put) n Hs) as Hk. by destruct o.
Qed.
End KeepsBooks.
End ProviderSpec.

End Conclude.
End Conclude.

(** ** Witnesses *)
Section Witnesses.
#[local] Existing Instances StrIds NumberJSON StrCommands RecContainers RecUcan RecForge RecEnv
  StorageProvider.Kept_Reads.

(** A put of a blob whose digest only the receipt reports. *)
Definition examplePutInv : Invocation := {|
  t_task := "put-task"; t_issuer := "did:key:b"; t_subject := "did:key:b";
  t_audience := "did:key:b"; t_command := "/http/put"; t_args := ""; t_nonce := "1" |}.
Definition examplePutRcpt : Receipt := {| rt_ran := "put-task"; rt_out := inl "d" |}.
Definition examplePut : Conclude.concludedPut := {|
  Conclude.putInv := examplePutInv;
  Conclude.provider := "did:web:node" : DID;
  Conclude.space := "did:key:space" : DID;
  Conclude.blob := {| Digest := "d"; BlobSize := 3 |};
  Conclude.cause := "add-task" : Cid;
  Conclude.acceptReq := {|
    PiriClient.ac_Space := "did:key:space" : DID;
    PiriClient.ac_Blob := {| s_digest := None; s_size := 3; s_code := 100 |} : BlobSpec;
    PiriClient.ac_Put := "put-task" : Cid;
    PiriClient.ac_PutInvocation := Some examplePutInv;
    PiriClient.ac_PutReceipt := Some examplePutRcpt |} |}.

Definition putOf (r : outcome (list Invocation * list Receipt * option error)) : option error :=
  match r with Ok (_, _, err) => err | _ => Some (Errorf "no result") end.

(** The node accepts the blob and the space holds it afterwards. *)
Lemma acceptOnProvider_spec_witness :
  ∃ n', (Conclude.acceptOnProvider (nodeAt "https://node") sprue
      (str_did "did:web:node") [examplePut] freshNode).2 = n' ∧
    holds n' (str_did "did:key:space") "d".
Proof.
  destruct (Conclude.acceptOnProvider_spec (nodeAt "https://node") sprue
    (str_did "did:web:node") [examplePut] freshNode rec_responsive)
    as (invs & rcpts & err & n' & Hr & _ & Hcase).
  { intros put ->%list_elem_of_singleton. reflexivity. }
  exists n'. split; [by rewrite Hr|].
  destruct Hcase as [[Herr _]|_].
  - exfalso. apply Herr. apply (f_equal (λ r, putOf r.1)) in Hr.
    etransitivity; [symmetry; exact Hr|]. vm_compute. reflexivity.
  - apply (f_equal snd) in Hr. cbn [snd] in Hr. rewrite <-Hr.
    apply (bool_decide_unpack _). vm_compute. exact I.
Defined.

Definition exampleClaim : Invocation := locationClaim "did:web:node" "d".
Definition exampleAcceptance : Receipt :=
  {| rt_ran := "accept-task"; rt_out := inl (pack [tokenLink exampleClaim; "pdp"]) |}.
Definition exampleAcceptResult : PiriClient.AcceptResult := {|
  PiriClient.res_Request := None; PiriClient.res_Invocation := Some examplePutInv;
  PiriClient.res_Receipt := Some exampleAcceptance |}.
Definition exampleMeta : list (option Container) :=
  [None; Some ({| rc_invs := [exampleClaim]; rc_rcpts := []; rc_dlgs := [] |} : Container)].

Lemma acceptance_whole_witness :
  ∃ a, a ∈ Conclude.groupAcceptances [exampleAcceptResult] exampleMeta ∧
    exampleAcceptance ∈ Conclude.acc_rcpts a ∧ exampleClaim ∈ Conclude.acc_invs a.
Proof.
  apply (Conclude.acceptance_whole [] [] exampleAcceptResult exampleAcceptance exampleMeta
    (str_cid (tokenLink exampleClaim)) exampleClaim).
  - reflexivity.
  - apply (bool_decide_unpack _). vm_compute. exact I.
  - vm_compute. reflexivity.
  - intros r l Hr. by apply elem_of_nil in Hr.
Defined.

(** The client delivers the receipt of its put to an allocation the service made. *)
Definition exampleAllocation : Invocation := {|
  t_task := "alloc-task"; t_issuer := "did:web:sprue"; t_subject := "did:web:node";
  t_audience := "did:web:node"; t_command := "/blob/allocate";
  t_args := pack ["did:key:space"; "add-task"; "3"; "18"; "digest"]; t_nonce := "1" |}.
Definition exampleDone : Invocation := {|
  t_task := "put-task"; t_issuer := "did:key:b"; t_subject := "did:key:b";
  t_audience := "did:key:b"; t_command := "/http/put";
  t_args := pack ["alloc-task"; "3"; "18"; "digest"]; t_nonce := "1" |}.
Definition exampleProof : Receipt := {| rt_ran := "put-task"; rt_out := inl "" |}.
Definition exampleConclusion : Request (list Cid) := {|
  req_Invocation := exampleDone; req_Arguments := [rcpt_Link exampleProof];
  req_Metadata := Some (container_New [exampleDone] [exampleProof] []) |}.
Definition allocatedNode : Node := {|
  ticks := 0; world := emptyWorld;
  agentStore := Agent.writes [container_New [exampleAllocation] [] []] |}.

End Witnesses.
