(* ===== verification/Poll.v ===== *)
(** * Messages kept and polled: [events.go] and [HandleReceiptRequest]

    The server keeps every request and response as an agent message
    ([pkg/lib/ucan_server/events.go]), and a client that waits for a receipt polls
    for it by task ([pkg/service/service.go]). *)
From S2P Require Export Conclude Texts.
From S2P Require Import Concrete.

(** What the endpoint uses of HTTP. *)
Class Http := {
  dagcbor_ContentType : string;
}.
(** What the error log uses of ucantone: the field [name] of an encoded failure,
    when it is a text. *)
Class Failures := {
  HandlerExecutionErrorName : string;
  failure_name : string → outcome (option string);
}.

Module Poll.
Section Poll.
Context `{Env} `{!CursorJSON} `{Commands} `{!Http} `{ErrorText}.

(** [AgentMessageLogger]: a request that cannot be kept is only logged, a response
    that cannot be kept fails the request. *)
Definition OnRequestDecode (msg : Container) : M Agent.Store unit :=
  _ ← try (Agent.Write msg (Agent.Index msg)); mret tt.
Definition OnResponseEncode (msg : Container) : M Agent.Store unit :=
  wrap "writing outgoing agent message to agent store" (Agent.Write msg (Agent.Index msg)).

(** [ErrorHandler]: of the failures in a response, those of a handler that
    returned an error are logged, and what cannot be read. *)
Inductive LogEntry :=
  | Unreadable (input : string)
  | HandlerError (task : Cid) (command : string).
Definition logFailure `{Failures} (msg : Container) (inv : Invocation) : option LogEntry :=
  match ct_Receipt msg (inv_Task inv) with
  | None => None
  | Some r =>
      match rcpt_Out r with
      | inl _ => None
      | inr x =>
          match failure_name x with
          | Ok (Some name) => if bool_decide (name = HandlerExecutionErrorName)
                              then Some (HandlerError (inv_Task inv) (inv_Command inv)) else None
          | Ok None => None
          | _ => Some (Unreadable x)
          end
      end
  end.
Definition logErrors `{Failures} (msg : Container) : list LogEntry :=
  omap (logFailure msg) (ct_Invocations msg).

(** Every handler that failed is in the log with its task and command. *)
Lemma logErrors_complete `{Failures} msg inv r x :
  inv ∈ ct_Invocations msg → ct_Receipt msg (inv_Task inv) = Some r → rcpt_Out r = inr x →
  failure_name x = Ok (Some HandlerExecutionErrorName) →
  HandlerError (inv_Task inv) (inv_Command inv) ∈ logErrors msg.
Proof.
  intros Hin Hr Hx Hname. apply list_elem_of_omap. exists inv. split; [done|].
  unfold logFailure. rewrite Hr, Hx, Hname. by rewrite bool_decide_eq_true_2.
Qed.
Lemma logErrors_sound `{Failures} msg task command :
  HandlerError task command ∈ logErrors msg →
  ∃ inv r, inv ∈ ct_Invocations msg ∧ inv_Task inv = task ∧ inv_Command inv = command ∧
    ct_Receipt msg task = Some r ∧ IsErr r = true.
Proof.
  intros (inv & Hin & Hl)%list_elem_of_omap. unfold logFailure in Hl.
  destruct (ct_Receipt msg (inv_Task inv)) as [r|] eqn:Er; [|done].
  destruct (rcpt_Out r) as [o|x] eqn:Eo; [done|].
  destruct (failure_name x) as [[name|]|e| |]; [|done..].
  case_bool_decide; [|done]. injection Hl as <- <-. exists inv, r. unfold IsErr. by rewrite Eo.
Qed.

(** [c.JSON(status, {"error": ...})] and [c.Blob(status, type, body)]. *)
Inductive Response :=
  | JSON (status : Z) (error : string)
  | Blob_ (status : Z) (contentType body : string).
Definition StatusOK : Z := 200.
Definition StatusBadRequest : Z := 400.
Definition StatusNotFound : Z := 404.

Definition receiptLimit : Z := 25.

(** The messages of a page; a method call on a nil message panics. *)
Fixpoint concrete (results : list (option Container)) : outcome (list Container) :=
  match results with
  | [] => Ok []
  | None :: _ => Panic
  | Some msg :: results => msgs ← concrete results; Ok (msg :: msgs)
  end.
Definition ran (task : Cid) (r : Receipt) : bool := bool_decide (rcpt_Ran r = task).

Definition HandleReceiptRequest (s : Agent.Store) (param : string) : outcome Response :=
  match cid_Parse param with
  | Err err => Ok (JSON StatusBadRequest ("invalid task CID: " +:+ Error err))
  | Panic => Panic
  | Diverge => Diverge
  | Ok task =>
      page ← owrap "listing agent messages"
               (Agent.List s task (WithListLimit receiptLimit noOptions));
      msgs ← concrete (Results page);
      let invs := msgs ≫= ct_Invocations in
      let dlgs := msgs ≫= ct_Delegations in
      let rcpts := msgs ≫= ct_Receipts in
      let found := containsFunc (λ msg, containsFunc (ran task) (ct_Receipts msg)) msgs in
      if negb found then Ok (JSON StatusNotFound "receipt not found")
      else
        buf ← owrap "marshaling receipt container"
                (container_MarshalCBOR (container_New invs rcpts dlgs));
        Ok (Blob_ StatusOK dagcbor_ContentType buf)
  end.

(** ** The page a poll looks at *)
Definition window (s : Agent.Store) (task : Cid) : list Cid :=
  take (Z.to_nat receiptLimit) (Agent.msgLinks s task).
Definition inWindow (s : Agent.Store) (task : Cid) (m : Container) : Prop :=
  ∃ c, c ∈ window s task ∧ Agent.store s !! c = Some m.

Lemma in_msgLinks s task c :
  c ∈ Agent.msgLinks s task ↔
  c ∈ Agent.links s (Agent.invocationKey task) ∨ c ∈ Agent.links s (Agent.receiptKey task).
Proof. unfold Agent.msgLinks, sortFunc. by rewrite merge_sort_Permutation, elem_of_app. Qed.
Lemma List_window s task :
  ∃ cur, Agent.List s task (WithListLimit receiptLimit noOptions) =
    Ok (mkPage cur ((λ l, Agent.store s !! l) <$> window s task)).
Proof.
  unfold Agent.List, window. cbn [WithListLimit noOptions cfgCursor cfgLimit mbind outcome_bind].
  set (all := Agent.msgLinks s task).
  assert ((if (receiptLimit <? len all)%Z then slice_to all receiptLimit else Ok all) =
    Ok (take (Z.to_nat receiptLimit) all)) as ->.
  { destruct (Z.ltb_spec receiptLimit (len all)) as [Hlt|Hge].
    - apply slice_to_ok. unfold receiptLimit in *. lia.
    - rewrite take_ge; [done|]. unfold len in Hge. lia. }
  cbn [mbind outcome_bind].
  assert (∀ l : list Cid, l ≠ [] → ∃ x, index l (len l - 1) = Ok x) as Hlast.
  { intros l Hne. rewrite index_last. destruct (last l) as [x|] eqn:E; [eauto|].
    by apply last_None in E. }
  destruct (take (Z.to_nat receiptLimit) all) as [|c l] eqn:Et; [by eexists|].
  destruct (Hlast (c :: l)) as [x ->]; [done|]. destruct (Hlast all) as [y ->].
  { intros Ha. by rewrite Ha in Et. }
  cbn [mbind outcome_bind]. by eexists.
Qed.

Lemma concrete_window s task :
  Agent.sound s →
  ∃ msgs, concrete ((λ l, Agent.store s !! l) <$> window s task) = Ok msgs ∧
    ∀ m, m ∈ msgs ↔ inWindow s task m.
Proof.
  intros Hs. unfold inWindow.
  assert (∀ c, c ∈ window s task → is_Some (Agent.store s !! c)) as Hall.
  { intros c Hc. assert (c ∈ Agent.msgLinks s task) as Hin
      by (rewrite <-(take_drop (Z.to_nat receiptLimit)); apply elem_of_app; by left).
    apply in_msgLinks in Hin as [?|?]; by eapply Hs. }
  induction (window s task) as [|c l IH].
  { exists []. split; [done|]. intros m. split; [by intros ?%elem_of_nil|].
    by intros (c & ?%elem_of_nil & _). }
  destruct IH as (msgs & Hm & Hel); [intros; apply Hall; by right|].
  destruct (Hall c) as [m0 Hc]; [left|]. exists (m0 :: msgs).
  rewrite fmap_cons. cbn [concrete]. rewrite Hc, Hm. split; [done|].
  intros m. rewrite elem_of_cons, Hel. split.
  - intros [->|(c' & ? & ?)]; [exists c; split; [left|done]|exists c'; split; [by right|done]].
  - intros (c' & [->|?]%elem_of_cons & Hl); [left; congruence|right; eauto].
Qed.

(** What a poll answers, in terms of the messages it looks at. *)
Lemma HandleReceiptRequest_window s task :
  Agent.sound s → cid_Defined task →
  ∃ invs rcpts dlgs,
    (∀ inv, inv ∈ invs ↔ ∃ m, inWindow s task m ∧ inv ∈ ct_Invocations m) ∧
    (∀ rcpt, rcpt ∈ rcpts ↔ ∃ m, inWindow s task m ∧ rcpt ∈ ct_Receipts m) ∧
    HandleReceiptRequest s (cid_String task) =
      if containsFunc (ran task) rcpts then
        buf ← owrap "marshaling receipt container"
                (container_MarshalCBOR (container_New invs rcpts dlgs));
        Ok (Blob_ StatusOK dagcbor_ContentType buf)
      else Ok (JSON StatusNotFound "receipt not found").
Proof.
  intros Hs Hdef. unfold HandleReceiptRequest. rewrite cid_Parse_Defined by done.
  destruct (List_window s task) as [cur ->]. cbn [owrap mbind outcome_bind Results].
  destruct (concrete_window s task Hs) as (msgs & -> & Hel). cbn [mbind outcome_bind].
  exists (msgs ≫= ct_Invocations), (msgs ≫= ct_Receipts), (msgs ≫= ct_Delegations).
  split_and!.
  1,2: intros x; rewrite list_elem_of_bind; setoid_rewrite Hel; naive_solver.
  assert (containsFunc (ran task) (msgs ≫= ct_Receipts) =
    containsFunc (λ msg, containsFunc (ran task) (ct_Receipts msg)) msgs) as ->.
  { clear. unfold containsFunc. induction msgs as [|m ms IH]; [done|].
    rewrite bind_cons, existsb_app. simpl. by rewrite IH. }
  by destruct (containsFunc _ msgs).
Qed.
Lemma ran_true task rcpts :
  containsFunc (ran task) rcpts = true ↔ ∃ rcpt, rcpt ∈ rcpts ∧ rcpt_Ran rcpt = task.
Proof.
  rewrite containsFunc_true. unfold ran. by setoid_rewrite bool_decide_eq_true.
Qed.

(** ** Keeping a message *)

(** CIDs are content addresses: different messages have different ones. *)
Definition contentAddressed : Prop := ∀ m m' c,
  Agent.messageLink m = Ok c → Agent.messageLink m' = Ok c → m = m'.
(** What is stored under a link is the message with that link. *)
Definition filed (s : Agent.Store) : Prop := ∀ c m,
  Agent.store s !! c = Some m → Agent.messageLink m = Ok c.

(** A message the store has and finds by the task. *)
Definition kept (s : Agent.Store) (task : Cid) (m : Container) : Prop :=
  ∃ c, c ∈ Agent.msgLinks s task ∧ Agent.store s !! c = Some m.
Lemma kept_window s task m :
  (len (Agent.msgLinks s task) ≤ receiptLimit)%Z → kept s task m → inWindow s task m.
Proof.
  unfold kept, inWindow, window. intros Hlen. rewrite take_ge; [done|]. unfold len in Hlen. lia.
Qed.

Lemma filed_Write m entries s :
  filed s → filed (Agent.Write m entries s).2.
Proof.
  intros Hf. unfold Agent.Write. destruct (Agent.messageLink m) as [c|e| |] eqn:E; [|done..].
  intros c' m'. cbn [snd Agent.store]. intros [[<- <-]|[_ Hl]]%lookup_insert_Some; [done|by apply Hf].
Qed.
Lemma kept_Write m entries s task m' :
  contentAddressed → filed s → kept s task m' → kept (Agent.Write m entries s).2 task m'.
Proof.
  intros Hca Hf (c & Hin & Hl). unfold Agent.Write.
  destruct (Agent.messageLink m) as [c0|e| |] eqn:E; [|by exists c..].
  exists c. cbn [snd]. split.
  - apply in_msgLinks. apply in_msgLinks in Hin. unfold Agent.links in *. cbn [Agent.index_].
    rewrite !Agent.indexEntries_lookup, !elem_of_app. tauto.
  - cbn [Agent.store]. destruct (decide (c0 = c)) as [->|Hne]; [|by rewrite lookup_insert_ne].
    rewrite lookup_insert_eq. f_equal. eapply Hca; [done|by apply Hf].
Qed.
(** A stored message is found by the task of each of its receipts. *)
Lemma Write_kept m s s' rcpt :
  Agent.Write m (Agent.Index m) s = (Ok tt, s') → rcpt ∈ ct_Receipts m →
  kept s' (rcpt_Ran rcpt) m.
Proof.
  unfold Agent.Write. destruct (Agent.messageLink m) as [c|e| |]; [|done..].
  intros [= <-] Hin. exists c. cbn [Agent.store]. rewrite lookup_insert_eq. split; [|done].
  apply in_msgLinks. right. unfold Agent.links. cbn [Agent.index_].
  rewrite Agent.indexEntries_lookup, elem_of_app. right.
  fold (Agent.occurrences (Agent.receiptKey (rcpt_Ran rcpt)) m).
  apply elem_of_replicate. split; [done|]. intros Hz.
  by apply (proj1 (Agent.occurs_receipt _ _) Hz rcpt).
Qed.

(** A kept receipt is answered, with everything of its message, while the task has
    no more messages than a poll looks at. *)
Lemma polled s task m rcpt :
  Agent.sound s → cid_Defined task → kept s task m → rcpt ∈ ct_Receipts m → rcpt_Ran rcpt = task →
  (len (Agent.msgLinks s task) ≤ receiptLimit)%Z →
  ∃ ct, ct_Invocations m ⊆ ct_Invocations ct ∧ ct_Receipts m ⊆ ct_Receipts ct ∧
    HandleReceiptRequest s (cid_String task) =
      Blob_ StatusOK dagcbor_ContentType <$>
        owrap "marshaling receipt container" (container_MarshalCBOR ct).
Proof.
  intros Hs Hdef Hk Hin Hran Hlen. apply kept_window in Hk; [|done].
  destruct (HandleReceiptRequest_window s task Hs Hdef) as (invs & rcpts & dlgs & Hi & Hr & ->).
  exists (container_New invs rcpts dlgs). split_and!.
  - intros x Hx. apply ct_New_Invocations, Hi. eauto.
  - intros x Hx. apply ct_New_Receipts, Hr. eauto.
  - rewrite (proj2 (ran_true _ _)); [by destruct (container_MarshalCBOR _)|].
    exists rcpt. split; [|done]. apply Hr. eauto.
Qed.

(** ** The acceptances of a conclusion *)
Lemma writeAgentMessage_Ok invs rcpts n n' :
  writeAgentMessage invs rcpts n = (Ok tt, n') →
  Agent.Write (container_New invs rcpts []) (Agent.Index (container_New invs rcpts []))
    (agentStore n) = (Ok tt, agentStore n').
Proof.
  unfold writeAgentMessage, onAgent. destruct (Agent.Write _ _ _) as [r s].
  by intros [= -> <-].
Qed.
Lemma writeEach_kept msgs n n' :
  contentAddressed → filed (agentStore n) →
  Conclude.writeEach msgs n = (Ok tt, n') →
  filed (agentStore n') ∧
  (∀ task m, kept (agentStore n) task m → kept (agentStore n') task m) ∧
  ∀ msg a rcpt, msg ∈ msgs → a ∈ msg → rcpt ∈ Conclude.acc_rcpts a →
    ∃ m, kept (agentStore n') (rcpt_Ran rcpt) m ∧ rcpt ∈ ct_Receipts m ∧
      Conclude.acc_invs a ⊆ ct_Invocations m.
Proof.
  intros Hca. revert n. induction msgs as [|msg msgs IH]; intros n Hf; cbn [Conclude.writeEach].
  { intros [= <-]. split_and!; [done|done|]. by intros msg a rcpt ?%elem_of_nil. }
  intros ([] & n1 & Hw & Hrest)%M_bind_Ok. apply writeAgentMessage_Ok in Hw.
  set (m := container_New _ _ _) in Hw.
  pose proof (filed_Write m (Agent.Index m) _ Hf) as Hf1. rewrite Hw in Hf1.
  destruct (IH n1 Hf1 Hrest) as (Hf' & Hmono & Hkept). split_and!; [done| |].
  - intros task m' Hk. apply Hmono.
    pose proof (kept_Write m (Agent.Index m) _ task m' Hca Hf Hk) as Hk1. by rewrite Hw in Hk1.
  - intros msg' a rcpt [->|Hin]%elem_of_cons Ha Hr; [|by eapply Hkept].
    assert (rcpt ∈ ct_Receipts m) as Hrm.
    { apply ct_New_Receipts, list_elem_of_bind. eauto. }
    exists m. split_and!; [by apply Hmono, (Write_kept m (agentStore n))|done|].
    intros inv Hinv. apply ct_New_Invocations, list_elem_of_bind. eauto.
Qed.

(** A client that polls for a receipt is answered from the first 25 messages
    found by the task: with all their tokens when one of them holds a receipt of
    the task, and with "not found" otherwise; text that is not a CID is a bad
    request. Unless the answer fails to encode, the request never fails. *)
Theorem HandleReceiptRequest_spec (s : Agent.Store) (param : string) :
  Agent.sound s →
  (∀ err, cid_Parse param = Err err →
     HandleReceiptRequest s param = Ok (JSON StatusBadRequest ("invalid task CID: " +:+ Error err))) ∧
  ∀ task, cid_Defined task → param = cid_String task →
    ((∃ m rcpt, inWindow s task m ∧ rcpt ∈ ct_Receipts m ∧ rcpt_Ran rcpt = task) ∧
     ∃ ct, (∀ inv, inv ∈ ct_Invocations ct ↔ ∃ m, inWindow s task m ∧ inv ∈ ct_Invocations m) ∧
       (∀ rcpt, rcpt ∈ ct_Receipts ct ↔ ∃ m, inWindow s task m ∧ rcpt ∈ ct_Receipts m) ∧
       HandleReceiptRequest s param =
         Blob_ StatusOK dagcbor_ContentType <$>
           owrap "marshaling receipt container" (container_MarshalCBOR ct)) ∨
    ((∀ m rcpt, inWindow s task m → rcpt ∈ ct_Receipts m → rcpt_Ran rcpt ≠ task) ∧
     HandleReceiptRequest s param = Ok (JSON StatusNotFound "receipt not found")).
Proof.
  intros Hs. split; [by unfold HandleReceiptRequest; intros err ->|]. intros task Hdef ->.
  destruct (HandleReceiptRequest_window s task Hs Hdef) as (invs & rcpts & dlgs & Hi & Hr & ->).
  destruct (containsFunc (ran task) rcpts) eqn:E.
  - left. apply ran_true in E as (rcpt & Hin & Hran). split.
    + apply Hr in Hin as (m & ? & ?). eauto.
    + exists (container_New invs rcpts dlgs). split_and!.
      * intros inv. by rewrite ct_New_Invocations.
      * intros r. by rewrite ct_New_Receipts.
      * by destruct (container_MarshalCBOR _).
  - right. split; [|done]. intros m rcpt Hm Hin Hran. apply not_true_iff_false in E. apply E, ran_true.
    exists rcpt. split; [|done]. apply Hr. eauto.
Qed.

(** C23: what a conclusion accepted can be polled for. Once the acceptances of a
    batch are written, a client that polls for the task of an accept gets its
    receipt and, in the same answer, the location commitment the receipt names
    (unless the receipt of an earlier result names it too), however many messages
    the acceptances were cut into; as long as the task has no more messages than a
    poll looks at. *)
Theorem conclusion_polled (pre post : list PiriClient.AcceptResult) (res : PiriClient.AcceptResult)
    (rcpt : Receipt) (metas : list (option Container)) (link : Cid) (inv : Invocation)
    (n n' : Node) :
  contentAddressed → filed (agentStore n) → sound n' →
  Conclude.writeAgentMessages (Conclude.groupAcceptances (pre ++ res :: post) metas) n = (Ok tt, n') →
  PiriClient.res_Receipt res = Some rcpt →
  link ∈ Conclude.attachedLinks rcpt →
  Conclude.attached metas link = Some inv →
  (∀ r l, r ∈ Conclude.ownRcpts pre → l ∈ Conclude.attachedLinks r →
     Conclude.attached metas l ≠ Some inv) →
  cid_Defined (rcpt_Ran rcpt) →
  (len (Agent.msgLinks (agentStore n') (rcpt_Ran rcpt)) ≤ receiptLimit)%Z →
  ∃ ct, rcpt ∈ ct_Receipts ct ∧ inv ∈ ct_Invocations ct ∧
    HandleReceiptRequest (agentStore n') (cid_String (rcpt_Ran rcpt)) =
      Blob_ StatusOK dagcbor_ContentType <$>
        owrap "marshaling receipt container" (container_MarshalCBOR ct).
Proof.
  intros Hca Hf Hn' Hw Hres Hlink Hatt Hfirst Hdef Hlen.
  destruct (Conclude.acceptance_holds pre post res rcpt metas link inv)
    as (a & Ha & Hr & Hi); [done..|].
  destruct (Conclude.writeAgentMessages_cut (pre ++ res :: post) metas) as (msgs & Hc & _ & Hcut).
  rewrite Hcut in Hw. apply writeEach_kept in Hw as (_ & _ & Hkept); [|done..].
  rewrite <-Hc, list_elem_of_In, in_concat in Ha. destruct Ha as (msg & Hmsg & Ha).
  apply list_elem_of_In in Ha, Hmsg.
  destruct (Hkept msg a rcpt) as (m & Hk & Hrm & Him); [done..|].
  destruct (polled (agentStore n') (rcpt_Ran rcpt) m rcpt) as (ct & Hcti & Hctr & Hans); [done..|].
  exists ct. split_and!; [by apply Hctr|by apply Hcti, Him|done].
Qed.
End Poll.
End Poll.

(** ** Witnesses *)
Section Witnesses.
#[local] Existing Instances StrIds NumberJSON StrCommands RecContainers RecUcan RecForge RecEnv
  StrErrorText.
Definition StrHttp : Http := {| dagcbor_ContentType := "application/vnd.ipld.dag-cbor" |}.
#[local] Existing Instance StrHttp.

Lemma rec_contentAddressed : Poll.contentAddressed.
Proof.
  intros m m' c Hm Hm'. unfold Agent.messageLink in Hm, Hm'. cbn in Hm, Hm'.
  injection Hm as <-. injection Hm' as Heq. symmetry. exact (containerLink_inj _ _ Heq).
Qed.

Definition answeredWith (r : outcome Poll.Response) : Z :=
  match r with
  | Ok (Poll.JSON status _) | Ok (Poll.Blob_ status _ _) => status
  | _ => 500%Z
  end.

(** One task, and who invokes it. *)
Definition taskBy (issuer : string) : token := {|
  t_task := "#add"; t_issuer := issuer; t_subject := "did:key:space";
  t_audience := "did:web:sprue"; t_command := "/blob/add"; t_args := ""; t_nonce := "1" |}.
Definition exampleReceipt : rtoken := {| rt_ran := "#add"; rt_out := inl "site" |}.
Definition exampleMessages : Agent.Store := Agent.writes
  [container_New [taskBy "did:key:a"] [] []; container_New [] [exampleReceipt] []].

Lemma sound_writes ms : Agent.sound (Agent.writes ms).
Proof.
  induction ms as [|m ms IH] using rev_ind; [apply Agent.sound_New|].
  rewrite Agent.writes_snoc. by apply Agent.sound_Write.
Qed.

Lemma HandleReceiptRequest_spec_witness :
  answeredWith (Poll.HandleReceiptRequest exampleMessages "") = 400%Z ∧
  answeredWith (Poll.HandleReceiptRequest exampleMessages "#add") = 200%Z.
Proof.
  destruct (Poll.HandleReceiptRequest_spec exampleMessages "" (sound_writes _)) as [Hbad _].
  destruct (Poll.HandleReceiptRequest_spec exampleMessages "#add" (sound_writes _)) as [_ Hgood].
  split.
  - rewrite (Hbad (Errorf "too short") eq_refl). reflexivity.
  - destruct (Hgood (str_cid "#add") I eq_refl) as [(_ & ct & _ & _ & Hr)|[_ Hr]].
    + rewrite Hr. reflexivity.
    + exfalso. apply (f_equal answeredWith) in Hr. vm_compute in Hr. discriminate Hr.
Defined.

(** A task invoked again and again, each time in a message of its own, pushes its
    receipt out of reach: the store has the receipt, and a poll does not find it. *)
Definition crowdedMessages : Agent.Store := Agent.writes
  (((λ i, container_New [taskBy (Itoa (Z.of_nat i))] [] []) <$> seq 0 25) ++
   [container_New [] [exampleReceipt] []]).
Lemma poll_misses_receipt :
  Agent.GetReceipt crowdedMessages (str_cid "#add") = Ok exampleReceipt ∧
  Poll.HandleReceiptRequest crowdedMessages "#add" =
    Ok (Poll.JSON Poll.StatusNotFound "receipt not found").
Proof. split; vm_compute; reflexivity. Qed.

Definition writtenNode : Node :=
  (Conclude.writeAgentMessages (Conclude.groupAcceptances [exampleAcceptResult] exampleMeta)
     freshNode).2.
Lemma conclusion_polled_witness :
  ∃ ct : Container, exampleAcceptance ∈ ct_Receipts ct ∧ exampleClaim ∈ ct_Invocations ct ∧
    Poll.HandleReceiptRequest (agentStore writtenNode) "accept-task" =
      Ok (Poll.Blob_ Poll.StatusOK "application/vnd.ipld.dag-cbor" (containerLink ct)).
Proof.
  destruct (Poll.conclusion_polled [] [] exampleAcceptResult exampleAcceptance exampleMeta
    (str_cid (tokenLink exampleClaim)) exampleClaim freshNode writtenNode rec_contentAddressed)
    as (ct & Hr & Hi & Hans).
  - intros c m Hl. cbn in Hl. rewrite lookup_empty in Hl. discriminate Hl.
  - apply sound_writeAgentMessage, Agent.sound_New.
  - apply injective_projections; cbn [fst snd]; [vm_compute; reflexivity|reflexivity].
  - reflexivity.
  - apply (bool_decide_unpack _). vm_compute. exact I.
  - vm_compute. reflexivity.
  - intros r l Hr. by apply elem_of_nil in Hr.
  - exact I.
  - apply Z.leb_le. vm_compute. reflexivity.
  - exists ct. split; [exact Hr|]. split; [exact Hi|]. exact Hans.
Defined.
End Witnesses.
