(* ===== verification/BlobAdd.v ===== *)
(** * Adding a blob: [blob_add.go]

    A blob is allocated on a node, a put is generated for the client to carry
    out, and the accept that will follow is named in the answer. A node that holds
    the blob already lets all three happen at once. What was added before is
    answered from the messages that were stored then. *)
From S2P Require Export Conclude Provisioning.
From S2P Require Import Concrete.

Module BlobAdd.
Section BlobAdd.
Context `{Env} `{!CursorJSON} `{Commands} `{ErrorNames}.
Import PiriClient.

Definition MissingNonceErrorName : string := "MissingNonce".

Definition hasErrorName (err : error) (name : string) : bool :=
  match AsNamed err with
  | Some (n, _) => bool_decide (n = name)
  | None => false
  end.

(** The signer a put is issued by: the last bytes of the digest are its seed. *)
Definition deriveDID (digest : Multihash) : outcome Issuer :=
  let n := Z.of_nat (String.length digest) in
  if (n <? ed25519_SeedSize)%Z
  then Err (Errorf ("expected []byte with length " +:+ Itoa ed25519_SeedSize +:+
                    ", got " +:+ Itoa n))
  else
    let seed := String.substring (Z.to_nat (n - ed25519_SeedSize)) (Z.to_nat ed25519_SeedSize) digest in
    owrap "failed to create ed25519 signer" (ed25519_FromRaw seed).

(** [genPut]: a receipt as well, when the node holds the blob. *)
Definition genPut (blob : BlobSpec) (cause : Cid) (allocInv : Invocation) (allocOK : AllocateOK)
    : M Node (Invocation * option Receipt) :=
  let keySource := default (cid_Hash cause) (spec_Digest blob) in
  blobProvider ← reads (λ _, deriveDID keySource);
  let id := issuer_DID blobProvider in
  putInv ← wrap ("invoking " +:+ quoted cmd_Put) (onTicks (observe (λ t,
    Invoke t blobProvider id
      (OfPut {| pa_Body := blob; pa_Destination := inv_Task allocInv |})
      [WithAudience id; WithKeys id (issuer_Bytes blobProvider)])));
  match ok_Address allocOK with
  | Some _ => mret (putInv, None)
  | None =>
      rcpt ← wrap ("issuing " +:+ quoted cmd_Put +:+ " receipt") (onTicks (observe (λ t,
        IssuePutOK t blobProvider (inv_Task putInv))));
      mret (putInv, Some rcpt)
  end.

(** ** Answering with what an add that ran has left *)
Fixpoint replayReceipts (tasks : list Cid) : M Node (list Receipt) :=
  match tasks with
  | [] => mret []
  | task :: tasks =>
      rcpt ← try (getReceipt task);
      match rcpt with
      | inr err =>
          if Is err ErrReceiptNotFound then replayReceipts tasks
          else fail (Wrap ("getting receipt for " +:+ cid_String task) err)
      | inl rcpt => rcpts ← replayReceipts tasks; mret (rcpt :: rcpts)
      end
  end.

Definition replayAdd (addRcpt : Receipt) : M Node (Reply Cid) :=
  site ← wrap "unmarshaling add OK result" (reads (λ _, UnmarshalAddOK (outOK addRcpt)));
  accInv ← wrap "getting invocation for blob accept" (getInvocation site);
  accArgs ← wrap "rebinding accept OK result"
              (reads (λ _, UnmarshalAcceptArguments (inv_ArgumentsBytes accInv)));
  putInv ← wrap "getting invocation for HTTP PUT" (getInvocation (ca_Put accArgs));
  putArgs ← wrap "unmarshaling HTTP PUT arguments"
              (reads (λ _, UnmarshalPutArguments (inv_ArgumentsBytes putInv)));
  allocRcpt ← wrap "getting receipt for allocation" (getReceipt (pa_Destination putArgs));
  allocInv ← wrap "getting invocation for allocation" (getInvocation (pa_Destination putArgs));
  rcpts ← replayReceipts [ca_Put accArgs; site];
  mret (SetSuccess site
          (Some (container_New [allocInv; putInv; accInv] (allocRcpt :: rcpts) []))).

Lemma readsOnly_replayReceipts tasks : readsOnly (replayReceipts tasks).
Proof.
  induction tasks as [|task tasks IH]; cbn [replayReceipts]; [done|].
  apply readsOnly_bind; [auto with readonly|]. intros [rcpt|err]; [auto with readonly|].
  case_match; auto with readonly.
Qed.
Lemma readsOnly_replayAdd addRcpt : readsOnly (replayAdd addRcpt).
Proof.
  unfold replayAdd. do 7 (apply readsOnly_bind; [auto with readonly|intros ?]).
  apply readsOnly_bind; [apply readsOnly_replayReceipts|done].
Qed.
Lemma replayAdd_site addRcpt n site meta n' :
  replayAdd addRcpt n = (Ok (SetSuccess site meta), n') → UnmarshalAddOK (outOK addRcpt) = Ok site.
Proof.
  unfold replayAdd. intros (s & n1 & Hs & Hrest)%M_bind_Ok.
  assert (s = site) as ->.
  { do 7 apply M_bind_Ok in Hrest as (? & ? & _ & Hrest). by injection Hrest. }
  unfold wrap, reads in Hs. destruct (UnmarshalAddOK _); [by injection Hs as ->|done..].
Qed.

Section Handler.
Context {P : Type} `{!StorageProvider.Reads P} (router : P) (policies : RoutingPolicy.Store)
  (provisioning : Provisioning.State) (serviceIssuer : Issuer) (fuel : nat).

(** [doAllocate]: one candidate after the other until one allocates the blob.
    [unsupported] records that one refused the digest code. *)
Fixpoint doAllocate (rounds : nat) (space : DID) (blob : BlobSpec) (cause : Cid)
    (exclusions : list DID) (unsupported : bool)
    : M Node (Routing.StorageProviderInfo * Invocation * Receipt * AllocateOK) :=
  match rounds with
  | O => λ n, (Diverge, n)
  | S rounds =>
      candidate ← try (onTicks (observe (λ t,
        Routing.SelectStorageProvider router (rand t) fuel policies space exclusions)));
      match candidate with
      | inr err =>
          if unsupported && Is err Routing.ErrCandidateUnavailable
          then fail ErrUnsupportedDigestCode else fail err
      | inl candidate =>
          cl ← reads (λ _, client serviceIssuer (Routing.ID candidate)
                             (Routing.infoEndpoint candidate));
          res ← try (onTicks (Allocate cl (Routing.infoProofs candidate)
                   {| al_Space := space; al_Blob := blob; al_Cause := cause |} []));
          match res with
          | inr err =>
              doAllocate rounds space blob cause (exclusions ++ [Routing.ID candidate])
                (hasErrorName err UnsupportedDigestCodeErrorName || unsupported)
          | inl (allocOK, inv, rcpt) =>
              written ← try (writeAgentMessage [inv] [rcpt]);
              match written with
              | inr _ => doAllocate rounds space blob cause (exclusions ++ [Routing.ID candidate])
                           unsupported
              | inl _ => mret (candidate, inv, rcpt, allocOK)
              end
          end
      end
  end.

(** What [maybeAccept] answers: the accept, its receipt when it was executed, and
    the node's extras. *)
Record acceptance := {
  ma_Invocation : Invocation;
  ma_Receipt : option Receipt;
  ma_extraInvocations : list Invocation;
  ma_extraReceipts : list Receipt;
}.
Definition maybeAccept (info : Routing.StorageProviderInfo) (space : DID) (blob : BlobSpec)
    (cause : Cid) (putInv : Invocation) (putRcpt : option Receipt) : M Node acceptance :=
  c ← reads (λ _, client serviceIssuer (Routing.ID info) (Routing.infoEndpoint info));
  let accReq := {| ac_Space := space; ac_Blob := blob; ac_Put := inv_Task putInv;
                   ac_PutInvocation := Some putInv; ac_PutReceipt := putRcpt |} in
  '(accInv, _) ← onTicks (AcceptInvocation c (Routing.infoProofs info) accReq [WithNoNonce]);
  let named := {| ma_Invocation := accInv; ma_Receipt := None; ma_extraInvocations := [];
                  ma_extraReceipts := [] |} in
  match spec_Digest blob, putRcpt with
  | Some digest, Some putRcpt =>
      if IsErr putRcpt then mret named
      else
        '(_, inv, rcpt, meta) ←
          onTicks (Accept c (Routing.infoProofs info) accReq [WithNoNonce]);
        let invs := match meta with Some ct => ct_Invocations ct | None => [] end in
        let rcpts := match meta with Some ct => ct_Receipts ct | None => [] end in
        _ ← writeAgentMessage (inv :: invs) (rcpt :: rcpts);
        _ ← register space {| Digest := digest; BlobSize := spec_Size blob |} cause;
        mret {| ma_Invocation := inv; ma_Receipt := Some rcpt; ma_extraInvocations := invs;
                ma_extraReceipts := rcpts |}
  | _, _ => mret named
  end.

(** The part of the handler that adds a blob that was not added before. *)
Definition freshAdd (rounds : nat) (space : DID) (blob : BlobSpec) (cause : Cid)
    : M Node (Reply Cid) :=
  allocated ← try (doAllocate rounds space blob cause [] false);
  match allocated with
  | inr err =>
      if Is err Routing.ErrCandidateUnavailable
      then mret (SetFailure Routing.ErrCandidateUnavailable)
      else if Is err ErrUnsupportedDigestCode then mret (SetFailure ErrUnsupportedDigestCode)
      else fail (Wrap "allocating space" err)
  | inl (info, allocInv, allocRcpt, allocOK) =>
      '(putInv, putRcpt) ← wrap "generating put invocation" (genPut blob cause allocInv allocOK);
      acc ← maybeAccept info space blob cause putInv putRcpt;
      mret (SetSuccess (inv_Task (ma_Invocation acc))
              (Some (container_New
                       ([allocInv; putInv; ma_Invocation acc] ++ ma_extraInvocations acc)
                       (allocRcpt :: option_list putRcpt ++ option_list (ma_Receipt acc) ++
                        ma_extraReceipts acc) [])))
  end.

(** [NewBlobAddHandler]. *)
Definition blobAdd (rounds : nat) (req : Request BlobSpec) : M Node (Reply Cid) :=
  let blob := req_Arguments req in
  let space := inv_Subject (req_Invocation req) in
  let cause := inv_Task (req_Invocation req) in
  providers ← wrap "listing service providers"
                (reads (λ _, Provisioning.ListServiceProviders fuel provisioning space));
  if bool_decide (length providers = 0)
  then mret (SetFailure (Named InsufficientStorageErrorName "space has no storage provider"))
  else
    match spec_Digest blob with
    | None =>
        if bool_decide (inv_Nonce (req_Invocation req) = "")
        then mret (SetFailure (Named MissingNonceErrorName
               ("a " +:+ blob_Add +:+ " without a digest must carry a nonce")))
        else
          prior ← try (getReceipt cause);
          match prior with
          | inr err =>
              if Is err ErrReceiptNotFound then freshAdd rounds space blob cause
              else fail (Wrap "checking for a prior blob add" err)
          | inl prior =>
              if IsErr prior then
                '(name, msg) ← wrap "decoding replayed blob add failure"
                                 (reads (λ _, UnmarshalErrorModel (outErr prior)));
                mret (SetFailure (Named name msg))
              else replayAdd prior
          end
    | Some digest =>
        reg ← try (reads (λ n, BlobRegistry.Get (registry (world n)) space digest));
        match reg with
        | inr err => if Is err ErrEntryNotFound then freshAdd rounds space blob cause
                     else fail err
        | inl reg =>
            addRcpt ← getReceipt (BlobRegistry.Cause reg);
            if IsErr addRcpt then fail (Errorf "blob registration receipt contains failure")
            else replayAdd addRcpt
        end
    end.

(** ** What the parts of an add leave *)
Lemma keepsRegistry_doAllocate rounds space blob cause exclusions unsupported :
  keepsRegistry (doAllocate rounds space blob cause exclusions unsupported).
Proof.
  revert exclusions unsupported. induction rounds as [|rounds IH]; intros exclusions unsupported;
    cbn [doAllocate]; [done|].
  apply keepsRegistry_bind; [auto with registry|]. intros [candidate|err].
  2: { case_match; auto with registry. }
  apply keepsRegistry_bind; [auto with registry|]. intros cl.
  apply keepsRegistry_bind; [auto with registry|]. intros [[[allocOK inv] rcpt]|err]; [|apply IH].
  apply keepsRegistry_bind; [auto with registry|]. intros [u|err]; [auto with registry|apply IH].
Qed.

Lemma doAllocate_allocates rounds space blob cause exclusions unsupported n info inv rcpt ok n' :
  doAllocate rounds space blob cause exclusions unsupported n = (Ok (info, inv, rcpt, ok), n') →
  inv_Subject inv = Routing.ID info ∧
  UnmarshalAllocateArguments (inv_ArgumentsBytes inv) =
    Ok {| aa_Space := space; aa_Blob := blob; aa_Cause := cause |}.
Proof.
  revert exclusions unsupported n. induction rounds as [|rounds IH]; intros exclusions unsupported n;
    cbn [doAllocate]; [done|].
  rewrite M_bind_step. destruct (try _ n) as [[[c|e]|e| |] n1]; [|by case_match|done..].
  rewrite M_bind_step. unfold reads at 1, client, New.
  destruct (NewHTTP _) as [u|e| |]; [|done..]. cbn [owrap mbind outcome_bind].
  rewrite M_bind_step. unfold try at 1, onTicks at 1.
  destruct (Allocate _ _ _ _ _) as [[[[allocOK i] r]|e| |] t1] eqn:Ea; [|apply IH|done..].
  rewrite M_bind_step. destruct (try _ _) as [[[u'|e]|e| |] n2]; [|apply IH|done..].
  intros [= <- <- <- <- _]. by apply Allocate_Ok in Ea as [(_ & Hs & Ha) _].
Qed.

Lemma genPut_Ok blob cause allocInv allocOK n putInv putRcpt n' :
  genPut blob cause allocInv allocOK n = (Ok (putInv, putRcpt), n') →
  UnmarshalPutArguments (inv_ArgumentsBytes putInv) =
    Ok {| pa_Body := blob; pa_Destination := inv_Task allocInv |} ∧
  (∀ r, putRcpt = Some r → rcpt_Ran r = inv_Task putInv ∧ IsErr r = false).
Proof.
  unfold genPut. rewrite M_bind_step. unfold reads at 1.
  destruct (deriveDID _) as [bp|e| |]; [|done..]. rewrite M_bind_step.
  unfold wrap at 1, onTicks at 1, observe.
  destruct (Invoke _ _ _ _ _) as [i|e| |] eqn:Ei; [|done..]. apply Invoke_Put in Ei as [_ Ha].
  destruct (ok_Address allocOK).
  { by intros [= <- <- _]. }
  rewrite M_bind_step. unfold wrap at 1, onTicks at 1, observe.
  destruct (IssuePutOK _ _ _) as [r|e| |] eqn:Er; [|done..].
  intros [= <- <- _]. split; [done|]. intros r' [= <-]. by apply IssuePutOK_Ran in Er.
Qed.
Lemma keepsRegistry_genPut blob cause allocInv allocOK :
  keepsRegistry (genPut blob cause allocInv allocOK).
Proof.
  unfold genPut. apply keepsRegistry_bind; [auto with registry|]. intros bp.
  apply keepsRegistry_bind; [auto with registry|]. intros putInv. case_match; auto with registry.
Qed.

(** [inv] is the accept of a put of the blob into the space, for some client of
    the node. *)
Definition acceptOf (node space : DID) (blob : BlobSpec) (put : Cid) (inv : Invocation) : Prop :=
  ∃ c req links t t', piriDID c = node ∧ ac_Space req = space ∧ ac_Blob req = blob ∧
    ac_Put req = put ∧ acceptInvocation c req [WithNoNonce] links t = (Ok inv, t').
(** The blob was accepted, and registered by the call that ended in [n']. *)
Definition registeredBy (w : World) (space : DID) (blob : BlobSpec) (cause : Cid)
    (rcpt : Receipt) (n' : Node) : Prop :=
  ∃ d n1, spec_Digest blob = Some d ∧ world n1 = w ∧
    register space {| Digest := d; BlobSize := spec_Size blob |} cause n1 = (Ok tt, n') ∧
    ∃ o ok, rcpt_Out rcpt = inl o ∧ UnmarshalAcceptOK o = Ok ok.

Lemma maybeAccept_Ok info space blob cause putInv putRcpt n acc n' :
  maybeAccept info space blob cause putInv putRcpt n = (Ok acc, n') →
  acceptOf (Routing.ID info) space blob (inv_Task putInv) (ma_Invocation acc) ∧
  match ma_Receipt acc with
  | None => world n' = world n
  | Some rcpt => registeredBy (world n) space blob cause rcpt n'
  end.
Proof.
  unfold maybeAccept. rewrite M_bind_step. unfold reads at 1, client, New.
  destruct (NewHTTP _) as [u|e| |]; [|done..]. cbn [owrap mbind outcome_bind].
  rewrite M_bind_step. unfold onTicks at 1.
  destruct (AcceptInvocation _ _ _ _ _) as [[[i ps]|e| |] t1] eqn:Ei; [|done..].
  apply AcceptInvocation_Ok in Ei as (links & t0 & t0' & Ei).
  assert (acceptOf (Routing.ID info) space blob (inv_Task putInv) i) as Hi
    by by eexists _, _, _, _, _; split_and!; [..|exact Ei].
  destruct (spec_Digest blob) as [d|] eqn:Ed; [|by intros [= <- <-]].
  destruct putRcpt as [putRcpt|]; [|by intros [= <- <-]].
  destruct (IsErr putRcpt); [by intros [= <- <-]|].
  rewrite M_bind_step. unfold onTicks at 1.
  destruct (Accept _ _ _ _ _) as [[[[[ok inv] rcpt] meta]|e| |] t2] eqn:Ea; [|done..].
  apply Accept_Ok in Ea as [(links' & t3 & t3' & Ea) Hok].
  rewrite M_bind_step.
  pose proof (keepsRegistry_writeAgentMessage
    (inv :: match meta with Some ct => ct_Invocations ct | None => [] end)
    (rcpt :: match meta with Some ct => ct_Receipts ct | None => [] end)
    {| ticks := t2; agentStore := agentStore n; world := world n |}) as Hw.
  destruct (writeAgentMessage _ _ _) as [[u'|e| |] n1]; [|done..]. cbn [snd world] in Hw.
  rewrite M_bind_step. destruct (register _ _ _ n1) as [[[]|e| |] n2] eqn:Er; [|done..].
  intros [= <- <-]. cbn [ma_Invocation ma_Receipt]. split.
  - eexists _, _, _, _, _. split_and!; [..|exact Ea]; done.
  - exists d, n1. split_and!; [done|done|done|]. destruct Hok as (o & ? & ?). by exists o, ok.
Qed.

(** An accept that did not come to registering a blob left the accounts alone. *)
Lemma maybeAccept_world info space blob cause putInv putRcpt n :
  (∀ d, spec_Digest blob = Some d → ¬ holds n space d) →
  match maybeAccept info space blob cause putInv putRcpt n with
  | (Ok _, _) => True
  | (_, n') => world n' = world n
  end.
Proof.
  intros Hfree. unfold maybeAccept. rewrite M_bind_step. unfold reads at 1.
  destruct (client _ _ _) as [c|e| |]; [|done..].
  rewrite M_bind_step. unfold onTicks at 1.
  destruct (AcceptInvocation _ _ _ _ _) as [[[i ps]|e| |] t1]; [|done..].
  destruct (spec_Digest blob) as [d|]; [|done]. destruct putRcpt as [putRcpt|]; [|done].
  destruct (IsErr putRcpt); [done|].
  rewrite M_bind_step. unfold onTicks at 1.
  destruct (Accept _ _ _ _ _) as [[[[[ok inv] rcpt] meta]|e| |] t2]; [|done..].
  rewrite M_bind_step.
  pose proof (keepsRegistry_writeAgentMessage
    (inv :: match meta with Some ct => ct_Invocations ct | None => [] end)
    (rcpt :: match meta with Some ct => ct_Receipts ct | None => [] end)
    {| ticks := t2; agentStore := agentStore n; world := world n |}) as Hw.
  destruct (writeAgentMessage _ _ _) as [[u'|e| |] n1]; [|done..]. cbn [snd world] in Hw.
  rewrite M_bind_step.
  destruct (register_spec space {| Digest := d; BlobSize := spec_Size blob |} cause n1)
    as (n2 & -> & _).
  rewrite decide_False; [done|]. unfold holds. rewrite Hw. by apply Hfree.
Qed.

(** ** Allocating *)
Section Allocating.
Context (Hresponsive : responsive) (Hpolicies : RoutingPolicy.wf policies)
  (Hrand : ∀ t, Routing.fair (rand t)) (Hweights : Routing.weighable router)
  (Hfuel : length (StorageProvider.listing router) < fuel).

Definition policyOf (space : DID) : option RoutingPolicy.PolicyRecord :=
  match Routing.resolvePolicy policies space with Ok policy => policy | _ => None end.

Lemma SelectStorageProvider_eligible t space exclusions :
  (∃ prov, Routing.eligible router (policyOf space) exclusions prov ∧
     Routing.SelectStorageProvider router (rand t) fuel policies space exclusions =
       Ok (Routing.infoOf prov)) ∨
  ((∀ prov, ¬ Routing.eligible router (policyOf space) exclusions prov) ∧
     Routing.SelectStorageProvider router (rand t) fuel policies space exclusions =
       Err Routing.ErrCandidateUnavailable).
Proof.
  destruct (Routing.SelectStorageProvider_cases router (rand t) fuel policies space exclusions)
    as (policy & Hpol & Hcases); [done..|].
  assert (policyOf space = policy) as ->; [|done]. unfold policyOf.
  destruct (Routing.resolvePolicy_wf policies space Hpolicies)
    as [(ref & p & Href & Hp & ->)|[Hnone ->]].
  - rewrite Href in Hpol. destruct Hpol as (p' & Hp' & ->). congruence.
  - by rewrite Hnone in Hpol.
Qed.

(** The excluded providers are different and registered, so there are no more
    rounds than providers. *)
Lemma exclusions_bound (exclusions : list DID) :
  NoDup exclusions → exclusions ⊆ StorageProvider.Provider <$> StorageProvider.listing router →
  length exclusions ≤ length (StorageProvider.listing router).
Proof.
  intros Hnd Hsub. rewrite <-(length_fmap StorageProvider.Provider (StorageProvider.listing router)).
  by apply submseteq_length, NoDup_submseteq.
Qed.

(** What an allocation that returned is: made on an eligible provider, for this
    blob, and successful. *)
Definition allocation (space : DID) (blob : BlobSpec) (cause : Cid)
    (r : Routing.StorageProviderInfo * Invocation * Receipt * AllocateOK) : Prop :=
  let '(info, inv, rcpt, allocOK) := r in
  (∃ prov, Routing.eligible router (policyOf space) [] prov ∧ info = Routing.infoOf prov) ∧
  inv_Command inv = cmd_Allocate ∧ inv_Subject inv = Routing.ID info ∧
  UnmarshalAllocateArguments (inv_ArgumentsBytes inv) =
    Ok {| aa_Space := space; aa_Blob := blob; aa_Cause := cause |} ∧
  ∃ o, rcpt_Out rcpt = inl o ∧ UnmarshalAllocateOK o = Ok allocOK.

(** [prov] was asked for this allocation between the observations [lo] and [hi], and
    gave none, or one that could not be recorded; [refused] tells whether it gave none
    because it does not know the digest code. *)
Definition askedInVain (space : DID) (blob : BlobSpec) (cause : Cid) (lo hi : nat)
    (prov : StorageProvider.Record_) (refused : bool) : Prop :=
  let info := Routing.infoOf prov in
  ∃ cl t, lo ≤ t ≤ hi ∧ client serviceIssuer (Routing.ID info) (Routing.infoEndpoint info) = Ok cl ∧
  match (Allocate cl (Routing.infoProofs info)
           {| al_Space := space; al_Blob := blob; al_Cause := cause |} [] t).1 with
  | Err e => refused = hasErrorName e UnsupportedDigestCodeErrorName
  | Ok (_, inv, rcpt) => refused = false ∧
      ∃ m e, lo ≤ ticks m ≤ hi ∧ (writeAgentMessage [inv] [rcpt] m).1 = Err e
  | _ => False
  end.
Lemma askedInVain_later space blob cause lo hi hi' prov refused :
  hi ≤ hi' → askedInVain space blob cause lo hi prov refused →
  askedInVain space blob cause lo hi' prov refused.
Proof.
  intros Hle (cl & t & Ht & Hcl & Hres). exists cl, t. split_and!; [lia|lia|done|].
  destruct (Allocate _ _ _ _ _).1 as [[[? inv] rcpt]|e| |]; [|done..].
  destruct Hres as (-> & m & e & Hm & Hw). split; [done|]. exists m, e. split; [lia|done].
Qed.

(** The allocation failed with [e] because nobody is left to ask: the eligible
    providers, and they alone, have each been asked in vain. The error is the refusal
    of the digest code if one of them gave it. *)
Definition exhausted (space : DID) (blob : BlobSpec) (cause : Cid) (lo hi : nat) (e : error) : Prop :=
  ∃ tried : list (StorageProvider.Record_ * bool),
    NoDup (StorageProvider.Provider <$> tried.*1) ∧
    (∀ prov refused, (prov, refused) ∈ tried →
       Routing.eligible router (policyOf space) [] prov ∧
       askedInVain space blob cause lo hi prov refused) ∧
    (∀ prov, Routing.eligible router (policyOf space) [] prov →
       StorageProvider.Provider prov ∈ StorageProvider.Provider <$> tried.*1) ∧
    e = if existsb snd tried then ErrUnsupportedDigestCode else Routing.ErrCandidateUnavailable.
(** Or because no client can be made for an eligible provider. *)
Definition clientless (space : DID) (e : error) : Prop :=
  ∃ prov, Routing.eligible router (policyOf space) [] prov ∧
    client serviceIssuer (StorageProvider.Provider prov) (StorageProvider.Endpoint prov) = Err e.

Lemma advances_Allocate cl proofs req options : advances (Allocate cl proofs req options).
Proof.
  unfold Allocate, AllocateInvocation, proofChain, Execute. apply advances_bind.
  - apply advances_wrap, advances_bind; [auto with advances|]. intros [prfs links]. auto with advances.
  - intros [inv prfs]. apply advances_bind.
    + apply advances_bind; [auto with advances|]. intros [rcpt meta].
      destruct (rcpt_Out rcpt); [auto with advances|]. apply advances_bind; [unfold attempt; auto with advances|].
      intros [[]|]; auto with advances.
    + intros [[ok rcpt] meta]. auto with advances.
Qed.
Lemma ticks_writeAgentMessage invs rcpts n : ticks (writeAgentMessage invs rcpts n).2 = ticks n.
Proof. unfold writeAgentMessage, onAgent. by destruct (Agent.Write _ _ _). Qed.

Lemma doAllocate_loop space blob cause lo rounds : ∀ (tried : list (StorageProvider.Record_ * bool)) n,
  NoDup (StorageProvider.Provider <$> tried.*1) → lo ≤ ticks n →
  (∀ prov refused, (prov, refused) ∈ tried → Routing.eligible router (policyOf space) [] prov ∧
     askedInVain space blob cause lo (ticks n) prov refused) →
  length (StorageProvider.listing router) < rounds + length tried →
  ∃ r n', doAllocate rounds space blob cause (StorageProvider.Provider <$> tried.*1)
      (existsb snd tried) n = (r, n') ∧
    world n' = world n ∧ (sound n → sound n') ∧
    match r with
    | Ok a => allocation space blob cause a
    | Err e => exhausted space blob cause lo (ticks n') e ∨ clientless space e
    | _ => False
    end.
Proof.
  induction rounds as [|rounds IH]; intros tried n Hnd Hlo Hex Hlen.
  { exfalso. assert (length (StorageProvider.Provider <$> tried.*1) ≤
      length (StorageProvider.listing router)); [|rewrite !length_fmap in *; lia].
    apply exclusions_bound; [done|]. intros d Hd. rewrite <-list_fmap_compose in Hd.
    apply list_elem_of_fmap in Hd as ([prov b] & -> & Hin). destruct (Hex _ _ Hin) as [Hel _].
    apply (list_elem_of_fmap_2 StorageProvider.Provider _ prov), Hel. }
  cbn [doAllocate]. rewrite M_bind_step. unfold try at 1, onTicks at 1, observe at 1.
  destruct (SelectStorageProvider_eligible (ticks n) space (StorageProvider.Provider <$> tried.*1))
    as [(prov & Hel & ->)|[Hnone ->]].
  2: { rewrite Is_refl, andb_true_r.
       assert (∀ b, b = existsb snd tried → exhausted space blob cause lo (S (ticks n))
         (if b then ErrUnsupportedDigestCode else Routing.ErrCandidateUnavailable)) as Hout.
       { intros b ->. exists tried. split_and!; [done| | |done].
         - intros prov refused Hin. destruct (Hex _ _ Hin) as [Hel Ha]. split; [done|].
           eapply askedInVain_later; [|exact Ha]. lia.
         - intros prov Hel. destruct (decide (StorageProvider.Provider prov ∈
             StorageProvider.Provider <$> tried.*1)) as [|Hn]; [done|].
           destruct (Hnone prov). destruct Hel as (? & ? & _ & ?). by split_and!. }
       specialize (Hout _ eq_refl).
       destruct (existsb snd tried); eexists _, _; (split_and!; [done..|]); by left. }
  rewrite M_bind_step. unfold reads at 1.
  pose proof (client_returns serviceIssuer (Routing.ID (Routing.infoOf prov))
    (Routing.infoEndpoint (Routing.infoOf prov)) Hresponsive) as Hcl.
  assert (Routing.eligible router (policyOf space) [] prov) as Hel0.
  { destruct Hel as (? & ? & _ & ?). split_and!; [done..| |done]. apply not_elem_of_nil. }
  destruct (client _ _ _) as [cl|e| |] eqn:Ecl; [| |done..].
  2: { eexists (Err e), _. split_and!; [done..|]. right. by exists prov. }
  set (n1 := {| ticks := S (ticks n); agentStore := agentStore n; world := world n |}).
  assert (∀ b b' n2, world n2 = world n → (sound n → sound n2) → ticks n1 ≤ ticks n2 →
    askedInVain space blob cause lo (ticks n2) prov b → b' = b || existsb snd tried → ∃ r n',
    doAllocate rounds space blob cause
      ((StorageProvider.Provider <$> tried.*1) ++ [StorageProvider.Provider prov]) b' n2 =
      (r, n') ∧ world n' = world n ∧ (sound n → sound n') ∧
    match r with
    | Ok a => allocation space blob cause a
    | Err e => exhausted space blob cause lo (ticks n') e ∨ clientless space e
    | _ => False
    end) as Hnext.
  { intros b b' n2 Hw Hs Ht2 Hask ->. cbn [ticks n1] in Ht2.
    destruct (IH (tried ++ [(prov, b)]) n2) as (r & n' & Hr & Hw' & Hs' & Hres).
    - rewrite !fmap_app. apply NoDup_app. split_and!; [done| |apply NoDup_singleton].
      intros d Hd ->%list_elem_of_singleton. by destruct Hel as (_ & _ & Hnin & _).
    - lia.
    - intros p rf [Hin|Hin]%elem_of_app.
      + destruct (Hex _ _ Hin) as [? Ha]. split; [done|]. eapply askedInVain_later; [|exact Ha]. lia.
      + by apply list_elem_of_singleton in Hin as [= -> ->].
    - rewrite length_app. simpl. lia.
    - exists r, n'. rewrite <-Hw. split_and!; [|done|tauto|done].
      rewrite <-Hr, !fmap_app, existsb_app. simpl. by rewrite orb_false_r, orb_comm. }
  rewrite M_bind_step. unfold try at 1, onTicks at 1.
  pose proof (comesBack_Allocate cl (Routing.infoProofs (Routing.infoOf prov))
    {| al_Space := space; al_Blob := blob; al_Cause := cause |} [] Hresponsive (ticks n1)) as Hret.
  pose proof (advances_Allocate cl (Routing.infoProofs (Routing.infoOf prov))
    {| al_Space := space; al_Blob := blob; al_Cause := cause |} [] (ticks n1)) as Hadv.
  destruct (Allocate _ _ _ _ (ticks n1)) as [res t1] eqn:Ea. cbn [fst snd ticks n1] in Hret, Hadv.
  destruct res as [[[allocOK inv] rcpt]|e| |]; [| |done..].
  2: { eapply Hnext; [done|done|cbn; lia| |done]. exists cl, (ticks n1).
       split_and!; [cbn; lia..|done|]. by rewrite Ea. }
  rewrite M_bind_step. unfold try at 1.
  set (n2 := {| ticks := t1; agentStore := agentStore n1; world := world n1 |}).
  pose proof (ticks_writeAgentMessage [inv] [rcpt] n2) as Ht3.
  destruct (Conclude.writeAgentMessage_returns [inv] [rcpt] n2 Hresponsive) as (r & n3 & Ew & Hr & Hw & Hs3).
  rewrite Ew in Ht3 |- *. cbn [snd ticks n2] in Ht3.
  destruct r as [u|e| |]; [| |done..].
  2: { eapply (Hnext false); [done|done|rewrite Ht3; cbn; lia| |done]. exists cl, (ticks n1).
       split_and!; [cbn; lia|rewrite Ht3; cbn; lia|done|]. rewrite Ea. split; [done|].
       exists n2, e. rewrite Ew, Ht3. cbn. split; [lia|done]. }
  eexists _, n3. split_and!; [done|done|done|]. apply Allocate_Ok in Ea as [(Hc & Hs & Ha) Ho].
  apply client_DID in Ecl. rewrite Ecl in Hs. split_and!; [|done..]. by exists prov.
Qed.

Lemma doAllocate_returns (space : DID) (blob : BlobSpec) (cause : Cid) (rounds : nat) (n : Node) :
  length (StorageProvider.listing router) < rounds →
  ∃ r n', doAllocate rounds space blob cause [] false n = (r, n') ∧ world n' = world n ∧
    (sound n → sound n') ∧
    match r with
    | Ok a => allocation space blob cause a
    | Err e => exhausted space blob cause (ticks n) (ticks n') e ∨ clientless space e
    | _ => False
    end.
Proof.
  intros Hr. apply (doAllocate_loop space blob cause (ticks n) rounds []);
    [constructor|done| |simpl; lia]. by intros ?? ?%elem_of_nil.
Qed.

(** C20: while the calls to other modules and nodes return, the stored policies are
    well formed, the drawn numbers are in range and the weights do not overflow, an
    allocation always comes to an end: with one more round than registered providers
    it makes one on an eligible provider, of this blob for this space and
    cause, and successful; or it fails after it has asked every eligible provider, and
    none twice or that is not eligible, each of which gave no allocation or one that
    could not be recorded: with the refusal of the digest code if one of them gave
    that, and else for want of candidates. It also fails when no client can be made for
    an eligible provider. The accounts are what they were, and the messages stay
    sound. *)
Theorem doAllocate_spec (space : DID) (blob : BlobSpec) (cause : Cid) (rounds : nat) (n : Node) :
  length (StorageProvider.listing router) < rounds →
  ∃ r n', doAllocate rounds space blob cause [] false n = (r, n') ∧ world n' = world n ∧
    (sound n → sound n') ∧
    match r with
    | Ok a => allocation space blob cause a
    | Err e => exhausted space blob cause (ticks n) (ticks n') e ∨ clientless space e
    | _ => False
    end.
Proof. apply doAllocate_returns. Qed.
End Allocating.

(** ** Adding *)

(** The tokens of an add that succeeded. *)
Definition added (space : DID) (blob : BlobSpec) (cause : Cid) (n n' : Node) (site : Cid)
    (ct : Container) : Prop :=
  ∃ info allocInv putInv acc,
    inv_Subject allocInv = Routing.ID info ∧
    UnmarshalAllocateArguments (inv_ArgumentsBytes allocInv) =
      Ok {| aa_Space := space; aa_Blob := blob; aa_Cause := cause |} ∧
    UnmarshalPutArguments (inv_ArgumentsBytes putInv) =
      Ok {| pa_Body := blob; pa_Destination := inv_Task allocInv |} ∧
    acceptOf (Routing.ID info) space blob (inv_Task putInv) (ma_Invocation acc) ∧
    site = inv_Task (ma_Invocation acc) ∧
    (∀ inv, inv ∈ [allocInv; putInv; ma_Invocation acc] → inv ∈ ct_Invocations ct) ∧
    match ma_Receipt acc with
    | None => world n' = world n
    | Some rcpt => rcpt ∈ ct_Receipts ct ∧ registeredBy (world n) space blob cause rcpt n'
    end.

Lemma freshAdd_Ok rounds space blob cause n site meta n' :
  freshAdd rounds space blob cause n = (Ok (SetSuccess site meta), n') →
  ∃ ct, meta = Some ct ∧ added space blob cause n n' site ct.
Proof.
  unfold freshAdd. rewrite M_bind_step. unfold try at 1.
  pose proof (keepsRegistry_doAllocate rounds space blob cause [] false n) as Hw.
  destruct (doAllocate _ _ _ _ _ _ n) as [[[[[info allocInv] allocRcpt] ok]|e| |] n1] eqn:Ed;
    [|by repeat case_match|done..].
  apply doAllocate_allocates in Ed as [Hs Ha]. cbn [snd] in Hw.
  rewrite M_bind_step. unfold wrap at 1.
  pose proof (keepsRegistry_genPut blob cause allocInv ok n1) as Hw2.
  destruct (genPut _ _ _ _ n1) as [[[putInv putRcpt]|e| |] n2] eqn:Eg; [|done..].
  apply genPut_Ok in Eg as [Hp _]. cbn [snd] in Hw2. rewrite M_bind_step.
  destruct (maybeAccept _ _ _ _ _ _ n2) as [[acc|e| |] n3] eqn:Em; [|done..].
  apply maybeAccept_Ok in Em as [Hacc Hreg]. rewrite Hw2, Hw in Hreg.
  intros [= <- <- <-]. eexists. split; [done|]. exists info, allocInv, putInv, acc.
  split_and!; [done..| |].
  - intros inv Hin. apply ct_New_Invocations. set_solver.
  - destruct (ma_Receipt acc) as [rcpt|]; [|done]. split; [|done].
    apply ct_New_Receipts. right. apply elem_of_app. right. apply elem_of_app. left. left.
Qed.

(** What an add may do to the registry: nothing, or register its own blob, which
    the space did not hold, on the node's successful accept, which the answer
    carries. *)
Definition registersOwn (space : DID) (blob : BlobSpec) (n : Node) (r : outcome (Reply Cid))
    (n' : Node) : Prop :=
  world n' = world n ∨
  ∃ d site ct rcpt o ok, spec_Digest blob = Some d ∧ r = Ok (SetSuccess site (Some ct)) ∧
    rcpt ∈ ct_Receipts ct ∧ rcpt_Out rcpt = inl o ∧ UnmarshalAcceptOK o = Ok ok ∧
    ¬ holds n space d ∧
    ∀ sp d', holds n' sp d' ↔ holds n sp d' ∨ sp = space ∧ d' = d.

Lemma registeredBy_holds n space blob cause rcpt n' :
  registeredBy (world n) space blob cause rcpt n' →
  ∃ d o ok, spec_Digest blob = Some d ∧ rcpt_Out rcpt = inl o ∧ UnmarshalAcceptOK o = Ok ok ∧
    ¬ holds n space d ∧ ∀ sp d', holds n' sp d' ↔ holds n sp d' ∨ sp = space ∧ d' = d.
Proof.
  intros (d & n1 & Hd & Hw & Hr & o & ok & Ho & Hok).
  destruct (register_spec space {| Digest := d; BlobSize := spec_Size blob |} cause n1)
    as (n2 & Hr' & _ & Hh).
  assert (∀ sp d', holds n1 sp d' ↔ holds n sp d') as Heq by (intros; unfold holds; by rewrite Hw).
  rewrite Hr in Hr'. cbn [Digest] in Hr', Hh. case_decide as Hn; [done|]. injection Hr' as <-.
  rewrite Heq in Hn. exists d, o, ok. split_and!; [done..|]. intros sp d'. by rewrite Hh, Heq.
Qed.

Lemma freshAdd_registers rounds space blob cause n :
  (∀ d, spec_Digest blob = Some d → ¬ holds n space d) →
  let '(r, n') := freshAdd rounds space blob cause n in registersOwn space blob n r n'.
Proof.
  intros Hfree. destruct (freshAdd rounds space blob cause n) as [r n'] eqn:Ef.
  pose proof Ef as Ef'. unfold freshAdd in Ef. rewrite M_bind_step in Ef. unfold try at 1 in Ef.
  pose proof (keepsRegistry_doAllocate rounds space blob cause [] false n) as Hw.
  destruct (doAllocate _ _ _ _ _ _ n) as [[[[[info allocInv] allocRcpt] ok]|e| |] n1];
    cbn [snd] in Hw; [|left; unfold mret, M_ret, fail in Ef; repeat case_match; by injection Ef as <- <-..].
  rewrite M_bind_step in Ef. unfold wrap at 1 in Ef.
  pose proof (keepsRegistry_genPut blob cause allocInv ok n1) as Hw2.
  destruct (genPut _ _ _ _ n1) as [[[putInv putRcpt]|e| |] n2]; cbn [snd] in Hw2;
    [|left; injection Ef as <- <-; congruence..].
  rewrite M_bind_step in Ef.
  pose proof (maybeAccept_world info space blob cause putInv putRcpt n2) as Hm.
  destruct (maybeAccept _ _ _ _ _ _ n2) as [[acc|e| |] n3];
    [|left; injection Ef as <- <-; rewrite Hm; [congruence|]; unfold holds; by rewrite Hw2, Hw..].
  injection Ef as <- <-. apply freshAdd_Ok in Ef' as (ct & Hct & Hadd). simplify_eq.
  destruct Hadd as (? & ? & ? & acc' & _ & _ & _ & _ & _ & _ & Hreg).
  destruct (ma_Receipt acc') as [rcpt|]; [right|by left].
  destruct Hreg as [Hin Hreg]. apply registeredBy_holds in Hreg as (d & o & ok' & ? & ? & ? & ? & ?).
  eexists d, _, _, rcpt, o, ok'. split_and!; [done|reflexivity|done..].
Qed.

Lemma blobAdd_registersOwn (rounds : nat) (req : Request BlobSpec) (n : Node) :
  let '(r, n') := blobAdd rounds req n in
  registersOwn (inv_Subject (req_Invocation req)) (req_Arguments req) n r n'.
Proof.
  unfold blobAdd. rewrite M_bind_step. unfold wrap at 1, reads at 1.
  destruct (Provisioning.ListServiceProviders _ _ _) as [providers|e| |]; [|by left..].
  case_bool_decide; [by left|].
  assert (∀ rcpt, let '(r, n') := replayAdd rcpt n in
    registersOwn (inv_Subject (req_Invocation req)) (req_Arguments req) n r n') as Hreplay.
  { intros rcpt. pose proof (readsOnly_replayAdd rcpt n) as Hn.
    destruct (replayAdd rcpt n) as [r n1]. simpl in Hn. subst n1. by left. }
  destruct (spec_Digest (req_Arguments req)) as [digest|] eqn:Ed.
  - rewrite M_bind_step. unfold try, reads at 1.
    destruct (BlobRegistry.Get_result (registry (world n)) (inv_Subject (req_Invocation req)) digest)
      as [(ent & -> & _)|[-> Hn]].
    + rewrite M_bind_step. unfold getReceipt, reads.
      destruct (Agent.GetReceipt _ _) as [rcpt|e| |]; [|by left..].
      destruct (IsErr rcpt); [by left|]. apply Hreplay.
    + rewrite Is_refl. apply freshAdd_registers. intros d. rewrite Ed. by intros [= <-].
  - case_bool_decide; [by left|]. rewrite M_bind_step. unfold try, getReceipt, reads at 1.
    destruct (Agent.GetReceipt _ _) as [rcpt|e| |]; [| |by left..].
    + destruct (IsErr rcpt); [|apply Hreplay]. rewrite M_bind_step. unfold wrap, reads.
      destruct (UnmarshalErrorModel _) as [[name msg]|e| |]; by left.
    + destruct (Is e ErrReceiptNotFound); [|by left]. apply freshAdd_registers. intros d. by rewrite Ed.
Qed.

(** C6: adding a blob registers nothing but that blob, and only on the word of the
    node: the accounts are what they were, or the answer is a success with the
    node's successful receipt of the accept, the space did not hold the blob, and
    it is all the space holds now that it did not before. *)
Theorem blobAdd_registers (rounds : nat) (req : Request BlobSpec) (n : Node) :
  let '(r, n') := blobAdd rounds req n in
  registersOwn (inv_Subject (req_Invocation req)) (req_Arguments req) n r n'.
Proof. apply blobAdd_registersOwn. Qed.

(** [req]'s blob was added by the task [task]: it is registered, or, named without
    its digest, the task itself has a receipt. *)
Definition addedBefore (n : Node) (req : Request BlobSpec) (task : Cid) : Prop :=
  match spec_Digest (req_Arguments req) with
  | Some digest => ∃ ent,
      BlobRegistry.Get (registry (world n)) (inv_Subject (req_Invocation req)) digest = Ok ent ∧
      BlobRegistry.Cause ent = task
  | None => inv_Nonce (req_Invocation req) ≠ "" ∧ task = inv_Task (req_Invocation req) ∧
      ∃ rcpt, Agent.GetReceipt (agentStore n) task = Ok rcpt
  end.

(** Adding a blob again does nothing: neither the accounts nor the messages
    change, no node is contacted, and a success is the first add's: it names the
    accept that the receipt of that add names. *)
Theorem blobAdd_again (rounds : nat) (req : Request BlobSpec) (n : Node) (task : Cid) :
  addedBefore n req task →
  ∃ r, blobAdd rounds req n = (r, n) ∧
    ∀ site meta, r = Ok (SetSuccess site meta) →
      ∃ rcpt, Agent.GetReceipt (agentStore n) task = Ok rcpt ∧
              UnmarshalAddOK (outOK rcpt) = Ok site.
Proof.
  intros Hb. unfold blobAdd, addedBefore in *. rewrite M_bind_step. unfold wrap at 1, reads at 1.
  destruct (Provisioning.ListServiceProviders _ _ _) as [providers|e| |]; [|by eexists..].
  case_bool_decide; [by eexists|].
  assert (∀ rcpt, ∃ r, replayAdd rcpt n = (r, n) ∧ ∀ site meta, r = Ok (SetSuccess site meta) →
    UnmarshalAddOK (outOK rcpt) = Ok site) as Hreplay.
  { intros rcpt. pose proof (readsOnly_replayAdd rcpt n) as Hn.
    destruct (replayAdd rcpt n) as [r n1] eqn:Er. simpl in Hn. subst n1. exists r.
    split; [done|]. intros site meta ->. by eapply replayAdd_site. }
  destruct (spec_Digest (req_Arguments req)) as [digest|].
  - destruct Hb as (ent & Hget & Hcause). rewrite M_bind_step. unfold try, reads at 1. rewrite Hget.
    rewrite Hcause, M_bind_step. unfold getReceipt, reads.
    destruct (Agent.GetReceipt _ task) as [rcpt|e| |]; [|by eexists..].
    destruct (IsErr rcpt); [by eexists|].
    destruct (Hreplay rcpt) as (r & Hr & Hs). exists r. split; [done|].
    intros site meta He. exists rcpt. split; [done|]. by eapply Hs.
  - destruct Hb as (Hnonce & -> & rcpt & Hget). rewrite bool_decide_eq_false_2 by done.
    rewrite M_bind_step. unfold try, getReceipt, reads at 1. rewrite Hget. destruct (IsErr rcpt).
    + rewrite M_bind_step. unfold wrap, reads.
      by destruct (UnmarshalErrorModel _) as [[name msg]|e| |]; eexists.
    + destruct (Hreplay rcpt) as (r & Hr & Hs). exists r. split; [done|].
      intros site meta He. exists rcpt. split; [done|]. by eapply Hs.
Qed.

(** Nothing is done for a space that is not provisioned: whatever is added, the
    answer is a failure or an error and the service is as it was. *)
Theorem blobAdd_unprovisioned (rounds : nat) (req : Request BlobSpec) (n : Node) :
  Provisioning.wf provisioning →
  (len (Consumer.records (Provisioning.consumerStore provisioning)
          (inv_Subject (req_Invocation req))) ≤ max_int64)%Z →
  length (Consumer.records (Provisioning.consumerStore provisioning)
            (inv_Subject (req_Invocation req))) < fuel →
  Provisioning.provisioned provisioning (inv_Subject (req_Invocation req)) = [] →
  blobAdd rounds req n =
  (Ok (SetFailure (Named InsufficientStorageErrorName "space has no storage provider")), n).
Proof.
  intros Hwf Hlen Hfuel Hnone. unfold blobAdd.
  destruct (Provisioning.ListServiceProviders_lists provisioning
    (inv_Subject (req_Invocation req)) fuel Hwf Hlen Hfuel) as (ps & Hps & _ & Hin).
  rewrite M_bind_step. unfold wrap, reads at 1. rewrite Hps. rewrite Hnone in Hin.
  destruct ps as [|p ps]; [done|]. exfalso. apply (not_elem_of_nil p), Hin. left.
Qed.

Lemma keepsBooks_doAllocate ok rounds space blob cause exclusions unsupported :
  keepsBooks ok (doAllocate rounds space blob cause exclusions unsupported).
Proof. intros n. by rewrite keepsRegistry_doAllocate. Qed.
Lemma keepsBooks_maybeAccept ok info space blob cause putInv putRcpt :
  ok (spec_Size blob) →
  keepsBooks ok (maybeAccept info space blob cause putInv putRcpt).
Proof.
  intros Hs. unfold maybeAccept. apply keepsBooks_bind; [auto with books|]. intros c.
  apply keepsBooks_bind; [auto with books|]. intros [accInv prfs].
  destruct (spec_Digest blob); [|auto with books]. destruct putRcpt; [|auto with books].
  case_match; [auto with books|]. apply keepsBooks_bind; [auto with books|].
  intros [[[body inv] rcpt] meta]. apply keepsBooks_bind; [auto with books|]. intros u.
  apply keepsBooks_bind; [by apply keepsBooks_register|auto with books].
Qed.
Lemma keepsBooks_freshAdd ok rounds space blob cause :
  ok (spec_Size blob) → keepsBooks ok (freshAdd rounds space blob cause).
Proof.
  intros Hs. unfold freshAdd. apply keepsBooks_bind.
  { apply keepsBooks_try, keepsBooks_doAllocate. }
  intros [[[[info allocInv] allocRcpt] body]|err]; [|repeat case_match; auto with books].
  apply keepsBooks_bind.
  { apply keepsBooks_wrap. intros n. by rewrite keepsRegistry_genPut. }
  intros [putInv putRcpt]. apply keepsBooks_bind; [by apply keepsBooks_maybeAccept|].
  auto with books.
Qed.
Lemma keepsBooks_blobAdd ok rounds req n :
  ok (spec_Size (req_Arguments req)) →
  rtc (stepFor ok) (world n) (world (blobAdd rounds req n).2).
Proof.
  intros Hs. revert n. change (keepsBooks ok (blobAdd rounds req)). unfold blobAdd.
  assert (∀ rcpt, keepsBooks ok (replayAdd rcpt)) as Hreplay.
  { intros rcpt n. by rewrite readsOnly_replayAdd. }
  pose proof (keepsBooks_freshAdd ok rounds (inv_Subject (req_Invocation req)) (req_Arguments req)
    (inv_Task (req_Invocation req)) Hs) as Hfresh.
  apply keepsBooks_bind; [auto with books|]. intros providers. case_bool_decide; [auto with books|].
  destruct (spec_Digest _).
  - apply keepsBooks_bind; [auto with books|]. intros [reg|err]; [|case_match; auto with books].
    apply keepsBooks_bind; [apply keepsBooks_reads|]. intros rcpt. case_match; auto with books.
  - case_bool_decide; [auto with books|].
    apply keepsBooks_bind; [apply keepsBooks_try, keepsBooks_reads|].
    intros [prior|err]; [|case_match; auto with books].
    case_match; [|auto]. apply keepsBooks_bind; [auto with books|]. intros [name msg]. auto with books.
Qed.

(** C12: the accept an add names is the accept its conclusion will run. When an add
    succeeds, its answer holds the allocation and the put; concluding that put, the
    allocation is found by the put's own arguments, and whichever receipt it is
    resolved with, whoever issues the accept of the resulting request to the
    provider it names, and whenever, the task is the one the add answered with:
    the client polls for a receipt that will exist. *)
Theorem add_conclude_agree (rounds : nat) (space : DID) (blob : BlobSpec) (cause : Cid)
    (n n' : Node) (site : Cid) (meta : option Container) :
  freshAdd rounds space blob cause n = (Ok (SetSuccess site meta), n') →
  ∃ ct allocInv putInv, meta = Some ct ∧
    allocInv ∈ ct_Invocations ct ∧ putInv ∈ ct_Invocations ct ∧
    ∀ rcpt,
      let c := {| Conclude.co_Invocation := putInv; Conclude.co_Receipt := rcpt |} in
      Conclude.allocTasks [c] = Ok [inv_Task allocInv] ∧
      ∀ allocInvs put, allocInvs !! inv_Task allocInv = Some allocInv →
        Conclude.resolvePut allocInvs c (inv_Task allocInv) = Ok (Some put) →
        Conclude.space put = space ∧ Conclude.cause put = cause ∧
        ∀ cl links t inv t', piriDID cl = Conclude.provider put →
          acceptInvocation cl (Conclude.acceptReq put) [WithNoNonce] links t = (Ok inv, t') →
          inv_Task inv = site.
Proof.
  intros (ct & -> & info & allocInv & putInv & acc & Hs & Ha & Hp & Hacc & -> & Hin & _)%freshAdd_Ok.
  exists ct, allocInv, putInv. split_and!; [done|apply Hin; left|apply Hin; right; left|].
  intros rcpt c. split; [cbn; by rewrite Hp|]. intros allocInvs put Hl Hput.
  assert (Conclude.space put = space ∧ Conclude.cause put = cause ∧
    Conclude.provider put = Routing.ID info ∧ ac_Space (Conclude.acceptReq put) = space ∧
    ac_Blob (Conclude.acceptReq put) = blob ∧ ac_Put (Conclude.acceptReq put) = inv_Task putInv)
    as (Hsp & Hca & Hpr & Hrs & Hrb & Hrp).
  { unfold Conclude.resolvePut in Hput. rewrite Hl, Ha in Hput. cbn [owrap mbind outcome_bind] in Hput.
    cbn [aa_Blob aa_Space aa_Cause] in Hput. destruct (spec_Digest blob) as [d|].
    - injection Hput as <-. done.
    - destruct (Conclude.putDigest _ _); [|done..]. injection Hput as <-. done. }
  split_and!; [done..|]. intros cl links t inv t' Hcl Hi.
  destruct Hacc as (c' & req & links' & t0 & t0' & Hc' & Hs' & Hb' & Hp' & Hi').
  eapply (acceptInvocation_task cl c'); [..|exact Hi|exact Hi']; congruence.
Qed.

(** ** An add always comes back *)
Section Completing.
Context (Hresponsive : responsive) (Hpolicies : RoutingPolicy.wf policies)
  (Hrand : ∀ t, Routing.fair (rand t)) (Hweights : Routing.weighable router)
  (Hfuel : length (StorageProvider.listing router) < fuel).

Lemma deriveDID_returns digest : returns (deriveDID digest).
Proof.
  unfold deriveDID. case_match; [done|]. set (seed := String.substring _ _ _).
  pose proof (ret_FromRaw Hresponsive seed). by destruct (ed25519_FromRaw seed).
Qed.
Lemma completes_client id ep : completes (reads (λ _ : Node, client serviceIssuer id ep)).
Proof. apply completes_reads. intros n _. by apply client_returns. Qed.
Lemma completes_genPut blob cause allocInv allocOK : completes (genPut blob cause allocInv allocOK).
Proof.
  unfold genPut. apply completes_bind; [apply completes_reads; intros; apply deriveDID_returns|].
  intros bp. apply completes_bind; [by apply completes_wrap, completes_onTicks, comesBack_Invoke|].
  intros putInv. case_match; [apply completes_ret|]. apply completes_bind; [|auto with completes].
  apply completes_wrap, completes_onTicks, comesBack_observe. intros t. by apply ret_IssuePutOK.
Qed.
Lemma completes_maybeAccept info space blob cause putInv putRcpt :
  completes (maybeAccept info space blob cause putInv putRcpt).
Proof.
  unfold maybeAccept. apply completes_bind; [apply completes_client|]. intros c.
  apply completes_bind; [by apply completes_onTicks, comesBack_AcceptInvocation|].
  intros [accInv prfs]. destruct (spec_Digest blob); [|apply completes_ret].
  destruct putRcpt; [|apply completes_ret]. case_match; [apply completes_ret|].
  apply completes_bind; [by apply completes_onTicks, comesBack_Accept|].
  intros [[[ok inv] rcpt] meta]. apply completes_bind; [by apply completes_writeAgentMessage|].
  intros u. apply completes_bind; [apply completes_register|auto with completes].
Qed.
Lemma completes_replayReceipts tasks : completes (replayReceipts tasks).
Proof.
  induction tasks as [|task tasks IH]; cbn [replayReceipts]; [apply completes_ret|].
  apply completes_bind; [auto with completes|]. intros [rcpt|err]; [auto with completes|].
  case_match; auto with completes.
Qed.
Lemma completes_replayAdd addRcpt : completes (replayAdd addRcpt).
Proof.
  unfold replayAdd. apply completes_bind.
  { apply completes_wrap, completes_reads. intros n _. by apply ret_AddOK. }
  intros site. apply completes_bind; [auto with completes|]. intros accInv. apply completes_bind.
  { apply completes_wrap, completes_reads. intros n _. by apply ret_AcceptArguments. }
  intros accArgs. apply completes_bind; [auto with completes|]. intros putInv.
  apply completes_bind.
  { apply completes_wrap, completes_reads. intros n _. by apply ret_PutArguments. }
  intros putArgs. do 2 (apply completes_bind; [auto with completes|intros ?]).
  apply completes_bind; [apply completes_replayReceipts|auto with completes].
Qed.
Lemma completes_freshAdd rounds space blob cause :
  length (StorageProvider.listing router) < rounds →
  completes (freshAdd rounds space blob cause).
Proof.
  intros Hrounds. unfold freshAdd. apply completes_bind.
  { apply completes_try. intros n Hn.
    destruct (doAllocate_returns Hresponsive Hpolicies Hrand Hweights Hfuel space blob cause rounds n
      Hrounds) as (r & n' & -> & _ & Hs & Hr). split; [by destruct r|by apply Hs]. }
  intros [[[[info allocInv] allocRcpt] ok]|err]; [|repeat case_match; auto with completes].
  apply completes_bind; [apply completes_wrap, completes_genPut|]. intros [putInv putRcpt].
  apply completes_bind; [apply completes_maybeAccept|auto with completes].
Qed.
Lemma completes_blobAdd rounds req :
  length (StorageProvider.listing router) < rounds →
  returns (Provisioning.ListServiceProviders fuel provisioning (inv_Subject (req_Invocation req))) →
  completes (blobAdd rounds req).
Proof.
  intros Hrounds Hlist. unfold blobAdd.
  pose proof (completes_freshAdd rounds (inv_Subject (req_Invocation req)) (req_Arguments req)
    (inv_Task (req_Invocation req)) Hrounds) as Hfresh.
  apply completes_bind; [by apply completes_wrap, completes_reads|]. intros providers.
  case_bool_decide; [apply completes_ret|]. destruct (spec_Digest _) as [digest|].
  - apply completes_bind.
    { apply completes_try, completes_reads. intros n _. unfold BlobRegistry.Get.
      by destruct (findFunc _ _). }
    intros [reg|err]; [|case_match; auto with completes].
    apply completes_bind; [auto with completes|]. intros rcpt.
    case_match; [apply completes_fail|apply completes_replayAdd].
  - case_bool_decide; [apply completes_ret|].
    apply completes_bind; [auto with completes|]. intros [prior|err]; [|case_match; auto with completes].
    case_match; [|apply completes_replayAdd]. apply completes_bind; [|intros [name msg]; apply completes_ret].
    apply completes_wrap, completes_reads. intros n _. by apply ret_ErrorModel.
Qed.
End Completing.
End Handler.
End BlobAdd.
End BlobAdd.

(** ** Witnesses *)
Section Witnesses.
#[local] Existing Instances StrIds NumberJSON StrCommands StrNames RecContainers RecUcan RecForge
  RecEnv StorageProvider.Kept_Reads.

Definition exampleSpec : BlobSpec := {| s_digest := Some "digest"; s_size := 3; s_code := 18 |}.
Definition exampleAdd (space : string) (blob : BlobSpec) : Request BlobSpec := {|
  req_Invocation := {|
    t_task := "add-task"; t_issuer := "did:key:agent"; t_subject := space;
    t_audience := "did:web:sprue"; t_command := "/blob/add"; t_args := ""; t_nonce := "1" |}
    : Invocation;
  req_Arguments := blob; req_Metadata := None |}.
Definition exampleProvisioning : Provisioning.State := {|
  Provisioning.consumerStore := (Consumer.Add (str_did "did:web:sprue") (str_did "did:key:space")
    (str_did "did:mailto:a") "sub" (str_cid "c") Consumer.New).2;
  Provisioning.subscriptionStore := Subscription.New |}.

Definition succeeds {A} (r : outcome (Reply A)) : bool :=
  match r with Ok (SetSuccess _ _) => true | _ => false end.

Lemma rec_fair t : Routing.fair (rand t).
Proof. intros n Hn. cbn. lia. Qed.

Lemma doAllocate_spec_witness :
  ∃ r n', BlobAdd.doAllocate (nodeAt "https://node") RoutingPolicy.New sprue 2 2
      (str_did "did:key:space") exampleSpec (str_cid "add-task") [] false freshNode = (r, n') ∧
    world n' = emptyWorld.
Proof.
  destruct (BlobAdd.doAllocate_spec (nodeAt "https://node") RoutingPolicy.New sprue 2
    rec_responsive RoutingPolicy.policies_wf_New rec_fair) with
    (space := str_did "did:key:space") (blob := exampleSpec) (cause := str_cid "add-task")
    (rounds := 2) (n := freshNode) as (r & n' & Hr & Hw & _).
  - vm_compute. discriminate.
  - vm_compute. lia.
  - vm_compute. lia.
  - exists r, n'. split; [exact Hr|exact Hw].
Defined.

Lemma blobAdd_unprovisioned_witness :
  succeeds (BlobAdd.blobAdd (nodeAt "https://node") RoutingPolicy.New exampleProvisioning sprue 2 2
    (exampleAdd "did:key:other" exampleSpec) freshNode).1 = false.
Proof.
  rewrite (BlobAdd.blobAdd_unprovisioned (nodeAt "https://node") RoutingPolicy.New
    exampleProvisioning sprue 2 2 (exampleAdd "did:key:other" exampleSpec) freshNode).
  - reflexivity.
  - split; [apply Consumer.consumers_wf_Add, Consumer.consumers_wf_New|apply Subscription.subs_wf_New].
  - vm_compute. discriminate.
  - vm_compute. lia.
  - vm_compute. reflexivity.
Defined.

(** An add without a digest whose receipt the service has. *)
Definition exampleHashless : BlobSpec := {| s_digest := None; s_size := 3; s_code := 100 |}.
Definition exampleAnswered : Node := {|
  ticks := 0;
  agentStore := Agent.writes [{| rc_invs := []; rc_rcpts := [{| rt_ran := "add-task";
    rt_out := inr (pack ["CandidateUnavailable"; "none"]) |}]; rc_dlgs := [] |} : Container];
  world := emptyWorld |}.
Lemma blobAdd_again_witness :
  ∃ r, BlobAdd.blobAdd (nodeAt "https://node") RoutingPolicy.New exampleProvisioning sprue 2 2
    (exampleAdd "did:key:space" exampleHashless) exampleAnswered = (r, exampleAnswered).
Proof.
  destruct (BlobAdd.blobAdd_again (nodeAt "https://node") RoutingPolicy.New exampleProvisioning
    sprue 2 2 (exampleAdd "did:key:space" exampleHashless) exampleAnswered (str_cid "add-task"))
    as (r & Hr & _).
  - split; [discriminate|]. split; [reflexivity|]. eexists. vm_compute. reflexivity.
  - exists r. exact Hr.
Defined.

Lemma add_conclude_agree_witness :
  ∃ ct allocInv n', (BlobAdd.freshAdd (nodeAt "https://node") RoutingPolicy.New sprue 2 2
      (str_did "did:key:space") exampleSpec (str_cid "add-task") freshNode).2 = n' ∧
    allocInv ∈ ct_Invocations ct.
Proof.
  assert (succeeds (BlobAdd.freshAdd (nodeAt "https://node") RoutingPolicy.New sprue 2 2
    (str_did "did:key:space") exampleSpec (str_cid "add-task") freshNode).1 = true) as Hs
    by (vm_compute; reflexivity).
  destruct (BlobAdd.freshAdd (nodeAt "https://node") RoutingPolicy.New sprue 2 2
    (str_did "did:key:space") exampleSpec (str_cid "add-task") freshNode)
    as [[[site meta|e]|e| |] n'] eqn:E; try discriminate Hs.
  destruct (BlobAdd.add_conclude_agree _ _ _ _ _ _ _ _ _ _ _ _ E)
    as (ct & allocInv & putInv & _ & Hin & _).
  exists ct, allocInv, n'. split; [reflexivity|exact Hin].
Defined.
End Witnesses.
