(* ===== verification/BlobRemove.v ===== *)
(** * Removing a blob and aborting an upload: [blob_remove.go], [blob_abort.go]

    A removal releases the blob on every node that holds it for the space, as far
    as they answer, and deregisters it. An abort finds the allocation behind an
    add and has its node reject it; it registers and deregisters nothing. *)
From S2P Require Export BlobAdd Replica.
From S2P Require Import Concrete.

Module BlobRemove.
Section BlobRemove.
Context `{Env} `{!CursorJSON} `{Commands} `{ErrorNames}.
Import PiriClient.
#[local] Existing Instance Replica.ReplicationStatus_eq_dec.

(** The delegations behind the links, of those that came with the request. *)
Definition containerDelegations (meta : option Container) (links : list Cid) : list Delegation :=
  match meta with
  | None => []
  | Some ct => links ≫= λ link, option_list (ct_Delegation ct link)
  end.

(** Along the receipt chain: add task, accept task, node. *)
Definition primaryProviderForBlob (cause : Cid) : M Node DID :=
  addRcpt ← wrap "getting receipt for blob registration" (getReceipt cause);
  if IsErr addRcpt then fail (Errorf "blob registration receipt contains failure")
  else
    site ← wrap "unmarshaling add OK result" (reads (λ _, UnmarshalAddOK (outOK addRcpt)));
    accInv ← wrap "getting invocation for blob accept" (getInvocation site);
    mret (inv_Subject accInv).

Definition errOtherSpace : error := Named "OtherSpace" "add task belongs to another space".

(** [rejectionFor]: the node an upload went to and the allocation to reject. *)
Definition rejectionFor (space : DID) (add : Cid) : M Node (DID * RejectArguments) :=
  addRcpt ← wrap "getting receipt for blob add" (getReceipt add);
  if IsErr addRcpt then fail (Errorf "blob add receipt contains failure")
  else
    site ← wrap "unmarshaling add OK result" (reads (λ _, UnmarshalAddOK (outOK addRcpt)));
    accInv ← wrap "getting invocation for blob accept" (getInvocation site);
    accArgs ← wrap "unmarshaling accept arguments"
                (reads (λ _, UnmarshalAcceptArguments (inv_ArgumentsBytes accInv)));
    if bool_decide (ca_Space accArgs ≠ space) then fail errOtherSpace
    else
      putInv ← wrap "getting invocation for HTTP PUT" (getInvocation (ca_Put accArgs));
      putArgs ← wrap "unmarshaling HTTP PUT arguments"
                  (reads (λ _, UnmarshalPutArguments (inv_ArgumentsBytes putInv)));
      mret (inv_Subject accInv, {| ja_Allocation := pa_Destination putArgs |}).

Section Handler.
Context {P : Type} `{!StorageProvider.Reads P} (router : P) (replicas : Replica.Store)
  (serviceIssuer : Issuer).

Definition forwardBlobRelease (provider space : DID) (digest : Multihash) (cause : Invocation)
    (causeProofs : list Delegation) : M Node unit :=
  info ← wrap "getting provider info" (reads (λ _, Routing.GetProviderInfo router provider));
  cl ← wrap "creating piri client"
         (reads (λ _, client serviceIssuer (Routing.ID info) (Routing.infoEndpoint info)));
  '(inv, rcpt) ← wrap "executing release on provider"
    (onTicks (Release cl (Routing.infoProofs info)
       {| re_Space := space; re_Digest := digest; re_Cause := cause;
          re_CauseProofs := causeProofs |} []));
  wrap "writing agent message" (writeAgentMessage [inv] [rcpt]).

(** Every provider in turn; one that fails is only logged. *)
Fixpoint forwardAll (providers : list DID) (space : DID) (digest : Multihash)
    (cause : Invocation) (causeProofs : list Delegation) : M Node unit :=
  match providers with
  | [] => mret tt
  | provider :: providers =>
      _ ← try (forwardBlobRelease provider space digest cause causeProofs);
      forwardAll providers space digest cause causeProofs
  end.

(** The set of nodes that hold the blob for the space. *)
Definition holders (primary : DID + error) (rs : list Replica.Record_) : gset DID :=
  match primary with inl p => {[ p ]} | inr _ => ∅ end ∪
  list_to_set (Replica.Provider <$> filter (λ r, Replica.Status r ≠ Replica.Failed) rs).

(** [NewBlobRemoveHandler]. The providers are a Go map: [order] is the order it is
    ranged over in. *)
Definition blobRemove (order : gset DID → list DID) (req : Request Multihash)
    : M Node (Reply unit) :=
  let digest := req_Arguments req in
  let space := inv_Subject (req_Invocation req) in
  let cause := inv_Task (req_Invocation req) in
  reg ← try (reads (λ n, BlobRegistry.Get (registry (world n)) space digest));
  match reg with
  | inr err =>
      if Is err ErrEntryNotFound then mret (SetSuccess tt None)
      else fail (Wrap "getting blob registration" err)
  | inl reg =>
      primary ← try (primaryProviderForBlob (BlobRegistry.Cause reg));
      let providers := holders primary (Replica.List replicas space digest) in
      let causeProofs := containerDelegations (req_Metadata req)
                           (inv_Proofs (req_Invocation req)) in
      _ ← forwardAll (order providers) space digest (req_Invocation req) causeProofs;
      removed ← try (deregister space digest cause);
      match removed with
      | inl _ => mret (SetSuccess tt None)
      | inr err =>
          if Is err ErrEntryNotFound then mret (SetSuccess tt None)
          else fail (Wrap "deregistering blob" err)
      end
  end.

(** [NewBlobAbortHandler]; its argument is the add task. *)
Definition blobAbort (req : Request Cid) : M Node (Reply unit) :=
  let space := inv_Subject (req_Invocation req) in
  let add := req_Arguments req in
  if negb (cid_Defined add) then mret (SetFailure ErrMissingCause)
  else
    found ← try (rejectionFor space add);
    match found with
    | inr err =>
        if Is err ErrReceiptNotFound || Is err ErrInvocationNotFound || Is err errOtherSpace
        then mret (SetFailure (Named MissingCauseErrorName
               "cause does not resolve to a known /blob/add task"))
        else fail (Wrap "recovering provider for parked blob" err)
    | inl (provider, reject) =>
        info ← wrap "getting provider info"
                 (reads (λ _, Routing.GetProviderInfo router provider));
        cl ← wrap "creating piri client"
               (reads (λ _, client serviceIssuer (Routing.ID info) (Routing.infoEndpoint info)));
        res ← try (onTicks (Reject cl (Routing.infoProofs info) reject []));
        match res with
        | inr err =>
            match AsNamed err with
            | Some (name, msg) =>
                if bool_decide (name = BlobAcceptedErrorName)
                then mret (SetFailure (Named name msg))
                else fail (Wrap "executing reject on provider" err)
            | None => fail (Wrap "executing reject on provider" err)
            end
        | inl (inv, rcpt) =>
            _ ← wrap "writing agent message" (writeAgentMessage [inv] [rcpt]);
            mret (SetSuccess tt None)
        end
    end.

(** ** Removing *)
Lemma keepsRegistry_forwardBlobRelease provider space digest cause proofs :
  keepsRegistry (forwardBlobRelease provider space digest cause proofs).
Proof.
  unfold forwardBlobRelease. do 2 (apply keepsRegistry_bind; [auto with registry|intros ?]).
  apply keepsRegistry_bind; [auto with registry|]. intros [inv rcpt]. auto with registry.
Qed.
Lemma completes_forwardBlobRelease provider space digest cause proofs :
  responsive → completes (forwardBlobRelease provider space digest cause proofs).
Proof.
  intros Hr. unfold forwardBlobRelease.
  apply completes_bind.
  { apply completes_wrap, completes_reads. intros n _. apply Conclude.GetProviderInfo_returns. }
  intros info. apply completes_bind.
  { apply completes_wrap, completes_reads. intros n _. by apply client_returns. }
  intros cl. apply completes_bind.
  { apply completes_wrap, completes_onTicks. by apply comesBack_Release. }
  intros [inv rcpt]. by apply completes_wrap, completes_writeAgentMessage.
Qed.
Lemma keepsRegistry_forwardAll providers space digest cause proofs :
  keepsRegistry (forwardAll providers space digest cause proofs).
Proof.
  induction providers as [|p ps IH]; cbn [forwardAll]; [done|]. apply keepsRegistry_bind; [|done].
  apply keepsRegistry_try, keepsRegistry_forwardBlobRelease.
Qed.
(** Whatever the nodes answer, all of them are asked. *)
Lemma forwardAll_done providers space digest cause proofs n :
  responsive → sound n →
  ∃ n', forwardAll providers space digest cause proofs n = (Ok tt, n') ∧ sound n'.
Proof.
  intros Hr. revert n. induction providers as [|p ps IH]; intros n Hn; cbn [forwardAll].
  { by exists n. }
  rewrite M_bind_step. unfold try.
  destruct (completes_forwardBlobRelease p space digest cause proofs Hr n Hn) as [Hret Hs].
  destruct (forwardBlobRelease _ _ _ _ _ n) as [[u|e| |] n1]; [by apply IH..|done|done].
Qed.

Lemma readsOnly_primaryProviderForBlob cause : readsOnly (primaryProviderForBlob cause).
Proof.
  unfold primaryProviderForBlob. apply readsOnly_bind; [auto with readonly|]. intros rcpt.
  case_match; [done|]. do 2 (apply readsOnly_bind; [auto with readonly|intros ?]). done.
Qed.
Lemma completes_primaryProviderForBlob cause :
  responsive → completes (primaryProviderForBlob cause).
Proof.
  intros Hr. unfold primaryProviderForBlob. apply completes_bind; [auto with completes|].
  intros rcpt. case_match; [auto with completes|]. apply completes_bind.
  { apply completes_wrap, completes_reads. intros n _. by apply ret_AddOK. }
  intros site. apply completes_bind; auto with completes.
Qed.

Lemma blobRemove_removes (order : gset DID → list DID) (req : Request Multihash) (n : Node) :
  responsive → sound n →
  let space := inv_Subject (req_Invocation req) in
  let digest := req_Arguments req in
  ∃ n', blobRemove order req n = (Ok (SetSuccess tt None), n') ∧ sound n' ∧
    (∀ sp d, holds n' sp d ↔ holds n sp d ∧ ¬ (sp = space ∧ d = digest)) ∧
    (¬ holds n space digest → n' = n).
Proof.
  intros Hr Hn space digest. unfold blobRemove. rewrite M_bind_step. unfold try at 1, reads at 1.
  fold space digest.
  destruct (BlobRegistry.Get_result (registry (world n)) space digest)
    as [(ent & -> & Hin & Hd)|[-> Hnin]].
  2: { rewrite Is_refl. exists n. split_and!; [done|done| |done]. intros sp d. split; [|tauto].
       intros Hh. split; [done|]. by intros [-> ->]. }
  assert (holds n space digest) as Hheld.
  { unfold holds. rewrite <-Hd. by apply BlobRegistry.in_digests. }
  rewrite M_bind_step. unfold try at 1.
  pose proof (readsOnly_primaryProviderForBlob (BlobRegistry.Cause ent) n) as Hro.
  destruct (completes_primaryProviderForBlob (BlobRegistry.Cause ent) Hr n Hn) as [Hret _].
  destruct (primaryProviderForBlob _ n) as [p n0]. cbn [fst snd] in *. subst n0.
  assert (∃ p', match p with Ok a => (Ok (inl a), n) | Err e => (Ok (inr e), n)
                | Panic => (Panic, n) | Diverge => (Diverge, n) end = (Ok p', n)) as [p' ->]
    by (destruct p; [eauto..|done|done]).
  rewrite M_bind_step.
  set (providers := order _). set (proofs := containerDelegations _ _).
  destruct (forwardAll_done providers space digest (req_Invocation req) proofs n Hr Hn)
    as (n1 & Hf & Hs1). rewrite Hf.
  pose proof (keepsRegistry_forwardAll providers space digest (req_Invocation req) proofs n) as Hw.
  rewrite Hf in Hw. cbn [snd] in Hw. rewrite M_bind_step. unfold try.
  destruct (deregister_spec space digest (inv_Task (req_Invocation req)) n1)
    as (n2 & -> & Ha & Hh).
  rewrite decide_True by (unfold holds; by rewrite Hw).
  exists n2. split_and!; [done|unfold sound; by rewrite Ha| |done].
  intros sp d. rewrite Hh. unfold holds. by rewrite Hw.
Qed.

Lemma keepsBooks_blobRemove ok order req : keepsBooks ok (blobRemove order req).
Proof.
  unfold blobRemove. apply keepsBooks_bind; [auto with books|].
  intros [reg|err]; [|case_match; auto with books]. apply keepsBooks_bind.
  { intros n. unfold try. pose proof (readsOnly_primaryProviderForBlob (BlobRegistry.Cause reg) n) as Hn.
    destruct (primaryProviderForBlob _ n) as [[] n']; cbn [snd] in *; by subst. }
  intros primary. apply keepsBooks_bind; [intros n; by rewrite keepsRegistry_forwardAll|].
  intros u. apply keepsBooks_bind; [auto with books|].
  intros [v|err]; [|case_match]; auto with books.
Qed.

(** C13: removing a blob always succeeds, whatever the nodes answer: afterwards the
    space does not hold the blob, every other blob of it and every other space are
    untouched, and removing one that the space did not hold (removing it again)
    leaves the whole service as it was. *)
Theorem blobRemove_spec (order : gset DID → list DID) (req : Request Multihash) (n : Node) :
  responsive → sound n →
  let space := inv_Subject (req_Invocation req) in
  let digest := req_Arguments req in
  ∃ n', blobRemove order req n = (Ok (SetSuccess tt None), n') ∧ sound n' ∧
    (∀ sp d, holds n' sp d ↔ holds n sp d ∧ ¬ (sp = space ∧ d = digest)) ∧
    (¬ holds n space digest → n' = n).
Proof. apply blobRemove_removes. Qed.

(** ** Aborting *)

(** The receipt chain of an add: it belongs to the space, its accept is on
    [provider], its put was made to the allocation [alloc]. *)
Definition route (n : Node) (space : DID) (add : Cid) (provider : DID) (alloc : Cid) : Prop :=
  ∃ addRcpt site accInv accArgs putInv putArgs,
    Agent.GetReceipt (agentStore n) add = Ok addRcpt ∧ IsErr addRcpt = false ∧
    UnmarshalAddOK (outOK addRcpt) = Ok site ∧
    Agent.GetInvocation (agentStore n) site = Ok accInv ∧
    UnmarshalAcceptArguments (inv_ArgumentsBytes accInv) = Ok accArgs ∧
    ca_Space accArgs = space ∧
    Agent.GetInvocation (agentStore n) (ca_Put accArgs) = Ok putInv ∧
    UnmarshalPutArguments (inv_ArgumentsBytes putInv) = Ok putArgs ∧
    inv_Subject accInv = provider ∧ pa_Destination putArgs = alloc.

Lemma rejectionFor_route space add n provider reject n' :
  rejectionFor space add n = (Ok (provider, reject), n') →
  route n space add provider (ja_Allocation reject).
Proof.
  unfold rejectionFor. intros (addRcpt & n1 & Hs1 & Hrest)%M_bind_Ok.
  unfold wrap, getReceipt, reads in Hs1.
  destruct (Agent.GetReceipt _ _) as [r1|e| |] eqn:E1; simplify_eq.
  destruct (IsErr addRcpt) eqn:Hok; [done|].
  apply M_bind_Ok in Hrest as (site & n2 & Hs2 & Hrest). unfold wrap, reads in Hs2.
  destruct (UnmarshalAddOK _) as [r2|e| |] eqn:E2; simplify_eq.
  apply M_bind_Ok in Hrest as (accInv & n3 & Hs3 & Hrest). unfold wrap, getInvocation, reads in Hs3.
  destruct (Agent.GetInvocation _ _) as [r3|e| |] eqn:E3; simplify_eq.
  apply M_bind_Ok in Hrest as (accArgs & n4 & Hs4 & Hrest). unfold wrap, reads in Hs4.
  destruct (UnmarshalAcceptArguments _) as [r4|e| |] eqn:E4; simplify_eq.
  case_bool_decide as Hsp; [done|].
  apply M_bind_Ok in Hrest as (putInv & n5 & Hs5 & Hrest). unfold wrap, getInvocation, reads in Hs5.
  destruct (Agent.GetInvocation _ (ca_Put _)) as [r5|e| |] eqn:E5; simplify_eq.
  apply M_bind_Ok in Hrest as (putArgs & n6 & Hs6 & Hrest). unfold wrap, reads in Hs6.
  destruct (UnmarshalPutArguments _) as [r6|e| |] eqn:E6; simplify_eq.
  injection Hrest as <- <- <-. exists addRcpt, site, accInv, accArgs, putInv, putArgs.
  split_and!; try done.
Qed.
Lemma readsOnly_rejectionFor space add : readsOnly (rejectionFor space add).
Proof.
  unfold rejectionFor. apply readsOnly_bind; [auto with readonly|]. intros rcpt. case_match; [done|].
  do 3 (apply readsOnly_bind; [auto with readonly|intros ?]). case_match; [done|].
  do 2 (apply readsOnly_bind; [auto with readonly|intros ?]). done.
Qed.

Lemma keepsRegistry_blobAbort req : keepsRegistry (blobAbort req).
Proof.
  unfold blobAbort. case_match; [done|]. apply keepsRegistry_bind.
  { intros n. unfold try. pose proof (readsOnly_rejectionFor (inv_Subject (req_Invocation req))
      (req_Arguments req) n) as Hn. destruct (rejectionFor _ _ n) as [[] n']; simpl in *; by subst. }
  intros [[provider reject]|err]; [|case_match; auto with registry].
  do 2 (apply keepsRegistry_bind; [auto with registry|intros ?]).
  apply keepsRegistry_bind; [auto with registry|]. intros [[inv rcpt]|err].
  - apply keepsRegistry_bind; auto with registry.
  - destruct (AsNamed err) as [[name msg]|]; [case_bool_decide|]; auto with registry.
Qed.

(** C19: an abort never touches the accounts. It succeeds only for an add of the
    invocation's own space that resolves along the stored receipts to a node and
    an allocation, and then a reject of that allocation was executed at that node;
    for any other add, of another space or unknown, no node is contacted and the
    service is as it was. *)
Theorem blobAbort_spec (req : Request Cid) (n : Node) :
  let space := inv_Subject (req_Invocation req) in
  let add := req_Arguments req in
  let '(r, n') := blobAbort req n in
  world n' = world n ∧
  (∀ meta, r = Ok (SetSuccess tt meta) →
     ∃ provider alloc cl proofs t inv rcpt t',
       route n space add provider alloc ∧ piriDID cl = provider ∧
       Reject cl proofs {| ja_Allocation := alloc |} [] t = (Ok (inv, rcpt), t')) ∧
  ((∀ provider alloc, ¬ route n space add provider alloc) → n' = n).
Proof.
  intros space add. pose proof (keepsRegistry_blobAbort req n) as Hw.
  destruct (blobAbort req n) as [r n'] eqn:Eb. split; [done|].
  unfold blobAbort in Eb. fold space add in Eb.
  destruct (negb (cid_Defined add)); [by injection Eb as <- <-|].
  rewrite M_bind_step in Eb. unfold try at 1 in Eb.
  pose proof (readsOnly_rejectionFor space add n) as Hro.
  destruct (rejectionFor space add n) as [p n0] eqn:Er. cbn [snd] in Hro. subst n0.
  destruct p as [[provider reject]|e| |]; cbn beta iota in Eb;
    [|by destruct (_ || _ || _); injection Eb as <- <-|by injection Eb as <- <-..].
  apply rejectionFor_route in Er as Hroute. split; [|intros Hno; by apply Hno in Hroute].
  intros meta ->. rewrite M_bind_step in Eb. unfold wrap at 1, reads at 1 in Eb.
  destruct (Routing.GetProviderInfo router provider) as [info|e| |] eqn:Einfo; [|done..].
  apply Conclude.GetProviderInfo_ID in Einfo.
  rewrite M_bind_step in Eb. unfold wrap at 1, reads at 1 in Eb.
  destruct (client _ _ _) as [cl|e| |] eqn:Ecl; [|done..]. apply client_DID in Ecl.
  rewrite M_bind_step in Eb. unfold try, onTicks in Eb.
  destruct (Reject _ _ _ _ _) as [[[inv rcpt]|e| |] t'] eqn:Ex; [| |done..].
  - exists provider, (ja_Allocation reject), cl, (Routing.infoProofs info), (ticks n),
      inv, rcpt, t'.
    split_and!; [done|congruence|]. by destruct reject.
  - by destruct (AsNamed e) as [[name msg]|]; [case_bool_decide|].
Qed.
Lemma completes_rejectionFor space add : responsive → completes (rejectionFor space add).
Proof.
  intros Hr. unfold rejectionFor. apply completes_bind; [auto with completes|]. intros rcpt.
  case_match; [apply completes_fail|]. apply completes_bind.
  { apply completes_wrap, completes_reads. intros n _. by apply ret_AddOK. }
  intros site. apply completes_bind; [auto with completes|]. intros accInv. apply completes_bind.
  { apply completes_wrap, completes_reads. intros n _. by apply ret_AcceptArguments. }
  intros accArgs. case_match; [apply completes_fail|].
  apply completes_bind; [auto with completes|]. intros putInv. apply completes_bind.
  { apply completes_wrap, completes_reads. intros n _. by apply ret_PutArguments. }
  auto with completes.
Qed.
Lemma completes_blobAbort req : responsive → completes (blobAbort req).
Proof.
  intros Hr. unfold blobAbort. case_match; [apply completes_ret|].
  apply completes_bind; [by apply completes_try, completes_rejectionFor|].
  intros [[provider reject]|err]; [|case_match; auto with completes].
  apply completes_bind.
  { apply completes_wrap, completes_reads. intros n _. apply Conclude.GetProviderInfo_returns. }
  intros info. apply completes_bind.
  { apply completes_wrap, completes_reads. intros n _. by apply client_returns. }
  intros cl. apply completes_bind; [by apply completes_try, completes_onTicks, comesBack_Reject|].
  intros [[inv rcpt]|err].
  - apply completes_bind; [by apply completes_wrap, completes_writeAgentMessage|].
    auto with completes.
  - destruct (AsNamed err) as [[name msg]|]; [case_bool_decide|]; auto with completes.
Qed.
End Handler.
End BlobRemove.
End BlobRemove.

(** ** Witnesses *)
Section Witnesses.
#[local] Existing Instances StrIds NumberJSON StrCommands StrNames RecContainers RecUcan RecForge
  RecEnv StorageProvider.Kept_Reads.

(** A space that holds a blob nobody knows the add of. *)
Definition exampleHolding : Node :=
  (register (str_did "did:key:space") {| Digest := "d"; BlobSize := 3 |} (str_cid "add-task")
     freshNode).2.
Definition exampleRemove : Request Multihash := {|
  req_Invocation := {|
    t_task := "remove-task"; t_issuer := "did:key:agent"; t_subject := "did:key:space";
    t_audience := "did:web:sprue"; t_command := "/blob/remove"; t_args := ""; t_nonce := "1" |}
    : Invocation;
  req_Arguments := "d"; req_Metadata := None |}.

Lemma blobRemove_spec_witness :
  holds exampleHolding (str_did "did:key:space") "d" ∧
  ∃ n', BlobRemove.blobRemove (nodeAt "https://node") Replica.New sprue elements exampleRemove
      exampleHolding = (Ok (SetSuccess tt None), n') ∧
    ¬ holds n' (str_did "did:key:space") "d".
Proof.
  split; [apply (bool_decide_unpack _); vm_compute; exact I|].
  destruct (BlobRemove.blobRemove_spec (nodeAt "https://node") Replica.New sprue elements
    exampleRemove exampleHolding rec_responsive) as (n' & Hr & _ & Hh & _).
  - apply Agent.sound_New.
  - exists n'. split; [exact Hr|]. intros Hheld. apply Hh in Hheld as [_ Hn]. by apply Hn.
Defined.
End Witnesses.
