(* ===== verification/Access.v ===== *)
(** * Access: [access_delegate.go], [access_claim.go], [access_confirm.go],
      [access_request.go]

    How an agent comes to act for an account or on a space: delegations are put in
    the store and claimed from it, and an access request mails the account's owner
    a link that confirms it. *)
From S2P Require Export Service Delegation Provisioning Texts.
From S2P Require Import Concrete.

(** A capability an agent asks for, and the arguments of [/access/confirm]. *)
Record CapabilityRequest := { cr_Command : string }.
Record ConfirmArguments `{Ids} := {
  cf_Issuer : DID; cf_Audience : DID; cf_Attenuations : list CapabilityRequest; cf_Cause : Cid;
}.
Class Sessions `{LibForge} := {
  (** [datamodel.Map] *)
  Meta : Type;
  Meta_empty : Meta;
  (** the map of [access.RequestMetaKey] and [access.ConfirmMetaKey] to two tasks *)
  Meta_session : Cid → Cid → Meta;
  UnmarshalMeta : string → outcome Meta;
  inv_MetadataBytes : Invocation → string;
  command_Top : string;
  cmd_Confirm : string;
  (** [attestation.Attest]: an issuer that signs for the account by the service's
      attestation *)
  Attest : DID → Issuer → Issuer;
  Attest_DID account id : issuer_DID (Attest account id) = account;
  (** [delegation.Delegate] without expiration *)
  Delegate : nat → Issuer → DID → DID → string → Meta → outcome Delegation;
  dlg_Issuer : Delegation → DID;
  dlg_Command : Delegation → string;
  Delegate_Ok t iss aud sub cmd meta d :
    Delegate t iss aud sub cmd meta = Ok d →
    dlg_Issuer d = issuer_DID iss ∧ dlg_Audience d = aud ∧ dlg_Subject d = sub ∧
    dlg_Command d = cmd;
  (** [access.Confirm.Invoke] with audience, expiration and metadata *)
  InvokeConfirm : nat → Issuer → DID → ConfirmArguments → DID → Z → Meta → outcome Invocation;
  UnmarshalConfirmArguments : string → outcome ConfirmArguments;
  InvokeConfirm_Ok t iss sub args aud exp meta inv :
    InvokeConfirm t iss sub args aud exp meta = Ok inv →
    inv_Command inv = cmd_Confirm ∧ inv_Subject inv = sub ∧
    UnmarshalConfirmArguments (inv_ArgumentsBytes inv) = Ok args;
  (** [container.Encode(container.Base64urlGzip, ct)] *)
  container_Encode : Container → outcome string;
  ErrInvalidAccessConfirmSubject : error;
  ErrInvalidAccessConfirmIssuer : error;
  InvalidAuthorizationAccountErrorName : string;
}.
(** The mail service: what sending returns. *)
Class Mailer := { SendValidation : nat → string → string → outcome () }.

Module Access.
Section Access.
Context `{Env} `{!Accounts} `{!Sessions} `{!Mailer} `{Urls} `{ErrorNames} `{ErrorText}.

(** The delegation store, the observations made so far and the mails sent. *)
Record Desk := {
  ticks : nat;
  delegations : Delegation.Store;
  mails : list (string * string);
}.
Definition onStore {A} (m : M Delegation.Store A) : M Desk A := λ s,
  let '(r, ds) := m (delegations s) in
  (r, {| ticks := ticks s; delegations := ds; mails := mails s |}).
Definition observed {A} (f : nat → outcome A) : M Desk A := λ s,
  (f (ticks s), {| ticks := S (ticks s); delegations := delegations s; mails := mails s |}).
Definition sendValidation (email url : string) : M Desk unit := λ s,
  match SendValidation (ticks s) email url with
  | Ok _ => (Ok tt, {| ticks := S (ticks s); delegations := delegations s;
                       mails := mails s ++ [(email, url)] |})
  | Err e => (Err e, {| ticks := S (ticks s); delegations := delegations s; mails := mails s |})
  | Panic => (Panic, s)
  | Diverge => (Diverge, s)
  end.
Definition PutMany (ts : list Delegation.Token) : M Desk unit :=
  onStore (λ s, (Ok tt, Delegation.PutMany ts s)).

(** ** [/access/claim] *)
Record claimed := {
  cl_links : list Cid; cl_delegations : list Delegation; cl_attestations : list Invocation;
}.
Definition claimToken (c : claimed) (token : Delegation.Token) : claimed :=
  match token with
  | Delegation.OfDelegation dlg =>
      {| cl_links := cl_links c ++ [dlg_Link dlg]; cl_delegations := cl_delegations c ++ [dlg];
         cl_attestations := cl_attestations c |}
  | Delegation.OfInvocation inv =>
      {| cl_links := cl_links c; cl_delegations := cl_delegations c;
         cl_attestations := cl_attestations c ++ [inv] |}
  end.
Fixpoint claimLoop (fuel : nat) (s : Delegation.Store) (audience : DID) (cursor : option string)
    (c : claimed) : outcome claimed :=
  match fuel with
  | O => Diverge
  | S fuel =>
      let opts := match cursor with Some cur => WithListCursor cur noOptions | None => noOptions end in
      page ← owrap "listing delegations" (Delegation.ListByAudience s audience opts);
      let c := foldl claimToken c (Results page) in
      match Cursor page with
      | None => Ok c
      | Some cur => claimLoop fuel s audience (Some cur) c
      end
  end.
Definition accessClaim {A} (fuel : nat) (req : Request A) : M Desk (Reply (list Cid)) :=
  c ← reads (λ s, claimLoop fuel (delegations s) (inv_Subject (req_Invocation req)) None
                    {| cl_links := []; cl_delegations := []; cl_attestations := [] |});
  mret (SetSuccess (cl_links c)
          (Some (container_New (cl_attestations c) [] (cl_delegations c)))).

(** ** [/access/delegate] *)
Definition byLink (dlgs : list Delegation) : gmap Cid Delegation :=
  foldl (λ m d, <[dlg_Link d := d]> m) ∅ dlgs.
Fixpoint lookupDelegations (all : gmap Cid Delegation) (links : list Cid)
    : outcome (list Delegation.Token) :=
  match links with
  | [] => Ok []
  | link :: links =>
      match all !! link with
      | None => Err (Named DelegationNotFoundErrorName
                       ("delegation not found: " +:+ cid_String link))
      | Some d => ts ← lookupDelegations all links; Ok (Delegation.OfDelegation d :: ts)
      end
  end.
Definition extractDelegations (links : list Cid) (meta : option Container)
    : outcome (list Delegation.Token) :=
  lookupDelegations (byLink (match meta with Some ct => ct_Delegations ct | None => [] end)) links.

Definition accessDelegate (fuel : nat) (provisioning : Provisioning.State)
    (req : Request (list Cid)) : M Desk (Reply unit) :=
  providers ← wrap "listing service providers" (reads (λ _,
    Provisioning.ListServiceProviders fuel provisioning (inv_Subject (req_Invocation req))));
  if bool_decide (length providers = 0)
  then mret (SetFailure (Named InsufficientStorageErrorName "space has no storage provider"))
  else
    dlgs ← reads (λ _, extractDelegations (req_Arguments req) (req_Metadata req));
    _ ← PutMany dlgs;
    mret (SetSuccess tt None).

(** ** [/access/confirm] *)
Fixpoint delegateAll (account : Issuer) (agent : DID) (reqs : list CapabilityRequest) (meta : Meta)
    : M Desk (list Delegation) :=
  match reqs with
  | [] => mret []
  | req :: reqs =>
      dlg ← wrap "creating delegation"
              (observed (λ t, Delegate t account agent did_Undef (cr_Command req) meta));
      rest ← delegateAll account agent reqs meta;
      mret (dlg :: rest)
  end.
Definition createSessionProofs (account : Issuer) (agent : DID)
    (attenuations : list CapabilityRequest) (meta : Meta) : M Desk (list Delegation) :=
  accountDlg ← wrap "creating delegation"
    (observed (λ t, Delegate t account agent (issuer_DID account) command_Top meta));
  rest ← delegateAll account agent attenuations meta;
  mret (accountDlg :: rest).

Definition accessConfirm (id : Issuer) (req : Request ConfirmArguments) : M Desk (Reply (list Cid)) :=
  let args := req_Arguments req in
  if bool_decide (inv_Subject (req_Invocation req) ≠ issuer_DID id)
  then mret (SetFailure ErrInvalidAccessConfirmSubject)
  else
    parsed ← try (reads (λ _, didmailto_Parse (did_String (cf_Issuer args))));
    match parsed with
    | inr _ => mret (SetFailure ErrInvalidAccessConfirmIssuer)
    | inl accountDID =>
        let account := Attest accountDID id in
        let agent := cf_Audience args in
        dlgs ← wrap "creating session proofs" (createSessionProofs account agent
                 (cf_Attenuations args)
                 (Meta_session (cf_Cause args) (inv_Task (req_Invocation req))));
        _ ← wrap "storing delegations" (PutMany (Delegation.OfDelegation <$> dlgs));
        mret (SetSuccess (dlg_Link <$> dlgs) (Some (container_New [] [] dlgs)))
    end.

(** ** [/access/request] *)
Record ServerConfig := { PublicURL : string; Host : string; Port : Z }.
Record RequestArguments := { rq_Issuer : DID; rq_Attenuations : list CapabilityRequest }.
Record RequestOK := { rk_Request : Cid; rk_Confirm : Cid; rk_Expiration : Z }.
Definition confirmationTTL : Z := 15 * 60 * Second.
Definition invalidAccount (err : error) : error :=
  Named InvalidAuthorizationAccountErrorName
    ("invalid authorization account DID: " +:+ Error err).

(** The confirmation an access request issues, and when it expires. *)
Definition invokeConfirmation (id : Issuer) (req : Request RequestArguments) (account : DID)
    : M Desk (Invocation * Z) :=
  let audience := inv_Subject (req_Invocation req) in
  now ← observed (λ t, Ok (clock t));
  let exp := Unix (now + confirmationTTL) in
  let metaBytes := inv_MetadataBytes (req_Invocation req) in
  meta ← (if (0 <? Z.of_nat (String.length metaBytes))%Z
          then wrap "unmarshaling invocation metadata" (reads (λ _, UnmarshalMeta metaBytes))
          else mret Meta_empty);
  confirmation ← wrap "creating confirmation delegation" (observed (λ t,
    InvokeConfirm t id (issuer_DID id)
      {| cf_Issuer := account; cf_Audience := audience;
         cf_Attenuations := rq_Attenuations (req_Arguments req);
         cf_Cause := inv_Task (req_Invocation req) |}
      (issuer_DID id) exp meta));
  mret (confirmation, exp).
(** [fmt.Sprintf("http://%s:%d", ...)] unless a public URL is configured. *)
Definition publicURL (serverCfg : ServerConfig) : string :=
  if bool_decide (PublicURL serverCfg = "")
  then "http://" +:+ Host serverCfg +:+ ":" +:+ Itoa (Port serverCfg)
  else PublicURL serverCfg.

Definition accessRequest (serverCfg : ServerConfig) (id : Issuer) (req : Request RequestArguments)
    : M Desk (Reply RequestOK) :=
  let args := req_Arguments req in
  parsed ← try (reads (λ _, didmailto_Parse (did_String (rq_Issuer args))));
  match parsed with
  | inr err => mret (SetFailure (invalidAccount err))
  | inl account =>
      email ← try (reads (λ _, didmailto_Email account));
      match email with
      | inr err => mret (SetFailure (invalidAccount err))
      | inl email =>
          '(confirmation, exp) ← invokeConfirmation id req account;
          confirmationStr ← wrap "formatting confirmation"
            (reads (λ _, container_Encode (container_New [confirmation] [] [])));
          validationURL ← wrap "parsing validation URL" (reads (λ _, url_Parse
            (publicURL serverCfg +:+ "/validate-email?ucan=" +:+ confirmationStr +:+ "&mode=authorize")));
          _ ← wrap "sending validation email" (sendValidation email validationURL);
          mret (SetSuccess {| rk_Request := inv_Task (req_Invocation req);
                              rk_Confirm := inv_Task confirmation; rk_Expiration := exp |} None)
      end
  end.

(** ** What a claim answers *)
Definition asDelegation (t : Delegation.Token) : option Delegation :=
  match t with Delegation.OfDelegation d => Some d | Delegation.OfInvocation _ => None end.
Definition asAttestation (t : Delegation.Token) : option Invocation :=
  match t with Delegation.OfDelegation _ => None | Delegation.OfInvocation i => Some i end.
Lemma claimToken_all l c :
  foldl claimToken c l =
  {| cl_links := cl_links c ++ (dlg_Link <$> omap asDelegation l);
     cl_delegations := cl_delegations c ++ omap asDelegation l;
     cl_attestations := cl_attestations c ++ omap asAttestation l |}.
Proof.
  revert c. induction l as [|t l IH]; intros c; [destruct c; simpl; by rewrite !app_nil_r|].
  cbn [foldl]. rewrite IH. destruct t; simpl; by rewrite <-?app_assoc.
Qed.
Lemma claimLoop_Pages s audience cur l :
  Pages (Delegation.ListByAudience s audience) cur l →
  ∀ fuel c, length l < fuel → claimLoop fuel s audience cur c = Ok (foldl claimToken c l).
Proof.
  induction 1 as [cur rs Hget|cur cur' rs rest Hget Hne _ IH]; intros [|fuel] c Hf; try lia;
    cbn [claimLoop];
    replace (match cur with Some cur => WithListCursor cur noOptions | None => noOptions end)
      with {| cfgCursor := cur; cfgLimit := None |} by (by destruct cur);
    rewrite Hget; cbn [owrap mbind outcome_bind Cursor Results]; [done|].
  rewrite IH, foldl_app; [done|]. rewrite length_app in Hf. destruct rs; [done|]. simpl in Hf. lia.
Qed.
Lemma ListByAudience_all s audience :
  NoDup (Delegation.linkName <$> Delegation.tokensOf s audience) →
  Pages (Delegation.ListByAudience s audience) None (Delegation.tokensOf s audience).
Proof.
  intros Hnd. eapply Pages_ext; [|apply (Delegation.ListByAudience_Pages 1000); [done|done]]. done.
Qed.
Lemma in_delegations (l : list Delegation.Token) d : d ∈ omap asDelegation l ↔ Delegation.OfDelegation d ∈ l.
Proof.
  rewrite list_elem_of_omap. split.
  - by intros ([d'|i] & Hin & [= ->]).
  - intros Hin. by exists (Delegation.OfDelegation d).
Qed.
Lemma in_attestations (l : list Delegation.Token) i : i ∈ omap asAttestation l ↔ Delegation.OfInvocation i ∈ l.
Proof.
  rewrite list_elem_of_omap. split.
  - by intros ([d|i'] & Hin & [= ->]).
  - intros Hin. by exists (Delegation.OfInvocation i).
Qed.

Lemma accessClaim_answers {A} (fuel : nat) (req : Request A) (n : Desk) :
  let held := Delegation.tokensOf (delegations n) (inv_Subject (req_Invocation req)) in
  NoDup (Delegation.linkName <$> held) → length held < fuel →
  ∃ ct, accessClaim fuel req n =
      (Ok (SetSuccess (dlg_Link <$> omap asDelegation held) (Some ct)), n) ∧
    (∀ d, d ∈ ct_Delegations ct ↔ Delegation.OfDelegation d ∈ held) ∧
    (∀ i, i ∈ ct_Invocations ct ↔ Delegation.OfInvocation i ∈ held).
Proof.
  intros held Hnd Hf. unfold accessClaim. rewrite M_bind_step. unfold reads.
  rewrite (claimLoop_Pages _ _ _ _ (ListByAudience_all _ _ Hnd)) by done.
  rewrite claimToken_all. cbn [cl_links cl_delegations cl_attestations app].
  eexists. split_and!; [done| |].
  - intros d. by rewrite ct_New_Delegations, in_delegations.
  - intros i. by rewrite ct_New_Invocations, in_attestations.
Qed.

Lemma tokensOf_in ts s audience t :
  t ∈ Delegation.tokensOf (Delegation.PutMany ts s) audience ↔
  t ∈ Delegation.tokensOf s audience ∨ Delegation.audienceOf t = audience ∧ t ∈ ts.
Proof. by rewrite Delegation.tokensOf_PutMany, elem_of_app, list_elem_of_filter. Qed.

(** ** What a confirmation grants *)
(** A delegation the account made to the agent, on [sub], for [cmd]. *)
Definition grant (account agent sub : DID) (cmd : string) (d : Delegation) : Prop :=
  dlg_Issuer d = account ∧ dlg_Audience d = agent ∧ dlg_Subject d = sub ∧ dlg_Command d = cmd.

Lemma delegateAll_Ok account agent reqs meta n dlgs n' :
  delegateAll account agent reqs meta n = (Ok dlgs, n') →
  delegations n' = delegations n ∧
  Forall2 (λ req d, grant (issuer_DID account) agent did_Undef (cr_Command req) d) reqs dlgs.
Proof.
  revert n dlgs n'. induction reqs as [|req reqs IH]; intros n dlgs n'; cbn [delegateAll].
  { by intros [= <- <-]. }
  rewrite M_bind_step. unfold wrap, observed. cbn [fst].
  destruct (Delegate _ _ _ _ _ _) as [d|e| |] eqn:Ed; [|done..]. apply Delegate_Ok in Ed.
  rewrite M_bind_step. destruct (delegateAll _ _ _ _ _) as [[rest|e| |] n1] eqn:Er; [|done..].
  apply IH in Er as [Hd Hr]. intros [= <- <-]. split; [done|]. by constructor.
Qed.
Lemma createSessionProofs_Ok account agent reqs meta n dlgs n' :
  createSessionProofs account agent reqs meta n = (Ok dlgs, n') →
  delegations n' = delegations n ∧
  ∃ d rest, dlgs = d :: rest ∧ grant (issuer_DID account) agent (issuer_DID account) command_Top d ∧
    Forall2 (λ req d, grant (issuer_DID account) agent did_Undef (cr_Command req) d) reqs rest.
Proof.
  unfold createSessionProofs. rewrite M_bind_step. unfold wrap, observed.
  destruct (Delegate _ _ _ _ _ _) as [d|e| |] eqn:Ed; [|done..]. apply Delegate_Ok in Ed.
  rewrite M_bind_step. destruct (delegateAll _ _ _ _ _) as [[rest|e| |] n1] eqn:Er; [|done..].
  apply delegateAll_Ok in Er as [Hd Hr]. intros [= <- <-]. split; [done|]. by exists d, rest.
Qed.
Lemma accessConfirm_Ok id req n links meta n' :
  accessConfirm id req n = (Ok (SetSuccess links meta), n') →
  inv_Subject (req_Invocation req) = issuer_DID id ∧
  ∃ account dlgs d rest, didmailto_Parse (did_String (cf_Issuer (req_Arguments req))) = Ok account ∧
    links = dlg_Link <$> dlgs ∧ dlgs = d :: rest ∧
    delegations n' = Delegation.PutMany (Delegation.OfDelegation <$> dlgs) (delegations n) ∧
    grant account (cf_Audience (req_Arguments req)) account command_Top d ∧
    Forall2 (λ att d, grant account (cf_Audience (req_Arguments req)) did_Undef (cr_Command att) d)
      (cf_Attenuations (req_Arguments req)) rest.
Proof.
  unfold accessConfirm. case_bool_decide as Hsub; [done|]. rewrite M_bind_step.
  unfold try, reads at 1. destruct (didmailto_Parse _) as [account|e| |]; [|done..].
  rewrite M_bind_step. unfold wrap at 1.
  destruct (createSessionProofs _ _ _ _ n) as [[dlgs|e| |] n1] eqn:Ec; [|done..].
  apply createSessionProofs_Ok in Ec as [Hd (d & rest & Hdlgs & Htop & Hrest)].
  rewrite Attest_DID in Htop, Hrest. rewrite M_bind_step. unfold wrap, PutMany, onStore.
  unfold mret, M_ret. intros [= <- _ <-]. split; [done|].
  exists account, dlgs, d, rest. split_and!; [done|done|done| |done|done]. cbn [delegations].
  by rewrite Hd.
Qed.

(** The delegations a confirmation stored are held for the agent. *)
Lemma confirmed_held id req n links meta n' :
  let agent := cf_Audience (req_Arguments req) in
  accessConfirm id req n = (Ok (SetSuccess links meta), n') → did_Defined agent →
  ∃ account dlgs, didmailto_Parse (did_String (cf_Issuer (req_Arguments req))) = Ok account ∧
    links = dlg_Link <$> dlgs ∧
    (∀ d, d ∈ dlgs → Delegation.OfDelegation d ∈ Delegation.tokensOf (delegations n') agent) ∧
    (∃ d, d ∈ dlgs ∧ grant account agent account command_Top d) ∧
    ∀ att, att ∈ cf_Attenuations (req_Arguments req) →
      ∃ d, d ∈ dlgs ∧ grant account agent did_Undef (cr_Command att) d.
Proof.
  intros agent Hconf Hdef.
  apply accessConfirm_Ok in Hconf as (_ & account & dlgs & d & rest & Hp & -> & Hdlgs & Hn' & Htop & Hrest).
  exists account, dlgs. split_and!; [done|done| | |].
  - intros d' Hin. rewrite Hn'. apply tokensOf_in. right.
    split; [|by apply list_elem_of_fmap_2].
    assert (dlg_Audience d' = agent) as Haud.
    { subst dlgs. apply elem_of_cons in Hin as [->|Hin]; [apply Htop|].
      destruct (list_elem_of_lookup_1 _ _ Hin) as [i Hi].
      by destruct (Forall2_lookup_r _ _ _ _ _ Hrest Hi) as (att & _ & _ & ? & _). }
    unfold Delegation.audienceOf. cbn [Delegation.Audience]. rewrite Haud.
    unfold did_Defined in *. by destruct (bool_decide _).
  - exists d. split; [|done]. subst dlgs. left.
  - intros att Hin. destruct (list_elem_of_lookup_1 _ _ Hin) as [i Hi].
    destruct (Forall2_lookup_l _ _ _ _ _ Hrest Hi) as (d' & Hd' & Hg). exists d'. split; [|done].
    subst dlgs. right. by apply list_elem_of_lookup_2 in Hd'.
Qed.

(** What an account confirms, the agent can claim. After [/access/confirm]
    succeeded, a claim by the agent answers with every delegation that the answer
    named: one by which the account lets the agent act as the account itself, and
    one for each of the capabilities asked for, on any space. *)
Theorem confirmed_claimed {A} (id : Issuer) (req : Request ConfirmArguments) (creq : Request A)
    (fuel : nat) (n n' n2 : Desk) (links : list Cid) (meta : option Container) :
  let agent := cf_Audience (req_Arguments req) in
  let held := Delegation.tokensOf (delegations n') agent in
  accessConfirm id req n = (Ok (SetSuccess links meta), n') → delegations n2 = delegations n' →
  did_Defined agent → inv_Subject (req_Invocation creq) = agent →
  NoDup (Delegation.linkName <$> held) → length held < fuel →
  ∃ account ls ct, didmailto_Parse (did_String (cf_Issuer (req_Arguments req))) = Ok account ∧
    accessClaim fuel creq n2 = (Ok (SetSuccess ls (Some ct)), n2) ∧ links ⊆ ls ∧
    (∃ d, d ∈ ct_Delegations ct ∧ grant account agent account command_Top d) ∧
    ∀ att, att ∈ cf_Attenuations (req_Arguments req) →
      ∃ d, d ∈ ct_Delegations ct ∧ grant account agent did_Undef (cr_Command att) d.
Proof.
  intros agent held Hconf Hn2 Hdef Hsub Hnd Hfuel.
  apply confirmed_held in Hconf as (account & dlgs & Hp & -> & Hheld & (d & Hd & Htop) & Hrest); [|done].
  destruct (accessClaim_answers fuel creq n2) as (ct & Hc & Hcd & _); [by rewrite Hsub, Hn2..|].
  rewrite Hsub, Hn2 in Hc, Hcd. eexists account, _, ct. split_and!; [done|exact Hc| | |].
  - intros l (d' & -> & Hin)%list_elem_of_fmap. apply list_elem_of_fmap_2, in_delegations. by apply Hheld.
  - exists d. split; [|done]. by apply Hcd, Hheld.
  - intros att (d' & Hd' & Hg)%Hrest. exists d'. split; [|done]. by apply Hcd, Hheld.
Qed.

(** A confirmation of an account that is one is refused by no one but [Delegate],
    and one that does not succeed stores nothing. *)
Lemma accessConfirm_succeeds id req n account :
  inv_Subject (req_Invocation req) = issuer_DID id →
  didmailto_Parse (did_String (cf_Issuer (req_Arguments req))) = Ok account →
  (∀ t iss aud sub cmd meta, ∃ d, Delegate t iss aud sub cmd meta = Ok d) →
  ∃ links meta n', accessConfirm id req n = (Ok (SetSuccess links meta), n').
Proof.
  intros Hsub Hp Hdel. unfold accessConfirm. rewrite bool_decide_eq_false_2 by tauto.
  rewrite M_bind_step. unfold try, reads at 1. rewrite Hp. rewrite M_bind_step. unfold wrap at 1.
  assert (∀ acc agent reqs m n, ∃ dlgs n', delegateAll acc agent reqs m n = (Ok dlgs, n')) as Hall.
  { clear -Hdel. intros acc agent reqs m. induction reqs as [|r reqs IH]; intros n; cbn [delegateAll].
    { by exists [], n. }
    rewrite M_bind_step. unfold wrap, observed.
    destruct (Hdel (ticks n) acc agent did_Undef (cr_Command r) m) as [d ->].
    rewrite M_bind_step. edestruct IH as (dlgs & n' & ->). by eexists _, n'. }
  unfold createSessionProofs. rewrite M_bind_step. unfold wrap at 1, observed.
  edestruct (Hdel (ticks n)) as [d Hd]. rewrite Hd. rewrite M_bind_step.
  edestruct Hall as (dlgs & n' & ->). by eexists _, _, _.
Qed.
Lemma accessConfirm_stores id req n :
  let '(r, n') := accessConfirm id req n in
  mails n' = mails n ∧ (delegations n' = delegations n ∨ ∃ links meta, r = Ok (SetSuccess links meta)).
Proof.
  assert (∀ acc agent reqs m n, let n' := (delegateAll acc agent reqs m n).2 in
    mails n' = mails n ∧ delegations n' = delegations n) as Hall.
  { intros acc agent reqs m. induction reqs as [|q reqs IH]; intros n0; cbn [delegateAll]; [done|].
    rewrite M_bind_step. unfold wrap, observed. set (n1 := {| ticks := _; delegations := _; mails := _ |}).
    destruct (Delegate _ _ _ _ _ _); [|done..]. rewrite M_bind_step. specialize (IH n1).
    by destruct (delegateAll _ _ _ _ n1) as [[]]. }
  unfold accessConfirm. case_bool_decide; [by split; [|left]|]. rewrite M_bind_step.
  unfold try, reads at 1. destruct (didmailto_Parse _) as [account|e| |]; try by (split; [done|left]).
  rewrite M_bind_step. unfold wrap at 1, createSessionProofs. rewrite M_bind_step. unfold wrap at 1, observed.
  set (n1 := {| ticks := _; delegations := _; mails := _ |}).
  destruct (Delegate _ _ _ _ _ _) as [d|e| |]; try by (split; [done|left]).
  rewrite M_bind_step. set (m := Meta_session _ _). set (acc := Attest _ _).
  destruct (Hall acc (cf_Audience (req_Arguments req)) (cf_Attenuations (req_Arguments req)) m n1) as [Hm Hd].
  destruct (delegateAll _ _ _ _ n1) as [[rest|e| |] n2]; cbn [snd] in Hm, Hd; [|by (split; [done|left])..].
  split; [exact Hm|right; by eexists _, _].
Qed.

(** ** What may happen at the desk, and that nothing held is lost *)
Inductive goesOn : Desk → Desk → Prop :=
  | goes_request cfg id req n : goesOn n (accessRequest cfg id req n).2
  | goes_confirm id req n : goesOn n (accessConfirm id req n).2
  | goes_delegate fuel provisioning req n : goesOn n (accessDelegate fuel provisioning req n).2
  | goes_claim fuel (req : Request unit) n : goesOn n (accessClaim fuel req n).2
  | goes_time n n' : delegations n' = delegations n → goesOn n n'.
Definition keepsTokens (n n' : Desk) : Prop := ∀ audience t,
  t ∈ Delegation.tokensOf (delegations n) audience → t ∈ Delegation.tokensOf (delegations n') audience.
Lemma keepsTokens_same n n' : delegations n' = delegations n → keepsTokens n n'.
Proof. intros Hd audience t. by rewrite Hd. Qed.
Lemma accessDelegate_keeps fuel provisioning req n :
  keepsTokens n (accessDelegate fuel provisioning req n).2.
Proof.
  unfold accessDelegate. rewrite M_bind_step. unfold wrap at 1, reads at 1.
  destruct (Provisioning.ListServiceProviders _ _ _); [|by apply keepsTokens_same..].
  case_bool_decide; [by apply keepsTokens_same|]. rewrite M_bind_step. unfold reads at 1.
  destruct (extractDelegations _ _); [|by apply keepsTokens_same..].
  rewrite M_bind_step. unfold PutMany, onStore. intros audience t Ht. cbn [delegations snd mret M_ret].
  apply tokensOf_in. by left.
Qed.
Lemma accessConfirm_keeps id req n : keepsTokens n (accessConfirm id req n).2.
Proof.
  pose proof (accessConfirm_stores id req n) as Hs.
  destruct (accessConfirm id req n) as [r n'] eqn:Ha. destruct Hs as [_ [Hd|(links & meta & ->)]].
  { by apply keepsTokens_same. }
  apply accessConfirm_Ok in Ha as (_ & _ & dlgs & _ & _ & _ & _ & _ & Hput & _).
  intros audience t Ht. cbn [snd]. rewrite Hput. apply tokensOf_in. by left.
Qed.

(** ** What an access request mails *)
Lemma accessConfirm_refuses id req n e n' :
  accessConfirm id req n = (Ok (SetFailure e), n') →
  inv_Subject (req_Invocation req) ≠ issuer_DID id ∨
  ∃ err, didmailto_Parse (did_String (cf_Issuer (req_Arguments req))) = Err err.
Proof.
  unfold accessConfirm. case_bool_decide as Hsub; [by left|]. rewrite M_bind_step.
  unfold try, reads at 1. destruct (didmailto_Parse _) as [account|err| |]; [|by right; exists err|done..].
  rewrite M_bind_step. unfold wrap at 1.
  destruct (createSessionProofs _ _ _ _ n) as [[dlgs|e'| |] n1]; [|done..].
  rewrite M_bind_step. unfold wrap, PutMany, onStore. done.
Qed.

(** What [invokeConfirmation] issues: a confirmation by the service, on itself, of
    what was asked. *)
Definition confirmationOf (id : Issuer) (req : Request RequestArguments) (account : DID)
    : ConfirmArguments :=
  {| cf_Issuer := account; cf_Audience := inv_Subject (req_Invocation req);
     cf_Attenuations := rq_Attenuations (req_Arguments req);
     cf_Cause := inv_Task (req_Invocation req) |}.
Lemma invokeConfirmation_spec id req account n :
  let '(r, n') := invokeConfirmation id req account n in
  delegations n' = delegations n ∧ mails n' = mails n ∧
  ∀ conf exp, r = Ok (conf, exp) →
    exp = Unix (clock (ticks n) + confirmationTTL) ∧
    ∃ t meta, InvokeConfirm t id (issuer_DID id) (confirmationOf id req account) (issuer_DID id)
      exp meta = Ok conf.
Proof.
  unfold invokeConfirmation. rewrite M_bind_step. unfold observed at 1.
  set (n0 := {| ticks := _; delegations := _; mails := _ |}). rewrite M_bind_step.
  set (readMeta := if (0 <? _)%Z then _ else _).
  assert ((readMeta n0).2 = n0) as Hmeta.
  { unfold readMeta. destruct (0 <? _)%Z; [|done]. unfold wrap, reads.
    by destruct (UnmarshalMeta _). }
  destruct (readMeta n0) as [[m|e| |] n0'] eqn:Em; cbn [snd] in Hmeta; subst n0'; [|done..].
  rewrite M_bind_step. unfold wrap at 1, observed at 1.
  destruct (InvokeConfirm _ _ _ _ _ _ _) as [conf|e| |] eqn:Ec; [|done..].
  split_and!; [done..|]. intros conf' exp [= <- <-]. eauto.
Qed.

(** An access request changes no delegation, and mails at most one link: to the
    address of the account it names, with the confirmation it issued. *)
Lemma accessRequest_cases cfg id req n :
  let '(r, n') := accessRequest cfg id req n in
  delegations n' = delegations n ∧
  ((mails n' = mails n ∧ ∀ ok meta, r ≠ Ok (SetSuccess ok meta)) ∨
   ∃ account email url str conf exp,
    didmailto_Parse (did_String (rq_Issuer (req_Arguments req))) = Ok account ∧
    didmailto_Email account = Ok email ∧ mails n' = mails n ++ [(email, url)] ∧
    (∃ t u, SendValidation t email url = Ok u) ∧
    (invokeConfirmation id req account n).1 = Ok (conf, exp) ∧
    container_Encode (container_New [conf] [] []) = Ok str ∧
    url_Parse (publicURL cfg +:+ "/validate-email?ucan=" +:+ str +:+ "&mode=authorize") = Ok url ∧
    r = Ok (SetSuccess {| rk_Request := inv_Task (req_Invocation req);
                          rk_Confirm := inv_Task conf; rk_Expiration := exp |} None)).
Proof.
  unfold accessRequest. rewrite M_bind_step. unfold try at 1, reads at 1.
  destruct (didmailto_Parse _) as [account|e| |] eqn:Ep; try by (split; [done|left]).
  rewrite M_bind_step. unfold try at 1, reads at 1.
  destruct (didmailto_Email account) as [email|e| |] eqn:Ee; try by (split; [done|left]).
  rewrite M_bind_step. pose proof (invokeConfirmation_spec id req account n) as Hspec.
  destruct (invokeConfirmation _ _ _ n) as [[[conf exp]|e| |] n0] eqn:Ec;
    destruct Hspec as (Hd & Hm & _); [|by (split; [done|left])..].
  rewrite M_bind_step. unfold wrap at 1, reads at 1.
  destruct (container_Encode _) as [str|e| |] eqn:Es; try by (split; [done|left]).
  rewrite M_bind_step. unfold wrap at 1, reads at 1.
  destruct (url_Parse _) as [url|e| |] eqn:Eu; try by (split; [done|left]).
  rewrite M_bind_step. unfold wrap, sendValidation.
  destruct (SendValidation _ _ _) as [u|e| |] eqn:Esend; cbn [delegations mails]; try by (split; [done|left]).
  split; [done|]. right. exists account, email, url, str, conf, exp. rewrite Hm, Ec. by eauto 12.
Qed.

Lemma goesOn_keeps n n' : rtc goesOn n n' → keepsTokens n n'.
Proof.
  induction 1 as [|n1 n2 n3 Hgo _ IH]; [by apply keepsTokens_same|]. intros audience t Ht. apply IH.
  revert audience t Ht. fold (keepsTokens n1 n2).
  destruct Hgo as [cfg id req n|id req n|fuel provisioning req n|fuel req n|n n' Hd].
  - apply keepsTokens_same. pose proof (accessRequest_cases cfg id req n) as Hc.
    destruct (accessRequest cfg id req n). apply Hc.
  - apply accessConfirm_keeps.
  - apply accessDelegate_keeps.
  - apply keepsTokens_same. unfold accessClaim. rewrite M_bind_step. unfold reads.
    by destruct (claimLoop _ _ _ _ _).
  - by apply keepsTokens_same.
Qed.

(** An access request that succeeds has sent one mail, to the address of the
    account it names, with a link that holds a confirmation: the one whose task the
    answer names, on the service itself, and about this request (the account, the
    requesting agent as audience, the capabilities asked for, and this task as the
    cause). The confirm handler never refuses that confirmation. *)
Theorem accessRequest_spec (cfg : ServerConfig) (id : Issuer) (req : Request RequestArguments)
    (n n' : Desk) (ok : RequestOK) (meta : option Container) :
  accessRequest cfg id req n = (Ok (SetSuccess ok meta), n') →
  delegations n' = delegations n ∧ rk_Request ok = inv_Task (req_Invocation req) ∧
  ∃ account email url str conf,
    didmailto_Parse (did_String (rq_Issuer (req_Arguments req))) = Ok account ∧
    didmailto_Email account = Ok email ∧ mails n' = mails n ++ [(email, url)] ∧
    url_Parse (publicURL cfg +:+ "/validate-email?ucan=" +:+ str +:+ "&mode=authorize") = Ok url ∧
    container_Encode (container_New [conf] [] []) = Ok str ∧
    rk_Confirm ok = inv_Task conf ∧ inv_Command conf = cmd_Confirm ∧
    UnmarshalConfirmArguments (inv_ArgumentsBytes conf) = Ok (confirmationOf id req account) ∧
    ∀ m creq n2, req_Invocation creq = conf → req_Arguments creq = confirmationOf id req account →
      (accessConfirm id creq n2).1 ≠ Ok (SetFailure m).
Proof.
  intros Hr. pose proof (accessRequest_cases cfg id req n) as Hc. rewrite Hr in Hc.
  destruct Hc as [Hd [[_ Hn]|Hc]]; [by destruct (Hn ok meta)|].
  destruct Hc as (account & email & url & str & conf & exp & Hp & He & Hm & _ & Hi & Hs & Hu & [= -> _]).
  pose proof (invokeConfirmation_spec id req account n) as Hspec.
  destruct (invokeConfirmation _ _ _ n) as [ri ni]. cbn [fst] in Hi. subst ri.
  destruct Hspec as (_ & _ & Hspec). destruct (Hspec _ _ eq_refl) as (_ & t & m & Hinv).
  apply InvokeConfirm_Ok in Hinv as (Hcmd & Hsub & Hargs).
  do 2 (split; [done|]). exists account, email, url, str, conf. split_and!; [done..|].
  intros m' creq n2 Hinv Hcargs Hrefused.
  destruct (accessConfirm id creq n2) as [r n3] eqn:Er. cbn [fst] in Hrefused. subst r.
  apply accessConfirm_refuses in Er as [Hne|[err Herr]]; [by rewrite Hinv in Hne|].
  rewrite Hcargs in Herr. cbn [confirmationOf cf_Issuer] in Herr.
  by rewrite (didmailto_Parse_String _ _ Hp) in Herr.
Qed.

(** An agent that claims is handed exactly what the store holds for it: every
    delegation to it, named by its link and attached, and every attestation, and no
    other; claiming changes nothing. This needs the tokens held to be different. *)
Theorem accessClaim_spec {A} (fuel : nat) (req : Request A) (n : Desk) :
  let held := Delegation.tokensOf (delegations n) (inv_Subject (req_Invocation req)) in
  NoDup (Delegation.linkName <$> held) → length held < fuel →
  ∃ ct, accessClaim fuel req n =
      (Ok (SetSuccess (dlg_Link <$> omap asDelegation held) (Some ct)), n) ∧
    (∀ d, d ∈ ct_Delegations ct ↔ Delegation.OfDelegation d ∈ held) ∧
    (∀ i, i ∈ ct_Invocations ct ↔ Delegation.OfInvocation i ∈ held).
Proof. apply accessClaim_answers. Qed.

(** ** What delegating stores *)
Lemma byLink_Some dlgs link d :
  byLink dlgs !! link = Some d → d ∈ dlgs ∧ dlg_Link d = link.
Proof.
  unfold byLink.
  assert (∀ m : gmap Cid Delegation, foldl (λ m d, <[dlg_Link d := d]> m) m dlgs !! link = Some d →
    m !! link = Some d ∨ d ∈ dlgs ∧ dlg_Link d = link) as Hg.
  { induction dlgs as [|d' dlgs IH]; intros m; cbn [foldl]; [by left|]. intros Hl.
    destruct (IH _ Hl) as [[[<- <-]|[_ ?]]%lookup_insert_Some|[? ?]];
      [right; split; [left|done]|by left|right; split; [by right|done]]. }
  intros Hl. by destruct (Hg ∅ Hl) as [?%lookup_empty_Some|?].
Qed.
Lemma lookupDelegations_Ok all links ts :
  lookupDelegations all links = Ok ts →
  Forall2 (λ link t, ∃ d, t = Delegation.OfDelegation d ∧ all !! link = Some d) links ts.
Proof.
  revert ts. induction links as [|link links IH]; intros ts; cbn [lookupDelegations].
  { intros [= <-]. constructor. }
  destruct (all !! link) as [d|] eqn:Ed; [|done].
  destruct (lookupDelegations all links) as [ts'|e| |]; [|done..].
  intros [= <-]. constructor; [eauto|by apply IH].
Qed.

(** Delegating stores all of what was named or none of it: on success each
    link named a delegation that came with the request, these are what their
    audiences hold in addition, and nobody holds anything else; on every other
    outcome (the space is not provisioned, a delegation is missing) the store is as
    it was. *)
Theorem accessDelegate_spec (fuel : nat) (provisioning : Provisioning.State)
    (req : Request (list Cid)) (n : Desk) :
  let sent := match req_Metadata req with Some ct => ct_Delegations ct | None => [] end in
  let '(r, n') := accessDelegate fuel provisioning req n in
  (r = Ok (SetSuccess tt None) ∧
   (∀ link, link ∈ req_Arguments req → ∃ d, d ∈ sent ∧ dlg_Link d = link) ∧
   ∀ audience t, t ∈ Delegation.tokensOf (delegations n') audience ↔
     t ∈ Delegation.tokensOf (delegations n) audience ∨
     Delegation.audienceOf t = audience ∧
     ∃ d, t = Delegation.OfDelegation d ∧ d ∈ sent ∧ dlg_Link d ∈ req_Arguments req) ∨
  (n' = n ∧ ∀ u m, r ≠ Ok (SetSuccess u m)).
Proof.
  intros sent. unfold accessDelegate. rewrite M_bind_step. unfold wrap, reads at 1.
  destruct (Provisioning.ListServiceProviders _ _ _) as [providers|e| |]; [|by right..].
  case_bool_decide; [by right|]. rewrite M_bind_step. unfold reads, extractDelegations. fold sent.
  destruct (lookupDelegations _ _) as [ts|e| |] eqn:El; [|by right..].
  apply lookupDelegations_Ok in El. left. cbn [mret]. split_and!; [done| |].
  - intros link Hin. destruct (list_elem_of_lookup_1 _ _ Hin) as [i Hi].
    destruct (Forall2_lookup_l _ _ _ _ _ El Hi) as (t & _ & d & -> & Hd).
    apply byLink_Some in Hd as [? ?]. eauto.
  - intros audience t. cbn [delegations]. rewrite tokensOf_in. apply or_iff_compat_l, and_iff_compat_l.
    split.
    + intros Hin. destruct (list_elem_of_lookup_1 _ _ Hin) as [i Hi].
      destruct (Forall2_lookup_r _ _ _ _ _ El Hi) as (link & Hl & d & -> & Hd).
      apply byLink_Some in Hd as [? <-]. exists d. split_and!; [done..|].
      by apply list_elem_of_lookup_2 in Hl.
    + intros (d & -> & Hd & Hin). destruct (list_elem_of_lookup_1 _ _ Hin) as [i Hi].
      destruct (Forall2_lookup_l _ _ _ _ _ El Hi) as (t & Ht & d' & -> & Hd').
      apply byLink_Some in Hd' as [_ Hl%(inj dlg_Link)]. subst d'.
      by apply list_elem_of_lookup_2 in Ht.
Qed.

(** ** A delegation stored again and again *)
Lemma tokensOf_repeated k t s :
  Delegation.tokensOf s (Delegation.audienceOf t) = [] →
  Delegation.tokensOf (Delegation.PutMany (replicate k t) s) (Delegation.audienceOf t) =
  replicate k t.
Proof.
  intros Hs. symmetry. apply replicate_Permutation.
  rewrite Delegation.tokensOf_PutMany, Hs. rewrite filter_all; [done|].
  apply Forall_forall. by intros x [-> _]%elem_of_replicate.
Qed.
Lemma page_repeated s audience t k cur :
  Delegation.tokensOf s audience = replicate (S k) t → 1001 ≤ k →
  cur = None ∨ cur = Some (Delegation.linkName t) →
  ∃ rs, Delegation.ListByAudience s audience {| cfgCursor := cur; cfgLimit := None |} =
    Ok (mkPage (Some (Delegation.linkName t)) rs).
Proof.
  intros Hs Hk Hcur. unfold Delegation.ListByAudience. rewrite Hs. cbn [cfgCursor cfgLimit].
  assert (∃ j, 1001 ≤ j ∧ resumeWithin Delegation.linkName cur (replicate (S k) t) =
    Ok (replicate j t)) as (j & Hj & ->).
  { destruct Hcur as [-> | ->].
    - exists (S k). split; [lia|done].
    - exists k. split; [done|]. unfold resumeWithin. cbn [replicate indexFunc].
      rewrite bool_decide_eq_true_2 by done. rewrite (proj2 (Z.ltb_lt _ _))
        by (unfold len; simpl; rewrite length_replicate; lia).
      change (Z.of_nat 0 + 1)%Z with (Z.of_nat 1). rewrite slice_from_ok by (simpl; lia). done. }
  cbn [mbind outcome_bind default from_option id].
  replace j with (999 + S (j - 1000)) by lia. rewrite replicate_add. cbn [replicate].
  exists (replicate 999 t ++ [t]).
  apply (cutPage_more 1000 Delegation.linkName (replicate 999 t) t (replicate (j - 1000) t)).
  - apply length_replicate.
  - lia.
  - destruct (j - 1000) eqn:E; [lia|done].
Qed.
Lemma claim_repeated s audience t k fuel cur c :
  Delegation.tokensOf s audience = replicate (S k) t → 1001 ≤ k →
  cur = None ∨ cur = Some (Delegation.linkName t) →
  claimLoop fuel s audience cur c = Diverge.
Proof.
  intros Hs Hk. revert cur c. induction fuel as [|fuel IH]; intros cur c Hcur; [done|].
  cbn [claimLoop].
  replace (match cur with Some cur => WithListCursor cur noOptions | None => noOptions end)
    with {| cfgCursor := cur; cfgLimit := None |} by (by destruct cur).
  destruct (page_repeated s audience t k cur Hs Hk Hcur) as [rs ->].
  cbn [owrap mbind outcome_bind Cursor Results]. apply IH. by right.
Qed.

(** One [/access/delegate] can stop its audience's claims for good: it may name
    the same delegation any number of times, each is stored, and once a page is not
    enough for them the cursor leads back to the first, so that a claim goes on
    reading the same page forever, whatever the fuel. *)
Theorem repeated_delegation_hangs {A} (fuel fuel' k : nat) (provisioning : Provisioning.State)
    (req : Request (list Cid)) (creq : Request A) (d : Delegation) (ps : list DID) (n : Desk) :
  let t := Delegation.OfDelegation d in
  Provisioning.ListServiceProviders fuel provisioning (inv_Subject (req_Invocation req)) = Ok ps →
  ps ≠ [] →
  (∃ ct, req_Metadata req = Some ct ∧ ct_Delegations ct = [d]) →
  req_Arguments req = replicate k (dlg_Link d) → 1002 ≤ k →
  inv_Subject (req_Invocation creq) = Delegation.audienceOf t →
  Delegation.tokensOf (delegations n) (Delegation.audienceOf t) = [] →
  ∃ n', accessDelegate fuel provisioning req n = (Ok (SetSuccess tt None), n') ∧
    (accessClaim fuel' creq n').1 = Diverge.
Proof.
  intros t Hps Hne (ct & Hmeta & Hct) Hargs Hk Hsub Hnone.
  unfold accessDelegate. rewrite M_bind_step. unfold wrap, reads at 1. rewrite Hps.
  rewrite bool_decide_eq_false_2 by by destruct ps.
  rewrite M_bind_step. unfold reads, extractDelegations. rewrite Hmeta, Hct, Hargs.
  assert (lookupDelegations (byLink [d]) (replicate k (dlg_Link d)) = Ok (replicate k t)) as ->.
  { clear Hk Hargs. induction k as [|k IH]; [done|]. cbn [replicate lookupDelegations].
    unfold byLink at 1. cbn [foldl]. rewrite lookup_insert_eq, IH. done. }
  eexists. split; [done|]. unfold accessClaim. rewrite M_bind_step. unfold reads.
  cbn [delegations]. rewrite Hsub, (claim_repeated _ _ t (pred k)); [done| |lia|by left].
  rewrite tokensOf_repeated by done. by replace (S (pred k)) with k by lia.
Qed.
End Access.
End Access.

(** ** A concrete family of sessions *)
Section Concrete.
#[local] Existing Instances StrIds NumberJSON StrCommands StrNames RecContainers RecUcan RecForge
  RecEnv StrErrorText StrAccounts.

Definition confirmBytes (args : @ConfirmArguments StrIds) : string :=
  pack [cf_Issuer args : string; cf_Audience args : string; cf_Cause args : string;
        pack (cr_Command <$> cf_Attenuations args)].
Definition readConfirm (s : string) : outcome (@ConfirmArguments StrIds) :=
  match unpack s with
  | [iss; aud; cause; atts] =>
      Ok {| cf_Issuer := iss : @DID StrIds; cf_Audience := aud : @DID StrIds;
            cf_Attenuations := Build_CapabilityRequest <$> unpack atts;
            cf_Cause := cause : @Cid StrIds |}
  | _ => malformed
  end.
Lemma readConfirm_confirmBytes args : readConfirm (confirmBytes args) = Ok args.
Proof.
  unfold readConfirm, confirmBytes. rewrite unpack_pack. destruct args as [iss aud atts cause]. cbn.
  rewrite unpack_pack. do 2 f_equal. rewrite <-list_fmap_compose.
  induction atts as [|[c] atts IH]; [done|]. rewrite fmap_cons. by f_equal.
Qed.

Program Definition RecSessions : @Sessions StrIds RecContainers RecUcan RecForge := {|
  Meta := string; Meta_empty := ""; Meta_session a b := a; UnmarshalMeta := Ok;
  inv_MetadataBytes _ := "";
  command_Top := "/"; cmd_Confirm := "/access/confirm";
  Attest account _ := (account : string);
  Delegate t iss aud sub cmd _ := Ok ({|
    t_task := ""; t_issuer := iss; t_subject := sub; t_audience := aud; t_command := cmd;
    t_args := ""; t_nonce := Itoa (Z.of_nat t) |} : Delegation);
  dlg_Issuer := (t_issuer : token → @DID StrIds); dlg_Command := t_command;
  InvokeConfirm t iss sub args aud _ _ := Ok ({|
    t_task := "confirm" +:+ confirmBytes args; t_issuer := iss; t_subject := sub;
    t_audience := aud; t_command := "/access/confirm"; t_args := confirmBytes args;
    t_nonce := Itoa (Z.of_nat t) |} : Invocation);
  UnmarshalConfirmArguments := readConfirm;
  container_Encode c := Ok (letters (containerLink c));
  ErrInvalidAccessConfirmSubject := Named "InvalidAccessConfirmSubject" "invalid subject";
  ErrInvalidAccessConfirmIssuer := Named "InvalidAccessConfirmIssuer" "invalid issuer";
  InvalidAuthorizationAccountErrorName := "InvalidAuthorizationAccount";
|}.
Next Obligation. done. Qed.
Next Obligation. by intros t iss aud sub cmd meta d [= <-]. Qed.
Next Obligation.
  intros t iss sub args aud exp meta inv [= <-]. split_and!; [done|done|].
  apply readConfirm_confirmBytes.
Qed.
#[local] Existing Instance RecSessions.
Definition RecMailer : Mailer := {| SendValidation _ _ _ := Ok () |}.
#[local] Existing Instances RecMailer StrUrls.

Definition exampleDesk : Access.Desk := {|
  Access.ticks := 0; Access.delegations := Delegation.PutMany
    [exampleDelegation "did:key:agent" "did:key:space" "1"] Delegation.New; Access.mails := [] |}.
(** The agent asks, the owner of the account confirms, and the agent claims. *)
Definition exampleAccessRequest : Request Access.RequestArguments := {|
  req_Invocation := {| t_task := "request-task"; t_issuer := "did:key:agent";
    t_subject := "did:key:agent"; t_audience := "did:web:sprue"; t_command := "/access/request";
    t_args := ""; t_nonce := "1" |} : Invocation;
  req_Arguments := {| Access.rq_Issuer := str_did "did:mailto:example.com:alice";
    Access.rq_Attenuations := [{| cr_Command := "/blob/add" |}] |};
  req_Metadata := None |}.
Definition exampleConfirm : Request ConfirmArguments := {|
  req_Invocation := {| t_task := "confirm-task"; t_issuer := "did:web:sprue";
    t_subject := "did:web:sprue"; t_audience := "did:web:sprue"; t_command := "/access/confirm";
    t_args := ""; t_nonce := "1" |} : Invocation;
  req_Arguments := {| cf_Issuer := str_did "did:mailto:example.com:alice";
    cf_Audience := str_did "did:key:agent"; cf_Attenuations := [{| cr_Command := "/blob/add" |}];
    cf_Cause := str_cid "request-task" |};
  req_Metadata := None |}.
Definition exampleClaimRequest : Request unit := {|
  req_Invocation := req_Invocation exampleAccessRequest; req_Arguments := tt;
  req_Metadata := None |}.
Definition exampleConfig : Access.ServerConfig :=
  {| Access.PublicURL := ""; Access.Host := "localhost"; Access.Port := 8080 |}.

Definition answered {A} (r : outcome (Reply A)) : option A :=
  match r with Ok (SetSuccess a _) => Some a | _ => None end.

Lemma accessClaim_spec_witness :
  ∃ ct, Access.accessClaim 5 exampleClaimRequest exampleDesk =
    (Ok (SetSuccess (dlg_Link <$> omap Access.asDelegation
       [exampleDelegation "did:key:agent" "did:key:space" "1"]) (Some ct)), exampleDesk).
Proof.
  destruct (Access.accessClaim_spec 5 exampleClaimRequest exampleDesk) as (ct & Hc & _).
  - apply (bool_decide_unpack _). vm_compute. exact I.
  - vm_compute. lia.
  - exists ct. exact Hc.
Defined.

Definition confirmedDesk : Access.Desk := (Access.accessConfirm sprue exampleConfirm exampleDesk).2.
Definition confirmedLinks : list Cid :=
  default [] (answered (Access.accessConfirm sprue exampleConfirm exampleDesk).1).
Lemma confirmed_claimed_witness :
  ∃ ls ct, Access.accessClaim 5 exampleClaimRequest confirmedDesk =
      (Ok (SetSuccess ls (Some ct)), confirmedDesk) ∧
    confirmedLinks ⊆ ls ∧ length confirmedLinks = 2.
Proof.
  destruct (Access.accessConfirm sprue exampleConfirm exampleDesk).1 as [[links meta|e]|e| |] eqn:E;
    [|vm_compute in E; discriminate E..].
  destruct (Access.confirmed_claimed sprue exampleConfirm exampleClaimRequest 5 exampleDesk
    confirmedDesk confirmedDesk links meta) as (account & ls & ct & _ & Hc & Hsub & _).
  - apply injective_projections; [exact E|reflexivity].
  - reflexivity.
  - exact I.
  - reflexivity.
  - apply (bool_decide_unpack _). vm_compute. exact I.
  - vm_compute. lia.
  - assert (confirmedLinks = links) as Hl by (unfold confirmedLinks; rewrite E; reflexivity).
    exists ls, ct. split; [exact Hc|]. split; [rewrite Hl; exact Hsub|vm_compute; reflexivity].
Defined.

Definition requestedDesk : Access.Desk :=
  (Access.accessRequest exampleConfig sprue exampleAccessRequest exampleDesk).2.
Lemma accessRequest_spec_witness :
  ∃ email url, Access.mails requestedDesk = [(email, url)].
Proof.
  destruct (Access.accessRequest exampleConfig sprue exampleAccessRequest exampleDesk).1
    as [[ok meta|e]|e| |] eqn:E; [|vm_compute in E; discriminate E..].
  destruct (Access.accessRequest_spec exampleConfig sprue exampleAccessRequest exampleDesk
    requestedDesk ok meta) as (_ & _ & account & email & url & str & conf & _ & _ & Hm & _).
  - apply injective_projections; [exact E|reflexivity].
  - exists email, url. exact Hm.
Defined.

(** One delegation, named 1002 times by one invocation. *)
Definition repeatedDelegation : Delegation := {|
  t_task := "t"; t_issuer := "i"; t_subject := "did:key:space"; t_audience := "did:key:bob";
  t_command := "/"; t_args := ""; t_nonce := "9" |}.
Definition exampleDelegate : Request (list Cid) := {|
  req_Invocation := {| t_task := "delegate-task"; t_issuer := "did:key:agent";
    t_subject := "did:key:space"; t_audience := "did:web:sprue"; t_command := "/access/delegate";
    t_args := ""; t_nonce := "1" |} : Invocation;
  req_Arguments := replicate 1002 (dlg_Link repeatedDelegation);
  req_Metadata := Some (container_New [] [] [repeatedDelegation]) |}.
Definition bobClaims : Request unit := {|
  req_Invocation := {| t_task := "claim-task"; t_issuer := "did:key:bob";
    t_subject := "did:key:bob"; t_audience := "did:web:sprue"; t_command := "/access/claim";
    t_args := ""; t_nonce := "1" |} : Invocation;
  req_Arguments := tt; req_Metadata := None |}.
Definition exampleProvisioned : Provisioning.State := {|
  Provisioning.consumerStore := (Consumer.Add (str_did "did:web:sprue") (str_did "did:key:space")
    (str_did "did:mailto:a") "sub" (str_cid "c") Consumer.New).2;
  Provisioning.subscriptionStore := Subscription.New |}.
Lemma repeated_delegation_hangs_witness :
  ∃ n', Access.accessDelegate 2 exampleProvisioned exampleDelegate exampleDesk =
      (Ok (SetSuccess tt None), n') ∧
    (Access.accessClaim 4000 bobClaims n').1 = Diverge.
Proof.
  apply (Access.repeated_delegation_hangs 2 4000 1002 exampleProvisioned exampleDelegate
    bobClaims repeatedDelegation [str_did "did:web:sprue"] exampleDesk).
  - vm_compute. reflexivity.
  - discriminate.
  - eexists. split; reflexivity.
  - reflexivity.
  - lia.
  - reflexivity.
  - vm_compute. reflexivity.
Defined.
End Concrete.
