(* ===== verification/EmailAuth.v ===== *)
(** * Confirming by mail: [pkg/lib/ucan_server/email_auth.go], the
      [/validate-email] endpoint of [pkg/service/service.go], [pkg/service/ui]

    The link an access request mails leads to a page, which posts the link's
    confirmation back; the server then executes it on itself, as if it had been
    sent to it. *)
From Stdlib Require Import Ascii.
From S2P Require Export Access.
From S2P Require Import Concrete.

(** Texts a URL carries as they are, and texts in which no query begins. *)
Definition unreserved (c : ascii) : bool :=
  let n := N_of_ascii c in
  ((48 <=? n) && (n <=? 57) || (65 <=? n) && (n <=? 90) || (97 <=? n) && (n <=? 122) ||
   (n =? 45) || (n =? 46) || (n =? 95) || (n =? 126))%N.
Definition urlSafe (s : string) : bool := forallb unreserved (String.list_ascii_of_string s).
Definition queryless (s : string) : bool :=
  forallb (λ c, negb (bool_decide (c = "?"%char ∨ c = "#"%char))) (String.list_ascii_of_string s).

(** What the flow uses of ucantone, [net/url] and echo. *)
Class EmailLinks `{Sessions} `{Urls} := {
  (** [container.Decode]: an encoded container holds the same tokens *)
  container_Decode : string → outcome Container;
  container_Decode_Encode ct s :
    container_Encode ct = Ok s →
    ∃ ct', container_Decode s = Ok ct' ∧ ct_Invocations ct' ≡ₚ ct_Invocations ct;
  container_New_one inv : ct_Invocations (container_New [inv] [] []) = [inv];
  (** base64url *)
  container_Encode_safe ct s : container_Encode ct = Ok s → s ≠ "" ∧ urlSafe s = true;
  (** [c.QueryParam(name)] of a request for a URL: the first value *)
  QueryParam : string → string → string;
  QueryParam_first base k v rest url :
    queryless base = true → urlSafe k = true → urlSafe v = true →
    url_Parse (base +:+ "?" +:+ k +:+ "=" +:+ v +:+ "&" +:+ rest) = Ok url →
    QueryParam url k = v;
  (** [%s] of [access.Confirm] and [%v] of an encoded failure *)
  print_Confirm : string;
  print_failure : string → string;
}.
(** The files embedded in the binary: the logo, and the layout before and after
    the body of a page. *)
Class Assets := { logoSVG : string; layoutHead : string; layoutTail : string }.

(** ** [pkg/service/ui/html.go]

    The templates are of [text/template], which puts a field into the page as it
    is. A back quote stands for the double quotes of the files. *)
Section Pages.
Context `{Assets}.
Fixpoint html (s : string) : string :=
  match s with
  | "" => ""
  | String c s => String (if bool_decide (c = "`"%char) then "034"%char else c) (html s)
  end.
Definition page (body : string) : string := layoutHead +:+ body +:+ layoutTail.
Definition logo : string := "
<header>" +:+ logoSVG +:+ "</header>
<main>".
Definition PendingValidateEmailPage (autoApprove : bool) : outcome string :=
  Ok (page (logo +:+ html "
  <div class=`box`>
    <h1>Validating Email</h1>
    <form id=`approval` method=`post`>
      <button>Approve</button>
    </form>
    " +:+ (if autoApprove then html "
    <script>
      (() => {
        // auto-submit the form for any user w/JS enabled
        const form = document.getElementById('approval')
        form.style.display = 'none'
        form.submit()
      })()
    </script>
    " else "") +:+ "
  </div>
</main>
")).
Definition ValidateEmailPage (ucan email audience : string) : outcome string :=
  Ok (page (logo +:+ html "
  <div class=`box`>
    <h1>Email Validated</h1>
    <p>
      <code>" +:+ email +:+ html "</code> was confirmed.
      You may close this window.
    </p>
  </div>
  <div class=`box`>
    <p>
      By registering with Storacha you agree to the Storacha
      <a href=`https://docs.storacha.network/terms/`>Terms of Service</a>.
    </p>
  </div>
  <details class=`box`>
    <summary>Auth details</summary>
    <h5>Validation requested by</h5>
    <pre>
      <code>" +:+ audience +:+ "</code>
    </pre>
    <h5>UCAN</h5>
    <pre>
      <code>" +:+ ucan +:+ "</code>
    </pre>
  </details>
</main>
")).
Definition ErrorPage (message : string) : outcome string :=
  Ok (page (logo +:+ html "
  <div class=`box`>
    <h1>Email Validation Failed</h1>
    <p>" +:+ message +:+ ". You may close this window and try again.</p>
  </div>
</main>
")).
End Pages.

Lemma list_ascii_of_app s t :
  String.list_ascii_of_string (s +:+ t) =
  String.list_ascii_of_string s ++ String.list_ascii_of_string t.
Proof. induction s as [|c s IH]; [done|]. exact (f_equal (cons c) IH). Qed.

Module EmailAuth.
Section EmailAuth.
Context `{Env} `{!Accounts} `{!Sessions} `{!Mailer} `{Urls} `{ErrorNames} `{ErrorText}.
Context `{!EmailLinks} `{Assets}.
Import Access.

(** [execution.Executor]: the server, which answers an invocation and the tokens
    that came with it. *)
Definition Executor : Type :=
  Invocation → list Delegation → list Receipt → M Desk (Receipt * option Container).

Record AccessConfirmResult := { Email : string; Audience : string; UCAN : string; Meta_ : string }.

Definition ExecBase64urlAccessConfirm (executor : Executor) (input : string)
    : M Desk AccessConfirmResult :=
  inCt ← wrap "decoding UCAN container" (reads (λ _, container_Decode input));
  if bool_decide (length (ct_Invocations inCt) ≠ 1)
  then fail (Errorf "unexpected number of invocations found in UCAN")
  else
    confirmation ← reads (λ _, index (ct_Invocations inCt) 0);
    if bool_decide (inv_Command confirmation ≠ cmd_Confirm)
    then fail (Errorf ("unexpected command in invocation, expected " +:+ print_Confirm +:+
                       " but got " +:+ inv_Command confirmation))
    else
      '(rcpt, meta) ← wrap ("executing confirm task " +:+ cid_String (inv_Task confirmation))
        (executor confirmation (ct_Delegations inCt) (ct_Receipts inCt));
      match rcpt_Out rcpt with
      | inr x => fail (Errorf ("invocation failure: " +:+ print_failure x))
      | inl _ =>
          confirmArgs ← wrap "unmarshaling confirmation arguments"
            (reads (λ _, UnmarshalConfirmArguments (inv_ArgumentsBytes confirmation)));
          email ← wrap "parsing account DID" (reads (λ _, didmailto_Email (cf_Issuer confirmArgs)));
          let outCt := match meta with
                       | Some meta => container_New (ct_Invocations meta)
                                        (rcpt :: ct_Receipts meta) (ct_Delegations meta)
                       | None => container_New [] [rcpt] []
                       end in
          output ← wrap "encoding output UCAN container" (reads (λ _, container_Encode outCt));
          mret {| Email := email; Audience := did_String (cf_Audience confirmArgs);
                  UCAN := output; Meta_ := inv_MetadataBytes confirmation |}
      end.

(** ** The endpoint *)
Inductive Response :=
  | Stream (status : Z) (contentType body : string)
  | Text (status : Z) (body : string).

Definition HandleValidateEmailRequest (executor : Executor) (method ucan : string)
    : M Desk Response :=
  if bool_decide (ucan = "") then
    r ← wrap "failed to render error page" (reads (λ _, ErrorPage "missing ucan query parameter"));
    mret (Stream 400 "text/html" r)
  else if bool_decide (method = "GET") then
    r ← wrap "failed to render validation page" (reads (λ _, PendingValidateEmailPage true));
    mret (Stream 200 "text/html" r)
  else if bool_decide (method = "POST") then
    res ← try (ExecBase64urlAccessConfirm executor ucan);
    match res with
    | inr err =>
        r ← wrap "failed to render error page"
          (reads (λ _, ErrorPage ("Oops, something went wrong: " +:+ Error err)));
        mret (Stream 500 "text/html" r)
    | inl res =>
        r ← wrap "failed to render validation page"
          (reads (λ _, ValidateEmailPage (UCAN res) (Email res) (Audience res)));
        mret (Stream 200 "text/html" r)
    end
  else mret (Text 405 "method not allowed").

(** ** What the server does with a confirmation

    The server is ucantone's. It answers a confirmation by running the handler on
    it, and turns what the handler did into a receipt; between, it may observe. *)
Definition sameDesk (n n' : Desk) : Prop := delegations n' = delegations n ∧ mails n' = mails n.
Definition confirms (id : Issuer) (inv : Invocation) (n : Desk)
    (r : outcome (Receipt * option Container)) (n' : Desk) : Prop :=
  ∃ creq n0 a n1, req_Invocation creq = inv ∧
    UnmarshalConfirmArguments (inv_ArgumentsBytes inv) = Ok (req_Arguments creq) ∧
    sameDesk n n0 ∧ accessConfirm id creq n0 = (a, n1) ∧ sameDesk n1 n' ∧
    match a with
    | Ok (SetSuccess links meta) => ∃ rcpt, r = Ok (rcpt, meta) ∧ IsErr rcpt = false
    | _ => ∀ rcpt meta, r = Ok (rcpt, meta) → IsErr rcpt = true
    end.
(** An invocation the service issued on itself is valid until it expires. *)
Definition validates (id : Issuer) (executor : Executor) : Prop :=
  ∀ t args exp meta inv dlgs rcpts n,
    InvokeConfirm t id (issuer_DID id) args (issuer_DID id) exp meta = Ok inv →
    (clock (ticks n) < fromUnix exp)%Z →
    let '(r, n') := executor inv dlgs rcpts n in confirms id inv n r n'.
(** Nobody else can issue one: what the server runs was issued before. *)
Definition unforgeable (id : Issuer) (issued : list Invocation) (executor : Executor) (n : Desk)
    : Prop :=
  ∀ inv dlgs rcpts, inv_Command inv = cmd_Confirm →
    let '(r, n') := executor inv dlgs rcpts n in
    sameDesk n n' ∨ inv ∈ issued ∧ confirms id inv n r n'.

(** What a run of the executor comes to. *)
Lemma Exec_cases executor input n :
  let '(_, n') := ExecBase64urlAccessConfirm executor input n in
  n' = n ∨
  ∃ ct inv, container_Decode input = Ok ct ∧ ct_Invocations ct = [inv] ∧
    inv_Command inv = cmd_Confirm ∧ n' = (executor inv (ct_Delegations ct) (ct_Receipts ct) n).2.
Proof.
  unfold ExecBase64urlAccessConfirm. rewrite M_bind_step. unfold wrap at 1, reads at 1.
  destruct (container_Decode input) as [ct|e| |] eqn:Ect; [|by left..].
  case_bool_decide as Hlen; [by left|].
  destruct (ct_Invocations ct) as [|inv [|? ?]] eqn:Einv; [done| |done].
  rewrite M_bind_step. unfold reads at 1.
  change (index [inv] 0) with (Ok inv). cbv beta iota. case_bool_decide as Hcmd; [by left|].
  rewrite M_bind_step. unfold wrap at 1.
  assert (∀ n', n' = (executor inv (ct_Delegations ct) (ct_Receipts ct) n).2 → n' = n ∨
    ∃ ct0 inv0, Ok ct = Ok ct0 ∧ ct_Invocations ct0 = [inv0] ∧ inv_Command inv0 = cmd_Confirm ∧
      n' = (executor inv0 (ct_Delegations ct0) (ct_Receipts ct0) n).2) as Hdone.
  { intros n' Hn'. right. by exists ct, inv. }
  destruct (executor _ _ _ n) as [[[rcpt meta]|e| |] n1]; [|by apply Hdone..].
  destruct (rcpt_Out rcpt); [|by apply Hdone]. rewrite M_bind_step. unfold wrap at 1, reads at 1.
  destruct (UnmarshalConfirmArguments _) as [args|e| |]; [|by apply Hdone..].
  rewrite M_bind_step. unfold wrap at 1, reads at 1.
  destruct (didmailto_Email _); [|by apply Hdone..].
  rewrite M_bind_step. unfold wrap, reads. destruct (container_Encode _); by apply Hdone.
Qed.
Lemma Visit_cases executor method ucan n :
  let '(_, n') := HandleValidateEmailRequest executor method ucan n in
  n' = n ∨
  method = "POST" ∧ n' = (ExecBase64urlAccessConfirm executor ucan n).2.
Proof.
  unfold HandleValidateEmailRequest. case_bool_decide; [by left|].
  case_bool_decide; [by left|]. case_bool_decide; [|by left].
  rewrite M_bind_step. unfold try.
  by destruct (ExecBase64urlAccessConfirm executor ucan n) as [[|e| |] n1]; right.
Qed.
(** A confirmation that is carried out is shown. *)
Lemma Exec_runs executor input n ct inv rcpt meta n' args email :
  container_Decode input = Ok ct → ct_Invocations ct = [inv] → inv_Command inv = cmd_Confirm →
  executor inv (ct_Delegations ct) (ct_Receipts ct) n = (Ok (rcpt, meta), n') → IsErr rcpt = false →
  UnmarshalConfirmArguments (inv_ArgumentsBytes inv) = Ok args →
  didmailto_Email (cf_Issuer args) = Ok email →
  (∀ ct, ∃ s, container_Encode ct = Ok s) →
  ∃ out, ExecBase64urlAccessConfirm executor input n =
    (Ok {| Email := email; Audience := did_String (cf_Audience args); UCAN := out;
           Meta_ := inv_MetadataBytes inv |}, n').
Proof.
  intros Hct Hinv Hcmd Hex Hok Hargs Hemail Henc. unfold ExecBase64urlAccessConfirm.
  rewrite M_bind_step. unfold wrap at 1, reads at 1. rewrite Hct, Hinv.
  rewrite bool_decide_eq_false_2 by (cbn; lia). rewrite M_bind_step. unfold reads at 1.
  change (index [inv] 0) with (Ok inv). cbv beta iota. rewrite bool_decide_eq_false_2 by tauto.
  rewrite M_bind_step. unfold wrap at 1. rewrite Hex. unfold IsErr in Hok.
  destruct (rcpt_Out rcpt); [|done]. rewrite M_bind_step. unfold wrap at 1, reads at 1. rewrite Hargs.
  rewrite M_bind_step. unfold wrap at 1, reads at 1. rewrite Hemail.
  rewrite M_bind_step. unfold wrap, reads.
  match goal with |- context [container_Encode ?c] => destruct (Henc c) as [out ->] end.
  by exists out.
Qed.

(** The error page shows the command of any invocation that is posted, signed by
    whomever, as it is: [text/template] escapes nothing. *)
Theorem command_reflected executor input n ct inv :
  container_Decode input = Ok ct → ct_Invocations ct = [inv] → inv_Command inv ≠ cmd_Confirm →
  input ≠ "" →
  ∃ before after, HandleValidateEmailRequest executor "POST" input n =
    (Ok (Stream 500 "text/html" (before +:+ inv_Command inv +:+ after)), n).
Proof.
  intros Hct Hinv Hcmd Hne. unfold HandleValidateEmailRequest.
  rewrite !bool_decide_eq_false_2, bool_decide_eq_true_2 by done. rewrite M_bind_step.
  assert (ExecBase64urlAccessConfirm executor input n =
    (Err (Errorf ("unexpected command in invocation, expected " +:+ print_Confirm +:+
                  " but got " +:+ inv_Command inv)), n)) as Hrun.
  { unfold ExecBase64urlAccessConfirm. rewrite M_bind_step. unfold wrap at 1, reads at 1.
    rewrite Hct, Hinv. rewrite bool_decide_eq_false_2 by (cbn; lia). rewrite M_bind_step.
    unfold reads at 1. change (index [inv] 0) with (Ok inv). cbv beta iota.
    by rewrite bool_decide_eq_true_2. }
  unfold try. rewrite Hrun. rewrite M_bind_step. unfold wrap, reads, ErrorPage, page. cbn [Error].
  rewrite !string_app_assoc.
  match goal with |- context [Stream 500 _ (((?b +:+ inv_Command inv) +:+ ?x) +:+ layoutTail)] =>
    exists b, (x +:+ layoutTail) end.
  by rewrite !string_app_assoc.
Qed.

(** ** The link a request mails *)
Lemma link_param cfg str url ct :
  queryless (publicURL cfg) = true → container_Encode ct = Ok str →
  url_Parse (publicURL cfg +:+ "/validate-email?ucan=" +:+ str +:+ "&mode=authorize") = Ok url →
  QueryParam url "ucan" = str ∧ str ≠ "".
Proof.
  intros Hq [Hne Hsafe]%container_Encode_safe Hu. split; [|done].
  apply (QueryParam_first (publicURL cfg +:+ "/validate-email") "ucan" str "mode=authorize").
  - unfold queryless in *. rewrite list_ascii_of_app, forallb_app, Hq. reflexivity.
  - reflexivity.
  - exact Hsafe.
  - rewrite <-string_app_assoc. exact Hu.
Qed.
Lemma carried conf str :
  container_Encode (container_New [conf] [] []) = Ok str →
  ∃ ct, container_Decode str = Ok ct ∧ ct_Invocations ct = [conf].
Proof.
  intros (ct & Hct & Hp)%container_Decode_Encode. exists ct. split; [done|].
  rewrite container_New_one in Hp. by apply Permutation_singleton_r in Hp.
Qed.

(** A visit of the endpoint is among what may happen. *)
Lemma visit_goesOn id issued executor method ucan n :
  unforgeable id issued executor n →
  rtc goesOn n (HandleValidateEmailRequest executor method ucan n).2.
Proof.
  intros Hun. pose proof (Visit_cases executor method ucan n) as Hv.
  destruct (HandleValidateEmailRequest executor method ucan n) as [r n']. cbn [snd].
  destruct Hv as [->|[_ ->]]; [apply rtc_refl|].
  pose proof (Exec_cases executor ucan n) as He.
  destruct (ExecBase64urlAccessConfirm executor ucan n) as [r' n'']. cbn [snd].
  destruct He as [->|(ct & inv & _ & _ & Hcmd & ->)]; [apply rtc_refl|].
  specialize (Hun inv (ct_Delegations ct) (ct_Receipts ct) Hcmd).
  destruct (executor inv _ _ n) as [r'' n3]. cbn [snd].
  destruct Hun as [[Hd _]|[_ (creq & n0 & a & n1 & _ & _ & [Hd0 _] & Ha & [Hd1 _] & _)]].
  { by apply rtc_once, goes_time. }
  eapply rtc_l; [by apply goes_time|]. eapply rtc_l; [apply (goes_confirm id creq n0)|].
  rewrite Ha. by apply rtc_once, goes_time.
Qed.

(** C21: whoever asks for access and then follows the mailed link has it. When an
    access request succeeded, it has mailed one link, to the address of the account
    it named; if that link is followed before it expires, whatever happened to the
    service in between, on a server whose public URL has no query, that runs what the
    service issued and whose signing and encoding do not fail, the page says that the
    account was validated. From then on, whatever is requested, confirmed,
    delegated and claimed, in whatever order, a claim by the agent that asked answers
    with a delegation by which the account lets it act as the account, and one for
    each capability it asked for, as long as the agent is not made to hold one
    delegation twice, in which case no claim of its ends ([repeated_delegation_hangs]
    of [Access]). *)
Theorem mailed_link_confirms (executor : Executor) (cfg : ServerConfig) (id : Issuer)
    (req : Request RequestArguments) (n n1 n2 : Desk) (ok : RequestOK) (meta : option Container) :
  accessRequest cfg id req n = (Ok (SetSuccess ok meta), n1) →
  queryless (publicURL cfg) = true → validates id executor →
  (∀ t iss aud sub cmd m, ∃ d, Delegate t iss aud sub cmd m = Ok d) →
  (∀ ct, ∃ s, container_Encode ct = Ok s) →
  (clock (ticks n2) < fromUnix (rk_Expiration ok))%Z →
  let agent := inv_Subject (req_Invocation req) in
  ∃ account email url ucan page n3,
    didmailto_Parse (did_String (rq_Issuer (req_Arguments req))) = Ok account ∧
    didmailto_Email account = Ok email ∧ mails n1 = mails n ++ [(email, url)] ∧
    ValidateEmailPage ucan email (did_String agent) = Ok page ∧
    HandleValidateEmailRequest executor "POST" (QueryParam url "ucan") n2 =
      (Ok (Stream 200 "text/html" page), n3) ∧
    ∀ (n4 : Desk) (creq : Request unit) (fuel : nat),
      let held := Delegation.tokensOf (delegations n4) agent in
      rtc goesOn n3 n4 →
      did_Defined agent → inv_Subject (req_Invocation creq) = agent →
      NoDup (Delegation.linkName <$> held) → length held < fuel →
      ∃ ls ct, accessClaim fuel creq n4 = (Ok (SetSuccess ls (Some ct)), n4) ∧
        (∃ d, d ∈ ct_Delegations ct ∧ grant account agent account command_Top d) ∧
        ∀ att, att ∈ rq_Attenuations (req_Arguments req) →
          ∃ d, d ∈ ct_Delegations ct ∧ grant account agent did_Undef (cr_Command att) d.
Proof.
  intros Hr Hq Hval Hdel Henc Hnow agent.
  pose proof (accessRequest_cases cfg id req n) as Hc. rewrite Hr in Hc.
  destruct Hc as [_ [[_ Hn]|Hc]]; [by destruct (Hn ok meta)|].
  destruct Hc as (account & email & url & str & conf & exp & Hp & He & Hm & _ & Hi & Hs & Hu & [= -> _]).
  pose proof (invokeConfirmation_spec id req account n) as Hspec.
  destruct (invokeConfirmation _ _ _ n) as [ri ni]. cbn [fst] in Hi. subst ri.
  destruct Hspec as (_ & _ & Hspec). destruct (Hspec _ _ eq_refl) as (_ & t & m & Hinv).
  destruct (InvokeConfirm_Ok _ _ _ _ _ _ _ _ Hinv) as (Hcmd & Hsub & Hargs).
  destruct (link_param _ _ _ _ Hq Hs Hu) as [Hparam Hne].
  destruct (carried _ _ Hs) as (ct & Hct & Hone).
  pose proof (Hval t _ _ _ _ (ct_Delegations ct) (ct_Receipts ct) n2 Hinv Hnow) as Hconf.
  destruct (executor conf _ _ n2) as [r n3] eqn:Hex.
  destruct Hconf as (creq & n0 & a & n0' & Hcreq & Hcargs & _ & Ha & [Hd3 _] & Hans).
  rewrite Hargs in Hcargs. injection Hcargs as Hcargs.
  destruct (accessConfirm_succeeds id creq n0 account) as (links & meta' & n' & Ha');
    [by rewrite Hcreq|rewrite <-Hcargs; by eapply didmailto_Parse_String|done|].
  rewrite Ha in Ha'. injection Ha' as -> <-. destruct Hans as (rcpt & -> & Hrcpt).
  destruct (Exec_runs executor str n2 ct conf rcpt meta' n3 _ email Hct Hone Hcmd Hex Hrcpt Hargs He Henc)
    as (out & Hrun).
  eexists account, email, url, out, _, n3. split_and!; [done..| |].
  - rewrite Hparam. unfold HandleValidateEmailRequest. rewrite bool_decide_eq_false_2 by done.
    rewrite bool_decide_eq_false_2, bool_decide_eq_true_2 by done. rewrite M_bind_step. unfold try.
    rewrite Hrun. done.
  - intros n4 claim fuel held Hgo Hdef Hcs Hnd Hfuel.
    assert (cf_Audience (req_Arguments creq) = agent) as Haud by by rewrite <-Hcargs.
    apply confirmed_held in Ha as (acc & dlgs & Hacc & _ & Hheld & (d & Hd & Htop) & Hatt); [|by rewrite Haud].
    rewrite <-Hcargs in Hacc. cbn [confirmationOf cf_Issuer] in Hacc.
    rewrite (didmailto_Parse_String _ _ Hp) in Hacc. injection Hacc as <-.
    rewrite Haud in Hheld, Htop, Hatt. rewrite <-Hcargs in Hatt. rewrite <-Hd3 in Hheld.
    assert (∀ d, d ∈ dlgs → Delegation.OfDelegation d ∈ held) as Hstill.
    { intros d' Hd'. apply (goesOn_keeps _ _ Hgo). by apply Hheld. }
    destruct (accessClaim_answers fuel claim n4) as (ct' & Hcl & Hin & _); [by rewrite Hcs..|].
    rewrite Hcs in Hcl, Hin. eexists _, ct'. split_and!; [exact Hcl| |].
    + exists d. split; [|done]. by apply Hin, Hstill.
    + intros att (d' & Hd' & Hg)%Hatt. exists d'. split; [|done]. by apply Hin, Hstill.
Qed.

(** ** Who is let in

    The desk over time: access requests, visits of the endpoint with whatever
    method and text, and claims, in any order. [asked] is kept for the statements:
    the requests for which a confirmation was issued, with it. *)
Record History := { desk : Desk; asked : list (Request RequestArguments * Invocation) }.
Definition issuedFor (id : Issuer) (req : Request RequestArguments) (n : Desk)
    : list (Request RequestArguments * Invocation) :=
  match didmailto_Parse (did_String (rq_Issuer (req_Arguments req))) with
  | Ok account =>
      match didmailto_Email account, (invokeConfirmation id req account n).1 with
      | Ok _, Ok (conf, _) => [(req, conf)]
      | _, _ => []
      end
  | _ => []
  end.
Section Run.
Context (cfg : ServerConfig) (id : Issuer) (executor : Executor).
Inductive step : History → History → Prop :=
  | Asks x req :
      step x {| desk := (accessRequest cfg id req (desk x)).2;
                asked := asked x ++ issuedFor id req (desk x) |}
  | Visits x method ucan :
      unforgeable id (asked x).*2 executor (desk x) →
      step x {| desk := (HandleValidateEmailRequest executor method ucan (desk x)).2;
                asked := asked x |}
  | Claims x fuel (req : Request unit) :
      step x {| desk := (accessClaim fuel req (desk x)).2; asked := asked x |}.

(** A delegation that a request asked the account it names for. *)
Definition askedOf (account : DID) (req : Request RequestArguments) (d : Delegation) : Prop :=
  let agent := inv_Subject (req_Invocation req) in
  grant account agent account command_Top d ∨
  ∃ att, att ∈ rq_Attenuations (req_Arguments req) ∧ grant account agent did_Undef (cr_Command att) d.
(** The account a request names, and the address it has. *)
Definition names (req : Request RequestArguments) (account : DID) (email : string) : Prop :=
  didmailto_Parse (did_String (rq_Issuer (req_Arguments req))) = Ok account ∧
  didmailto_Email account = Ok email.
Definition genuine (x : History) : Prop :=
  ∀ req conf, (req, conf) ∈ asked x →
    ∃ account email t exp meta, names req account email ∧
      InvokeConfirm t id (issuer_DID id) (confirmationOf id req account) (issuer_DID id) exp meta = Ok conf.
Definition grantsAsked (x : History) : Prop :=
  ∀ audience token, token ∈ Delegation.tokensOf (delegations (desk x)) audience →
    ∃ req conf account email d, (req, conf) ∈ asked x ∧ names req account email ∧
      token = Delegation.OfDelegation d ∧ askedOf account req d.
Definition mailsAddressed (x : History) : Prop :=
  ∀ email url, (email, url) ∈ mails (desk x) →
    ∃ req conf account str, (req, conf) ∈ asked x ∧ names req account email ∧
      container_Encode (container_New [conf] [] []) = Ok str ∧
      url_Parse (publicURL cfg +:+ "/validate-email?ucan=" +:+ str +:+ "&mode=authorize") = Ok url.
Definition honest (x : History) : Prop := genuine x ∧ grantsAsked x ∧ mailsAddressed x.

Lemma honest_kept x n :
  honest x → sameDesk (desk x) n → honest {| desk := n; asked := asked x |}.
Proof.
  intros (Hg & Hd & Hm) [Hds Hms]. split_and!; [exact Hg| |].
  - intros audience token. cbn [desk]. rewrite Hds. apply Hd.
  - intros email url. cbn [desk]. rewrite Hms. apply Hm.
Qed.
Lemma honest_asks x req :
  honest x →
  honest {| desk := (accessRequest cfg id req (desk x)).2; asked := asked x ++ issuedFor id req (desk x) |}.
Proof.
  intros (Hg & Hd & Hm). pose proof (accessRequest_cases cfg id req (desk x)) as Hc.
  destruct (accessRequest cfg id req (desk x)) as [r n']. destruct Hc as [Hds Hc].
  split_and!.
  - intros req' conf [Hin|Hin]%elem_of_app; [by apply Hg|]. unfold issuedFor in Hin.
    destruct (didmailto_Parse _) as [account| | |] eqn:Ep; [|by apply elem_of_nil in Hin..].
    destruct (didmailto_Email account) as [email| | |] eqn:Ee; [|by apply elem_of_nil in Hin..].
    pose proof (invokeConfirmation_spec id req account (desk x)) as Hs.
    destruct (invokeConfirmation _ _ _ _) as [[[conf' exp]| | |] n2];
      [|by apply elem_of_nil in Hin..]. apply list_elem_of_singleton in Hin as [= -> ->].
    destruct Hs as (_ & _ & Hs). destruct (Hs _ _ eq_refl) as (_ & t & meta & Hinv).
    exists account, email, t, exp, meta. by split.
  - intros audience token. cbn [desk snd]. rewrite Hds. intros Hin.
    destruct (Hd _ _ Hin) as (q & conf & account & email & d & Hq & Hrest).
    exists q, conf, account, email, d. split; [by apply elem_of_app; left|exact Hrest].
  - intros email url Hin. cbn [desk snd asked] in *.
    assert ((email, url) ∈ mails (desk x) ∨ (email, url) ∉ mails (desk x)) as [Hold|Hnew]
      by (destruct (decide ((email, url) ∈ mails (desk x))); tauto).
    { destruct (Hm _ _ Hold) as (q & conf & account & str & Hq & Hrest).
      exists q, conf, account, str. split; [by apply elem_of_app; left|exact Hrest]. }
    destruct Hc as [[Hms _]|(account & email' & url' & str & conf & exp & Hp & He & Hms & _ & Hi & Hs & Hu & _)];
      rewrite Hms in Hin; [done|].
    apply elem_of_app in Hin as [Hin|[= -> ->]%list_elem_of_singleton]; [done|].
    exists req, conf, account, str. split_and!; [|by split|done..].
    apply elem_of_app. right. unfold issuedFor. rewrite Hp, He, Hi. by left.
Qed.
Lemma honest_confirms x inv r n' :
  honest x → inv ∈ (asked x).*2 → confirms id inv (desk x) r n' →
  honest {| desk := n'; asked := asked x |}.
Proof.
  intros (Hg & Hd & Hm) Hin Hc.
  destruct Hc as (creq & n0 & a & n1 & Hinv & Hargs & [Hd0 Hm0] & Ha & [Hd1 Hm1] & _).
  apply list_elem_of_fmap in Hin as ([req conf] & -> & Hin). cbn [snd] in *.
  destruct (Hg _ _ Hin) as (account & email & t & exp & meta & Hnames & Hi).
  apply InvokeConfirm_Ok in Hi as (_ & _ & Hargs'). rewrite Hargs' in Hargs. injection Hargs as Hargs.
  pose proof (accessConfirm_stores id creq n0) as Hs. rewrite Ha in Hs. destruct Hs as [Hms Hs].
  split_and!; [exact Hg| |].
  - intros audience token Htok. cbn [desk asked] in *. rewrite Hd1 in Htok.
    destruct Hs as [Hsame|(links & meta' & ->)]; [rewrite Hsame, Hd0 in Htok; by apply (Hd audience)|].
    apply accessConfirm_Ok in Ha as (_ & acc & dlgs & d & rest & Hacc & _ & Hdlgs & Hput & Htop & Hrest).
    rewrite <-Hargs in Hacc, Htop, Hrest. cbn [confirmationOf cf_Issuer cf_Audience cf_Attenuations] in *.
    destruct Hnames as [Hp He]. rewrite (didmailto_Parse_String _ _ Hp) in Hacc. injection Hacc as <-.
    rewrite Hput in Htok. apply tokensOf_in in Htok as [Htok|[_ Htok]].
    { rewrite Hd0 in Htok. by apply (Hd audience). }
    apply list_elem_of_fmap in Htok as (d' & -> & Hd'). exists req, conf, account, email, d'.
    split_and!; [done|by split|done|]. subst dlgs. apply elem_of_cons in Hd' as [->|Hd']; [by left|right].
    apply list_elem_of_lookup in Hd' as [i Hi].
    destruct (Forall2_lookup_r _ _ _ _ _ Hrest Hi) as (att & Hatt & Hgrant).
    exists att. split; [by eapply list_elem_of_lookup_2|done].
  - intros email' url Hu. cbn [desk asked] in *. rewrite Hm1, Hms, Hm0 in Hu. by apply Hm.
Qed.
Lemma honest_step x x' : honest x → step x x' → honest x'.
Proof.
  intros Hx Hst. destruct Hst as [y req|y method ucan Hun|y fuel req].
  - exact (honest_asks y req Hx).
  - pose proof (Visit_cases executor method ucan (desk y)) as Hv.
    destruct (HandleValidateEmailRequest executor method ucan (desk y)) as [r n']. cbn [snd].
    destruct Hv as [->|[_ ->]]; [by apply honest_kept|].
    pose proof (Exec_cases executor ucan (desk y)) as He.
    destruct (ExecBase64urlAccessConfirm executor ucan (desk y)) as [r' n'']. cbn [snd].
    destruct He as [->|(ct & inv & _ & _ & Hcmd & ->)]; [by apply honest_kept|].
    specialize (Hun inv (ct_Delegations ct) (ct_Receipts ct) Hcmd).
    destruct (executor inv _ _ (desk y)) as [r'' n3]. cbn [snd].
    destruct Hun as [Hsame|[Hin Hc]]; [by apply honest_kept|by eapply honest_confirms].
  - assert ((accessClaim fuel req (desk y)).2 = desk y) as Hsame.
    { unfold accessClaim. rewrite M_bind_step. unfold reads. by destruct (claimLoop _ _ _ _ _). }
    rewrite Hsame. by apply honest_kept.
Qed.
Lemma honest_run x x' : rtc step x x' → honest x → honest x'.
Proof. induction 1 as [|x y z Hxy _ IH]; [done|]. intros Hx. eapply IH, honest_step; eauto. Qed.

(** C22: nobody is let in who was not asked for, and only the owner of the account is
    asked. Whatever is requested, claimed and sent to the endpoint, in whatever
    order and by whomever, every delegation in the store is one that an earlier
    access request asked for: from the account that the request named, to the agent
    that made it, for that agent to act as the account or for a capability the
    request listed. And a link that confirms a request was mailed to nobody but the
    address of the account the request named. This is as long as nobody else can
    issue the service's confirmations. *)
Theorem grants_asked (t : nat) (x : History) :
  rtc step {| desk := {| ticks := t; delegations := Delegation.New; mails := [] |}; asked := [] |} x →
  grantsAsked x ∧ mailsAddressed x.
Proof.
  intros Hrun. eapply honest_run; [exact Hrun|]. split_and!.
  - by intros req conf ?%elem_of_nil.
  - intros audience token. unfold Delegation.tokensOf, Delegation.New. cbn.
    rewrite lookup_empty. by intros ?%elem_of_nil.
  - by intros email url ?%elem_of_nil.
Qed.
End Run.
End EmailAuth.
End EmailAuth.

(** ** Concrete links *)
Section Concrete.
#[local] Existing Instances StrIds NumberJSON StrCommands StrNames RecContainers RecUcan RecForge
  RecEnv StrErrorText StrAccounts RecSessions RecMailer StrUrls.

(** The text after the first occurrence of a character, and the one before it. *)
Fixpoint after (c : ascii) (s : string) : string :=
  match s with
  | "" => ""
  | String d s => if bool_decide (d = c) then s else after c s
  end.
Fixpoint until (c : ascii) (s : string) : string :=
  match s with
  | "" => ""
  | String d s => if bool_decide (d = c) then "" else String d (until c s)
  end.
Definition firstParam (url name : string) : string :=
  let query := after "?" url in
  if String.prefix (name +:+ "=") query then until "&" (after "=" query) else "".

Definition avoids (c : ascii) (s : string) : Prop := c ∉ String.list_ascii_of_string s.
Lemma after_app c s t : avoids c s → after c (s +:+ String c t) = t.
Proof.
  unfold avoids. induction s as [|d s IH]; intros Hs.
  - change (after c (String c t) = t). cbn [after]. by rewrite bool_decide_eq_true_2.
  - apply not_elem_of_cons in Hs as [Hne Hs]. change (after c (String d (s +:+ String c t)) = t).
    cbn [after]. rewrite bool_decide_eq_false_2 by done. by apply IH.
Qed.
Lemma until_app c s t : avoids c s → until c (s +:+ String c t) = s.
Proof.
  unfold avoids. induction s as [|d s IH]; intros Hs.
  - change (until c (String c t) = ""). cbn [until]. by rewrite bool_decide_eq_true_2.
  - apply not_elem_of_cons in Hs as [Hne Hs]. change (until c (String d (s +:+ String c t)) = String d s).
    cbn [until]. rewrite bool_decide_eq_false_2 by done. f_equal. by apply IH.
Qed.
Lemma queryless_avoids s : queryless s = true → avoids "?" s.
Proof.
  unfold queryless, avoids. rewrite forallb_forall. intros Hs Hin%list_elem_of_In%Hs.
  rewrite bool_decide_eq_true_2 in Hin by by left. done.
Qed.
Lemma urlSafe_avoids c s : unreserved c = false → urlSafe s = true → avoids c s.
Proof.
  unfold urlSafe, avoids. rewrite forallb_forall. intros Hc Hs Hin%list_elem_of_In%Hs. congruence.
Qed.
Lemma prefix_app s t : String.prefix s (s +:+ t) = true.
Proof. induction s as [|c s IH]; [by destruct t|]. change (String.prefix (String c s) (String c (s +:+ t)) = true).
  cbn [String.prefix]. by destruct (ascii_dec c c).
Qed.
Lemma firstParam_first base k v rest :
  queryless base = true → urlSafe k = true → urlSafe v = true →
  firstParam (base +:+ "?" +:+ k +:+ "=" +:+ v +:+ "&" +:+ rest) k = v.
Proof.
  intros Hb Hk Hv. unfold firstParam.
  assert (after "?" (base +:+ "?" +:+ k +:+ "=" +:+ v +:+ "&" +:+ rest) =
    k +:+ "=" +:+ v +:+ "&" +:+ rest) as -> by (apply after_app; by apply queryless_avoids).
  rewrite (string_app_assoc k "="), prefix_app, <-string_app_assoc.
  assert (after "=" (k +:+ "=" +:+ v +:+ "&" +:+ rest) = v +:+ "&" +:+ rest) as ->
    by (apply after_app; by apply urlSafe_avoids).
  apply until_app. by apply urlSafe_avoids.
Qed.
Lemma letters_safe s : urlSafe (letters s) = true.
Proof.
  unfold urlSafe. induction s as [|c s IH]; [done|]. cbn -[unreserved letterOf]. rewrite IH.
  by destruct c as [[] [] [] [] [] [] [] []].
Qed.
Lemma letters_link (c : rcontainer) : letters (containerLink c) ≠ "".
Proof.
  intros He. apply (f_equal unletters) in He. rewrite unletters_letters in He.
  apply (f_equal readContainer) in He. by rewrite readContainer_link in He.
Qed.
Program Definition RecEmailLinks : @EmailLinks StrIds RecContainers RecUcan RecForge RecSessions StrUrls := {|
  container_Decode s := readContainer (unletters s);
  QueryParam := firstParam;
  print_Confirm := "/access/confirm"; print_failure := id;
|}.
Next Obligation.
  intros ct s [= <-]. exists ct. split; [|done]. by rewrite unletters_letters, readContainer_link.
Qed.
Next Obligation. done. Qed.
Next Obligation. intros ct s [= <-]. split; [apply letters_link|apply letters_safe]. Qed.
Next Obligation. intros base k v rest url Hb Hk Hv [= <-]. by apply firstParam_first. Qed.
#[local] Existing Instance RecEmailLinks.
Definition plainAssets : Assets := {| logoSVG := "<svg/>"; layoutHead := "<body>"; layoutTail := "</body>" |}.
#[local] Existing Instance plainAssets.

(** A server that validates every confirmation there is a reader for, or only the
    given ones. *)
Definition runConfirm (inv : Invocation) (args : ConfirmArguments) (n : Access.Desk)
    : outcome (Receipt * option Container) * Access.Desk :=
  let '(a, n') := Access.accessConfirm sprue
    {| req_Invocation := inv; req_Arguments := args; req_Metadata := None |} n in
  (match a with
   | Ok (SetSuccess links meta) =>
       Ok ({| rt_ran := inv_Task inv : string; rt_out := inl "" |} : Receipt, meta)
   | Ok (SetFailure e) => Ok ({| rt_ran := inv_Task inv : string; rt_out := inr "" |} : Receipt, None)
   | Err e => Ok ({| rt_ran := inv_Task inv : string; rt_out := inr "" |} : Receipt, None)
   | Panic => Panic
   | Diverge => Diverge
   end, n').
Definition server (allowed : Invocation → bool) : EmailAuth.Executor := λ inv _ _ n,
  match readConfirm (inv_ArgumentsBytes inv) with
  | Ok args => if allowed inv then runConfirm inv args n
               else (Err (Errorf "unauthorized"), n)
  | _ => (Err (Errorf "malformed"), n)
  end.
Lemma server_confirms allowed inv dlgs rcpts n args :
  readConfirm (inv_ArgumentsBytes inv) = Ok args → allowed inv = true →
  let '(r, n') := server allowed inv dlgs rcpts n in EmailAuth.confirms sprue inv n r n'.
Proof.
  intros Hargs Hall. unfold server. rewrite Hargs, Hall. unfold runConfirm.
  destruct (Access.accessConfirm _ _ _) as [a n'] eqn:Ea.
  exists {| req_Invocation := inv; req_Arguments := args; req_Metadata := None |}, n, a, n'.
  split_and!; [done|exact Hargs|done|exact Ea|done|].
  destruct a as [[links meta|e]|e| |]; [by eexists|by intros rcpt meta [= <- _]..].
Qed.
Lemma server_validates : EmailAuth.validates sprue (server (λ _, true)).
Proof.
  intros t args exp meta inv dlgs rcpts n Hinv _. eapply server_confirms; [|done].
  exact (proj2 (proj2 (InvokeConfirm_Ok _ _ _ _ _ _ _ _ Hinv))).
Qed.

(** The owner of the account follows the link that [exampleAccessRequest] mailed. *)
Definition mailedLink : string :=
  match Access.mails requestedDesk with (_, url) :: _ => url | [] => "" end.
Definition requestedOK : Access.RequestOK :=
  match (Access.accessRequest exampleConfig sprue exampleAccessRequest exampleDesk).1 with
  | Ok (SetSuccess ok _) => ok
  | _ => {| Access.rk_Request := str_cid ""; Access.rk_Confirm := str_cid ""; Access.rk_Expiration := 0 |}
  end.
Definition visitedDesk : Access.Desk :=
  (EmailAuth.HandleValidateEmailRequest (server (λ _, true)) "POST" (QueryParam mailedLink "ucan")
    requestedDesk).2.
(** Afterwards the request is made again, and its link not followed. *)
Definition laterDesk : Access.Desk :=
  (Access.accessRequest exampleConfig sprue exampleAccessRequest visitedDesk).2.
Lemma mailed_link_confirms_witness :
  ∃ page ls ct, EmailAuth.HandleValidateEmailRequest (server (λ _, true)) "POST"
      (QueryParam mailedLink "ucan") requestedDesk =
    (Ok (EmailAuth.Stream 200 "text/html" page), visitedDesk) ∧
    Access.accessClaim 9 exampleClaimRequest laterDesk = (Ok (SetSuccess ls (Some ct)), laterDesk) ∧
    ∃ d, d ∈ ct_Delegations ct ∧ dlg_Command d = "/".
Proof.
  destruct (EmailAuth.mailed_link_confirms (server (λ _, true)) exampleConfig sprue exampleAccessRequest
    exampleDesk requestedDesk requestedDesk requestedOK None)
    as (account & email & url & ucan & page & n3 & _ & _ & Hm & _ & Hv & Hc).
  - vm_cast_no_check (eq_refl (Ok (SetSuccess requestedOK None), requestedDesk)).
  - reflexivity.
  - exact server_validates.
  - intros. eexists. reflexivity.
  - intros. eexists. reflexivity.
  - vm_compute. reflexivity.
  - assert (url = mailedLink) as -> by (unfold mailedLink; by rewrite Hm).
    assert (n3 = visitedDesk) as -> by (unfold visitedDesk; by rewrite Hv).
    destruct (Hc laterDesk exampleClaimRequest 9) as (ls & ct & Hcl & (d & Hd & Hg) & _).
    + apply rtc_once, Access.goes_request.
    + exact I.
    + reflexivity.
    + apply (bool_decide_unpack _). vm_compute. exact I.
    + vm_compute. lia.
    + exists page, ls, ct. split_and!; [exact Hv|exact Hcl|].
      exists d. split; [exact Hd|apply Hg].
Defined.

(** The same over time, on a server that knows what it issued. *)
Definition knownTo (issued : list Invocation) (inv : Invocation) : bool := bool_decide (inv ∈ issued).
Lemma server_unforgeable issued n :
  EmailAuth.unforgeable sprue issued (server (knownTo issued)) n.
Proof.
  intros inv dlgs rcpts _. destruct (readConfirm (inv_ArgumentsBytes inv)) as [args|e| |] eqn:Ea.
  - destruct (knownTo issued inv) eqn:Ek.
    + pose proof (server_confirms _ inv dlgs rcpts n args Ea Ek) as Hc.
      destruct (server _ _ _ _ _) as [r n']. right. split; [|exact Hc].
      exact (bool_decide_eq_true_1 _ Ek).
    + unfold server. rewrite Ea, Ek. by left.
  - unfold server. rewrite Ea. by left.
  - unfold server. rewrite Ea. by left.
  - unfold server. rewrite Ea. by left.
Qed.
Definition firstDesk : Access.Desk :=
  {| Access.ticks := 0; Access.delegations := Delegation.New; Access.mails := [] |}.
Definition issuedFirst : list (Request Access.RequestArguments * Invocation) :=
  EmailAuth.issuedFor sprue exampleAccessRequest firstDesk.
Definition firstServer : EmailAuth.Executor := server (knownTo issuedFirst.*2).
Definition afterAsking : EmailAuth.History := {|
  EmailAuth.desk := (Access.accessRequest exampleConfig sprue exampleAccessRequest firstDesk).2;
  EmailAuth.asked := [] ++ issuedFirst |}.
Definition afterVisit : EmailAuth.History := {|
  EmailAuth.desk := (EmailAuth.HandleValidateEmailRequest firstServer "POST"
    (QueryParam mailedLink "ucan") (EmailAuth.desk afterAsking)).2;
  EmailAuth.asked := EmailAuth.asked afterAsking |}.
Lemma grants_asked_witness :
  length (Delegation.tokensOf (Access.delegations (EmailAuth.desk afterVisit)) (str_did "did:key:agent")) = 2 ∧
  EmailAuth.grantsAsked afterVisit ∧ EmailAuth.mailsAddressed exampleConfig afterVisit.
Proof.
  split; [vm_compute; reflexivity|].
  apply (EmailAuth.grants_asked exampleConfig sprue firstServer 0).
  eapply rtc_l; [apply (EmailAuth.Asks _ _ _ _ exampleAccessRequest)|].
  eapply rtc_l; [|apply rtc_refl].
  apply (EmailAuth.Visits exampleConfig sprue firstServer afterAsking "POST" (QueryParam mailedLink "ucan")).
  apply server_unforgeable.
Defined.
End Concrete.
