(* ===== verification/Spaces.v ===== *)
(** * Accounts and spaces: [customer_add.go], [provider_add.go], [space_info.go]

    The service registers a customer with a plan; an account with a plan provisions
    a space; anyone may ask which services hold a space. *)
From S2P Require Export Service Provisioning Texts.
From S2P Require Import Concrete.

(** The failures libforge declares for these commands. *)
Class SpaceErrors := {
  ErrAccountPlanMissing : error;
  UnknownSpaceErrorName : string;
}.
Definition InvalidCustomerSubjectErrorName : string := "InvalidCustomerSubject".
Definition ErrInvalidCustomerSubject : error :=
  Named InvalidCustomerSubjectErrorName "invocation subject must be the service".

Module Spaces.
Section Spaces.
Context `{Ucan} `{!Accounts} `{!SubscriptionHash} `{ErrorNames} `{SpaceErrors} `{ErrorText} {Val : Type}.

(** ** [/customer/add]; [self] is the service's DID *)
Record CustomerAddArguments := {
  cu_Customer : DID; cu_ExternalAccount : option string; cu_Product : DID;
  cu_Details : gmap string Val;
}.
Definition customerAdd (self : DID) (now : Z) (req : Request CustomerAddArguments)
    : M (Customer.Store Val) (Reply unit) :=
  if bool_decide (inv_Subject (req_Invocation req) ≠ self)
  then mret (SetFailure ErrInvalidCustomerSubject)
  else
    let args := req_Arguments req in
    added ← try (Customer.Add (cu_Customer args) (cu_ExternalAccount args) (cu_Product args)
                   (cu_Details args) None now);
    match added with
    | inl _ => mret (SetSuccess tt None)
    | inr err => if Is err ErrCustomerExists then mret (SetFailure err)
                 else fail (Wrap "adding customer" err)
    end.

(** ** [/provider/add] *)
Record ProviderAddArguments := { pv_Provider : DID; pv_Consumer : DID }.
(** An account is a did:mailto or a did:plc. *)
Definition parseAccount (subject : DID) : outcome DID :=
  match didmailto_Parse (did_String subject) with
  | Err _ => plc_Parse (did_String subject)
  | r => r
  end.
Definition checkPlan (allowWithoutPlan : bool) (customers : Customer.Store Val) (account : DID)
    : outcome unit :=
  if allowWithoutPlan then Ok tt
  else _ ← Billing.PaymentPlan customers account; Ok tt.

(** The handler, over a provisioning service of either backend. *)
Definition providerAddWith {S} (provision : list DID → DID → DID → DID → Cid → M S string)
    (allowWithoutPlan : bool) (customers : Customer.Store Val)
    (providers : list DID) (req : Request ProviderAddArguments) : M S (Reply string) :=
  let args := req_Arguments req in
  parsed ← try (reads (λ _, parseAccount (inv_Subject (req_Invocation req))));
  match parsed with
  | inr err => mret (SetFailure (Named InvalidAccountErrorName
                                   ("invalid account DID: " +:+ Error err)))
  | inl account =>
      plan ← try (reads (λ _, checkPlan allowWithoutPlan customers account));
      match plan with
      | inr err => if Is err ErrMissingPaymentPlan then mret (SetFailure ErrAccountPlanMissing)
                   else fail (Wrap "checking payment plan" err)
      | inl _ =>
          sub ← try (provision providers account (pv_Consumer args) (pv_Provider args)
                       (inv_Task (req_Invocation req)));
          match sub with
          | inl id => mret (SetSuccess id None)
          | inr err =>
              if Is err ErrProviderNotAllowed || Is err ErrConsumerExists
              then mret (SetFailure err)
              else fail (Wrap "provisioning service" err)
          end
      end
  end.
Definition providerAdd : bool → Customer.Store Val → list DID → Request ProviderAddArguments →
    M Provisioning.State (Reply string) := providerAddWith Provisioning.Provision.

(** ** [/space/info] *)
Definition spaceInfo {A} (fuel : nat) (s : Provisioning.State) (req : Request A)
    : outcome (Reply (list DID)) :=
  let space := inv_Subject (req_Invocation req) in
  if negb (String.prefix "did:key:" (did_String space))
  then Ok (SetFailure (Named UnknownSpaceErrorName "can only get info for did:key spaces"))
  else
    providers ← owrap "listing service providers" (Provisioning.ListServiceProviders fuel s space);
    Ok (SetSuccess providers None).

(** ** What provisioning takes *)
Definition billed (customers : Customer.Store Val) (account : DID) : Prop :=
  account ∈ Customer.Customer <$> Customer.customers customers.
Lemma Get_billed customers account :
  (billed customers account ∧ ∃ c, Customer.Get customers account = Ok c) ∨
  (¬ billed customers account ∧ Customer.Get customers account = Err ErrCustomerNotFound).
Proof.
  unfold billed, Customer.Get. destruct (findFunc _ _) as [c|] eqn:E.
  - left. apply findFunc_Some in E as [Hin Hc%bool_decide_eq_true]. split; [|eauto].
    apply list_elem_of_fmap. by exists c.
  - right. split; [|done]. intros (c & -> & Hin)%list_elem_of_fmap.
    pose proof (proj1 (findFunc_None _ _) E c Hin) as Hc. by apply bool_decide_eq_false in Hc.
Qed.
Lemma checkPlan_cases allow customers account :
  (allow = true ∨ billed customers account) ∧ checkPlan allow customers account = Ok tt ∨
  allow = false ∧ ¬ billed customers account ∧
  checkPlan allow customers account = Err ErrMissingPaymentPlan.
Proof.
  unfold checkPlan, Billing.PaymentPlan. destruct allow; [left; split; [by left|done]|].
  destruct (Get_billed customers account) as [[Hb [c ->]]|[Hb ->]].
  - left. split; [by right|done].
  - right. by rewrite Is_refl.
Qed.
Lemma customerAdd_billed self now req customers reply customers' :
  customerAdd self now req customers = (Ok (SetSuccess tt reply), customers') →
  inv_Subject (req_Invocation req) = self ∧
  ∀ account, billed customers' account ↔
    billed customers account ∨ account = cu_Customer (req_Arguments req).
Proof.
  unfold customerAdd. destruct (decide (inv_Subject (req_Invocation req) = self)) as [Hs|Hs];
    [rewrite bool_decide_eq_false_2 by (by intros ?)|by rewrite bool_decide_eq_true_2].
  rewrite M_bind_step. unfold try, Customer.Add.
  destruct (containsFunc _ _) eqn:E; [by rewrite Is_refl|].
  intros [= _ <-]. split; [done|]. intros account.
  unfold billed, sortFunc. cbn [Customer.customers].
  by rewrite merge_sort_Permutation, fmap_app, elem_of_app; cbn; rewrite list_elem_of_singleton.
Qed.

(** [/provider/add] for an account in good standing is [Provision]. *)
Lemma providerAddWith_planned {S} (provision : list DID → DID → DID → DID → Cid → M S string)
    allow customers providers req account s :
  parseAccount (inv_Subject (req_Invocation req)) = Ok account →
  allow = true ∨ billed customers account →
  providerAddWith provision allow customers providers req s =
  match provision providers account (pv_Consumer (req_Arguments req))
          (pv_Provider (req_Arguments req)) (inv_Task (req_Invocation req)) s with
  | (Ok id, s') => (Ok (SetSuccess id None), s')
  | (Err e, s') =>
      (if Is e ErrProviderNotAllowed || Is e ErrConsumerExists then Ok (SetFailure e)
       else Err (Wrap "provisioning service" e), s')
  | (Panic, s') => (Panic, s')
  | (Diverge, s') => (Diverge, s')
  end.
Proof.
  intros Ha Hp. unfold providerAddWith. rewrite M_bind_step. unfold try at 1, reads at 1. rewrite Ha.
  rewrite M_bind_step. unfold try at 1, reads at 1.
  destruct (checkPlan_cases allow customers account) as [[_ ->]|(? & ? & _)];
    [|by destruct Hp as [->|?]].
  rewrite M_bind_step. unfold try.
  destruct (provision _ _ _ _ _ _) as [[id|e| |] s']; [done| |done..].
  by destruct (_ || _).
Qed.
Lemma unknown_key s space provider account id :
  provider ∉ Provisioning.provisioned s space →
  (provider, account, id) ∉ Consumer.key <$> Consumer.records (Provisioning.consumerStore s) space.
Proof.
  intros Hn ([p a i] & Heq & Hin)%list_elem_of_fmap. apply Hn. injection Heq as -> _ _.
  by apply (list_elem_of_fmap_2 Consumer.Provider) in Hin.
Qed.

(** C25: every branch of [/provider/add] over the memory backend: an invocation whose
    subject is no account, one whose account has no payment plan (where one is asked
    for) and one that names a provider that is not allowed are refused and change
    nothing; an account that already provisioned the space with the provider is
    refused with [ErrConsumerExists] and the spaces stay as they are; and a space that
    nobody has provisioned with the provider is provisioned with it, and no other
    space is changed. A space that another account has provisioned is left out: the
    comment of [Provision] has that refused, as the PostgreSQL backend does
    ([pg_providerAdd_refused]), while the memory backend adds a second subscription
    ([Provision_second_account], a divergence). *)
Theorem providerAdd_spec (allow : bool) (customers : Customer.Store Val) (providers : list DID)
    (req : Request ProviderAddArguments) (id : string) (s : Provisioning.State) :
  let args := req_Arguments req in
  let space := pv_Consumer args in
  Provisioning.wf s → Provisioning.NewSubscriptionID space = Ok id →
  let '(r, s') := providerAdd allow customers providers req s in
  match parseAccount (inv_Subject (req_Invocation req)) with
  | Ok account =>
      (allow = false → ¬ billed customers account →
       r = Ok (SetFailure ErrAccountPlanMissing) ∧ s' = s) ∧
      (allow = true ∨ billed customers account →
       (pv_Provider args ∉ providers → r = Ok (SetFailure ErrProviderNotAllowed) ∧ s' = s) ∧
       (pv_Provider args ∈ providers →
        let known := Consumer.key <$> Consumer.records (Provisioning.consumerStore s) space in
        ((pv_Provider args, account, id) ∈ known →
         r = Ok (SetFailure (Wrap "adding consumer" ErrConsumerExists)) ∧
         ∀ sp, Provisioning.provisioned s' sp = Provisioning.provisioned s sp) ∧
        (pv_Provider args ∉ Provisioning.provisioned s space →
         r = Ok (SetSuccess id None) ∧
         ∀ sp, Provisioning.provisioned s' sp = Provisioning.provisioned s sp ++
                 (if decide (sp = space) then [pv_Provider args] else []))))
  | Err err =>
      r = Ok (SetFailure (Named InvalidAccountErrorName ("invalid account DID: " +:+ Error err))) ∧
      s' = s
  | _ => s' = s
  end.
Proof.
  intros args space Hwf Hid.
  destruct (parseAccount (inv_Subject (req_Invocation req))) as [account|err| |] eqn:Ea.
  - destruct (checkPlan_cases allow customers account) as [[Hp _]|(-> & Hb & Hc)].
    + unfold providerAdd. rewrite (providerAddWith_planned _ _ _ _ _ account) by done. fold args space.
      pose proof (Provisioning.Provision_outcomes providers account space (pv_Provider args)
        (inv_Task (req_Invocation req)) id s Hwf Hid) as Hspec.
      destruct (Provisioning.Provision _ _ _ _ _ _) as [r s'].
      destruct Hspec as (Hno & Hold & Hnew).
      assert (∀ r' : outcome (Reply string), (allow = false → ¬ billed customers account →
        r' = Ok (SetFailure ErrAccountPlanMissing) ∧ s' = s)) as Habs by (by destruct Hp as [->|?]).
      destruct (decide (pv_Provider args ∈ providers)) as [Hin|Hin].
      * destruct (decide ((pv_Provider args, account, id) ∈
          Consumer.key <$> Consumer.records (Provisioning.consumerStore s) space)) as [Hk|Hk].
        -- destruct (Hold Hin Hk) as [-> Hs]. split; [apply Habs|]. intros _. split; [done|].
           intros _. split; [|intros Hn; by destruct (unknown_key _ _ _ account id Hn)]. intros _. split; [done|].
           intros sp. unfold Provisioning.provisioned. by rewrite Hs.
        -- destruct (Hnew Hin Hk) as (-> & Hs & Hother & _). split; [apply Habs|]. intros _.
           split; [done|]. intros _. split; [done|]. intros _. split; [done|].
           intros sp. case_decide as Hsp; [by subst|]. by rewrite app_nil_r, Hother.
      * destruct (Hno Hin) as [-> ->]. split; [apply Habs|]. intros _. by split.
    + unfold providerAdd, providerAddWith. rewrite M_bind_step. unfold try at 1, reads at 1. rewrite Ea.
      rewrite M_bind_step. unfold try at 1, reads at 1. rewrite Hc, Is_refl.
      split; [done|]. by intros [?|?].
  - unfold providerAdd, providerAddWith. rewrite M_bind_step. unfold try, reads. by rewrite Ea.
  - unfold providerAdd, providerAddWith. rewrite M_bind_step. unfold try, reads. by rewrite Ea.
  - unfold providerAdd, providerAddWith. rewrite M_bind_step. unfold try, reads. by rewrite Ea.
Qed.

(** C24: a customer the service registered, whose DID is an account's, can provision
    a did:key space with an allowed provider that nobody has provisioned it with,
    where a plan is asked for, over the memory backend: the call answers with the
    subscription, and anyone who then asks for the space's providers is told this one
    beside those it had, each once. *)
Theorem customer_provisions {A} (self : DID) (now : Z) (add : Request CustomerAddArguments)
    (customers customers' : Customer.Store Val) (meta : option Container) (providers : list DID)
    (req : Request ProviderAddArguments) (info : Request A) (id : string)
    (s : Provisioning.State) (fuel : nat) :
  let space := pv_Consumer (req_Arguments req) in
  let provider := pv_Provider (req_Arguments req) in
  let account := cu_Customer (req_Arguments add) in
  customerAdd self now add customers = (Ok (SetSuccess tt meta), customers') →
  Provisioning.wf s → Provisioning.NewSubscriptionID space = Ok id →
  parseAccount (inv_Subject (req_Invocation req)) = Ok account →
  provider ∈ providers →
  provider ∉ Provisioning.provisioned s space →
  inv_Subject (req_Invocation info) = space → String.prefix "did:key:" (did_String space) = true →
  length (Consumer.records (Provisioning.consumerStore s) space) + 1 < fuel →
  (Z.of_nat fuel ≤ max_int64)%Z →
  ∃ s' ps,
    providerAdd false customers' providers req s = (Ok (SetSuccess id None), s') ∧
    spaceInfo fuel s' info = Ok (SetSuccess ps None) ∧ NoDup ps ∧
    ∀ p, p ∈ ps ↔ p ∈ Provisioning.provisioned s space ∨ p = provider.
Proof.
  intros space provider account Hadd Hwf Hid Ha Hin Hk Hinfo Hkey Hf Hmax.
  apply customerAdd_billed in Hadd as [_ Hb].
  apply (unknown_key _ _ _ account id) in Hk. unfold providerAdd.
  rewrite (providerAddWith_planned _ _ _ _ _ account); [|done|right; apply Hb; by right].
  fold space provider.
  pose proof (Provisioning.Provision_outcomes providers account space provider
    (inv_Task (req_Invocation req)) id s Hwf Hid) as Hspec.
  pose proof (Provisioning.wf_Provision providers account space provider
    (inv_Task (req_Invocation req)) s Hwf) as Hwf'.
  destruct (Provisioning.Provision _ _ _ _ _ _) as [r s'].
  destruct Hspec as (_ & _ & Hnew). destruct (Hnew Hin Hk) as (-> & Hs & _ & _).
  assert (length (Consumer.records (Provisioning.consumerStore s') space) =
    length (Consumer.records (Provisioning.consumerStore s) space) + 1) as Hlen.
  { apply (f_equal length) in Hs. unfold Provisioning.provisioned in Hs.
    by rewrite length_app, !length_fmap in Hs. }
  destruct (Provisioning.ListServiceProviders_lists s' space fuel Hwf') as (ps & Hps & Hnd & Hel).
  { unfold len. rewrite Hlen. lia. }
  { by rewrite Hlen. }
  exists s', ps. split; [done|]. unfold spaceInfo. rewrite Hinfo, Hkey, Hps. split_and!; [done..|].
  intros p. by rewrite Hel, Hs, elem_of_app, list_elem_of_singleton.
Qed.
End Spaces.
End Spaces.

(** ** Witnesses *)
Section Witnesses.
#[local] Existing Instances StrIds RecContainers RecUcan StrNames StrErrorText StrAccounts StrHash.
Definition StrSpaceErrors : SpaceErrors := {|
  ErrAccountPlanMissing := Named "AccountPlanMissing" "account has no plan";
  UnknownSpaceErrorName := "UnknownSpace";
|}.
#[local] Existing Instance StrSpaceErrors.

Definition serviceDID : DID := str_did "did:web:sprue".
Definition exampleCustomers : Customer.Store unit := Customer.New.
Definition exampleAdd : Request (Spaces.CustomerAddArguments (Val := unit)) :=
  asks "t1" "did:web:sprue" "did:web:sprue" "/customer/add"
    {| Spaces.cu_Customer := str_did "did:mailto:alice"; Spaces.cu_ExternalAccount := None;
       Spaces.cu_Product := str_did "did:web:free"; Spaces.cu_Details := ∅ |}.
Definition exampleProvider : Request Spaces.ProviderAddArguments :=
  asks "t2" "did:mailto:alice" "did:mailto:alice" "/provider/add"
    {| Spaces.pv_Provider := serviceDID; Spaces.pv_Consumer := str_did "did:key:space" |}.
Definition exampleInfo : Request unit :=
  asks "t3" "did:key:agent" "did:key:space" "/space/info" tt.

Lemma providerAdd_spec_witness :
  Spaces.providerAdd false exampleCustomers [serviceDID] exampleProvider Provisioning.New =
  (Ok (SetFailure ErrAccountPlanMissing), Provisioning.New).
Proof.
  pose proof (Spaces.providerAdd_spec false exampleCustomers [serviceDID] exampleProvider
    "consumer:did:key:space" Provisioning.New Provisioning.provisioning_wf_New eq_refl) as Hp.
  destruct (Spaces.providerAdd _ _ _ _ _) as [r s'].
  destruct Hp as [Hn _]. destruct (Hn eq_refl) as [-> ->]; [|reflexivity].
  intros Hin. inversion Hin.
Defined.

Lemma customer_provisions_witness :
  ∃ s' ps,
    Spaces.providerAdd false (Spaces.customerAdd serviceDID 0 exampleAdd exampleCustomers).2
      [serviceDID] exampleProvider Provisioning.New =
      (Ok (SetSuccess "consumer:did:key:space" None), s') ∧
    Spaces.spaceInfo 5 s' exampleInfo = Ok (SetSuccess ps None) ∧ serviceDID ∈ ps.
Proof.
  destruct (Spaces.customer_provisions serviceDID 0 exampleAdd exampleCustomers
    (Spaces.customerAdd serviceDID 0 exampleAdd exampleCustomers).2 None [serviceDID]
    exampleProvider exampleInfo "consumer:did:key:space" Provisioning.New 5)
    as (s' & ps & Hadd & Hinfo & _ & Hps).
  - vm_compute. reflexivity.
  - apply Provisioning.provisioning_wf_New.
  - reflexivity.
  - reflexivity.
  - left.
  - apply (bool_decide_unpack _). vm_compute. exact I.
  - reflexivity.
  - reflexivity.
  - vm_compute. lia.
  - vm_compute. discriminate.
  - exists s', ps. split; [exact Hadd|]. split; [exact Hinfo|]. apply Hps. right. reflexivity.
Defined.
End Witnesses.
