(* ===== verification/Uploads.v ===== *)
(** * Uploads and listings: [upload_add.go], [upload_list.go], [upload_remove.go],
      [upload_shard_list.go], [blob_list.go]

    A client names the roots of its uploads and the shards of each, and pages
    through them and through the blobs of its space. *)
From S2P Require Export Service Provisioning.
From S2P Require Import Concrete.

Module Uploads.
Section Uploads.
Context `{Env} `{!CursorJSON} `{Commands} `{ErrorNames}.

(** The calls on the upload store, at the instants they read. *)
Definition upsert (space : DID) (root : Cid) (idx : option Cid) (new : list Cid) (cause : Cid)
    : M Node unit := λ n,
  let t := ticks n in
  let '(r, w) := exec (CallUpsert space root idx new cause (clock t) (clock (1 + t)) (clock (2 + t)))
                   (world n) in
  (r, {| ticks := 3 + t; agentStore := agentStore n; world := w |}).
Definition removeRoot (space : DID) (root cause : Cid) : M Node unit := λ n,
  let t := ticks n in
  let '(r, w) := exec (CallRemove space root cause (clock t) (clock (1 + t))) (world n) in
  (r, {| ticks := 2 + t; agentStore := agentStore n; world := w |}).

(** ** [/upload/add] *)
Record AddArguments := { ua_Root : Cid; ua_Index : option Cid; ua_Shards : list Cid }.
Definition uploadAdd (fuel : nat) (provisioning : Provisioning.State) (req : Request AddArguments)
    : M Node (Reply unit) :=
  let args := req_Arguments req in
  let space := inv_Subject (req_Invocation req) in
  let cause := inv_Task (req_Invocation req) in
  provs ← wrap "listing service providers"
            (reads (λ _, Provisioning.ListServiceProviders fuel provisioning space));
  if bool_decide (length provs = 0)
  then mret (SetFailure (Named InsufficientStorageErrorName "space has no service provider"))
  else
    _ ← wrap "upserting upload" (upsert space (ua_Root args) (ua_Index args) (ua_Shards args) cause);
    mret (SetSuccess tt None).

(** ** [/upload/remove]: an unknown root is an idempotent success *)
Definition uploadRemove (req : Request Cid) : M Node (Reply unit) :=
  removed ← try (removeRoot (inv_Subject (req_Invocation req)) (req_Arguments req)
                   (inv_Task (req_Invocation req)));
  match removed with
  | inr err => if Is err ErrUploadNotFound then mret (SetSuccess tt None)
               else fail (Wrap "removing upload" err)
  | inl _ => mret (SetSuccess tt None)
  end.

(** ** The listings; [ls_Size] is the client's, a uint64 *)
Record ListArguments := { ls_Cursor : option string; ls_Size : option Z }.
(** [int( *args.Size)] *)
Definition listOptions (args : ListArguments) : PaginationConfig :=
  {| cfgCursor := ls_Cursor args; cfgLimit := int64 <$> ls_Size args |}.

Definition uploadList (s : Upload.Store) (req : Request ListArguments)
    : outcome (Reply (Page (Cid * option Cid))) :=
  page ← owrap "listing uploads"
           (Upload.List s (inv_Subject (req_Invocation req)) (listOptions (req_Arguments req)));
  Ok (SetSuccess (mkPage (Cursor page) ((λ r, (Upload.Root r, Upload.Index r)) <$> Results page))
        None).

Record ShardListArguments := { sl_Root : Cid; sl_List : ListArguments }.
Definition uploadShardList (s : Upload.Store) (req : Request ShardListArguments)
    : outcome (Reply (Page Cid)) :=
  let args := req_Arguments req in
  page ← owrap "listing upload shards"
           (Upload.ListShards s (inv_Subject (req_Invocation req)) (sl_Root args)
              (listOptions (sl_List args)));
  Ok (SetSuccess page None).

Definition blobList (s : BlobRegistry.Store) (req : Request ListArguments)
    : outcome (Reply (Page (Blob * Z))) :=
  page ← owrap "listing blobs"
           (BlobRegistry.List s (inv_Subject (req_Invocation req)) (listOptions (req_Arguments req)));
  Ok (SetSuccess
        (mkPage (Cursor page)
           ((λ r, (BlobRegistry.blob r, Unix (BlobRegistry.InsertedAt r))) <$> Results page))
        None).

(** ** The accounts *)
Lemma keepsBooks_upsert ok space root idx new cause : keepsBooks ok (upsert space root idx new cause).
Proof.
  intros n. apply rtc_once. unfold upsert.
  pose proof (step_call ok (CallUpsert space root idx new cause (clock (ticks n)) (clock (1 + ticks n))
    (clock (2 + ticks n))) (world n) I) as Hs.
  by destruct (exec _ _) as [r w].
Qed.
Lemma keepsBooks_removeRoot ok space root cause : keepsBooks ok (removeRoot space root cause).
Proof.
  intros n. apply rtc_once. unfold removeRoot.
  pose proof (step_call ok (CallRemove space root cause (clock (ticks n)) (clock (1 + ticks n)))
    (world n) I) as Hs.
  by destruct (exec _ _) as [r w].
Qed.
Lemma keepsBooks_uploadAdd ok fuel provisioning req : keepsBooks ok (uploadAdd fuel provisioning req).
Proof.
  unfold uploadAdd. apply keepsBooks_bind; [auto with books|]. intros provs.
  case_bool_decide; [auto with books|]. apply keepsBooks_bind; [|auto with books].
  apply keepsBooks_wrap, keepsBooks_upsert.
Qed.
Lemma keepsBooks_uploadRemove ok req : keepsBooks ok (uploadRemove req).
Proof.
  unfold uploadRemove. apply keepsBooks_bind; [apply keepsBooks_try, keepsBooks_removeRoot|].
  intros [?|err]; [auto with books|]. destruct (Is err _); auto with books.
Qed.

(** ** What adding and removing leave *)
Definition uploads (n : Node) (space : DID) : list (Cid * option Cid) :=
  Upload.uploaded (uploadStore (world n)) space.
Definition shards (n : Node) (space : DID) (root : Cid) : list Cid :=
  Upload.shardsOf (uploadStore (world n)) space root.

Lemma upsert_spec space root idx new cause n :
  Upload.wf (uploadStore (world n)) →
  ∃ n', upsert space root idx new cause n = (Ok tt, n') ∧
  agentStore n' = agentStore n ∧ registry (world n') = registry (world n) ∧
  Upload.wf (uploadStore (world n')) ∧
  (∀ space' root' i, (root', i) ∈ uploads n' space' ↔
     if decide (space' = space ∧ root' = root) then i = idx else (root', i) ∈ uploads n space') ∧
  (∀ space' root' sh, sh ∈ shards n' space' root' ↔
     sh ∈ shards n space' root' ∨ (space' = space ∧ root' = root) ∧ sh ∈ new).
Proof.
  intros Hwf. unfold upsert, exec, onUploads, uploads, shards.
  pose proof (λ sp r i, Upload.Upsert_uploaded space root idx new cause (clock (ticks n))
    (clock (1 + ticks n)) (clock (2 + ticks n)) _ (ledger (world n)) sp r i Hwf) as Hu.
  pose proof (Upload.Upsert_shards space root idx new cause (clock (ticks n))
    (clock (1 + ticks n)) (clock (2 + ticks n)) (uploadStore (world n)) (ledger (world n))) as Hs.
  pose proof (Upload.wf_Upsert space root idx new cause (clock (ticks n)) (clock (1 + ticks n))
    (clock (2 + ticks n)) _ (ledger (world n)) Hwf) as Hwf'.
  assert ((Upload.Upsert space root idx new cause (clock (ticks n)) (clock (1 + ticks n))
    (clock (2 + ticks n)) (uploadStore (world n), ledger (world n))).1 = Ok tt) as Hr.
  { unfold Upload.Upsert. by destruct (indexFunc _ _). }
  destruct (Upload.Upsert _ _ _ _ _ _ _ _ _) as [r [s l]]. cbn [fst snd] in *. subst r.
  eexists. split; [done|]. cbn [agentStore world registry uploadStore]. split_and!; [done..|].
  intros space' root' sh. rewrite Hs. case_decide as Hd; [|tauto]. destruct Hd as [-> ->].
  unfold sortFunc. rewrite merge_sort_Permutation. unfold Upload.mergeShards, Upload.shardsOf.
  destruct (Upload.shards (uploadStore (world n)) !! space); cbn [mbind option_bind default].
  - rewrite Upload.addShards_In. tauto.
  - rewrite elem_of_nil. tauto.
Qed.
Lemma removeRoot_spec space root cause n :
  Upload.wf (uploadStore (world n)) →
  ∃ n', removeRoot space root cause n =
    (if decide (root ∈ (uploads n space).*1) then Ok tt else Err ErrUploadNotFound, n') ∧
  agentStore n' = agentStore n ∧ registry (world n') = registry (world n) ∧
  (∀ space' root' i, (root', i) ∈ uploads n' space' ↔
     (root', i) ∈ uploads n space' ∧ ¬ (space' = space ∧ root' = root)).
Proof.
  intros Hwf. unfold removeRoot, exec, onUploads, uploads. rewrite Upload.uploaded_roots.
  pose proof (λ sp r i, Upload.Remove_uploaded space root cause (clock (ticks n))
    (clock (1 + ticks n)) _ (ledger (world n)) sp r i Hwf) as Hu.
  assert ((Upload.Remove space root cause (clock (ticks n)) (clock (1 + ticks n))
    (uploadStore (world n), ledger (world n))).1 =
    if decide (root ∈ Upload.roots (uploadStore (world n)) space) then Ok tt
    else Err ErrUploadNotFound) as Hr.
  { case_decide as Hin; [|by rewrite Upload.Remove_absent].
    by destruct (Upload.Remove_present space root cause (clock (ticks n)) (clock (1 + ticks n)) _
      (ledger (world n)) Hin) as (? & ? & ? & _ & _ & ->). }
  destruct (Upload.Remove _ _ _ _ _ _) as [r [s l]]. cbn [fst snd] in *. subst r.
  eexists. by split_and!.
Qed.

Lemma wf_uploadAdd fuel provisioning req n :
  Upload.wf (uploadStore (world n)) →
  Upload.wf (uploadStore (world (uploadAdd fuel provisioning req n).2)).
Proof.
  intros Hwf. unfold uploadAdd. rewrite M_bind_step. unfold wrap at 1, reads.
  destruct (Provisioning.ListServiceProviders _ _ _) as [provs|e| |]; [|done..].
  case_bool_decide; [done|]. rewrite M_bind_step. unfold wrap.
  by destruct (upsert_spec (inv_Subject (req_Invocation req)) (ua_Root (req_Arguments req))
    (ua_Index (req_Arguments req)) (ua_Shards (req_Arguments req))
    (inv_Task (req_Invocation req)) n Hwf) as (n' & -> & _ & _ & Hwf' & _).
Qed.

(** Neither touches the messages or the registry, and both come back. *)
Definition aside {A} (n : Node) (res : outcome A * Node) : Prop :=
  let '(r, n') := res in
  returns r ∧ agentStore n' = agentStore n ∧ registry (world n') = registry (world n).
Lemma upsert_kept space root idx new cause n : aside n (upsert space root idx new cause n).
Proof. unfold upsert, exec, onUploads, Upload.Upsert. by destruct (indexFunc _ _). Qed.
Lemma removeRoot_kept space root cause n : aside n (removeRoot space root cause n).
Proof.
  unfold removeRoot, exec, onUploads, Upload.Remove.
  destruct (Upload.uploads _ !! space) as [us|]; [|done]. by destruct (indexFunc _ _).
Qed.
Lemma uploadAdd_kept fuel provisioning req n :
  returns (Provisioning.ListServiceProviders fuel provisioning (inv_Subject (req_Invocation req))) →
  aside n (uploadAdd fuel provisioning req n).
Proof.
  unfold uploadAdd. rewrite M_bind_step. unfold wrap at 1, reads.
  destruct (Provisioning.ListServiceProviders _ _ _) as [provs|e| |]; [|done..]. intros _.
  case_bool_decide; [done|]. rewrite M_bind_step. unfold wrap.
  pose proof (upsert_kept (inv_Subject (req_Invocation req)) (ua_Root (req_Arguments req))
    (ua_Index (req_Arguments req)) (ua_Shards (req_Arguments req))
    (inv_Task (req_Invocation req)) n) as Hk.
  by destruct (upsert _ _ _ _ _ n) as [[] n'].
Qed.
Lemma uploadRemove_kept req n : aside n (uploadRemove req n).
Proof.
  unfold uploadRemove. rewrite M_bind_step. unfold try.
  pose proof (removeRoot_kept (inv_Subject (req_Invocation req)) (req_Arguments req)
    (inv_Task (req_Invocation req)) n) as Hk.
  destruct (removeRoot _ _ _ n) as [[u|e| |] n']; [done| |done..]. cbv beta iota zeta.
  by destruct (Is e _).
Qed.

(** Adding an upload to a space that nobody serves is refused and changes
    nothing; else the root is listed with the index given now, whatever it was
    before, its shards are the ones it had and the new ones, and no other root or
    space changes; the blobs of the spaces do not change either. *)
Theorem uploadAdd_spec (fuel : nat) (provisioning : Provisioning.State) (req : Request AddArguments)
    (n : Node) (provs : list DID) :
  let space := inv_Subject (req_Invocation req) in
  let args := req_Arguments req in
  Upload.wf (uploadStore (world n)) →
  Provisioning.ListServiceProviders fuel provisioning space = Ok provs →
  let '(r, n') := uploadAdd fuel provisioning req n in
  registry (world n') = registry (world n) ∧
  (provs = [] → n' = n ∧
     r = Ok (SetFailure (Named InsufficientStorageErrorName "space has no service provider"))) ∧
  (provs ≠ [] → r = Ok (SetSuccess tt None) ∧
   (∀ space' root i, (root, i) ∈ uploads n' space' ↔
     if decide (space' = space ∧ root = ua_Root args) then i = ua_Index args
     else (root, i) ∈ uploads n space') ∧
   (∀ space' root sh, sh ∈ shards n' space' root ↔
     sh ∈ shards n space' root ∨ (space' = space ∧ root = ua_Root args) ∧ sh ∈ ua_Shards args)).
Proof.
  intros space args Hwf Hp. unfold uploadAdd. rewrite M_bind_step. unfold wrap at 1, reads.
  fold space args. rewrite Hp. destruct provs as [|p provs]; [done|]. cbn [length].
  rewrite bool_decide_eq_false_2 by done. rewrite M_bind_step. unfold wrap.
  destruct (upsert_spec space (ua_Root args) (ua_Index args) (ua_Shards args)
    (inv_Task (req_Invocation req)) n Hwf) as (n' & -> & _ & Hreg & _ & Hu & Hs).
  split_and!; [done|done|]. intros _. by split_and!.
Qed.

(** Removing an upload always succeeds, also when the space does not have it:
    afterwards the root is not listed, every other one is as it was, and no blob is
    removed. *)
Theorem uploadRemove_spec (req : Request Cid) (n : Node) :
  Upload.wf (uploadStore (world n)) →
  ∃ n', uploadRemove req n = (Ok (SetSuccess tt None), n') ∧
  registry (world n') = registry (world n) ∧
  ∀ space root i, (root, i) ∈ uploads n' space ↔
    (root, i) ∈ uploads n space ∧
    ¬ (space = inv_Subject (req_Invocation req) ∧ root = req_Arguments req).
Proof.
  intros Hwf. unfold uploadRemove. rewrite M_bind_step. unfold try.
  destruct (removeRoot_spec (inv_Subject (req_Invocation req)) (req_Arguments req)
    (inv_Task (req_Invocation req)) n Hwf) as (n' & -> & _ & Hreg & Hu).
  exists n'. split; [|done]. case_decide; [done|]. by rewrite Is_refl.
Qed.

(** ** A client that pages *)
(** The page a handler answered with. *)
Definition answeredPage {A} (r : outcome (Reply (Page A))) : outcome (Page A) :=
  match r with
  | Ok (SetSuccess page _) => Ok page
  | Ok (SetFailure e) | Err e => Err e
  | Panic => Panic
  | Diverge => Diverge
  end.
(** One request of a client that lists [size] at a time from a cursor. *)
Definition listing (inv : Invocation) (size : option Z) (cfg : PaginationConfig)
    : Request ListArguments :=
  {| req_Invocation := inv; req_Metadata := None;
     req_Arguments := {| ls_Cursor := cfgCursor cfg; ls_Size := size |} |}.

Lemma Pages_map {A B} (f : A → B) (g : GetPageFunc A) (h : GetPageFunc B) cur l :
  (∀ c page, g {| cfgCursor := c; cfgLimit := None |} = Ok page →
    h {| cfgCursor := c; cfgLimit := None |} = Ok (mkPage (Cursor page) (f <$> Results page))) →
  Pages g cur l → Pages h cur (f <$> l).
Proof.
  intros Hgh. induction 1 as [cur rs Hg|cur c rs rest Hg Hne _ IH]; apply Hgh in Hg.
  - by constructor.
  - rewrite fmap_app. eapply Pages_more; [done|by destruct rs|done].
Qed.
Lemma limit_int64 (size : nat) : (Z.of_nat size ≤ max_int64)%Z → int64 (Z.of_nat size) = Z.of_nat size.
Proof. intros. apply int64_id. unfold is_int64, max_int64 in *. lia. Qed.

(** A client that lists its uploads, a positive number of them at a time, and
    asks again with the cursor of each page, is served every root once with its
    index, in the order they were first added, and then an end. *)
Theorem uploadList_pages (s : Upload.Store) (inv : Invocation) (size fuel : nat) :
  Upload.wf s → size ≠ 0 → (Z.of_nat size ≤ max_int64)%Z →
  length (Upload.uploaded s (inv_Subject inv)) < fuel →
  Collect (λ cfg, answeredPage (uploadList s (listing inv (Some (Z.of_nat size)) cfg))) fuel =
  Ok (Upload.uploaded s (inv_Subject inv)).
Proof.
  intros Hwf Hne Hmax Hf. apply Collect_Pages; [|done].
  eapply Pages_map; [|apply (Upload.uploads_List_Pages size s (inv_Subject inv) Hne Hwf)].
  intros c page Hpage. unfold uploadList, listing, listOptions.
  cbn [req_Invocation req_Arguments ls_Size ls_Cursor cfgCursor].
  cbn [fmap option_fmap option_map]. rewrite limit_int64 by done.
  cbn [cfgCursor] in Hpage. by rewrite Hpage.
Qed.

(** Listing the blobs of a space with a page size: a size of zero on a space
    that holds any, and one that is negative as an [int], panic; every other size
    pages through the blobs the space holds, each once. *)
Theorem blobList_sizes (s : BlobRegistry.Store) (inv : Invocation) (size : Z) (fuel : nat) :
  BlobRegistry.wf s → is_uint64 size →
  let ents := BlobRegistry.entries s (inv_Subject inv) in
  length ents < fuel →
  let client := Collect (λ cfg, answeredPage (blobList s (listing inv (Some size) cfg))) fuel in
  (size = 0%Z ∧ ents ≠ [] ∨ (max_int64 < size)%Z → client = Panic) ∧
  ((0 < size ≤ max_int64)%Z →
   client = Ok ((λ r, (BlobRegistry.blob r, Unix (BlobRegistry.InsertedAt r))) <$> ents)).
Proof.
  intros Hwf Hsize ents Hf client. split.
  - intros Hbad. subst client. unfold Collect. destruct fuel; [lia|]. cbn [collectLoop].
    unfold blobList, listing, listOptions.
    cbn [req_Invocation req_Arguments ls_Size ls_Cursor cfgCursor fmap option_fmap option_map].
    rewrite BlobRegistry.blobs_List_cut. cbn [mbind outcome_bind]. fold ents.
    rewrite (proj2 (cutPage_panics _ _ _)); [done|]. destruct Hbad as [[-> ?]|Hbig]; [by left|].
    right. unfold is_uint64, max_int64, int64 in *. divmod.
  - intros Hgood. subst client. apply Collect_Pages; [|by rewrite length_fmap].
    eapply Pages_map;
      [|apply (BlobRegistry.blobs_List_Pages (Z.to_nat size) s (inv_Subject inv)); [lia|done]].
    intros c page Hpage. unfold blobList, listing, listOptions.
    cbn [req_Invocation req_Arguments ls_Size ls_Cursor cfgCursor].
    cbn [fmap option_fmap option_map].
    cbn [cfgCursor] in Hpage. rewrite Z2Nat.id in Hpage by lia.
    rewrite int64_id by (unfold is_int64, max_int64 in *; lia). by rewrite Hpage.
Qed.
End Uploads.
End Uploads.

(** ** Witnesses *)
Section Witnesses.
#[local] Existing Instances StrIds NumberJSON StrCommands StrNames RecContainers RecUcan RecForge
  RecEnv StrHash.

Definition exampleUpload : Request Uploads.AddArguments :=
  asks "t1" "did:key:agent" "did:key:space" "/upload/add"
    {| Uploads.ua_Root := str_cid "root"; Uploads.ua_Index := Some (str_cid "index");
       Uploads.ua_Shards := [str_cid "b"; str_cid "a"] |}.
Definition uploadSpace : Provisioning.State :=
  (Provisioning.Provision [str_did "p"] (str_did "a") (str_did "did:key:space") (str_did "p")
     (str_cid "c") Provisioning.New).2.
Definition uploadedNode : Node := (Uploads.uploadAdd 3 uploadSpace exampleUpload freshNode).2.
Definition exampleListing : Invocation := req_Invocation exampleUpload.
Lemma uploadAdd_spec_witness :
  (Uploads.uploadAdd 3 uploadSpace exampleUpload freshNode).1 = Ok (SetSuccess tt None) ∧
  (str_cid "root", Some (str_cid "index")) ∈ Uploads.uploads uploadedNode (str_did "did:key:space").
Proof.
  pose proof (Uploads.uploadAdd_spec 3 uploadSpace exampleUpload freshNode [str_did "p"]
    Upload.uploads_wf_New eq_refl) as Hs.
  unfold uploadedNode. destruct (Uploads.uploadAdd _ _ _ _) as [r n'].
  destruct Hs as (_ & _ & Hok). destruct Hok as (-> & Hu & _); [discriminate|].
  split; [reflexivity|]. apply Hu. vm_compute. reflexivity.
Defined.
Lemma uploadRemove_spec_witness :
  ∃ n', Uploads.uploadRemove (asks "t2" "did:key:agent" "did:key:space" "/upload/remove"
    (str_cid "root")) freshNode = (Ok (SetSuccess tt None), n').
Proof.
  destruct (Uploads.uploadRemove_spec (asks "t2" "did:key:agent" "did:key:space" "/upload/remove"
    (str_cid "root")) freshNode Upload.uploads_wf_New) as (n' & Hn & _).
  exists n'. exact Hn.
Defined.

Definition uploadedStore : Upload.Store := uploadStore (world uploadedNode).
Lemma uploadedStore_wf : Upload.wf uploadedStore.
Proof. apply Uploads.wf_uploadAdd, Upload.uploads_wf_New. Qed.
Lemma uploadList_pages_witness :
  Collect (λ cfg, Uploads.answeredPage (Uploads.uploadList uploadedStore
    (Uploads.listing exampleListing (Some 1%Z) cfg))) 2 =
  Ok [(str_cid "root", Some (str_cid "index"))].
Proof.
  apply (Uploads.uploadList_pages uploadedStore exampleListing 1 2 uploadedStore_wf).
  - discriminate.
  - vm_compute. discriminate.
  - vm_compute. lia.
Defined.

Definition digest1 : Multihash := "d1".
Definition oneBlob : BlobRegistry.Store := {| BlobRegistry.blobs := <[str_did "did:key:space" :=
  [{| BlobRegistry.Space := str_did "did:key:space";
      BlobRegistry.blob := {| Digest := digest1; BlobSize := 5 |};
      BlobRegistry.Cause := str_cid "c"; BlobRegistry.InsertedAt := (7 * Second)%Z |}]]> ∅ |}.
Lemma oneBlob_wf : BlobRegistry.wf oneBlob.
Proof.
  intros space. unfold BlobRegistry.digests, oneBlob. rewrite BlobRegistry.blobs_entries_insert.
  case_decide; [apply NoDup_singleton|apply (BlobRegistry.blobs_wf_New space)].
Qed.
Lemma blobList_sizes_witness :
  Collect (λ cfg, Uploads.answeredPage (Uploads.blobList oneBlob
    (Uploads.listing exampleListing (Some 0%Z) cfg))) 2 = Panic ∧
  Collect (λ cfg, Uploads.answeredPage (Uploads.blobList oneBlob
    (Uploads.listing exampleListing (Some 1%Z) cfg))) 2 =
  Ok [({| Digest := digest1; BlobSize := 5 |}, 7%Z)].
Proof.
  split.
  - apply (Uploads.blobList_sizes oneBlob exampleListing 0 2 oneBlob_wf).
    + split; [discriminate|reflexivity].
    + vm_compute. lia.
    + left. split; [reflexivity|]. intros Hn. vm_compute in Hn. discriminate.
  - apply (Uploads.blobList_sizes oneBlob exampleListing 1 2 oneBlob_wf).
    + split; [discriminate|reflexivity].
    + vm_compute. lia.
    + split; [reflexivity|discriminate].
Defined.
End Witnesses.
