(* ===== verification/Admin.v ===== *)
(** * Provider administration: [admin_provider_register.go],
      [admin_provider_deregister.go], [admin_provider_list.go],
      [admin_provider_proofs_set.go], [admin_provider_weight_set.go]

    The service identity registers the storage nodes, weighs them, replaces the
    proofs they granted and lets them go. *)
From S2P Require Export Service Routing Texts PiriClient.
From S2P Require Import Concrete.

Class AdminCodecs `{LibForge} := {
  (** [pdp.Info.Command] *)
  cmd_PDPInfo : string;
  (** [container.Decode] *)
  container_Decode : string → outcome Container;
}.

Module Admin.
Section Admin.
Context `{AdminCodecs} `{Urls} `{ErrorText}.

(** [now] is the instant the store reads. *)
Context (id : Issuer) (now : Z).
Abbreviation Store := StorageProvider.Store.

Definition initialWeight : Z := 0.
Definition initialReplicationWeight : Z := 0.
Definition requiredProofs : list string :=
  [cmd_Allocate; cmd_Accept; cmd_Release; cmd_Reject; cmd_ReplicaAllocate; cmd_PDPInfo].

Definition InvalidProofs (msg : string) : error := Named "InvalidProofs" msg.
Definition Unauthorized (msg : string) : error := Named "Unauthorized" msg.
Definition unauthorized {A} (req : Request A) : bool :=
  bool_decide (inv_Issuer (req_Invocation req) ≠ issuer_DID id).

Fixpoint verifyLoop (service provider : DID) (proofs : Container) (cmds : list string)
    : outcome unit :=
  match cmds with
  | [] => Ok tt
  | cmd :: cmds =>
      match ProofChain proofs service cmd provider with
      | Err err => Err (InvalidProofs ("building proof chain for " +:+ cmd +:+ ": " +:+ Error err))
      | Ok (chain, _) =>
          if bool_decide (length chain = 0)
          then Err (InvalidProofs ("missing required " +:+ cmd +:+ " delegation"))
          else verifyLoop service provider proofs cmds
      | Panic => Panic
      | Diverge => Diverge
      end
  end.
Definition verifyProviderProofs (service provider : DID) (proofs : Container) : outcome unit :=
  verifyLoop service provider proofs requiredProofs.

(** ** [/admin/provider/register] *)
Record RegisterArguments := { rg_Provider : DID; rg_Endpoint : string; rg_Proofs : string }.
Definition adminProviderRegister (req : Request RegisterArguments) : M Store (Reply unit) :=
  let args := req_Arguments req in
  if unauthorized req
  then mret (SetFailure (Unauthorized "only the service identity can register providers"))
  else
    endpoint ← try (reads (λ _, url_Parse (rg_Endpoint args)));
    match endpoint with
    | inr err => mret (SetFailure (Named "InvalidEndpoint" ("parsing endpoint: " +:+ Error err)))
    | inl endpoint =>
        proofs ← try (reads (λ _, container_Decode (rg_Proofs args)));
        match proofs with
        | inr err => mret (SetFailure (InvalidProofs ("decoding proofs: " +:+ Error err)))
        | inl proofs =>
            verified ← try (reads (λ _,
              verifyProviderProofs (issuer_DID id) (rg_Provider args) proofs));
            match verified with
            | inr err => mret (SetFailure err)
            | inl _ =>
                added ← try (StorageProvider.Add (rg_Provider args) endpoint initialWeight
                               (Some initialReplicationWeight) (Some proofs) now);
                match added with
                | inr err =>
                    if Is err ErrStorageProviderExists
                    then mret (SetFailure (Named "ProviderAlreadyRegistered"
                                "a provider with this DID is already registered"))
                    else fail err
                | inl _ => mret (SetSuccess tt None)
                end
            end
        end
    end.

(** ** [/admin/provider/deregister] *)
Definition adminProviderDeregister (req : Request DID) : M Store (Reply unit) :=
  if unauthorized req
  then mret (SetFailure (Unauthorized "only the service identity can deregister a provider"))
  else
    deleted ← try (StorageProvider.Delete (req_Arguments req));
    match deleted with
    | inr err => if Is err ErrStorageProviderNotFound then mret (SetFailure err) else fail err
    | inl _ => mret (SetSuccess tt None)
    end.

(** ** [/admin/provider/list] *)
Record Provider := {
  pr_Provider : DID; pr_Endpoint : string; pr_Weight : Z; pr_ReplicationWeight : Z;
}.
Definition providerOf (p : StorageProvider.Record_) : Provider := {|
  pr_Provider := StorageProvider.Provider p; pr_Endpoint := StorageProvider.Endpoint p;
  pr_Weight := int64 (StorageProvider.Weight p);
  pr_ReplicationWeight :=
    int64 (default (StorageProvider.Weight p) (StorageProvider.ReplicationWeight p));
|}.
Definition adminProviderList {A} (fuel : nat) (req : Request A) : M Store (Reply (list Provider)) :=
  if unauthorized req
  then mret (SetFailure (Unauthorized "only the service identity can list providers"))
  else
    records ← reads (λ s, Collect (λ options, StorageProvider.List s
                 {| cfgCursor := cfgCursor options; cfgLimit := None |}) fuel);
    mret (SetSuccess (providerOf <$> records) None).

(** ** [/admin/provider/proofs/set] *)
Record SetProofsArguments := { sp_Provider : DID; sp_Proofs : string }.
Definition adminProviderProofsSet (req : Request SetProofsArguments) : M Store (Reply unit) :=
  let args := req_Arguments req in
  if unauthorized req
  then mret (SetFailure (Unauthorized "only the service identity can set provider proofs"))
  else
    ct ← try (reads (λ _, container_Decode (sp_Proofs args)));
    match ct with
    | inr err => mret (SetFailure (InvalidProofs ("decoding proofs: " +:+ Error err)))
    | inl ct =>
        verified ← try (reads (λ _,
          verifyProviderProofs (issuer_DID id) (sp_Provider args) ct));
        match verified with
        | inr err => mret (SetFailure err)
        | inl _ =>
            set ← try (StorageProvider.SetProofs (sp_Provider args) (Some ct) now);
            match set with
            | inr err =>
                if Is err ErrStorageProviderNotFound
                then mret (SetFailure (Named "ProviderNotFound"
                       ("provider " +:+ did_String (sp_Provider args) +:+ " is not registered")))
                else fail err
            | inl _ => mret (SetSuccess tt None)
            end
        end
    end.

(** ** [/admin/provider/weight/set]; the weights are int64s *)
Record SetWeightArguments := { sw_Provider : DID; sw_Weight : Z; sw_ReplicationWeight : Z }.
Definition adminProviderWeightSet (req : Request SetWeightArguments) : M Store (Reply unit) :=
  let args := req_Arguments req in
  if unauthorized req
  then mret (SetFailure (Unauthorized "only the service identity can set provider weights"))
  else
    set ← try (StorageProvider.SetWeights (sw_Provider args) (sw_Weight args)
                 (Some (sw_ReplicationWeight args)) now);
    match set with
    | inr err =>
        if Is err ErrStorageProviderNotFound
        then mret (SetFailure (Named "Failed to get existing provider" (Error err)))
        else fail err
    | inl _ => mret (SetSuccess tt None)
    end.

(** ** What the registry holds *)
(** A chain of delegations from the provider to the service for a command. *)
Definition chained (provider : DID) (proofs : Container) (cmd : string) : Prop :=
  ∃ chain links, ProofChain proofs (issuer_DID id) cmd provider = Ok (chain, links) ∧ chain ≠ [].
Definition trusted (s : Store) : Prop :=
  map_Forall (λ d r, StorageProvider.Provider r = d ∧
    Forall (chained d (StorageProvider.Proofs r)) requiredProofs) (StorageProvider.providers s).

Lemma verifyLoop_chained provider proofs cmds :
  verifyLoop (issuer_DID id) provider proofs cmds = Ok tt ↔ Forall (chained provider proofs) cmds.
Proof.
  induction cmds as [|cmd cmds IH]; [by split|]. cbn [verifyLoop]. rewrite Forall_cons.
  unfold chained at 1. destruct (ProofChain _ _ _ _) as [[chain links]|e| |].
  - case_bool_decide as Hl.
    + apply length_zero_iff_nil in Hl as ->. split; [done|]. intros [(? & ? & [= <- _] & ?) _]. done.
    + rewrite IH. split; [|by intros [_ ?]]. intros ?. split; [|done]. exists chain, links.
      split; [done|]. by intros ->.
  - split; [done|]. by intros [(? & ? & ? & _) _].
  - split; [done|]. by intros [(? & ? & ? & _) _].
  - split; [done|]. by intros [(? & ? & ? & _) _].
Qed.

(** What each handler does to the providers, and when it does it. *)
Lemma register_cases req s :
  let args := req_Arguments req in
  let '(r, s') := adminProviderRegister req s in
  (r = Ok (SetSuccess tt None) ∧ unauthorized req = false ∧
   StorageProvider.providers s !! rg_Provider args = None ∧
   ∃ endpoint proofs, url_Parse (rg_Endpoint args) = Ok endpoint ∧
     container_Decode (rg_Proofs args) = Ok proofs ∧
     Forall (chained (rg_Provider args) proofs) requiredProofs ∧
     StorageProvider.providers s' = <[rg_Provider args :=
       {| StorageProvider.Provider := rg_Provider args; StorageProvider.Endpoint := endpoint;
          StorageProvider.Weight := 0; StorageProvider.ReplicationWeight := Some 0%Z;
          StorageProvider.Proofs := proofs; StorageProvider.InsertedAt := now;
          StorageProvider.UpdatedAt := now |}]> (StorageProvider.providers s)) ∨
  (s' = s ∧ ∀ u m, r ≠ Ok (SetSuccess u m)).
Proof.
  intros args. unfold adminProviderRegister. fold args.
  destruct (unauthorized req) eqn:Eu; [by right|]. rewrite M_bind_step. unfold try at 1, reads at 1.
  destruct (url_Parse _) as [endpoint|e| |]; [|by right..].
  rewrite M_bind_step. unfold try at 1, reads at 1.
  destruct (container_Decode _) as [proofs|e| |]; [|by right..].
  rewrite M_bind_step. unfold try at 1, reads at 1.
  destruct (verifyProviderProofs _ _ _) as [[]|e| |] eqn:Ev; [|by right..].
  apply verifyLoop_chained in Ev. rewrite M_bind_step. unfold try, StorageProvider.Add.
  destruct (StorageProvider.providers s !! _) as [rec|] eqn:Er; [cbv beta iota zeta; rewrite Is_refl; by right|].
  left. split_and!; [done..|]. exists endpoint, proofs. by split_and!.
Qed.
Lemma proofsSet_cases req s :
  let args := req_Arguments req in
  let '(r, s') := adminProviderProofsSet req s in
  (r = Ok (SetSuccess tt None) ∧ unauthorized req = false ∧
   ∃ rec proofs, StorageProvider.providers s !! sp_Provider args = Some rec ∧
     container_Decode (sp_Proofs args) = Ok proofs ∧
     Forall (chained (sp_Provider args) proofs) requiredProofs ∧
     StorageProvider.providers s' = <[sp_Provider args :=
       {| StorageProvider.Provider := StorageProvider.Provider rec;
          StorageProvider.Endpoint := StorageProvider.Endpoint rec;
          StorageProvider.Weight := StorageProvider.Weight rec;
          StorageProvider.ReplicationWeight := StorageProvider.ReplicationWeight rec;
          StorageProvider.Proofs := proofs;
          StorageProvider.InsertedAt := StorageProvider.InsertedAt rec;
          StorageProvider.UpdatedAt := now |}]> (StorageProvider.providers s)) ∨
  (s' = s ∧ ∀ u m, r ≠ Ok (SetSuccess u m)).
Proof.
  intros args. unfold adminProviderProofsSet. fold args.
  destruct (unauthorized req) eqn:Eu; [by right|]. rewrite M_bind_step. unfold try at 1, reads at 1.
  destruct (container_Decode _) as [proofs|e| |]; [|by right..].
  rewrite M_bind_step. unfold try at 1, reads at 1.
  destruct (verifyProviderProofs _ _ _) as [[]|e| |] eqn:Ev; [|by right..].
  apply verifyLoop_chained in Ev. rewrite M_bind_step. unfold try, StorageProvider.SetProofs.
  destruct (StorageProvider.providers s !! _) as [rec|] eqn:Er; [|cbv beta iota zeta; rewrite Is_refl; by right].
  left. split_and!; [done..|]. exists rec, proofs. by split_and!.
Qed.
Lemma weightSet_cases req s :
  let args := req_Arguments req in
  let '(r, s') := adminProviderWeightSet req s in
  (r = Ok (SetSuccess tt None) ∧ unauthorized req = false ∧
   ∃ rec, StorageProvider.providers s !! sw_Provider args = Some rec ∧
     StorageProvider.providers s' = <[sw_Provider args :=
       {| StorageProvider.Provider := StorageProvider.Provider rec;
          StorageProvider.Endpoint := StorageProvider.Endpoint rec;
          StorageProvider.Weight := sw_Weight args;
          StorageProvider.ReplicationWeight := Some (sw_ReplicationWeight args);
          StorageProvider.Proofs := StorageProvider.Proofs rec;
          StorageProvider.InsertedAt := StorageProvider.InsertedAt rec;
          StorageProvider.UpdatedAt := now |}]> (StorageProvider.providers s)) ∨
  (s' = s ∧ ∀ u m, r ≠ Ok (SetSuccess u m)).
Proof.
  intros args. unfold adminProviderWeightSet. fold args.
  destruct (unauthorized req) eqn:Eu; [by right|]. rewrite M_bind_step.
  unfold try, StorageProvider.SetWeights.
  destruct (StorageProvider.providers s !! _) as [rec|] eqn:Er; [|cbv beta iota zeta; rewrite Is_refl; by right].
  left. split_and!; [done..|]. by exists rec.
Qed.
Lemma deregister_cases req s :
  let '(r, s') := adminProviderDeregister req s in
  (r = Ok (SetSuccess tt None) ∧ unauthorized req = false ∧
   StorageProvider.providers s' = delete (req_Arguments req) (StorageProvider.providers s)) ∨
  (s' = s ∧ ∀ u m, r ≠ Ok (SetSuccess u m)).
Proof.
  unfold adminProviderDeregister.
  destruct (unauthorized req) eqn:Eu; [by right|]. rewrite M_bind_step.
  unfold try, StorageProvider.Delete.
  destruct (StorageProvider.providers s !! _) as [rec|] eqn:Er; [by left|cbv beta iota zeta; rewrite Is_refl; by right].
Qed.
End Admin.

(** ** A node's life *)
Section Life.
Context `{AdminCodecs} `{Urls} `{ErrorText} (id : Issuer).
Import StorageProvider.

(** The registry changes by these handlers alone, each at some instant. *)
Inductive step : Store → Store → Prop :=
  | step_register now req s : step s (adminProviderRegister id now req s).2
  | step_deregister req s : step s (adminProviderDeregister id req s).2
  | step_proofsSet now req s : step s (adminProviderProofsSet id now req s).2
  | step_weightSet now req s : step s (adminProviderWeightSet id now req s).2.

Lemma trusted_step s s' : step s s' → trusted id s → trusted id s'.
Proof.
  intros [now req s0|req s0|now req s0|now req s0] Ht.
  - pose proof (register_cases id now req s0) as Hc.
    destruct (adminProviderRegister id now req s0) as [r s1]. cbn [snd] in *.
    destruct Hc as [(_ & _ & _ & ep & prfs & _ & _ & Hall & Hs)|[-> _]]; [|done].
    unfold trusted. rewrite Hs. by apply map_Forall_insert_2.
  - pose proof (deregister_cases id req s0) as Hc.
    destruct (adminProviderDeregister id req s0) as [r s1]. cbn [snd] in *.
    destruct Hc as [(_ & _ & Hs)|[-> _]]; [|done].
    unfold trusted. rewrite Hs. by apply map_Forall_delete.
  - pose proof (proofsSet_cases id now req s0) as Hc.
    destruct (adminProviderProofsSet id now req s0) as [r s1]. cbn [snd] in *.
    destruct Hc as [(_ & _ & rec & prfs & Hrec & _ & Hall & Hs)|[-> _]]; [|done].
    unfold trusted. rewrite Hs. apply map_Forall_insert_2; [|done].
    split; [by apply (Ht _ rec)|done].
  - pose proof (weightSet_cases id now req s0) as Hc.
    destruct (adminProviderWeightSet id now req s0) as [r s1]. cbn [snd] in *.
    destruct Hc as [(_ & _ & rec & Hrec & Hs)|[-> _]]; [|done].
    unfold trusted. rewrite Hs. apply map_Forall_insert_2; [|done]. by apply (Ht _ rec).
Qed.
Lemma trusted_reachable s : rtc step New s → trusted id s.
Proof.
  intros Hs. assert (trusted id New) as Hnew by apply map_Forall_empty. revert Hnew.
  induction Hs as [|s1 s2 s3 Hstep _ IH]; [done|]. intros Ht. by eapply IH, trusted_step.
Qed.
Lemma trusted_wf s : trusted id s → wf s.
Proof. intros Ht d r Hr. by apply (Ht d r). Qed.

(** What the service is told: every provider, in the order of their DIDs. *)
Lemma adminProviderList_all {A} (fuel : nat) (req : Request A) (s : Store) :
  wf s → inv_Issuer (req_Invocation req) = issuer_DID id → length (sorted s) < fuel →
  adminProviderList id fuel req s = (Ok (SetSuccess (providerOf <$> sorted s) None), s).
Proof.
  intros Hwf Hi Hf. unfold adminProviderList, unauthorized.
  rewrite bool_decide_eq_false_2 by (by intros ?). rewrite M_bind_step. unfold reads.
  rewrite (Collect_Pages _ (sorted s)); [done| |done].
  eapply Pages_ext; [|apply (providers_List_Pages s Hwf)]. done.
Qed.

(** C10: every node the service may send a blob to has granted it every command it
    will invoke: however the registry came about through the administration's
    commands, each provider is filed under its own DID with proofs that hold a chain
    of delegations from it to the service to allocate, to accept, to release, to
    reject and to replicate a blob and to report its PDP state; and the service's
    client of that node finds such a chain whenever it allocates, accepts, releases or
    rejects. *)
Theorem providers_trusted (s : Store) :
  rtc step New s →
  ∀ d r, providers s !! d = Some r →
    Provider r = d ∧
    chained id d (Proofs r) cmd_Allocate ∧ chained id d (Proofs r) cmd_Accept ∧
    chained id d (Proofs r) cmd_Release ∧ chained id d (Proofs r) cmd_Reject ∧
    chained id d (Proofs r) cmd_ReplicaAllocate ∧ chained id d (Proofs r) cmd_PDPInfo ∧
    ∀ cl cmd t, PiriClient.piriDID cl = d → PiriClient.issuer cl = id →
      cmd ∈ [cmd_Allocate; cmd_Accept; cmd_Release; cmd_Reject] →
      ∃ chain links, chain ≠ [] ∧
        PiriClient.proofChain cl (Proofs r) cmd (PiriClient.piriDID cl) t = (Ok (chain, links), t).
Proof.
  intros Hs d r Hr. destruct (trusted_reachable s Hs d r Hr) as [Hd Hall].
  unfold requiredProofs in Hall. rewrite !Forall_cons in Hall.
  destruct Hall as (Hal & Hac & Hre & Hrj & Hra & Hpdp & _). split_and!; [done..|].
  intros cl cmd t Hcl Hid Hin. assert (chained id d (Proofs r) cmd) as (chain & links & Hc & Hne).
  { by rewrite !elem_of_cons, elem_of_nil in Hin; destruct Hin as [->|[->|[->|[->|?]]]]. }
  exists chain, links. split; [done|]. unfold PiriClient.proofChain, wrap, reads.
  by rewrite Hid, Hcl, Hc.
Qed.

(** ** Who may administer, and what a registration does to routing *)
Definition weighed (s : Store) : list Record_ := filter (λ r, 0 < Weight r)%Z (sorted s).
(** Only the providers of positive weight matter to a selection. *)
Lemma SelectStorageProvider_weighed (k k' : Kept) rand fuel fuel' ps space exclusions :
  weighed (kept_store k) = weighed (kept_store k') →
  length (listing k) < fuel → length (listing k') < fuel' →
  Routing.SelectStorageProvider k rand fuel ps space exclusions =
  Routing.SelectStorageProvider k' rand fuel' ps space exclusions.
Proof.
  intros Heq Hf Hf'. unfold Routing.SelectStorageProvider.
  rewrite !Routing.listProviders_listing by done. cbn [mbind outcome_bind].
  destruct (Routing.resolvePolicy ps space) as [policy|e| |]; cbn [mbind outcome_bind]; [|done..].
  assert (∀ l, Routing.filterExcludedProviders
      (match policy with
       | Some policy => Routing.filterToCandidates l (RoutingPolicy.Candidates policy)
       | None => l
       end) exclusions =
    Routing.filterExcludedProviders
      (match policy with
       | Some policy => Routing.filterToCandidates (filter (λ r, 0 < Weight r)%Z l)
                          (RoutingPolicy.Candidates policy)
       | None => filter (λ r, 0 < Weight r)%Z l
       end) exclusions) as Hpos.
  { intros l. rewrite !Routing.filterExcluded_filter.
    destruct policy as [policy|]; unfold Routing.filterToCandidates; rewrite !list_filter_filter;
      apply list_filter_iff; intros r; tauto. }
  rewrite (Hpos (listing k)), (Hpos (listing k')). unfold weighed in Heq.
  change (listing k) with (sorted (kept_store k)).
  change (listing k') with (sorted (kept_store k')). by rewrite Heq.
Qed.
Lemma weighed_insert s s' d r :
  wf s → wf s' → providers s !! d = None → providers s' = <[d := r]> (providers s) →
  (Weight r ≤ 0)%Z → weighed s' = weighed s.
Proof.
  intros Hwf Hwf' Hd Hs Hw. unfold weighed. apply (StronglySorted_unique_strong recordLe).
  - intros r1 r2 [_ Hin1]%list_elem_of_filter [_ Hin2]%list_elem_of_filter Hle Hle'.
    apply elem_of_sorted in Hin1 as [d1 Hin1], Hin2 as [d2 Hin2]. unfold recordLe in *.
    assert (Provider r1 = Provider r2) as Heq.
    { apply (inj did_String). by apply (anti_symm String.le). }
    rewrite (Hwf' d1 r1 Hin1), (Hwf d2 r2 Hin2) in Heq. subst d2. rewrite Hs in Hin1.
    destruct (decide (d = d1)) as [->|Hne]; [by rewrite Hd in Hin2|].
    rewrite lookup_insert_ne in Hin1 by done. congruence.
  - apply StronglySorted_filter, sorted_sorted.
  - apply StronglySorted_filter, sorted_sorted.
  - rewrite !sorted_perm, Hs, map_to_list_insert by done. cbn [fmap list_fmap].
    by rewrite filter_cons_False by (cbn; lia).
Qed.

(** Registering a node moves no blob: it is listed with weight zero, and every
    selection of a provider answers as before; a selection may only consider it once
    the administration weighs it. *)
Theorem registered_idle (now : Z) (req : Request RegisterArguments) (k k' : Kept)
    (meta : option Container) :
  let d := rg_Provider (req_Arguments req) in
  adminProviderRegister id now req (kept_store k) = (Ok (SetSuccess tt meta), kept_store k') →
  (∃ r, sp_Get k' d = Ok r ∧ Weight r = 0%Z) ∧
  (∀ rand ps space exclusions fuel fuel',
    length (listing k) < fuel → length (listing k') < fuel' →
    Routing.SelectStorageProvider k' rand fuel' ps space exclusions =
    Routing.SelectStorageProvider k rand fuel ps space exclusions) ∧
  ∀ now' (set : Request SetWeightArguments) (k2 : Kept) meta2,
    sw_Provider (req_Arguments set) = d → (0 < sw_Weight (req_Arguments set))%Z →
    adminProviderWeightSet id now' set (kept_store k') = (Ok (SetSuccess tt meta2), kept_store k2) →
    ∃ r, Routing.eligible k2 None [] r ∧ Provider r = d.
Proof.
  intros d Hreg. pose proof (register_cases id now req (kept_store k)) as Hc. rewrite Hreg in Hc.
  destruct Hc as [(_ & _ & Hnone & ep & prfs & _ & _ & _ & Hs)|[_ Hn]]; [|by destruct (Hn tt meta)].
  split_and!.
  - eexists. split; [cbn; unfold Get; by rewrite Hs, lookup_insert_eq|done].
  - intros rand ps space exclusions fuel fuel' Hf Hf'.
    apply SelectStorageProvider_weighed; [|done..].
    eapply weighed_insert; [apply kept_wf|apply kept_wf|exact Hnone|exact Hs|done].
  - intros now' set k2 meta2 Hd Hw Hset.
    pose proof (weightSet_cases id now' set (kept_store k')) as Hc. rewrite Hset in Hc.
    destruct Hc as [(_ & _ & rec & Hrec & Hs2)|[_ Hn]]; [|by destruct (Hn tt meta2)].
    eexists. split; [split_and!|].
    + cbn. apply elem_of_sorted. exists d. rewrite Hs2, Hd. apply lookup_insert_eq.
    + done.
    + apply not_elem_of_nil.
    + done.
    + cbn [Provider]. rewrite (kept_wf k' _ _ Hrec). by rewrite Hd.
Qed.

(** Only the service's own identity administers the providers: an invocation
    anyone else issued is refused as unauthorized by every command, learns nothing
    and changes nothing. *)
Theorem admin_unauthorized (now : Z) (fuel : nat) (s : Store) (issuer : DID) :
  issuer ≠ issuer_DID id →
  (∀ req, inv_Issuer (req_Invocation req) = issuer →
     ∃ msg, adminProviderRegister id now req s = (Ok (SetFailure (Unauthorized msg)), s)) ∧
  (∀ req, inv_Issuer (req_Invocation req) = issuer →
     ∃ msg, adminProviderDeregister id req s = (Ok (SetFailure (Unauthorized msg)), s)) ∧
  (∀ A (req : Request A), inv_Issuer (req_Invocation req) = issuer →
     ∃ msg, adminProviderList id fuel req s = (Ok (SetFailure (Unauthorized msg)), s)) ∧
  (∀ req, inv_Issuer (req_Invocation req) = issuer →
     ∃ msg, adminProviderProofsSet id now req s = (Ok (SetFailure (Unauthorized msg)), s)) ∧
  (∀ req, inv_Issuer (req_Invocation req) = issuer →
     ∃ msg, adminProviderWeightSet id now req s = (Ok (SetFailure (Unauthorized msg)), s)).
Proof.
  intros Hne.
  assert (∀ A (req : Request A), inv_Issuer (req_Invocation req) = issuer →
    unauthorized id req = true) as Hu.
  { intros A req <-. by apply bool_decide_eq_true. }
  unfold adminProviderRegister, adminProviderDeregister, adminProviderList,
    adminProviderProofsSet, adminProviderWeightSet.
  split_and!; intros; rewrite Hu by done; by eexists.
Qed.
End Life.
End Admin.

(** ** Witnesses *)
Section Witnesses.
#[local] Existing Instances StrIds NumberJSON StrCommands StrErrorText StrUrls RecContainers RecUcan
  RecForge RecEnv.

(** The text of a node's proofs is its DID: it granted everything asked for. *)
Definition grantAll (node : string) : Container := {| rc_invs := []; rc_rcpts := [];
  rc_dlgs := (λ cmd, {| t_task := ""; t_issuer := node; t_subject := node;
    t_audience := "did:web:sprue"; t_command := cmd; t_args := ""; t_nonce := "1" |}) <$>
    [cmd_Allocate; cmd_Accept; cmd_Release; cmd_Reject; cmd_ReplicaAllocate; "/pdp/info"] |}.
Definition RecAdmin : AdminCodecs :=
  {| cmd_PDPInfo := "/pdp/info"; container_Decode s := Ok (grantAll s) |}.
#[local] Existing Instances RecAdmin StorageProvider.Kept_Reads.

Definition exampleRegister : Request Admin.RegisterArguments :=
  asks "t1" "did:web:sprue" "did:web:sprue" "/admin/provider/register"
    {| Admin.rg_Provider := str_did "did:web:node"; Admin.rg_Endpoint := "https://node";
       Admin.rg_Proofs := "did:web:node" |}.
Definition registeredStore : StorageProvider.Store :=
  (Admin.adminProviderRegister sprue 5 exampleRegister StorageProvider.New).2.
Lemma registeredStore_reachable : rtc (Admin.step sprue) StorageProvider.New registeredStore.
Proof. apply rtc_once, Admin.step_register. Qed.
Lemma registeredStore_wf : StorageProvider.wf registeredStore.
Proof.
  apply (Admin.trusted_wf sprue). eapply Admin.trusted_step; [apply Admin.step_register|].
  apply map_Forall_empty.
Qed.

Lemma providers_trusted_witness :
  ∃ r, StorageProvider.providers registeredStore !! str_did "did:web:node" = Some r ∧
    Admin.chained sprue (str_did "did:web:node") (StorageProvider.Proofs r) cmd_Release ∧
    Admin.chained sprue (str_did "did:web:node") (StorageProvider.Proofs r) cmd_PDPInfo.
Proof.
  destruct (StorageProvider.providers registeredStore !! str_did "did:web:node") as [r|] eqn:E;
    [|vm_compute in E; discriminate E].
  exists r. split; [reflexivity|].
  destruct (Admin.providers_trusted sprue registeredStore registeredStore_reachable _ _ E)
    as (_ & _ & _ & Hrelease & _ & _ & Hpdp & _).
  split; [exact Hrelease|exact Hpdp].
Defined.

Definition emptyKept : StorageProvider.Kept :=
  {| StorageProvider.kept_store := StorageProvider.New;
     StorageProvider.kept_wf := StorageProvider.providers_wf_New |}.
Definition registeredKept : StorageProvider.Kept :=
  {| StorageProvider.kept_store := registeredStore;
     StorageProvider.kept_wf := registeredStore_wf |}.
Lemma registered_idle_witness :
  Routing.SelectStorageProvider registeredKept (λ _, 0%Z) 5 RoutingPolicy.New
    (str_did "did:key:space") [] =
  Routing.SelectStorageProvider emptyKept (λ _, 0%Z) 5 RoutingPolicy.New
    (str_did "did:key:space") [].
Proof.
  destruct (Admin.registered_idle sprue 5 exampleRegister emptyKept registeredKept None)
    as (_ & Hsel & _).
  - apply injective_projections; [vm_compute; reflexivity|reflexivity].
  - apply Hsel; vm_compute; lia.
Defined.

Lemma admin_unauthorized_witness :
  ∃ msg, Admin.adminProviderDeregister sprue
    (asks "t2" "did:key:agent" "did:web:sprue" "/admin/provider/deregister"
       (str_did "did:web:node")) registeredStore =
    (Ok (SetFailure (Admin.Unauthorized msg)), registeredStore).
Proof.
  destruct (Admin.admin_unauthorized sprue 5 5 registeredStore (str_did "did:key:agent"))
    as (_ & Hd & _); [discriminate|].
  apply Hd. reflexivity.
Defined.
End Witnesses.
