(* ===== verification/RoutingCommands.v ===== *)
(** * Routing commands: [routing_put.go], [routing_use.go]

    The owner of a policy names the storage nodes that may take its blobs; the
    owner of a space puts the space under a policy or takes it off one. *)
From S2P Require Export Service Routing Provisioning.
From S2P Require Import Concrete.

(** The name of the failure libforge declares. *)
Class RoutingNames := { UnknownPolicyErrorName : string }.

Module RoutingCommands.
Section RoutingCommands.
Context `{Ucan} `{ErrorNames} `{RoutingNames} `{!SubscriptionHash}.
Context {P : Type} `{!StorageProvider.Reads P}.
(** [order] is the order Go ranges over the entries of a candidate set in; [now] is
    the instant the policy store reads. *)
Context (order : gset DID → list DID).

(** ** [/routing/put] *)
Definition isInvalidCandidates (err : error) : bool :=
  match AsNamed err with
  | Some (name, _) => bool_decide (name = InvalidCandidatesErrorName)
  | None => false
  end.
Definition routingPut (now : Z) (storageProviderStore : P) (req : Request (gset DID))
    : M RoutingPolicy.Store (Reply unit) :=
  put ← try (Routing.PutPolicy storageProviderStore (inv_Subject (req_Invocation req))
               (order (req_Arguments req)) (inv_Task (req_Invocation req)) now);
  match put with
  | inr err => if isInvalidCandidates err then mret (SetFailure err)
               else fail (Wrap "putting routing policy" err)
  | inl _ => mret (SetSuccess tt None)
  end.

(** ** [/routing/use]; no policy clears the space's *)
Definition routingUse (now : Z) (fuel : nat) (provisioning : Provisioning.State)
    (req : Request (option DID)) : M RoutingPolicy.Store (Reply unit) :=
  let space := inv_Subject (req_Invocation req) in
  providers ← wrap "listing service providers"
                (reads (λ _, Provisioning.ListServiceProviders fuel provisioning space));
  if bool_decide (length providers = 0)
  then mret (SetFailure (Named InsufficientStorageErrorName "space has no storage provider"))
  else
    match req_Arguments req with
    | None =>
        _ ← wrap "clearing routing policy" (Routing.ClearSpacePolicy space);
        mret (SetSuccess tt None)
    | Some policy =>
        used ← try (Routing.UseSpacePolicy space policy (inv_Task (req_Invocation req)) now);
        match used with
        | inr err =>
            if Is err ErrPolicyNotFound
            then mret (SetFailure (Named UnknownPolicyErrorName
                         ("routing policy " +:+ did_String policy +:+ " not found")))
            else fail (Wrap "setting routing policy" err)
        | inl _ => mret (SetSuccess tt None)
        end
    end.

(** ** The candidates of a space *)
(** The nodes a space is confined to: those its policy names, if it is under one. *)
Definition confinedTo (ps : RoutingPolicy.Store) (space : DID) : option (list DID) :=
  ref ← RoutingPolicy.spaces ps !! space;
  p ← RoutingPolicy.policies ps !! RoutingPolicy.spacePolicy ref;
  Some (RoutingPolicy.Candidates p).

Lemma routingPut_Ok now s req ps meta ps' :
  routingPut now s req ps = (Ok (SetSuccess tt meta), ps') →
  let policy := inv_Subject (req_Invocation req) in
  Forall (λ c, c ∈ StorageProvider.Provider <$> StorageProvider.listing s)
    (order (req_Arguments req)) ∧
  RoutingPolicy.spaces ps' = RoutingPolicy.spaces ps ∧
  RoutingPolicy.Candidates <$> RoutingPolicy.policies ps' !! policy =
    Some (order (req_Arguments req)) ∧
  (∀ p, p ≠ policy → RoutingPolicy.policies ps' !! p = RoutingPolicy.policies ps !! p).
Proof.
  intros Hp policy. unfold routingPut in Hp. rewrite M_bind_step in Hp. unfold try in Hp.
  destruct (Routing.PutPolicy_cases s policy (order (req_Arguments req))
    (inv_Task (req_Invocation req)) now ps) as [(Hne & Hall & Heq & Hok)|(_ & msg & Heq)];
    fold policy in Hp; rewrite Heq in Hp.
  - split; [done|]. rewrite Heq in Hok. clear Heq. unfold RoutingPolicy.SetCandidates in *.
    destruct (order (req_Arguments req)) as [|c cs]; [done|].
    injection Hp as _ <-. cbn [RoutingPolicy.spaces RoutingPolicy.policies].
    split_and!; [done| |].
    + rewrite lookup_insert_eq. by destruct (RoutingPolicy.policies ps !! policy).
    + intros p Hne'. by rewrite lookup_insert_ne.
  - cbn in Hp. by rewrite bool_decide_eq_true_2 in Hp.
Qed.
Lemma routingPut_nonempty now s req ps meta ps' :
  routingPut now s req ps = (Ok (SetSuccess tt meta), ps') → order (req_Arguments req) ≠ [].
Proof.
  intros Hp Hnil. unfold routingPut in Hp. rewrite M_bind_step in Hp. unfold try in Hp.
  destruct (Routing.PutPolicy_cases s (inv_Subject (req_Invocation req))
    (order (req_Arguments req)) (inv_Task (req_Invocation req)) now ps)
    as [(Hne & _)|(_ & msg & Heq)]; [done|].
  rewrite Heq in Hp. cbn in Hp. by rewrite bool_decide_eq_true_2 in Hp.
Qed.
Lemma routingUse_Ok now fuel provisioning req ps meta ps' :
  routingUse now fuel provisioning req ps = (Ok (SetSuccess tt meta), ps') →
  let space := inv_Subject (req_Invocation req) in
  RoutingPolicy.policies ps' = RoutingPolicy.policies ps ∧
  RoutingPolicy.spacePolicy <$> RoutingPolicy.spaces ps' !! space = req_Arguments req ∧
  (∀ sp, sp ≠ space → RoutingPolicy.spaces ps' !! sp = RoutingPolicy.spaces ps !! sp).
Proof.
  unfold routingUse. rewrite M_bind_step. unfold wrap at 1, reads.
  destruct (Provisioning.ListServiceProviders _ _ _) as [providers|e| |]; [|done..].
  case_bool_decide; [done|]. destruct (req_Arguments req) as [policy|].
  - rewrite M_bind_step. unfold try, Routing.UseSpacePolicy, RoutingPolicy.SetSpacePolicy.
    destruct (RoutingPolicy.policies ps !! policy).
    + intros [= _ <-]. cbn [RoutingPolicy.spaces RoutingPolicy.policies]. split_and!; [done| |].
      * rewrite lookup_insert_eq. by destruct (RoutingPolicy.spaces ps !! _).
      * intros sp Hne. by rewrite lookup_insert_ne.
    + cbv beta iota zeta. by rewrite Is_refl.
  - rewrite M_bind_step. intros [= _ <-]. cbn [RoutingPolicy.spaces RoutingPolicy.policies].
    split_and!; [done|by rewrite lookup_delete_eq|]. intros sp Hne. by rewrite lookup_delete_ne.
Qed.

(** A selection for a space considers the nodes it is confined to. *)
Definition mayTake (s : P) (ps : RoutingPolicy.Store) (space : DID) (exclusions : list DID)
    (prov : StorageProvider.Record_) : Prop :=
  prov ∈ StorageProvider.listing s ∧ (0 < StorageProvider.Weight prov)%Z ∧
  StorageProvider.Provider prov ∉ exclusions ∧
  match confinedTo ps space with
  | Some candidates => StorageProvider.Provider prov ∈ candidates
  | None => True
  end.
Lemma Select_confined s rand fuel ps space exclusions :
  RoutingPolicy.wf ps → Routing.fair rand → Routing.weighable s →
  length (StorageProvider.listing s) < fuel →
  (∃ prov, mayTake s ps space exclusions prov ∧
     Routing.SelectStorageProvider s rand fuel ps space exclusions = Ok (Routing.infoOf prov)) ∨
  ((∀ prov, ¬ mayTake s ps space exclusions prov) ∧
     Routing.SelectStorageProvider s rand fuel ps space exclusions = Err ErrCandidateUnavailable).
Proof.
  intros Hps Hf Hw Hfuel.
  destruct (Routing.SelectStorageProvider_cases s rand fuel ps space exclusions Hps Hf Hw Hfuel)
    as (policy & Hpol & Hsel).
  assert (∀ prov, Routing.eligible s policy exclusions prov ↔ mayTake s ps space exclusions prov)
    as Hiff.
  { intros prov. unfold Routing.eligible, mayTake, confinedTo.
    unfold RoutingPolicy.GetSpacePolicy, RoutingPolicy.GetPolicy in Hpol.
    destruct (RoutingPolicy.spaces ps !! space) as [ref|]; [|by subst policy].
    destruct Hpol as (p & Hp & ->). cbn [mbind option_bind].
    destruct (RoutingPolicy.policies ps !! _) as [p'|]; [|done]. by injection Hp as ->. }
  destruct Hsel as [(prov & Hel & Heq)|[Hno Heq]]; [left|right].
  - exists prov. by rewrite <-Hiff.
  - split; [|done]. intros prov. by rewrite <-Hiff.
Qed.

Lemma wf_routingPut now s req ps :
  RoutingPolicy.wf ps → RoutingPolicy.wf (routingPut now s req ps).2.
Proof.
  intros Hwf. unfold routingPut. rewrite M_bind_step. unfold try.
  destruct (Routing.PutPolicy_cases s (inv_Subject (req_Invocation req))
    (order (req_Arguments req)) (inv_Task (req_Invocation req)) now ps)
    as [(_ & _ & -> & _)|(_ & msg & ->)].
  - pose proof (RoutingPolicy.wf_SetCandidates (inv_Subject (req_Invocation req))
      (order (req_Arguments req)) (inv_Task (req_Invocation req)) now ps Hwf) as Hw.
    destruct (RoutingPolicy.SetCandidates _ _ _ _ _) as [[?|e| |] ps']; [done| |done..].
    cbv beta iota zeta. by destruct (isInvalidCandidates e).
  - cbv beta iota zeta. by destruct (isInvalidCandidates _).
Qed.
Lemma wf_routingUse now fuel provisioning req ps :
  RoutingPolicy.wf ps → RoutingPolicy.wf (routingUse now fuel provisioning req ps).2.
Proof.
  intros Hwf. unfold routingUse. rewrite M_bind_step. unfold wrap at 1, reads.
  destruct (Provisioning.ListServiceProviders _ _ _) as [providers|e| |]; [|done..].
  case_bool_decide; [done|]. destruct (req_Arguments req) as [policy|].
  - pose proof (RoutingPolicy.wf_SetSpacePolicy (inv_Subject (req_Invocation req)) policy
      (inv_Task (req_Invocation req)) now ps Hwf) as Hw.
    rewrite M_bind_step. unfold try, Routing.UseSpacePolicy.
    destruct (RoutingPolicy.SetSpacePolicy _ _ _ _ _) as [[?|e| |] ps']; [done| |done..].
    cbv beta iota zeta. by destruct (Is e _).
  - by apply RoutingPolicy.wf_ClearSpacePolicy.
Qed.

(** A space put under a policy goes where the policy says, also when the policy
    changes afterwards: every selection for it answers with a node the policy's
    latest candidates name, that is registered, has weight and is not excluded, or
    reports that there is none; once the policy is cleared the space may go
    anywhere again. *)
Theorem policy_routes (s : P) (fuel : nat) (provisioning : Provisioning.State)
    (put put' : Request (gset DID)) (use clear : Request (option DID))
    (ps ps1 ps2 ps3 ps4 : RoutingPolicy.Store) (m1 m2 m3 m4 : option Container)
    (t1 t2 t3 t4 : Z) (rand : Z → Z)
    (exclusions : list DID) :
  let policy := inv_Subject (req_Invocation put) in
  let space := inv_Subject (req_Invocation use) in
  (∀ set, order set ≡ₚ elements set) →
  RoutingPolicy.wf ps → Routing.fair rand → Routing.weighable s →
  length (StorageProvider.listing s) < fuel →
  routingPut t1 s put ps = (Ok (SetSuccess tt m1), ps1) →
  req_Arguments use = Some policy →
  routingUse t2 fuel provisioning use ps1 = (Ok (SetSuccess tt m2), ps2) →
  inv_Subject (req_Invocation put') = policy →
  routingPut t3 s put' ps2 = (Ok (SetSuccess tt m3), ps3) →
  inv_Subject (req_Invocation clear) = space → req_Arguments clear = None →
  routingUse t4 fuel provisioning clear ps3 = (Ok (SetSuccess tt m4), ps4) →
  let select ps := Routing.SelectStorageProvider s rand fuel ps space exclusions in
  let usable prov := prov ∈ StorageProvider.listing s ∧ (0 < StorageProvider.Weight prov)%Z ∧
                     StorageProvider.Provider prov ∉ exclusions in
  let goes ps allowed :=
    (∃ prov, usable prov ∧ allowed prov ∧ select ps = Ok (Routing.infoOf prov)) ∨
    ((∀ prov, ¬ (usable prov ∧ allowed prov)) ∧ select ps = Err ErrCandidateUnavailable) in
  goes ps2 (λ prov, StorageProvider.Provider prov ∈ req_Arguments put) ∧
  goes ps3 (λ prov, StorageProvider.Provider prov ∈ req_Arguments put') ∧
  goes ps4 (λ _, True).
Proof.
  intros policy space Hord Hwf Hf Hw Hfuel Hp1 Huse Hu Hpol Hp2 Hclr Hnone Hc select usable goes.
  pose proof (wf_routingPut t1 s put ps Hwf) as Hwf1. rewrite Hp1 in Hwf1. cbn [snd] in Hwf1.
  pose proof (wf_routingUse t2 fuel provisioning use ps1 Hwf1) as Hwf2. rewrite Hu in Hwf2.
  cbn [snd] in Hwf2. pose proof (wf_routingPut t3 s put' ps2 Hwf2) as Hwf3. rewrite Hp2 in Hwf3.
  cbn [snd] in Hwf3. pose proof (wf_routingUse t4 fuel provisioning clear ps3 Hwf3) as Hwf4.
  rewrite Hc in Hwf4. cbn [snd] in Hwf4.
  apply routingPut_Ok in Hp1 as (_ & _ & Hcand & _), Hp2 as (_ & Hsp & Hcand' & _).
  apply routingUse_Ok in Hu as (Hpols & Hspace & _), Hc as (_ & Hcleared & _).
  fold policy in Hcand. fold space in Hspace. rewrite Hpol in Hcand'. rewrite Hclr in Hcleared.
  rewrite <-Hpols in Hcand. rewrite Huse in Hspace. rewrite Hnone in Hcleared.
  assert (∀ ps' allowed, RoutingPolicy.wf ps' →
    (∀ prov, mayTake s ps' space exclusions prov ↔ usable prov ∧ allowed prov) → goes ps' allowed)
    as Hgoes.
  { intros ps' allowed Hwf' Hiff.
    destruct (Select_confined s rand fuel ps' space exclusions Hwf' Hf Hw Hfuel)
      as [(prov & Hm & Heq)|[Hno Heq]]; [left|right].
    - apply Hiff in Hm as [? ?]. by exists prov.
    - split; [|done]. intros prov. by rewrite <-Hiff. }
  assert (∀ ps' (set : gset DID),
    RoutingPolicy.spacePolicy <$> RoutingPolicy.spaces ps' !! space = Some policy →
    RoutingPolicy.Candidates <$> RoutingPolicy.policies ps' !! policy = Some (order set) →
    ∀ prov, mayTake s ps' space exclusions prov ↔
      usable prov ∧ StorageProvider.Provider prov ∈ set) as Hset.
  { intros ps' set (ref & Href & Hr)%fmap_Some (p & Hp & Hcs)%fmap_Some prov.
    unfold mayTake, confinedTo. rewrite Href. cbn [mbind option_bind]. rewrite <-Hr, Hp.
    cbn [mbind option_bind]. rewrite <-Hcs, Hord, elem_of_elements. unfold usable. tauto. }
  split_and!.
  - by apply Hgoes, Hset.
  - apply Hgoes, Hset; [done|by rewrite Hsp|done].
  - apply Hgoes; [done|]. intros prov. unfold mayTake, confinedTo.
    apply fmap_None in Hcleared as ->. unfold usable. cbn. tauto.
Qed.
End RoutingCommands.
End RoutingCommands.

(** ** Witnesses *)
Section Witnesses.
#[local] Existing Instances StrIds NumberJSON StrCommands StrNames RecContainers RecUcan RecForge
  RecEnv StrHash StorageProvider.Kept_Reads.
Definition StrRoutingNames : RoutingNames := {| UnknownPolicyErrorName := "UnknownPolicy" |}.
#[local] Existing Instance StrRoutingNames.

Definition oneNode : StorageProvider.Kept := nodeAt "https://node".
Definition routedSpace : Provisioning.State :=
  (Provisioning.Provision [str_did "p"] (str_did "a") (str_did "did:key:space") (str_did "p")
     (str_cid "c") Provisioning.New).2.
Definition examplePut : Request (gset DID) :=
  asks "t1" "did:key:owner" "did:key:policy" "/routing/put" {[ str_did "did:web:node" ]}.
Definition exampleUse : Request (option DID) :=
  asks "t2" "did:key:owner" "did:key:space" "/routing/use" (Some (str_did "did:key:policy")).
Definition exampleClear : Request (option DID) :=
  asks "t3" "did:key:owner" "did:key:space" "/routing/use" None.
Definition putPolicies : RoutingPolicy.Store :=
  (RoutingCommands.routingPut elements 1 oneNode examplePut RoutingPolicy.New).2.
Definition usedPolicies : RoutingPolicy.Store :=
  (RoutingCommands.routingUse 2 3 routedSpace exampleUse putPolicies).2.
Definition putAgain : RoutingPolicy.Store :=
  (RoutingCommands.routingPut elements 3 oneNode examplePut usedPolicies).2.
Definition clearedPolicies : RoutingPolicy.Store :=
  (RoutingCommands.routingUse 4 3 routedSpace exampleClear putAgain).2.

Lemma policy_routes_witness :
  (∃ prov, (prov ∈ StorageProvider.listing oneNode ∧ (0 < StorageProvider.Weight prov)%Z ∧
     StorageProvider.Provider prov ∉ []) ∧
   StorageProvider.Provider prov ∈ ({[ str_did "did:web:node" ]} : gset DID) ∧
   Routing.SelectStorageProvider oneNode (λ _, 0%Z) 3 usedPolicies (str_did "did:key:space") [] =
     Ok (Routing.infoOf prov)) ∨
  Routing.SelectStorageProvider oneNode (λ _, 0%Z) 3 usedPolicies (str_did "did:key:space") [] =
    Err ErrCandidateUnavailable.
Proof.
  destruct (RoutingCommands.policy_routes elements oneNode 3 routedSpace examplePut examplePut
    exampleUse exampleClear RoutingPolicy.New putPolicies usedPolicies putAgain clearedPolicies
    None None None None 1 2 3 4 (λ _, 0%Z) []) as [Hgoes _].
  - intros set. reflexivity.
  - apply RoutingPolicy.policies_wf_New.
  - intros n Hn. split; [discriminate|exact Hn].
  - vm_compute. discriminate.
  - vm_compute. lia.
  - apply injective_projections; [vm_compute; reflexivity|reflexivity].
  - reflexivity.
  - apply injective_projections; [vm_compute; reflexivity|reflexivity].
  - reflexivity.
  - apply injective_projections; [vm_compute; reflexivity|reflexivity].
  - reflexivity.
  - reflexivity.
  - apply injective_projections; [vm_compute; reflexivity|reflexivity].
  - destruct Hgoes as [Hex|[_ Hnone]]; [left; exact Hex|right; exact Hnone].
Defined.
End Witnesses.
