(* ===== verification/Indexing.v ===== *)
(** * Publishing an index: [pkg/indexerclient/client.go] and [index_add.go]

    A space asks the service to tell the indexer about an index blob it holds; the
    service passes on its right to retrieve the blob. *)
From S2P Require Export Service Provisioning.

(** What the indexer client uses of libforge. *)
Class IndexCodecs `{LibForge} := {
  cmd_Retrieve : string;
  (** [contentcmds.Retrieve.Delegate] from an issuer to an audience on a space *)
  RetrieveDelegate : nat → Issuer → DID → DID → outcome Delegation;
  (** [assertcmds.Index.Invoke] with its audience and the links of the retrieval
      authorisation as metadata *)
  IndexInvoke : nat → Issuer → DID → Cid → DID → list Cid → outcome Invocation;
  IndexInvoke_Subject t iss sub idx aud auth inv :
    IndexInvoke t iss sub idx aud auth = Ok inv → inv_Subject inv = sub;
  UnmarshalIndexOK : string → outcome ();
  (** [ProofChain] over a request that carried no container *)
  ProofChainNone : DID → string → DID → outcome (list Delegation * list Cid);
  ErrIndexNotFound : error;
}.
Definition ErrIndexerNotConfigured : error :=
  Named "IndexerNotConfigured" "indexer is not configured".

Module Indexing.
Section Indexing.
Context `{Env} `{!IndexCodecs} `{!CursorJSON} `{Commands} `{ErrorNames}.

Record Client := { ix_endpoint : string; indexerDID : DID; ix_issuer : Issuer }.
Definition New (endpoint : string) (indexerDID : DID) (issuer : Issuer) : outcome Client :=
  _ ← owrap "creating HTTP client" (NewHTTP endpoint);
  Ok {| ix_endpoint := endpoint; indexerDID := indexerDID; ix_issuer := issuer |}.

Definition proofChain (proofStore : option Container) (audience : DID) (command : string)
    (subject : DID) : outcome (list Delegation * list Cid) :=
  match proofStore with
  | Some ct => ProofChain ct audience command subject
  | None => ProofChainNone audience command subject
  end.
Definition PublishIndexClaim (c : Client) (space : DID) (index : Cid)
    (proofStore : option Container) : M nat Receipt :=
  '(prfs, prfLinks) ← wrap "building proof chain"
    (reads (λ _, proofChain proofStore (issuer_DID (ix_issuer c)) cmd_Retrieve space));
  indexerDelegation ← wrap "creating indexer delegation"
    (observe (λ t, RetrieveDelegate t (ix_issuer c) (indexerDID c) space));
  inv ← wrap "creating invocation"
    (observe (λ t, IndexInvoke t (ix_issuer c) (issuer_DID (ix_issuer c)) index (indexerDID c)
                     (prfLinks ++ [dlg_Link indexerDelegation])));
  '(_, rcpt, _) ← wrap "executing assert index invocation"
    (Execute (ix_endpoint c) UnmarshalIndexOK inv (prfs ++ [indexerDelegation]) [] []);
  mret rcpt.

Definition indexAdd (fuel : nat) (provisioning : Provisioning.State) (indexer : option Client)
    (req : Request Cid) : M Node (Reply unit) :=
  let space := inv_Subject (req_Invocation req) in
  let index := req_Arguments req in
  provs ← wrap "listing service providers"
            (reads (λ _, Provisioning.ListServiceProviders fuel provisioning space));
  if bool_decide (length provs = 0)
  then mret (SetFailure (Named InsufficientStorageErrorName "space has no service provider"))
  else
    found ← try (reads (λ n, BlobRegistry.Get (registry (world n)) space (cid_Hash index)));
    match found with
    | inr err => if Is err ErrEntryNotFound then mret (SetFailure ErrIndexNotFound) else fail err
    | inl _ =>
        match indexer with
        | None => mret (SetFailure ErrIndexerNotConfigured)
        | Some c =>
            _ ← wrap "publishing index claim"
                  (onTicks (PublishIndexClaim c space index (req_Metadata req)));
            mret (SetSuccess tt None)
        end
    end.

(** ** Only an index the space holds is published *)
Lemma indexAdd_Ok fuel provisioning indexer req n meta n' :
  indexAdd fuel provisioning indexer req n = (Ok (SetSuccess tt meta), n') →
  let space := inv_Subject (req_Invocation req) in
  world n' = world n ∧ agentStore n' = agentStore n ∧
  holds n space (cid_Hash (req_Arguments req)) ∧
  ∃ c rcpt t', indexer = Some c ∧
    PublishIndexClaim c space (req_Arguments req) (req_Metadata req) (ticks n) = (Ok rcpt, t').
Proof.
  unfold indexAdd. rewrite M_bind_step. unfold wrap at 1, reads at 1.
  destruct (Provisioning.ListServiceProviders _ _ _) as [provs|e| |]; [|done..].
  case_bool_decide; [done|]. rewrite M_bind_step. unfold try, reads.
  destruct (BlobRegistry.Get_result (registry (world n)) (inv_Subject (req_Invocation req))
    (cid_Hash (req_Arguments req))) as [(ent & -> & Hin & Hd)|[-> _]]; [|by rewrite Is_refl].
  destruct indexer as [c|]; [|done]. rewrite M_bind_step. unfold wrap, onTicks.
  destruct (PublishIndexClaim _ _ _ _ _) as [[rcpt|e| |] t'] eqn:Ep; [|done..].
  intros [= _ <-]. split_and!; [done|done| |by exists c, rcpt, t'].
  unfold holds. rewrite <-Hd. by apply BlobRegistry.in_digests.
Qed.
(** A claim that went out was answered with success. *)
Lemma PublishIndexClaim_Ok c space index proofStore t rcpt t' :
  PublishIndexClaim c space index proofStore t = (Ok rcpt, t') → IsErr rcpt = false.
Proof.
  unfold PublishIndexClaim. rewrite M_bind_step. unfold wrap at 1, reads.
  destruct (proofChain _ _ _ _) as [[prfs links]|e| |]; [|done..].
  rewrite M_bind_step. unfold wrap at 1, observe at 1.
  destruct (RetrieveDelegate _ _ _ _) as [d|e| |]; [|done..].
  rewrite M_bind_step. unfold wrap at 1, observe at 1.
  destruct (IndexInvoke _ _ _ _ _ _) as [inv|e| |]; [|done..].
  rewrite M_bind_step. unfold wrap.
  destruct (Execute _ _ _ _ _ _ _) as [[[[u r] m]|e| |] t2] eqn:Ee; [|done..].
  intros [= <- _]. apply Execute_Ok in Ee as (o & Ho & _). unfold IsErr. by rewrite Ho.
Qed.
End Indexing.
End Indexing.
