(* ===== verification/MetricsSample.v ===== *)
(** * Sampling a space's usage: [metrics_sample.go]

    The command behind a client's usage graph: it checks the range it is asked for
    and passes on what [Usage.sample] answers. *)
From S2P Require Export Service Usage.

Module MetricsSample.
Section MetricsSample.
Context `{Ucan} `{Commands} `{ErrorNames} {W : Type} `{!UsageStores W}.

Record SampleArguments := { ma_From : Z; ma_To : Z; ma_Window : Z }.
Record SampleItem := { Timestamp : Z; BytesStored : Z; BytesIngested : Z; UploadCount : Z }.
Record SampleOK := { ok_From : Z; ok_To : Z; ok_Window : Z; ok_Samples : list SampleItem }.

Definition itemOf (s : Usage.Sample) : SampleItem := {|
  Timestamp := Unix (Usage.End_ s); BytesStored := Usage.BytesStored s;
  BytesIngested := Usage.BytesIngested s; UploadCount := Usage.UploadCount s;
|}.
Definition okOf (series : Usage.Series) : SampleOK := {|
  ok_From := Unix (Usage.From series); ok_To := Unix (Usage.To series);
  ok_Window := Usage.Window series ÷ Second; ok_Samples := itemOf <$> Usage.Samples series;
|}.
(** [world] is what the stores hold at each of the calls, [down] what a call fails with
    when its store does not answer, [now] the clock. *)
Definition metricsSample (world : nat → W) (down : nat → option error) (now : Z) (req : Request SampleArguments)
    : M nat (Reply SampleOK) :=
  let args := req_Arguments req in
  let space := inv_Subject (req_Invocation req) in
  parsed ← try (reads (λ _, Usage.ParseRange (ma_From args) (ma_To args) (ma_Window args)));
  match parsed with
  | inr err => mret (SetFailure err)
  | inl (from, to, window) =>
      sampled ← try (Usage.sample world down space now from to window);
      match sampled with
      | inr err =>
          match AsNamed err with
          | Some (name, msg) => mret (SetFailure (Named name msg))
          | None => fail (Wrap "sampling space usage" err)
          end
      | inl series => mret (SetSuccess (okOf series) None)
      end
  end.

(** Every failure a client sees has a name, and a fault without one is not shown. *)
Lemma metricsSample_failures world down now req t :
  match (metricsSample world down now req t).1 with
  | Ok (SetFailure e) => ∃ name msg, e = Named name msg
  | Err e => AsNamed e = None
  | _ => True
  end.
Proof.
  unfold metricsSample. rewrite M_bind_step. unfold try at 1, reads.
  destruct (Usage.ParseRange _ _ _) as [[[from to] window]|e| |] eqn:Ep; [| |done..].
  - rewrite M_bind_step. unfold try. destruct (Usage.sample _ _ _ _ _ _ _ _) as [[s|e| |] t'];
      [done| |done..]. cbv beta iota zeta.
    destruct (AsNamed e) as [[name msg]|] eqn:Ee; [by exists name, msg|done].
  - cbn. unfold Usage.ParseRange in Ep. destruct (_ || _ || _); [injection Ep as <-; by eexists _, _|].
    destruct (_ || _); [injection Ep as <-; by eexists _, _|done].
Qed.
End MetricsSample.
End MetricsSample.
