(* ===== verification/Mailers.v ===== *)
(** * Mailers: [pkg/mailer/smtp], [pkg/mailer/postmark], [pkg/mailer/nop] and
      [NewMailingService] of [internal/fx/services.go]

    The mail service that access requests use, as the configuration chooses it. *)
From Stdlib Require Import Ascii.
From S2P Require Export EmailAuth Config.
From S2P Require Import Concrete.

Definition CR : ascii := "013".
Definition LF : ascii := "010".
Definition CRLF : string := String CR (String LF "").
Definition oneLine (s : string) : bool :=
  forallb (λ c, negb (bool_decide (c = CR ∨ c = LF))) (String.list_ascii_of_string s).

(** What the mailers use of [net/smtp], [net/http] and [encoding/json]. *)
Inductive Json := JString (s : string) | JObject (fields : list (string * Json)).
Record HttpRequest := {
  hr_Method : string; hr_URL : string; hr_Headers : list (string * string); hr_Body : string;
}.
Class Mailing := {
  smtp_Auth : Type;
  CRAMMD5Auth : string → string → smtp_Auth;
  (** address of the server, authentication, sender, recipients, message *)
  smtp_SendMail : nat → string → smtp_Auth → string → list string → string → outcome ();
  (** a sender or a recipient of several lines is refused *)
  smtp_SendMail_lines t addr auth from to msg u :
    smtp_SendMail t addr auth from to msg = Ok u → Forall (λ a, oneLine a = true) (from :: to);
  json_Marshal : Json → outcome string;
  HttpClient : Type;
  http_DefaultClient : HttpClient;
  tracing_HTTPClient : HttpClient;
  http_NewRequest : string → string → string → outcome HttpRequest;
  (** the status, its text and what of the body was read *)
  client_Do : HttpClient → nat → HttpRequest → outcome (Z * string * string);
}.

Module Smtp.
Section Smtp.
Context `{Mailing}.
Definition defaultSender : string := "Storacha <support@storacha.network>".
Definition defaultSubject : string := "Welcome to Storacha!".
Record Mailer := { addr : string; sender : string; subject : string; auth : smtp_Auth }.

Definition WithSender (s : string) (m : Mailer) : Mailer :=
  if bool_decide (s ≠ "")
  then {| addr := addr m; sender := s; subject := subject m; auth := auth m |} else m.
Definition WithSubject (s : string) (m : Mailer) : Mailer :=
  if bool_decide (s ≠ "")
  then {| addr := addr m; sender := sender m; subject := s; auth := auth m |} else m.
Definition New (addr : string) (auth : smtp_Auth) (opts : list (Mailer → Mailer)) : Mailer :=
  foldl (λ m opt, opt m)
    {| addr := addr; sender := defaultSender; subject := defaultSubject; auth := auth |} opts.

Definition message (to subject url : string) : string :=
  "To: " +:+ to +:+ CRLF +:+ "Subject: " +:+ subject +:+ CRLF +:+ CRLF +:+ url +:+ CRLF.
Definition SendValidation (m : Mailer) (t : nat) (to url : string) : outcome () :=
  owrap "sending SMTP mail"
    (smtp_SendMail t (addr m) (auth m) (sender m) [to] (message to (subject m) url)).

(** ** What a reader of the message sees *)
Fixpoint linesFrom (acc s : string) : list string :=
  match s with
  | "" => [acc]
  | String c s =>
      match s with
      | String d s' => if bool_decide (c = CR ∧ d = LF) then acc :: linesFrom "" s'
                       else linesFrom (acc +:+ String c "") s
      | "" => [acc +:+ String c ""]
      end
  end.
Definition lines (s : string) : list string := linesFrom "" s.

Lemma linesFrom_app acc s rest :
  oneLine s = true → linesFrom acc (s +:+ CRLF +:+ rest) = (acc +:+ s) :: linesFrom "" rest.
Proof.
  revert acc. induction s as [|c s IH]; intros acc Hs.
  - change (linesFrom acc (String CR (String LF rest)) = (acc +:+ "") :: linesFrom "" rest).
    cbn [linesFrom]. rewrite bool_decide_eq_true_2 by done. by rewrite string_app_empty_r.
  - unfold oneLine in Hs. cbn [String.list_ascii_of_string forallb] in Hs.
    apply andb_true_iff in Hs as [Hc Hs]. apply negb_true_iff, bool_decide_eq_false in Hc.
    change (String c s +:+ CRLF +:+ rest) with (String c (s +:+ CRLF +:+ rest)).
    assert (linesFrom acc (String c (s +:+ CRLF +:+ rest)) =
            linesFrom (acc +:+ String c "") (s +:+ CRLF +:+ rest)) as ->.
    { destruct (s +:+ CRLF +:+ rest) as [|d s'] eqn:E; [by destruct s|].
      cbn [linesFrom]. rewrite bool_decide_eq_false_2 by tauto. done. }
    rewrite IH by done. by rewrite <-string_app_assoc.
Qed.
Lemma message_lines to subject url :
  oneLine to = true → oneLine subject = true → oneLine url = true →
  lines (message to subject url) = ["To: " +:+ to; "Subject: " +:+ subject; ""; url; ""].
Proof.
  intros Ht Hs Hu. unfold lines, message. rewrite (string_app_assoc "To: ").
  rewrite linesFrom_app by done. rewrite (string_app_assoc "Subject: ").
  rewrite linesFrom_app by done.
  change (CRLF +:+ url +:+ CRLF) with ("" +:+ CRLF +:+ (url +:+ CRLF)).
  rewrite (linesFrom_app "" "") by done.
  assert (url +:+ CRLF = url +:+ CRLF +:+ "") as -> by by rewrite (string_app_empty_r CRLF).
  by rewrite linesFrom_app.
Qed.

(** Whoever an account claims to be, a mail that was sent went to its address and
    is the two headers and the link: an address cannot add lines to the message. *)
Theorem SendValidation_spec (m : Mailer) (t : nat) (to url : string) :
  SendValidation m t to url = Ok tt → oneLine (subject m) = true → oneLine url = true →
  ∃ msg, smtp_SendMail t (addr m) (auth m) (sender m) [to] msg = Ok tt ∧
    lines msg = ["To: " +:+ to; "Subject: " +:+ subject m; ""; url; ""].
Proof.
  unfold SendValidation. intros Hs Hsub Hu.
  destruct (smtp_SendMail _ _ _ _ _ _) as [[]|e| |] eqn:E; [|done..]. exists (message to (subject m) url).
  split; [done|]. apply smtp_SendMail_lines in E. apply message_lines; [|done..].
  apply Forall_cons in E as [_ E]. by apply Forall_cons in E as [? _].
Qed.
End Smtp.
End Smtp.

Module Postmark.
Section Postmark.
Context `{Mailing}.
Definition defaultSender : string := "Storacha <support@storacha.network>".
Definition template : string := "welcome-storacha".
Definition defaultEndpoint : string := "https://api.postmarkapp.com/email/withTemplate".
Record Mailer := {
  client : HttpClient; endpoint : string; token : string; sender : string; env : string;
}.
Definition WithHTTPClient (c : HttpClient) (m : Mailer) : Mailer :=
  {| client := c; endpoint := endpoint m; token := token m; sender := sender m; env := env m |}.
Definition WithEndpoint (u : string) (m : Mailer) : Mailer :=
  {| client := client m; endpoint := u; token := token m; sender := sender m; env := env m |}.
Definition WithSender (s : string) (m : Mailer) : Mailer :=
  if bool_decide (s ≠ "")
  then {| client := client m; endpoint := endpoint m; token := token m; sender := s; env := env m |}
  else m.
Definition WithEnvironment (e : string) (m : Mailer) : Mailer :=
  {| client := client m; endpoint := endpoint m; token := token m; sender := sender m; env := e |}.
Definition New (token_ : string) (opts : list (Mailer → Mailer)) : Mailer :=
  let cfg := foldl (λ m opt, opt m)
    {| client := http_DefaultClient; endpoint := defaultEndpoint; token := token_;
       sender := defaultSender; env := "" |} opts in
  {| client := client cfg; endpoint := endpoint cfg; token := token_; sender := sender cfg;
     env := env cfg |}.

Definition parameters (m : Mailer) (to url : string) : Json :=
  JObject [("From", JString (sender m)); ("To", JString to); ("TemplateAlias", JString template);
    ("TemplateModel", JObject [("email", JString to); ("action_url", JString url);
                               ("environment_name", JString (env m))])].
Definition withHeader (k v : string) (r : HttpRequest) : HttpRequest := {|
  hr_Method := hr_Method r; hr_URL := hr_URL r; hr_Headers := hr_Headers r ++ [(k, v)];
  hr_Body := hr_Body r |}.
Definition SendValidation (m : Mailer) (t : nat) (to url : string) : outcome () :=
  body ← owrap "marshaling email parameters" (json_Marshal (parameters m to url));
  req ← owrap "creating email request" (http_NewRequest "POST" (endpoint m) body);
  let req := withHeader "X-Postmark-Server-Token" (token m)
    (withHeader "Content-Type" "application/json" (withHeader "Accept" "application/json" req)) in
  '(code, status, answer) ← owrap "sending email request" (client_Do (client m) t req);
  if bool_decide (code ≠ 200%Z)
  then Err (Errorf ("email request failed with status: " +:+ status +:+ ", body: " +:+ answer))
  else Ok tt.

(** A mail counts as sent only when the service said so. *)
Theorem postmark_sent (m : Mailer) (t : nat) (to url : string) :
  SendValidation m t to url = Ok tt →
  ∃ body req status answer, json_Marshal (parameters m to url) = Ok body ∧
    client_Do (client m) t req = Ok (200%Z, status, answer) ∧
    ("X-Postmark-Server-Token", token m) ∈ hr_Headers req.
Proof.
  unfold SendValidation. destruct (json_Marshal _) as [body|e| |]; [|done..].
  cbn [owrap mbind outcome_bind]. destruct (http_NewRequest _ _ _) as [req|e| |]; [|done..].
  cbn [owrap mbind outcome_bind].
  destruct (client_Do _ _ _) as [[[code status] answer]|e| |] eqn:E; [|done..].
  cbn [owrap mbind outcome_bind]. case_bool_decide as Hc; [done|]. intros _.
  subst code. eexists body, _, status, answer.
  split_and!; [done|exact E|]. cbn. set_solver.
Qed.
End Postmark.
End Postmark.

(** ** [NewMailingService] *)
Module MailingService.
Section MailingService.
Context `{Mailing}.
Inductive Service := NopMailer | SmtpMailer (m : Smtp.Mailer) | PostmarkMailer (m : Postmark.Mailer).

Definition NewMailingService (deploymentCfg : Config.DeploymentConfig)
    (mailerCfg : Config.MailerConfig) : outcome Service :=
  if bool_decide (Config.ml_Type mailerCfg = "nop") then Ok NopMailer
  else if bool_decide (Config.ml_Type mailerCfg = "smtp") then
    if bool_decide (Config.ml_SMTPAddr mailerCfg = "")
    then Err (Errorf "missing SMTP mailer address")
    else if bool_decide (Config.ml_SMTPAuthUser mailerCfg = "")
    then Err (Errorf "missing SMTP mailer username")
    else if bool_decide (Config.ml_SMTPAuthSecret mailerCfg = "")
    then Err (Errorf "missing SMTP mailer CRAMMD5 auth secret")
    else
      let auth := CRAMMD5Auth (Config.ml_SMTPAuthUser mailerCfg) (Config.ml_SMTPAuthSecret mailerCfg) in
      Ok (SmtpMailer (Smtp.New (Config.ml_SMTPAddr mailerCfg) auth
        [Smtp.WithSubject (Config.ml_Subject mailerCfg); Smtp.WithSender (Config.ml_Sender mailerCfg)]))
  else if bool_decide (Config.ml_Type mailerCfg = "postmark") then
    if bool_decide (Config.ml_PostmarkToken mailerCfg = "")
    then Err (Errorf "postmark mail configured but token not set")
    else
      let postmarkOpts := [Postmark.WithEnvironment (Config.dc_Environment deploymentCfg);
                           Postmark.WithHTTPClient tracing_HTTPClient] in
      let postmarkOpts := if bool_decide (Config.ml_Sender mailerCfg ≠ "")
                          then postmarkOpts ++ [Postmark.WithSender (Config.ml_Sender mailerCfg)]
                          else postmarkOpts in
      Ok (PostmarkMailer (Postmark.New (Config.ml_PostmarkToken mailerCfg) postmarkOpts))
  else Ok NopMailer.

(** [nop.Mailer] only logs. *)
Definition NopSendValidation (t : nat) (to url : string) : outcome () := Ok tt.
(** [mailer.Mailer], implemented by the three. *)
Definition deliver (s : Service) : Mailer := {|
  SendValidation t to url :=
    match s with
    | NopMailer => NopSendValidation t to url
    | SmtpMailer m => Smtp.SendValidation m t to url
    | PostmarkMailer m => Postmark.SendValidation m t to url
    end |}.

Definition orElse (s d : string) : string := if bool_decide (s = "") then d else s.
(** An SMTP mailer is made from a complete configuration only, and has the subject
    and the sender that are configured or else the defaults. *)
Lemma NewMailingService_smtp deploymentCfg mailerCfg s :
  NewMailingService deploymentCfg mailerCfg = Ok s → Config.ml_Type mailerCfg = "smtp" →
  Config.ml_SMTPAddr mailerCfg ≠ "" ∧
  s = SmtpMailer {|
    Smtp.addr := Config.ml_SMTPAddr mailerCfg;
    Smtp.sender := orElse (Config.ml_Sender mailerCfg) Smtp.defaultSender;
    Smtp.subject := orElse (Config.ml_Subject mailerCfg) Smtp.defaultSubject;
    Smtp.auth := CRAMMD5Auth (Config.ml_SMTPAuthUser mailerCfg) (Config.ml_SMTPAuthSecret mailerCfg) |}.
Proof.
  unfold NewMailingService. intros Hs Ht. rewrite Ht in Hs.
  rewrite bool_decide_eq_false_2, bool_decide_eq_true_2 in Hs by done.
  case_bool_decide; [done|]. case_bool_decide; [done|]. case_bool_decide; [done|].
  injection Hs as <-. split; [done|]. unfold Smtp.New, Smtp.WithSubject, Smtp.WithSender, orElse.
  cbn [foldl]. repeat case_bool_decide; by try congruence.
Qed.
End MailingService.
End MailingService.

(** ** An access request on a service that mails by SMTP *)
Section Requested.
Context `{Env} `{!Accounts} `{!Sessions} `{Urls} `{ErrorNames} `{ErrorText} `{Mailing}.
Context (s : MailingService.Service).
#[local] Instance configured : Mailer := MailingService.deliver s.

(** When an access request succeeds on a service configured to mail by SMTP, the
    SMTP server took one message for the address of the account, whose body is the
    link. *)
Theorem request_mailed (dep : Config.DeploymentConfig) (mc : Config.MailerConfig)
    (cfg : Access.ServerConfig) (id : Issuer)
    (req : Request Access.RequestArguments) (n n' : Access.Desk) (ok : Access.RequestOK)
    (meta : option Container) :
  let subject := MailingService.orElse (Config.ml_Subject mc) Smtp.defaultSubject in
  MailingService.NewMailingService dep mc = Ok s → Config.ml_Type mc = "smtp" →
  Access.accessRequest cfg id req n = (Ok (SetSuccess ok meta), n') →
  oneLine subject = true → (∀ u url, url_Parse u = Ok url → oneLine url = true) →
  ∃ account email url t msg,
    didmailto_Parse (did_String (Access.rq_Issuer (req_Arguments req))) = Ok account ∧
    didmailto_Email account = Ok email ∧
    Access.mails n' = Access.mails n ++ [(email, url)] ∧
    smtp_SendMail t (Config.ml_SMTPAddr mc)
      (CRAMMD5Auth (Config.ml_SMTPAuthUser mc) (Config.ml_SMTPAuthSecret mc))
      (MailingService.orElse (Config.ml_Sender mc) Smtp.defaultSender) [email] msg = Ok tt ∧
    Smtp.lines msg = ["To: " +:+ email; "Subject: " +:+ subject; ""; url; ""].
Proof.
  intros subject Hs Ht Hr Hsub Hurl.
  destruct (MailingService.NewMailingService_smtp _ _ _ Hs Ht) as [_ Hsmtp].
  pose proof (Access.accessRequest_cases cfg id req n) as Hc.
  rewrite Hr in Hc. destruct Hc as [_ [[_ Hn]|Hc]]; [by destruct (Hn ok meta)|].
  destruct Hc as (account & email & url & str & conf & exp & Hp & He & Hm & (t & [] & Hsend) & _ & _ & Hu & _).
  cbn in Hsend. rewrite Hsmtp in Hsend.
  destruct (Smtp.SendValidation_spec _ t email url Hsend Hsub (Hurl _ _ Hu)) as (msg & Hmsg & Hlines).
  by exists account, email, url, t, msg.
Qed.
End Requested.

(** ** An SMTP server that takes every mail, and URLs without control characters *)
Section Witnesses.
#[local] Existing Instances StrIds NumberJSON StrCommands StrNames RecContainers RecUcan RecForge
  RecEnv StrErrorText StrAccounts RecSessions.

Definition takeMail (from : string) (to : list string) : outcome () :=
  if forallb oneLine (from :: to) then Ok tt else Err (Errorf "smtp: A line must not contain CR or LF").
Lemma takeMail_lines from to u : takeMail from to = Ok u → Forall (λ a, oneLine a = true) (from :: to).
Proof.
  unfold takeMail. destruct (forallb oneLine (from :: to)) eqn:E; [|done]. intros _.
  rewrite forallb_forall in E. apply Forall_forall. intros a Ha. by apply E, list_elem_of_In.
Qed.
Definition PlainMailing : Mailing := {|
  smtp_Auth := string * string; CRAMMD5Auth := pair;
  smtp_SendMail _ _ _ from to _ := takeMail from to;
  smtp_SendMail_lines _ _ _ from to _ := takeMail_lines from to;
  json_Marshal _ := Ok "{}"; HttpClient := (); http_DefaultClient := tt; tracing_HTTPClient := tt;
  http_NewRequest m u b := Ok {| hr_Method := m; hr_URL := u; hr_Headers := []; hr_Body := b |};
  client_Do _ _ _ := Ok (200%Z, "200 OK", "");
|}.
Definition CleanUrls : Urls := {|
  url_Parse s := if oneLine s then Ok s else Err (Errorf "invalid control character in URL") |}.
#[local] Existing Instances PlainMailing CleanUrls.
Definition exampleMailer : Config.MailerConfig := {|
  Config.ml_Type := "smtp"; Config.ml_Sender := "dev@storacha.network"; Config.ml_Subject := "";
  Config.ml_PostmarkToken := ""; Config.ml_SMTPAddr := "mail.example.com:25";
  Config.ml_SMTPAuthUser := "sprue"; Config.ml_SMTPAuthSecret := "secret" |}.
Definition exampleDeploymentConfig : Config.DeploymentConfig := {|
  Config.dc_Environment := "test"; Config.dc_AllowProvisionWithoutPaymentPlan := false;
  Config.dc_MaxReplicas := 3; Config.dc_InsecureDIDResolution := false; Config.dc_PLCDirectory := "" |}.
Definition exampleService : MailingService.Service :=
  match MailingService.NewMailingService exampleDeploymentConfig exampleMailer with
  | Ok s => s
  | _ => MailingService.NopMailer
  end.
#[local] Instance exampleConfigured : Mailer := configured exampleService.
Definition smtpAnswer : Access.RequestOK :=
  match (Access.accessRequest exampleConfig sprue exampleAccessRequest exampleDesk).1 with
  | Ok (SetSuccess ok _) => ok
  | _ => {| Access.rk_Request := str_cid ""; Access.rk_Confirm := str_cid ""; Access.rk_Expiration := 0 |}
  end.
Definition smtpDesk : Access.Desk :=
  (Access.accessRequest exampleConfig sprue exampleAccessRequest exampleDesk).2.
Lemma request_mailed_witness :
  ∃ email url msg, Access.mails smtpDesk = Access.mails exampleDesk ++ [(email, url)] ∧
    Smtp.lines msg = ["To: " +:+ email; "Subject: Welcome to Storacha!"; ""; url; ""].
Proof.
  destruct (request_mailed exampleService exampleDeploymentConfig exampleMailer exampleConfig sprue
    exampleAccessRequest exampleDesk smtpDesk smtpAnswer None)
    as (account & email & url & t & msg & _ & _ & Hm & _ & Hl).
  - reflexivity.
  - reflexivity.
  - vm_cast_no_check (eq_refl (Ok (SetSuccess smtpAnswer None), smtpDesk)).
  - reflexivity.
  - intros u url. cbn. by destruct (oneLine u) eqn:E; [intros [= <-]|].
  - exists email, url, msg. split; [exact Hm|exact Hl].
Defined.
End Witnesses.
