(* ===== verification/Setup.v ===== *)
(** * Putting the service together: [internal/fx] and [pkg/service/service.go]

    What the providers build from the configuration: the identity, the clients,
    the storage, the server. The dependency graph itself is fx's. *)
From S2P Require Export Config Indexing.
From Stdlib Require Import Ascii.

(** What the providers call. *)
Class Providers `{LibForge} := {
  identity_NewFromPEMFileWithDID : string → string → outcome Issuer;
  identity_New : string → string → outcome Issuer;
  url_Hostname : string → string;
  (** pgx *)
  pgxpool_ParseConfig : string → outcome (Z * Z);
  pgxpool_NewWithConfig : string → Z → Z → outcome ();
  pool_Ping : outcome ();
  migrations_Up : outcome ();
  store_Initialize : string → outcome ();
  (** the AWS configuration of a region, with an endpoint and credentials *)
  awsconfig_Load : string → option (string * (string * string)) → outcome ();
  (** DID resolution *)
  Document : Type;
  DIDDocument : Issuer → outcome Document;
  web_NewResolver : bool → outcome ();
  plc_NewResolver : string → outcome ();
  (** [server.HTTPOption], as other modules contribute them *)
  HTTPOption : Type;
}.

Module Setup.
Section Setup.
Context `{Env} `{!Providers} `{Urls}.

(** ** [internal/fx/identity.go], [internal/fx/app.go], [internal/fx/logger.go] *)
Definition NewIdentity (cfg : Config.Config) : outcome Issuer :=
  let i := Config.Identity cfg in
  if bool_decide (Config.id_KeyFile i ≠ "")
  then owrap "identity from key file"
         (identity_NewFromPEMFileWithDID (Config.id_KeyFile i) (Config.id_ServiceDID i))
  else owrap "creating identity" (identity_New (Config.id_PrivateKey i) "").

Inductive Backend := MemoryModule | PostgresModule.
Definition AppModule (cfg : Config.Config) : outcome Backend :=
  let type := Config.st_Type (Config.Storage cfg) in
  if bool_decide (type = Config.StorageTypeMemory) then Ok MemoryModule
  else if bool_decide (type = Config.StorageTypePostgres) || bool_decide (type = "")
  then Ok PostgresModule
  else Err (Errorf ("unknown storage.type " +:+ quoted type +:+ " (valid: memory, postgres)")).

Definition developmentLogger (cfg : Config.Config) : bool :=
  let env := Config.dc_Environment (Config.Deployment cfg) in
  bool_decide (Config.Log_Level cfg = "debug") || bool_decide (env = "development") ||
  bool_decide (env = "test").

(** ** [internal/fx/clients.go]: no client is not an error *)
Definition NewIndexerClient (cfg : Config.Config) (id : Issuer) : outcome (option Indexing.Client) :=
  let ix := Config.Indexer cfg in
  if bool_decide (Config.ix_Endpoint ix = "") then Ok None
  else
    match url_Parse (Config.ix_Endpoint ix) with
    | Err _ => Ok None
    | Panic => Panic
    | Diverge => Diverge
    | Ok indexerURL =>
        let configured := if bool_decide (Config.ix_DID ix ≠ "") then
                            match did_Parse (Config.ix_DID ix) with Ok d => d | _ => did_Undef end
                          else did_Undef in
        let derived := if bool_decide (configured = did_Undef)
                       then did_Parse ("did:web:" +:+ url_Hostname indexerURL)
                       else Ok configured in
        match derived with
        | Ok indexerDID =>
            match Indexing.New indexerURL indexerDID id with
            | Ok c => Ok (Some c)
            | Err _ => Ok None
            | Panic => Panic
            | Diverge => Diverge
            end
        | Err _ => Ok None
        | Panic => Panic
        | Diverge => Diverge
        end
    end.

(** ** [internal/fx/store/postgres/provider.go] *)
Record Pool := { po_DSN : string; po_MaxConns : Z; po_MinConns : Z }.
Definition NewPostgresPool (cfg : Config.PostgresConfig) : outcome Pool :=
  if bool_decide (Config.pg_DSN cfg = "")
  then Err (Errorf ("postgres.dsn is required when store_backend is " +:+ quoted "postgres"))
  else
    '(maxConns, minConns) ← owrap "parsing postgres DSN" (pgxpool_ParseConfig (Config.pg_DSN cfg));
    let maxConns := if (0 <? Config.pg_MaxConns cfg)%Z then Config.pg_MaxConns cfg else maxConns in
    let minConns := if (0 <? Config.pg_MinConns cfg)%Z then Config.pg_MinConns cfg else minConns in
    _ ← owrap "creating pgx pool" (pgxpool_NewWithConfig (Config.pg_DSN cfg) maxConns minConns);
    Ok {| po_DSN := Config.pg_DSN cfg; po_MaxConns := maxConns; po_MinConns := minConns |}.

Record S3Client := {
  sc_Region : string; sc_Custom : option (string * (string * string)); sc_UsePathStyle : bool;
}.
Definition NewS3Client (cfg : Config.S3Config) : outcome S3Client :=
  custom ← (if bool_decide (Config.s3_Endpoint cfg ≠ "") then
              if bool_decide (Config.s3_AccessKeyID cfg = "") ||
                 bool_decide (Config.s3_SecretAccessKey cfg = "")
              then Err (Errorf ("storage.s3.access_key_id and storage.s3.secret_access_key are required" +:+
                                " when storage.s3.endpoint is set"))
              else Ok (Some (Config.s3_Endpoint cfg,
                             (Config.s3_AccessKeyID cfg, Config.s3_SecretAccessKey cfg)))
            else Ok None);
  _ ← owrap "loading AWS config" (awsconfig_Load (Config.s3_Region cfg) custom);
  Ok {| sc_Region := Config.s3_Region cfg; sc_Custom := custom;
        sc_UsePathStyle := Config.s3_UsePathStyle cfg |}.

(** The hooks that start the storage. A provider appends its own when it is
    called, and fx calls it after those it depends on. *)
Inductive Provider := PostgresPool | MigratedPool | AgentStore | DelegationStore.
#[export] Instance Provider_eq_dec : EqDecision Provider.
Proof. solve_decision. Defined.
Inductive Event := Pinged | Migrated | Skipped | Initialized (store : string).
Definition does (o : outcome ()) (e : Event) : M (list Event) unit := λ evs,
  match o with
  | Ok _ => (Ok tt, evs ++ [e])
  | Err err => (Err err, evs)
  | Panic => (Panic, evs)
  | Diverge => (Diverge, evs)
  end.
Definition OnStart (cfg : Config.PostgresConfig) (p : Provider) : M (list Event) unit :=
  match p with
  | PostgresPool => does (owrap "pinging postgres" pool_Ping) Pinged
  | MigratedPool => if Config.pg_SkipMigrations cfg then does (Ok tt) Skipped
                    else does migrations_Up Migrated
  | AgentStore => does (store_Initialize "agent") (Initialized "agent")
  | DelegationStore => does (store_Initialize "delegation") (Initialized "delegation")
  end.
Fixpoint Start (cfg : Config.PostgresConfig) (ps : list Provider) : M (list Event) unit :=
  match ps with
  | [] => mret tt
  | p :: ps => _ ← OnStart cfg p; Start cfg ps
  end.
Definition dependencies (p : Provider) : list Provider :=
  match p with
  | PostgresPool => []
  | MigratedPool => [PostgresPool]
  | AgentStore | DelegationStore => [MigratedPool]
  end.
Definition dependenciesFirst (ps : list Provider) : Prop :=
  ∀ i p q, ps !! i = Some p → q ∈ dependencies p → ∃ j, j < i ∧ ps !! j = Some q.

Definition eventOf (cfg : Config.PostgresConfig) (p : Provider) : Event :=
  match p with
  | PostgresPool => Pinged
  | MigratedPool => if Config.pg_SkipMigrations cfg then Skipped else Migrated
  | AgentStore => Initialized "agent"
  | DelegationStore => Initialized "delegation"
  end.
Lemma OnStart_Ok cfg p evs u evs' :
  OnStart cfg p evs = (Ok u, evs') → evs' = evs ++ [eventOf cfg p].
Proof.
  unfold OnStart, does, eventOf. destruct p; [| destruct (Config.pg_SkipMigrations cfg)| |];
    try (by intros [= _ <-]);
    match goal with |- context [match ?o with Ok _ => _ | _ => _ end] => destruct o end;
    by intros [= <-].
Qed.
Lemma Start_Ok cfg ps evs u evs' : Start cfg ps evs = (Ok u, evs') → evs' = evs ++ (eventOf cfg <$> ps).
Proof.
  revert evs. induction ps as [|p ps IH]; intros evs; cbn [Start].
  { intros [= _ <-]. by rewrite app_nil_r. }
  intros ([] & evs1 & Hp%OnStart_Ok & Hs)%M_bind_Ok. apply IH in Hs. subst.
  by rewrite <-app_assoc.
Qed.
(** No store is used before the schema is there: in whatever order fx calls the
    providers, as long as it calls those a provider depends on before it, each
    store is initialized after the connection was tried and, unless they are
    skipped, after the migrations ran. *)
Theorem migrated_first (cfg : Config.PostgresConfig) (ps : list Provider) (u : ()) (evs : list Event)
    (i : nat) (store : string) :
  dependenciesFirst ps → Start cfg ps [] = (Ok u, evs) → evs !! i = Some (Initialized store) →
  ∃ j k, k < j < i ∧ evs !! k = Some Pinged ∧
    evs !! j = Some (if Config.pg_SkipMigrations cfg then Skipped else Migrated).
Proof.
  intros Hdeps Hs Hi. apply Start_Ok in Hs as ->. cbn [app] in *.
  rewrite list_lookup_fmap in Hi. destruct (ps !! i) as [p|] eqn:Ep; [|done].
  assert (MigratedPool ∈ dependencies p) as Hm.
  { destruct p; cbn in *; [done|by destruct (Config.pg_SkipMigrations cfg)|set_solver..]. }
  destruct (Hdeps i p MigratedPool Ep Hm) as (j & Hj & Ej).
  destruct (Hdeps j MigratedPool PostgresPool Ej) as (k & Hk & Ek); [set_solver|].
  exists j, k. split; [lia|]. by rewrite !list_lookup_fmap, Ej, Ek.
Qed.

(** What the S3 stores talk to: a custom endpoint never goes without credentials. *)
Lemma NewS3Client_custom cfg c :
  NewS3Client cfg = Ok c →
  match sc_Custom c with
  | Some (ep, (key, secret)) => ep ≠ "" ∧ key ≠ "" ∧ secret ≠ ""
  | None => Config.s3_Endpoint cfg = ""
  end.
Proof.
  unfold NewS3Client. case_bool_decide as Hep.
  - case_bool_decide; [done|]. case_bool_decide; [done|]. cbn [orb mbind outcome_bind].
    destruct (awsconfig_Load _ _); [|done..]. by intros [= <-].
  - cbn [mbind outcome_bind]. destruct (awsconfig_Load _ _); [|done..]. by intros [= <-].
Qed.
(** The indexer is called by the name that is configured, or else by the one its
    host gives. *)
Lemma NewIndexerClient_DID cfg id c :
  NewIndexerClient cfg id = Ok (Some c) →
  let ix := Config.Indexer cfg in
  url_Parse (Config.ix_Endpoint ix) = Ok (Indexing.ix_endpoint c) ∧ Indexing.ix_issuer c = id ∧
  (did_Parse (Config.ix_DID ix) = Ok (Indexing.indexerDID c) ∨
   did_Parse ("did:web:" +:+ url_Hostname (Indexing.ix_endpoint c)) = Ok (Indexing.indexerDID c)).
Proof.
  intros Hc ix. unfold NewIndexerClient in Hc. case_bool_decide; [done|].
  destruct (url_Parse _) as [u|e| |] eqn:Eu; [|done..].
  set (configured := if bool_decide (Config.ix_DID _ ≠ "") then _ else _) in Hc.
  set (derived := if bool_decide (configured = did_Undef) then _ else _) in Hc.
  assert (∀ d, derived = Ok d → did_Parse (Config.ix_DID ix) = Ok d ∨
    did_Parse ("did:web:" +:+ url_Hostname u) = Ok d) as Hd.
  { intros d. unfold derived. case_bool_decide as Hu; [by right|]. intros [= <-]. left.
    unfold configured in *. case_bool_decide; [|done]. fold ix in Hu |- *.
    by destruct (did_Parse (Config.ix_DID ix)). }
  destruct derived as [d|e| |]; [|done..].
  unfold Indexing.New in Hc. destruct (NewHTTP u); [|done..]. injection Hc as <-.
  split_and!; [done..|by apply Hd].
Qed.

(** ** [createUCANServer] of [pkg/service/service.go] *)
Definition DefaultPLCDirectory : string := "https://plc.directory".
Record serviceConfig := {
  serverOptions : list HTTPOption; insecureDIDResolution : bool; plcDirectory : string;
}.
Definition Option_ : Type := serviceConfig → serviceConfig.
Definition WithServerOptions (opts : list HTTPOption) : Option_ := λ c,
  {| serverOptions := opts; insecureDIDResolution := insecureDIDResolution c;
     plcDirectory := plcDirectory c |}.
Definition WithInsecureDIDResolution (enabled : bool) : Option_ := λ c,
  {| serverOptions := serverOptions c; insecureDIDResolution := enabled; plcDirectory := plcDirectory c |}.
Definition WithPLCDirectory (directory : string) : Option_ := λ c,
  {| serverOptions := serverOptions c; insecureDIDResolution := insecureDIDResolution c; plcDirectory := directory |}.

(** Where a DID's document comes from. *)
Inductive Resolver :=
  | KeyResolver
  | WellKnown (id : DID) (doc : Document)
  | Web (insecure : bool)
  | Plc (directory : string)
  | Mailto (attestor : DID)
  | Cached (r : Resolver) (ttl : Z)
  | Tiered (rs : list Resolver).
(** The options of the server. A token is validated with the verifiers of ucantone
    and that of attestations, both by the resolver. *)
Inductive ServerOption :=
  | Given (opt : HTTPOption)
  | ReceiptTimestamps (enabled : bool)
  | ConcurrentAgentMessageLogger
  | ErrorHandlerListener
  | SpanNamerListener
  | PanicLogger
  | ValidateBy (resolver : list (string * Resolver)).
Record UCANServer (Handler : Type) := {
  us_ID : Issuer; us_Options : list ServerOption; us_Routes : list (string * Handler);
}.
Arguments us_ID {_} _.
Arguments us_Options {_} _.
Arguments us_Routes {_} _.
Definition createUCANServer {Handler} (id : Issuer) (handlers : list (string * Handler))
    (options : list Option_) : outcome (UCANServer Handler) :=
  let cfg := foldl (λ c opt, opt c) {| serverOptions := []; insecureDIDResolution := false; plcDirectory := "" |} options in
  _ ← web_NewResolver (insecureDIDResolution cfg);
  selfDoc ← owrap "creating DID document for service identity" (DIDDocument id);
  let directory := if bool_decide (plcDirectory cfg = "") then DefaultPLCDirectory
                   else plcDirectory cfg in
  u ← owrap ("parsing PLC directory URL " +:+ quoted directory) (url_Parse directory);
  _ ← owrap "creating did:plc resolver" (plc_NewResolver u);
  let resolver := [
    ("key", KeyResolver);
    ("web", Tiered [WellKnown (issuer_DID id) selfDoc;
                    Cached (Web (insecureDIDResolution cfg)) (3 * Hour)]);
    ("mailto", Mailto (issuer_DID id));
    ("plc", Cached (Plc u) (3 * Hour)) ] in
  Ok {| us_ID := id;
        us_Options := (Given <$> serverOptions cfg) ++
          [ReceiptTimestamps true; ConcurrentAgentMessageLogger; ErrorHandlerListener;
           SpanNamerListener; PanicLogger; ValidateBy resolver];
        us_Routes := handlers |}.
(** [NewService] of [internal/fx/service/provider.go]. *)
Definition NewService {Handler} (id : Issuer) (handlers : list (string * Handler))
    (opts : list HTTPOption) (cfg : Config.DeploymentConfig) : outcome (UCANServer Handler) :=
  createUCANServer id handlers
    [WithServerOptions opts;
     WithInsecureDIDResolution (Config.dc_InsecureDIDResolution cfg);
     WithPLCDirectory (Config.dc_PLCDirectory cfg)].

(** did:web is resolved over HTTP only where the deployment says so, the service
    never asks the network for its own document, an account is vouched for by the
    service, and did:plc is looked up in the directory that is configured, or the
    public one. *)
Lemma NewService_resolves {Handler} id (handlers : list (string * Handler)) opts cfg s :
  NewService id handlers opts cfg = Ok s →
  us_Routes s = handlers ∧ ∃ doc u resolver, ValidateBy resolver ∈ us_Options s ∧ DIDDocument id = Ok doc ∧
    url_Parse (if bool_decide (Config.dc_PLCDirectory cfg = "") then DefaultPLCDirectory
               else Config.dc_PLCDirectory cfg) = Ok u ∧
    ("web", Tiered [WellKnown (issuer_DID id) doc;
                    Cached (Web (Config.dc_InsecureDIDResolution cfg)) (3 * Hour)]) ∈ resolver ∧
    ("plc", Cached (Plc u) (3 * Hour)) ∈ resolver ∧
    ("mailto", Mailto (issuer_DID id)) ∈ resolver.
Proof.
  unfold NewService, createUCANServer. cbn [foldl WithPLCDirectory WithInsecureDIDResolution WithServerOptions serverOptions
    insecureDIDResolution plcDirectory]. destruct (web_NewResolver _); [|done..].
  cbn [mbind outcome_bind]. destruct (DIDDocument id) as [doc|e| |]; [|done..].
  cbn [owrap mbind outcome_bind]. destruct (url_Parse _) as [u|e| |]; [|done..].
  cbn [owrap mbind outcome_bind]. destruct (plc_NewResolver u); [|done..].
  intros [= <-]. split; [done|]. eexists doc, u, _. cbn [us_Options]. split_and!;
    [apply elem_of_app; right; do 5 right; left|done..| | |]; set_solver.
Qed.
End Setup.
End Setup.
