(* ===== verification/Codec.v ===== *)
(** * Reading and writing bytes

    What the generated codecs are made of: an [io.Writer] takes bytes, a reader
    is the bytes that are left to read. [emits] and [parses] say what a sequence
    of writes puts out and what a sequence of reads makes of it; a codec is right
    when the second undoes the first, whatever bytes follow. *)
From Stdlib Require Import Ascii.
From S2P Require Export Ids.

(** ** [io.Writer], which reports success only when it took everything *)
Class Writer (W : Type) := {
  Write : string → M W unit;
  written : W → string;
  Write_Ok b w u w' : Write b w = (Ok u, w') → written w' = written w +:+ b;
}.
(** [bytes.Buffer] takes everything. *)
#[export] Instance Buffer : Writer string.
Proof.
  refine {| Write b := λ w, (Ok tt, w +:+ b); written w := w |}. by intros b w u w' [= _ <-].
Defined.

Definition EOF : error := Errorf "EOF".
Definition ErrUnexpectedEOF : error := Errorf "unexpected EOF".
(** The deferred [if err == io.EOF { err = io.ErrUnexpectedEOF }]. *)
Definition noEOF {S A} (m : M S A) : M S A := λ s,
  match m s with
  | (Err e, s') => (Err (if bool_decide (e = EOF) then ErrUnexpectedEOF else e), s')
  | r => r
  end.

Definition slen (s : string) : Z := Z.of_nat (String.length s).
(** The first [n] bytes and the rest, when there are that many. *)
Fixpoint splitAt (n : nat) (s : string) : option (string * string) :=
  match n, s with
  | 0, _ => Some ("", s)
  | S n, String c s => '(a, b) ← splitAt n s; Some (String c a, b)
  | S _, "" => None
  end.
(** [io.ReadFull] into a slice of [n] bytes. *)
Definition ReadFull (n : Z) : M string string := λ s,
  match splitAt (Z.to_nat n) s with
  | Some (a, b) => (Ok a, b)
  | None => (Err (if bool_decide (s = "") then EOF else ErrUnexpectedEOF), "")
  end.

(** [utf8.ValidString]. *)
Definition within (lo hi : N) (c : ascii) : bool := (lo <=? N_of_ascii c)%N && (N_of_ascii c <=? hi)%N.
Definition cont : ascii → bool := within 128 191.
Fixpoint utf8Valid (s : string) : bool :=
  match s with
  | "" => true
  | String c s =>
      if within 0 127 c then utf8Valid s
      else match s with
      | "" => false
      | String c1 s =>
          if within 194 223 c then cont c1 && utf8Valid s
          else match s with
          | "" => false
          | String c2 s =>
              if within 224 239 c then
                within (if (N_of_ascii c =? 224)%N then 160 else 128)
                       (if (N_of_ascii c =? 237)%N then 159 else 191) c1 &&
                cont c2 && utf8Valid s
              else match s with
              | "" => false
              | String c3 s =>
                  within 240 244 c &&
                  within (if (N_of_ascii c =? 240)%N then 144 else 128)
                         (if (N_of_ascii c =? 244)%N then 143 else 191) c1 &&
                  cont c2 && cont c3 && utf8Valid s
              end
          end
      end
  end.

(** ** What is written *)
Section Emits.
Context `{Writer W}.

(** When [m] succeeds it has written [b], which it does only if [φ]. *)
Definition emits {A} (m : M W A) (b : string) (φ : Prop) : Prop :=
  ∀ w a w', m w = (Ok a, w') → written w' = written w +:+ b ∧ φ.

Lemma emits_Write b : emits (Write b) b True.
Proof. intros w a w' Hw. split; [by eapply Write_Ok|done]. Qed.
Lemma emits_fail {A} e b φ : emits (fail e : M W A) b φ.
Proof. done. Qed.
Lemma emits_imp {A} (m : M W A) b b' (φ φ' : Prop) :
  emits m b φ → b = b' → (φ → φ') → emits m b' φ'.
Proof. intros Hm <- Hφ w a w' Hw. destruct (Hm _ _ _ Hw). auto. Qed.
Lemma emits_bind {A B} (m : M W A) (k : A → M W B) b1 b2 φ1 φ2 :
  emits m b1 φ1 → (∀ a, emits (k a) b2 φ2) → emits (m ≫= k) (b1 +:+ b2) (φ1 ∧ φ2).
Proof.
  intros Hm Hk w a w' (x & w1 & H1 & H2)%M_bind_Ok.
  destruct (Hk _ _ _ _ H2) as [-> ?], (Hm _ _ _ H1) as [-> ?]. by rewrite string_app_assoc.
Qed.
Lemma emits_wrap {A} ctx (m : M W A) b φ : emits m b φ → emits (wrap ctx m) b φ.
Proof.
  intros Hm w a w'. unfold wrap. destruct (m w) as [[]] eqn:E; try done. intros [= <- <-]. by eapply Hm.
Qed.
End Emits.

(** On a buffer [m] succeeds when [φ]. *)
Definition fills {A} (m : M string A) (φ : Prop) : Prop := φ → ∀ w, ∃ a w', m w = (Ok a, w').
Lemma fills_Write b : fills (Write b) True.
Proof. intros _ w. by eexists _, _. Qed.
Lemma fills_imp {A} (m : M string A) (φ φ' : Prop) : fills m φ → (φ' → φ) → fills m φ'.
Proof. unfold fills. auto. Qed.
Lemma fills_bind {A B} (m : M string A) (k : A → M string B) φ1 φ2 :
  fills m φ1 → (∀ a, fills (k a) φ2) → fills (m ≫= k) (φ1 ∧ φ2).
Proof.
  intros Hm Hk [H1 H2] w. destruct (Hm H1 w) as (a & w1 & E). rewrite M_bind_step, E. by apply Hk.
Qed.
Lemma fills_wrap {A} ctx (m : M string A) φ : fills m φ → fills (wrap ctx m) φ.
Proof. intros Hm Hφ w. destruct (Hm Hφ w) as (a & w1 & E). unfold wrap. rewrite E. by eexists _, _. Qed.

(** What a call answers with, for the theorems: it is only used when it does. *)
Definition answered (r : outcome string) : string := match r with Ok b => b | _ => "" end.
Definition writeEncoded `{Writer W} (r : outcome string) : M W unit := b ← lift r; Write b.
Lemma emits_encoded `{Writer W} r : emits (writeEncoded r : M W unit) (answered r) (r = Ok (answered r)).
Proof.
  unfold writeEncoded, lift, reads. intros w a w'. destruct r as [b|e| |]; [|done..].
  intros Hw%Write_Ok. by split.
Qed.
Lemma fills_encoded r : fills (writeEncoded r) (r = Ok (answered r)).
Proof. intros -> w. by eexists _, _. Qed.

(** ** What is read *)
(** [m] reads exactly [b], as [a], whatever follows. *)
Definition parses {A} (m : M string A) (b : string) (a : A) : Prop :=
  ∀ rest, m (b +:+ rest) = (Ok a, rest).

Lemma parses_ret {A} (a : A) : parses (mret a) "" a.
Proof. done. Qed.
Lemma parses_bind {A B} (m : M string A) (k : A → M string B) b1 b2 a c :
  parses m b1 a → parses (k a) b2 c → parses (m ≫= k) (b1 +:+ b2) c.
Proof. intros Hm Hk rest. rewrite <-string_app_assoc, M_bind_step, Hm. apply Hk. Qed.
Lemma parses_bind_ret {A B} (m : M string A) (f : A → B) b a :
  parses m b a → parses (x ← m; mret (f x)) b (f a).
Proof. intros Hm rest. by rewrite M_bind_step, Hm. Qed.
Lemma parses_wrap {A} ctx (m : M string A) b a : parses m b a → parses (wrap ctx m) b a.
Proof. intros Hm rest. unfold wrap. by rewrite Hm. Qed.
Lemma parses_noEOF {A} (m : M string A) b a : parses m b a → parses (noEOF m) b a.
Proof. intros Hm rest. unfold noEOF. by rewrite Hm. Qed.

Lemma splitAt_app a b : splitAt (String.length a) (a +:+ b) = Some (a, b).
Proof.
  induction a as [|c a IH]; [done|]. change (('(x, y) ← splitAt (String.length a) (a +:+ b); Some (String c x, y)) =
    Some (String c a, b)). by rewrite IH.
Qed.
Lemma parses_ReadFull a : parses (ReadFull (slen a)) a a.
Proof. intros rest. unfold ReadFull, slen. by rewrite Nat2Z.id, splitAt_app. Qed.

(** ** Structs as maps of named fields

    A decoder reads the fields in the order they come in: [field] is its switch
    on the name, each case a function of the struct read so far. How a format
    frames a field is a parameter: [known] and [unknown] names, a value [reads]
    consumes and one that is skipped. *)
Section Fields.
Context {T : Type} (field : string → option (T → M string T)).
Context (reads : M string T → string → T → Prop) (known unknown skipped : string → Prop).

Inductive fieldsRead : list (string * string) → T → T → Prop :=
  | read_none t : fieldsRead [] t t
  | read_known name v f l t1 t2 t3 :
      known name → field name = Some f → reads (f t1) v t2 → fieldsRead l t2 t3 →
      fieldsRead ((name, v) :: l) t1 t3
  | read_unknown name v l t1 t2 :
      unknown name → skipped v → fieldsRead l t1 t2 → fieldsRead ((name, v) :: l) t1 t2.

(** [part X] is the struct with the fields named in [X] and no others. *)
Context (entries : list (string * string)) (part : list string → T).
Class Decodes := {
  decodes_NoDup : NoDup (entries.*1);
  decodes_part X Y : (∀ n, n ∈ X ↔ n ∈ Y) → part X = part Y;
  decodes_step X name v : (name, v) ∈ entries → name ∉ X →
    known name ∧ ∃ f, field name = Some f ∧ reads (f (part X)) v (part (name :: X));
}.

(** The fields in any order, among others that are unknown. *)
Definition shuffled (l : list (string * string)) : Prop :=
  ∃ others, l ≡ₚ entries ++ others ∧ Forall (λ e, unknown e.1 ∧ skipped e.2) others.

Lemma fieldsRead_from `{!Decodes} l es others X :
  l ≡ₚ es ++ others → es ⊆ entries → NoDup (es.*1) → (∀ n, n ∈ es.*1 → n ∉ X) →
  Forall (λ e, unknown e.1 ∧ skipped e.2) others →
  fieldsRead l (part X) (part (es.*1 ++ X)).
Proof.
  revert es others X. induction l as [|[name v] l IH]; intros es others X Hl Hes Hnd Hdis Ho.
  { apply Permutation_nil_l, eq_sym, app_nil in Hl as [-> ->]. constructor. }
  assert ((name, v) ∈ es ++ others) as [Hin|Hin]%elem_of_app by (rewrite <-Hl; left).
  - apply elem_of_Permutation in Hin as [es' Hes']. rewrite Hes' in Hl.
    apply (Permutation_cons_inv (a := (name, v))) in Hl.
    rewrite Hes' in Hnd. cbn in Hnd. apply NoDup_cons in Hnd as [Hni Hnd].
    assert (name ∉ X) as HX by (apply Hdis; rewrite Hes'; left).
    destruct (decodes_step X name v) as (Hk & f & Hf & Hr); [by apply Hes; rewrite Hes'; left|done|].
    apply (read_known name v f l _ (part (name :: X))); [done..|].
    replace (part (es.*1 ++ X)) with (part (es'.*1 ++ name :: X)).
    + apply (IH es' others); [done| |done| |done].
      * intros e He. apply Hes. rewrite Hes'. by right.
      * intros n Hn [->|Hn']%elem_of_cons; [done|]. revert Hn'. apply Hdis. rewrite Hes'. by right.
    + apply decodes_part. intros n. rewrite Hes'. set_solver.
  - apply elem_of_Permutation in Hin as [others' Ho']. rewrite Ho' in Hl, Ho.
    rewrite <-Permutation_middle in Hl. apply (Permutation_cons_inv (a := (name, v))) in Hl.
    apply Forall_cons in Ho as [[? ?] Ho]. constructor; [done..|]. by apply (IH es others').
Qed.
Lemma fieldsRead_shuffled `{!Decodes} l : shuffled l → fieldsRead l (part []) (part (entries.*1)).
Proof.
  intros (others & Hl & Ho). replace (part (entries.*1)) with (part (entries.*1 ++ [])) by by rewrite app_nil_r.
  eapply fieldsRead_from; [exact Hl|done|apply decodes_NoDup|set_solver|done].
Qed.
Lemma fieldsRead_struct zero t l :
  Decodes → part [] = zero → part (entries.*1) = t → shuffled l → fieldsRead l zero t.
Proof. intros ? <- <-. apply fieldsRead_shuffled. Qed.
Lemma shuffled_entries : shuffled entries.
Proof. exists []. by rewrite app_nil_r. Qed.
End Fields.
