(* ===== verification/Cbor.v ===== *)
(** * CBOR as cbor-gen writes it

    The pieces the generated CBOR codecs are made of: a struct is a map from the
    names of its fields, written in the order of the names' lengths and read in
    any. The headers and the scanning of values come from cbor-gen, and the
    encoding of a DID from ucantone: they are parameters. *)
From Stdlib Require Import Ascii.
From S2P Require Export Codec.

Definition MajUnsignedInt : Z := 0.
Definition MajNegativeInt : Z := 1.
Definition MajByteString : Z := 2.
Definition MajTextString : Z := 3.
Definition MajArray : Z := 4.
Definition MajMap : Z := 5.
Definition byte (z : Z) : string := String (ascii_of_N (Z.to_N z)) "".
Definition CborNull : string := byte 246.

Class CborGen `{Ids} := {
  cbg_MaxLength : Z;
  cbg_MaxLength_small : (16 ≤ cbg_MaxLength)%Z;
  (** the header of a value: its major type and a number *)
  cbor_Header : Z → Z → string;
  cbor_Header_small maj n : (0 ≤ maj < 8)%Z → (0 ≤ n < 24)%Z → cbor_Header maj n = byte (32 * maj + n);
  ReadHeader : M string (Z * Z);
  ReadHeader_Header maj n :
    (0 ≤ maj < 7)%Z → is_uint64 n → parses ReadHeader (cbor_Header maj n) (maj, n);
  (** a text of at most so many bytes *)
  ReadStringWithMax : Z → M string string;
  ReadStringWithMax_text max s :
    is_uint64 max → (slen s ≤ max)%Z → utf8Valid s →
    parses (ReadStringWithMax max) (cbor_Header MajTextString (slen s) +:+ s) s;
  (** the same into a buffer: a text the buffer is too short for is skipped *)
  ReadFullStringIntoBuf : Z → Z → M string (option string);
  ReadFullStringIntoBuf_fits size max s :
    is_uint64 max → (slen s ≤ size)%Z → (slen s ≤ max)%Z → utf8Valid s →
    parses (ReadFullStringIntoBuf size max) (cbor_Header MajTextString (slen s) +:+ s) (Some s);
  ReadFullStringIntoBuf_long size max s :
    is_uint64 max → (size < slen s ≤ max)%Z → utf8Valid s →
    parses (ReadFullStringIntoBuf size max) (cbor_Header MajTextString (slen s) +:+ s) None;
  (** reads past a value *)
  ScanForLinks : M string unit;
  (** [did.DID]'s own codec *)
  did_MarshalCBOR : DID → outcome string;
  did_UnmarshalCBOR : M string DID;
  did_CBOR d b : did_MarshalCBOR d = Ok b → parses did_UnmarshalCBOR b d;
}.

Module Cbor.
(** ** Writing *)
Section Writing.
Context `{CborGen} `{Writer W}.

Definition WriteMajorTypeHeader (maj n : Z) : M W unit := Write (cbor_Header maj n).
Definition writeText (tooLong : string) (s : string) : M W unit :=
  if (8192 <? slen s)%Z then fail (Errorf tooLong)
  else _ ← WriteMajorTypeHeader MajTextString (uint64 (slen s)); Write s.
Definition writeName (name : string) : M W unit :=
  writeText ("Value in field " +:+ quoted name +:+ " was too long") name.
Definition writeInt64 (z : Z) : M W unit :=
  if (0 <=? z)%Z then WriteMajorTypeHeader MajUnsignedInt (uint64 z)
  else WriteMajorTypeHeader MajNegativeInt (uint64 (int64 (int64 (- z) - 1))).
Definition writeBytes (tooLong : string) (b : string) : M W unit :=
  if (2097152 <? slen b)%Z then fail (Errorf tooLong)
  else _ ← WriteMajorTypeHeader MajByteString (uint64 (slen b)); Write b.
Definition writeDID (d : DID) : M W unit := writeEncoded (did_MarshalCBOR d).
End Writing.

(** ** Reading *)
Section Reading.
Context `{CborGen}.

Definition readInt64 : M string Z :=
  '(maj, extra) ← ReadHeader;
  let extraI := int64 extra in
  if bool_decide (maj = MajUnsignedInt) then
    if (extraI <? 0)%Z then fail (Errorf "int64 positive overflow") else mret (int64 extraI)
  else if bool_decide (maj = MajNegativeInt) then
    if (extraI <? 0)%Z then fail (Errorf "int64 negative overflow")
    else mret (int64 (int64 (-1 - extraI)))
  else fail (Errorf ("wrong type for int64 field: " +:+ Itoa maj)).

(** The slice is made anew only when the value is not empty: [io.ReadFull] fills
    the slice that is there. *)
Definition readBytes (current : string) : M string string :=
  '(maj, extra) ← ReadHeader;
  if (2097152 <? extra)%Z then fail (Errorf ("t.Proofs: byte array too large (" +:+ Itoa extra +:+ ")"))
  else if bool_decide (maj ≠ MajByteString) then fail (Errorf "expected byte array")
  else ReadFull (if (0 <? extra)%Z then extra else slen current).
Definition readDID : M string DID := wrap "unmarshaling t.Provider" did_UnmarshalCBOR.

Section Map.
Context {T : Type} (name : string) (size : Z) (field : string → option (T → M string T)).
Fixpoint mapLoop (n : nat) (t : T) : M string T :=
  match n with
  | 0 => mret t
  | S n =>
      key ← ReadFullStringIntoBuf size 8192;
      match key ≫= field with
      | Some read => t ← read t; mapLoop n t
      | None => _ ← ScanForLinks; mapLoop n t
      end
  end.
(** An error leaves the target half filled; no caller looks at it then. *)
Definition unmarshalMap (zero : T) : M string T :=
  '(maj, extra) ← ReadHeader;
  noEOF (
    if bool_decide (maj ≠ MajMap) then fail (Errorf "cbor input should be of type map")
    else if (cbg_MaxLength <? extra)%Z
    then fail (Errorf (name +:+ ": map struct too large (" +:+ Itoa extra +:+ ")"))
    else mapLoop (Z.to_nat extra) zero).
End Map.
End Reading.

(** ** What is written is what is read *)
Section RoundTrip.
Context `{CborGen}.

Definition cborText (s : string) : string := cbor_Header MajTextString (slen s) +:+ s.
Definition cborInt (z : Z) : string :=
  if (0 <=? z)%Z then cbor_Header MajUnsignedInt z else cbor_Header MajNegativeInt (- z - 1).
Definition cborBytes (b : string) : string := cbor_Header MajByteString (slen b) +:+ b.
Definition cborEntry (e : string * string) : string := cborText e.1 +:+ e.2.
Definition cborMap (l : list (string * string)) : string :=
  cbor_Header MajMap (Z.of_nat (length l)) +:+ foldr (λ e rest, cborEntry e +:+ rest) "" l.

Lemma slen_nonneg s : (0 ≤ slen s)%Z.
Proof. unfold slen. lia. Qed.
Lemma uint64_slen s (n : Z) : (n < 2 ^ 64)%Z → (slen s ≤ n)%Z → uint64 (slen s) = slen s.
Proof. intros ??. apply uint64_id. pose proof (slen_nonneg s). unfold is_uint64. lia. Qed.

Lemma emits_text `{Writer W} msg s : emits (writeText msg s : M W unit) (cborText s) (slen s ≤ 8192)%Z.
Proof.
  unfold writeText. destruct (Z.ltb_spec 8192 (slen s)); [apply emits_fail|].
  rewrite (uint64_slen s 8192) by lia.
  eapply emits_imp; [apply emits_bind; [apply emits_Write|intros _; apply emits_Write]|done|done].
Qed.
Lemma fills_text msg s : fills (writeText msg s) (slen s ≤ 8192)%Z.
Proof. intros Hs w. unfold writeText. destruct (Z.ltb_spec 8192 (slen s)); [lia|]. by eexists _, _. Qed.
Lemma emits_int64 `{Writer W} z : is_int64 z → emits (writeInt64 z : M W unit) (cborInt z) True.
Proof.
  intros Hz. unfold writeInt64, cborInt. destruct (Z.leb_spec 0 z).
  - rewrite uint64_id by (unfold is_int64, is_uint64 in *; lia). apply emits_Write.
  - replace (uint64 (int64 (int64 (- z) - 1))) with (- z - 1)%Z; [apply emits_Write|].
    rewrite int64_sub_l, int64_id by (unfold is_int64 in *; lia).
    by rewrite uint64_id by (unfold is_int64, is_uint64 in *; lia).
Qed.
Lemma fills_int64 z : fills (writeInt64 z) True.
Proof. unfold writeInt64. destruct (0 <=? z)%Z; apply fills_Write. Qed.
Lemma emits_bytes `{Writer W} msg b : emits (writeBytes msg b : M W unit) (cborBytes b) (slen b ≤ 2097152)%Z.
Proof.
  unfold writeBytes. destruct (Z.ltb_spec 2097152 (slen b)); [apply emits_fail|].
  rewrite (uint64_slen b 2097152) by lia.
  eapply emits_imp; [apply emits_bind; [apply emits_Write|intros _; apply emits_Write]|done|done].
Qed.
Lemma fills_bytes msg b : fills (writeBytes msg b) (slen b ≤ 2097152)%Z.
Proof. intros Hb w. unfold writeBytes. destruct (Z.ltb_spec 2097152 (slen b)); [lia|]. by eexists _, _. Qed.

Lemma parses_int64 z : is_int64 z → parses readInt64 (cborInt z) z.
Proof.
  intros Hz rest. unfold readInt64, cborInt. rewrite M_bind_step.
  assert (0 ≤ z → int64 z = z)%Z by (intros; apply int64_id; done).
  destruct (Z.leb_spec 0 z); unfold MajUnsignedInt, MajNegativeInt;
    rewrite ReadHeader_Header by (try lia; unfold is_int64, is_uint64 in *; lia).
  - rewrite bool_decide_eq_true_2 by done. rewrite int64_id by done.
    destruct (Z.ltb_spec z 0); [lia|]. by rewrite int64_id.
  - rewrite bool_decide_eq_false_2, bool_decide_eq_true_2 by done.
    rewrite (int64_id (- z - 1)) by (unfold is_int64 in *; lia).
    destruct (Z.ltb_spec (- z - 1) 0); [lia|].
    replace (-1 - (- z - 1))%Z with z by lia. by rewrite !(int64_id z) by done.
Qed.
Lemma parses_bytes b : (slen b ≤ 2097152)%Z → parses (readBytes "") (cborBytes b) b.
Proof.
  intros Hb. unfold readBytes, cborBytes. pose proof (slen_nonneg b).
  eapply (parses_bind _ _ _ _ (_, _)).
  { apply ReadHeader_Header; [done|unfold is_uint64; lia]. }
  cbn. destruct (Z.ltb_spec 2097152 (slen b)); [lia|]. rewrite bool_decide_eq_false_2 by tauto.
  destruct (Z.ltb_spec 0 (slen b)); [apply parses_ReadFull|].
  assert (slen b = 0)%Z as Hz by lia. destruct b; [|unfold slen in Hz; cbn in Hz; lia].
  apply parses_ReadFull.
Qed.
(** A second, empty value of the field is filled with what follows it. *)
Lemma repeated_proofs current next :
  slen next = slen current → parses (readBytes current) (cborBytes "" +:+ next) next.
Proof.
  intros Hn. unfold readBytes, cborBytes. change ("" : string) with "" at 1.
  eapply (parses_bind _ _ _ _ (MajByteString, 0%Z)).
  - rewrite string_app_empty_r. by apply ReadHeader_Header.
  - cbn. rewrite <-Hn. apply parses_ReadFull.
Qed.
Lemma parses_DID d b : did_MarshalCBOR d = Ok b → parses readDID b d.
Proof. intros Hd. apply parses_wrap. by apply did_CBOR. Qed.

Section Map.
Context {T : Type} (name : string) (size : Z) (field : string → option (T → M string T)).
Definition knownName (n : string) : Prop := utf8Valid n ∧ (slen n ≤ size)%Z ∧ (slen n ≤ 8192)%Z.
Definition unknownName (n : string) : Prop :=
  utf8Valid n ∧ (slen n ≤ 8192)%Z ∧ (field n = None ∨ size < slen n)%Z.
Definition skippable (v : string) : Prop := parses ScanForLinks v tt.
Abbreviation read := (fieldsRead field parses knownName unknownName skippable).

Lemma parses_mapLoop l t t' :
  read l t t' →
  parses (mapLoop size field (length l) t) (foldr (λ e rest, cborEntry e +:+ rest) "" l) t'.
Proof.
  induction 1 as [t|n v f l t1 t2 t3 (Hu & Hs & Hm) Hf Hr _ IH|n v l t1 t2 (Hu & Hm & Hf) Hv _ IH];
    [apply parses_ret| |]; cbn [length foldr mapLoop]; unfold cborEntry; cbn [fst snd];
    rewrite <-string_app_assoc.
  - eapply (parses_bind _ _ _ _ (Some n)); [by apply ReadFullStringIntoBuf_fits|].
    cbn. rewrite Hf. by eapply parses_bind.
  - destruct (Z.le_gt_cases (slen n) size) as [Hs|Hs].
    + destruct Hf as [Hf|Hf]; [|lia].
      eapply (parses_bind _ _ _ _ (Some n)); [by apply ReadFullStringIntoBuf_fits|].
      cbn. rewrite Hf. by eapply (parses_bind _ _ _ _ tt).
    + eapply (parses_bind _ _ _ _ None); [by apply ReadFullStringIntoBuf_long|].
      cbn. by eapply (parses_bind _ _ _ _ tt).
Qed.
Lemma parses_unmarshalMap l zero t :
  (Z.of_nat (length l) ≤ cbg_MaxLength)%Z → (Z.of_nat (length l) < 2 ^ 64)%Z →
  read l zero t → parses (unmarshalMap name size field zero) (cborMap l) t.
Proof.
  intros Hl Hb Hr. unfold unmarshalMap, cborMap. eapply (parses_bind _ _ _ _ (_, _)).
  { apply ReadHeader_Header; [done|unfold is_uint64; lia]. }
  cbn. apply parses_noEOF. rewrite bool_decide_eq_false_2 by tauto.
  destruct (Z.ltb_spec cbg_MaxLength (Z.of_nat (length l))); [lia|].
  rewrite Nat2Z.id. by apply parses_mapLoop.
Qed.
End Map.
End RoundTrip.
End Cbor.
