(* ===== verification/DagJson.v ===== *)
(** * DAG-JSON as dag-json-gen writes it

    The pieces the generated DAG-JSON codecs are made of: a struct is an object
    with the names of its fields. The tokens come from dag-json-gen, and the
    encoding of a DID from ucantone: they are parameters, but for the
    punctuation of JSON. *)
From Stdlib Require Import Ascii.
From S2P Require Export Codec.

Definition objectOpen : string := "{".
Definition objectClose : string := "}".
Definition arrayOpen : string := "[".
Definition arrayClose : string := "]".
Definition objectColon : string := ":".
Definition jsonComma : string := ",".
Definition jsonNull : string := "null".
(** A value ends where a comma or a bracket is. *)
Definition punctuated (rest : string) : Prop :=
  ∃ c s, rest = c +:+ s ∧ c ∈ [jsonComma; objectClose; arrayClose].
(** [m] reads [b] as [a] when the value ends there. *)
Definition parsesIn {A} (m : M string A) (b : string) (a : A) : Prop :=
  ∀ rest, punctuated rest → m (b +:+ rest) = (Ok a, rest).

Class DagJsonGen `{Ids} := {
  json_String : string → string;
  json_Int64 : Z → string;
  json_Bytes : string → string;
  ErrLimitExceeded : error;
  ReadObjectOpen : M string unit;
  ReadObjectOpen_open : parses ReadObjectOpen objectOpen tt;
  PeekObjectClose : M string bool;
  PeekObjectClose_close rest : PeekObjectClose (objectClose +:+ rest) = (Ok true, objectClose +:+ rest);
  PeekObjectClose_field s rest : PeekObjectClose (json_String s +:+ rest) = (Ok false, json_String s +:+ rest);
  ReadObjectClose : M string unit;
  ReadObjectClose_close : parses ReadObjectClose objectClose tt;
  ReadObjectColon : M string unit;
  ReadObjectColon_colon : parses ReadObjectColon objectColon tt;
  ReadObjectCloseOrComma : M string bool;
  ReadObjectCloseOrComma_close : parses ReadObjectCloseOrComma objectClose true;
  ReadObjectCloseOrComma_comma : parses ReadObjectCloseOrComma jsonComma false;
  ReadArrayOpen : M string unit;
  ReadArrayOpen_open : parses ReadArrayOpen arrayOpen tt;
  PeekArrayClose : M string bool;
  PeekArrayClose_close rest : PeekArrayClose (arrayClose +:+ rest) = (Ok true, arrayClose +:+ rest);
  PeekArrayClose_object rest : PeekArrayClose (objectOpen +:+ rest) = (Ok false, objectOpen +:+ rest);
  ReadArrayClose : M string unit;
  ReadArrayClose_close : parses ReadArrayClose arrayClose tt;
  ReadArrayCloseOrComma : M string bool;
  ReadArrayCloseOrComma_close : parses ReadArrayCloseOrComma arrayClose true;
  ReadArrayCloseOrComma_comma : parses ReadArrayCloseOrComma jsonComma false;
  (** a text, or bytes, of at most so many *)
  ReadString : Z → M string string;
  ReadString_String max s :
    (slen s ≤ max)%Z → utf8Valid s → parses (ReadString max) (json_String s) s;
  ReadNumberAsInt64 : M string Z;
  ReadNumberAsInt64_Int64 z : is_int64 z → parsesIn ReadNumberAsInt64 (json_Int64 z) z;
  ReadBytes : Z → M string string;
  ReadBytes_Bytes max b : (slen b ≤ max)%Z → parses (ReadBytes max) (json_Bytes b) b;
  (** reads past a value *)
  DiscardType : M string unit;
  (** [did.DID]'s own codec *)
  did_MarshalDagJSON : DID → outcome string;
  did_UnmarshalDagJSON : M string DID;
  did_DagJSON d b : did_MarshalDagJSON d = Ok b → parses did_UnmarshalDagJSON b d;
}.

Module DagJson.
(** ** Writing *)
Section Writing.
Context `{DagJsonGen} `{Writer W}.

Definition WriteComma : M W unit := Write jsonComma.
(** The name of a field and the colon. *)
Definition writeKey (name : string) : M W unit :=
  if (8192 <? slen name)%Z
  then fail (Errorf ("string in field " +:+ quoted name +:+ " was too long"))
  else
    _ ← wrap ("writing string for field " +:+ quoted name) (Write (json_String name));
    Write objectColon.
Definition writeString (field s : string) : M W unit :=
  if (8192 <? slen s)%Z then fail (Errorf ("string in field " +:+ field +:+ " was too long"))
  else wrap ("writing string for field " +:+ field) (Write (json_String s)).
Definition writeInt64 (field : string) (z : Z) : M W unit :=
  wrap ("writing int64 for field " +:+ field) (Write (json_Int64 (int64 z))).
Definition writeBytes (field b : string) : M W unit :=
  if (2097152 <? slen b)%Z then fail (Errorf ("byte array in field " +:+ field +:+ " was too long"))
  else wrap ("writing bytes for field " +:+ field) (Write (json_Bytes b)).
Definition writeDID (field : string) (d : DID) : M W unit :=
  wrap ("marshaling field " +:+ field) (writeEncoded (did_MarshalDagJSON d)).
End Writing.

(** ** Reading *)
Section Reading.
Context `{DagJsonGen}.

(** The error of a read with a limit, which names the limit when it was passed. *)
Definition limited {A} (ctx passed : string) (m : M string A) : M string A := λ s,
  match m s with
  | (Err e, s') => (Err (if Is e ErrLimitExceeded then Errorf (ctx +:+ ": " +:+ passed) else Wrap ctx e), s')
  | r => r
  end.
Definition readString (field : string) : M string string :=
  limited ("reading string for field " +:+ field) "string too long" (ReadString 8192).
Definition readInt64 (field : string) : M string Z :=
  nval ← wrap ("reading int64 for field " +:+ field) ReadNumberAsInt64; mret (int64 nval).
(** Empty bytes leave what the field held. *)
Definition readBytes (field current : string) : M string string :=
  bval ← limited ("reading bytes for field " +:+ field) "byte array too large" (ReadBytes 2097152);
  mret (if (0 <? slen bval)%Z then bval else current).
Definition readDID (field : string) : M string DID :=
  wrap ("unmarshaling " +:+ field) did_UnmarshalDagJSON.

Section Object.
Context {T : Type} (name : string) (field : string → option (T → M string T)).
Fixpoint objectLoop (n : nat) (t : T) : M string T :=
  match n with
  | 0 => mret t
  | S n =>
      key ← limited ("reading string for field " +:+ name) "string too large" (ReadString 8192);
      _ ← wrap ("reading object colon for field " +:+ name) ReadObjectColon;
      t ← match field key with
          | Some read => read t
          | None =>
              _ ← wrap ("ignoring field " +:+ key +:+ " for " +:+ name) DiscardType; mret t
          end;
      close ← wrap ("reading object close or comma for field " +:+ name) ReadObjectCloseOrComma;
      if (close : bool) then mret t
      else match n with
           | 0 => fail (Errorf ("map too large for " +:+ name))
           | S _ => objectLoop n t
           end
  end.
Definition maxEntries : nat := Z.to_nat 8192.
Definition unmarshalObject (zero : T) : M string T := noEOF (
  _ ← wrap ("reading object open for " +:+ name) ReadObjectOpen;
  close ← wrap ("peeking object close for " +:+ name) PeekObjectClose;
  if (close : bool) then
    _ ← wrap ("reading object close for " +:+ name) ReadObjectClose; mret zero
  else objectLoop maxEntries zero).
End Object.
End Reading.

(** ** What is written is what is read *)
Section RoundTrip.
Context `{DagJsonGen}.

Definition jsonEntry (e : string * string) : string := json_String e.1 +:+ objectColon +:+ e.2.
(** Entries, each but the last with a comma. *)
Fixpoint jsonEntries {A} (f : A → string) (l : list A) : string :=
  match l with
  | [] => ""
  | [e] => f e
  | e :: l => f e +:+ jsonComma +:+ jsonEntries f l
  end.
Definition jsonObject (l : list (string * string)) : string :=
  objectOpen +:+ jsonEntries jsonEntry l +:+ objectClose.

Lemma punctuated_comma s : punctuated (jsonComma +:+ s).
Proof. exists jsonComma, s. split; [done|left]. Qed.
Lemma punctuated_close s : punctuated (objectClose +:+ s).
Proof. exists objectClose, s. split; [done|right; left]. Qed.
Lemma punctuated_array s : punctuated (arrayClose +:+ s).
Proof. exists arrayClose, s. split; [done|right; right; left]. Qed.
Lemma parses_in {A} (m : M string A) b a : parses m b a → parsesIn m b a.
Proof. intros Hm rest _. apply Hm. Qed.
Lemma parsesIn_wrap {A} ctx (m : M string A) b a : parsesIn m b a → parsesIn (wrap ctx m) b a.
Proof. intros Hm rest Hp. unfold wrap. by rewrite Hm. Qed.
Lemma parsesIn_bind_ret {A B} (m : M string A) (f : A → B) b a :
  parsesIn m b a → parsesIn (x ← m; mret (f x)) b (f a).
Proof. intros Hm rest Hp. by rewrite M_bind_step, Hm. Qed.
Lemma parses_limited {A} ctx passed (m : M string A) b a : parses m b a → parses (limited ctx passed m) b a.
Proof. intros Hm rest. unfold limited. by rewrite Hm. Qed.

Lemma emits_key `{Writer W} name :
  emits (writeKey name : M W unit) (json_String name +:+ objectColon) (slen name ≤ 8192)%Z.
Proof.
  unfold writeKey. destruct (Z.ltb_spec 8192 (slen name)); [apply emits_fail|].
  eapply emits_imp; [apply emits_bind; [apply emits_wrap, emits_Write|intros _; apply emits_Write]|done|done].
Qed.
Lemma fills_key name : fills (writeKey name) (slen name ≤ 8192)%Z.
Proof. intros Hs w. unfold writeKey. destruct (Z.ltb_spec 8192 (slen name)); [lia|]. by eexists _, _. Qed.
Lemma emits_string `{Writer W} field s :
  emits (writeString field s : M W unit) (json_String s) (slen s ≤ 8192)%Z.
Proof.
  unfold writeString. destruct (Z.ltb_spec 8192 (slen s)); [apply emits_fail|].
  eapply emits_imp; [apply emits_wrap, emits_Write|done|done].
Qed.
Lemma fills_string field s : fills (writeString field s) (slen s ≤ 8192)%Z.
Proof. intros Hs w. unfold writeString. destruct (Z.ltb_spec 8192 (slen s)); [lia|]. by eexists _, _. Qed.
Lemma emits_number `{Writer W} field z :
  is_int64 z → emits (writeInt64 field z : M W unit) (json_Int64 z) True.
Proof. intros Hz. unfold writeInt64. rewrite int64_id by done. apply emits_wrap, emits_Write. Qed.
Lemma fills_number field z : fills (writeInt64 field z) True.
Proof. apply fills_wrap, fills_Write. Qed.
Lemma emits_base64 `{Writer W} field b :
  emits (writeBytes field b : M W unit) (json_Bytes b) (slen b ≤ 2097152)%Z.
Proof.
  unfold writeBytes. destruct (Z.ltb_spec 2097152 (slen b)); [apply emits_fail|].
  eapply emits_imp; [apply emits_wrap, emits_Write|done|done].
Qed.
Lemma fills_base64 field b : fills (writeBytes field b) (slen b ≤ 2097152)%Z.
Proof. intros Hs w. unfold writeBytes. destruct (Z.ltb_spec 2097152 (slen b)); [lia|]. by eexists _, _. Qed.

Lemma parses_jsonText field s : (slen s ≤ 8192)%Z → utf8Valid s → parses (readString field) (json_String s) s.
Proof. intros. by apply parses_limited, ReadString_String. Qed.
Lemma parses_number field z : is_int64 z → parsesIn (readInt64 field) (json_Int64 z) z.
Proof.
  intros Hz. rewrite <-(int64_id z Hz) at 2. unfold readInt64.
  by apply (parsesIn_bind_ret _ int64), parsesIn_wrap, ReadNumberAsInt64_Int64.
Qed.
Lemma parses_base64 field b : (slen b ≤ 2097152)%Z → parses (readBytes field "") (json_Bytes b) b.
Proof.
  intros Hb. unfold readBytes. replace b with (if (0 <? slen b)%Z then b else "") at 2.
  - by apply (parses_bind_ret _ (λ bval, if (0 <? slen bval)%Z then bval else "")), parses_limited, ReadBytes_Bytes.
  - destruct (Z.ltb_spec 0 (slen b)) as [|Hz]; [done|]. destruct b; [done|]. unfold slen in Hz. cbn in Hz. lia.
Qed.
Lemma parses_didText field d b : did_MarshalDagJSON d = Ok b → parses (readDID field) b d.
Proof. intros Hd. apply parses_wrap. by apply did_DagJSON. Qed.

Section Object.
Context {T : Type} (name : string) (field : string → option (T → M string T)).
Definition knownKey (n : string) : Prop := utf8Valid n ∧ (slen n ≤ 8192)%Z.
Definition unknownKey (n : string) : Prop := knownKey n ∧ field n = None.
Definition discardable (v : string) : Prop := parsesIn DiscardType v tt.
Abbreviation read := (fieldsRead field parsesIn knownKey unknownKey discardable).

Lemma M_bind_reads {A B} (m : M string A) (k : A → M string B) s a s' :
  m s = (Ok a, s') → (m ≫= k) s = k a s'.
Proof. intros Hm. by rewrite M_bind_step, Hm. Qed.

Lemma parses_objectLoop l t t' n :
  read l t t' → l ≠ [] → length l ≤ n →
  ∀ rest, objectLoop name field n t (jsonEntries jsonEntry l +:+ objectClose +:+ rest) = (Ok t', rest).
Proof.
  intros Hr. revert n. induction Hr as [t|k v f l t1 t2 t3 (Hu & Hm) Hf Hr Hl IH|k v l t1 t2 ((Hu & Hm) & Hf) Hv Hl IH];
    intros n Hne Hlen rest; [done| |]; (destruct n as [|n]; cbn [length] in Hlen; [lia|]).
  all: assert (∃ tail, jsonEntries jsonEntry ((k, v) :: l) +:+ objectClose +:+ rest =
         json_String k +:+ objectColon +:+ v +:+ tail ∧ punctuated tail ∧
         (l = [] ∧ tail = objectClose +:+ rest ∨
          l ≠ [] ∧ tail = jsonComma +:+ jsonEntries jsonEntry l +:+ objectClose +:+ rest))
       as (tail & -> & Hp & Htail)
    by (destruct l as [|e l]; eexists; (split; [cbn [jsonEntries]; unfold jsonEntry at 1; cbn [fst snd];
          rewrite <-!string_app_assoc; reflexivity|]); split;
          [apply punctuated_close|by left|apply punctuated_comma|by right]).
  all: cbn [objectLoop]; rewrite (M_bind_reads _ _ _ k (objectColon +:+ v +:+ tail))
         by (apply parses_limited; by apply ReadString_String);
       rewrite (M_bind_reads _ _ _ tt (v +:+ tail)) by apply parses_wrap, ReadObjectColon_colon;
       rewrite Hf.
  1: rewrite (M_bind_reads _ _ _ t2 tail) by by apply Hr.
  2: rewrite (M_bind_reads _ _ _ t1 tail)
       by (rewrite M_bind_step; unfold wrap; by rewrite (Hv _ Hp)).
  all: destruct Htail as [[-> ->]|[Hl' ->]];
    [rewrite (M_bind_reads _ _ _ true rest) by apply parses_wrap, ReadObjectCloseOrComma_close;
     by inversion Hl
    |rewrite (M_bind_reads _ _ _ false (jsonEntries jsonEntry l +:+ objectClose +:+ rest))
       by apply parses_wrap, ReadObjectCloseOrComma_comma;
     (destruct n as [|n]; [destruct l; [done|cbn [length] in Hlen; lia]|]);
     by apply IH; [|lia]].
Qed.
Lemma parses_unmarshalObject l zero t :
  length l ≤ maxEntries → read l zero t → parses (unmarshalObject name field zero) (jsonObject l) t.
Proof.
  intros Hl Hr. unfold unmarshalObject, jsonObject. apply parses_noEOF.
  eapply (parses_bind _ _ _ _ tt); [apply parses_wrap, ReadObjectOpen_open|].
  intros rest. rewrite <-string_app_assoc. destruct l as [|[k v] l].
  - change (jsonEntries jsonEntry [] +:+ objectClose +:+ rest) with (objectClose +:+ rest).
    rewrite (M_bind_reads _ _ _ true (objectClose +:+ rest)) by (unfold wrap; by rewrite PeekObjectClose_close).
    rewrite (M_bind_reads _ _ _ tt rest) by apply parses_wrap, ReadObjectClose_close. by inversion Hr.
  - rewrite (M_bind_reads _ _ _ false (jsonEntries jsonEntry ((k, v) :: l) +:+ objectClose +:+ rest)).
    + by apply parses_objectLoop.
    + unfold wrap. replace (jsonEntries jsonEntry ((k, v) :: l))
        with (json_String k +:+ objectColon +:+ v +:+
              match l with [] => "" | _ => jsonComma +:+ jsonEntries jsonEntry l end).
      * rewrite <-string_app_assoc. by rewrite PeekObjectClose_field.
      * destruct l as [|e l]; [by rewrite string_app_empty_r|].
        change (json_String k +:+ objectColon +:+ v +:+ jsonComma +:+ jsonEntries jsonEntry (e :: l) =
          (json_String k +:+ objectColon +:+ v) +:+ jsonComma +:+ jsonEntries jsonEntry (e :: l)).
        by rewrite <-!string_app_assoc.
Qed.
End Object.
End RoundTrip.
End DagJson.
