(* ===== verification/ProviderCodecs.v ===== *)
(** * The codecs of the provider commands: [pkg/commands/admin/provider]

    [cbor_gen.go] and [json_gen.go] of the commands that administer storage
    nodes, one Module per struct and one pair of functions per format. Each
    struct is a map of its fields; a pointer is an option. The theorems about
    all of them are at the end. *)
From S2P Require Export Admin Cbor DagJson.

(** ** Structs of which some fields were read *)
Definition pick {A} (X : list string) (n : string) (v z : A) : A := if bool_decide (n ∈ X) then v else z.
Lemma pick_in {A} X n (v z : A) : n ∈ X → pick X n v z = v.
Proof. intros. unfold pick. by rewrite bool_decide_eq_true_2. Qed.
Lemma pick_nil {A} n (v z : A) : pick [] n v z = z.
Proof. unfold pick. by rewrite bool_decide_eq_false_2 by apply not_elem_of_nil. Qed.
Lemma pick_out {A} X n (v z : A) : n ∉ X → pick X n v z = z.
Proof. intros. unfold pick. by rewrite bool_decide_eq_false_2. Qed.
Lemma pick_here {A} X n (v z : A) : pick (n :: X) n v z = v.
Proof. apply pick_in. left. Qed.
Lemma pick_there {A} X n n' (v z : A) : n ≠ n' → pick (n' :: X) n v z = pick X n v z.
Proof.
  intros Hn. unfold pick. rewrite (bool_decide_ext (n ∈ n' :: X) (n ∈ X)); [done|].
  rewrite elem_of_cons. tauto.
Qed.
Lemma pick_ext {A} X Y n (v z : A) : (∀ n, n ∈ X ↔ n ∈ Y) → pick X n v z = pick Y n v z.
Proof. intros HXY. unfold pick. by rewrite (bool_decide_ext _ _ (HXY n)). Qed.
(** A case of a decoder's switch reads its field and sets it. *)
Lemma parses_set {A T} (m : M string A) (set : A → T) b a t :
  parses m b a → set a = t → parses (x ← m; mret (set x)) b t.
Proof. intros Hm <-. by apply parses_bind_ret. Qed.
Lemma parsesIn_set {A T} (m : M string A) (set : A → T) b a t :
  parsesIn m b a → set a = t → parsesIn (x ← m; mret (set x)) b t.
Proof. intros Hm <-. by apply DagJson.parsesIn_bind_ret. Qed.

(** The proof of [Decodes] for a struct: its entries one by one. *)
Ltac one_entry := lazymatch goal with
  | Hin : _ ∈ [] |- _ => by apply elem_of_nil in Hin
  | Hin : _ ∈ _ :: _ |- _ => apply elem_of_cons in Hin as [[= -> ->]|Hin]; [|one_entry]
  end.
Ltac named := repeat split; vm_compute; done.
Ltac fields_set := cbn; by rewrite ?pick_here, ?pick_there by done.
Ltac distinct := repeat constructor; rewrite ?elem_of_cons, ?elem_of_nil; naive_solver.
Ltac same_part := intros X Y HXY; cbn; by rewrite ?(pick_ext X Y) by done.
Ltac listed := solve [repeat first [apply list_elem_of_here | apply list_elem_of_further]].

(** The writes of a marshaller one by one. *)
Create HintDb codec.
#[export] Hint Resolve emits_Write Cbor.emits_text Cbor.emits_int64 Cbor.emits_bytes emits_encoded
  DagJson.emits_key DagJson.emits_string DagJson.emits_number DagJson.emits_base64
  fills_Write Cbor.fills_text Cbor.fills_int64 Cbor.fills_bytes fills_encoded
  DagJson.fills_key DagJson.fills_string DagJson.fills_number DagJson.fills_base64 : codec.
Ltac each_write := first
  [ solve [eauto with codec]
  | apply emits_bind; [each_write|intros []; each_write]
  | apply fills_bind; [each_write|intros []; each_write]
  | apply emits_wrap; each_write | apply fills_wrap; each_write ].

(** The bytes of the writes are those of the entries. *)
Ltac cbor_bytes entries :=
  unfold Cbor.cborMap, entries, Cbor.cborEntry; cbn [foldr length fst snd];
  rewrite (cbor_Header_small MajMap) by done; rewrite <-?string_app_assoc, ?string_app_empty_r; reflexivity.
Ltac json_bytes entries :=
  unfold DagJson.jsonObject, entries, DagJson.jsonEntry; cbn [DagJson.jsonEntries fst snd];
  rewrite <-?string_app_assoc, ?string_app_empty_r; reflexivity.
Ltac by_size := first [done | by vm_compute].

(** ** [Provider] *)
Module Provider.
Section Provider.
Context `{CborGen} `{!DagJsonGen}.
Import Admin.

Definition zero : Provider :=
  {| pr_Provider := did_Undef; pr_Endpoint := ""; pr_Weight := 0; pr_ReplicationWeight := 0 |}.
Definition set_Provider (d : DID) (t : Provider) : Provider := {| pr_Provider := d;
  pr_Endpoint := pr_Endpoint t; pr_Weight := pr_Weight t; pr_ReplicationWeight := pr_ReplicationWeight t |}.
Definition set_Endpoint (s : string) (t : Provider) : Provider := {| pr_Provider := pr_Provider t;
  pr_Endpoint := s; pr_Weight := pr_Weight t; pr_ReplicationWeight := pr_ReplicationWeight t |}.
Definition set_Weight (w : Z) (t : Provider) : Provider := {| pr_Provider := pr_Provider t;
  pr_Endpoint := pr_Endpoint t; pr_Weight := w; pr_ReplicationWeight := pr_ReplicationWeight t |}.
Definition set_ReplicationWeight (w : Z) (t : Provider) : Provider := {| pr_Provider := pr_Provider t;
  pr_Endpoint := pr_Endpoint t; pr_Weight := pr_Weight t; pr_ReplicationWeight := w |}.

Definition MarshalCBOR `{Writer W} (t : option Provider) : M W unit :=
  match t with
  | None => Write CborNull
  | Some t =>
      _ ← Write (byte 164);
      _ ← Cbor.writeName "weight";
      _ ← Cbor.writeInt64 (pr_Weight t);
      _ ← Cbor.writeName "endpoint";
      _ ← Cbor.writeText "Value in field t.Endpoint was too long" (pr_Endpoint t);
      _ ← Cbor.writeName "provider";
      _ ← Cbor.writeDID (pr_Provider t);
      _ ← Cbor.writeName "replicationWeight";
      Cbor.writeInt64 (pr_ReplicationWeight t)
  end.
Definition cborField (name : string) : option (Provider → M string Provider) :=
  if bool_decide (name = "weight") then Some (λ t, w ← Cbor.readInt64; mret (set_Weight w t))
  else if bool_decide (name = "endpoint") then Some (λ t, s ← ReadStringWithMax 8192; mret (set_Endpoint s t))
  else if bool_decide (name = "provider") then Some (λ t, d ← Cbor.readDID; mret (set_Provider d t))
  else if bool_decide (name = "replicationWeight")
  then Some (λ t, w ← Cbor.readInt64; mret (set_ReplicationWeight w t))
  else None.
Definition UnmarshalCBOR : M string Provider := Cbor.unmarshalMap "Provider" 17 cborField zero.

Definition MarshalDagJSON `{Writer W} (t : option Provider) : M W unit :=
  match t with
  | None => Write jsonNull
  | Some t =>
      _ ← Write objectOpen;
      _ ← DagJson.writeKey "endpoint";
      _ ← DagJson.writeString "t.Endpoint" (pr_Endpoint t);
      _ ← DagJson.WriteComma;
      _ ← DagJson.writeKey "provider";
      _ ← DagJson.writeDID "t.Provider" (pr_Provider t);
      _ ← DagJson.WriteComma;
      _ ← DagJson.writeKey "replicationWeight";
      _ ← DagJson.writeInt64 "t.ReplicationWeight" (pr_ReplicationWeight t);
      _ ← DagJson.WriteComma;
      _ ← DagJson.writeKey "weight";
      _ ← DagJson.writeInt64 "t.Weight" (pr_Weight t);
      Write objectClose
  end.
Definition jsonField (name : string) : option (Provider → M string Provider) :=
  if bool_decide (name = "endpoint")
  then Some (λ t, s ← DagJson.readString "t.Endpoint"; mret (set_Endpoint s t))
  else if bool_decide (name = "provider")
  then Some (λ t, d ← DagJson.readDID "t.Provider"; mret (set_Provider d t))
  else if bool_decide (name = "replicationWeight")
  then Some (λ t, w ← DagJson.readInt64 "t.ReplicationWeight"; mret (set_ReplicationWeight w t))
  else if bool_decide (name = "weight")
  then Some (λ t, w ← DagJson.readInt64 "t.Weight"; mret (set_Weight w t))
  else None.
Definition UnmarshalDagJSON : M string Provider := DagJson.unmarshalObject "Provider" jsonField zero.

(** What Go's types and UTF-8 allow, and what fits the limits of a format. *)
Definition typed (t : Provider) : Prop :=
  is_int64 (pr_Weight t) ∧ is_int64 (pr_ReplicationWeight t) ∧ utf8Valid (pr_Endpoint t).
Definition fitsCBOR (t : Provider) : Prop :=
  (slen (pr_Endpoint t) ≤ 8192)%Z ∧
  did_MarshalCBOR (pr_Provider t) = Ok (answered (did_MarshalCBOR (pr_Provider t))).
Definition fitsDagJSON (t : Provider) : Prop :=
  (slen (pr_Endpoint t) ≤ 8192)%Z ∧
  did_MarshalDagJSON (pr_Provider t) = Ok (answered (did_MarshalDagJSON (pr_Provider t))).
Definition cborEntries (t : Provider) : list (string * string) :=
  [("weight", Cbor.cborInt (pr_Weight t)); ("endpoint", Cbor.cborText (pr_Endpoint t));
   ("provider", answered (did_MarshalCBOR (pr_Provider t)));
   ("replicationWeight", Cbor.cborInt (pr_ReplicationWeight t))].
Definition jsonEntries (t : Provider) : list (string * string) :=
  [("endpoint", json_String (pr_Endpoint t)); ("provider", answered (did_MarshalDagJSON (pr_Provider t)));
   ("replicationWeight", json_Int64 (pr_ReplicationWeight t)); ("weight", json_Int64 (pr_Weight t))].
Definition part (t : Provider) (X : list string) : Provider := {|
  pr_Provider := pick X "provider" (pr_Provider t) did_Undef;
  pr_Endpoint := pick X "endpoint" (pr_Endpoint t) "";
  pr_Weight := pick X "weight" (pr_Weight t) 0%Z;
  pr_ReplicationWeight := pick X "replicationWeight" (pr_ReplicationWeight t) 0%Z |}.

Lemma provider_emits_cbor `{Writer W} t : typed t →
  emits (MarshalCBOR (Some t) : M W unit) (Cbor.cborMap (cborEntries t)) (fitsCBOR t).
Proof.
  intros (? & ? & _). eapply emits_imp.
  - unfold MarshalCBOR, Cbor.writeName, Cbor.writeDID. each_write.
  - cbor_bytes cborEntries.
  - unfold fitsCBOR; tauto.
Qed.
Lemma provider_fills_cbor t : fills (MarshalCBOR (Some t)) (fitsCBOR t).
Proof.
  unfold MarshalCBOR, Cbor.writeName, Cbor.writeDID. eapply fills_imp; [each_write|].
  unfold fitsCBOR. intros [? ?]. split_and!; by_size.
Qed.
Lemma provider_emits_json `{Writer W} t : typed t →
  emits (MarshalDagJSON (Some t) : M W unit) (DagJson.jsonObject (jsonEntries t)) (fitsDagJSON t).
Proof.
  intros (? & ? & _). eapply emits_imp.
  - unfold MarshalDagJSON, DagJson.writeDID, DagJson.WriteComma. each_write.
  - json_bytes jsonEntries.
  - unfold fitsDagJSON; tauto.
Qed.
Lemma provider_fills_json t : fills (MarshalDagJSON (Some t)) (fitsDagJSON t).
Proof.
  unfold MarshalDagJSON, DagJson.writeDID, DagJson.WriteComma. eapply fills_imp; [each_write|].
  unfold fitsDagJSON. intros [? ?]. split_and!; by_size.
Qed.

Lemma provider_part_nil t : part t [] = zero.
Proof. unfold part. by rewrite !pick_nil. Qed.
Lemma provider_part_cbor t : part t ((cborEntries t).*1) = t.
Proof. unfold part. rewrite !pick_in by listed. by destruct t. Qed.
Lemma provider_part_json t : part t ((jsonEntries t).*1) = t.
Proof. unfold part. rewrite !pick_in by listed. by destruct t. Qed.
Lemma provider_reads_cbor t : typed t → fitsCBOR t →
  Decodes cborField parses (Cbor.knownName 17) (cborEntries t) (part t).
Proof.
  intros (? & ? & ?) [? ?]. split; [distinct|intros X Y HXY; unfold part; by rewrite !(pick_ext X Y) by done|].
  intros X name v Hin HX. unfold cborEntries in Hin. one_entry;
    (split; [named|]); (eexists; split; [reflexivity|]); eapply parses_set.
  1: by apply Cbor.parses_int64. 2: by apply ReadStringWithMax_text. 3: by apply Cbor.parses_DID.
  4: by apply Cbor.parses_int64. all: unfold part, set_Provider, set_Endpoint, set_Weight, set_ReplicationWeight; fields_set.
Qed.
Lemma provider_reads_json t : typed t → fitsDagJSON t →
  Decodes jsonField parsesIn DagJson.knownKey (jsonEntries t) (part t).
Proof.
  intros (? & ? & ?) [? ?]. split; [distinct|intros X Y HXY; unfold part; by rewrite !(pick_ext X Y) by done|].
  intros X name v Hin HX. unfold jsonEntries in Hin. one_entry;
    (split; [named|]); (eexists; split; [reflexivity|]); eapply parsesIn_set.
  1: by apply DagJson.parses_in, DagJson.parses_jsonText. 2: by apply DagJson.parses_in, DagJson.parses_didText.
  3: by apply DagJson.parses_number. 4: by apply DagJson.parses_number. all: unfold part, set_Provider, set_Endpoint, set_Weight, set_ReplicationWeight; fields_set.
Qed.
End Provider.
End Provider.

(** ** [ListOK], which is its only field *)
Module ListOK.
Section ListOK.
Context `{CborGen} `{!DagJsonGen}.
Import Admin.

Definition zero : list Provider := [].
Fixpoint writeItems `{Writer W} (ps : list Provider) : M W unit :=
  match ps with
  | [] => mret tt
  | v :: ps => _ ← Provider.MarshalCBOR (Some v); writeItems ps
  end.
Definition MarshalCBOR `{Writer W} (t : option (list Provider)) : M W unit :=
  match t with
  | None => Write CborNull
  | Some t =>
      _ ← Write (byte 161);
      _ ← Cbor.writeName "providers";
      if (8192 <? len t)%Z then fail (Errorf "Slice value in field t.Providers was too long")
      else
        _ ← Cbor.WriteMajorTypeHeader MajArray (uint64 (len t));
        writeItems t
  end.
Fixpoint readItems (n : nat) : M string (list Provider) :=
  match n with
  | 0 => mret []
  | S n =>
      p ← wrap "unmarshaling t.Providers[i]" Provider.UnmarshalCBOR;
      ps ← readItems n;
      mret (p :: ps)
  end.
(** An empty array leaves the slice as it is. *)
Definition readProviders (current : list Provider) : M string (list Provider) :=
  '(maj, extra) ← ReadHeader;
  if (8192 <? extra)%Z then fail (Errorf ("t.Providers: array too large (" +:+ Itoa extra +:+ ")"))
  else if bool_decide (maj ≠ MajArray) then fail (Errorf "expected cbor array")
  else items ← readItems (Z.to_nat extra); mret (if (0 <? extra)%Z then items else current).
Definition cborField (name : string) : option (list Provider → M string (list Provider)) :=
  if bool_decide (name = "providers") then Some readProviders else None.
Definition UnmarshalCBOR : M string (list Provider) := Cbor.unmarshalMap "ListOK" 9 cborField zero.

(** The items after the first, each behind a comma. *)
Fixpoint writeRest `{Writer W} (ps : list Provider) : M W unit :=
  match ps with
  | [] => mret tt
  | v :: ps =>
      _ ← wrap "writing comma for field t.Providers" DagJson.WriteComma;
      _ ← wrap "marshaling field v" (Provider.MarshalDagJSON (Some v));
      writeRest ps
  end.
Definition MarshalDagJSON `{Writer W} (t : option (list Provider)) : M W unit :=
  match t with
  | None => Write jsonNull
  | Some t =>
      _ ← Write objectOpen;
      _ ← DagJson.writeKey "providers";
      if (8192 <? len t)%Z then fail (Errorf "slice value in field t.Providers was too long")
      else
        _ ← wrap "writing array open for field t.Providers" (Write arrayOpen);
        _ ← match t with
            | [] => mret tt
            | v :: ps =>
                _ ← wrap "marshaling field v" (Provider.MarshalDagJSON (Some v)); writeRest ps
            end;
        _ ← wrap "writing array close for field t.Providers" (Write arrayClose);
        Write objectClose
  end.
Fixpoint itemLoop (n : nat) (ps : list Provider) : M string (list Provider) :=
  match n with
  | 0 => mret ps
  | S n =>
      item ← wrap "unmarshaling item[0]" Provider.UnmarshalDagJSON;
      let ps := ps ++ [item] in
      close ← wrap "reading array close or comma for field t.Providers" ReadArrayCloseOrComma;
      if (close : bool) then mret ps
      else match n with
           | 0 => fail (Errorf "reading array for field t.Providers: slice too large")
           | S _ => itemLoop n ps
           end
  end.
(** The items are appended to what the slice holds. *)
Definition readArray (current : list Provider) : M string (list Provider) :=
  _ ← wrap "reading array open for field t.Providers" ReadArrayOpen;
  close ← wrap "peeking array close for field t.Providers" PeekArrayClose;
  if (close : bool) then
    _ ← wrap "reading array close for field t.Providers" ReadArrayClose; mret current
  else itemLoop DagJson.maxEntries current.
Definition jsonField (name : string) : option (list Provider → M string (list Provider)) :=
  if bool_decide (name = "providers") then Some readArray else None.
Definition UnmarshalDagJSON : M string (list Provider) := DagJson.unmarshalObject "ListOK" jsonField zero.

Definition typed (t : list Provider) : Prop := Forall Provider.typed t.
Definition fitsCBOR (t : list Provider) : Prop := (len t ≤ 8192)%Z ∧ Forall Provider.fitsCBOR t.
Definition fitsDagJSON (t : list Provider) : Prop := (len t ≤ 8192)%Z ∧ Forall Provider.fitsDagJSON t.
Definition cborItems (t : list Provider) : string :=
  foldr (λ p rest, Cbor.cborMap (Provider.cborEntries p) +:+ rest) "" t.
Definition cborEntries (t : list Provider) : list (string * string) :=
  [("providers", cbor_Header MajArray (len t) +:+ cborItems t)].
Definition jsonItems : list Provider → string :=
  DagJson.jsonEntries (λ p, DagJson.jsonObject (Provider.jsonEntries p)).
Definition jsonEntries (t : list Provider) : list (string * string) :=
  [("providers", arrayOpen +:+ jsonItems t +:+ arrayClose)].
Definition part (t : list Provider) (X : list string) : list Provider := pick X "providers" t [].

Lemma items_emits `{Writer W} ps : typed ps →
  emits (writeItems ps : M W unit) (cborItems ps) (Forall Provider.fitsCBOR ps).
Proof.
  induction 1 as [|p ps Hp Hps IH]; [intros w [] w' [= <-]; by rewrite string_app_empty_r|].
  eapply emits_imp; [apply emits_bind; [by apply Provider.provider_emits_cbor|intros _; apply IH]|done|].
  intros [? ?]. by constructor.
Qed.
Lemma list_emits_cbor `{Writer W} t : typed t →
  emits (MarshalCBOR (Some t) : M W unit) (Cbor.cborMap (cborEntries t)) (fitsCBOR t).
Proof.
  intros Ht. unfold MarshalCBOR, fitsCBOR, Cbor.writeName. destruct (Z.ltb_spec 8192 (len t)).
  - eapply emits_imp.
    + apply emits_bind; [apply emits_Write|intros []]. apply emits_bind; [eauto with codec|intros []].
      apply (emits_fail _ (cbor_Header MajArray (len t) +:+ cborItems t)
               (len t ≤ 8192 ∧ Forall Provider.fitsCBOR t)%Z).
    + cbor_bytes cborEntries.
    + tauto.
  - rewrite uint64_id by (unfold is_uint64, len in *; lia). eapply emits_imp.
    + apply emits_bind; [apply emits_Write|intros []]. apply emits_bind; [eauto with codec|intros []].
      apply emits_bind; [apply emits_Write|intros []; by apply items_emits].
    + cbor_bytes cborEntries.
    + tauto.
Qed.
Lemma items_fill ps : fills (writeItems ps) (Forall Provider.fitsCBOR ps).
Proof.
  induction ps as [|p ps IH]; [intros _ w; by eexists _, _|]. eapply fills_imp.
  - apply fills_bind; [apply Provider.provider_fills_cbor|intros _; apply IH].
  - by inversion 1.
Qed.
Lemma list_fills_cbor t : fills (MarshalCBOR (Some t)) (fitsCBOR t).
Proof.
  unfold MarshalCBOR, Cbor.writeName, fitsCBOR. destruct (Z.ltb_spec 8192 (len t)); [intros [? _]; lia|].
  eapply fills_imp.
  - apply fills_bind; [apply fills_Write|intros []]. apply fills_bind; [apply Cbor.fills_text|intros []].
    apply fills_bind; [apply fills_Write|intros []; apply items_fill].
  - intros [_ Hf]. split_and!; by_size.
Qed.
Lemma items_parse ps : typed ps → Forall Provider.fitsCBOR ps →
  parses (readItems (length ps)) (cborItems ps) ps.
Proof.
  induction 1 as [|p ps Hp Hps IH]; [by intros _|]. inversion 1; subst. cbn [length readItems cborItems foldr].
  apply (parses_bind _ _ _ _ p); [apply parses_wrap, Cbor.parses_unmarshalMap|apply (parses_set _ (cons p) _ ps); [by apply IH|done]].
  - pose proof cbg_MaxLength_small. cbn. lia.
  - done.
  - eapply fieldsRead_struct; [by apply Provider.provider_reads_cbor|apply Provider.provider_part_nil|
      apply Provider.provider_part_cbor|apply shuffled_entries].
Qed.
Lemma list_reads_cbor t : typed t → fitsCBOR t →
  Decodes cborField parses (Cbor.knownName 9) (cborEntries t) (part t).
Proof.
  intros Ht [Hl Hf]. split; [distinct|intros X Y HXY; unfold part; by rewrite (pick_ext X Y)|].
  intros X name v Hin HX. unfold cborEntries in Hin. one_entry.
  split; [named|]. eexists. split; [reflexivity|]. unfold readProviders.
  eapply (parses_bind _ _ _ _ (MajArray, len t)).
  { apply ReadHeader_Header; [done|unfold is_uint64, len in *; lia]. }
  cbn. destruct (Z.ltb_spec 8192 (len t)); [lia|]. rewrite bool_decide_eq_false_2 by tauto.
  apply (parses_set _ (λ items, if (0 <? len t)%Z then items else part t X) _ t).
  - unfold len. rewrite Nat2Z.id. by apply items_parse.
  - unfold part. rewrite pick_here. destruct t; [|done]. unfold pick. by destruct (bool_decide _).
Qed.
Lemma list_part_nil t : part t [] = zero.
Proof. apply pick_nil. Qed.
Lemma list_part_cbor t : part t ((cborEntries t).*1) = t.
Proof. by apply pick_in; listed. Qed.

(** In JSON an item is followed by a comma or by the end of the array. *)
Definition restItems (ps : list Provider) : string :=
  foldr (λ p rest, jsonComma +:+ DagJson.jsonObject (Provider.jsonEntries p) +:+ rest) "" ps.
Lemma jsonItems_cons p ps :
  jsonItems (p :: ps) = DagJson.jsonObject (Provider.jsonEntries p) +:+ restItems ps.
Proof.
  revert p. induction ps as [|q ps IH]; intros p; [by rewrite string_app_empty_r|].
  change (jsonItems (p :: q :: ps)) with
    (DagJson.jsonObject (Provider.jsonEntries p) +:+ jsonComma +:+ jsonItems (q :: ps)).
  by rewrite IH.
Qed.
Lemma rest_emits `{Writer W} ps : typed ps →
  emits (writeRest ps : M W unit) (restItems ps) (Forall Provider.fitsDagJSON ps).
Proof.
  induction 1 as [|p ps Hp Hps IH]; [intros w [] w' [= <-]; by rewrite string_app_empty_r|].
  eapply emits_imp.
  - apply emits_bind; [apply emits_wrap, emits_Write|intros []].
    apply emits_bind; [by apply emits_wrap, Provider.provider_emits_json|intros _; apply IH].
  - done.
  - intros (_ & ? & ?). by constructor.
Qed.
Lemma array_emits `{Writer W} ps : typed ps →
  emits (match ps with
         | [] => mret tt
         | v :: ps => _ ← wrap "marshaling field v" (Provider.MarshalDagJSON (Some v)); writeRest ps
         end : M W unit) (jsonItems ps) (Forall Provider.fitsDagJSON ps).
Proof.
  destruct 1 as [|p ps Hp Hps]; [intros w [] w' [= <-]; by rewrite string_app_empty_r|].
  rewrite jsonItems_cons. eapply emits_imp; [|done|].
  - apply emits_bind; [by apply emits_wrap, Provider.provider_emits_json|intros []; by apply rest_emits].
  - intros [? ?]. by constructor.
Qed.
Lemma list_emits_json `{Writer W} t : typed t →
  emits (MarshalDagJSON (Some t) : M W unit) (DagJson.jsonObject (jsonEntries t)) (fitsDagJSON t).
Proof.
  intros Ht. unfold MarshalDagJSON, fitsDagJSON. destruct (Z.ltb_spec 8192 (len t)); eapply emits_imp.
  - apply emits_bind; [apply emits_Write|intros []]. apply emits_bind; [eauto with codec|intros []].
    apply (emits_fail _ (arrayOpen +:+ jsonItems t +:+ arrayClose +:+ objectClose)
             (len t ≤ 8192 ∧ Forall Provider.fitsDagJSON t)%Z).
  - json_bytes jsonEntries.
  - tauto.
  - apply emits_bind; [apply emits_Write|intros []]. apply emits_bind; [eauto with codec|intros []].
    apply emits_bind; [apply emits_wrap, emits_Write|intros []].
    apply emits_bind; [by apply array_emits|intros []].
    apply emits_bind; [apply emits_wrap, emits_Write|intros []; apply emits_Write].
  - json_bytes jsonEntries.
  - tauto.
Qed.
Lemma rest_fill ps : fills (writeRest ps) (Forall Provider.fitsDagJSON ps).
Proof.
  induction ps as [|p ps IH]; [intros _ w; by eexists _, _|]. eapply fills_imp.
  - apply fills_bind; [apply fills_wrap, fills_Write|intros []].
    apply fills_bind; [apply fills_wrap, Provider.provider_fills_json|intros _; apply IH].
  - by inversion 1.
Qed.
Lemma list_fills_json t : fills (MarshalDagJSON (Some t)) (fitsDagJSON t).
Proof.
  unfold MarshalDagJSON, fitsDagJSON. destruct (Z.ltb_spec 8192 (len t)); [intros [? _]; lia|].
  eapply fills_imp.
  - apply fills_bind; [apply fills_Write|intros []]. apply fills_bind; [apply DagJson.fills_key|intros []].
    apply fills_bind; [apply fills_wrap, fills_Write|intros []].
    apply (fills_bind _ _ (Forall Provider.fitsDagJSON t) True).
    + destruct t as [|p ps]; [intros _ w; by eexists _, _|]. eapply fills_imp.
      * apply fills_bind; [apply fills_wrap, Provider.provider_fills_json|intros []; apply rest_fill].
      * by inversion 1.
    + intros []. eapply fills_imp; [apply fills_bind; [apply fills_wrap, fills_Write|intros []; apply fills_Write]|done].
  - intros [_ Hf]. split_and!; by_size.
Qed.
Lemma provider_parses_json p : Provider.typed p → Provider.fitsDagJSON p →
  parses Provider.UnmarshalDagJSON (DagJson.jsonObject (Provider.jsonEntries p)) p.
Proof.
  intros Hp Hf. apply DagJson.parses_unmarshalObject; [apply Nat.leb_le; by vm_compute|].
  eapply fieldsRead_struct; [by apply Provider.provider_reads_json|apply Provider.provider_part_nil|
    apply Provider.provider_part_json|apply shuffled_entries].
Qed.
Lemma items_loop ps n acc p : typed (p :: ps) → Forall Provider.fitsDagJSON (p :: ps) →
  length (p :: ps) ≤ n →
  ∀ rest, itemLoop n acc (DagJson.jsonObject (Provider.jsonEntries p) +:+ restItems ps +:+ arrayClose +:+ rest) =
    (Ok (acc ++ p :: ps), rest).
Proof.
  revert p n acc. induction ps as [|q ps IH]; intros p n acc Ht Hf Hn rest;
    (destruct n as [|n]; cbn [length] in Hn; [lia|]); inversion Ht; inversion Hf; subst; cbn [itemLoop].
  - rewrite (DagJson.M_bind_reads _ _ _ p (arrayClose +:+ rest)) by (by apply parses_wrap, provider_parses_json).
    by rewrite (DagJson.M_bind_reads _ _ _ true rest) by apply parses_wrap, ReadArrayCloseOrComma_close.
  - change (restItems (q :: ps)) with
      (jsonComma +:+ DagJson.jsonObject (Provider.jsonEntries q) +:+ restItems ps).
    rewrite <-!string_app_assoc.
    rewrite (DagJson.M_bind_reads _ _ _ p (jsonComma +:+ DagJson.jsonObject (Provider.jsonEntries q) +:+
      restItems ps +:+ arrayClose +:+ rest)) by (by apply parses_wrap, provider_parses_json).
    rewrite (DagJson.M_bind_reads _ _ _ false (DagJson.jsonObject (Provider.jsonEntries q) +:+
      restItems ps +:+ arrayClose +:+ rest)) by apply parses_wrap, ReadArrayCloseOrComma_comma.
    destruct n as [|n]; [lia|]. rewrite IH by (done || cbn [length]; lia). by rewrite <-app_assoc.
Qed.
Lemma list_reads_json t : typed t → fitsDagJSON t →
  Decodes jsonField parsesIn DagJson.knownKey (jsonEntries t) (part t).
Proof.
  intros Ht [Hl Hf]. split; [distinct|intros X Y HXY; unfold part; by rewrite (pick_ext X Y)|].
  intros X name v Hin HX. unfold jsonEntries in Hin. one_entry.
  split; [named|]. eexists. split; [reflexivity|]. apply DagJson.parses_in. unfold readArray, part.
  rewrite pick_here. replace (pick X _ _ _) with ([] : list Provider)
    by (unfold pick; by rewrite bool_decide_eq_false_2).
  eapply (parses_bind _ _ _ _ tt); [apply parses_wrap, ReadArrayOpen_open|]. intros rest.
  rewrite <-string_app_assoc. destruct t as [|p ps].
  - change (jsonItems [] +:+ arrayClose +:+ rest) with (arrayClose +:+ rest).
    rewrite (DagJson.M_bind_reads _ _ _ true (arrayClose +:+ rest)) by (unfold wrap; by rewrite PeekArrayClose_close).
    by rewrite (DagJson.M_bind_reads _ _ _ tt rest) by apply parses_wrap, ReadArrayClose_close.
  - rewrite jsonItems_cons, <-string_app_assoc. unfold DagJson.jsonObject at 1. rewrite <-string_app_assoc.
    erewrite (DagJson.M_bind_reads _ _ _ false) by (unfold wrap; by rewrite PeekArrayClose_object).
    rewrite string_app_assoc. fold (DagJson.jsonObject (Provider.jsonEntries p)).
    apply (items_loop ps _ [] p Ht Hf). unfold DagJson.maxEntries, len in *. lia.
Qed.
Lemma list_part_json t : part t ((jsonEntries t).*1) = t.
Proof. by apply pick_in; listed. Qed.
End ListOK.
End ListOK.

(** ** [RegisterArguments] *)
Module RegisterArguments.
Section RegisterArguments.
Context `{CborGen} `{!DagJsonGen}.
Import Admin.

Definition zero : RegisterArguments := {| rg_Provider := did_Undef; rg_Endpoint := ""; rg_Proofs := "" |}.
Definition set_Provider (x : DID) (t : RegisterArguments) : RegisterArguments :=
  {| rg_Provider := x; rg_Endpoint := rg_Endpoint t; rg_Proofs := rg_Proofs t |}.
Definition set_Endpoint (x : string) (t : RegisterArguments) : RegisterArguments :=
  {| rg_Provider := rg_Provider t; rg_Endpoint := x; rg_Proofs := rg_Proofs t |}.
Definition set_Proofs (x : string) (t : RegisterArguments) : RegisterArguments :=
  {| rg_Provider := rg_Provider t; rg_Endpoint := rg_Endpoint t; rg_Proofs := x |}.

Definition MarshalCBOR `{Writer W} (t : option RegisterArguments) : M W unit :=
  match t with
  | None => Write CborNull
  | Some t =>
      _ ← Write (byte 163);
      _ ← Cbor.writeName "proofs";
      _ ← Cbor.writeBytes "Byte array in field t.Proofs was too long" (rg_Proofs t);
      _ ← Cbor.writeName "endpoint";
      _ ← Cbor.writeText "Value in field t.Endpoint was too long" (rg_Endpoint t);
      _ ← Cbor.writeName "provider";
      Cbor.writeDID (rg_Provider t)
  end.
Definition cborField (name : string) : option (RegisterArguments → M string RegisterArguments) :=
  if bool_decide (name = "proofs") then Some (λ t, x ← Cbor.readBytes (rg_Proofs t); mret (set_Proofs x t))
  else if bool_decide (name = "endpoint") then Some (λ t, x ← ReadStringWithMax 8192; mret (set_Endpoint x t))
  else if bool_decide (name = "provider") then Some (λ t, x ← Cbor.readDID; mret (set_Provider x t))
  else None.
Definition UnmarshalCBOR : M string RegisterArguments := Cbor.unmarshalMap "RegisterArguments" 8 cborField zero.

Definition MarshalDagJSON `{Writer W} (t : option RegisterArguments) : M W unit :=
  match t with
  | None => Write jsonNull
  | Some t =>
      _ ← Write objectOpen;
      _ ← DagJson.writeKey "endpoint";
      _ ← DagJson.writeString "t.Endpoint" (rg_Endpoint t);
      _ ← DagJson.WriteComma;
      _ ← DagJson.writeKey "proofs";
      _ ← DagJson.writeBytes "t.Proofs" (rg_Proofs t);
      _ ← DagJson.WriteComma;
      _ ← DagJson.writeKey "provider";
      _ ← DagJson.writeDID "t.Provider" (rg_Provider t);
      Write objectClose
  end.
Definition jsonField (name : string) : option (RegisterArguments → M string RegisterArguments) :=
  if bool_decide (name = "endpoint") then Some (λ t, x ← DagJson.readString "t.Endpoint"; mret (set_Endpoint x t))
  else if bool_decide (name = "proofs") then Some (λ t, x ← DagJson.readBytes "t.Proofs" (rg_Proofs t); mret (set_Proofs x t))
  else if bool_decide (name = "provider") then Some (λ t, x ← DagJson.readDID "t.Provider"; mret (set_Provider x t))
  else None.
Definition UnmarshalDagJSON : M string RegisterArguments := DagJson.unmarshalObject "RegisterArguments" jsonField zero.

Definition typed (t : RegisterArguments) : Prop := utf8Valid (rg_Endpoint t).
Definition fitsCBOR (t : RegisterArguments) : Prop :=
  (slen (rg_Proofs t) ≤ 2097152)%Z ∧
  (slen (rg_Endpoint t) ≤ 8192)%Z ∧
  did_MarshalCBOR (rg_Provider t) = Ok (answered (did_MarshalCBOR (rg_Provider t))).
Definition fitsDagJSON (t : RegisterArguments) : Prop :=
  (slen (rg_Endpoint t) ≤ 8192)%Z ∧
  (slen (rg_Proofs t) ≤ 2097152)%Z ∧
  did_MarshalDagJSON (rg_Provider t) = Ok (answered (did_MarshalDagJSON (rg_Provider t))).
Definition cborEntries (t : RegisterArguments) : list (string * string) :=
  [("proofs", Cbor.cborBytes (rg_Proofs t));
   ("endpoint", Cbor.cborText (rg_Endpoint t));
   ("provider", answered (did_MarshalCBOR (rg_Provider t)))].
Definition jsonEntries (t : RegisterArguments) : list (string * string) :=
  [("endpoint", json_String (rg_Endpoint t));
   ("proofs", json_Bytes (rg_Proofs t));
   ("provider", answered (did_MarshalDagJSON (rg_Provider t)))].
Definition part (t : RegisterArguments) (X : list string) : RegisterArguments := {|
  rg_Provider := pick X "provider" (rg_Provider t) did_Undef;
  rg_Endpoint := pick X "endpoint" (rg_Endpoint t) "";
  rg_Proofs := pick X "proofs" (rg_Proofs t) "" |}.

Lemma register_emits_cbor `{Writer W} t : typed t →
  emits (MarshalCBOR (Some t) : M W unit) (Cbor.cborMap (cborEntries t)) (fitsCBOR t).
Proof.
  intros ?. eapply emits_imp.
  - unfold MarshalCBOR, Cbor.writeName, Cbor.writeDID. each_write.
  - cbor_bytes cborEntries.
  - unfold fitsCBOR; tauto.
Qed.
Lemma register_fills_cbor t : fills (MarshalCBOR (Some t)) (fitsCBOR t).
Proof.
  unfold MarshalCBOR, Cbor.writeName, Cbor.writeDID. eapply fills_imp; [each_write|].
  unfold fitsCBOR. intros (? & ? & ?). split_and!; by_size.
Qed.
Lemma register_emits_json `{Writer W} t : typed t →
  emits (MarshalDagJSON (Some t) : M W unit) (DagJson.jsonObject (jsonEntries t)) (fitsDagJSON t).
Proof.
  intros ?. eapply emits_imp.
  - unfold MarshalDagJSON, DagJson.writeDID, DagJson.WriteComma. each_write.
  - json_bytes jsonEntries.
  - unfold fitsDagJSON; tauto.
Qed.
Lemma register_fills_json t : fills (MarshalDagJSON (Some t)) (fitsDagJSON t).
Proof.
  unfold MarshalDagJSON, DagJson.writeDID, DagJson.WriteComma. eapply fills_imp; [each_write|].
  unfold fitsDagJSON. intros (? & ? & ?). split_and!; by_size.
Qed.

Lemma register_part_nil t : part t [] = zero.
Proof. unfold part. by rewrite !pick_nil. Qed.
Lemma register_part_cbor t : part t ((cborEntries t).*1) = t.
Proof. unfold part. rewrite !pick_in by listed. by destruct t. Qed.
Lemma register_part_json t : part t ((jsonEntries t).*1) = t.
Proof. unfold part. rewrite !pick_in by listed. by destruct t. Qed.
Lemma register_reads_cbor t : typed t → fitsCBOR t →
  Decodes cborField parses (Cbor.knownName 8) (cborEntries t) (part t).
Proof.
  intros ? (? & ? & ?). split; [distinct|intros X Y HXY; unfold part; by rewrite !(pick_ext X Y) by done|].
  intros X name v Hin HX. unfold cborEntries in Hin. one_entry;
    (split; [named|]); (eexists; split; [reflexivity|]); eapply parses_set.
  1: unfold part; cbn; rewrite pick_out by done; by apply Cbor.parses_bytes. 2: by apply ReadStringWithMax_text. 3: by apply Cbor.parses_DID.
  all: unfold part, set_Provider, set_Endpoint, set_Proofs; fields_set.
Qed.
Lemma register_reads_json t : typed t → fitsDagJSON t →
  Decodes jsonField parsesIn DagJson.knownKey (jsonEntries t) (part t).
Proof.
  intros ? (? & ? & ?). split; [distinct|intros X Y HXY; unfold part; by rewrite !(pick_ext X Y) by done|].
  intros X name v Hin HX. unfold jsonEntries in Hin. one_entry;
    (split; [named|]); (eexists; split; [reflexivity|]); eapply parsesIn_set.
  1: by apply DagJson.parses_in, DagJson.parses_jsonText. 2: unfold part; cbn; rewrite pick_out by done; by apply DagJson.parses_in, DagJson.parses_base64. 3: by apply DagJson.parses_in, DagJson.parses_didText.
  all: unfold part, set_Provider, set_Endpoint, set_Proofs; fields_set.
Qed.
End RegisterArguments.
End RegisterArguments.

(** ** [SetArguments] of [proofs] *)
Module SetProofs.
Section SetProofs.
Context `{CborGen} `{!DagJsonGen}.
Import Admin.

Definition zero : SetProofsArguments := {| sp_Provider := did_Undef; sp_Proofs := "" |}.
Definition set_Provider (x : DID) (t : SetProofsArguments) : SetProofsArguments :=
  {| sp_Provider := x; sp_Proofs := sp_Proofs t |}.
Definition set_Proofs (x : string) (t : SetProofsArguments) : SetProofsArguments :=
  {| sp_Provider := sp_Provider t; sp_Proofs := x |}.

Definition MarshalCBOR `{Writer W} (t : option SetProofsArguments) : M W unit :=
  match t with
  | None => Write CborNull
  | Some t =>
      _ ← Write (byte 162);
      _ ← Cbor.writeName "proofs";
      _ ← Cbor.writeBytes "Byte array in field t.Proofs was too long" (sp_Proofs t);
      _ ← Cbor.writeName "provider";
      Cbor.writeDID (sp_Provider t)
  end.
Definition cborField (name : string) : option (SetProofsArguments → M string SetProofsArguments) :=
  if bool_decide (name = "proofs") then Some (λ t, x ← Cbor.readBytes (sp_Proofs t); mret (set_Proofs x t))
  else if bool_decide (name = "provider") then Some (λ t, x ← Cbor.readDID; mret (set_Provider x t))
  else None.
Definition UnmarshalCBOR : M string SetProofsArguments := Cbor.unmarshalMap "SetArguments" 8 cborField zero.

Definition MarshalDagJSON `{Writer W} (t : option SetProofsArguments) : M W unit :=
  match t with
  | None => Write jsonNull
  | Some t =>
      _ ← Write objectOpen;
      _ ← DagJson.writeKey "proofs";
      _ ← DagJson.writeBytes "t.Proofs" (sp_Proofs t);
      _ ← DagJson.WriteComma;
      _ ← DagJson.writeKey "provider";
      _ ← DagJson.writeDID "t.Provider" (sp_Provider t);
      Write objectClose
  end.
Definition jsonField (name : string) : option (SetProofsArguments → M string SetProofsArguments) :=
  if bool_decide (name = "proofs") then Some (λ t, x ← DagJson.readBytes "t.Proofs" (sp_Proofs t); mret (set_Proofs x t))
  else if bool_decide (name = "provider") then Some (λ t, x ← DagJson.readDID "t.Provider"; mret (set_Provider x t))
  else None.
Definition UnmarshalDagJSON : M string SetProofsArguments := DagJson.unmarshalObject "SetArguments" jsonField zero.

Definition typed (t : SetProofsArguments) : Prop := True.
Definition fitsCBOR (t : SetProofsArguments) : Prop :=
  (slen (sp_Proofs t) ≤ 2097152)%Z ∧
  did_MarshalCBOR (sp_Provider t) = Ok (answered (did_MarshalCBOR (sp_Provider t))).
Definition fitsDagJSON (t : SetProofsArguments) : Prop :=
  (slen (sp_Proofs t) ≤ 2097152)%Z ∧
  did_MarshalDagJSON (sp_Provider t) = Ok (answered (did_MarshalDagJSON (sp_Provider t))).
Definition cborEntries (t : SetProofsArguments) : list (string * string) :=
  [("proofs", Cbor.cborBytes (sp_Proofs t));
   ("provider", answered (did_MarshalCBOR (sp_Provider t)))].
Definition jsonEntries (t : SetProofsArguments) : list (string * string) :=
  [("proofs", json_Bytes (sp_Proofs t));
   ("provider", answered (did_MarshalDagJSON (sp_Provider t)))].
Definition part (t : SetProofsArguments) (X : list string) : SetProofsArguments := {|
  sp_Provider := pick X "provider" (sp_Provider t) did_Undef;
  sp_Proofs := pick X "proofs" (sp_Proofs t) "" |}.

Lemma setproofs_emits_cbor `{Writer W} t : typed t →
  emits (MarshalCBOR (Some t) : M W unit) (Cbor.cborMap (cborEntries t)) (fitsCBOR t).
Proof.
  intros ?. eapply emits_imp.
  - unfold MarshalCBOR, Cbor.writeName, Cbor.writeDID. each_write.
  - cbor_bytes cborEntries.
  - unfold fitsCBOR; tauto.
Qed.
Lemma setproofs_fills_cbor t : fills (MarshalCBOR (Some t)) (fitsCBOR t).
Proof.
  unfold MarshalCBOR, Cbor.writeName, Cbor.writeDID. eapply fills_imp; [each_write|].
  unfold fitsCBOR. intros (? & ?). split_and!; by_size.
Qed.
Lemma setproofs_emits_json `{Writer W} t : typed t →
  emits (MarshalDagJSON (Some t) : M W unit) (DagJson.jsonObject (jsonEntries t)) (fitsDagJSON t).
Proof.
  intros ?. eapply emits_imp.
  - unfold MarshalDagJSON, DagJson.writeDID, DagJson.WriteComma. each_write.
  - json_bytes jsonEntries.
  - unfold fitsDagJSON; tauto.
Qed.
Lemma setproofs_fills_json t : fills (MarshalDagJSON (Some t)) (fitsDagJSON t).
Proof.
  unfold MarshalDagJSON, DagJson.writeDID, DagJson.WriteComma. eapply fills_imp; [each_write|].
  unfold fitsDagJSON. intros (? & ?). split_and!; by_size.
Qed.

Lemma setproofs_part_nil t : part t [] = zero.
Proof. unfold part. by rewrite !pick_nil. Qed.
Lemma setproofs_part_cbor t : part t ((cborEntries t).*1) = t.
Proof. unfold part. rewrite !pick_in by listed. by destruct t. Qed.
Lemma setproofs_part_json t : part t ((jsonEntries t).*1) = t.
Proof. unfold part. rewrite !pick_in by listed. by destruct t. Qed.
Lemma setproofs_reads_cbor t : typed t → fitsCBOR t →
  Decodes cborField parses (Cbor.knownName 8) (cborEntries t) (part t).
Proof.
  intros ? (? & ?). split; [distinct|intros X Y HXY; unfold part; by rewrite !(pick_ext X Y) by done|].
  intros X name v Hin HX. unfold cborEntries in Hin. one_entry;
    (split; [named|]); (eexists; split; [reflexivity|]); eapply parses_set.
  1: unfold part; cbn; rewrite pick_out by done; by apply Cbor.parses_bytes. 2: by apply Cbor.parses_DID.
  all: unfold part, set_Provider, set_Proofs; fields_set.
Qed.
Lemma setproofs_reads_json t : typed t → fitsDagJSON t →
  Decodes jsonField parsesIn DagJson.knownKey (jsonEntries t) (part t).
Proof.
  intros ? (? & ?). split; [distinct|intros X Y HXY; unfold part; by rewrite !(pick_ext X Y) by done|].
  intros X name v Hin HX. unfold jsonEntries in Hin. one_entry;
    (split; [named|]); (eexists; split; [reflexivity|]); eapply parsesIn_set.
  1: unfold part; cbn; rewrite pick_out by done; by apply DagJson.parses_in, DagJson.parses_base64. 2: by apply DagJson.parses_in, DagJson.parses_didText.
  all: unfold part, set_Provider, set_Proofs; fields_set.
Qed.
End SetProofs.
End SetProofs.

(** ** [SetArguments] of [weight] *)
Module SetWeight.
Section SetWeight.
Context `{CborGen} `{!DagJsonGen}.
Import Admin.

Definition zero : SetWeightArguments := {| sw_Provider := did_Undef; sw_Weight := 0; sw_ReplicationWeight := 0 |}.
Definition set_Provider (x : DID) (t : SetWeightArguments) : SetWeightArguments :=
  {| sw_Provider := x; sw_Weight := sw_Weight t; sw_ReplicationWeight := sw_ReplicationWeight t |}.
Definition set_Weight (x : Z) (t : SetWeightArguments) : SetWeightArguments :=
  {| sw_Provider := sw_Provider t; sw_Weight := x; sw_ReplicationWeight := sw_ReplicationWeight t |}.
Definition set_ReplicationWeight (x : Z) (t : SetWeightArguments) : SetWeightArguments :=
  {| sw_Provider := sw_Provider t; sw_Weight := sw_Weight t; sw_ReplicationWeight := x |}.

Definition MarshalCBOR `{Writer W} (t : option SetWeightArguments) : M W unit :=
  match t with
  | None => Write CborNull
  | Some t =>
      _ ← Write (byte 163);
      _ ← Cbor.writeName "weight";
      _ ← Cbor.writeInt64 (sw_Weight t);
      _ ← Cbor.writeName "provider";
      _ ← Cbor.writeDID (sw_Provider t);
      _ ← Cbor.writeName "replicationWeight";
      Cbor.writeInt64 (sw_ReplicationWeight t)
  end.
Definition cborField (name : string) : option (SetWeightArguments → M string SetWeightArguments) :=
  if bool_decide (name = "weight") then Some (λ t, x ← Cbor.readInt64; mret (set_Weight x t))
  else if bool_decide (name = "provider") then Some (λ t, x ← Cbor.readDID; mret (set_Provider x t))
  else if bool_decide (name = "replicationWeight") then Some (λ t, x ← Cbor.readInt64; mret (set_ReplicationWeight x t))
  else None.
Definition UnmarshalCBOR : M string SetWeightArguments := Cbor.unmarshalMap "SetArguments" 17 cborField zero.

Definition MarshalDagJSON `{Writer W} (t : option SetWeightArguments) : M W unit :=
  match t with
  | None => Write jsonNull
  | Some t =>
      _ ← Write objectOpen;
      _ ← DagJson.writeKey "provider";
      _ ← DagJson.writeDID "t.Provider" (sw_Provider t);
      _ ← DagJson.WriteComma;
      _ ← DagJson.writeKey "replicationWeight";
      _ ← DagJson.writeInt64 "t.ReplicationWeight" (sw_ReplicationWeight t);
      _ ← DagJson.WriteComma;
      _ ← DagJson.writeKey "weight";
      _ ← DagJson.writeInt64 "t.Weight" (sw_Weight t);
      Write objectClose
  end.
Definition jsonField (name : string) : option (SetWeightArguments → M string SetWeightArguments) :=
  if bool_decide (name = "provider") then Some (λ t, x ← DagJson.readDID "t.Provider"; mret (set_Provider x t))
  else if bool_decide (name = "replicationWeight") then Some (λ t, x ← DagJson.readInt64 "t.ReplicationWeight"; mret (set_ReplicationWeight x t))
  else if bool_decide (name = "weight") then Some (λ t, x ← DagJson.readInt64 "t.Weight"; mret (set_Weight x t))
  else None.
Definition UnmarshalDagJSON : M string SetWeightArguments := DagJson.unmarshalObject "SetArguments" jsonField zero.

Definition typed (t : SetWeightArguments) : Prop := is_int64 (sw_Weight t) ∧ is_int64 (sw_ReplicationWeight t).
Definition fitsCBOR (t : SetWeightArguments) : Prop :=
  did_MarshalCBOR (sw_Provider t) = Ok (answered (did_MarshalCBOR (sw_Provider t))).
Definition fitsDagJSON (t : SetWeightArguments) : Prop :=
  did_MarshalDagJSON (sw_Provider t) = Ok (answered (did_MarshalDagJSON (sw_Provider t))).
Definition cborEntries (t : SetWeightArguments) : list (string * string) :=
  [("weight", Cbor.cborInt (sw_Weight t));
   ("provider", answered (did_MarshalCBOR (sw_Provider t)));
   ("replicationWeight", Cbor.cborInt (sw_ReplicationWeight t))].
Definition jsonEntries (t : SetWeightArguments) : list (string * string) :=
  [("provider", answered (did_MarshalDagJSON (sw_Provider t)));
   ("replicationWeight", json_Int64 (sw_ReplicationWeight t));
   ("weight", json_Int64 (sw_Weight t))].
Definition part (t : SetWeightArguments) (X : list string) : SetWeightArguments := {|
  sw_Provider := pick X "provider" (sw_Provider t) did_Undef;
  sw_Weight := pick X "weight" (sw_Weight t) 0%Z;
  sw_ReplicationWeight := pick X "replicationWeight" (sw_ReplicationWeight t) 0%Z |}.

Lemma setweight_emits_cbor `{Writer W} t : typed t →
  emits (MarshalCBOR (Some t) : M W unit) (Cbor.cborMap (cborEntries t)) (fitsCBOR t).
Proof.
  intros (? & ?). eapply emits_imp.
  - unfold MarshalCBOR, Cbor.writeName, Cbor.writeDID. each_write.
  - cbor_bytes cborEntries.
  - unfold fitsCBOR; tauto.
Qed.
Lemma setweight_fills_cbor t : fills (MarshalCBOR (Some t)) (fitsCBOR t).
Proof.
  unfold MarshalCBOR, Cbor.writeName, Cbor.writeDID. eapply fills_imp; [each_write|].
  unfold fitsCBOR. intros ?. split_and!; by_size.
Qed.
Lemma setweight_emits_json `{Writer W} t : typed t →
  emits (MarshalDagJSON (Some t) : M W unit) (DagJson.jsonObject (jsonEntries t)) (fitsDagJSON t).
Proof.
  intros (? & ?). eapply emits_imp.
  - unfold MarshalDagJSON, DagJson.writeDID, DagJson.WriteComma. each_write.
  - json_bytes jsonEntries.
  - unfold fitsDagJSON; tauto.
Qed.
Lemma setweight_fills_json t : fills (MarshalDagJSON (Some t)) (fitsDagJSON t).
Proof.
  unfold MarshalDagJSON, DagJson.writeDID, DagJson.WriteComma. eapply fills_imp; [each_write|].
  unfold fitsDagJSON. intros ?. split_and!; by_size.
Qed.

Lemma setweight_part_nil t : part t [] = zero.
Proof. unfold part. by rewrite !pick_nil. Qed.
Lemma setweight_part_cbor t : part t ((cborEntries t).*1) = t.
Proof. unfold part. rewrite !pick_in by listed. by destruct t. Qed.
Lemma setweight_part_json t : part t ((jsonEntries t).*1) = t.
Proof. unfold part. rewrite !pick_in by listed. by destruct t. Qed.
Lemma setweight_reads_cbor t : typed t → fitsCBOR t →
  Decodes cborField parses (Cbor.knownName 17) (cborEntries t) (part t).
Proof.
  intros (? & ?) ?. split; [distinct|intros X Y HXY; unfold part; by rewrite !(pick_ext X Y) by done|].
  intros X name v Hin HX. unfold cborEntries in Hin. one_entry;
    (split; [named|]); (eexists; split; [reflexivity|]); eapply parses_set.
  1: by apply Cbor.parses_int64. 2: by apply Cbor.parses_DID. 3: by apply Cbor.parses_int64.
  all: unfold part, set_Provider, set_Weight, set_ReplicationWeight; fields_set.
Qed.
Lemma setweight_reads_json t : typed t → fitsDagJSON t →
  Decodes jsonField parsesIn DagJson.knownKey (jsonEntries t) (part t).
Proof.
  intros (? & ?) ?. split; [distinct|intros X Y HXY; unfold part; by rewrite !(pick_ext X Y) by done|].
  intros X name v Hin HX. unfold jsonEntries in Hin. one_entry;
    (split; [named|]); (eexists; split; [reflexivity|]); eapply parsesIn_set.
  1: by apply DagJson.parses_in, DagJson.parses_didText. 2: by apply DagJson.parses_number. 3: by apply DagJson.parses_number.
  all: unfold part, set_Provider, set_Weight, set_ReplicationWeight; fields_set.
Qed.
End SetWeight.
End SetWeight.

(** ** [DeregisterArguments], which is its only field *)
Module DeregisterArguments.
Section DeregisterArguments.
Context `{CborGen} `{!DagJsonGen}.

Definition zero : DID := did_Undef.
Definition MarshalCBOR `{Writer W} (t : option DID) : M W unit :=
  match t with
  | None => Write CborNull
  | Some t => _ ← Write (byte 161); _ ← Cbor.writeName "provider"; Cbor.writeDID t
  end.
Definition cborField (name : string) : option (DID → M string DID) :=
  if bool_decide (name = "provider") then Some (λ _, Cbor.readDID) else None.
Definition UnmarshalCBOR : M string DID := Cbor.unmarshalMap "DeregisterArguments" 8 cborField zero.

Definition MarshalDagJSON `{Writer W} (t : option DID) : M W unit :=
  match t with
  | None => Write jsonNull
  | Some t =>
      _ ← Write objectOpen;
      _ ← DagJson.writeKey "provider";
      _ ← DagJson.writeDID "t.Provider" t;
      Write objectClose
  end.
Definition jsonField (name : string) : option (DID → M string DID) :=
  if bool_decide (name = "provider") then Some (λ _, DagJson.readDID "t.Provider") else None.
Definition UnmarshalDagJSON : M string DID := DagJson.unmarshalObject "DeregisterArguments" jsonField zero.

Definition fitsCBOR (t : DID) : Prop := did_MarshalCBOR t = Ok (answered (did_MarshalCBOR t)).
Definition fitsDagJSON (t : DID) : Prop := did_MarshalDagJSON t = Ok (answered (did_MarshalDagJSON t)).
Definition cborEntries (t : DID) : list (string * string) := [("provider", answered (did_MarshalCBOR t))].
Definition jsonEntries (t : DID) : list (string * string) := [("provider", answered (did_MarshalDagJSON t))].
Definition part (t : DID) (X : list string) : DID := pick X "provider" t did_Undef.

Lemma deregister_emits_cbor `{Writer W} t :
  emits (MarshalCBOR (Some t) : M W unit) (Cbor.cborMap (cborEntries t)) (fitsCBOR t).
Proof.
  eapply emits_imp.
  - unfold MarshalCBOR, Cbor.writeName, Cbor.writeDID. each_write.
  - cbor_bytes cborEntries.
  - unfold fitsCBOR; tauto.
Qed.
Lemma deregister_fills_cbor t : fills (MarshalCBOR (Some t)) (fitsCBOR t).
Proof.
  unfold MarshalCBOR, Cbor.writeName, Cbor.writeDID. eapply fills_imp; [each_write|].
  unfold fitsCBOR. intros ?. split_and!; by_size.
Qed.
Lemma deregister_emits_json `{Writer W} t :
  emits (MarshalDagJSON (Some t) : M W unit) (DagJson.jsonObject (jsonEntries t)) (fitsDagJSON t).
Proof.
  eapply emits_imp.
  - unfold MarshalDagJSON, DagJson.writeDID. each_write.
  - json_bytes jsonEntries.
  - unfold fitsDagJSON; tauto.
Qed.
Lemma deregister_fills_json t : fills (MarshalDagJSON (Some t)) (fitsDagJSON t).
Proof.
  unfold MarshalDagJSON, DagJson.writeDID. eapply fills_imp; [each_write|].
  unfold fitsDagJSON. intros ?. split_and!; by_size.
Qed.
Lemma deregister_part_nil t : part t [] = zero.
Proof. apply pick_nil. Qed.
Lemma deregister_part_cbor t : part t ((cborEntries t).*1) = t.
Proof. by apply pick_in; listed. Qed.
Lemma deregister_part_json t : part t ((jsonEntries t).*1) = t.
Proof. by apply pick_in; listed. Qed.
Lemma deregister_reads_cbor t : fitsCBOR t →
  Decodes cborField parses (Cbor.knownName 8) (cborEntries t) (part t).
Proof.
  intros Hf. split; [distinct|intros X Y HXY; unfold part; by rewrite (pick_ext X Y)|].
  intros X name v Hin HX. unfold cborEntries in Hin. one_entry.
  split; [named|]. eexists. split; [reflexivity|]. unfold part. rewrite pick_here. by apply Cbor.parses_DID.
Qed.
Lemma deregister_reads_json t : fitsDagJSON t →
  Decodes jsonField parsesIn DagJson.knownKey (jsonEntries t) (part t).
Proof.
  intros Hf. split; [distinct|intros X Y HXY; unfold part; by rewrite (pick_ext X Y)|].
  intros X name v Hin HX. unfold jsonEntries in Hin. one_entry.
  split; [named|]. eexists. split; [reflexivity|]. unfold part. rewrite pick_here.
  by apply DagJson.parses_in, DagJson.parses_didText.
Qed.
End DeregisterArguments.
End DeregisterArguments.

(** ** All of them: the models [gen/main.go] generates codecs for *)
Module Codecs.
Section Codecs.
Context `{CborGen} `{!DagJsonGen}.

Inductive Model := MProvider | MListOK | MRegister | MDeregister | MProofs | MWeight.
Inductive Format := CBOR | DagJSON.
Definition typeOf (m : Model) : Type :=
  match m with
  | MProvider => Admin.Provider
  | MListOK => list Admin.Provider
  | MRegister => Admin.RegisterArguments
  | MDeregister => DID
  | MProofs => Admin.SetProofsArguments
  | MWeight => Admin.SetWeightArguments
  end.
Definition Marshal (f : Format) (m : Model) `{Writer W} : option (typeOf m) → M W unit :=
  match f, m with
  | CBOR, MProvider => Provider.MarshalCBOR
  | CBOR, MListOK => ListOK.MarshalCBOR
  | CBOR, MRegister => RegisterArguments.MarshalCBOR
  | CBOR, MDeregister => DeregisterArguments.MarshalCBOR
  | CBOR, MProofs => SetProofs.MarshalCBOR
  | CBOR, MWeight => SetWeight.MarshalCBOR
  | DagJSON, MProvider => Provider.MarshalDagJSON
  | DagJSON, MListOK => ListOK.MarshalDagJSON
  | DagJSON, MRegister => RegisterArguments.MarshalDagJSON
  | DagJSON, MDeregister => DeregisterArguments.MarshalDagJSON
  | DagJSON, MProofs => SetProofs.MarshalDagJSON
  | DagJSON, MWeight => SetWeight.MarshalDagJSON
  end.
Definition Unmarshal (f : Format) (m : Model) : M string (typeOf m) :=
  match f, m with
  | CBOR, MProvider => Provider.UnmarshalCBOR
  | CBOR, MListOK => ListOK.UnmarshalCBOR
  | CBOR, MRegister => RegisterArguments.UnmarshalCBOR
  | CBOR, MDeregister => DeregisterArguments.UnmarshalCBOR
  | CBOR, MProofs => SetProofs.UnmarshalCBOR
  | CBOR, MWeight => SetWeight.UnmarshalCBOR
  | DagJSON, MProvider => Provider.UnmarshalDagJSON
  | DagJSON, MListOK => ListOK.UnmarshalDagJSON
  | DagJSON, MRegister => RegisterArguments.UnmarshalDagJSON
  | DagJSON, MDeregister => DeregisterArguments.UnmarshalDagJSON
  | DagJSON, MProofs => SetProofs.UnmarshalDagJSON
  | DagJSON, MWeight => SetWeight.UnmarshalDagJSON
  end.
(** A value as Go's types allow it, its texts UTF-8. *)
Definition typed (m : Model) : typeOf m → Prop :=
  match m with
  | MProvider => Provider.typed
  | MListOK => ListOK.typed
  | MRegister => RegisterArguments.typed
  | MDeregister => λ _, True
  | MProofs => SetProofs.typed
  | MWeight => SetWeight.typed
  end.
(** A value within the limits of the format. *)
Definition fits (f : Format) (m : Model) : typeOf m → Prop :=
  match f, m with
  | CBOR, MProvider => Provider.fitsCBOR
  | CBOR, MListOK => ListOK.fitsCBOR
  | CBOR, MRegister => RegisterArguments.fitsCBOR
  | CBOR, MDeregister => DeregisterArguments.fitsCBOR
  | CBOR, MProofs => SetProofs.fitsCBOR
  | CBOR, MWeight => SetWeight.fitsCBOR
  | DagJSON, MProvider => Provider.fitsDagJSON
  | DagJSON, MListOK => ListOK.fitsDagJSON
  | DagJSON, MRegister => RegisterArguments.fitsDagJSON
  | DagJSON, MDeregister => DeregisterArguments.fitsDagJSON
  | DagJSON, MProofs => SetProofs.fitsDagJSON
  | DagJSON, MWeight => SetWeight.fitsDagJSON
  end.
(** The fields of a value, each with its encoding, and an object of such fields. *)
Definition entries (f : Format) (m : Model) : typeOf m → list (string * string) :=
  match f, m with
  | CBOR, MProvider => Provider.cborEntries
  | CBOR, MListOK => ListOK.cborEntries
  | CBOR, MRegister => RegisterArguments.cborEntries
  | CBOR, MDeregister => DeregisterArguments.cborEntries
  | CBOR, MProofs => SetProofs.cborEntries
  | CBOR, MWeight => SetWeight.cborEntries
  | DagJSON, MProvider => Provider.jsonEntries
  | DagJSON, MListOK => ListOK.jsonEntries
  | DagJSON, MRegister => RegisterArguments.jsonEntries
  | DagJSON, MDeregister => DeregisterArguments.jsonEntries
  | DagJSON, MProofs => SetProofs.jsonEntries
  | DagJSON, MWeight => SetWeight.jsonEntries
  end.
Definition object (f : Format) : list (string * string) → string :=
  match f with CBOR => Cbor.cborMap | DagJSON => DagJson.jsonObject end.
(** The longest name of a field, which is the buffer a CBOR name is read into. *)
Definition bufferOf (m : Model) : Z :=
  match m with MProvider | MWeight => 17 | MListOK => 9 | _ => 8 end.
Definition names (m : Model) : list string :=
  match m with
  | MProvider => ["weight"; "endpoint"; "provider"; "replicationWeight"]
  | MListOK => ["providers"]
  | MRegister => ["proofs"; "endpoint"; "provider"]
  | MDeregister => ["provider"]
  | MProofs => ["proofs"; "provider"]
  | MWeight => ["weight"; "provider"; "replicationWeight"]
  end.
(** A field a later version may add: its name is none of the struct's, and the
    library can read past its value. *)
Definition foreign (f : Format) (m : Model) (e : string * string) : Prop :=
  utf8Valid e.1 ∧ (slen e.1 ≤ 8192)%Z ∧ e.1 ∉ names m ∧
  match f with CBOR => parses ScanForLinks e.2 tt | DagJSON => parsesIn DiscardType e.2 tt end.
Definition atMost (f : Format) (l : list (string * string)) : Prop :=
  match f with
  | CBOR => (len l ≤ cbg_MaxLength)%Z ∧ (len l < 2 ^ 64)%Z
  | DagJSON => (len l ≤ 8192)%Z
  end.

Lemma codec_emits f m (t : typeOf m) `{Writer W} : typed m t →
  emits (Marshal f m (Some t) : M W unit) (object f (entries f m t)) (fits f m t).
Proof.
  destruct f, m; intros Ht; cbn.
  - by apply Provider.provider_emits_cbor. - by apply ListOK.list_emits_cbor.
  - by apply RegisterArguments.register_emits_cbor. - by apply DeregisterArguments.deregister_emits_cbor.
  - by apply SetProofs.setproofs_emits_cbor. - by apply SetWeight.setweight_emits_cbor.
  - by apply Provider.provider_emits_json. - by apply ListOK.list_emits_json.
  - by apply RegisterArguments.register_emits_json. - by apply DeregisterArguments.deregister_emits_json.
  - by apply SetProofs.setproofs_emits_json. - by apply SetWeight.setweight_emits_json.
Qed.
Lemma codec_fills f m (t : typeOf m) : fills (Marshal f m (Some t)) (fits f m t).
Proof.
  destruct f, m.
  - apply Provider.provider_fills_cbor. - apply ListOK.list_fills_cbor.
  - apply RegisterArguments.register_fills_cbor. - apply DeregisterArguments.deregister_fills_cbor.
  - apply SetProofs.setproofs_fills_cbor. - apply SetWeight.setweight_fills_cbor.
  - apply Provider.provider_fills_json. - apply ListOK.list_fills_json.
  - apply RegisterArguments.register_fills_json. - apply DeregisterArguments.deregister_fills_json.
  - apply SetProofs.setproofs_fills_json. - apply SetWeight.setweight_fills_json.
Qed.

(** An object of foreign fields besides a value's own, in any order. *)
Definition extends (f : Format) (m : Model) (t : typeOf m) (l : list (string * string)) : Prop :=
  ∃ others, l ≡ₚ entries f m t ++ others ∧ Forall (foreign f m) others.
Ltac no_field := cbn [names fst] in *;
  cbv beta delta [Provider.cborField Provider.jsonField ListOK.cborField ListOK.jsonField RegisterArguments.cborField RegisterArguments.jsonField DeregisterArguments.cborField DeregisterArguments.jsonField SetProofs.cborField SetProofs.jsonField SetWeight.cborField SetWeight.jsonField];
  rewrite !bool_decide_eq_false_2; [done|set_solver..].
Ltac cbor_struct reads nil all :=
  apply Cbor.parses_unmarshalMap; [done|done|];
  eapply fieldsRead_struct; [by apply reads|apply nil|apply all|];
  eexists; split; [eassumption|]; eapply Forall_impl; [eassumption|];
  intros [n v] (? & ? & ? & ?); split; [split_and!; [done|done|left; no_field]|done].
Ltac json_struct reads nil all :=
  apply DagJson.parses_unmarshalObject; [unfold DagJson.maxEntries, len in *; lia|];
  eapply fieldsRead_struct; [by apply reads|apply nil|apply all|];
  eexists; split; [eassumption|]; eapply Forall_impl; [eassumption|];
  intros [n v] (? & ? & ? & ?); split; [split; [done|no_field]|done].
Lemma codec_parses f m (t : typeOf m) l :
  typed m t → fits f m t → extends f m t l → atMost f l → parses (Unmarshal f m) (object f l) t.
Proof.
  intros Ht Hf (others & Hl & Ho) Hn. destruct f, m; cbn [Unmarshal object typeOf typed fits entries atMost] in *; try destruct Hn as [Hn Hn'].
  - cbor_struct Provider.provider_reads_cbor Provider.provider_part_nil Provider.provider_part_cbor.
  - cbor_struct ListOK.list_reads_cbor ListOK.list_part_nil ListOK.list_part_cbor.
  - cbor_struct RegisterArguments.register_reads_cbor RegisterArguments.register_part_nil
      RegisterArguments.register_part_cbor.
  - cbor_struct DeregisterArguments.deregister_reads_cbor DeregisterArguments.deregister_part_nil
      DeregisterArguments.deregister_part_cbor.
  - cbor_struct SetProofs.setproofs_reads_cbor SetProofs.setproofs_part_nil SetProofs.setproofs_part_cbor.
  - cbor_struct SetWeight.setweight_reads_cbor SetWeight.setweight_part_nil SetWeight.setweight_part_cbor.
  - json_struct Provider.provider_reads_json Provider.provider_part_nil Provider.provider_part_json.
  - json_struct ListOK.list_reads_json ListOK.list_part_nil ListOK.list_part_json.
  - json_struct RegisterArguments.register_reads_json RegisterArguments.register_part_nil
      RegisterArguments.register_part_json.
  - json_struct DeregisterArguments.deregister_reads_json DeregisterArguments.deregister_part_nil
      DeregisterArguments.deregister_part_json.
  - json_struct SetProofs.setproofs_reads_json SetProofs.setproofs_part_nil SetProofs.setproofs_part_json.
  - json_struct SetWeight.setweight_reads_json SetWeight.setweight_part_nil SetWeight.setweight_part_json.
Qed.
Lemma extends_entries f m t : extends f m t (entries f m t).
Proof. exists []. by rewrite app_nil_r. Qed.
Lemma atMost_entries f m t : atMost f (entries f m t).
Proof.
  pose proof cbg_MaxLength_small.
  assert (length (entries f m t) ≤ 4) by (destruct f, m; cbn; lia). unfold atMost, len. destruct f; lia.
Qed.

(** C31: whatever struct of the provider commands is marshalled, in CBOR or in
    DAG-JSON, to whatever writer: if [Marshal] succeeds, what it wrote unmarshals
    to the value it was given, and to exactly the bytes it wrote, whatever follows. *)
Theorem codec_roundtrip (f : Format) (m : Model) (t : typeOf m) `{Writer W} (w w' : W) :
  typed m t → Marshal f m (Some t) w = (Ok tt, w') →
  ∃ b, written w' = written w +:+ b ∧ ∀ rest, Unmarshal f m (b +:+ rest) = (Ok t, rest).
Proof.
  intros Ht Hm. destruct (codec_emits f m t Ht w tt w' Hm) as [Hw Hf].
  eexists. split; [exact Hw|].
  apply codec_parses; [done..|apply extends_entries|apply atMost_entries].
Qed.

(** C32: an object whose fields are those of a value in any order, among any others
    the library can read past (those of a later version), unmarshals to the
    value. *)
Theorem codec_forward (f : Format) (m : Model) (t : typeOf m) (l : list (string * string)) (rest : string) :
  typed m t → fits f m t → extends f m t l → atMost f l →
  Unmarshal f m (object f l +:+ rest) = (Ok t, rest).
Proof. intros. by apply codec_parses. Qed.

(** C33: marshalling to a buffer succeeds exactly for the values within the limits
    of the format: an endpoint of 8192 bytes, proofs of 2 MiB, 8192 providers, a
    DID its own codec accepts. *)
Theorem codec_limits (f : Format) (m : Model) (t : typeOf m) (w : string) :
  typed m t → (∃ w', Marshal f m (Some t) w = (Ok tt, w')) ↔ fits f m t.
Proof.
  intros Ht. split.
  - intros [w' Hm]. by destruct (codec_emits f m t Ht w tt w' Hm).
  - intros Hf. destruct (codec_fills f m t Hf w) as ([] & w' & Hm). eauto.
Qed.
End Codecs.
End Codecs.
