(* ===== verification/ConcreteCodecs.v ===== *)
(** * A concrete CBOR and DAG-JSON

    What the witnesses of the codecs compute with: the headers of CBOR, and JSON
    with its escapes, numbers and punctuation. Bytes are written as a text in
    JSON. *)
From Stdlib Require Import Ascii DecimalString DecimalZ.
From S2P Require Import Concrete.
From S2P Require Export ProviderCodecs.

(** ** CBOR headers *)
Definition val (c : ascii) : Z := Z.of_N (N_of_ascii c).
Lemma val_byte z : (0 ≤ z < 256)%Z → val (ascii_of_N (Z.to_N z)) = z.
Proof. intros. unfold val. rewrite N_ascii_embedding by lia. lia. Qed.
Fixpoint bigEndian (k : nat) (n : Z) : string :=
  match k with
  | 0 => ""
  | S k => byte (n / 256 ^ Z.of_nat k) +:+ bigEndian k (n `mod` 256 ^ Z.of_nat k)
  end.
Fixpoint readBigEndian (k : nat) (acc : Z) : M string Z := λ s,
  match k, s with
  | 0, _ => (Ok acc, s)
  | S k, String c s => readBigEndian k (acc * 256 + val c) s
  | S _, "" => (Err ErrUnexpectedEOF, "")
  end.
Lemma readBigEndian_reads k n acc :
  (0 ≤ n < 256 ^ Z.of_nat k)%Z →
  parses (readBigEndian k acc) (bigEndian k n) (acc * 256 ^ Z.of_nat k + n)%Z.
Proof.
  revert n acc. induction k as [|k IH]; intros n acc Hn rest.
  - cbn in *. f_equal. f_equal. lia.
  - rewrite Nat2Z.inj_succ, Z.pow_succ_r in Hn by lia.
    assert (0 < 256 ^ Z.of_nat k)%Z as Hp by lia.
    change (readBigEndian k (acc * 256 + val (ascii_of_N (Z.to_N (n / 256 ^ Z.of_nat k))))
      (bigEndian k (n `mod` 256 ^ Z.of_nat k) +:+ rest) = (Ok (acc * 256 ^ Z.of_nat (S k) + n)%Z, rest)).
    rewrite val_byte by (split; [apply Z.div_pos; lia|apply Z.div_lt_upper_bound; lia]).
    rewrite IH by (apply Z.mod_pos_bound; lia). do 2 f_equal.
    rewrite Nat2Z.inj_succ, Z.pow_succ_r by lia. pose proof (Z.div_mod n (256 ^ Z.of_nat k)). lia.
Qed.
(** The bytes a number takes after the header's first, and what says so. *)
Definition widthOf (n : Z) : Z * nat :=
  if (n <? 24)%Z then (n, 0) else if (n <? 2 ^ 8)%Z then (24%Z, 1)
  else if (n <? 2 ^ 16)%Z then (25%Z, 2) else if (n <? 2 ^ 32)%Z then (26%Z, 4) else (27%Z, 8).
Definition header (maj n : Z) : string :=
  let '(low, k) := widthOf n in byte (32 * maj + low) +:+ bigEndian k n.
Definition readHeader : M string (Z * Z) := λ s,
  match s with
  | "" => (Err EOF, "")
  | String c s =>
      let maj := (val c / 32)%Z in
      let low := (val c `mod` 32)%Z in
      if (low <? 24)%Z then (Ok (maj, low), s)
      else if (27 <? low)%Z then (Err (Errorf "invalid header"), s)
      else (n ← readBigEndian (2 ^ Z.to_nat (low - 24)) 0; mret (maj, n)) s
  end.
Lemma readHeader_reads maj n : (0 ≤ maj < 7)%Z → is_uint64 n → parses readHeader (header maj n) (maj, n).
Proof.
  intros Hm Hn rest. unfold header, is_uint64 in *.
  assert (∃ low k, widthOf n = (low, k) ∧
    ((0 ≤ low < 24)%Z ∧ k = 0 ∧ low = n ∨
     (24 ≤ low ≤ 27)%Z ∧ k = 2 ^ Z.to_nat (low - 24) ∧ (n < 256 ^ Z.of_nat k)%Z))
    as (low & k & -> & Hlow).
  { unfold widthOf. repeat case_match; do 2 eexists; (split; [reflexivity|]);
      repeat match goal with H : (_ <? _)%Z = _ |- _ => first [apply Z.ltb_lt in H|apply Z.ltb_ge in H] end;
      first [left; lia|right; split_and!; [lia..|reflexivity|]; cbn; lia]. }
  change (readHeader (String (ascii_of_N (Z.to_N (32 * maj + low))) (bigEndian k n +:+ rest)) = (Ok (maj, n), rest)).
  unfold readHeader. rewrite val_byte by lia.
  replace ((32 * maj + low) / 32)%Z with maj by divmod. replace ((32 * maj + low) `mod` 32)%Z with low by divmod.
  destruct Hlow as [(Hl & -> & ->)|(Hl & -> & Hk)].
  - destruct (Z.ltb_spec n 24); [done|lia].
  - destruct (Z.ltb_spec low 24); [lia|]. destruct (Z.ltb_spec 27 low); [lia|].
    rewrite M_bind_step, readBigEndian_reads by lia. done.
Qed.
Lemma header_small maj n : (0 ≤ maj < 8)%Z → (0 ≤ n < 24)%Z → header maj n = byte (32 * maj + n).
Proof. intros. unfold header, widthOf. destruct (Z.ltb_spec n 24); [apply string_app_empty_r|lia]. Qed.

(** ** CBOR values *)
Definition readSized (max : Z) : M string Z :=
  '(maj, n) ← readHeader;
  if bool_decide (maj ≠ MajTextString) then fail (Errorf "expected text string")
  else if (max <? n)%Z then fail (Errorf "string in input was too long") else mret n.
Definition readText (max : Z) : M string string := n ← readSized max; ReadFull n.
Definition readTextInto (size max : Z) : M string (option string) :=
  n ← readSized max;
  s ← ReadFull n;
  mret (if (size <? n)%Z then None else Some s).
Lemma readSized_reads max s : (slen s ≤ max)%Z → (slen s < 2 ^ 64)%Z →
  parses (readSized max) (header MajTextString (slen s)) (slen s).
Proof.
  intros Hs Hb rest. unfold readSized. rewrite M_bind_step, readHeader_reads
    by (done || (unfold is_uint64; pose proof (Cbor.slen_nonneg s); lia)).
  rewrite bool_decide_eq_false_2 by tauto. destruct (Z.ltb_spec max (slen s)); [lia|done].
Qed.
Lemma readText_reads max s : is_uint64 max → (slen s ≤ max)%Z →
  parses (readText max) (header MajTextString (slen s) +:+ s) s.
Proof.
  intros Hm Hs. unfold is_uint64 in Hm. eapply parses_bind; [apply readSized_reads; lia|apply parses_ReadFull].
Qed.
Lemma readTextInto_reads size max s : is_uint64 max → (slen s ≤ max)%Z →
  parses (readTextInto size max) (header MajTextString (slen s) +:+ s)
    (if (size <? slen s)%Z then None else Some s).
Proof.
  intros Hm Hs. unfold is_uint64 in Hm. eapply parses_bind; [apply readSized_reads; lia|].
  apply (parses_bind_ret _ (λ s', if (size <? slen s)%Z then None else Some s')), parses_ReadFull.
Qed.
(** Past so many values: an array adds its items, a map its keys and values. *)
Fixpoint scan (fuel : nat) (remaining : Z) : M string unit :=
  if (remaining <=? 0)%Z then mret tt
  else match fuel with
  | 0 => fail EOF
  | S fuel =>
      '(maj, n) ← readHeader;
      if bool_decide (maj = MajByteString ∨ maj = MajTextString) then _ ← ReadFull n; scan fuel (remaining - 1)
      else if bool_decide (maj = MajArray) then scan fuel (remaining - 1 + n)
      else if bool_decide (maj = MajMap) then scan fuel (remaining - 1 + 2 * n)
      else scan fuel (remaining - 1)
  end.

(** ** JSON tokens *)
Definition quote : ascii := ascii_of_nat 34.
Fixpoint escape (s : string) : string :=
  match s with
  | "" => String quote ""
  | String c s =>
      if bool_decide (c = quote ∨ c = backslash) then String backslash (String c (escape s))
      else String c (escape s)
  end.
Definition jsonString (s : string) : string := String quote (escape s).
Fixpoint unescape (s : string) : option (string * string) :=
  match s with
  | "" => None
  | String c s =>
      if bool_decide (c = quote) then Some ("", s)
      else if bool_decide (c = backslash) then
        match s with
        | "" => None
        | String c s => '(a, rest) ← unescape s; Some (String c a, rest)
        end
      else '(a, rest) ← unescape s; Some (String c a, rest)
  end.
Lemma unescape_escape s rest : unescape (escape s +:+ rest) = Some (s, rest).
Proof.
  induction s as [|c s IH]; [done|]. cbn [escape]. case_bool_decide as Hc.
  - change (unescape (String backslash (String c (escape s +:+ rest))) = Some (String c s, rest)).
    cbn [unescape]. rewrite bool_decide_eq_false_2, bool_decide_eq_true_2 by done. by rewrite IH.
  - change (unescape (String c (escape s +:+ rest)) = Some (String c s, rest)).
    cbn [unescape]. rewrite !bool_decide_eq_false_2 by tauto. by rewrite IH.
Qed.
Definition limitExceeded : error := Errorf "limit exceeded".
Definition readJsonString (max : Z) : M string string := λ s,
  match s with
  | String c s =>
      if bool_decide (c = quote) then
        match unescape s with
        | Some (a, rest) => if (max <? slen a)%Z then (Err limitExceeded, rest) else (Ok a, rest)
        | None => (Err EOF, "")
        end
      else (Err (Errorf "expected string"), s)
  | "" => (Err EOF, "")
  end.
Lemma readJsonString_reads max s : (slen s ≤ max)%Z → parses (readJsonString max) (jsonString s) s.
Proof.
  intros Hs rest. unfold readJsonString, jsonString. change (String quote (escape s) +:+ rest) with (String quote (escape s +:+ rest)).
  cbn match. rewrite bool_decide_eq_true_2, unescape_escape by done. destruct (Z.ltb_spec max (slen s)); [lia|done].
Qed.

(** What stands before the punctuation that ends a number. *)
Definition ends (c : ascii) : bool := bool_decide (c = ","%char ∨ c = "}"%char ∨ c = "]"%char).
Fixpoint upToEnd (s : string) : string * string :=
  match s with
  | "" => ("", "")
  | String c s' => if ends c then ("", s) else let '(a, rest) := upToEnd s' in (String c a, rest)
  end.
Definition endless (s : string) : Prop := Forall (λ c, ends c = false) (String.list_ascii_of_string s).
Lemma upToEnd_app a rest : endless a → punctuated rest → upToEnd (a +:+ rest) = (a, rest).
Proof.
  intros Ha (c & r & -> & Hc). induction a as [|x a IH].
  - rewrite !elem_of_cons, elem_of_nil in Hc. by destruct Hc as [->|[->|[->|[]]]].
  - inversion Ha as [|? ? Hx Ha']; subst.
    change ((if ends x then ("", String x (a +:+ c +:+ r)) else
      let '(b, r') := upToEnd (a +:+ c +:+ r) in (String x b, r')) = (String x a, c +:+ r)).
    by rewrite Hx, IH.
Qed.
Lemma endless_Itoa z : endless (Itoa z).
Proof.
  assert (∀ u, endless (NilEmpty.string_of_uint u)) as Hu.
  { intros u. unfold endless. induction u; cbn; [constructor|constructor; [reflexivity|done]..]. }
  assert (∀ u, endless (NilZero.string_of_uint u)) as Hz.
  { intros []; [by repeat constructor|..]; apply (Hu _). }
  unfold Itoa. destruct (Z.to_int z) as [u|u]; [apply Hz|constructor; [reflexivity|apply Hz]].
Qed.
Definition readNumber : M string Z := λ s,
  let '(a, rest) := upToEnd s in (Atoi a, rest).
Lemma readNumber_reads z : is_int64 z → parsesIn readNumber (Itoa z) z.
Proof.
  intros Hz rest Hr. unfold readNumber. rewrite upToEnd_app by (done || apply endless_Itoa). by rewrite Atoi_Itoa.
Qed.

(** A character of the punctuation, and one of two of them. *)
Definition expect (c : ascii) : M string unit := λ s,
  match s with
  | String c' s => if bool_decide (c' = c) then (Ok tt, s) else (Err (Errorf "unexpected character"), s)
  | "" => (Err EOF, "")
  end.
Definition peek (c : ascii) : M string bool := λ s,
  match s with String c' _ => (Ok (bool_decide (c' = c)), s) | "" => (Err EOF, "") end.
Definition closeOrComma (c : ascii) : M string bool := λ s,
  match s with
  | String c' s =>
      if bool_decide (c' = c) then (Ok true, s)
      else if bool_decide (c' = ","%char) then (Ok false, s) else (Err (Errorf "unexpected character"), s)
  | "" => (Err EOF, "")
  end.
Definition discard : M string unit := λ s,
  match s with
  | String c _ =>
      if bool_decide (c = quote) then (_ ← readJsonString (2 ^ 64); mret tt) s
      else (_ ← readNumber; mret tt) s
  | "" => (Err EOF, "")
  end.

(** ** The instances *)
Section Instances.
#[local] Existing Instance StrIds.
Definition didCBOR (d : string) : outcome string :=
  if (8192 <? slen d)%Z then Err (Errorf "DID too long") else Ok (header MajTextString (slen d) +:+ d).
Lemma didCBOR_reads d b : didCBOR d = Ok b → parses (readText 8192) b d.
Proof.
  unfold didCBOR. destruct (Z.ltb_spec 8192 (slen d)); [done|]. intros [= <-]. by apply readText_reads.
Qed.
Lemma readTextInto_fits size max s : is_uint64 max → (slen s ≤ size)%Z → (slen s ≤ max)%Z → utf8Valid s →
  parses (readTextInto size max) (header MajTextString (slen s) +:+ s) (Some s).
Proof.
  intros Hm Hz Hs _. pose proof (readTextInto_reads size max s Hm Hs) as Hr.
  by destruct (Z.ltb_spec size (slen s)); [lia|].
Qed.
Lemma readTextInto_long size max s : is_uint64 max → (size < slen s ≤ max)%Z → utf8Valid s →
  parses (readTextInto size max) (header MajTextString (slen s) +:+ s) None.
Proof.
  intros Hm [Hz Hs] _. pose proof (readTextInto_reads size max s Hm Hs) as Hr.
  by destruct (Z.ltb_spec size (slen s)); [|lia].
Qed.
Definition StrCbor : CborGen := {|
  cbg_MaxLength := 8192; cbg_MaxLength_small := ltac:(done);
  cbor_Header := header; cbor_Header_small := header_small;
  ReadHeader := readHeader; ReadHeader_Header := readHeader_reads;
  ReadStringWithMax := readText; ReadStringWithMax_text max s Hm Hs _ := readText_reads max s Hm Hs;
  ReadFullStringIntoBuf := readTextInto;
  ReadFullStringIntoBuf_fits := readTextInto_fits; ReadFullStringIntoBuf_long := readTextInto_long;
  ScanForLinks s := scan (S (String.length s)) 1 s;
  did_MarshalCBOR := didCBOR; did_UnmarshalCBOR := readText 8192; did_CBOR := didCBOR_reads;
|}.
Definition didDagJSON (d : string) : outcome string :=
  if (8192 <? slen d)%Z then Err (Errorf "DID too long") else Ok (jsonString d).
Lemma didDagJSON_reads d b : didDagJSON d = Ok b → parses (readJsonString 8192) b d.
Proof.
  unfold didDagJSON. destruct (Z.ltb_spec 8192 (slen d)); [done|]. intros [= <-]. by apply readJsonString_reads.
Qed.
Definition StrDagJson : DagJsonGen := {|
  json_String := jsonString; json_Int64 := Itoa; json_Bytes := jsonString;
  ErrLimitExceeded := limitExceeded;
  ReadObjectOpen := expect "{"; ReadObjectOpen_open _ := eq_refl;
  PeekObjectClose := peek "}"; PeekObjectClose_close _ := eq_refl; PeekObjectClose_field _ _ := eq_refl;
  ReadObjectClose := expect "}"; ReadObjectClose_close _ := eq_refl;
  ReadObjectColon := expect ":"; ReadObjectColon_colon _ := eq_refl;
  ReadObjectCloseOrComma := closeOrComma "}";
  ReadObjectCloseOrComma_close _ := eq_refl; ReadObjectCloseOrComma_comma _ := eq_refl;
  ReadArrayOpen := expect "["; ReadArrayOpen_open _ := eq_refl;
  PeekArrayClose := peek "]"; PeekArrayClose_close _ := eq_refl; PeekArrayClose_object _ := eq_refl;
  ReadArrayClose := expect "]"; ReadArrayClose_close _ := eq_refl;
  ReadArrayCloseOrComma := closeOrComma "]";
  ReadArrayCloseOrComma_close _ := eq_refl; ReadArrayCloseOrComma_comma _ := eq_refl;
  ReadString := readJsonString; ReadString_String max s Hs _ := readJsonString_reads max s Hs;
  ReadNumberAsInt64 := readNumber; ReadNumberAsInt64_Int64 := readNumber_reads;
  ReadBytes := readJsonString; ReadBytes_Bytes := readJsonString_reads;
  DiscardType := discard;
  did_MarshalDagJSON := didDagJSON; did_UnmarshalDagJSON := readJsonString 8192;
  did_DagJSON := didDagJSON_reads;
|}.
End Instances.

(** ** Witnesses *)
Section Witnesses.
#[local] Existing Instances StrIds StrCbor StrDagJson.
Import Codecs.
Definition exampleProvider : Admin.Provider := {|
  Admin.pr_Provider := str_did "did:web:node"; Admin.pr_Endpoint := "https://node";
  Admin.pr_Weight := 7; Admin.pr_ReplicationWeight := -300 |}.
Lemma exampleProvider_typed : typed MProvider exampleProvider.
Proof. split_and!; [unfold is_int64; cbn; lia..|by vm_compute]. Qed.
Lemma exampleProvider_fits f : fits f MProvider exampleProvider.
Proof. destruct f; split; (discriminate || reflexivity). Qed.

Lemma codec_roundtrip_witness :
  (∃ b, Marshal CBOR MProvider (Some exampleProvider) "" = (Ok tt, b) ∧
     Unmarshal CBOR MProvider (b +:+ "more") = (Ok exampleProvider, "more")) ∧
  (∃ b, Marshal DagJSON MListOK (Some [exampleProvider; exampleProvider]) "" = (Ok tt, b) ∧
     Unmarshal DagJSON MListOK (b +:+ "more") = (Ok [exampleProvider; exampleProvider], "more")).
Proof.
  split; eexists; (split; [vm_compute; reflexivity|]).
  - edestruct (codec_roundtrip CBOR MProvider exampleProvider "") as (b & Hb & Hr);
      [apply exampleProvider_typed|vm_compute; reflexivity|]. cbn [written Buffer] in Hb.
    etrans; [|exact (Hr "more")]. f_equal. f_equal. exact Hb.
  - edestruct (codec_roundtrip DagJSON MListOK [exampleProvider; exampleProvider] "") as (b & Hb & Hr);
      [repeat constructor; apply exampleProvider_typed|vm_compute; reflexivity|]. cbn [written Buffer] in Hb.
    etrans; [|exact (Hr "more")]. f_equal. f_equal. exact Hb.
Defined.

(** The fields the other way round, and one of a later version among them. *)
Definition laterProvider (f : Format) : list (string * string) :=
  ("zone", match f with CBOR => Cbor.cborText "eu" | DagJSON => json_String "eu" end) ::
  reverse (entries f MProvider exampleProvider).
Lemma laterProvider_extends f : extends f MProvider exampleProvider (laterProvider f).
Proof.
  exists [("zone", match f with CBOR => Cbor.cborText "eu" | DagJSON => json_String "eu" end)]. split.
  - unfold laterProvider. rewrite reverse_Permutation. apply Permutation_cons_append.
  - apply Forall_singleton. split_and!; [by vm_compute|discriminate|cbn; set_solver|].
    destruct f; intros rest; reflexivity.
Qed.
Lemma codec_forward_witness :
  Unmarshal CBOR MProvider (object CBOR (laterProvider CBOR) +:+ "more") = (Ok exampleProvider, "more") ∧
  Unmarshal DagJSON MProvider (object DagJSON (laterProvider DagJSON)) = (Ok exampleProvider, "").
Proof.
  split.
  - apply (codec_forward CBOR MProvider exampleProvider (laterProvider CBOR) "more").
    + apply exampleProvider_typed. + apply exampleProvider_fits. + apply laterProvider_extends.
    + unfold atMost, len. cbn. lia.
  - etrans; [|apply (codec_forward DagJSON MProvider exampleProvider (laterProvider DagJSON) "")].
    + f_equal.
    + apply exampleProvider_typed. + apply exampleProvider_fits. + apply laterProvider_extends.
    + unfold atMost, len. cbn. lia.
Defined.
Definition longDID : DID := str_did (String.concat "x" (replicate 8194 "")).
Lemma codec_limits_witness :
  (∃ w', Marshal CBOR MProvider (Some exampleProvider) "before" = (Ok tt, w')) ∧
  ¬ fits CBOR MDeregister longDID.
Proof.
  split; [apply (codec_limits CBOR MProvider exampleProvider "before");
          [apply exampleProvider_typed|apply exampleProvider_fits]|].
  intros Hf. apply (codec_limits CBOR MDeregister longDID "") in Hf as [w' Hw];
    [|exact I]. vm_compute in Hw. discriminate Hw.
Defined.
End Witnesses.
