(* ===== verification/Client.v ===== *)
(** * The client library: [pkg/client/client.go]

    What an operator's tools call to administer the storage nodes and the routing
    of blobs. Each function issues one invocation and sends it to the service; the
    theorems put the client and the handlers that answer it together. *)
From S2P Require Export Admin RoutingCommands ProviderCodecs.
From S2P Require Import Concrete ConcreteCodecs.
Import Codecs.

(** ** What a client asks for: a command and its arguments *)
Inductive Call `{Ids} :=
  | AskRegister (args : Admin.RegisterArguments)
  | AskDeregister (provider : DID)
  | AskList
  | AskProofsSet (args : Admin.SetProofsArguments)
  | AskWeightSet (args : Admin.SetWeightArguments)
  | AskPut (candidates : gset DID)
  | AskUse (policy : option DID).

(** What the client and the server's router use of ucantone and libforge. *)
Class ClientCodecs `{AdminCodecs} := {
  cmd_RoutingPut : string;
  cmd_RoutingUse : string;
  cmd_Routing_NoDup : NoDup
    [cmd_RoutingPut; cmd_RoutingUse; "/admin/provider/register"; "/admin/provider/deregister";
     "/admin/provider/list"; "/admin/provider/proofs/set"; "/provider/weight/set"];
  (** [container.Encode] in the raw format *)
  container_Encode : Container → outcome string;
  container_Decode_Encode ct b : container_Encode ct = Ok b → container_Decode b = Ok ct;
  (** an invocation of a command with its encoded arguments *)
  Invoke : nat → Issuer → DID → string → string → list InvOption → outcome Invocation;
  Invoke_carries t iss sub cmd args opts inv :
    Invoke t iss sub cmd args opts = Ok inv →
    inv_Issuer inv = issuer_DID iss ∧ inv_Subject inv = sub ∧
    inv_Command inv = cmd ∧ inv_ArgumentsBytes inv = args;
  (** the arguments and results libforge declares *)
  EncodeUnit : string;
  UnmarshalUnit : string → outcome ();
  MarshalPut : gset DID → outcome string;
  UnmarshalPut : string → outcome (gset DID);
  UnmarshalPut_Marshal set b : MarshalPut set = Ok b → UnmarshalPut b = Ok set;
  MarshalUse : option DID → outcome string;
  UnmarshalUse : string → outcome (option DID);
  UnmarshalUse_Marshal policy b : MarshalUse policy = Ok b → UnmarshalUse b = Ok policy;
}.

(** ** The bindings of the commands: [binding.Bind] of a text and two structs

    The arguments and the results travel as CBOR. *)
Section Bindings.
Context `{ClientCodecs} `{!CborGen} `{!DagJsonGen}.

Definition toBytes (m : Model) (t : typeOf m) : outcome string :=
  let '(r, b) := Marshal CBOR m (Some t) "" in _ ← r; Ok b.
Definition ofBytes (m : Model) (b : string) : outcome (typeOf m) := (Unmarshal CBOR m b).1.
Lemma ofBytes_toBytes m (t : typeOf m) b : typed m t → toBytes m t = Ok b → ofBytes m b = Ok t.
Proof.
  unfold toBytes, ofBytes. intros Ht. destruct (Marshal CBOR m (Some t) "") as [r w] eqn:E.
  destruct r as [[]|e| |]; [|done..]. intros [= ->].
  destruct (codec_emits CBOR m t Ht _ _ _ E) as [Hw Hf]. cbn [written Buffer] in Hw.
  assert (b = object CBOR (entries CBOR m t) +:+ "") as -> by by rewrite string_app_empty_r.
  by rewrite (codec_parses CBOR m t (entries CBOR m t) Ht Hf (extends_entries CBOR m t) (atMost_entries CBOR m t)).
Qed.

Definition commandOf (call : Call) : string :=
  match call with
  | AskRegister _ => "/admin/provider/register"
  | AskDeregister _ => "/admin/provider/deregister"
  | AskList => "/admin/provider/list"
  | AskProofsSet _ => "/admin/provider/proofs/set"
  | AskWeightSet _ => "/provider/weight/set"
  | AskPut _ => cmd_RoutingPut
  | AskUse _ => cmd_RoutingUse
  end.
Definition argumentsOf (call : Call) : outcome string :=
  match call with
  | AskRegister args => toBytes MRegister args
  | AskDeregister d => toBytes MDeregister d
  | AskList => Ok EncodeUnit
  | AskProofsSet args => toBytes MProofs args
  | AskWeightSet args => toBytes MWeight args
  | AskPut set => MarshalPut set
  | AskUse policy => MarshalUse policy
  end.
Definition Bind (t : nat) (iss : Issuer) (sub : DID) (call : Call) (opts : list InvOption)
    : outcome Invocation :=
  args ← argumentsOf call; Invoke t iss sub (commandOf call) args opts.
(** What the server's router makes of an invocation. *)
Definition ReadCall (inv : Invocation) : option Call :=
  let b := inv_ArgumentsBytes inv in
  let read {A} (r : outcome A) (ask : A → Call) := match r with Ok a => Some (ask a) | _ => None end in
  let cmd := inv_Command inv in
  if bool_decide (cmd = "/admin/provider/register") then read (ofBytes MRegister b) AskRegister
  else if bool_decide (cmd = "/admin/provider/deregister") then read (ofBytes MDeregister b) AskDeregister
  else if bool_decide (cmd = "/admin/provider/list") then Some AskList
  else if bool_decide (cmd = "/admin/provider/proofs/set") then read (ofBytes MProofs b) AskProofsSet
  else if bool_decide (cmd = "/provider/weight/set") then read (ofBytes MWeight b) AskWeightSet
  else if bool_decide (cmd = cmd_RoutingPut) then read (UnmarshalPut b) AskPut
  else if bool_decide (cmd = cmd_RoutingUse) then read (UnmarshalUse b) AskUse
  else None.
Definition typedCall (call : Call) : Prop :=
  match call with
  | AskRegister args => typed MRegister args
  | AskWeightSet args => typed MWeight args
  | _ => True
  end.
Lemma Bind_reads t iss sub call opts inv :
  typedCall call → Bind t iss sub call opts = Ok inv →
  inv_Issuer inv = issuer_DID iss ∧ inv_Subject inv = sub ∧ ReadCall inv = Some call.
Proof.
  unfold Bind. intros Ht Hb. destruct (argumentsOf call) as [args|e| |] eqn:Ha; [|done..].
  apply Invoke_carries in Hb as (Hi & Hs & Hc & Hargs). split_and!; [done..|].
  pose proof cmd_Routing_NoDup as Hnd. unfold ReadCall. rewrite Hc, Hargs.
  repeat setoid_rewrite NoDup_cons in Hnd. repeat setoid_rewrite elem_of_cons in Hnd.
  destruct call; cbn [commandOf argumentsOf typedCall] in *;
    repeat first [rewrite bool_decide_eq_true_2 by done|rewrite bool_decide_eq_false_2 by (done || (intros Heq; naive_solver))].
  - by rewrite (ofBytes_toBytes MRegister _ _ Ht Ha).
  - by rewrite (ofBytes_toBytes MDeregister _ _ I Ha).
  - done.
  - by rewrite (ofBytes_toBytes MProofs _ _ I Ha).
  - by rewrite (ofBytes_toBytes MWeight _ _ Ht Ha).
  - by rewrite (UnmarshalPut_Marshal _ _ Ha).
  - by rewrite (UnmarshalUse_Marshal _ _ Ha).
Qed.
End Bindings.

Module Client.
Section Client.
Context `{Env} `{!AdminCodecs} `{!ClientCodecs} `{!CborGen} `{!DagJsonGen}.

(** The HTTP client is the endpoint it posts to. *)
Record Client := { uploadServiceID : DID; client : string; issuer : Issuer }.
Definition NewWithClient (uploadServiceID : DID) (client : string) (issuer : Issuer) : Client :=
  {| uploadServiceID := uploadServiceID; client := client; issuer := issuer |}.
Definition New (uploadServiceID : DID) (endpoint : string) (issuer : Issuer) : outcome Client :=
  _ ← owrap "creating HTTP client" (NewHTTP endpoint);
  Ok (NewWithClient uploadServiceID endpoint issuer).

(** ** Administration: for the service's own identity only *)
Definition notPermitted (who : string) (c : Client) : error :=
  Errorf ("admin operation not permitted: " +:+ who +:+ " DID " +:+
          did_String (issuer_DID (issuer c)) +:+ " does not match upload service ID " +:+
          did_String (uploadServiceID c)).
(** [slices.Clone], then [append]: the caller's options are left alone. *)
Definition toService (c : Client) (options : list InvOption) : list InvOption :=
  options ++ [WithAudience (uploadServiceID c)].

Definition AdminProviderRegister (c : Client) (providerID : DID) (endpoint : string)
    (proofs : option Container) (options : list InvOption) : M nat Receipt :=
  if bool_decide (issuer_DID (issuer c) ≠ uploadServiceID c)
  then fail (notPermitted "issuer" c)
  else
    match proofs with
    | None => fail (Errorf "missing proofs")
    | Some proofs =>
        proofBytes ← wrap "encoding proofs" (reads (λ _, container_Encode proofs));
        inv ← wrap "invoking provider register"
          (observe (λ t, Bind t (issuer c) (uploadServiceID c)
             (AskRegister {| Admin.rg_Provider := providerID; Admin.rg_Endpoint := endpoint;
                             Admin.rg_Proofs := proofBytes |}) (toService c options)));
        '(_, rcpt, _) ← wrap "executing provider register invocation"
          (Execute (client c) UnmarshalUnit inv [] [] []);
        mret rcpt
    end.

Definition AdminProviderDeregister (c : Client) (providerID : DID) (options : list InvOption)
    : M nat Receipt :=
  if bool_decide (issuer_DID (issuer c) ≠ uploadServiceID c)
  then fail (notPermitted "signer" c)
  else
    inv ← wrap "invoking provider deregister"
      (observe (λ t, Bind t (issuer c) (uploadServiceID c) (AskDeregister providerID)
         (toService c options)));
    '(_, rcpt, _) ← wrap "executing provider deregister invocation"
      (Execute (client c) UnmarshalUnit inv [] [] []);
    mret rcpt.

Definition AdminProviderList (c : Client) (options : list InvOption)
    : M nat (list Admin.Provider * Receipt) :=
  if bool_decide (issuer_DID (issuer c) ≠ uploadServiceID c)
  then fail (notPermitted "signer" c)
  else
    inv ← wrap "invoking provider list"
      (observe (λ t, Bind t (issuer c) (uploadServiceID c) AskList (toService c options)));
    '(listOK, rcpt, _) ← wrap "executing provider list invocation"
      (Execute (client c) (ofBytes MListOK) inv [] [] []);
    mret (listOK, rcpt).

Definition AdminProviderProofsSet (c : Client) (providerID : DID) (proofs : option Container)
    (options : list InvOption) : M nat Receipt :=
  if bool_decide (issuer_DID (issuer c) ≠ uploadServiceID c)
  then fail (notPermitted "signer" c)
  else
    match proofs with
    | None => fail (Errorf "missing proofs")
    | Some proofs =>
        proofBytes ← wrap "encoding proofs" (reads (λ _, container_Encode proofs));
        inv ← wrap "invoking provider proofs set"
          (observe (λ t, Bind t (issuer c) (uploadServiceID c)
             (AskProofsSet {| Admin.sp_Provider := providerID; Admin.sp_Proofs := proofBytes |})
             (toService c options)));
        '(_, rcpt, _) ← wrap "executing provider proofs set invocation"
          (Execute (client c) UnmarshalUnit inv [] [] []);
        mret rcpt
    end.

(** The weights are ints. *)
Definition AdminProviderWeightSet (c : Client) (providerID : DID) (weight replicationWeight : Z)
    (options : list InvOption) : M nat Receipt :=
  if bool_decide (issuer_DID (issuer c) ≠ uploadServiceID c)
  then fail (notPermitted "signer" c)
  else
    inv ← wrap "invoking provider weight set"
      (observe (λ t, Bind t (issuer c) (uploadServiceID c)
         (AskWeightSet {| Admin.sw_Provider := providerID; Admin.sw_Weight := int64 weight;
                          Admin.sw_ReplicationWeight := int64 replicationWeight |})
         (toService c options)));
    '(_, rcpt, _) ← wrap "executing provider weight set invocation"
      (Execute (client c) UnmarshalUnit inv [] [] []);
    mret rcpt.

(** ** Routing: for whom the owner of the policy or the space trusts *)
(** [ucanlib.ProofStore]: the chain to an audience for a command on a subject. *)
Definition ProofStore : Type := DID → string → DID → outcome (list Delegation * list Cid).

Definition invokeRouting (c : Client) (cmd : string) (subject : DID) (args : Call)
    (proofs : option ProofStore) (options : list InvOption) : M nat Receipt :=
  let options := toService c options in
  '(dlgs, options) ←
    match proofs with
    | Some chainFor =>
        '(chain, links) ← wrap "building proof chain"
          (reads (λ _, chainFor (issuer_DID (issuer c)) cmd subject));
        mret (chain, options ++ [WithProofs links])
    | None => mret ([], options)
    end;
  inv ← wrap ("invoking " +:+ cmd) (observe (λ t, Bind t (issuer c) subject args options));
  '(_, rcpt, _) ← wrap ("executing " +:+ cmd +:+ " invocation")
    (Execute (client c) UnmarshalUnit inv dlgs [] []);
  mret rcpt.

Definition RoutingPut (c : Client) (policy : DID) (candidates : list DID)
    (proofs : option ProofStore) (options : list InvOption) : M nat Receipt :=
  wrap "routing put"
    (invokeRouting c cmd_RoutingPut policy (AskPut (list_to_set candidates)) proofs options).

Definition RoutingUse (c : Client) (space : DID) (policy : option DID)
    (proofs : option ProofStore) (options : list InvOption) : M nat Receipt :=
  wrap "routing use" (invokeRouting c cmd_RoutingUse space (AskUse policy) proofs options).

(** A sent invocation: issued, executed, its result decoded. *)
Definition sends {A B} (c : Client) (subject : DID) (call : Call) (options : list InvOption)
    (dlgs : list Delegation) (issuing executing : string) (decode : string → outcome A)
    (k : A → Receipt → B) : M nat B :=
  inv ← wrap issuing (observe (λ t, Bind t (issuer c) subject call options));
  '(ok, rcpt, _) ← wrap executing (Execute (client c) decode inv dlgs [] []);
  mret (k ok rcpt).

(** ** The service at the other end

    A service that keeps its state in [S] hands an invocation to the handler of its
    command. [answers] is what the client may rely on: a receipt says success, with
    some result, exactly when the handler set that result. *)
Section Answers.
Context {S : Type} (handler : Invocation → Call → option (M S (Reply string))).

Definition carries (r : outcome (Reply string)) (rcpt : Receipt) : Prop :=
  match rcpt_Out rcpt with
  | inl b => ∃ meta, r = Ok (SetSuccess b meta)
  | inr _ => ∀ b meta, r ≠ Ok (SetSuccess b meta)
  end.
Definition answers (t : nat) (ep : string) (s : S) : Prop :=
  ∀ inv call m dlgs rcpt meta,
    ReadCall inv = Some call → handler inv call = Some m →
    Execute_ t ep {| nr_Invocations := [inv]; nr_Delegations := dlgs;
                     nr_ExtraInvocations := []; nr_ExtraReceipts := [] |} = Ok (rcpt, meta) →
    carries (m s).1 rcpt.
(** What the service's state is once it served what was issued at [t]. *)
Definition served (c : Client) (subject : DID) (call : Call) (options : list InvOption) (t : nat)
    (s s' : S) : Prop :=
  ∃ inv m, Bind t (issuer c) subject call options = Ok inv ∧ handler inv call = Some m ∧
    s' = (m s).2.

Lemma sends_Ok {A B} c subject call options dlgs issuing executing (decode : string → outcome A)
    (k : A → Receipt → B) t t' r s :
  sends c subject call options dlgs issuing executing decode k t = (Ok r, t') →
  typedCall call → answers (1 + t) (client c) s → (∀ inv, is_Some (handler inv call)) →
  ∃ inv m b meta ok rcpt,
    inv_Issuer inv = issuer_DID (issuer c) ∧ inv_Subject inv = subject ∧
    handler inv call = Some m ∧ (m s).1 = Ok (SetSuccess b meta) ∧
    decode b = Ok ok ∧ r = k ok rcpt ∧
    ∀ s', served c subject call options t s s' → m s = (Ok (SetSuccess b meta), s').
Proof.
  intros (inv & t1 & Hi & Hx)%M_bind_Ok Hty Hans Htotal.
  unfold wrap, observe in Hi. destruct (Bind _ _ _ _ _) as [inv0|e| |] eqn:Hbind; [|done..].
  injection Hi as -> <-. destruct (Htotal inv) as [m Hm].
  destruct (Bind_reads _ _ _ _ _ _ Hty Hbind) as (Hiss & Hsub & Hread).
  apply M_bind_Ok in Hx as ([[ok rcpt] mt] & t2 & Hx & Hr). injection Hr as <- _.
  unfold wrap in Hx. destruct (Execute _ _ _ _ _ _ _) as [[x|e| |] t3] eqn:E; [|done..].
  injection Hx as -> ->. unfold Execute in E.
  apply M_bind_Ok in E as ([rcpt' mt'] & t4 & Ex & E). unfold wrap, observe in Ex.
  destruct (Execute_ _ _ _) as [[rcpt0 mt0]|e| |] eqn:Ee; [|done..]. injection Ex as <- <- _.
  pose proof (Hans inv call m dlgs rcpt0 mt0 Hread Hm Ee) as Hc. unfold carries in Hc.
  destruct (rcpt_Out rcpt0) as [b|x].
  - destruct Hc as [meta Hc]. apply M_bind_Ok in E as (ok' & t5 & Ed & E).
    injection E as <- _ _ _. unfold wrap, reads in Ed.
    destruct (decode b) as [ok0|e| |] eqn:Eb; [|done..]. injection Ed as <- _.
    exists inv, m, b, meta, ok0, rcpt. split_and!; [done..|].
    intros s' (inv' & m' & Hbind' & Hm' & ->). rewrite Hbind in Hbind'. injection Hbind' as <-.
    rewrite Hm in Hm'. injection Hm' as <-. by apply injective_projections.
  - apply M_bind_Ok in E as (model & t5 & _ & E). by destruct model as [[]|].
Qed.
End Answers.
End Client.

(** ** Administration, from the client to the registry *)
Section Administration.
Context `{Env} `{!AdminCodecs} `{!ClientCodecs} `{!CborGen} `{!DagJsonGen} `{!Urls} `{!ErrorText}.
Import StorageProvider.

Definition request {A} (inv : Invocation) (args : A) : Request A :=
  {| req_Invocation := inv; req_Arguments := args; req_Metadata := None |}.
(** The result is encoded as the handler sets it; one that does not encode is the
    handler's error. *)
Definition encoded {St A} (encode : A → outcome string) (m : M St (Reply A)) : M St (Reply string) :=
  r ← m;
  match r with
  | SetSuccess ok meta => b ← lift (encode ok); mret (SetSuccess b meta)
  | SetFailure e => mret (SetFailure e)
  end.
Definition unitary {St} : M St (Reply unit) → M St (Reply string) := encoded (λ _, Ok EncodeUnit).
Lemma encoded_Ok {St A} (encode : A → outcome string) (m : M St (Reply A)) s b meta s' :
  encoded encode m s = (Ok (SetSuccess b meta), s') →
  ∃ ok, m s = (Ok (SetSuccess ok meta), s') ∧ encode ok = Ok b.
Proof.
  intros (r & s1 & Hm & Hr)%M_bind_Ok. destruct r as [ok mt|e]; [|done].
  rewrite M_bind_step in Hr. unfold lift, reads in Hr. destruct (encode ok) as [b'|e| |] eqn:Eb; [|done..].
  injection Hr as <- <- <-. by exists ok.
Qed.

(** The handlers of the administration, by the call they answer. *)
Definition onAdmin (id : Issuer) (now : Z) (fuel : nat) (inv : Invocation) (call : Call)
    : option (M Store (Reply string)) :=
  match call with
  | AskRegister args => Some (unitary (Admin.adminProviderRegister id now (request inv args)))
  | AskDeregister d => Some (unitary (Admin.adminProviderDeregister id (request inv d)))
  | AskList => Some (encoded (toBytes MListOK) (Admin.adminProviderList id fuel (request inv tt)))
  | AskProofsSet args => Some (unitary (Admin.adminProviderProofsSet id now (request inv args)))
  | AskWeightSet args => Some (unitary (Admin.adminProviderWeightSet id now (request inv args)))
  | _ => None
  end.

(** A client that is not the service itself sends nothing: every operation of the
    administration fails before it observes anything. *)
Lemma not_permitted (c : Client) : issuer_DID (issuer c) ≠ uploadServiceID c →
  (∀ p ep proofs opts t, AdminProviderRegister c p ep proofs opts t =
     (Err (notPermitted "issuer" c), t)) ∧
  (∀ p opts t, AdminProviderDeregister c p opts t = (Err (notPermitted "signer" c), t)) ∧
  (∀ opts t, AdminProviderList c opts t = (Err (notPermitted "signer" c), t)) ∧
  (∀ p proofs opts t, AdminProviderProofsSet c p proofs opts t =
     (Err (notPermitted "signer" c), t)) ∧
  (∀ p w rw opts t, AdminProviderWeightSet c p w rw opts t =
     (Err (notPermitted "signer" c), t)).
Proof.
  intros Hne. unfold AdminProviderRegister, AdminProviderDeregister, AdminProviderList,
    AdminProviderProofsSet, AdminProviderWeightSet.
  split_and!; intros; by rewrite bool_decide_eq_true_2.
Qed.

(** What each operation did to the registry, when the client was told it succeeded. *)
Lemma registered_by_client id now fuel c p ep proofs opts t r t' (s : Store) :
  utf8Valid ep → AdminProviderRegister c p ep proofs opts t = (Ok r, t') →
  answers (onAdmin id now fuel) (1 + t) (client c) s →
  ∃ ct bytes endpoint, proofs = Some ct ∧ container_Encode ct = Ok bytes ∧
    url_Parse ep = Ok endpoint ∧ providers s !! p = None ∧
    ∀ s', served (onAdmin id now fuel) c (uploadServiceID c)
        (AskRegister {| Admin.rg_Provider := p; Admin.rg_Endpoint := ep;
                        Admin.rg_Proofs := bytes |}) (toService c opts) t s s' →
      providers s' = <[p := {| Provider := p; Endpoint := endpoint; Weight := 0;
        ReplicationWeight := Some 0%Z; Proofs := ct; InsertedAt := now; UpdatedAt := now |}]>
        (providers s).
Proof.
  unfold AdminProviderRegister. intros Hep Hr Hans. case_bool_decide; [done|].
  destruct proofs as [ct|]; [|done]. rewrite M_bind_step in Hr. unfold wrap at 1, reads in Hr.
  destruct (container_Encode ct) as [bytes|e| |] eqn:Eb; [|done..].
  eapply (sends_Ok _ c _ _ _ [] _ _ UnmarshalUnit (λ _ rcpt, rcpt)) in Hr
    as (inv & m & b & meta & ok & rcpt & _ & _ & Hm & Hok & _ & _ & Hs); [|exact Hep|done|by eexists].
  injection Hm as <-. destruct (unitary _ s) as [res s1] eqn:Em. cbn [fst] in Hok. subst res.
  apply encoded_Ok in Em as (u & Em & _).
  pose proof (Admin.register_cases id now (request inv {| Admin.rg_Provider := p;
    Admin.rg_Endpoint := ep; Admin.rg_Proofs := bytes |}) s) as Hc.
  rewrite Em in Hc. cbn in Hc.
  destruct Hc as [(_ & _ & Hnone & endpoint & ct' & Hurl & Hdec & _ & Hp)|[_ Hn]];
    [|by destruct (Hn u meta)].
  rewrite (container_Decode_Encode _ _ Eb) in Hdec. injection Hdec as <-.
  exists ct, bytes, endpoint. split_and!; [done..|]. intros s' Hserved.
  apply Hs in Hserved. by injection Hserved as <-.
Qed.
Lemma weighed_by_client id now fuel c p w rw opts t r t' (s : Store) :
  AdminProviderWeightSet c p w rw opts t = (Ok r, t') →
  answers (onAdmin id now fuel) (1 + t) (client c) s →
  ∃ rec, providers s !! p = Some rec ∧
    ∀ s', served (onAdmin id now fuel) c (uploadServiceID c)
        (AskWeightSet {| Admin.sw_Provider := p; Admin.sw_Weight := int64 w;
                         Admin.sw_ReplicationWeight := int64 rw |}) (toService c opts) t s s' →
      providers s' = <[p := {| Provider := Provider rec; Endpoint := Endpoint rec;
        Weight := int64 w; ReplicationWeight := Some (int64 rw); Proofs := Proofs rec;
        InsertedAt := InsertedAt rec; UpdatedAt := now |}]> (providers s).
Proof.
  unfold AdminProviderWeightSet. intros Hr Hans. case_bool_decide; [done|].
  eapply (sends_Ok _ c _ _ _ [] _ _ UnmarshalUnit (λ _ rcpt, rcpt)) in Hr
    as (inv & m & b & meta & ok & rcpt & _ & _ & Hm & Hok & _ & _ & Hs);
    [|split; apply int64_range|done|by eexists].
  injection Hm as <-. destruct (unitary _ s) as [res s1] eqn:Em. cbn [fst] in Hok. subst res.
  apply encoded_Ok in Em as (u & Em & _).
  pose proof (Admin.weightSet_cases id now (request inv {| Admin.sw_Provider := p;
    Admin.sw_Weight := int64 w; Admin.sw_ReplicationWeight := int64 rw |}) s) as Hc.
  rewrite Em in Hc. cbn in Hc.
  destruct Hc as [(_ & _ & rec & Hrec & Hp)|[_ Hn]]; [|by destruct (Hn u meta)].
  exists rec. split; [done|]. intros s' Hserved. apply Hs in Hserved. by injection Hserved as <-.
Qed.
Lemma listed_by_client id now fuel c opts t l r t' (s : Store) :
  issuer_DID id = uploadServiceID c → wf s → length (sorted s) < fuel →
  map_Forall (λ _ r, utf8Valid (Endpoint r)) (providers s) →
  AdminProviderList c opts t = (Ok (l, r), t') →
  answers (onAdmin id now fuel) (1 + t) (client c) s →
  l = Admin.providerOf <$> sorted s.
Proof.
  unfold AdminProviderList. intros Hid Hwf Hf Htext Hr Hans. case_bool_decide as Hc; [done|].
  eapply (sends_Ok _ c _ _ _ [] _ _ (ofBytes MListOK) (λ ok rcpt, (ok, rcpt))) in Hr
    as (inv & m & b & meta & ok & rcpt & Hiss & _ & Hm & Hok & Hdec & Hpair & _);
    [|done|done|by eexists].
  injection Hm as <-. injection Hpair as -> ->. destruct (encoded _ _ s) as [res s1] eqn:Em.
  cbn [fst] in Hok. subst res. apply encoded_Ok in Em as (l' & Em & Henc).
  rewrite Admin.adminProviderList_all in Em; [|done|cbn; congruence|done]. injection Em as <- _ _.
  rewrite (ofBytes_toBytes MListOK (Admin.providerOf <$> sorted s) b) in Hdec; [by injection Hdec| |done].
  apply Forall_fmap, Forall_forall. intros x [d Hd]%elem_of_sorted.
  split_and!; [apply int64_range..|]. exact (Htext d x Hd).
Qed.

(** C29: what the operator registers and weighs is what the operator is shown. When
    a client was told that its registration, its weights and its listing succeeded,
    by a service whose registry is touched by nothing else between them, the node
    was not registered before, the list names it at the endpoint the URL parses to,
    with the two weights as they were given and no others, names every other node
    exactly as before, and the registry holds the proofs the client passed. The
    endpoints are UTF-8, as the texts of the encoding are. *)
Theorem registered_listed (id : Issuer) (c : Client) (fuel : nat) (now1 now2 now3 : Z)
    (p : DID) (ep : string) (proofs : Container) (bytes : string) (w rw : Z)
    (opts1 opts2 opts3 : list InvOption) (t1 t2 t3 t1' t2' t3' : nat) (r1 r2 r3 : Receipt)
    (l : list Admin.Provider) (s0 s1 s2 : Store) :
  issuer_DID id = uploadServiceID c → wf s0 → is_int64 w → is_int64 rw →
  size (providers s0) + 1 < fuel →
  utf8Valid ep → (∀ endpoint, url_Parse ep = Ok endpoint → utf8Valid endpoint) →
  map_Forall (λ _ rec, utf8Valid (Endpoint rec)) (providers s0) →
  container_Encode proofs = Ok bytes →
  AdminProviderRegister c p ep (Some proofs) opts1 t1 = (Ok r1, t1') →
  answers (onAdmin id now1 fuel) (1 + t1) (client c) s0 →
  served (onAdmin id now1 fuel) c (uploadServiceID c)
    (AskRegister {| Admin.rg_Provider := p; Admin.rg_Endpoint := ep; Admin.rg_Proofs := bytes |})
    (toService c opts1) t1 s0 s1 →
  AdminProviderWeightSet c p w rw opts2 t2 = (Ok r2, t2') →
  answers (onAdmin id now2 fuel) (1 + t2) (client c) s1 →
  served (onAdmin id now2 fuel) c (uploadServiceID c)
    (AskWeightSet {| Admin.sw_Provider := p; Admin.sw_Weight := w;
                     Admin.sw_ReplicationWeight := rw |}) (toService c opts2) t2 s1 s2 →
  AdminProviderList c opts3 t3 = (Ok (l, r3), t3') →
  answers (onAdmin id now3 fuel) (1 + t3) (client c) s2 →
  providers s0 !! p = None ∧
  (∃ endpoint, url_Parse ep = Ok endpoint ∧ ∀ x, x ∈ l ↔
     x = {| Admin.pr_Provider := p; Admin.pr_Endpoint := endpoint; Admin.pr_Weight := w;
            Admin.pr_ReplicationWeight := rw |} ∨
     x ∈ Admin.providerOf <$> sorted s0) ∧
  Proofs <$> providers s2 !! p = Some proofs.
Proof.
  intros Hid Hwf Hw Hrw Hf Hep Hurl' Htext Hb Hreg A1 S1 Hset A2 S2 Hlist A3.
  eapply registered_by_client in Hreg as (ct & bytes' & endpoint & [= <-] & Hb' & Hurl & Hnone & Hreg);
    [|exact Hep|exact A1]. rewrite Hb in Hb'. injection Hb' as <-. specialize (Hreg _ S1).
  eapply weighed_by_client in Hset as (rec & Hrec & Hset); [|exact A2].
  rewrite !int64_id in Hset by done. specialize (Hset _ S2).
  rewrite Hreg, lookup_insert_eq in Hrec. injection Hrec as <-. rewrite Hreg in Hset. cbn in Hset.
  rewrite insert_insert_eq in Hset.
  assert (wf s2) as Hwf2 by (unfold wf; rewrite Hset; by apply map_Forall_insert_2).
  assert (l = Admin.providerOf <$> sorted s2) as ->.
  { eapply listed_by_client; [done..| | |exact Hlist|exact A3].
    - rewrite (Permutation_length (sorted_perm _)), length_fmap, length_map_to_list, Hset.
      rewrite map_size_insert, Hnone. lia.
    - rewrite Hset. by apply map_Forall_insert_2; [apply Hurl'|]. }
  split_and!; [done| |by rewrite Hset, lookup_insert_eq].
  exists endpoint. split; [done|]. intros x. rewrite !list_elem_of_fmap. split.
  - intros (y & -> & [d Hd]%elem_of_sorted). rewrite Hset in Hd.
    apply lookup_insert_Some in Hd as [[<- <-]|[Hne Hd]].
    + left. unfold Admin.providerOf. cbn. by rewrite !int64_id.
    + right. exists y. split; [done|]. apply elem_of_sorted. by exists d.
  - intros [->|(y & -> & [d Hd]%elem_of_sorted)].
    + eexists. split; [|apply elem_of_sorted; exists p; rewrite Hset; apply lookup_insert_eq].
      unfold Admin.providerOf. cbn. by rewrite !int64_id.
    + exists y. split; [done|]. apply elem_of_sorted. exists d. rewrite Hset.
      rewrite lookup_insert_ne; [done|]. congruence.
Qed.
End Administration.

(** ** Routing, from the client to the selection of a node *)
Section RoutingServed.
Context `{Env} `{!AdminCodecs} `{!ClientCodecs} `{!CborGen} `{!DagJsonGen} `{!ErrorNames} `{!RoutingNames}
  `{!SubscriptionHash} {P : Type} `{!StorageProvider.Reads P}.
Context (order : gset DID → list DID).

(** The handlers of the routing commands, by the call they answer. *)
Definition onRouting (now : Z) (sps : P) (fuel : nat) (provisioning : Provisioning.State)
    (inv : Invocation) (call : Call) : option (M RoutingPolicy.Store (Reply string)) :=
  match call with
  | AskPut set => Some (unitary (RoutingCommands.routingPut order now sps (request inv set)))
  | AskUse policy =>
      Some (unitary (RoutingCommands.routingUse now fuel provisioning (request inv policy)))
  | _ => None
  end.

(** The options a routing command is issued with. *)
Definition routingOptions (c : Client) (cmd : string) (subject : DID) (proofs : option ProofStore)
    (options : list InvOption) : list InvOption :=
  match proofs with
  | Some chainFor =>
      match chainFor (issuer_DID (issuer c)) cmd subject with
      | Ok (_, links) => toService c options ++ [WithProofs links]
      | _ => toService c options
      end
  | None => toService c options
  end.
Lemma invokeRouting_sends c cmd subject call proofs options t r t' :
  invokeRouting c cmd subject call proofs options t = (Ok r, t') →
  ∃ dlgs, sends c subject call (routingOptions c cmd subject proofs options) dlgs
    ("invoking " +:+ cmd) ("executing " +:+ cmd +:+ " invocation") UnmarshalUnit
    (λ _ rcpt, rcpt) t = (Ok r, t').
Proof.
  unfold invokeRouting, routingOptions. intros Hi. destruct proofs as [chainFor|]; [|by exists []].
  rewrite !M_bind_step in Hi. unfold wrap at 1, reads in Hi.
  destruct (chainFor _ _ _) as [[chain links]|e| |]; [|done..]. by exists chain.
Qed.

Lemma put_by_client now sps fuel prov c policy candidates proofs opts t r t' ps ps' :
  RoutingPut c policy candidates proofs opts t = (Ok r, t') →
  answers (onRouting now sps fuel prov) (1 + t) (client c) ps →
  served (onRouting now sps fuel prov) c policy (AskPut (list_to_set candidates))
    (routingOptions c cmd_RoutingPut policy proofs opts) t ps ps' →
  ∃ inv, inv_Subject inv = policy ∧
    RoutingCommands.routingPut order now sps (request inv (list_to_set candidates)) ps =
      (Ok (SetSuccess tt None), ps').
Proof.
  unfold RoutingPut, wrap. intros Hr Hans Hserved.
  destruct (invokeRouting _ _ _ _ _ _ t) as [[r0|e| |] t1] eqn:E; [|done..].
  injection Hr as -> ->. apply invokeRouting_sends in E as [dlgs E].
  destruct (sends_Ok _ _ _ _ _ _ _ _ _ _ _ _ _ _ E I Hans)
    as (inv & m & b & meta & ok & rcpt & _ & Hsub & Hm & _ & _ & _ & Hs); [by eexists|].
  injection Hm as <-. specialize (Hs _ Hserved). apply encoded_Ok in Hs as ([] & Hs & _).
  exists inv. split; [done|]. destruct meta; [|done]. exfalso. revert Hs.
  unfold RoutingCommands.routingPut. rewrite M_bind_step. unfold try.
  destruct (Routing.PutPolicy _ _ _ _ _ _) as [[?|e| |] ps1]; [done| |done..].
  cbv beta iota zeta. by destruct (RoutingCommands.isInvalidCandidates e).
Qed.
Lemma used_by_client now sps fuel prov c space policy proofs opts t r t' ps ps' :
  RoutingUse c space policy proofs opts t = (Ok r, t') →
  answers (onRouting now sps fuel prov) (1 + t) (client c) ps →
  served (onRouting now sps fuel prov) c space (AskUse policy)
    (routingOptions c cmd_RoutingUse space proofs opts) t ps ps' →
  ∃ inv meta, inv_Subject inv = space ∧
    RoutingCommands.routingUse now fuel prov (request inv policy) ps =
      (Ok (SetSuccess tt meta), ps').
Proof.
  unfold RoutingUse, wrap. intros Hr Hans Hserved.
  destruct (invokeRouting _ _ _ _ _ _ t) as [[r0|e| |] t1] eqn:E; [|done..].
  injection Hr as -> ->. apply invokeRouting_sends in E as [dlgs E].
  destruct (sends_Ok _ _ _ _ _ _ _ _ _ _ _ _ _ _ E I Hans)
    as (inv & m & b & meta & ok & rcpt & _ & Hsub & Hm & _ & _ & _ & Hs); [by eexists|].
  injection Hm as <-. specialize (Hs _ Hserved). apply encoded_Ok in Hs as ([] & Hs & _).
  by exists inv, meta.
Qed.

(** C30: an operator's routing is followed. When a client was told that it put a
    policy's candidates and that it put a space under the policy, there are
    candidates, every one is a registered node, and each selection for the space
    answers with one of them that has weight and is not excluded, or reports that
    there is none; the spaces under other policies, or under none, are confined to
    what they were before. *)
Theorem client_routes (sps : P) (fuel : nat) (prov : Provisioning.State) (c : Client)
    (policy space : DID) (candidates : list DID) (proofs1 proofs2 : option ProofStore)
    (opts1 opts2 : list InvOption) (t1 t2 t1' t2' : nat) (now1 now2 : Z) (r1 r2 : Receipt)
    (ps ps1 ps2 : RoutingPolicy.Store) :
  (∀ set, order set ≡ₚ elements set) →
  RoutingPolicy.wf ps → Routing.weighable sps → length (StorageProvider.listing sps) < fuel →
  RoutingPut c policy candidates proofs1 opts1 t1 = (Ok r1, t1') →
  answers (onRouting now1 sps fuel prov) (1 + t1) (client c) ps →
  served (onRouting now1 sps fuel prov) c policy (AskPut (list_to_set candidates))
    (routingOptions c cmd_RoutingPut policy proofs1 opts1) t1 ps ps1 →
  RoutingUse c space (Some policy) proofs2 opts2 t2 = (Ok r2, t2') →
  answers (onRouting now2 sps fuel prov) (1 + t2) (client c) ps1 →
  served (onRouting now2 sps fuel prov) c space (AskUse (Some policy))
    (routingOptions c cmd_RoutingUse space proofs2 opts2) t2 ps1 ps2 →
  candidates ≠ [] ∧
  Forall (λ d, d ∈ StorageProvider.Provider <$> StorageProvider.listing sps) candidates ∧
  (∀ rand exclusions, Routing.fair rand →
    let select := Routing.SelectStorageProvider sps rand fuel ps2 space exclusions in
    let takes n := n ∈ StorageProvider.listing sps ∧ (0 < StorageProvider.Weight n)%Z ∧
      StorageProvider.Provider n ∉ exclusions ∧ StorageProvider.Provider n ∈ candidates in
    (∃ n, takes n ∧ select = Ok (Routing.infoOf n)) ∨
    ((∀ n, ¬ takes n) ∧ select = Err ErrCandidateUnavailable)) ∧
  (∀ other, other ≠ space →
    RoutingPolicy.spacePolicy <$> RoutingPolicy.spaces ps !! other ≠ Some policy →
    RoutingCommands.confinedTo ps2 other = RoutingCommands.confinedTo ps other).
Proof.
  intros Hord Hwf Hw Hf Hput A1 S1 Huse A2 S2.
  eapply put_by_client in Hput as (inv1 & Hsub1 & Hput); [|done..].
  eapply used_by_client in Huse as (inv2 & meta & Hsub2 & Huse); [|done..].
  pose proof (RoutingCommands.wf_routingPut order now1 sps (request inv1 (list_to_set candidates))
    ps Hwf) as Hwf1. rewrite Hput in Hwf1.
  pose proof (RoutingCommands.wf_routingUse now2 fuel prov (request inv2 (Some policy)) ps1 Hwf1)
    as Hwf2. rewrite Huse in Hwf2. cbn [snd] in Hwf2.
  pose proof (RoutingCommands.routingPut_nonempty order now1 sps _ _ _ _ Hput) as Hne.
  apply RoutingCommands.routingPut_Ok in Hput as (Hreg & Hsp & Hcand & Hothers).
  apply RoutingCommands.routingUse_Ok in Huse as (Hpol & Hspace & Hspaces).
  cbn [request req_Invocation req_Arguments] in Hreg, Hsp, Hcand, Hothers, Hpol, Hspace, Hspaces, Hne.
  rewrite Hsub1 in Hcand, Hothers. rewrite Hsub2 in Hspace, Hspaces.
  assert (∀ d, d ∈ order (list_to_set candidates) ↔ d ∈ candidates) as Hin.
  { intros d. rewrite Hord, elem_of_elements. by rewrite elem_of_list_to_set. }
  split_and!.
  - intros ->. apply Hne, Permutation_nil_r. rewrite Hord, list_to_set_nil.
    by rewrite elements_empty.
  - apply list.Forall_forall. intros d Hd. rewrite list.Forall_forall in Hreg. by apply Hreg, Hin.
  - intros rand exclusions Hrand select takes.
    assert (∀ n, RoutingCommands.mayTake sps ps2 space exclusions n ↔ takes n) as Hiff.
    { intros n. unfold RoutingCommands.mayTake, RoutingCommands.confinedTo, takes.
      apply fmap_Some in Hspace as (ref & -> & Hr). cbn [mbind option_bind]. rewrite <-Hr, Hpol.
      apply fmap_Some in Hcand as (pr & -> & Hc). cbn [mbind option_bind].
      by rewrite <-Hc, Hin. }
    destruct (RoutingCommands.Select_confined sps rand fuel ps2 space exclusions Hwf2 Hrand Hw Hf)
      as [(n & Hm & Heq)|[Hno Heq]]; [left|right].
    + exists n. by rewrite <-Hiff.
    + split; [|done]. intros n. by rewrite <-Hiff.
  - intros other Ho Hnot. unfold RoutingCommands.confinedTo. rewrite Hspaces by done. rewrite Hsp.
    destruct (RoutingPolicy.spaces ps !! other) as [ref|]; [|done]. cbn [mbind option_bind].
    rewrite Hpol, Hothers; [done|]. intros Heq. apply Hnot. cbn. by rewrite Heq.
Qed.
End RoutingServed.
End Client.

(** ** Witnesses: tokens that carry their arguments, and a service at the other end *)
Section Witnesses.
#[local] Existing Instances StrIds NumberJSON StrCommands StrNames StrErrorText StrUrls RecContainers
  RecUcan RecForge RecAdmin StrHash StrRoutingNames StorageProvider.Kept_Reads StrCbor StrDagJson.
Import Admin.

Definition invokeToken (t : nat) (iss : Issuer) (sub : DID) (cmd args : string) (opts : list InvOption)
    : outcome Invocation :=
  Ok ({| t_task := sub +:+ cmd +:+ args +:+ Itoa (Z.of_nat t); t_issuer := iss; t_subject := sub;
         t_audience := lastAudience opts ""; t_command := cmd; t_args := args;
         t_nonce := Itoa (Z.of_nat t) |}).
Lemma invokeToken_carries t iss sub cmd args opts inv : invokeToken t iss sub cmd args opts = Ok inv →
  inv_Issuer inv = issuer_DID iss ∧ inv_Subject inv = sub ∧
  inv_Command inv = cmd ∧ inv_ArgumentsBytes inv = args.
Proof. by intros [= <-]. Qed.
Definition packSet (set : gset DID) : outcome string := Ok (pack (did_String <$> elements set)).
Definition unpackSet (s : string) : outcome (gset DID) := Ok (list_to_set (unpack s : list DID)).
Lemma unpackSet_pack set b : packSet set = Ok b → unpackSet b = Ok set.
Proof.
  intros [= <-]. unfold unpackSet. f_equal. rewrite unpack_pack. change did_String with (@id string).
  rewrite list_fmap_id. apply list_to_set_elements_L.
Qed.
Definition packOption (policy : option DID) : outcome string := Ok (pack (did_String <$> option_list policy)).
Definition unpackOption (s : string) : outcome (option DID) := Ok (head (unpack s : list DID)).
Lemma unpackOption_pack policy b : packOption policy = Ok b → unpackOption b = Ok policy.
Proof. intros [= <-]. unfold unpackOption. rewrite unpack_pack. by destruct policy. Qed.
(** The containers [container_Decode] answers with are written as the node's DID. *)
Definition encodeContainer (ct : Container) : outcome string :=
  match head (rc_dlgs ct) with
  | Some d => if bool_decide (ct = grantAll (t_issuer d)) then Ok (t_issuer d) else malformed
  | None => malformed
  end.
Lemma encodeContainer_decodes ct b : encodeContainer ct = Ok b → container_Decode b = Ok ct.
Proof.
  unfold encodeContainer. destruct (head _) as [d|]; [|done].
  case_bool_decide as Hct; [|done]. intros [= <-].
  change (Ok (grantAll (t_issuer d)) = Ok ct). by rewrite <-Hct.
Qed.
Program Definition StrClient : ClientCodecs := {|
  cmd_RoutingPut := "/routing/put"; cmd_RoutingUse := "/routing/use";
  container_Encode := encodeContainer; container_Decode_Encode := encodeContainer_decodes;
  Invoke := invokeToken; Invoke_carries := invokeToken_carries;
  EncodeUnit := ""; UnmarshalUnit _ := Ok ();
  MarshalPut := packSet; UnmarshalPut := unpackSet; UnmarshalPut_Marshal := unpackSet_pack;
  MarshalUse := packOption; UnmarshalUse := unpackOption; UnmarshalUse_Marshal := unpackOption_pack;
|}.
Next Obligation. apply (bool_decide_unpack _). vm_compute. exact I. Qed.
#[local] Existing Instance StrClient.

(** A service reached in state [state t] at the [t]-th observation. *)
Section Wire.
Context {S : Type} (handler : Invocation → Call → option (M S (Reply string))) (state : nat → S).
Definition replyOut (r : outcome (Reply string)) : string + string :=
  match r with Ok (SetSuccess b _) => inl b | _ => inr "refused" end.
Definition wire (t : nat) (ep : string) (req : NodeRequest)
    : outcome (Receipt * option Container) :=
  match nr_Invocations req with
  | [inv] =>
      match ReadCall inv with
      | Some call =>
          match handler inv call with
          | Some m => Ok ({| rt_ran := t_task inv; rt_out := replyOut (m (state t)).1 |}
                            : Receipt, None)
          | None => malformed
          end
      | None => malformed
      end
  | _ => malformed
  end.
Definition WireEnv : @Env StrIds RecContainers RecUcan RecForge := {|
  clock t := (Z.of_nat t * Second)%Z; rand _ _ := 0%Z; NewHTTP _ := Ok ();
  Execute_ := wire; ExecuteBatch := nodeBatch; ExecuteBatch_Receipt := nodeBatch_Receipt;
|}.
Lemma wire_answers t ep : @Client.answers _ _ _ _ WireEnv _ _ _ _ S handler t ep (state t).
Proof.
  intros inv call m dlgs rcpt meta Hread Hm He.
  change (wire t ep {| nr_Invocations := [inv]; nr_Delegations := dlgs;
    nr_ExtraInvocations := []; nr_ExtraReceipts := [] |} = Ok (rcpt, meta)) in He.
  unfold wire in He. cbn [nr_Invocations] in He. rewrite Hread, Hm in He. injection He as <- _. unfold Client.carries. cbn [rcpt_Out RecUcan rt_out].
  unfold replyOut. destruct ((m (state t)).1) as [[b mt|e]|e| |]; [by exists mt|done..].
Qed.
(** The state after what the operator issued at [t]. *)
Definition after (iss : Issuer) (sub : DID) (call : Call) (opts : list InvOption) (t : nat) (s : S)
    : S :=
  match Bind t iss sub call opts with
  | Ok inv => match handler inv call with Some m => (m s).2 | None => s end
  | _ => s
  end.
Lemma after_served c sub call opts t s inv :
  Bind t (Client.issuer c) sub call opts = Ok inv → (∀ inv, is_Some (handler inv call)) →
  Client.served handler c sub call opts t s
    (after (Client.issuer c) sub call opts t s).
Proof. intros Hb Ht. unfold after. rewrite Hb. destruct (Ht inv) as [m Hm]. exists inv, m. by rewrite Hm. Qed.
End Wire.

Definition operator : Client.Client :=
  Client.NewWithClient (str_did "did:web:sprue") "https://sprue" sprue.
Definition exampleAdmin := Client.onAdmin sprue 5 5.
Definition exampleOpts := Client.toService operator [].
Definition nodeRegister : Call :=
  AskRegister {| rg_Provider := str_did "did:web:node"; rg_Endpoint := "https://node";
                 rg_Proofs := "did:web:node" |}.
Definition nodeWeights : Call :=
  AskWeightSet {| sw_Provider := str_did "did:web:node"; sw_Weight := 7; sw_ReplicationWeight := -1 |}.
Definition admin1 : StorageProvider.Store :=
  after exampleAdmin sprue (str_did "did:web:sprue") nodeRegister exampleOpts 0 StorageProvider.New.
Definition admin2 : StorageProvider.Store :=
  after exampleAdmin sprue (str_did "did:web:sprue") nodeWeights exampleOpts 2 admin1.
Definition adminState (t : nat) : StorageProvider.Store :=
  match t with 1 => StorageProvider.New | 3 => admin1 | _ => admin2 end.
Definition AdminEnv := WireEnv exampleAdmin adminState.

Lemma registered_listed_witness :
  ∃ l r t, @Client.AdminProviderList _ _ _ _ AdminEnv _ _ _ _ operator [] 4 = (Ok (l, r), t) ∧
    {| pr_Provider := str_did "did:web:node"; pr_Endpoint := "https://node"; pr_Weight := 7;
       pr_ReplicationWeight := -1 |} ∈ l.
Proof.
  do 3 eexists. split; [vm_compute; reflexivity|].
  edestruct (@Client.registered_listed _ _ _ _ AdminEnv _ _ _ _ _ _ sprue operator 5 5 5 5
    (str_did "did:web:node") "https://node" (grantAll "did:web:node") "did:web:node" 7 (-1)
    [] [] [] 0 2 4) as (_ & (ep & Hep & Hl) & _).
  - reflexivity.
  - apply StorageProvider.providers_wf_New.
  - unfold is_int64. lia.
  - unfold is_int64. lia.
  - vm_compute. lia.
  - by vm_compute.
  - intros endpoint. vm_compute. by intros [= <-].
  - apply map_Forall_empty.
  - vm_compute. reflexivity.
  - vm_compute. reflexivity.
  - apply (wire_answers exampleAdmin adminState 1).
  - eapply (after_served exampleAdmin operator); [reflexivity|intros inv; eexists; reflexivity].
  - vm_compute. reflexivity.
  - apply (wire_answers exampleAdmin adminState 3).
  - eapply (after_served exampleAdmin operator); [reflexivity|intros inv; eexists; reflexivity].
  - vm_compute. reflexivity.
  - apply (wire_answers exampleAdmin adminState 5).
  - apply Hl. left. vm_compute in Hep. injection Hep as <-. reflexivity.
Defined.

Definition exampleRouting := Client.onRouting elements 5 oneNode 3 routedSpace.
Definition examplePolicy : DID := str_did "did:key:policy".
Definition exampleSpace : DID := str_did "did:key:space".
Definition routing1 : RoutingPolicy.Store :=
  after exampleRouting sprue examplePolicy (AskPut (list_to_set [str_did "did:web:node"]))
    exampleOpts 0 RoutingPolicy.New.
Definition routing2 : RoutingPolicy.Store :=
  after exampleRouting sprue exampleSpace (AskUse (Some examplePolicy)) exampleOpts 2 routing1.
Definition routingState (t : nat) : RoutingPolicy.Store :=
  match t with 1 => RoutingPolicy.New | 3 => routing1 | _ => routing2 end.
Definition RoutingEnv := WireEnv exampleRouting routingState.

Lemma client_routes_witness :
  (∃ n, StorageProvider.Provider n ∈ [str_did "did:web:node"] ∧
    Routing.SelectStorageProvider oneNode (λ _, 0%Z) 3 routing2 exampleSpace [] =
      Ok (Routing.infoOf n)) ∨
  Routing.SelectStorageProvider oneNode (λ _, 0%Z) 3 routing2 exampleSpace [] =
    Err ErrCandidateUnavailable.
Proof.
  edestruct (@Client.client_routes _ _ _ _ RoutingEnv _ _ _ _ _ _ _ _ elements
    oneNode 3 routedSpace operator examplePolicy exampleSpace [str_did "did:web:node"]
    None None [] [] 0 2) as (_ & _ & Hsel & _).
  - intros set. reflexivity.
  - apply RoutingPolicy.policies_wf_New.
  - vm_compute. discriminate.
  - vm_compute. lia.
  - vm_compute. reflexivity.
  - apply (wire_answers exampleRouting routingState 1).
  - eapply (after_served exampleRouting operator); [reflexivity|intros inv; eexists; reflexivity].
  - vm_compute. reflexivity.
  - apply (wire_answers exampleRouting routingState 3).
  - eapply (after_served exampleRouting operator); [reflexivity|intros inv; eexists; reflexivity].
  - destruct (Hsel (λ _, 0%Z) []) as [(n & (_ & _ & _ & Hn) & Heq)|[_ Heq]].
    + intros k Hk. split; [discriminate|exact Hk].
    + left. exists n. split; [exact Hn|exact Heq].
    + right. exact Heq.
Defined.
End Witnesses.
