(* ===== verification/Sql.v ===== *)
(** * The database: what the stores of [pkg/store/*/postgres] rely on

    The PostgreSQL server and the pgx driver are not part of the repository. What
    a statement does to the tables is written with the operations of this file
    (one row per key, unique violations, upserts, ordered and limited selects);
    when a call fails, what time it is, what other connections commit between
    two calls, how the server collates text and how long a slice the Go runtime
    allocates are parameters.

    A connection outside a transaction sees, at each statement, what the others
    committed meanwhile. A transaction is run as if no other committed between
    its statements: the rows the stores' transactions touch are locked by their
    first statement on them. *)
From S2P Require Export Store.

(** What a call of the driver fails with. *)
Inductive dbError :=
  | NoRows
  | PgError (code msg : string)
  | Broken (msg : string).

#[export] Instance dbError_eq_dec : EqDecision dbError.
Proof. solve_decision. Defined.

(** [errors.As(err, &pgErr) && pgErr.Code == code] *)
Definition hasCode (code : string) (e : dbError) : bool :=
  match e with PgError c _ => bool_decide (c = code) | _ => false end.

Definition uniqueViolation : string := "23505".
Definition foreignKeyViolation : string := "23503".
Definition numericOutOfRange : string := "22003".
Definition invalidLimit : string := "2201W".

Class Postgres := {
  (** what an error of the driver prints as *)
  db_Error : dbError → string;
  (** the order of TEXT, that of the collation of the database *)
  textLe : relation string;
  textLe_dec :: RelDecision textLe;
  textLe_preorder :: PreOrder textLe;
  textLe_antisymm :: AntiSymm (=) textLe;
  textLe_total :: Total textLe;
  (** the TIMESTAMPTZ column a time is written to and read back from: of
      microseconds, which a time truncated to them goes through unchanged *)
  timestamptz : Z → Z;
  timestamptz_mono t u : (t ≤ u)%Z → (timestamptz t ≤ timestamptz u)%Z;
  timestamptz_idemp t : timestamptz (timestamptz t) = timestamptz t;
  timestamptz_Truncate t : timestamptz (Truncate t Microsecond) = Truncate t Microsecond;
  (** the largest capacity [make([]T, 0, n)] does not panic on *)
  makeslice_max : Z;
  makeslice_thousand : (1000 ≤ makeslice_max)%Z;
  (** the order rows come in when the statement asks for none *)
  heapOrder {R} : nat → list R → list R;
  heapOrder_perm {R} n (l : list R) : heapOrder n l ≡ₚ l;
}.

(** What happens around a connection, by the number of its call: the readings
    of the clock; whether the call fails, and then whether the server carried
    it out all the same; how many rows come before a failure; what the other
    connections commit before it. *)
Class Database (T : Type) := {
  clock : nat → Z;
  fault : nat → option (dbError * bool);
  delivered : nat → nat;
  others : nat → T → T;
}.

Section Sql.
Context `{Postgres}.

Definition toError (e : dbError) : error := Errorf (db_Error e).

(** BIGINT holds what an int64 does, INTEGER what an int32 does. *)
Definition is_bigint (z : Z) : bool := bool_decide (- 2 ^ 63 ≤ z < 2 ^ 63)%Z.
Definition is_integer (z : Z) : bool := bool_decide (- 2 ^ 31 ≤ z < 2 ^ 31)%Z.
Definition outOfRange : dbError := PgError numericOutOfRange "out of range".

(** [make([]T, 0, n)] *)
Definition make_slice (n : Z) : outcome unit :=
  if bool_decide (0 ≤ n ≤ makeslice_max)%Z then Ok tt else Panic.

(** ** Tables: a row per primary key *)
Section Tables.
Context {K R : Type} `{Countable K}.
Implicit Types (k : K) (r : R) (m : gmap K R).

(** INSERT, with and without ON CONFLICT DO NOTHING; the flag is whether a row
    was written. *)
Definition insertRow k r m : gmap K R + dbError :=
  match m !! k with
  | Some _ => inr (PgError uniqueViolation "duplicate key value violates unique constraint")
  | None => inl (<[k := r]> m)
  end.
Definition insertOrNothing k r m : bool * gmap K R :=
  match m !! k with
  | Some _ => (false, m)
  | None => (true, <[k := r]> m)
  end.
(** ON CONFLICT DO UPDATE: [up] is what the old row becomes. *)
Definition upsertRow k r (up : R → R) m : gmap K R :=
  <[k := match m !! k with Some old => up old | None => r end]> m.
(** UPDATE and DELETE of one key, with RowsAffected. *)
Definition updateRow k (up : R → R) m : Z * gmap K R :=
  match m !! k with
  | Some old => (1%Z, <[k := up old]> m)
  | None => (0%Z, m)
  end.
Definition deleteRow k m : Z * gmap K R :=
  match m !! k with
  | Some _ => (1%Z, delete k m)
  | None => (0%Z, m)
  end.
(** DELETE ... WHERE. *)
Definition deleteWhere (P : K * R → Prop) `{∀ x, Decision (P x)} m : Z * gmap K R :=
  (len (filter P (map_to_list m)), filter (λ x, ¬ P x) m).
(** SELECT ... WHERE, in no order. *)
Definition selectWhere (P : K * R → Prop) `{∀ x, Decision (P x)} m : list (K * R) :=
  filter P (map_to_list m).
End Tables.

(** ORDER BY and LIMIT. *)
Definition byKey {A B} (le : relation B) (key : A → B) : relation A := λ x y, le (key x) (key y).
#[export] Instance byKey_dec {A B} (le : relation B) `{!RelDecision le} (key : A → B) :
  RelDecision (byKey le key).
Proof. intros x y. apply (decide_rel le (key x) (key y)). Defined.
Definition orderBy {A B} (le : relation B) `{!RelDecision le} (key : A → B) (l : list A)
    : list A := sortFunc (byKey le key) l.
Definition limited {A} (n : Z) (l : list A) : list A + dbError :=
  if (n <? 0)%Z then inr (PgError invalidLimit "LIMIT must not be negative")
  else inl (take (Z.to_nat n) l).

(** ** Calls *)
Context {T : Type} `{!Database T}.

(** [began] is when the transaction the connection is in began. *)
Record Conn := { tables : T; calls : nat; began : option Z }.
Definition Stmt (A : Type) : Type := Z → T → (A * T) + dbError.

(** What the statement of a call sees, and its NOW(). *)
Definition seen (c : Conn) : T :=
  match began c with Some _ => tables c | None => others (calls c) (tables c) end.
Definition nowOf (c : Conn) : Z := timestamptz (default (clock (calls c)) (began c)).

Definition run {A} (stmt : Stmt A) : M Conn (A + dbError) := λ c,
  let after r t := (Ok r, {| tables := t; calls := S (calls c); began := began c |}) in
  match fault (calls c), stmt (nowOf c) (seen c) with
  | Some (e, true), inl (_, t) => after (inr e) t
  | Some (e, _), _ => after (inr e) (seen c)
  | None, inl (a, t) => after (inl a) t
  | None, inr e => after (inr e) (seen c)
  end.

(** [pool.QueryRow(...).Scan(...)]: the first row, or [NoRows]. *)
Definition queryRow {R} (q : T → option R) : M Conn (R + dbError) :=
  run (λ _ t, match q t with Some r => inl (r, t) | None => inr NoRows end).

(** [pool.Query(...)]: the rows that come, and what [rows.Err] says after them. *)
Definition query {R} (q : T → list R + dbError) : M Conn (list R * option dbError + dbError) := λ c,
  let n := calls c in
  let after k r := (Ok r, {| tables := seen c; calls := k; began := began c |}) in
  match fault n with
  | Some (e, _) => after (S n) (inr e)
  | None =>
      match q (seen c), fault (S n) with
      | inl rs, None => after (S (S n)) (inl (rs, None))
      | inl rs, Some (e, _) => after (S (S n)) (inl (take (delivered n) rs, Some e))
      | inr e, _ => after (S (S n)) (inl ([], Some e))
      end
  end.

(** A query without ORDER BY. *)
Definition queryAny {R} (q : T → list R) : M Conn (list R * option dbError + dbError) :=
  λ c, query (λ t, inl (heapOrder (calls c) (q t))) c.

(** [time.Now()] *)
Definition clockNow : M Conn Z := λ c,
  (Ok (clock (calls c)), {| tables := tables c; calls := S (calls c); began := began c |}).

(** [if err != nil { return f(err) }] *)
Definition orFail {S A} (f : dbError → error) (m : M S (A + dbError)) : M S A :=
  r ← m; match r with inl a => mret a | inr e => fail (f e) end.
Definition wrapped (ctx : string) (e : dbError) : error := Wrap ctx (toError e).

(** [pool.Begin], a deferred [tx.Rollback] and [tx.Commit] around [body]. A
    commit that fails may have been carried out. *)
Definition transaction {A} (committing : string) (body : M Conn A) : M Conn A := λ c,
  let t := others (calls c) (tables c) in
  let after n t r := (r, {| tables := t; calls := S n; began := None |}) in
  match fault (calls c) with
  | Some (e, _) => after (calls c) t (Err (wrapped "beginning transaction" e))
  | None =>
      match body {| tables := t; calls := S (calls c); began := Some (clock (calls c)) |} with
      | (Ok a, c') =>
          match fault (calls c') with
          | Some (e, carried) =>
              after (calls c') (if carried : bool then tables c' else t) (Err (wrapped committing e))
          | None => after (calls c') (tables c') (Ok a)
          end
      | (r, c') => after (calls c') t r
      end
  end.

(** The loop over the rows of a query: [scan] parses a row, and what [rows.Err]
    says is looked at after the last. *)
Definition scanRows {R X} (iterating : string) (scan : R → outcome X)
    (rs : list R * option dbError) : outcome (list X) :=
  xs ← mapM scan rs.1;
  match rs.2 with
  | Some e => Err (wrapped iterating e)
  | None => Ok xs
  end.
(** The end of every [List]: one row more than the limit was asked for. *)
Definition pageOf {X} (limit : Z) (cursorOf : X → string) (xs : list X) : outcome (Page X) :=
  if (limit <? len xs)%Z then
    last ← index xs (limit - 1);
    rs ← slice_to xs limit;
    Ok (mkPage (Some (cursorOf last)) rs)
  else Ok (mkPage None xs).

(** ** Listings: SELECT ... WHERE key > cursor ORDER BY key LIMIT limit + 1

    What the [List] operations of the stores differ in. *)
Record Listing (R B X : Type) := {
  l_select : T → list R;
  l_key : R → B;
  (** the condition on the first page, and the key a cursor resumes after *)
  l_first : R → bool;
  l_resume : string → outcome B;
  l_scan : R → outcome X;
  l_cursor : X → string;
  (** what the errors of the query and of the rows are wrapped in *)
  l_querying : string;
  l_iterating : string;
}.
Definition defaultListLimit : Z := 1000.
(** [limit := defaultListLimit; if cfg.Limit != nil && *cfg.Limit > 0 { ... }] *)
Definition limitOf (cfg : PaginationConfig) : Z :=
  match cfgLimit cfg with
  | Some n => if (0 <? n)%Z then n else defaultListLimit
  | None => defaultListLimit
  end.

Section Listings.
Context {R B X : Type} (le : relation B) `{!RelDecision le} (l : Listing R B X).

Definition keepOf (cursor : option string) : outcome (R → bool) :=
  match cursor with
  | Some c => k ← l_resume _ _ _ l c; Ok (λ r, negb (bool_decide (le (l_key _ _ _ l r) k)))
  | None => Ok (l_first _ _ _ l)
  end.
Definition listRows (limit : Z) (keep : R → bool) (t : T) : list R + dbError :=
  limited (int64 (limit + 1))
    (orderBy le (l_key _ _ _ l) (filter (λ r, keep r = true) (l_select _ _ _ l t))).
Definition listPage (cfg : PaginationConfig) (limit : Z) : M Conn (Page X) :=
  keep ← lift (keepOf (cfgCursor cfg));
  got ← orFail (wrapped (l_querying _ _ _ l)) (query (listRows limit keep));
  _ ← lift (make_slice limit);
  xs ← lift (scanRows (l_iterating _ _ _ l) (l_scan _ _ _ l) got);
  lift (pageOf limit (l_cursor _ _ _ l) xs).
End Listings.
End Sql.
Arguments Listing T R B X : clear implicits.
Arguments l_select {T R B X} _.
Arguments l_key {T R B X} _.
Arguments l_first {T R B X} _.
Arguments l_resume {T R B X} _.
Arguments l_scan {T R B X} _.
Arguments l_cursor {T R B X} _.
Arguments l_querying {T R B X} _.
Arguments l_iterating {T R B X} _.
Arguments Conn T : clear implicits.
Arguments Stmt T A : clear implicits.

(** ** What a call leaves behind *)
Section Calls.
Context `{Postgres} {T : Type} `{!Database T}.
Implicit Types (c : Conn T) (t : T) (P : T → Prop).

(** What a transaction begun now starts from. *)
Definition begun c : T := others (calls c) (tables c).
Lemma seen_None c : began c = None → seen c = begun c.
Proof. unfold seen. by intros ->. Qed.
Lemma seen_Some c b : began c = Some b → seen c = tables c.
Proof. unfold seen. by intros ->. Qed.

Lemma run_inv {A} (stmt : Stmt T A) c r c' :
  run stmt c = (r, c') →
  began c' = began c ∧ calls c' = S (calls c) ∧
  ((∃ a, r = Ok (inl a) ∧ stmt (nowOf c) (seen c) = inl (a, tables c')) ∨
   (∃ e, r = Ok (inr e) ∧ stmt (nowOf c) (seen c) = inr e ∧ tables c' = seen c) ∨
   (∃ e carried, r = Ok (inr e) ∧ fault (calls c) = Some (e, carried) ∧
      (tables c' = seen c ∨ ∃ a, stmt (nowOf c) (seen c) = inl (a, tables c')))).
Proof.
  unfold run. destruct (fault _) as [[e []]|] eqn:Ef; destruct (stmt _ _) as [[a t]|e'] eqn:Es;
    intros [= <- <-]; cbn; (split_and!; [done..|]); eauto 10.
Qed.
Lemma run_quiet {A} (stmt : Stmt T A) c :
  fault (calls c) = None →
  run stmt c =
  match stmt (nowOf c) (seen c) with
  | inl (a, t) => (Ok (inl a), {| tables := t; calls := S (calls c); began := began c |})
  | inr e => (Ok (inr e), {| tables := seen c; calls := S (calls c); began := began c |})
  end.
Proof. unfold run. intros ->. by destruct (stmt _ _) as [[a t]|e]. Qed.

Lemma orFail_inv {A} f (m : M (Conn T) (A + dbError)) c a c' :
  orFail f m c = (Ok a, c') → m c = (Ok (inl a), c').
Proof.
  unfold orFail. rewrite M_bind_step. destruct (m c) as [[[x|e]|e| |] c1]; try done.
  by intros [= -> ->].
Qed.
(** An error of [orFail] is the one [f] makes, unless the call failed itself. *)
Lemma orFail_step {A} f (m : M (Conn T) (A + dbError)) c :
  orFail f m c =
  match m c with
  | (Ok (inl a), c') => (Ok a, c')
  | (Ok (inr e), c') => (Err (f e), c')
  | (Err e, c') => (Err e, c')
  | (Panic, c') => (Panic, c')
  | (Diverge, c') => (Diverge, c')
  end.
Proof. unfold orFail. rewrite M_bind_step. by destruct (m c) as [[[|]| | |] ?]. Qed.

(** *** A property of the tables every call keeps *)
Definition keeps {A} P (m : M (Conn T) A) : Prop := ∀ c, P (tables c) → P (tables (m c).2).
Class Stable P : Prop := stable : ∀ n t, P t → P (others n t).

Lemma keeps_seen P `{!Stable P} c : P (tables c) → P (seen c).
Proof. unfold seen. destruct (began c); [done|]. apply stable. Qed.
Lemma keeps_run {A} P `{!Stable P} (stmt : Stmt T A) :
  (∀ now t a t', P t → stmt now t = inl (a, t') → P t') → keeps P (run stmt).
Proof.
  intros Hs c Hc. destruct (run stmt c) as [r c'] eqn:E.
  apply (keeps_seen P) in Hc. destruct (run_inv _ _ _ _ E) as (_ & _ & Hr).
  cbn [snd]. destruct Hr as [(a & _ & Ha)|[(e & _ & _ & ->)|(e & k & _ & _ & [->|(a & Ha)])]]; eauto.
Qed.
Lemma keeps_query {R} P `{!Stable P} (q : T → list R + dbError) : keeps P (query q).
Proof.
  intros c Hc. apply (keeps_seen P) in Hc. unfold query.
  destruct (fault (calls c)) as [[]|]; [done|]. destruct (q _); [|done].
  by destruct (fault (S _)) as [[]|].
Qed.
Lemma keeps_clockNow P : keeps P clockNow.
Proof. by intros c Hc. Qed.
Lemma keeps_ret {A} P (a : A) : keeps P (mret a).
Proof. by intros c Hc. Qed.
Lemma keeps_lift {A} P (r : outcome A) : keeps P (lift r).
Proof. by intros c Hc. Qed.
Lemma keeps_lift_bind {A B} P (r : outcome A) (k : A → M (Conn T) B) :
  (∀ a, r = Ok a → keeps P (k a)) → keeps P (lift r ≫= k).
Proof. intros Hk c Hc. rewrite M_bind_step. unfold lift, reads. destruct r; try done. by apply Hk. Qed.
Lemma keeps_fail {A} P e : keeps P (fail (A := A) e).
Proof. by intros c Hc. Qed.
Lemma keeps_bind {A B} P (m : M (Conn T) A) (k : A → M (Conn T) B) :
  keeps P m → (∀ a, keeps P (k a)) → keeps P (m ≫= k).
Proof.
  intros Hm Hk c Hc. rewrite M_bind_step. specialize (Hm c Hc).
  destruct (m c) as [[a| | |] c']; cbn in *; auto. by apply Hk.
Qed.
Lemma keeps_orFail {A} P f (m : M (Conn T) (A + dbError)) : keeps P m → keeps P (orFail f m).
Proof.
  intros Hm c Hc. rewrite orFail_step. specialize (Hm c Hc).
  by destruct (m c) as [[[|]| | |] ?].
Qed.

(** *** What the body of a transaction does to the tables when it succeeds *)
Definition effect {A} (b : Z) (m : M (Conn T) A) (Q : T → A → T → Prop) : Prop :=
  ∀ c a c', began c = Some b → m c = (Ok a, c') → began c' = Some b ∧ Q (tables c) a (tables c').

Lemma effect_bind {A B} b (m : M (Conn T) A) (k : A → M (Conn T) B) Q1 Q2 Q :
  effect b m Q1 → (∀ a, effect b (k a) (Q2 a)) →
  (∀ t a t1 x t2, Q1 t a t1 → Q2 a t1 x t2 → Q t x t2) →
  effect b (m ≫= k) Q.
Proof.
  intros H1 H2 HQ c a c' Hc (x & c1 & Hm & Hk)%M_bind_Ok.
  destruct (H1 _ _ _ Hc Hm) as [Hc1 Hq1]. destruct (H2 _ _ _ _ Hc1 Hk) as [? Hq2]. eauto.
Qed.
Lemma effect_ret {A} b (a : A) (Q : T → A → T → Prop) : (∀ t, Q t a t) → effect b (mret a) Q.
Proof. intros HQ c x c' Hc [= <- <-]. auto. Qed.
Lemma effect_fail {A} b e (Q : T → A → T → Prop) : effect b (fail e) Q.
Proof. by intros c x c' Hc Hf. Qed.
Lemma effect_run {A} b f (stmt : Stmt T A) (Q : T → A → T → Prop) :
  (∀ t a t', stmt (timestamptz b) t = inl (a, t') → Q t a t') →
  effect b (orFail f (run stmt)) Q.
Proof.
  intros HQ c a c' Hc Hr%orFail_inv.
  destruct (run_inv _ _ _ _ Hr) as (Hb & _ & [(x & [= <-] & Hs)|[(? & ? & _)|(? & ? & ? & _)]]); [|done..].
  split; [congruence|]. apply HQ. unfold nowOf in Hs. rewrite Hc, (seen_Some _ _ Hc) in Hs. done.
Qed.
Lemma effect_clockNow b : effect b clockNow (λ t a t', t' = t ∧ ∃ n, a = clock n).
Proof. intros c a c' Hc [= <- <-]. cbn. eauto. Qed.

(** A transaction is carried out whole or not at all. *)
Lemma transaction_spec {A} committing (body : M (Conn T) A) (Q : T → A → T → Prop) c r c' :
  (∀ b, effect b body Q) →
  transaction committing body c = (r, c') →
  began c' = None ∧
  match r with
  | Ok a => Q (begun c) a (tables c')
  | _ => tables c' = begun c ∨
         ∃ a e, r = Err (wrapped committing e) ∧ Q (begun c) a (tables c')
  end.
Proof.
  unfold transaction, begun. intros HQ. destruct (fault (calls c)) as [[e k]|].
  { intros [= <- <-]. auto. }
  destruct (body _) as [[a|e| |] c1] eqn:Eb.
  - apply (HQ (clock (calls c))) in Eb as [_ Hq]; [|done]. cbn in Hq.
    destruct (fault (calls c1)) as [[e k]|]; intros [= <- <-]; cbn; [|done].
    split; [done|]. destruct k; eauto.
  - intros [= <- <-]. auto.
  - intros [= <- <-]. auto.
  - intros [= <- <-]. auto.
Qed.
Lemma transaction_keeps {A} P `{!Stable P} committing (body : M (Conn T) A) :
  (∀ b, effect b body (λ t _ t', P t → P t')) → keeps P (transaction committing body).
Proof.
  intros HQ c Hc. destruct (transaction _ _ c) as [r c'] eqn:E. apply (transaction_spec _ _ _ _ _ _ HQ) in E as [_ E].
  assert (P (begun c)) as Hb by by apply stable.
  cbn. destruct r; [auto|..]; (destruct E as [->|(a' & e' & _ & Hq)]; auto).
Qed.
End Calls.

(** ** An operation of one statement

    It answers as the statement does, or refuses before any call, or the call
    failed: then the answer is an error and the statement was carried out or
    not. *)
Section Answers.
Context `{Postgres} {T : Type} `{!Database T}.

Definition answers {A} (m : M (Conn T) A) (c : Conn T) (r : outcome A) (t' : T) : Prop :=
  ((m c).1 = r ∧ (tables (m c).2 = t' ∨ ((m c).2 = c ∧ seen c = t'))) ∨
  (fault (T := T) (calls c) ≠ None ∧ (∃ e, (m c).1 = Err e) ∧
   (tables (m c).2 = seen c ∨ tables (m c).2 = t')).

Lemma answers_run {A B} (stmt : Stmt T A) (k : A + dbError → M (Conn T) B) (f : A + dbError → outcome B) c r t' :
  (∀ x, k x = lift (f x)) → (∀ e, ∃ e', f (inr e) = Err e') →
  match stmt (nowOf c) (seen c) with
  | inl (a, t) => f (inl a) = r ∧ t = t'
  | inr e => f (inr e) = r ∧ seen c = t'
  end →
  answers (run stmt ≫= k) c r t'.
Proof.
  intros Hk Hf Hs. unfold answers. rewrite M_bind_step.
  destruct (fault (calls c)) as [[e []]|] eqn:E.
  - right. unfold run. rewrite E. destruct (stmt _ _) as [[a t]|e0]; rewrite Hk; cbn;
      destruct Hs as [_ <-]; split_and!; auto; apply Hf.
  - right. unfold run. rewrite E. destruct (stmt _ _) as [[a t]|e0]; rewrite Hk; cbn; split_and!; auto; apply Hf.
  - left. rewrite run_quiet by done. destruct (stmt _ _) as [[a t]|e0]; rewrite Hk; cbn; tauto.
Qed.
Lemma answers_orFail {A} (stmt : Stmt T A) (f : dbError → error) c r t' :
  match stmt (nowOf c) (seen c) with
  | inl (a, t) => Ok a = r ∧ t = t'
  | inr e => Err (f e) = r ∧ seen c = t'
  end →
  answers (orFail f (run stmt)) c r t'.
Proof.
  intros Hs. unfold orFail. apply (answers_run _ _ (λ x, match x with inl a => Ok a | inr e => Err (f e) end)).
  - by intros [].
  - eauto.
  - exact Hs.
Qed.
Lemma answers_refused {A} e (c : Conn T) : answers (fail (A := A) e) c (Err e) (seen c).
Proof. left. auto. Qed.
End Answers.

(** ** Rows in order *)
Lemma mapM_Ok {A B} (f : A → outcome B) l k :
  mapM f l = Ok k ↔ Forall2 (λ x y, f x = Ok y) l k.
Proof.
  revert k. induction l as [|x l IH]; intros k; cbn.
  { split; [intros [= <-]; constructor|]. by intros ->%Forall2_nil_inv_l. }
  split.
  - destruct (f x) as [y| | |] eqn:Ef; cbn; [|done..].
    destruct (mapM f l) as [k'| | |]; cbn; [|done..]. intros [= <-].
    constructor; [done|]. by apply IH.
  - intros (y & k' & Hy & Hl & ->)%Forall2_cons_inv_l. apply IH in Hl. by rewrite Hy; cbn; rewrite Hl.
Qed.

Section Ordering.
Context {A B : Type} (le : relation B) `{!RelDecision le, !PreOrder le, !AntiSymm (=) le, !Total le}.
Context (key : A → B).
Implicit Types (l : list A) (x y : A).

#[export] Instance byKey_preorder : PreOrder (byKey le key).
Proof. split; [intros x; by apply (reflexivity (R := le))|]. intros x y z. by apply (transitivity (R := le)). Qed.
#[export] Instance byKey_total : Total (byKey le key).
Proof. intros x y. apply (total le). Qed.

Lemma orderBy_perm l : orderBy le key l ≡ₚ l.
Proof. apply merge_sort_Permutation. Qed.
Lemma orderBy_sorted l : StronglySorted (byKey le key) (orderBy le key l).
Proof. apply StronglySorted_merge_sort; apply _. Qed.
Lemma NoDup_key_inj l x y :
  NoDup (key <$> l) → x ∈ l → y ∈ l → key x = key y → x = y.
Proof.
  intros Hnd [i Hi]%list_elem_of_lookup [j Hj]%list_elem_of_lookup Heq.
  assert (i = j) as ->; [|congruence].
  eapply NoDup_lookup; [exact Hnd|..]; rewrite list_lookup_fmap; [by rewrite Hi|rewrite Hj].
  simpl. by rewrite Heq.
Qed.
(** The order of rows with different keys is determined. *)
Lemma orderBy_unique l l' :
  NoDup (key <$> l) → StronglySorted (byKey le key) l' → l' ≡ₚ l → orderBy le key l = l'.
Proof.
  intros Hnd Hs Hp. eapply StronglySorted_unique_strong; [|apply orderBy_sorted|done|].
  - intros x y Hx Hy Hxy Hyx. rewrite orderBy_perm in Hx. rewrite Hp in Hy.
    eapply NoDup_key_inj; [done..|]. by apply (anti_symm le).
  - by rewrite orderBy_perm.
Qed.
Lemma NoDup_fmap_filter (P : A → Prop) `{∀ x, Decision (P x)} l :
  NoDup (key <$> l) → NoDup (key <$> filter P l).
Proof. intros Hnd. eapply sublist_NoDup; [exact Hnd|]. apply fmap_sublist, sublist_filter. Qed.
Lemma orderBy_filter (P : A → Prop) `{∀ x, Decision (P x)} l :
  NoDup (key <$> l) → orderBy le key (filter P l) = filter P (orderBy le key l).
Proof.
  intros Hnd. apply orderBy_unique.
  - by apply NoDup_fmap_filter.
  - apply StronglySorted_filter, orderBy_sorted.
  - by rewrite orderBy_perm.
Qed.
Lemma orderBy_key_NoDup l : NoDup (key <$> l) → NoDup (key <$> orderBy le key l).
Proof. by rewrite orderBy_perm. Qed.

(** What follows a row in the order is what its key is strictly below. *)
Lemma after_suffix l1 x l2 :
  StronglySorted (byKey le key) (l1 ++ x :: l2) → NoDup (key <$> l1 ++ x :: l2) →
  filter (λ y, ¬ le (key y) (key x)) (l1 ++ x :: l2) = l2.
Proof.
  intros Hs Hnd. rewrite filter_app, filter_cons_False; [|by intros []].
  rewrite (filter_none _ l1), (filter_all _ l2); [done|..]; apply Forall_forall; intros y Hy.
  - intros Hle. assert (key y = key x) as Heq.
    { apply (anti_symm le); [done|].
      eapply (StronglySorted_app_1_elem_of (byKey le key) (l1 ++ [x]) l2); [|set_solver|done].
      by rewrite <-app_assoc. }
    rewrite fmap_app, fmap_cons in Hnd. apply NoDup_app in Hnd as (_ & _ & Hnd).
    apply NoDup_cons in Hnd as [Hnin _]. apply Hnin. rewrite <-Heq. by apply list_elem_of_fmap_2.
  - intros Hn. apply Hn.
    eapply (StronglySorted_app_1_elem_of (byKey le key) l1 (x :: l2)); [done|done|left].
Qed.

(** Of rows in order, those up to the [n]-th are among the first [n]. *)
Lemma upto_take n l x y :
  StronglySorted (byKey le key) l → NoDup (key <$> l) → last (take n l) = Some x →
  y ∈ l → le (key y) (key x) → y ∈ take n l.
Proof.
  intros Hs Hnd Hx Hy Hle. rewrite <-(take_drop n l) in Hy.
  apply elem_of_app in Hy as [?|Hy]; [done|]. exfalso.
  apply last_Some_elem_of in Hx.
  rewrite <-(take_drop n l) in Hs, Hnd.
  assert (key y = key x) as Heq.
  { apply (anti_symm le); [done|]. by eapply (StronglySorted_app_1_elem_of (byKey le key)). }
  rewrite fmap_app in Hnd. apply NoDup_app in Hnd as (_ & Hnd & _).
  eapply Hnd; [by apply list_elem_of_fmap_2|]. rewrite <-Heq. by apply list_elem_of_fmap_2.
Qed.
End Ordering.

(** A page of at least one row is the one [cutPage] cuts. *)
Lemma pageOf_cut {X} (limit : nat) (cursorOf : X → string) (xs : list X) :
  limit ≠ 0 → pageOf (Z.of_nat limit) cursorOf xs = cutPage (Z.of_nat limit) cursorOf xs.
Proof.
  intros Hl. unfold pageOf, cutPage. destruct (Z.ltb_spec (Z.of_nat limit) (len xs)) as [Hlt|]; [|done].
  unfold len in Hlt. rewrite slice_to_ok by (unfold len; lia). cbn [mbind outcome_bind].
  rewrite Nat2Z.id, index_last, last_lookup, length_take_le, lookup_take_lt by lia.
  unfold index. rewrite bool_decide_eq_true_2 by lia.
  replace (Z.to_nat (Z.of_nat limit - 1)) with (pred limit) by lia.
  destruct (xs !! pred limit) eqn:E; [done|]. apply lookup_ge_None in E. lia.
Qed.
Lemma cutPage_take {X} (limit : nat) (cursorOf : X → string) (xs : list X) :
  cutPage (Z.of_nat limit) cursorOf (take (S limit) xs) = cutPage (Z.of_nat limit) cursorOf xs.
Proof.
  unfold cutPage, len. destruct (Z.ltb_spec (Z.of_nat limit) (Z.of_nat (length xs))) as [Hlt|Hge].
  - rewrite (proj2 (Z.ltb_lt _ _)) by (rewrite length_take; lia).
    rewrite !slice_to_ok by (unfold len; rewrite ?length_take; lia). cbn [mbind outcome_bind].
    rewrite take_take. by replace (Z.to_nat (Z.of_nat limit) `min` S limit) with (Z.to_nat (Z.of_nat limit)) by lia.
  - rewrite (proj2 (Z.ltb_ge _ _)) by (rewrite length_take; lia). by rewrite take_ge by lia.
Qed.

(** ** Listings *)
Section ListPage.
Context `{Postgres} {T : Type} `{!Database T}.
Context {R B X : Type} (le : relation B).
Context `{!RelDecision le, !PreOrder le, !AntiSymm (=) le, !Total le}.
Context (l : Listing T R B X).
Implicit Types (c : Conn T) (t : T) (keep : R → bool).

(** A listing by a key of the rows, which among the rows of [valid] tables resumes
    after the row a record was read from. *)
Class ListingOk (valid : T → Prop) : Prop := {
  listing_NoDup t : NoDup (l_key l <$> l_select l t);
  listing_resume t r x : valid t → r ∈ l_select l t →
    l_scan l r = Ok x → l_resume l (l_cursor l x) = Ok (l_key l r);
  listing_first r r' : l_first l r = true → le (l_key l r) (l_key l r') → l_first l r' = true;
}.

(** The rows of the tables in the order they are listed in. *)
Definition rowsIn t : list R := orderBy le (l_key l) (l_select l t).
Definition keptRows keep t : list R := filter (λ r, keep r = true) (rowsIn t).
Definition pageIn (limit : nat) keep t : outcome (Page X) :=
  xs ← mapM (l_scan l) (take (S limit) (keptRows keep t));
  pageOf (Z.of_nat limit) (l_cursor l) xs.

Lemma limited_succ {A} (limit : nat) (xs : list A) :
  (Z.of_nat limit < max_int64)%Z → limited (int64 (Z.of_nat limit + 1)) xs = inl (take (S limit) xs).
Proof.
  intros Hlim. unfold limited. rewrite int64_id by (unfold is_int64, max_int64 in *; lia).
  rewrite (proj2 (Z.ltb_ge _ _)) by lia. do 2 f_equal. lia.
Qed.

Context (valid : T → Prop) `{Hok : !ListingOk valid}.

Lemma listRows_kept (limit : nat) keep t :
  (Z.of_nat limit < max_int64)%Z →
  listRows le l (Z.of_nat limit) keep t = inl (take (S limit) (keptRows keep t)).
Proof.
  intros Hlim. unfold listRows. rewrite limited_succ by done.
  rewrite (orderBy_filter le (l_key l)) by apply listing_NoDup. done.
Qed.
Lemma rowsIn_sorted t : StronglySorted (byKey le (l_key l)) (rowsIn t).
Proof. apply orderBy_sorted; apply _. Qed.
Lemma rowsIn_NoDup t : NoDup (l_key l <$> rowsIn t).
Proof. apply orderBy_key_NoDup; [apply _..|]. apply listing_NoDup. Qed.
Lemma elem_of_keptRows keep t r : r ∈ keptRows keep t ↔ keep r = true ∧ r ∈ l_select l t.
Proof. unfold keptRows. rewrite list_elem_of_filter. unfold rowsIn. by rewrite orderBy_perm. Qed.

(** A page that was answered is one of the tables the call saw. *)
Lemma listPage_inv cfg (limit : nat) c page c' :
  (Z.of_nat limit < max_int64)%Z →
  listPage le l cfg (Z.of_nat limit) c = (Ok page, c') →
  tables c' = seen c ∧ began c' = began c ∧
  ∃ keep, keepOf le l (cfgCursor cfg) = Ok keep ∧ pageIn limit keep (seen c) = Ok page.
Proof.
  intros Hlim. unfold listPage. intros (keep & c0 & Hk & Hr)%M_bind_Ok.
  injection Hk as Hk <-. apply M_bind_Ok in Hr as (got & c1 & Hg%orFail_inv & Hr).
  apply M_bind_Ok in Hr as (u & c2 & Hs & Hr). injection Hs as _ <-.
  apply M_bind_Ok in Hr as (xs & c3 & Hx & Hr). injection Hx as Hx <-. injection Hr as Hp <-.
  unfold query in Hg. destruct (fault (calls c)) as [[]|]; [done|].
  rewrite listRows_kept in Hg by done.
  destruct (fault (S (calls c))) as [[e k]|]; injection Hg as <- <-; cbn [tables began].
  { exfalso. unfold scanRows in Hx. cbn [fst snd] in Hx.
    by destruct (mapM _ _). }
  split_and!; [done..|]. exists keep. split; [done|]. unfold pageIn.
  unfold scanRows in Hx. cbn [fst snd] in Hx.
  destruct (mapM _ _) as [ys| | |]; [|done..]. by injection Hx as <-.
Qed.
(** With the server answering, it is the page, or what reading the rows fails
    with. *)
Lemma listPage_quiet cfg (limit : nat) c :
  (Z.of_nat limit < max_int64)%Z → (Z.of_nat limit ≤ makeslice_max)%Z →
  fault (calls c) = None → fault (S (calls c)) = None →
  (listPage le l cfg (Z.of_nat limit) c).1 =
  (keep ← keepOf le l (cfgCursor cfg); pageIn limit keep (seen c)).
Proof.
  intros Hlim Hmax Hf1 Hf2. unfold listPage. rewrite M_bind_step. unfold lift at 1, reads.
  destruct (keepOf le l (cfgCursor cfg)) as [keep| | |]; [|done..]. cbn [mbind outcome_bind].
  rewrite M_bind_step, orFail_step. unfold query. rewrite Hf1, listRows_kept, Hf2 by done.
  rewrite M_bind_step. unfold lift at 1, reads, make_slice. rewrite bool_decide_eq_true_2 by lia.
  rewrite M_bind_step. unfold lift, reads, scanRows. cbn [fst snd]. unfold pageIn.
  by destruct (mapM _ _).
Qed.
(** However large the limit, nothing but the allocation panics. *)
Lemma listPage_panics cfg limit c :
  (0 < limit ≤ makeslice_max)%Z →
  (∀ s, l_resume l s ≠ Panic ∧ l_resume l s ≠ Diverge) →
  (∀ r, l_scan l r ≠ Panic ∧ l_scan l r ≠ Diverge) →
  match (listPage le l cfg limit c).1 with Panic | Diverge => False | _ => True end.
Proof using.
  intros Hlim Hres Hscan.
  assert (∀ rs, match mapM (l_scan l) rs with Panic | Diverge => False | _ => True end) as Hmap.
  { induction rs as [|r rs IH]; [done|]. cbn. destruct (Hscan r). destruct (l_scan l r); [|done..].
    cbn. destruct (mapM (l_scan l) rs); done. }
  unfold listPage. rewrite M_bind_step. unfold lift at 1, reads. unfold keepOf.
  assert (∀ keep c0, match ((got ← orFail (wrapped (l_querying l)) (query (listRows le l limit keep));
    _ ← lift (make_slice limit);
    xs ← lift (scanRows (l_iterating l) (l_scan l) got);
    lift (pageOf limit (l_cursor l) xs)) c0).1 with Panic | Diverge => False | _ => True end) as Hrest.
  { intros keep c0. rewrite M_bind_step, orFail_step.
    destruct (query _ c0) as [[[got|e]|e| |] c1] eqn:Eq.
    2-5: try done; unfold query in Eq; destruct (fault _) as [[]|]; try done;
      destruct (listRows _ _ _ _ _); try done; by destruct (fault _) as [[]|].
    rewrite M_bind_step. unfold lift at 1, reads, make_slice. rewrite bool_decide_eq_true_2 by lia.
    rewrite M_bind_step. unfold lift, reads, scanRows. specialize (Hmap got.1).
    destruct (mapM _ _) as [xs| | |]; [|done..]. cbn. destruct (got.2); [done|]. cbn.
    unfold pageOf. destruct (Z.ltb_spec limit (len xs)) as [Hlt|]; [|done].
    unfold index, slice_to. rewrite !bool_decide_eq_true_2 by lia. unfold len in Hlt.
    destruct (xs !! _) eqn:E; [done|]. apply lookup_ge_None in E. lia. }
  destruct (cfgCursor cfg) as [s|]; [|apply Hrest].
  destruct (Hres s). destruct (l_resume l s); [apply Hrest|done..].
Qed.

(** Going from page to page over tables that stay as they are serves every row
    from the first on, in order. *)
Lemma listPage_Pages (limit : nat) t xs :
  valid t → limit ≠ 0 → (Z.of_nat limit < max_int64)%Z → (Z.of_nat limit ≤ makeslice_max)%Z →
  Forall2 (λ r x, l_scan l r = Ok x) (keptRows (l_first l) t) xs →
  Pages (λ cfg, keep ← keepOf le l (cfgCursor cfg); pageIn limit keep t) None xs.
Proof.
  intros Hv Hl Hlim Hmax Hscan.
  assert (∀ rs ys, Forall2 (λ r x, l_scan l r = Ok x) rs ys →
    (zs ← mapM (l_scan l) (take (S limit) rs); pageOf (Z.of_nat limit) (l_cursor l) zs) =
    cutPage (Z.of_nat limit) (l_cursor l) ys) as Hpage.
  { intros rs ys Hys. apply (Forall2_take _ _ _ (S limit)) in Hys. apply mapM_Ok in Hys.
    rewrite Hys. cbn [mbind outcome_bind]. by rewrite pageOf_cut, cutPage_take. }
  apply (Pages_cut _ limit (l_cursor l) xs Hl) with (l1 := []); [|done|].
  - intros l1 x l2 -> _. cbn [cfgCursor keepOf].
    apply Forall2_app_inv_r in Hscan as (r1 & r2 & H1 & H2 & Hrows).
    apply Forall2_cons_inv_r in H2 as (r & r2' & Hr & H2 & ->).
    assert (r ∈ keptRows (l_first l) t) as [_ Hsel]%elem_of_keptRows by (rewrite Hrows; set_solver).
    rewrite (listing_resume _ _ _ Hv Hsel Hr). cbn [mbind outcome_bind].
    unfold pageIn, keptRows. erewrite <-Hpage; [|exact H2]. do 2 f_equal.
    pose proof (rowsIn_sorted t) as Hs. pose proof (rowsIn_NoDup t) as Hnd.
    apply (StronglySorted_filter _ (λ r, l_first l r = true)) in Hs.
    apply (NoDup_fmap_filter (l_key l) (λ r, l_first l r = true)) in Hnd.
    fold (keptRows (l_first l) t) in Hs, Hnd. rewrite Hrows in Hs, Hnd.
    rewrite <-(after_suffix le (l_key l) r1 r r2' Hs Hnd), <-Hrows. unfold keptRows.
    rewrite list_filter_filter. f_equal. apply list_filter_iff. intros y.
    rewrite negb_true_iff, bool_decide_eq_false. split; [|tauto]. intros Hn. split; [done|].
    assert (r ∈ keptRows (l_first l) t) as [Hfr _]%elem_of_keptRows by (rewrite Hrows; set_solver).
    eapply listing_first; [exact Hfr|]. by destruct (total le (l_key l r) (l_key l y)).
  - cbn [cfgCursor keepOf mbind outcome_bind]. unfold pageIn. by apply Hpage.
Qed.
End ListPage.

(** *** What a page is of given tables *)
Section ListPure.
Context `{Postgres} {T : Type} `{!Database T}.
Context {R B X : Type} (le : relation B).
Context `{!RelDecision le, !PreOrder le, !AntiSymm (=) le, !Total le}.
Context (l : Listing T R B X).

Definition listPure (cfg : PaginationConfig) (limit : Z) (t : T) : outcome (Page X) :=
  keep ← keepOf le l (cfgCursor cfg);
  _ ← make_slice limit;
  match listRows le l limit keep t with
  | inl rs => xs ← mapM (l_scan l) rs; pageOf limit (l_cursor l) xs
  | inr e => Err (wrapped (l_iterating l) e)
  end.
(** A call either fails on the way or answers with the page of what it sees. *)
Lemma listPage_listPure cfg limit c :
  fault (T := T) (calls c) = None → fault (T := T) (S (calls c)) = None →
  (listPage le l cfg limit c).1 = listPure cfg limit (seen c).
Proof using.
  intros Hf1 Hf2. unfold listPage, listPure. rewrite M_bind_step. unfold lift at 1, reads.
  destruct (keepOf le l (cfgCursor cfg)) as [keep| | |]; [|done..]. cbn [mbind outcome_bind].
  rewrite M_bind_step, orFail_step. unfold query. rewrite Hf1.
  destruct (listRows le l limit keep (seen c)) as [rs|e]; [rewrite Hf2|].
  all: rewrite M_bind_step; unfold lift at 1, reads; destruct (make_slice limit); [|done..].
  all: cbn [mbind outcome_bind]; rewrite M_bind_step; unfold lift, reads, scanRows; cbn [fst snd].
  - by destruct (mapM _ _).
  - done.
Qed.
Context (valid : T → Prop) `{Hok : !ListingOk le l valid}.
(** Only the rows selected matter. *)
Lemma listPure_select cfg limit t t' :
  l_select l t ≡ₚ l_select l t' → listPure cfg limit t = listPure cfg limit t'.
Proof using Hok PreOrder0 AntiSymm0 Total0.
  intros Hp. unfold listPure, listRows.
  destruct (keepOf le l (cfgCursor cfg)) as [keep| | |]; [|done..]. cbn [mbind outcome_bind].
  assert (orderBy le (l_key l) (filter (λ r, keep r = true) (l_select l t)) =
    orderBy le (l_key l) (filter (λ r, keep r = true) (l_select l t'))) as ->; [|done].
  apply orderBy_unique; [apply _..| | |].
  - apply NoDup_fmap_filter. by eapply listing_NoDup.
  - apply orderBy_sorted; apply _.
  - rewrite orderBy_perm. by rewrite Hp.
Qed.
Lemma listPure_nat cfg (limit : nat) t :
  (Z.of_nat limit < max_int64)%Z → (Z.of_nat limit ≤ makeslice_max)%Z →
  listPure cfg (Z.of_nat limit) t = (keep ← keepOf le l (cfgCursor cfg); pageIn le l limit keep t).
Proof using Hok PreOrder0 AntiSymm0 Total0.
  intros Hlim Hmax. unfold listPure, make_slice. rewrite bool_decide_eq_true_2 by lia.
  destruct (keepOf le l (cfgCursor cfg)) as [keep| | |]; [|done..]. cbn [mbind outcome_bind].
  by rewrite (listRows_kept le l valid).
Qed.
Lemma listPure_Pages (limit : nat) t xs :
  valid t → limit ≠ 0 → (Z.of_nat limit < max_int64)%Z → (Z.of_nat limit ≤ makeslice_max)%Z →
  Forall2 (λ r x, l_scan l r = Ok x) (keptRows le l (l_first l) t) xs →
  Pages (λ cfg, listPure cfg (Z.of_nat limit) t) None xs.
Proof using Hok PreOrder0 AntiSymm0 Total0.
  intros Hv Hl Hlim Hmax Hscan. eapply Pages_ext; [|by eapply (listPage_Pages le l valid limit)].
  intros cur. by rewrite listPure_nat.
Qed.
End ListPure.

(** ** [store.Collect] over a store others write to *)
Section CollectM.
Context {S T : Type} (getPage : PaginationConfig → M S (Page T)).

Fixpoint collectLoopM (fuel : nat) (items : list T) (cursor : option string) (i : Z)
    : M S (list T) :=
  match fuel with
  | O => λ s, (Diverge, s)
  | Datatypes.S fuel =>
      page ← wrap ("getting page " +:+ Itoa i)
               (getPage {| cfgCursor := cursor; cfgLimit := None |});
      let items := items ++ Results page in
      match Cursor page, Results page with
      | None, _ | _, [] => mret items
      | Some c, _ :: _ => collectLoopM fuel items (Some c) (i + 1)
      end
  end.
Definition CollectM (fuel : nat) : M S (list T) := collectLoopM fuel [] None 0.
End CollectM.
Lemma collectLoopM_ext {S T} (g h : PaginationConfig → M S (Page T)) fuel items cursor i s :
  (∀ cur, g {| cfgCursor := cur; cfgLimit := None |} = h {| cfgCursor := cur; cfgLimit := None |}) →
  collectLoopM g fuel items cursor i s = collectLoopM h fuel items cursor i s.
Proof.
  intros Hgh. revert items cursor i s. induction fuel as [|fuel IH]; intros; [done|].
  cbn [collectLoopM]. rewrite !M_bind_step, Hgh. destruct (wrap _ _ s) as [[page| | |] s']; try done.
  destruct (Cursor page); [|done]. destruct (Results page); [done|]. apply IH.
Qed.

Section Stable.
Context `{Postgres} {T : Type} `{!Database T}.
Context {R B X : Type} (le : relation B).
Context `{!RelDecision le, !PreOrder le, !AntiSymm (=) le, !Total le}.
Context (l : Listing T R B X) (valid : T → Prop) `{Hok : !ListingOk le l valid}.
Context (limit : nat) (Hlimit : limit ≠ 0) (Hbound : (Z.of_nat limit < max_int64)%Z).
Implicit Types (c : Conn T) (t : T) (keep : R → bool).

(** The tables a connection may come to see: what the others make of them. *)
Definition meanwhile : relation T := rtc (λ t t', ∃ n, t' = others n t).
Lemma meanwhile_seen c : meanwhile (tables c) (seen c).
Proof. unfold seen. destruct (began c); [done|]. apply rtc_once. by eexists. Qed.

Definition below (x y : R) : Prop := ¬ le (l_key l y) (l_key l x).
#[export] Instance below_trans : Transitive below.
Proof.
  intros x y z Hxy Hyz Hzx. apply Hxy. destruct (total le (l_key l z) (l_key l y)) as [?|Hle]; [done|].
  by etrans.
Qed.

(** What one page serves of the tables it saw. *)
Lemma pageIn_serves keep t page :
  valid t → pageIn le l limit keep t = Ok page →
  ∃ rs, Forall2 (λ r x, l_scan l r = Ok x) rs (Results page) ∧ StronglySorted below rs ∧
    Forall (λ r, keep r = true ∧ r ∈ l_select l t) rs ∧
    match Cursor page with
    | None => ∀ r, keep r = true → r ∈ l_select l t → r ∈ rs
    | Some cur => ∃ r, last rs = Some r ∧ l_resume l cur = Ok (l_key l r) ∧
        ∀ r', keep r' = true → r' ∈ l_select l t → le (l_key l r') (l_key l r) → r' ∈ rs
    end.
Proof using Hlimit Hok PreOrder0 AntiSymm0 Total0.
  unfold pageIn. intros Hv Hp.
  destruct (mapM _ _) as [xs| | |] eqn:Hm; [|done..]. cbn [mbind outcome_bind] in Hp.
  apply mapM_Ok in Hm. rewrite pageOf_cut in Hp by done.
  set (all := keptRows le l keep t) in *.
  assert (StronglySorted (byKey le (l_key l)) all) as Hs
    by (apply StronglySorted_filter, rowsIn_sorted; apply _).
  assert (NoDup (l_key l <$> all)) as Hnd by (apply NoDup_fmap_filter; by eapply rowsIn_NoDup).
  assert (∀ n, StronglySorted below (take n all)) as Hbelow.
  { intros n. rewrite <-(take_drop n all) in Hs, Hnd. rewrite fmap_app in Hnd.
    apply NoDup_app in Hnd as [Hnd _].
    apply StronglySorted_app in Hs as (_ & Hs & _).
    induction Hs as [|x rs Hs IH Hx]; [constructor|]. cbn in Hnd. apply NoDup_cons in Hnd as [Hni Hnd].
    constructor; [auto|]. rewrite Forall_forall in *. intros y Hy Hle. apply Hni.
    replace (l_key l x) with (l_key l y); [by apply list_elem_of_fmap_2|].
    apply (anti_symm le); [done|by apply Hx]. }
  assert (∀ n r, r ∈ take n all → keep r = true ∧ r ∈ l_select l t) as Hin.
  { intros n r Hr. rewrite <-elem_of_keptRows. fold all. by eapply subseteq_take. }
  unfold cutPage in Hp. destruct (Z.ltb_spec (Z.of_nat limit) (len xs)) as [Hlt|Hge].
  - unfold len in Hlt. rewrite slice_to_ok in Hp by (unfold len; lia).
    cbn [mbind outcome_bind] in Hp. rewrite Nat2Z.id, index_last in Hp.
    destruct (last (take limit xs)) as [x|] eqn:Ex; [|done]. injection Hp as <-. cbn [Results Cursor].
    apply (Forall2_take _ _ _ limit) in Hm. rewrite take_take in Hm.
    replace (limit `min` Datatypes.S limit) with limit in Hm by lia.
    exists (take limit all). split_and!; [done|apply Hbelow|by apply Forall_forall, Hin|].
    rewrite last_lookup in Ex. destruct (Forall2_lookup_r _ _ _ _ _ Hm Ex) as (r & Hr & Hscan).
    rewrite <-(Forall2_length _ _ _ Hm) in Hr. rewrite <-last_lookup in Hr.
    exists r. split_and!; [done| |].
    { eapply listing_resume; [exact Hok|exact Hv| |exact Hscan]. eapply Hin. by eapply last_Some_elem_of. }
    intros r' Hk Hsel Hle. eapply (upto_take le (l_key l)); [done..| |done].
    by apply elem_of_keptRows.
  - injection Hp as <-. cbn [Results Cursor]. exists (take (Datatypes.S limit) all).
    split_and!; [done|apply Hbelow|by apply Forall_forall, Hin|].
    intros r Hk Hsel. rewrite take_ge; [by apply elem_of_keptRows|].
    apply Forall2_length in Hm. rewrite length_take in Hm. unfold len in Hge. lia.
Qed.

Lemma collectLoopM_stable fuel items cursor i c out c' keep :
  (∀ t, meanwhile (tables c) t → valid t) →
  keepOf le l cursor = Ok keep →
  (∀ r r', keep r = true → le (l_key l r) (l_key l r') → keep r' = true) →
  collectLoopM (λ cfg, listPage le l cfg (Z.of_nat limit)) fuel items cursor i c = (Ok out, c') →
  ∃ rs xs, out = items ++ xs ∧ Forall2 (λ r x, l_scan l r = Ok x) rs xs ∧
    StronglySorted below rs ∧
    Forall (λ r, keep r = true ∧ ∃ t, meanwhile (tables c) t ∧ r ∈ l_select l t) rs ∧
    (∀ r, keep r = true → (∀ t, meanwhile (tables c) t → r ∈ l_select l t) → r ∈ rs).
Proof using Hlimit Hbound Hok PreOrder0 AntiSymm0 Total0.
  revert items cursor i c keep. induction fuel as [|fuel IH]; intros items cursor i c keep Hv Hk Hup; [done|].
  cbn [collectLoopM]. unfold wrap. rewrite M_bind_step.
  destruct (listPage _ _ _ _ c) as [[page|e| |] c1] eqn:Hp; try done.
  apply (listPage_inv le l valid) in Hp as (Ht & Hb & keep' & Hk' & Hpage); [|done..].
  cbn [cfgCursor] in Hk'. rewrite Hk in Hk'. injection Hk' as <-.
  apply pageIn_serves in Hpage as (rs & Hscan & Hsort & Hall & Hcur); [|apply Hv, meanwhile_seen].
  pose proof (meanwhile_seen c) as Hseen.
  assert (∀ t, meanwhile (tables c1) t → meanwhile (tables c) t) as Hmore.
  { rewrite Ht. intros t Hm. unfold meanwhile. etrans; [exact Hseen|exact Hm]. }
  assert (Forall (λ r, keep r = true ∧ ∃ t, meanwhile (tables c) t ∧ r ∈ l_select l t) rs) as Hfrom.
  { eapply Forall_impl; [done|]. intros r [? ?]. eauto. }
  destruct (Cursor page) as [cur|] eqn:Ec.
  2: { intros [= <- <-]. exists rs, (Results page). split_and!; eauto. }
  destruct Hcur as (r & Hlast & Hres & Hupto).
  destruct (Results page) as [|x page'] eqn:Er.
  { apply Forall2_nil_inv_r in Hscan as ->. done. }
  intros Hrun. apply (IH _ _ _ _ (λ y, negb (bool_decide (le (l_key l y) (l_key l r))))) in Hrun as (rs' & xs' & -> & Hscan' & Hsort' & Hall' & Hin').
  - exists (rs ++ rs'), ((x :: page') ++ xs'). split_and!.
    + by rewrite app_assoc.
    + by apply Forall2_app.
    + apply StronglySorted_app. split_and!; [|done..].
      intros y z Hy Hz. rewrite Forall_forall in Hall'. destruct (Hall' z Hz) as [Hkz _]. cbn in Hkz.
      apply negb_true_iff, bool_decide_eq_false in Hkz. intros Hle. apply Hkz.
      etrans; [exact Hle|]. apply last_Some in Hlast as [pre ->].
      apply elem_of_app in Hy as [Hy| ->%list_elem_of_singleton]; [|done].
      apply StronglySorted_app in Hsort as (Hd & _ & _).
      specialize (Hd y r Hy ltac:(set_solver)). unfold below in Hd.
      by destruct (total le (l_key l y) (l_key l r)).
    + apply Forall_app. split; [done|]. rewrite Forall_forall in Hall' |- *. intros z Hz.
      destruct (Hall' z Hz) as [Hkz (t & Ht' & Hsel)]. split; [|eauto].
      apply negb_true_iff, bool_decide_eq_false in Hkz.
      apply last_Some_elem_of in Hlast. rewrite Forall_forall in Hall.
      destruct (Hall r Hlast) as [Hkr _]. eapply Hup; [exact Hkr|].
      by destruct (total le (l_key l r) (l_key l z)).
    + intros y Hky Hy. apply elem_of_app.
      destruct (decide (le (l_key l y) (l_key l r))) as [Hle|Hnle]; [left; by apply Hupto; [..|]; auto|].
      right. apply Hin'; [|auto]. cbn. by apply negb_true_iff, bool_decide_eq_false.
  - auto.
  - cbn. rewrite Hres. done.
  - cbn. intros y z. rewrite !negb_true_iff, !bool_decide_eq_false. intros Hn Hle Hz.
    apply Hn. by etrans.
Qed.
End Stable.

(** Over a connection nothing happens around, it is [Collect]. *)
Section Quiet.
Context `{Postgres} {T : Type} `{!Database T}.
Implicit Types (c : Conn T) (t : T).

(** No call fails, and no other connection commits. *)
Definition quiet : Prop := ∀ n t, fault (T := T) n = None ∧ others n t = t.
Lemma quiet_seen c : quiet → seen c = tables c.
Proof. intros Hq. unfold seen. destruct (began c); [done|]. apply (Hq (calls c)). Qed.

Lemma collectLoopM_quiet {X} (getPage : PaginationConfig → M (Conn T) (Page X)) (g : GetPageFunc X) t :
  (∀ cfg c, tables c = t → (getPage cfg c).1 = g cfg ∧ tables (getPage cfg c).2 = t) →
  ∀ fuel items cursor i c, tables c = t →
  (collectLoopM getPage fuel items cursor i c).1 = collectLoop g fuel items cursor i.
Proof.
  intros Hg. induction fuel as [|fuel IH]; intros items cursor i c Hc; [done|].
  cbn [collectLoopM collectLoop]. rewrite M_bind_step. unfold wrap.
  destruct (Hg {| cfgCursor := cursor; cfgLimit := None |} c Hc) as [<- Ht].
  destruct (getPage _ c) as [[page|e| |] c1]; cbn [fst snd owrap mbind outcome_bind] in *; try done.
  destruct (Cursor page); [|done]. destruct (Results page); [done|]. by apply IH.
Qed.

Context {R B X : Type} (le : relation B).
Context `{!RelDecision le, !PreOrder le, !AntiSymm (=) le, !Total le}.
Context (l : Listing T R B X) (valid : T → Prop) `{Hok : !ListingOk le l valid}.
Lemma query_tables {S} (q : T → list S + dbError) c : tables (query q c).2 = seen c.
Proof.
  unfold query. destruct (fault (calls c)) as [[]|]; [done|]. destruct (q _); [|done].
  by destruct (fault (Datatypes.S (calls c))) as [[]|].
Qed.
Lemma listPage_tables cfg limit c :
  tables (listPage le l cfg limit c).2 = seen c ∨ tables (listPage le l cfg limit c).2 = tables c.
Proof.
  unfold listPage. rewrite M_bind_step. unfold lift at 1, reads.
  destruct (keepOf le l (cfgCursor cfg)) as [keep| | |]; [|by right..]. left.
  rewrite M_bind_step, orFail_step. rewrite <-(query_tables (listRows le l limit keep)).
  destruct (query _ c) as [[[got|e]|e| |] c1]; try done. cbn [snd].
  rewrite M_bind_step. unfold lift at 1, reads. destruct (make_slice limit); try done.
  rewrite M_bind_step. unfold lift at 1, reads. by destruct (scanRows _ _ _).
Qed.
Lemma listPage_Collect (limit : nat) fuel c xs :
  quiet → valid (tables c) →
  limit ≠ 0 → (Z.of_nat limit < max_int64)%Z → (Z.of_nat limit ≤ makeslice_max)%Z →
  Forall2 (λ r x, l_scan l r = Ok x) (keptRows le l (l_first l) (tables c)) xs →
  length xs < fuel →
  (CollectM (λ cfg, listPage le l cfg (Z.of_nat limit)) fuel c).1 = Ok xs.
Proof using Hok PreOrder0 AntiSymm0 Total0.
  intros Hq Hv Hl Hlim Hmax Hscan Hfuel. unfold CollectM.
  rewrite (collectLoopM_quiet _ (λ cfg, keep ← keepOf le l (cfgCursor cfg); pageIn le l limit keep (tables c))
    (tables c)); [|clear Hv Hscan|done].
  - apply Collect_Pages; [|done]. by eapply listPage_Pages.
  - intros cfg c1 <-. split.
    + rewrite <-(quiet_seen c1 Hq). eapply listPage_quiet; try done; apply (Hq _ (tables c)).
    + pose proof (listPage_tables cfg (Z.of_nat limit) c1) as [->| ->]; [by apply quiet_seen|done].
Qed.
End Quiet.

(** ** Rows selected from a table *)
Section Selects.
Context {K R : Type} `{Countable K}.
Implicit Types (m : gmap K R).

Lemma insertRow_inv (k : K) (r : R) m m' :
  insertRow k r m = inl m' → m !! k = None ∧ m' = <[k := r]> m.
Proof. unfold insertRow. destruct (m !! k); [done|]. by intros [= <-]. Qed.
Lemma updateRow_inv (k : K) (up : R → R) m n m' :
  updateRow k up m = (n, m') →
  (n = 0%Z ∧ m' = m ∧ m !! k = None) ∨ (n = 1%Z ∧ ∃ r, m !! k = Some r ∧ m' = <[k := up r]> m).
Proof. unfold updateRow. destruct (m !! k); intros [= <- <-]; eauto 6. Qed.
Lemma deleteRow_inv (k : K) m n m' :
  deleteRow k m = (n, m') →
  m' = delete k m ∧ (n = 0%Z ∧ m !! k = None ∨ n = 1%Z ∧ is_Some (m !! k)).
Proof.
  unfold deleteRow. destruct (m !! k) eqn:E; intros [= <- <-]; [eauto|].
  rewrite delete_id by done. auto.
Qed.
Lemma insertOrNothing_inv (k : K) (r : R) m (written : bool) m' :
  insertOrNothing k r m = (written, m') →
  (written = false ∧ m' = m ∧ is_Some (m !! k)) ∨
  (written = true ∧ m' = <[k := r]> m ∧ m !! k = None).
Proof. unfold insertOrNothing. destruct (m !! k) eqn:E; intros [= <- <-]; eauto 6. Qed.

Lemma elem_of_selectWhere (P : K * R → Prop) `{∀ x, Decision (P x)} m k r :
  (k, r) ∈ selectWhere P m ↔ P (k, r) ∧ m !! k = Some r.
Proof. unfold selectWhere. by rewrite list_elem_of_filter, elem_of_map_to_list. Qed.
(** A column that with the condition determines the primary key. *)
Lemma NoDup_selectWhere {B} (key : K * R → B) (P : K * R → Prop) `{∀ x, Decision (P x)} m :
  (∀ x y, P x → P y → key x = key y → x.1 = y.1) → NoDup (key <$> selectWhere P m).
Proof.
  intros Hkey. unfold selectWhere.
  assert (NoDup (filter P (map_to_list m)).*1) as Hnd.
  { eapply sublist_NoDup; [apply (NoDup_fst_map_to_list m)|]. apply fmap_sublist, sublist_filter. }
  assert (Forall P (filter P (map_to_list m))) as Hall.
  { apply Forall_forall. by intros x [? _]%list_elem_of_filter. }
  revert Hnd Hall. generalize (filter P (map_to_list m)) as l.
  induction l as [|x l IH]; [constructor|]. cbn. intros [Hni Hnd]%NoDup_cons [Hx Hall]%Forall_cons.
  constructor; [|auto]. intros (y & Heq & Hy)%list_elem_of_fmap. apply Hni.
  rewrite Forall_forall in Hall. rewrite (Hkey x y Hx (Hall y Hy) Heq). by apply list_elem_of_fmap_2.
Qed.
End Selects.

(** ** Sums over a table *)
Section Sums.
Context {K R : Type} `{Countable K}.
Implicit Types (m : gmap K R) (f : K → R → Z).

Definition sumOver f m : Z := map_fold (λ k r acc, f k r + acc)%Z 0%Z m.
Lemma sumOver_empty f : sumOver f ∅ = 0%Z.
Proof. apply map_fold_empty. Qed.
Lemma sumOver_fresh f m k r : m !! k = None → sumOver f (<[k := r]> m) = (f k r + sumOver f m)%Z.
Proof.
  intros Hk. unfold sumOver. rewrite map_fold_insert_L; [done| |done]. intros; lia.
Qed.
Lemma sumOver_delete f m k r : m !! k = Some r → sumOver f (delete k m) = (sumOver f m - f k r)%Z.
Proof.
  intros Hk. unfold sumOver.
  rewrite (map_fold_delete_L (λ k r acc, f k r + acc)%Z 0%Z k r m); [lia| |done]. intros; lia.
Qed.
Lemma sumOver_insert f m k r r' :
  m !! k = Some r → sumOver f (<[k := r']> m) = (sumOver f m - f k r + f k r')%Z.
Proof.
  intros Hk. rewrite <-insert_delete_eq, sumOver_fresh by by rewrite lookup_delete_eq.
  rewrite (sumOver_delete _ _ _ _ Hk). lia.
Qed.
Lemma sumOver_nonneg f m : (∀ k r, m !! k = Some r → 0 ≤ f k r)%Z → (0 ≤ sumOver f m)%Z.
Proof.
  unfold sumOver. apply (map_fold_weak_ind (λ acc m, (∀ k r, m !! k = Some r → 0 ≤ f k r)%Z → 0 ≤ acc)%Z).
  - lia.
  - intros k r m' acc Hk IH Hm. specialize (Hm k r) as Hr. rewrite lookup_insert_eq in Hr.
    specialize (Hr eq_refl). assert (0 ≤ acc)%Z; [|lia]. apply IH. intros k' r' Hk'.
    apply Hm. rewrite lookup_insert_ne; [done|]. intros ->. congruence.
Qed.
End Sums.

(** ** Instances to compute with *)

#[export] Instance StringLe_preorder : PreOrder String.le.
Proof. split; [intros x; by apply (reflexivity (R := String.le))|]. intros x y z. by apply (transitivity (R := String.le)). Qed.
Lemma truncate_mono t u : (t ≤ u)%Z → (Truncate t Microsecond ≤ Truncate u Microsecond)%Z.
Proof. unfold Truncate, Microsecond, zeroTime. divmod. Qed.
Lemma truncate_idemp t : Truncate (Truncate t Microsecond) Microsecond = Truncate t Microsecond.
Proof. unfold Truncate, Microsecond, zeroTime. divmod. Qed.
(** A database of the C collation. *)
Definition plainPostgres : Postgres := {|
  db_Error e := match e with NoRows => "no rows in result set" | PgError _ msg => msg | Broken msg => msg end;
  textLe := String.le;
  timestamptz t := Truncate t Microsecond;
  timestamptz_mono := truncate_mono;
  timestamptz_idemp := truncate_idemp;
  timestamptz_Truncate := truncate_idemp;
  makeslice_max := 1000000;
  makeslice_thousand := ltac:(lia);
  heapOrder R _ l := l;
  heapOrder_perm R _ l := Permutation_refl l;
|}.
(** A connection nothing happens around: its clock ticks a microsecond a call, for a
    million calls. *)
Definition quietDatabase T : Database T := {|
  clock n := (Microsecond * Z.min (Z.of_nat n) 1000000)%Z; fault _ := None; delivered _ := 0; others _ t := t |}.
