(* ===== verification/PgLedger.v ===== *)
(** * The ledger in PostgreSQL

    The tables the blob registry and the upload store write to, and the
    functions of [pkg/store/space_diff/postgres], [pkg/store/upload_diff/postgres]
    and [pkg/store/metrics/postgres], each of which runs on the pool or inside
    the transaction of its caller. The keys and the column types are those of
    [internal/migrations/sql]. *)
From S2P Require Export Sql SpaceDiff UploadDiff Metrics.

(** The columns of a row that are not its key. *)
Record BlobRow := { b_size : Z; b_cause : string; b_inserted_at : Z }.
Record UploadRow := {
  u_index : option string; u_cause : string; u_inserted_at : Z; u_updated_at : Z }.
Record DiffRow := { d_delta : Z; d_inserted_at : Z }.

(** space, receipt_at and cause *)
Abbreviation DiffKey := (string * Z * string)%type (only parsing).

Record Tables := {
  blob_registry : gmap (string * string) BlobRow;
  upload : gmap (string * string) UploadRow;
  (** of space, root and shard, with nothing else; its first two columns
      reference [upload] *)
  upload_shard : gmap (string * string * string) unit;
  space_diff : gmap DiffKey DiffRow;
  upload_diff : gmap DiffKey DiffRow;
  space_metrics : gmap (string * string) Z;
  admin_metrics : gmap string Z;
}.
Definition emptyTables : Tables := {|
  blob_registry := ∅; upload := ∅; upload_shard := ∅; space_diff := ∅;
  upload_diff := ∅; space_metrics := ∅; admin_metrics := ∅ |}.

Definition set_blob_registry m t := {|
  blob_registry := m; upload := upload t; upload_shard := upload_shard t;
  space_diff := space_diff t; upload_diff := upload_diff t;
  space_metrics := space_metrics t; admin_metrics := admin_metrics t |}.
Definition set_upload m t := {|
  blob_registry := blob_registry t; upload := m; upload_shard := upload_shard t;
  space_diff := space_diff t; upload_diff := upload_diff t;
  space_metrics := space_metrics t; admin_metrics := admin_metrics t |}.
Definition set_upload_shard m t := {|
  blob_registry := blob_registry t; upload := upload t; upload_shard := m;
  space_diff := space_diff t; upload_diff := upload_diff t;
  space_metrics := space_metrics t; admin_metrics := admin_metrics t |}.
Definition set_space_diff m t := {|
  blob_registry := blob_registry t; upload := upload t; upload_shard := upload_shard t;
  space_diff := m; upload_diff := upload_diff t;
  space_metrics := space_metrics t; admin_metrics := admin_metrics t |}.
Definition set_upload_diff m t := {|
  blob_registry := blob_registry t; upload := upload t; upload_shard := upload_shard t;
  space_diff := space_diff t; upload_diff := m;
  space_metrics := space_metrics t; admin_metrics := admin_metrics t |}.
Definition set_space_metrics m t := {|
  blob_registry := blob_registry t; upload := upload t; upload_shard := upload_shard t;
  space_diff := space_diff t; upload_diff := upload_diff t;
  space_metrics := m; admin_metrics := admin_metrics t |}.
Definition set_admin_metrics m t := {|
  blob_registry := blob_registry t; upload := upload t; upload_shard := upload_shard t;
  space_diff := space_diff t; upload_diff := upload_diff t;
  space_metrics := space_metrics t; admin_metrics := m |}.

(** The key of a diff row after its space, by which a listing is ordered:
    [ORDER BY receipt_at ASC, cause ASC]. *)
Section DiffOrder.
Context `{Postgres}.
Definition diffLe (k1 k2 : Z * string) : Prop :=
  (k1.1 < k2.1)%Z ∨ k1.1 = k2.1 ∧ textLe k1.2 k2.2.
#[export] Instance diffLe_dec : RelDecision diffLe.
Proof. intros ??. apply _. Defined.
#[export] Instance diffLe_preorder : PreOrder diffLe.
Proof.
  unfold diffLe. split; [intros [t c]; right; simpl; by split|].
  intros [t1 c1] [t2 c2] [t3 c3]; simpl.
  intros [?|[-> H1]] [?|[-> H2]]; [left; lia|left; lia|left; lia|]. right. split; [done|]. by etrans.
Qed.
#[export] Instance diffLe_antisymm : AntiSymm (=) diffLe.
Proof.
  unfold diffLe. intros [t1 c1] [t2 c2]; simpl. intros [?|[-> H1]] [?|[? H2]]; try lia.
  f_equal. by apply (anti_symm textLe).
Qed.
#[export] Instance diffLe_total : Total diffLe.
Proof.
  unfold diffLe. intros [t1 c1] [t2 c2]; simpl.
  destruct (Z.lt_trichotomy t1 t2) as [?|[->|?]]; [auto| |auto].
  destruct (total textLe c1 c2); auto.
Qed.
Definition diffKey (r : DiffKey * DiffRow) : Z * string := (r.1.1.2, r.1.2).
End DiffOrder.

Module PgSpaceDiff.
Section PgSpaceDiff.
Context `{CursorJSON} `{Postgres} `{!Database Tables}.

Definition PutWith (space : DID) (cause : Cid) (delta receiptAt : Z) : M (Conn Tables) unit :=
  orFail (wrapped "putting space diff") (run (λ now t,
    match insertRow (did_String space, timestamptz receiptAt, cid_String cause)
            {| d_delta := delta; d_inserted_at := now |} (space_diff t) with
    | inl m => inl (tt, set_space_diff m t)
    | inr e => inr e
    end)).
Definition Put (space : DID) (cause : Cid) (delta receiptAt : Z) : M (Conn Tables) unit :=
  PutWith space cause delta receiptAt.

(** The loop over the rows of [List], one row of it. *)
Definition scanRow (r : DiffKey * DiffRow) : outcome DifferenceRecord :=
  let '((spaceStr, receiptAt, causeStr), row) := r in
  spaceDID ← owrap "parsing space DID" (did_Parse spaceStr);
  cause ← owrap "parsing cause CID" (cid_Parse causeStr);
  Ok {| Space := spaceDID; Cause := cause; Delta := d_delta row;
        ReceiptAt := receiptAt; InsertedAt := d_inserted_at row |}.

Definition listing (space : DID) (after : Z) : Listing Tables (DiffKey * DiffRow) (Z * string) DifferenceRecord := {|
  l_select t := selectWhere (λ r, r.1.1.1 = did_String space) (space_diff t);
  l_key := diffKey;
  l_first r := bool_decide (after = zeroTime) || (timestamptz after <? r.1.1.2)%Z;
  l_resume c := '(receiptAt, cause) ← owrap "invalid cursor" (DecodeCursor c);
                Ok (timestamptz receiptAt, cause);
  l_scan := scanRow;
  l_cursor d := EncodeCursor (ReceiptAt d) (cid_String (Cause d));
  l_querying := "listing space diffs";
  l_iterating := "iterating space diffs";
|}.
Definition List (space : DID) (after : Z) (cfg : PaginationConfig)
    : M (Conn Tables) (Page DifferenceRecord) :=
  listPage diffLe (listing space after) cfg (limitOf cfg).
End PgSpaceDiff.
End PgSpaceDiff.

Module PgUploadDiff.
Section PgUploadDiff.
Context `{CursorJSON} `{Postgres} `{!Database Tables}.

Definition PutWith (space : DID) (cause : Cid) (delta receiptAt : Z) : M (Conn Tables) bool :=
  orFail (wrapped "putting upload diff") (run (λ now t,
    let '(recorded, m) :=
      insertOrNothing (did_String space, timestamptz (UploadDiff.Instant receiptAt), cid_String cause)
        {| d_delta := delta; d_inserted_at := now |} (upload_diff t) in
    inl (recorded, set_upload_diff m t))).
Definition Put (space : DID) (cause : Cid) (delta receiptAt : Z) : M (Conn Tables) bool :=
  PutWith space cause delta receiptAt.

Definition listing (space : DID) (after : Z) : Listing Tables (DiffKey * DiffRow) (Z * string) DifferenceRecord := {|
  l_select t := selectWhere (λ r, r.1.1.1 = did_String space) (upload_diff t);
  l_key := diffKey;
  l_first r := bool_decide (after = zeroTime) || (timestamptz after <? r.1.1.2)%Z;
  l_resume c := '(receiptAt, cause) ← owrap "invalid cursor" (DecodeCursor c);
                Ok (timestamptz receiptAt, cause);
  l_scan := PgSpaceDiff.scanRow;
  l_cursor d := EncodeCursor (ReceiptAt d) (cid_String (Cause d));
  l_querying := "listing upload diffs";
  l_iterating := "iterating upload diffs";
|}.
Definition List (space : DID) (after : Z) (cfg : PaginationConfig)
    : M (Conn Tables) (Page DifferenceRecord) :=
  listPage diffLe (listing space after) cfg (limitOf cfg).
End PgUploadDiff.
End PgUploadDiff.

Module PgMetrics.
Section PgMetrics.
Context `{CursorJSON} `{Postgres} `{!Database Tables}.

(** [INSERT ... ON CONFLICT DO UPDATE SET value = value + EXCLUDED.value] of a
    BIGINT: the sum is an error where it does not fit. *)
Definition addTo {K} `{Countable K} (k : K) (v : Z) (m : gmap K Z) : gmap K Z + dbError :=
  let m := upsertRow k v (λ old, old + v)%Z m in
  if is_bigint (default 0%Z (m !! k)) then inl m else inr outOfRange.

(** [slices.Sorted(maps.Keys(inc))] *)
Definition sortedKeys (inc : gmap string Z) : list string := sortFunc String.le (map_to_list inc).*1.

Definition incrementAdminRow (metric : string) (v : Z) : M (Conn Tables) unit :=
  orFail (wrapped ("incrementing admin metric " +:+ quoted metric)) (run (λ _ t,
    match addTo metric v (admin_metrics t) with
    | inl m => inl (tt, set_admin_metrics m t)
    | inr e => inr e
    end)).
Definition incrementSpaceRow (space : DID) (metric : string) (v : Z) : M (Conn Tables) unit :=
  orFail (wrapped ("incrementing space metric " +:+ quoted metric)) (run (λ _ t,
    match addTo (did_String space, metric) v (space_metrics t) with
    | inl m => inl (tt, set_space_metrics m t)
    | inr e => inr e
    end)).
Fixpoint incrementLoop (row : string → Z → M (Conn Tables) unit) (inc : gmap string Z)
    (keys : list string) : M (Conn Tables) unit :=
  match keys with
  | [] => mret tt
  | metric :: keys =>
      _ ← row metric (int64 (Metrics.total inc metric));
      incrementLoop row inc keys
  end.
Definition IncrementAdminWith (inc : gmap string Z) : M (Conn Tables) unit :=
  incrementLoop incrementAdminRow inc (sortedKeys inc).
Definition IncrementSpaceWith (space : DID) (inc : gmap string Z) : M (Conn Tables) unit :=
  incrementLoop (incrementSpaceRow space) inc (sortedKeys inc).
Definition IncrementTotals (inc : gmap string Z) : M (Conn Tables) unit :=
  if bool_decide (inc = ∅) then mret tt else IncrementAdminWith inc.
Definition IncrementSpaceTotals (space : DID) (inc : gmap string Z) : M (Conn Tables) unit :=
  if bool_decide (inc = ∅) then mret tt else IncrementSpaceWith space inc.

(** [result[name] = uint64(value)] of every row. *)
Definition totalsOf (rows : list (string * Z)) : gmap string Z :=
  foldl (λ m r, <[r.1 := uint64 r.2]> m) ∅ rows.
Definition Get : M (Conn Tables) (gmap string Z) :=
  got ← orFail (wrapped "querying admin metrics")
    (query (λ t, inl (map_to_list (admin_metrics t))));
  rows ← lift (scanRows "iterating admin metrics" Ok got);
  mret (totalsOf rows).
Definition GetSpace (space : DID) : M (Conn Tables) (gmap string Z) :=
  got ← orFail (wrapped "querying space metrics")
    (query (λ t, inl ((λ r, (r.1.2, r.2)) <$>
       selectWhere (λ r, r.1.1 = did_String space) (space_metrics t))));
  rows ← lift (scanRows "iterating space metrics" Ok got);
  mret (totalsOf rows).
End PgMetrics.
End PgMetrics.
