(* ===== verification/PgBlobRegistry.v ===== *)
(** * The blob registry in PostgreSQL: [pkg/store/blob_registry/postgres]

    An entry, its diff row and its counters are written in one transaction. *)
From S2P Require Export PgLedger BlobRegistry.

Module PgBlobRegistry.
Section PgBlobRegistry.
Context `{CursorJSON} `{Commands} `{Postgres} `{!Database Tables}.

Abbreviation Row := ((string * string) * BlobRow)%type (only parsing).

Definition scanRecord (r : Row) : outcome BlobRegistry.Record_ :=
  let '((spaceStr, digestStr), row) := r in
  space ← owrap "parsing space DID" (did_Parse spaceStr);
  digest ← owrap "parsing digest" (digestutil_Parse digestStr);
  cause ← owrap "parsing cause CID" (cid_Parse (b_cause row));
  Ok {| BlobRegistry.Space := space;
        BlobRegistry.blob := {| Digest := digest; BlobSize := uint64 (b_size row) |};
        BlobRegistry.Cause := cause; BlobRegistry.InsertedAt := b_inserted_at row |}.

Definition Get (space : DID) (digest : Multihash) : M (Conn Tables) BlobRegistry.Record_ :=
  let key := (did_String space, digestutil_Format digest) in
  r ← queryRow (λ t, blob_registry t !! key);
  match r with
  | inl row => lift (owrap "getting blob registry entry" (scanRecord (key, row)))
  | inr NoRows => fail ErrEntryNotFound
  | inr e => fail (wrapped "getting blob registry entry" e)
  end.

Definition Register (space : DID) (b : Blob) (cause : Cid) : M (Conn Tables) unit :=
  transaction "committing blob register" (
    _ ← orFail (λ e, if hasCode uniqueViolation e then ErrEntryExists
                     else wrapped "inserting blob registry entry" e)
          (run (λ now t,
             match insertRow (did_String space, digestutil_Format (Digest b))
                     {| b_size := int64 (BlobSize b); b_cause := cid_String cause;
                        b_inserted_at := now |} (blob_registry t) with
             | inl m => inl (tt, set_blob_registry m t)
             | inr e => inr e
             end));
    let inc : gmap string Z :=
      <[BlobAddTotalMetric := 1%Z]> (<[BlobAddSizeTotalMetric := BlobSize b]> ∅) in
    receiptAt ← clockNow;
    _ ← PgSpaceDiff.PutWith space cause (int64 (BlobSize b)) receiptAt;
    _ ← PgMetrics.IncrementSpaceWith space inc;
    PgMetrics.IncrementAdminWith inc).

Definition Deregister (space : DID) (digest : Multihash) (cause : Cid) : M (Conn Tables) unit :=
  existing ← Get space digest;
  transaction "committing blob deregister" (
    affected ← orFail (wrapped "deleting blob registry entry")
      (run (λ _ t,
         let '(n, m) := deleteRow (did_String space, digestutil_Format digest) (blob_registry t) in
         inl (n, set_blob_registry m t)));
    if (affected =? 0)%Z then fail ErrEntryNotFound
    else
      let size := BlobSize (BlobRegistry.blob existing) in
      let inc : gmap string Z :=
        <[BlobRemoveTotalMetric := 1%Z]> (<[BlobRemoveSizeTotalMetric := size]> ∅) in
      receiptAt ← clockNow;
      _ ← PgSpaceDiff.PutWith space cause (int64 (- int64 size)) receiptAt;
      _ ← PgMetrics.IncrementSpaceWith space inc;
      PgMetrics.IncrementAdminWith inc).

Definition listing (space : DID) : Listing Tables Row string BlobRegistry.Record_ := {|
  l_select t := selectWhere (λ r, r.1.1 = did_String space) (blob_registry t);
  l_key r := r.1.2;
  l_first _ := true;
  l_resume := Ok;
  l_scan := scanRecord;
  l_cursor rec := digestutil_Format (Digest (BlobRegistry.blob rec));
  l_querying := "listing blob registry entries";
  l_iterating := "iterating blob registry entries";
|}.
Definition List (space : DID) (cfg : PaginationConfig)
    : M (Conn Tables) (Page BlobRegistry.Record_) :=
  listPage textLe (listing space) cfg (limitOf cfg).
End PgBlobRegistry.
End PgBlobRegistry.
