(* ===== verification/PgUpload.v ===== *)
(** * Uploads in PostgreSQL: [pkg/store/upload/postgres]

    The shards of a root are rows of their own, which are deleted with it. *)
From S2P Require Export PgLedger Upload.

Module PgUpload.
Section PgUpload.
Context `{CursorJSON} `{Commands} `{Postgres} `{!Database Tables}.

Abbreviation Row := ((string * string) * UploadRow)%type (only parsing).

Definition scanRecord (r : Row) : outcome Upload.UploadRecord :=
  let '((spaceStr, rootStr), row) := r in
  space ← owrap "parsing space DID" (did_Parse spaceStr);
  root ← owrap "parsing root CID" (cid_Parse rootStr);
  index ← match u_index row with
          | Some s => c ← owrap "parsing index CID" (cid_Parse s); Ok (Some c)
          | None => Ok None
          end;
  cause ← owrap "parsing cause CID" (cid_Parse (u_cause row));
  Ok {| Upload.Space := space; Upload.Root := root; Upload.Index := index; Upload.Cause := cause;
        Upload.InsertedAt := u_inserted_at row; Upload.UpdatedAt := u_updated_at row |}.

Definition Exists (space : DID) (root : Cid) : M (Conn Tables) bool :=
  orFail (wrapped "checking upload existence")
    (queryRow (λ t, Some (bool_decide (is_Some (upload t !! (did_String space, cid_String root)))))).

Definition Get (space : DID) (root : Cid) : M (Conn Tables) Upload.UploadRecord :=
  let key := (did_String space, cid_String root) in
  r ← queryRow (λ t, upload t !! key);
  match r with
  | inl row => lift (owrap "getting upload" (scanRecord (key, row)))
  | inr NoRows => fail ErrUploadNotFound
  | inr e => fail (wrapped "getting upload" e)
  end.

Definition Inspect (root : Cid) : M (Conn Tables) (list DID) :=
  got ← orFail (wrapped "inspecting upload")
    (queryAny (λ t, (λ r, r.1.1) <$> selectWhere (λ r, r.1.2 = cid_String root) (upload t)));
  lift (scanRows "iterating upload inspect rows" (λ s, owrap "parsing space DID" (did_Parse s)) got).

Definition listing (space : DID) : Listing Tables Row string Upload.UploadRecord := {|
  l_select t := selectWhere (λ r, r.1.1 = did_String space) (upload t);
  l_key r := r.1.2;
  l_first _ := true;
  l_resume := Ok;
  l_scan := scanRecord;
  l_cursor rec := cid_String (Upload.Root rec);
  l_querying := "listing uploads";
  l_iterating := "iterating uploads";
|}.
Definition List (space : DID) (cfg : PaginationConfig)
    : M (Conn Tables) (Page Upload.UploadRecord) :=
  listPage textLe (listing space) cfg (limitOf cfg).

Definition maxShardsPerPage : Z := 1000.
Definition shardListing (space : DID) (root : Cid) : Listing Tables ((string * string * string) * unit) string Cid := {|
  l_select t := selectWhere (λ r, r.1.1 = (did_String space, cid_String root)) (upload_shard t);
  l_key r := r.1.2;
  l_first _ := true;
  l_resume := Ok;
  l_scan r := owrap "parsing shard CID" (cid_Parse r.1.2);
  l_cursor := cid_String;
  l_querying := "listing shards";
  l_iterating := "iterating shards";
|}.
Definition ListShards (space : DID) (root : Cid) (cfg : PaginationConfig)
    : M (Conn Tables) (Page Cid) :=
  let limit := limitOf cfg in
  let limit := if (maxShardsPerPage <? limit)%Z then maxShardsPerPage else limit in
  listPage textLe (shardListing space root) cfg limit.

Definition recordDelta (space : DID) (cause : Cid) (delta : Z) (metric : string)
    : M (Conn Tables) unit :=
  now ← clockNow;
  recorded ← PgUploadDiff.PutWith space cause delta now;
  if negb recorded then mret tt
  else
    let inc : gmap string Z := <[metric := 1%Z]> ∅ in
    _ ← PgMetrics.IncrementSpaceWith space inc;
    PgMetrics.IncrementAdminWith inc.

Definition Remove (space : DID) (root cause : Cid) : M (Conn Tables) unit :=
  transaction "committing upload remove" (
    affected ← orFail (wrapped "removing upload")
      (run (λ _ t,
         let key := (did_String space, cid_String root) in
         let '(n, m) := deleteRow key (upload t) in
         (* ON DELETE CASCADE *)
         inl (n, set_upload_shard (deleteWhere (λ r, r.1.1 = key) (upload_shard t)).2
                   (set_upload m t))));
    if (affected =? 0)%Z then fail ErrUploadNotFound
    else recordDelta space cause (-1) UploadRemoveTotalMetric).

Fixpoint insertShards (space : DID) (root : Cid) (shards : list Cid) : M (Conn Tables) unit :=
  match shards with
  | [] => mret tt
  | shard :: shards =>
      _ ← orFail (wrapped "upserting upload shard") (run (λ _ t,
        let key := (did_String space, cid_String root) in
        match upload t !! key with
        | None => inr (PgError foreignKeyViolation "violates foreign key constraint")
        | Some _ =>
            inl (tt, set_upload_shard (insertOrNothing (key, cid_String shard) tt (upload_shard t)).2 t)
        end));
      insertShards space root shards
  end.

Definition Upsert (space : DID) (root : Cid) (index : option Cid) (shards : list Cid) (cause : Cid)
    : M (Conn Tables) unit :=
  transaction "committing upload upsert" (
    inserted ← orFail (wrapped "upserting upload") (run (λ now t,
      let key := (did_String space, cid_String root) in
      let row := {| u_index := cid_String <$> index; u_cause := cid_String cause;
                    u_inserted_at := now; u_updated_at := now |} in
      inl (bool_decide (upload t !! key = None),
           set_upload (upsertRow key row (λ old,
             {| u_index := u_index row; u_cause := u_cause row;
                u_inserted_at := u_inserted_at old; u_updated_at := now |}) (upload t)) t)));
    _ ← insertShards space root shards;
    if inserted : bool then recordDelta space cause 1 UploadAddTotalMetric else mret tt).
End PgUpload.
End PgUpload.
