(* ===== verification/PgAccounting.v ===== *)
(** * Accounting in PostgreSQL

    What the transactions of the blob registry and of the upload store do to the
    tables, whatever fails and whatever other connections commit meanwhile. *)
From S2P Require Export PgBlobRegistry PgUpload Accounting.

Section PgAccounting.
Context `{CursorJSON} `{Commands} `{Postgres} `{!Database Tables}.
Implicit Types (t : Tables) (s : string) (inc : gmap string Z).

(** ** What the tables say about a space, by the text of its DID *)
Definition pgTotal t s (k : string) : Z := default 0%Z (space_metrics t !! (s, k)).
Definition pgAdmin t (k : string) : Z := default 0%Z (admin_metrics t !! k).
Definition pgSpaces t (k : string) : Z :=
  sumOver (λ (sk : string * string) v, if decide (sk.2 = k) then v else 0%Z) (space_metrics t).
Definition pgHeld t s : Z :=
  sumOver (λ (sd : string * string) r, if decide (sd.1 = s) then b_size r else 0%Z) (blob_registry t).
Definition pgHeldBlobs t s : Z :=
  sumOver (λ (sd : string * string) _, if decide (sd.1 = s) then 1%Z else 0%Z) (blob_registry t).
Definition diffOf s (k : DiffKey) (r : DiffRow) : Z := if decide (k.1.1 = s) then d_delta r else 0%Z.
Definition pgBytes t s : Z := sumOver (diffOf s) (space_diff t).
Definition pgUploads t s : Z := sumOver (diffOf s) (upload_diff t).

(** ** Increments *)
Lemma addTo_inl {K} `{Countable K} (k : K) v m m' :
  PgMetrics.addTo k v m = inl m' →
  m' = <[k := (default 0 (m !! k) + v)%Z]> m ∧ (default 0 (m !! k) + v ≤ max_int64)%Z.
Proof.
  unfold PgMetrics.addTo, upsertRow, is_bigint, max_int64. case_bool_decide as Hb; [|done]. intros [= <-].
  rewrite lookup_insert_eq in Hb. destruct (m !! k); simpl in *; split; (done || lia).
Qed.
Lemma sumOver_addTo {K} `{Countable K} (P : K → Prop) `{∀ k, Decision (P k)} (k : K) v m :
  sumOver (λ k v, if decide (P k) then v else 0%Z) (<[k := (default 0 (m !! k) + v)%Z]> m) =
  (sumOver (λ k v, if decide (P k) then v else 0) m + if decide (P k) then v else 0)%Z.
Proof.
  destruct (m !! k) as [old|] eqn:E; simpl.
  - rewrite (sumOver_insert _ _ _ _ _ E). case_decide; lia.
  - rewrite sumOver_fresh by done. case_decide; lia.
Qed.

(** What the keys of [inc] among [keys] add to a total. *)
Definition movedBy inc (keys : list string) (k : string) : Z :=
  foldr (λ k' acc, (if decide (k' = k) then int64 (Metrics.total inc k') else 0) + acc)%Z 0%Z keys.
Lemma movedBy_notin inc keys k : k ∉ keys → movedBy inc keys k = 0%Z.
Proof.
  induction keys as [|k' keys IH]; [done|]. intros [? ?]%not_elem_of_cons. simpl.
  rewrite decide_False by done. by rewrite IH.
Qed.
Lemma movedBy_sortedKeys inc k :
  movedBy inc (PgMetrics.sortedKeys inc) k = int64 (Metrics.total inc k).
Proof.
  assert (NoDup (PgMetrics.sortedKeys inc)) as Hnd.
  { unfold PgMetrics.sortedKeys, sortFunc. rewrite merge_sort_Permutation. apply NoDup_fst_map_to_list. }
  destruct (decide (k ∈ PgMetrics.sortedKeys inc)) as [Hin|Hni].
  - revert Hin Hnd. generalize (PgMetrics.sortedKeys inc) as keys.
    induction keys as [|k' keys IH]; [by intros ?%elem_of_nil|].
    intros Hin [Hni Hnd]%NoDup_cons. simpl. destruct (decide (k' = k)) as [->|Hne].
    + rewrite movedBy_notin by done. lia.
    + rewrite IH; [done|set_solver|done].
  - rewrite movedBy_notin by done. unfold Metrics.total.
    assert (inc !! k = None) as ->; [|done]. apply eq_None_not_Some. intros [v Hv]. apply Hni.
    unfold PgMetrics.sortedKeys, sortFunc. rewrite merge_sort_Permutation.
    apply list_elem_of_fmap. exists (k, v). split; [done|]. by apply elem_of_map_to_list.
Qed.

Record spaceMoved s inc (keys : list string) t t' : Prop := {
  moved_frame : t' = set_space_metrics (space_metrics t') t;
  moved_total s' k : pgTotal t' s' k =
    (pgTotal t s' k + if decide (s' = s) then movedBy inc keys k else 0)%Z;
  moved_spaces k : pgSpaces t' k = (pgSpaces t k + movedBy inc keys k)%Z;
  moved_bound s' k : pgTotal t' s' k = pgTotal t s' k ∨ (pgTotal t' s' k ≤ max_int64)%Z;
}.
Record adminMoved inc (keys : list string) t t' : Prop := {
  admin_frame : t' = set_admin_metrics (admin_metrics t') t;
  admin_total k : pgAdmin t' k = (pgAdmin t k + movedBy inc keys k)%Z;
}.

Lemma incrementSpace_effect b space inc keys :
  effect b (PgMetrics.incrementLoop (PgMetrics.incrementSpaceRow space) inc keys)
    (λ t _ t', spaceMoved (did_String space) inc keys t t').
Proof.
  induction keys as [|metric keys IH]; cbn [PgMetrics.incrementLoop].
  { apply effect_ret. intros t. split; [by destruct t|..]; intros; cbn; [destruct (decide _); lia|lia|by left]. }
  eapply effect_bind; [|intros u; exact IH|].
  - apply (effect_run _ _ _ (λ t _ t', t' = set_space_metrics
      (<[(did_String space, metric) := (pgTotal t (did_String space) metric +
         int64 (Metrics.total inc metric))%Z]> (space_metrics t)) t ∧
      (pgTotal t (did_String space) metric + int64 (Metrics.total inc metric) ≤ max_int64)%Z)).
    intros t [] t'. destruct (PgMetrics.addTo _ _ _) as [m|] eqn:E; [|done].
    apply addTo_inl in E as [-> Hle]. by intros [= <-].
  - intros t _ t1 _ t2 [-> Hle] [Hf Ht Hs Hbd]. split.
    + rewrite Hf. by destruct t2.
    + intros s' k. rewrite Ht. unfold pgTotal at 1. cbn [space_metrics set_space_metrics movedBy foldr].
      destruct (decide (s' = did_String space)) as [->|Hne].
      * destruct (decide (metric = k)) as [->|Hk].
        -- rewrite lookup_insert_eq. simpl. unfold movedBy. lia.
        -- rewrite lookup_insert_ne by congruence. unfold pgTotal, movedBy. lia.
      * rewrite lookup_insert_ne by congruence. unfold pgTotal. lia.
    + intros k. rewrite Hs. unfold pgSpaces at 1. cbn [space_metrics set_space_metrics movedBy foldr].
      unfold pgTotal. rewrite (sumOver_addTo (λ sk : string * string, sk.2 = k)). cbn [snd].
      unfold pgSpaces, movedBy. lia.
    + intros s' k. destruct (Hbd s' k) as [->|?]; [|by right].
      unfold pgTotal in *. cbn [space_metrics set_space_metrics].
      destruct (decide ((s', k) = (did_String space, metric))) as [[= -> ->]|Hne].
      * rewrite lookup_insert_eq. by right.
      * rewrite lookup_insert_ne by congruence. by left.
Qed.
Lemma incrementAdmin_effect b inc keys :
  effect b (PgMetrics.incrementLoop PgMetrics.incrementAdminRow inc keys)
    (λ t _ t', adminMoved inc keys t t').
Proof.
  induction keys as [|metric keys IH]; cbn [PgMetrics.incrementLoop].
  { apply effect_ret. intros t. split; [by destruct t|]. intros; cbn; lia. }
  eapply effect_bind; [|intros u; exact IH|].
  - apply (effect_run _ _ _ (λ t _ t', t' = set_admin_metrics
      (<[metric := (pgAdmin t metric + int64 (Metrics.total inc metric))%Z]> (admin_metrics t)) t)).
    intros t [] t'. destruct (PgMetrics.addTo _ _ _) as [m|] eqn:E; [|done].
    apply addTo_inl in E as [-> _]. by intros [= <-].
  - intros t _ t1 _ t2 -> [Hf Ht]. split.
    + rewrite Hf. by destruct t2.
    + intros k. rewrite Ht. unfold pgAdmin at 1. cbn [admin_metrics set_admin_metrics movedBy foldr].
      destruct (decide (metric = k)) as [->|Hk].
      * rewrite lookup_insert_eq. simpl. unfold movedBy. lia.
      * rewrite lookup_insert_ne by congruence. unfold pgAdmin, movedBy. lia.
Qed.

(** The counters of a space and of the service, moved by the same increments. *)
Record counted s inc t t' : Prop := {
  counted_frame : t' = set_admin_metrics (admin_metrics t') (set_space_metrics (space_metrics t') t);
  counted_total s' k : pgTotal t' s' k =
    (pgTotal t s' k + if decide (s' = s) then int64 (Metrics.total inc k) else 0)%Z;
  counted_bound s' k : pgTotal t' s' k = pgTotal t s' k ∨ (pgTotal t' s' k ≤ max_int64)%Z;
  counted_admin k : (pgAdmin t' k - pgSpaces t' k = pgAdmin t k - pgSpaces t k)%Z;
}.
Lemma increments_effect b space inc :
  effect b (_ ← PgMetrics.IncrementSpaceWith space inc; PgMetrics.IncrementAdminWith inc)
    (λ t _ t', counted (did_String space) inc t t').
Proof.
  eapply effect_bind; [apply incrementSpace_effect|intros u; apply incrementAdmin_effect|].
  intros t [] t1 [] t2 [Hf1 Ht1 Hs1 Hb1] [Hf2 Ha2].
  assert (space_metrics t2 = space_metrics t1) as Heq by (by rewrite Hf2).
  assert (admin_metrics t1 = admin_metrics t) as Heq1 by (by rewrite Hf1).
  split.
  - rewrite Heq, Hf2, Hf1. done.
  - intros s' k. unfold pgTotal at 1. rewrite Heq. fold (pgTotal t1 s' k).
    rewrite Ht1, movedBy_sortedKeys. done.
  - intros s' k. unfold pgTotal. rewrite Heq. apply Hb1.
  - intros k. rewrite Ha2. unfold pgSpaces at 1. rewrite Heq. fold (pgSpaces t1 k).
    rewrite Hs1. unfold pgAdmin. rewrite Heq1. lia.
Qed.

(** ** One change *)

(** A row of the byte log and the counters that go with it. *)
Definition bookedBytes s (cause : string) (delta : Z) inc t t' : Prop := ∃ n now,
  let key := (s, timestamptz (clock n), cause) in
  space_diff t !! key = None ∧
  counted s inc
    (set_space_diff (<[key := {| d_delta := delta; d_inserted_at := now |}]> (space_diff t)) t) t'.
(** The same of the upload log, which takes a change it holds as recorded. *)
Definition bookedUpload s (cause : string) (delta : Z) inc t t' : Prop := ∃ n now,
  let key := (s, timestamptz (UploadDiff.Instant (clock n)), cause) in
  is_Some (upload_diff t !! key) ∧ t' = t ∨
  upload_diff t !! key = None ∧
  counted s inc
    (set_upload_diff (<[key := {| d_delta := delta; d_inserted_at := now |}]> (upload_diff t)) t) t'.

Lemma bookBytes_effect b space cause delta inc :
  effect b (receiptAt ← clockNow;
            _ ← PgSpaceDiff.PutWith space cause delta receiptAt;
            _ ← PgMetrics.IncrementSpaceWith space inc;
            PgMetrics.IncrementAdminWith inc)
    (λ t _ t', bookedBytes (did_String space) (cid_String cause) delta inc t t').
Proof.
  pose (row := {| d_delta := delta; d_inserted_at := timestamptz b |}).
  pose (key at' := (did_String space, timestamptz at', cid_String cause)).
  eapply (effect_bind _ _ _ _ (λ at' t _ t', space_diff t !! key at' = None ∧
    counted (did_String space) inc (set_space_diff (<[key at' := row]> (space_diff t)) t) t'));
    [apply effect_clockNow|intros at'|].
  - eapply (effect_bind _ _ _ (λ t _ t', space_diff t !! key at' = None ∧
        t' = set_space_diff (<[key at' := row]> (space_diff t)) t)
      (λ _ t _ t', counted (did_String space) inc t t')).
    + apply effect_run. intros t [] t'. unfold insertRow.
      destruct (_ !! _) eqn:E; [done|]. intros [= <-]. eauto.
    + intros u. apply increments_effect.
    + intros t _ t1 x t2 [Hn ->] Hc. eauto.
  - intros t at' t1 x t2 [-> [n ->]] [Hn Hc]. by exists n, (timestamptz b).
Qed.
Lemma recordDelta_effect b space cause delta metric :
  effect b (PgUpload.recordDelta space cause delta metric)
    (λ t _ t', bookedUpload (did_String space) (cid_String cause) delta {[metric := 1%Z]} t t').
Proof.
  unfold PgUpload.recordDelta.
  pose (row := {| d_delta := delta; d_inserted_at := timestamptz b |}).
  pose (key at' := (did_String space, timestamptz (UploadDiff.Instant at'), cid_String cause)).
  eapply (effect_bind _ _ _ _ (λ at' t _ t', is_Some (upload_diff t !! key at') ∧ t' = t ∨
    upload_diff t !! key at' = None ∧ counted (did_String space) {[metric := 1%Z]}
      (set_upload_diff (<[key at' := row]> (upload_diff t)) t) t'));
    [apply effect_clockNow|intros at'|].
  - eapply (effect_bind _ _ _ (λ t (recorded : bool) t1,
        if recorded then upload_diff t !! key at' = None ∧
          t1 = set_upload_diff (<[key at' := row]> (upload_diff t)) t
        else is_Some (upload_diff t !! key at') ∧ t1 = t)
      (λ (recorded : bool) t _ t', if recorded then counted (did_String space) {[metric := 1%Z]} t t' else t' = t)).
    + apply effect_run. intros t recorded t'. unfold insertOrNothing. change (did_String space, timestamptz (UploadDiff.Instant at'), cid_String cause) with (key at').
      destruct (upload_diff t !! _) eqn:E; cbn beta iota; intros [= <- <-]; [|done].
      split; [by eexists|by destruct t].
    + intros []; cbn [negb]; [|by apply effect_ret].
      change (<[metric := 1%Z]> (∅ : gmap string Z)) with ({[metric := 1%Z]} : gmap string Z).
      apply increments_effect.
    + intros t [] t1 x t2; cbn; [intros [Hn ->] Hc|intros [Hs ->] ->]; auto.
  - intros t at' t1 x t2 [-> [n ->]] Hc. by exists n, (timestamptz b).
Qed.

(** ** What each operation does when it succeeds *)
Definition blobKey (space : DID) (digest : Multihash) : string * string :=
  (did_String space, digestutil_Format digest).
Definition uploadKey (space : DID) (root : Cid) : string * string :=
  (did_String space, cid_String root).

Definition registered (space : DID) (b : Blob) (cause : Cid) t t' : Prop := ∃ now,
  blob_registry t !! blobKey space (Digest b) = None ∧
  bookedBytes (did_String space) (cid_String cause) (int64 (BlobSize b)) (BlobRegistry.addInc b)
    (set_blob_registry (<[blobKey space (Digest b) :=
       {| b_size := int64 (BlobSize b); b_cause := cid_String cause; b_inserted_at := now |}]>
       (blob_registry t)) t) t'.
Definition deregistered (space : DID) (digest : Multihash) (cause : Cid) (size : Z) t t' : Prop :=
  is_Some (blob_registry t !! blobKey space digest) ∧
  bookedBytes (did_String space) (cid_String cause) (int64 (- int64 size))
    (BlobRegistry.removeInc {| Digest := digest; BlobSize := size |})
    (set_blob_registry (delete (blobKey space digest) (blob_registry t)) t) t'.

Definition withShards (space : DID) (root : Cid) (shards : list Cid) (m : gmap (string * string * string) unit) :=
  foldl (λ m shard, (insertOrNothing (uploadKey space root, cid_String shard) tt m).2) m shards.
Definition upsertedRow (index : option Cid) (cause : Cid) (now : Z) (old : option UploadRow) : UploadRow := {|
  u_index := cid_String <$> index; u_cause := cid_String cause;
  u_inserted_at := match old with Some r => u_inserted_at r | None => now end;
  u_updated_at := now |}.
(** The root's row and shards, and the change of the count if the root is new. *)
Definition upserted (space : DID) (root : Cid) (index : option Cid) (shards : list Cid) (cause : Cid)
    t t' : Prop := ∃ now,
  let t1 := set_upload_shard (withShards space root shards (upload_shard t))
    (set_upload (<[uploadKey space root :=
       upsertedRow index cause now (upload t !! uploadKey space root)]> (upload t)) t) in
  match upload t !! uploadKey space root with
  | Some _ => t' = t1
  | None => bookedUpload (did_String space) (cid_String cause) 1 {[UploadAddTotalMetric := 1%Z]} t1 t'
  end.
Definition removed (space : DID) (root cause : Cid) t t' : Prop :=
  is_Some (upload t !! uploadKey space root) ∧
  bookedUpload (did_String space) (cid_String cause) (-1) {[UploadRemoveTotalMetric := 1%Z]}
    (set_upload_shard (filter (λ r, r.1.1 ≠ uploadKey space root) (upload_shard t))
      (set_upload (delete (uploadKey space root) (upload t)) t)) t'.

Lemma registerBody_effect b space bl cause f :
  effect b (_ ← orFail f (run (λ now t,
             match insertRow (did_String space, digestutil_Format (Digest bl))
                     {| b_size := int64 (BlobSize bl); b_cause := cid_String cause;
                        b_inserted_at := now |} (blob_registry t) with
             | inl m => inl (tt, set_blob_registry m t)
             | inr e => inr e
             end));
    receiptAt ← clockNow;
    _ ← PgSpaceDiff.PutWith space cause (int64 (BlobSize bl)) receiptAt;
    _ ← PgMetrics.IncrementSpaceWith space (BlobRegistry.addInc bl);
    PgMetrics.IncrementAdminWith (BlobRegistry.addInc bl))
  (λ t _ t', registered space bl cause t t').
Proof.
  eapply (effect_bind _ _ _ (λ t _ t1, blob_registry t !! blobKey space (Digest bl) = None ∧
      t1 = set_blob_registry (<[blobKey space (Digest bl) :=
       {| b_size := int64 (BlobSize bl); b_cause := cid_String cause;
          b_inserted_at := timestamptz b |}]> (blob_registry t)) t)).
  - apply effect_run. intros t [] t'. unfold insertRow, blobKey.
    destruct (blob_registry t !! _) eqn:E; [done|]. intros [= <-]. eauto.
  - intros u. apply bookBytes_effect.
  - intros t _ t1 x t2 [Hn ->] Hb. by exists (timestamptz b).
Qed.
Lemma deregisterBody_effect b space digest cause size f :
  effect b (affected ← orFail f (run (λ _ t,
         let '(n, m) := deleteRow (did_String space, digestutil_Format digest) (blob_registry t) in
         inl (n, set_blob_registry m t)));
    if (affected =? 0)%Z then fail ErrEntryNotFound
    else
      receiptAt ← clockNow;
      _ ← PgSpaceDiff.PutWith space cause (int64 (- int64 size)) receiptAt;
      _ ← PgMetrics.IncrementSpaceWith space
        (BlobRegistry.removeInc {| Digest := digest; BlobSize := size |});
      PgMetrics.IncrementAdminWith (BlobRegistry.removeInc {| Digest := digest; BlobSize := size |}))
  (λ t _ t', deregistered space digest cause size t t').
Proof.
  eapply (effect_bind _ _ _ (λ t n t1, n ≠ 0%Z → is_Some (blob_registry t !! blobKey space digest) ∧
      t1 = set_blob_registry (delete (blobKey space digest) (blob_registry t)) t)
    (λ n t _ t', n ≠ 0%Z ∧ bookedBytes (did_String space) (cid_String cause) (int64 (- int64 size))
    (BlobRegistry.removeInc {| Digest := digest; BlobSize := size |}) t t')).
  - apply effect_run. intros t n t'. unfold deleteRow, blobKey.
    destruct (blob_registry t !! _) eqn:E; cbn beta iota; intros [= <- <-]; [|done].
    intros _. split; [by eexists|done].
  - intros n. destruct (Z.eqb_spec n 0); [apply effect_fail|].
    intros c a c' Hc Hr. destruct (bookBytes_effect _ _ _ _ _ _ _ _ Hc Hr). auto.
  - intros t n t1 x t2 Hd [Hn Hb]. destruct (Hd Hn) as [Hs ->]. by split.
Qed.
Lemma insertShards_effect b space root shards :
  effect b (PgUpload.insertShards space root shards)
    (λ t _ t', t' = set_upload_shard (withShards space root shards (upload_shard t)) t).
Proof.
  induction shards as [|shard shards IH]; cbn [PgUpload.insertShards].
  { apply effect_ret. by intros []. }
  eapply effect_bind; [|intros u; exact IH|].
  - apply (effect_run _ _ _ (λ t _ t', t' = set_upload_shard
      (insertOrNothing (uploadKey space root, cid_String shard) tt (upload_shard t)).2 t)).
    intros t [] t'. unfold uploadKey. destruct (upload t !! _); [|done]. by intros [= <-].
  - by intros t _ t1 x t2 -> ->.
Qed.
Lemma upsertBody_effect b space root index shards cause f :
  effect b (inserted ← orFail f (run (λ now t,
      let key := (did_String space, cid_String root) in
      let row := {| u_index := cid_String <$> index; u_cause := cid_String cause;
                    u_inserted_at := now; u_updated_at := now |} in
      inl (bool_decide (upload t !! key = None),
           set_upload (upsertRow key row (λ old,
             {| u_index := u_index row; u_cause := u_cause row;
                u_inserted_at := u_inserted_at old; u_updated_at := now |}) (upload t)) t)));
    _ ← PgUpload.insertShards space root shards;
    if inserted : bool then PgUpload.recordDelta space cause 1 UploadAddTotalMetric else mret tt)
  (λ t _ t', upserted space root index shards cause t t').
Proof.
  eapply (effect_bind _ _ _ (λ t inserted t1,
      inserted = bool_decide (upload t !! uploadKey space root = None) ∧
      t1 = set_upload (<[uploadKey space root :=
        upsertedRow index cause (timestamptz b) (upload t !! uploadKey space root)]> (upload t)) t)
    (λ (inserted : bool) t _ t', let t1 := set_upload_shard (withShards space root shards (upload_shard t)) t in
      if inserted then bookedUpload (did_String space) (cid_String cause) 1
        {[UploadAddTotalMetric := 1%Z]} t1 t' else t' = t1)).
  - apply effect_run. intros t n t' [= <- <-]. split; [done|]. unfold upsertRow, upsertedRow, uploadKey.
    by destruct (upload t !! _).
  - intros inserted. eapply effect_bind; [apply insertShards_effect|intros u|].
    + apply (λ H, H : effect b (if inserted : bool then _ else _) (λ t _ t',
        if inserted : bool then bookedUpload (did_String space) (cid_String cause) 1
          {[UploadAddTotalMetric := 1%Z]} t t' else t' = t)).
      destruct inserted; [apply recordDelta_effect|by apply effect_ret].
    + by intros t _ t1 x t2 -> Hd.
  - intros t n t1 x t2 [-> ->] Hd. exists (timestamptz b).
    cbn [upload_shard set_upload] in Hd. case_bool_decide as Hn.
    + rewrite Hn in Hd |- *. done.
    + destruct (upload t !! uploadKey space root); done.
Qed.
Lemma removeBody_effect b space root cause f :
  effect b (affected ← orFail f (run (λ _ t,
         let key := (did_String space, cid_String root) in
         let '(n, m) := deleteRow key (upload t) in
         inl (n, set_upload_shard (deleteWhere (λ r, r.1.1 = key) (upload_shard t)).2
                   (set_upload m t))));
    if (affected =? 0)%Z then fail ErrUploadNotFound
    else PgUpload.recordDelta space cause (-1) UploadRemoveTotalMetric)
  (λ t _ t', removed space root cause t t').
Proof.
  eapply (effect_bind _ _ _ (λ t n t1, n ≠ 0%Z → is_Some (upload t !! uploadKey space root) ∧
      t1 = set_upload_shard (filter (λ r, r.1.1 ≠ uploadKey space root) (upload_shard t))
        (set_upload (delete (uploadKey space root) (upload t)) t))
    (λ n t _ t', n ≠ 0%Z ∧ bookedUpload (did_String space) (cid_String cause) (-1)
      {[UploadRemoveTotalMetric := 1%Z]} t t')).
  - apply effect_run. intros t n t'. unfold deleteRow, uploadKey.
    destruct (upload t !! _) eqn:E; cbn beta iota; intros [= <- <-]; [|done].
    intros _. split; [by eexists|done].
  - intros n. destruct (Z.eqb_spec n 0); [apply effect_fail|].
    intros c a c' Hc Hr. destruct (recordDelta_effect _ _ _ _ _ _ _ _ Hc Hr). auto.
  - intros t n t1 x t2 Hd [Hn Hb]. destruct (Hd Hn) as [Hs ->]. by split.
Qed.

(** ** The books *)

(** What holds whatever is committed: the byte log and the byte counters tell the
    same bytes (as uint64), the other counters are exact, and the service's totals
    are the sums over the spaces. *)
Record PgAgree t : Prop := {
  agree_bytes : ∀ s, uint64 (pgBytes t s) =
    uint64 (pgTotal t s BlobAddSizeTotalMetric - pgTotal t s BlobRemoveSizeTotalMetric);
  pg_blobs : ∀ s, (pgTotal t s BlobAddTotalMetric - pgTotal t s BlobRemoveTotalMetric)%Z
                  = pgHeldBlobs t s;
  pg_uploads : ∀ s, (pgTotal t s UploadAddTotalMetric - pgTotal t s UploadRemoveTotalMetric)%Z
                    = pgUploads t s;
  pg_admin : ∀ k, pgAdmin t k = pgSpaces t k;
}.
(** What holds as long as the sizes counted fit an int64. *)
Record PgMetered t : Prop := {
  pg_rows : ∀ s, pgBytes t s =
    (pgTotal t s BlobAddSizeTotalMetric - pgTotal t s BlobRemoveSizeTotalMetric)%Z;
  pg_range : ∀ s k, (0 ≤ pgTotal t s k ≤ max_int64)%Z;
}.
(** And as long as what a removal counts is the size of what it removes. *)
Record PgBooks t : Prop := {
  books_agree : PgAgree t;
  books_metered : PgMetered t;
  pg_sizes : ∀ k r, blob_registry t !! k = Some r → accountable (b_size r);
  (** the byte log adds up to what the registry holds *)
  pg_bytes : ∀ s, pgBytes t s = pgHeld t s;
}.

Lemma PgBooks_empty : PgBooks emptyTables.
Proof.
  split; [split|split|..]; try done; intros; unfold pgBytes, pgHeld, pgHeldBlobs, pgUploads, pgSpaces, pgAdmin,
    pgTotal; cbn; rewrite ?sumOver_empty, ?lookup_empty; done.
Qed.

Lemma sumOver_diff s (k : DiffKey) (row : DiffRow) (m : gmap DiffKey DiffRow) s' :
  m !! k = None → k.1.1 = s →
  sumOver (diffOf s') (<[k := row]> m) =
  (sumOver (diffOf s') m + if decide (s' = s) then d_delta row else 0)%Z.
Proof.
  intros Hn Hk. rewrite sumOver_fresh by done. unfold diffOf at 1. rewrite Hk.
  destruct (decide (s = s')) as [->|]; destruct (decide (s' = _)); try congruence; lia.
Qed.

Lemma bookedBytes_view s cause delta inc t t' :
  bookedBytes s cause delta inc t t' →
  blob_registry t' = blob_registry t ∧ upload_diff t' = upload_diff t ∧
  (∀ s', pgBytes t' s' = pgBytes t s' + if decide (s' = s) then delta else 0)%Z ∧
  (∀ s' k, pgTotal t' s' k =
     pgTotal t s' k + if decide (s' = s) then int64 (Metrics.total inc k) else 0)%Z ∧
  (∀ s' k, pgTotal t' s' k = pgTotal t s' k ∨ pgTotal t' s' k ≤ max_int64)%Z ∧
  (∀ k, pgAdmin t' k - pgSpaces t' k = pgAdmin t k - pgSpaces t k)%Z.
Proof.
  intros (n & now & Hn & [Hf Ht Hb Ha]). split_and!; try (by rewrite Hf); [|done..].
  intros s'. unfold pgBytes. rewrite Hf. cbn [space_diff set_admin_metrics set_space_metrics set_space_diff].
  by apply sumOver_diff.
Qed.
Lemma bookedUpload_view s cause delta inc t t' :
  bookedUpload s cause delta inc t t' →
  blob_registry t' = blob_registry t ∧ space_diff t' = space_diff t ∧
  ∃ recorded : bool,
  (∀ s', pgUploads t' s' = pgUploads t s' + if recorded && bool_decide (s' = s) then delta else 0)%Z ∧
  (∀ s' k, pgTotal t' s' k =
     pgTotal t s' k + if recorded && bool_decide (s' = s) then int64 (Metrics.total inc k) else 0)%Z ∧
  (∀ s' k, pgTotal t' s' k = pgTotal t s' k ∨ pgTotal t' s' k ≤ max_int64)%Z ∧
  (∀ k, pgAdmin t' k - pgSpaces t' k = pgAdmin t k - pgSpaces t k)%Z.
Proof.
  intros (n & now & [[_ ->]|[Hn [Hf Ht Hb Ha]]]).
  { split_and!; [done..|]. exists false. cbn. split_and!; intros; (by left) || lia. }
  split_and!; try (by rewrite Hf). exists true. cbn [andb]. split_and!; [| |done..].
  - intros s'. unfold pgUploads. rewrite Hf.
    cbn [upload_diff set_admin_metrics set_space_metrics set_upload_diff].
    erewrite sumOver_diff by done. cbn [d_delta]. by do 2 case_decide; case_bool_decide.
  - intros s' k. rewrite Ht. by case_decide; case_bool_decide.
Qed.

Lemma total_insert inc m v k :
  Metrics.total (<[m := v]> inc) k = if decide (k = m) then v else Metrics.total inc k.
Proof.
  unfold Metrics.total. case_decide; [subst; by rewrite lookup_insert_eq|by rewrite lookup_insert_ne].
Qed.
Lemma total_empty k : Metrics.total ∅ k = 0%Z.
Proof. unfold Metrics.total. by rewrite lookup_empty. Qed.

Lemma pgHeld_insert t s (k : string * string) (r : BlobRow) :
  blob_registry t !! k = None →
  pgHeld (set_blob_registry (<[k := r]> (blob_registry t)) t) s =
    (pgHeld t s + if decide (s = k.1) then b_size r else 0)%Z ∧
  pgHeldBlobs (set_blob_registry (<[k := r]> (blob_registry t)) t) s =
    (pgHeldBlobs t s + if decide (s = k.1) then 1 else 0)%Z.
Proof.
  intros Hn. unfold pgHeld, pgHeldBlobs. cbn [blob_registry set_blob_registry].
  rewrite !sumOver_fresh by done. destruct (decide (k.1 = s)), (decide (s = k.1)); try congruence; lia.
Qed.
Lemma pgHeld_delete t s (k : string * string) (r : BlobRow) :
  blob_registry t !! k = Some r →
  pgHeld (set_blob_registry (delete k (blob_registry t)) t) s =
    (pgHeld t s - if decide (s = k.1) then b_size r else 0)%Z ∧
  pgHeldBlobs (set_blob_registry (delete k (blob_registry t)) t) s =
    (pgHeldBlobs t s - if decide (s = k.1) then 1 else 0)%Z.
Proof.
  intros Hn. unfold pgHeld, pgHeldBlobs. cbn [blob_registry set_blob_registry].
  rewrite !(sumOver_delete _ _ _ _ Hn). destruct (decide (k.1 = s)), (decide (s = k.1)); try congruence; lia.
Qed.
Ltac metric_totals :=
  repeat first [rewrite total_insert|rewrite total_empty];
  repeat first [rewrite decide_True by done|rewrite decide_False by metric_ne].
Lemma addInc_totals b :
  Metrics.total (BlobRegistry.addInc b) BlobAddTotalMetric = 1%Z ∧
  Metrics.total (BlobRegistry.addInc b) BlobAddSizeTotalMetric = BlobSize b ∧
  Metrics.total (BlobRegistry.addInc b) BlobRemoveTotalMetric = 0%Z ∧
  Metrics.total (BlobRegistry.addInc b) BlobRemoveSizeTotalMetric = 0%Z ∧
  Metrics.total (BlobRegistry.addInc b) UploadAddTotalMetric = 0%Z ∧
  Metrics.total (BlobRegistry.addInc b) UploadRemoveTotalMetric = 0%Z.
Proof. unfold BlobRegistry.addInc. split_and!; by metric_totals. Qed.
Lemma removeInc_totals b :
  Metrics.total (BlobRegistry.removeInc b) BlobAddTotalMetric = 0%Z ∧
  Metrics.total (BlobRegistry.removeInc b) BlobAddSizeTotalMetric = 0%Z ∧
  Metrics.total (BlobRegistry.removeInc b) BlobRemoveTotalMetric = 1%Z ∧
  Metrics.total (BlobRegistry.removeInc b) BlobRemoveSizeTotalMetric = BlobSize b ∧
  Metrics.total (BlobRegistry.removeInc b) UploadAddTotalMetric = 0%Z ∧
  Metrics.total (BlobRegistry.removeInc b) UploadRemoveTotalMetric = 0%Z.
Proof. unfold BlobRegistry.removeInc. split_and!; by metric_totals. Qed.
Lemma inc_nonneg inc k :
  (∀ k v, inc !! k = Some v → 0 ≤ v ≤ max_int64)%Z → (0 ≤ int64 (Metrics.total inc k))%Z.
Proof.
  intros Hinc. unfold Metrics.total. destruct (inc !! k) as [v|] eqn:E; [|done].
  cbn. specialize (Hinc _ _ E). rewrite int64_size; [lia|done].
Qed.

(** ** An entry added or deleted with its diff row and its counters *)
Lemma PgAgree_bytes t t1 t' s cause (delta v : Z) inc :
  PgAgree t →
  t1 = set_blob_registry (blob_registry t1) t →
  (∀ s', pgHeldBlobs t1 s' = pgHeldBlobs t s' + if decide (s' = s) then v else 0)%Z →
  uint64 delta = uint64 (int64 (Metrics.total inc BlobAddSizeTotalMetric) -
    int64 (Metrics.total inc BlobRemoveSizeTotalMetric)) →
  (int64 (Metrics.total inc BlobAddTotalMetric) -
   int64 (Metrics.total inc BlobRemoveTotalMetric) = v)%Z →
  Metrics.total inc UploadAddTotalMetric = 0%Z → Metrics.total inc UploadRemoveTotalMetric = 0%Z →
  bookedBytes s cause delta inc t1 t' → PgAgree t'.
Proof.
  intros [Hb Hbl Hu Ha] Hf Hblobs Hd Hv Hua Hur Hbk.
  apply bookedBytes_view in Hbk as (Hreg & Hud & Hbytes & Htot & Hbd & Hadm).
  assert (∀ s k, pgTotal t1 s k = pgTotal t s k) as Hsame by (by rewrite Hf).
  split; [intros s'..|].
  - rewrite Hbytes, !Htot, !Hsame. replace (pgBytes t1 s') with (pgBytes t s') by (by rewrite Hf).
    case_decide; [|rewrite !Z.add_0_r; apply Hb].
    rewrite (uint64_congr_add _ _ _ _ (Hb s') Hd). f_equal. lia.
  - unfold pgHeldBlobs. rewrite Hreg. fold (pgHeldBlobs t1 s').
    rewrite !Htot, Hblobs, !Hsame, <-Hbl. case_decide; lia.
  - rewrite !Htot, !Hsame, Hua, Hur. unfold pgUploads. rewrite Hud, Hf. cbn [upload_diff set_blob_registry].
    fold (pgUploads t s'). rewrite <-Hu. case_decide; change (int64 0) with 0%Z; lia.
  - intros k. specialize (Hadm k).
    assert (pgAdmin t1 k = pgSpaces t1 k) as Heq by (rewrite Hf; apply Ha). lia.
Qed.
Lemma PgMetered_bytes t t1 t' s cause (delta : Z) inc :
  PgMetered t →
  t1 = set_blob_registry (blob_registry t1) t →
  (∀ k v, inc !! k = Some v → 0 ≤ v ≤ max_int64)%Z →
  (int64 (Metrics.total inc BlobAddSizeTotalMetric) -
   int64 (Metrics.total inc BlobRemoveSizeTotalMetric) = delta)%Z →
  bookedBytes s cause delta inc t1 t' → PgMetered t'.
Proof.
  intros [Hb Hnn] Hf Hinc Hd Hbk.
  apply bookedBytes_view in Hbk as (_ & _ & Hbytes & Htot & Hbd & _).
  assert (∀ s k, pgTotal t1 s k = pgTotal t s k) as Hsame by (by rewrite Hf). split; intros s'.
  - rewrite Hbytes, !Htot, !Hsame. replace (pgBytes t1 s') with (pgBytes t s') by (by rewrite Hf).
    rewrite Hb. case_decide; lia.
  - intros k. specialize (Hnn s' k). specialize (Hbd s' k). rewrite Hsame in Hbd. split; [|lia].
    rewrite Htot, Hsame. pose proof (inc_nonneg inc k Hinc). case_decide; lia.
Qed.
Lemma PgAgree_registered space b cause t t' :
  PgAgree t → registered space b cause t t' → PgAgree t'.
Proof.
  intros Hbk (now & Hn & Hr). destruct (addInc_totals b) as (E1 & E2 & E3 & E4 & E5 & E6).
  eapply (PgAgree_bytes _ _ _ _ _ _ 1); [exact Hbk|..|exact Hr]; try done.
  - intros s'. by rewrite (proj2 (pgHeld_insert t s' _ _ Hn)).
  - by rewrite E2, E4, Z.sub_0_r.
  - by rewrite E1, E3.
Qed.
Lemma PgAgree_deregistered space digest cause size t t' :
  PgAgree t → deregistered space digest cause size t t' → PgAgree t'.
Proof.
  intros Hbk ([r Hr] & Hd).
  destruct (removeInc_totals {| Digest := digest; BlobSize := size |}) as (E1 & E2 & E3 & E4 & E5 & E6).
  eapply (PgAgree_bytes _ _ _ _ _ _ (-1)); [exact Hbk|..|exact Hd]; try done.
  - intros s'. destruct (pgHeld_delete t s' _ _ Hr) as [_ ->]. cbn. case_decide; lia.
  - rewrite E2, E4, uint64_of_int64. done.
  - by rewrite E1, E3.
Qed.
Lemma addInc_range b k v :
  accountable (BlobSize b) → BlobRegistry.addInc b !! k = Some v → (0 ≤ v ≤ max_int64)%Z.
Proof.
  unfold BlobRegistry.addInc. intros Hb.
  intros [[_ <-]|[_ [[_ <-]|[_ ?]]%lookup_insert_Some]]%lookup_insert_Some; [done|done|].
  by rewrite lookup_empty in *.
Qed.
Lemma removeInc_range b k v :
  accountable (BlobSize b) → BlobRegistry.removeInc b !! k = Some v → (0 ≤ v ≤ max_int64)%Z.
Proof.
  unfold BlobRegistry.removeInc. intros Hb.
  intros [[_ <-]|[_ [[_ <-]|[_ ?]]%lookup_insert_Some]]%lookup_insert_Some; [done|done|].
  by rewrite lookup_empty in *.
Qed.
Lemma PgMetered_registered space b cause t t' :
  PgMetered t → accountable (BlobSize b) → registered space b cause t t' → PgMetered t'.
Proof.
  intros Hbk Hb (now & Hn & Hr). destruct (addInc_totals b) as (E1 & E2 & E3 & E4 & E5 & E6).
  eapply PgMetered_bytes; [exact Hbk| | | |exact Hr]; try done.
  - intros k v. by apply addInc_range.
  - by rewrite E2, E4, Z.sub_0_r.
Qed.
Lemma PgMetered_deregistered space digest cause size t t' :
  PgMetered t → accountable size → deregistered space digest cause size t t' → PgMetered t'.
Proof.
  intros Hbk Hb ([r Hr] & Hd).
  destruct (removeInc_totals {| Digest := digest; BlobSize := size |}) as (E1 & E2 & E3 & E4 & E5 & E6).
  rewrite int64_neg in Hd by done. eapply PgMetered_bytes; [exact Hbk| | | |exact Hd]; try done.
  - intros k v. by apply removeInc_range.
  - rewrite E2, E4. change (int64 0) with 0%Z. cbn. rewrite int64_size by done. lia.
Qed.

(** ** A change of a space's uploads *)
Record uploadMoved s (delta : Z) (metric : string) (recorded : bool) t t' : Prop := {
  um_registry : blob_registry t' = blob_registry t;
  um_bytes : ∀ s', pgBytes t' s' = pgBytes t s';
  um_uploads : ∀ s', pgUploads t' s' =
    (pgUploads t s' + if recorded && bool_decide (s' = s) then delta else 0)%Z;
  um_metric : ∀ s', pgTotal t' s' metric =
    (pgTotal t s' metric + if recorded && bool_decide (s' = s) then 1 else 0)%Z;
  um_other : ∀ s' k, metric ≠ k → pgTotal t' s' k = pgTotal t s' k;
  um_bound : ∀ s' k, pgTotal t' s' k = pgTotal t s' k ∨ (pgTotal t' s' k ≤ max_int64)%Z;
  um_admin : ∀ k, (pgAdmin t' k - pgSpaces t' k = pgAdmin t k - pgSpaces t k)%Z;
}.
Lemma bookedUpload_moved t t1 t' s cause delta metric :
  t1 = set_upload_shard (upload_shard t1) (set_upload (upload t1) t) →
  bookedUpload s cause delta {[metric := 1%Z]} t1 t' →
  ∃ recorded, uploadMoved s delta metric recorded t t'.
Proof.
  intros Hf (Hreg & Hsd & recorded & Hup & Htot & Hbd & Hadm)%bookedUpload_view. exists recorded.
  assert (blob_registry t1 = blob_registry t ∧ space_diff t1 = space_diff t ∧
    (∀ s, pgUploads t1 s = pgUploads t s) ∧ (∀ s k, pgTotal t1 s k = pgTotal t s k) ∧
    (∀ k, pgAdmin t1 k = pgAdmin t k ∧ pgSpaces t1 k = pgSpaces t k)) as (Er & Es & Eu & Et & Ea)
    by (by rewrite Hf).
  split.
  - by rewrite Hreg.
  - intros s'. unfold pgBytes. by rewrite Hsd, Es.
  - intros s'. by rewrite Hup, Eu.
  - intros s'. rewrite Htot, Et. unfold Metrics.total. by rewrite lookup_singleton_eq.
  - intros s' k Hk. rewrite Htot, Et. unfold Metrics.total. rewrite lookup_singleton_ne by done.
    change (int64 (default 0%Z None)) with 0%Z. destruct (_ && _); lia.
  - intros s' k. rewrite <-Et. apply Hbd.
  - intros k. rewrite Hadm. by rewrite (proj1 (Ea k)), (proj2 (Ea k)).
Qed.
Definition uploadChange (delta : Z) (metric : string) : Prop :=
  (delta, metric) = (1%Z, UploadAddTotalMetric) ∨ (delta, metric) = ((-1)%Z, UploadRemoveTotalMetric).
Lemma PgAgree_upload s delta metric recorded t t' :
  uploadChange delta metric → PgAgree t → uploadMoved s delta metric recorded t t' → PgAgree t'.
Proof.
  intros Hdm [Hb Hbl Hu Ha] [Hreg Hby Hup Hm Ho _ Hadm].
  assert (UploadAddTotalMetric ≠ UploadRemoveTotalMetric) as Hne by metric_ne. split; [intros s'..|].
  - rewrite Hby, !Ho; [apply Hb|..]; destruct Hdm as [[= _ ->]|[= _ ->]]; metric_ne.
  - unfold pgHeldBlobs. rewrite Hreg. rewrite !Ho; [apply Hbl|..];
      destruct Hdm as [[= _ ->]|[= _ ->]]; metric_ne.
  - rewrite Hup, <-Hu. destruct Hdm as [[= -> ->]|[= -> ->]].
    + rewrite Hm, (Ho _ UploadRemoveTotalMetric) by done. lia.
    + rewrite Hm, (Ho _ UploadAddTotalMetric) by congruence. destruct (_ && _); lia.
  - intros k. specialize (Hadm k). specialize (Ha k). lia.
Qed.
Lemma PgMetered_upload s delta metric recorded t t' :
  uploadChange delta metric → PgMetered t → uploadMoved s delta metric recorded t t' → PgMetered t'.
Proof.
  intros Hdm [Hb Hnn] [_ Hby _ Hm Ho Hbd _]. split; intros s'.
  - rewrite Hby, !Ho; [apply Hb|..]; destruct Hdm as [[= _ ->]|[= _ ->]]; metric_ne.
  - intros k. destruct (decide (metric = k)) as [<-|Hk]; [|rewrite Ho by done; apply Hnn].
    specialize (Hbd s' metric). specialize (Hnn s' metric). split; [|lia].
    rewrite Hm. destruct (_ && _); lia.
Qed.
Lemma upserted_moved space root index shards cause t t' :
  upserted space root index shards cause t t' →
  ∃ recorded, uploadMoved (did_String space) 1 UploadAddTotalMetric recorded t t'.
Proof.
  intros (now & Hu). destruct (upload t !! _) as [row|]; cbn in Hu.
  - exists false. rewrite Hu. split; try done; intros; [by rewrite Z.add_0_r..|by left].
  - eapply bookedUpload_moved; [|exact Hu]. done.
Qed.
Lemma removed_moved space root cause t t' :
  removed space root cause t t' →
  ∃ recorded, uploadMoved (did_String space) (-1) UploadRemoveTotalMetric recorded t t'.
Proof. intros [_ Hr]. eapply bookedUpload_moved; [|exact Hr]. done. Qed.

(** ** What is committed *)

(** One committed transaction of the stores, when the sizes of the blobs it adds or
    counts as removed are of the kind [ok]. *)
Inductive pgCommit (ok : Z → Prop) : Tables → Tables → Prop :=
  | commit_register space b cause t t' :
      ok (BlobSize b) → registered space b cause t t' → pgCommit ok t t'
  | commit_deregister space digest cause size t t' :
      ok size → deregistered space digest cause size t t' → pgCommit ok t t'
  | commit_upsert space root index shards cause t t' :
      upserted space root index shards cause t t' → pgCommit ok t t'
  | commit_remove space root cause t t' :
      removed space root cause t t' → pgCommit ok t t'.
(** One whose sizes are accountable, and that counts as removed the size of the
    entry it deletes. *)
Inductive pgChange : Tables → Tables → Prop :=
  | change_register space b cause t t' :
      accountable (BlobSize b) → registered space b cause t t' → pgChange t t'
  | change_deregister space digest cause size t t' :
      (∀ r, blob_registry t !! blobKey space digest = Some r → b_size r = size) →
      deregistered space digest cause size t t' → pgChange t t'
  | change_upsert space root index shards cause t t' :
      upserted space root index shards cause t t' → pgChange t t'
  | change_remove space root cause t t' :
      removed space root cause t t' → pgChange t t'.
Lemma pgChange_commit t t' : PgBooks t → pgChange t t' → pgCommit accountable t t'.
Proof.
  intros Hbk Hc. revert Hbk. destruct Hc as [space b cause t1 t2 Hb Hr
    |space digest cause size t1 t2 Hsz Hd|space root index shards cause t1 t2 Hu
    |space root cause t1 t2 Hr]; intros Hbk.
  - by eapply commit_register.
  - eapply commit_deregister; [|exact Hd]. destruct Hd as [[r Hr] _].
    rewrite <-(Hsz _ Hr). by eapply pg_sizes.
  - by eapply commit_upsert.
  - by eapply commit_remove.
Qed.

Lemma PgAgree_commit ok t t' : PgAgree t → pgCommit ok t t' → PgAgree t'.
Proof.
  intros Ha Hc. revert Ha. destruct Hc as [space b cause t1 t2 _ Hr
    |space digest cause size t1 t2 _ Hd|space root index shards cause t1 t2 Hu
    |space root cause t1 t2 Hr]; intros Ha.
  - by eapply PgAgree_registered.
  - by eapply PgAgree_deregistered.
  - apply upserted_moved in Hu as [recorded Hu]. eapply PgAgree_upload; [by left|done|done].
  - apply removed_moved in Hr as [recorded Hr]. eapply PgAgree_upload; [by right|done|done].
Qed.
Lemma PgMetered_commit (ok : Z → Prop) t t' :
  (∀ z, ok z → accountable z) → PgMetered t → pgCommit ok t t' → PgMetered t'.
Proof.
  intros Hok Ha Hc. revert Ha. destruct Hc as [space b cause t1 t2 Hb Hr
    |space digest cause size t1 t2 Hb Hd|space root index shards cause t1 t2 Hu
    |space root cause t1 t2 Hr]; intros Ha.
  - eapply PgMetered_registered; [done| |done]. by apply Hok.
  - eapply PgMetered_deregistered; [done| |done]. by apply Hok.
  - apply upserted_moved in Hu as [recorded Hu]. eapply PgMetered_upload; [by left|done|done].
  - apply removed_moved in Hr as [recorded Hr]. eapply PgMetered_upload; [by right|done|done].
Qed.

Lemma pgHeld_same t t' s : blob_registry t' = blob_registry t → pgHeld t' s = pgHeld t s.
Proof. unfold pgHeld. by intros ->. Qed.
(** The registry and the byte log, changed together. *)
Lemma entry_registered space b cause t t' :
  accountable (BlobSize b) → registered space b cause t t' →
  (∀ s, pgBytes t s = pgHeld t s) → (∀ k r, blob_registry t !! k = Some r → accountable (b_size r)) →
  (∀ s, pgBytes t' s = pgHeld t' s) ∧ ∀ k r, blob_registry t' !! k = Some r → accountable (b_size r).
Proof.
  intros Hb (now & Hn & (Hreg & _ & Hbytes & _)%bookedBytes_view) Hby Hsz. split.
  - intros s. rewrite Hbytes, (pgHeld_same _ _ s Hreg). rewrite (proj1 (pgHeld_insert t s _ _ Hn)), <-Hby. cbn. done.
  - rewrite Hreg. intros k r. cbn. intros [[<- <-]|[_ Hk]]%lookup_insert_Some.
    + cbn. by rewrite int64_size.
    + by eapply Hsz.
Qed.
Lemma entry_deregistered space digest cause size t t' :
  (∀ r, blob_registry t !! blobKey space digest = Some r → b_size r = size) →
  deregistered space digest cause size t t' →
  (∀ s, pgBytes t s = pgHeld t s) → (∀ k r, blob_registry t !! k = Some r → accountable (b_size r)) →
  (∀ s, pgBytes t' s = pgHeld t' s) ∧ ∀ k r, blob_registry t' !! k = Some r → accountable (b_size r).
Proof.
  intros Hsize ([r Hr] & (Hreg & _ & Hbytes & _)%bookedBytes_view) Hby Hsz.
  specialize (Hsize _ Hr). pose proof (Hsz _ _ Hr) as Hb. rewrite Hsize in Hb.
  rewrite int64_neg in Hbytes by done. split.
  - intros s. rewrite Hbytes, (pgHeld_same _ _ s Hreg). rewrite (proj1 (pgHeld_delete t s _ _ Hr)), <-Hby, Hsize. cbn. 
    match goal with |- context [pgBytes ?t1 s] => change (pgBytes t1 s) with (pgBytes t s) end.
    case_decide; lia.
  - rewrite Hreg. intros k r' Hk. cbn in Hk. apply lookup_delete_Some in Hk as [_ Hk]. by eapply Hsz.
Qed.
Lemma PgBooks_change t t' : PgBooks t → pgChange t t' → PgBooks t'.
Proof.
  intros Hbk Hc. pose proof (pgChange_commit _ _ Hbk Hc) as Hcm.
  pose proof (PgAgree_commit _ _ _ (books_agree _ Hbk) Hcm) as Ha.
  pose proof (PgMetered_commit _ _ _ (λ _ Hz, Hz) (books_metered _ Hbk) Hcm) as Hm.
  assert ((∀ s, pgBytes t' s = pgHeld t' s) ∧
    ∀ k r, blob_registry t' !! k = Some r → accountable (b_size r)) as [Hb Hs]; [|by split].
  pose proof (pg_bytes _ Hbk) as Hby. pose proof (pg_sizes _ Hbk) as Hsz. clear Hcm Ha Hm Hbk.
  revert Hby Hsz. destruct Hc as [space b cause t1 t2 Hb Hr|space digest cause size t1 t2 Hsize Hd
    |space root index shards cause t1 t2 Hu|space root cause t1 t2 Hr]; intros Hby Hsz.
  - by eapply entry_registered.
  - by eapply entry_deregistered.
  - apply upserted_moved in Hu as [recorded [Hreg Hb _ _ _ _ _]].
    unfold pgHeld. rewrite Hreg. split; [intros s; rewrite Hb; apply Hby|done].
  - apply removed_moved in Hr as [recorded [Hreg Hb _ _ _ _ _]].
    unfold pgHeld. rewrite Hreg. split; [intros s; rewrite Hb; apply Hby|done].
Qed.
Lemma PgAgree_commits ok t t' : PgAgree t → rtc (pgCommit ok) t t' → PgAgree t'.
Proof. intros Ha. induction 1; eauto using PgAgree_commit. Qed.
Lemma PgMetered_commits (ok : Z → Prop) t t' :
  (∀ z, ok z → accountable z) → PgMetered t → rtc (pgCommit ok) t t' → PgMetered t'.
Proof. intros Hok Ha. induction 1; eauto using PgMetered_commit. Qed.
Lemma PgBooks_changes t t' : PgBooks t → rtc pgChange t t' → PgBooks t'.
Proof. intros Hbk. induction 1; eauto using PgBooks_change. Qed.

(** A call of a store. *)
Inductive pgCall :=
  | PgRegister (space : DID) (b : Blob) (cause : Cid)
  | PgDeregister (space : DID) (digest : Multihash) (cause : Cid)
  | PgUpsert (space : DID) (root : Cid) (index : option Cid) (shards : list Cid) (cause : Cid)
  | PgRemove (space : DID) (root cause : Cid).
Definition pgExec (call : pgCall) : M (Conn Tables) unit :=
  match call with
  | PgRegister space b cause => PgBlobRegistry.Register space b cause
  | PgDeregister space digest cause => PgBlobRegistry.Deregister space digest cause
  | PgUpsert space root index shards cause => PgUpload.Upsert space root index shards cause
  | PgRemove space root cause => PgUpload.Remove space root cause
  end.
Definition pgSized (call : pgCall) : Prop :=
  match call with
  | PgRegister _ b _ => accountable (BlobSize b)
  | _ => True
  end.

(** What the other connections commit: transactions of the stores; with sizes that
    are accountable and counted as they are; and none of them, between two calls of
    this connection, puts a blob of another size in the place of one a space holds. *)
Definition othersCommit : Prop := ∀ n t, rtc (pgCommit (λ _, True)) t (others n t).
Definition othersChange : Prop := ∀ n t, rtc pgChange t (others n t).
Definition othersResize : Prop := ∀ n t k r r',
  blob_registry t !! k = Some r → blob_registry (others n t) !! k = Some r' → b_size r' = b_size r.

Lemma transaction_changes (R : Tables → Tables → Prop) committing (body : M (Conn Tables) unit) Q c :
  (∀ n t, rtc R t (others n t)) → (∀ b, effect b body Q) → (∀ a t', Q (begun c) a t' → R (begun c) t') →
  rtc R (tables c) (tables (transaction committing body c).2).
Proof.
  intros Ho HQ Hch. destruct (transaction committing body c) as [r c'] eqn:E.
  apply (transaction_spec _ _ _ _ _ _ HQ) in E as [_ E]. cbn [snd].
  assert (rtc R (tables c) (begun c)) as Hb by apply Ho.
  destruct r; [|destruct E as [->|(a & e' & _ & Hq)]; [done|]..];
    (eapply rtc_r; [exact Hb|]; eauto).
Qed.

Lemma scanRecord_size key row rec :
  PgBlobRegistry.scanRecord (key, row) = Ok rec → BlobSize (BlobRegistry.blob rec) = uint64 (b_size row).
Proof.
  unfold PgBlobRegistry.scanRecord. destruct key as [sp d].
  destruct (did_Parse sp); [|done..]. cbn. destruct (digestutil_Parse d); [|done..]. cbn.
  destruct (cid_Parse _); [|done..]. cbn. by intros [= <-].
Qed.
(** What [Get] answered was in the tables it saw. *)
Lemma Get_inv space digest c rec c' :
  PgBlobRegistry.Get space digest c = (Ok rec, c') →
  tables c' = seen c ∧ began c' = began c ∧ ∃ row,
  blob_registry (seen c) !! blobKey space digest = Some row ∧
  BlobSize (BlobRegistry.blob rec) = uint64 (b_size row).
Proof.
  unfold PgBlobRegistry.Get. intros (r & c1 & Hq & Hr)%M_bind_Ok.
  unfold queryRow in Hq. destruct (run_inv _ _ _ _ Hq) as (Hb & _ & Hcase).
  destruct r as [row|[]]; try done.
  destruct Hcase as [(a & [= <-] & Hs)|[(? & ? & _)|(? & ? & ? & _)]]; [|done..].
  apply pair_eq in Hr as [Hr <-]. fold (blobKey space digest) in Hs.
  destruct (blob_registry (seen c) !! blobKey space digest) as [row'|] eqn:El; [|done].
  injection Hs as <- Ht. split_and!; [done..|]. exists row'. split; [done|].
  destruct (PgBlobRegistry.scanRecord _) eqn:Es in Hr; [|done..]. injection Hr as <-.
  by eapply scanRecord_size.
Qed.
Lemma Get_keeps space digest c r c' :
  PgBlobRegistry.Get space digest c = (r, c') → tables c' = seen c ∧ began c' = began c.
Proof.
  unfold PgBlobRegistry.Get. rewrite M_bind_step.
  destruct (queryRow _ c) as [r1 c1] eqn:Hq. unfold queryRow in Hq.
  destruct (run_inv _ _ _ _ Hq) as (Hb & _ & Hcase).
  assert (tables c1 = seen c) as Ht.
  { destruct Hcase as [(a & _ & Hs)|[(e & _ & Hs & ->)|(e & k & _ & _ & [->|(a & Hs)])]]; try done;
      destruct (blob_registry _ !! _); try done; by injection Hs as _ <-. }
  destruct r1 as [[row|[]]|e| |]; intros [= _ <-]; done.
Qed.

Lemma pgExec_changes call c :
  othersChange → othersResize → pgSized call → PgBooks (tables c) →
  rtc pgChange (tables c) (tables (pgExec call c).2).
Proof.
  intros Ho Hre Hsz Hbk. destruct call as [space b cause|space digest cause|space root index shards cause|space root cause];
    cbn [pgExec].
  - eapply transaction_changes; [done|intros; apply registerBody_effect|]. intros u t' Hr.
    eapply change_register; [exact Hsz|exact Hr].
  - unfold PgBlobRegistry.Deregister. rewrite M_bind_step.
    destruct (PgBlobRegistry.Get space digest c) as [r c1] eqn:Hg.
    assert (rtc pgChange (tables c) (seen c)) as Hseen.
    { unfold seen. destruct (began c); [done|]. apply Ho. }
    destruct (Get_keeps _ _ _ _ _ Hg) as [Ht _].
    destruct r as [rec|e| |]; [|cbn [snd]; by rewrite Ht..].
    apply Get_inv in Hg as (_ & _ & row & Hrow & Hsize).
    etrans; [exact Hseen|]. rewrite <-Ht. eapply transaction_changes; [done| |].
    + intros b. apply (deregisterBody_effect b space digest cause (BlobSize (BlobRegistry.blob rec))).
    + intros u t' Hd. eapply change_deregister; [|exact Hd]. intros r' Hr'.
      unfold begun in Hr'. rewrite Ht in Hr'. pose proof (Hre _ _ _ _ _ Hrow Hr') as ->.
      rewrite Hsize, uint64_id; [done|].
      pose proof (pg_sizes _ (PgBooks_changes _ _ Hbk Hseen) _ _ Hrow).
      unfold accountable, is_uint64, max_int64 in *. lia.
  - eapply transaction_changes; [done|intros; apply upsertBody_effect|]. intros u t' Hr.
    eapply change_upsert. exact Hr.
  - eapply transaction_changes; [done|intros; apply removeBody_effect|]. intros u t' Hr.
    eapply change_remove. exact Hr.
Qed.

Lemma pgExec_commits call c :
  othersCommit → rtc (pgCommit (λ _, True)) (tables c) (tables (pgExec call c).2).
Proof.
  intros Ho. destruct call as [space b cause|space digest cause|space root index shards cause|space root cause];
    cbn [pgExec].
  - eapply transaction_changes; [done|intros; apply registerBody_effect|]. intros u t' Hr.
    eapply commit_register; [exact I|exact Hr].
  - unfold PgBlobRegistry.Deregister. rewrite M_bind_step.
    destruct (PgBlobRegistry.Get space digest c) as [r c1] eqn:Hg.
    assert (rtc (pgCommit (λ _, True)) (tables c) (tables c1)) as Hseen.
    { rewrite (proj1 (Get_keeps _ _ _ _ _ Hg)). unfold seen. destruct (began c); [done|]. apply Ho. }
    destruct r as [rec|e| |]; [|done..]. etrans; [exact Hseen|].
    eapply transaction_changes; [done| |].
    + intros b. apply (deregisterBody_effect b space digest cause (BlobSize (BlobRegistry.blob rec))).
    + intros u t' Hd. eapply commit_deregister; [exact I|exact Hd].
  - eapply transaction_changes; [done|intros; apply upsertBody_effect|]. intros u t' Hr.
    eapply commit_upsert. exact Hr.
  - eapply transaction_changes; [done|intros; apply removeBody_effect|]. intros u t' Hr.
    eapply commit_remove. exact Hr.
Qed.

(** What a call does when it is carried out. *)
Definition pgDoes (call : pgCall) t t' : Prop :=
  match call with
  | PgRegister space b cause => registered space b cause t t'
  | PgDeregister space digest cause => ∃ size, deregistered space digest cause size t t'
  | PgUpsert space root index shards cause => upserted space root index shards cause t t'
  | PgRemove space root cause => removed space root cause t t'
  end.
Definition pgCommitting (call : pgCall) : string :=
  match call with
  | PgRegister _ _ _ => "committing blob register"
  | PgDeregister _ _ _ => "committing blob deregister"
  | PgUpsert _ _ _ _ _ => "committing upload upsert"
  | PgRemove _ _ _ => "committing upload remove"
  end.

Lemma transaction_atomic committing (body : M (Conn Tables) unit) (Q : Tables → Tables → Prop) c r c' :
  (∀ b, effect b body (λ t _ t', Q t t')) →
  transaction committing body c = (r, c') →
  match r with
  | Ok _ => Q (begun c) (tables c')
  | _ => tables c' = begun c ∨
         (∃ e, r = Err (wrapped committing e)) ∧ Q (begun c) (tables c')
  end.
Proof.
  intros HQ Hr. apply (transaction_spec _ _ _ _ _ _ HQ) in Hr as [_ Hr].
  destruct r; [exact Hr|..]; (destruct Hr as [?|(a & e' & ? & ?)]; [by left|right; eauto]).
Qed.

Lemma pgExec_atomic_at call c r c' :
  pgExec call c = (r, c') →
  ∃ t, meanwhile (tables c) t ∧
  match r with
  | Ok _ => pgDoes call t (tables c')
  | _ => tables c' = t ∨ (∃ e, r = Err (wrapped (pgCommitting call) e)) ∧ pgDoes call t (tables c')
  end.
Proof.
  assert (∀ c, meanwhile (tables c) (begun c)) as Hb by (intros; apply rtc_once; by eexists).
  destruct call as [space b cause|space digest cause|space root index shards cause|space root cause];
    cbn [pgExec pgDoes pgCommitting].
  - intros Hr. exists (begun c). split; [done|].
    eapply transaction_atomic in Hr; [exact Hr|]. intros. apply registerBody_effect.
  - unfold PgBlobRegistry.Deregister. rewrite M_bind_step.
    destruct (PgBlobRegistry.Get space digest c) as [r1 c1] eqn:Hg.
    apply Get_keeps in Hg as [Ht _]. pose proof (meanwhile_seen c) as Hs. rewrite <-Ht in Hs.
    destruct r1 as [rec|e| |]; [|intros [= <- <-]; exists (tables c1); auto..].
    intros Hr. exists (begun c1). split; [unfold meanwhile; etrans; [exact Hs|apply Hb]|].
    eapply (transaction_atomic _ _ (deregistered space digest cause (BlobSize (BlobRegistry.blob rec))))
      in Hr; [|intros; apply (deregisterBody_effect _ _ _ _ (BlobSize (BlobRegistry.blob rec)))].
    destruct r; [eauto|..]; (destruct Hr as [?|[? ?]]; [by left|right; eauto]).
  - intros Hr. exists (begun c). split; [done|].
    eapply transaction_atomic in Hr; [exact Hr|]. intros. apply upsertBody_effect.
  - intros Hr. exists (begun c). split; [done|].
    eapply transaction_atomic in Hr; [exact Hr|]. intros. apply removeBody_effect.
Qed.

(** C14: over PostgreSQL, [Register], [Deregister], [Upsert] and [Remove] are
    carried out whole or not at all, whichever of their calls fail and whatever
    others commit before them: a success leaves the entry, its diff row and its
    counters changed together; a failure leaves the tables as they were, unless
    it was the commit that failed, which may have happened whole. *)
Theorem pgExec_atomic (call : pgCall) (c c' : Conn Tables) (r : outcome unit) :
  pgExec call c = (r, c') →
  ∃ t, meanwhile (tables c) t ∧
  match r with
  | Ok _ => pgDoes call t (tables c')
  | _ => tables c' = t ∨ (∃ e, r = Err (wrapped (pgCommitting call) e)) ∧ pgDoes call t (tables c')
  end.
Proof. apply pgExec_atomic_at. Qed.

(** Calls one after the other on a connection. *)
Fixpoint pgRun (cs : list pgCall) (c : Conn Tables) : Conn Tables :=
  match cs with
  | [] => c
  | call :: cs => pgRun cs (pgExec call c).2
  end.
Lemma pgRun_changes cs c :
  othersChange → othersResize → Forall pgSized cs → PgBooks (tables c) →
  rtc pgChange (tables c) (tables (pgRun cs c)).
Proof.
  intros Ho Hre Hsz. revert c. induction Hsz as [|call cs Hc Hsz IH]; intros c Hbk; [done|].
  cbn [pgRun]. pose proof (pgExec_changes call c Ho Hre Hc Hbk) as Hch.
  etrans; [exact Hch|]. apply IH. by eapply PgBooks_changes.
Qed.

Lemma pgRun_commits cs c :
  othersCommit → rtc (pgCommit (λ _, True)) (tables c) (tables (pgRun cs c)).
Proof.
  intros Ho. revert c. induction cs as [|call cs IH]; intros c; [apply rtc_refl|].
  cbn [pgRun]. etrans; [apply (pgExec_commits call c Ho)|apply IH].
Qed.

(** C9: whatever calls fail, whichever transactions of the registry and of the
    upload store other connections commit before each call and each commit, and
    whatever the sizes, after any calls of the two stores on an empty database every
    space's byte log and byte counters tell the same bytes (modulo 2^64), its blob
    counters differ by exactly the number of the blobs it holds and its upload
    counters by the sum of its upload log, and every service total is the sum of that
    total over the spaces. The bytes told are those of the blobs held, and no counter
    is negative or leaves the int64s, on two conditions: that no size exceeds an
    int64, and that no other connection, between the read of a [Deregister] and its
    transaction, removes the blob and registers it again with another size, for the
    removal then counts the size it has read ([Deregister_stale]). *)
Theorem pg_accounts_balance (cs : list pgCall) (c : Conn Tables) (s : string) :
  othersCommit → tables c = emptyTables →
  let t := tables (pgRun cs c) in
  (uint64 (pgBytes t s) =
     uint64 (pgTotal t s BlobAddSizeTotalMetric - pgTotal t s BlobRemoveSizeTotalMetric) ∧
   (pgTotal t s BlobAddTotalMetric - pgTotal t s BlobRemoveTotalMetric)%Z = pgHeldBlobs t s ∧
   (pgTotal t s UploadAddTotalMetric - pgTotal t s UploadRemoveTotalMetric)%Z = pgUploads t s ∧
   (∀ k, pgAdmin t k = pgSpaces t k)) ∧
  (othersChange → othersResize → Forall pgSized cs →
   pgBytes t s = pgHeld t s ∧
   (pgTotal t s BlobAddSizeTotalMetric - pgTotal t s BlobRemoveSizeTotalMetric)%Z = pgHeld t s ∧
   (∀ k, 0 ≤ pgTotal t s k ≤ max_int64)%Z).
Proof.
  intros Hc He t. assert (PgBooks (tables c)) as Hbk by (rewrite He; apply PgBooks_empty). split.
  - destruct (PgAgree_commits _ _ _ (books_agree _ Hbk) (pgRun_commits cs c Hc)). auto.
  - intros Ho Hre Hsz.
    destruct (PgBooks_changes _ _ Hbk (pgRun_changes cs c Ho Hre Hsz Hbk)) as [_ [Hrow Hrange] _ Hb].
    subst t. rewrite <-Hrow, Hb. auto.
Qed.
End PgAccounting.

(** ** Witnesses *)
Section Witnesses.
#[local] Existing Instance StrIds.
#[local] Existing Instance NumberJSON.
#[local] Existing Instance StrCommands.
#[local] Existing Instance plainPostgres.
#[local] Existing Instance quietDatabase.

Definition exampleConn : Conn Tables := {| tables := emptyTables; calls := 0; began := None |}.
Definition examplePgCalls : list pgCall :=
  [PgRegister "s" exampleBlob "c1"; PgUpsert "s" "r" None ["p"; "q"] "c2";
   PgRegister "s" exampleBlob "c3"; PgDeregister "s" "d" "c4"; PgRemove "s" "r" "c5"].

Lemma quiet_changes : othersChange ∧ othersResize.
Proof.
  split; [intros n t; apply rtc_refl|]. intros n t k r r' Hr Hr'. cbn in Hr'. congruence.
Qed.
Lemma quiet_commits : othersCommit.
Proof. intros n t. apply rtc_refl. Qed.
Lemma examplePg_sized : Forall pgSized examplePgCalls.
Proof. repeat constructor; vm_compute; discriminate. Qed.

Definition examplePgRegister : pgCall := PgRegister "s" exampleBlob "c1".
Lemma pgExec_atomic_witness :
  ∃ t, meanwhile emptyTables t ∧
  pgDoes examplePgRegister t (tables (pgExec examplePgRegister exampleConn).2).
Proof.
  destruct (pgExec_atomic examplePgRegister exampleConn (pgExec examplePgRegister exampleConn).2
    (pgExec examplePgRegister exampleConn).1) as (t & Ht & Hd).
  - apply surjective_pairing.
  - exists t. split; [exact Ht|].
    assert ((pgExec examplePgRegister exampleConn).1 = Ok tt) as E by reflexivity.
    rewrite E in Hd. exact Hd.
Defined.
Lemma pg_accounts_balance_witness :
  let t := tables (pgRun (take 2 examplePgCalls) exampleConn) in
  pgBytes t "s" = 7%Z ∧ pgHeldBlobs t "s" = 1%Z ∧ pgTotal t "s" UploadAddTotalMetric = 1%Z.
Proof.
  destruct (pg_accounts_balance (take 2 examplePgCalls) exampleConn "s") as [(_ & Hblobs & _) Hexact].
  - apply quiet_commits.
  - reflexivity.
  - destruct Hexact as [Hb _].
    + apply quiet_changes.
    + apply quiet_changes.
    + apply Forall_take, examplePg_sized.
    + split; [rewrite Hb; reflexivity|split; [rewrite <-Hblobs; reflexivity|reflexivity]].
Defined.
Lemma examplePg_run :
  pgHeldBlobs (tables (pgRun (take 4 examplePgCalls) exampleConn)) "s" = 0%Z ∧
  pgUploads (tables (pgRun examplePgCalls exampleConn)) "s" = 0%Z.
Proof. split; reflexivity. Qed.

(** ** A deregistration that counts a stale size

    Another connection removes the blob and registers it again with another
    size after [Deregister] has read its entry and before its transaction
    begins. *)
Definition heldConn : Conn Tables := (pgExec examplePgRegister exampleConn).2.
Definition resize : list pgCall :=
  [PgDeregister "s" "d" "c2"; PgRegister "s" {| Digest := "d"; BlobSize := 9 |} "c3"].
Definition resizing : Database Tables := {|
  clock := @clock Tables (quietDatabase Tables); fault _ := None; delivered _ := 0;
  others n t := if bool_decide (n = S (calls heldConn)) then tables (pgRun resize heldConn) else t |}.
Lemma heldConn_books : PgBooks (tables heldConn).
Proof.
  apply (PgBooks_changes emptyTables); [apply PgBooks_empty|].
  apply (pgExec_changes examplePgRegister exampleConn); [apply quiet_changes..| |apply PgBooks_empty].
  vm_compute. split; [done|discriminate].
Qed.

(** The connection that removes the blob reads 7 bytes, deletes 9 and counts 7:
    nothing is held and two bytes are accounted for. *)
Theorem Deregister_stale :
  PgBooks (tables heldConn) ∧
  (∀ n, rtc pgChange (tables heldConn) (@others _ resizing n (tables heldConn))) ∧
  let m := pgExec (Database0 := resizing) (PgDeregister "s" "d" "c4") heldConn in
  m.1 = Ok tt ∧ pgHeld (tables m.2) "s" = 0%Z ∧ pgBytes (tables m.2) "s" = 2%Z.
Proof.
  split; [apply heldConn_books|]. split; [|split_and!; reflexivity].
  intros n. cbn [others resizing]. case_bool_decide; [|apply rtc_refl].
  apply (pgRun_changes resize heldConn); [apply quiet_changes..| |apply heldConn_books].
  repeat constructor; vm_compute; discriminate.
Qed.
End Witnesses.
