(* ===== verification/PgReading.v ===== *)
(** * Reading the registry and the uploads back from PostgreSQL

    What the stores wrote is what they read: the rows of the tables are the
    texts of identifiers, which parse back, and a listing goes on where its
    cursor says whatever is written between its pages. *)
From S2P Require Export PgAccounting.

(** A text in a column is that of a DID, a CID or a digest that reads back. *)
Section Texts.
Context `{Ids}.
Definition isDID (s : string) : Prop := ∃ d, did_Defined d ∧ s = did_String d.
Definition isCID (s : string) : Prop := ∃ c, cid_Defined c ∧ s = cid_String c.
Definition isDigest (s : string) : Prop := ∃ d, multihash_Valid d ∧ s = digestutil_Format d.
Lemma isDID_parse s : isDID s → ∃ d, did_Parse s = Ok d ∧ did_String d = s.
Proof. intros (d & Hd & ->). exists d. split; [by apply did_Parse_Defined|done]. Qed.
Lemma isCID_parse s : isCID s → ∃ c, cid_Parse s = Ok c ∧ cid_String c = s.
Proof. intros (c & Hc & ->). exists c. split; [by apply cid_Parse_Defined|done]. Qed.
Lemma isDigest_parse s : isDigest s → ∃ d, digestutil_Parse s = Ok d ∧ digestutil_Format d = s.
Proof. intros (d & Hd & ->). exists d. split; [by apply digestutil_Parse_Format|done]. Qed.
End Texts.

Section PgReading.
Context `{CursorJSON} `{Commands} `{Postgres} `{!Database Tables}.
Implicit Types (t : Tables).

Definition validDiff (k : DiffKey) : Prop :=
  isDID k.1.1 ∧ isCID k.2 ∧ timestamptz k.1.2 = k.1.2 ∧ marshalable k.1.2.
(** Every row reads back. *)
Record PgValid t : Prop := {
  valid_blob k r : blob_registry t !! k = Some r → isDID k.1 ∧ isDigest k.2 ∧ isCID (b_cause r);
  valid_upload k r : upload t !! k = Some r →
    isDID k.1 ∧ isCID k.2 ∧ isCID (u_cause r) ∧ from_option isCID True (u_index r);
  valid_shard k : is_Some (upload_shard t !! k) → isCID k.2 ∧ is_Some (upload t !! k.1);
  valid_space_diff k : is_Some (space_diff t !! k) → validDiff k;
  valid_upload_diff k : is_Some (upload_diff t !! k) → validDiff k;
}.

(** *** The calls keep it *)
Definition pgDefined (call : pgCall) : Prop :=
  match call with
  | PgRegister space b cause => did_Defined space ∧ multihash_Valid (Digest b) ∧ cid_Defined cause
  | PgDeregister space _ cause => did_Defined space ∧ cid_Defined cause
  | PgUpsert space root index shards cause =>
      did_Defined space ∧ cid_Defined root ∧ cid_Defined cause ∧
      (∀ i, index = Some i → cid_Defined i) ∧ Forall cid_Defined shards
  | PgRemove space root cause => did_Defined space ∧ cid_Defined cause
  end.
(** The clock is within the years a cursor can be written for. *)
Definition pgClock : Prop := ∀ n,
  marshalable (timestamptz (clock n)) ∧ marshalable (timestamptz (UploadDiff.Instant (clock n))).

Lemma PgValid_diffs t t' :
  PgValid t → blob_registry t' = blob_registry t → upload t' = upload t →
  upload_shard t' = upload_shard t →
  (∀ k, is_Some (space_diff t' !! k) → is_Some (space_diff t !! k) ∨ validDiff k) →
  (∀ k, is_Some (upload_diff t' !! k) → is_Some (upload_diff t !! k) ∨ validDiff k) → PgValid t'.
Proof.
  intros [Hb Hu Hs Hd Hud] Eb Eu Es Hd' Hud'. split; [by rewrite Eb|by rewrite Eu|by rewrite Es, Eu|..].
  - intros k [?|?]%Hd'; eauto.
  - intros k [?|?]%Hud'; eauto.
Qed.
Lemma PgValid_booked t1 t' space cause delta inc :
  pgClock → did_Defined space → cid_Defined cause → PgValid t1 →
  bookedBytes (did_String space) (cid_String cause) delta inc t1 t' ∨
  bookedUpload (did_String space) (cid_String cause) delta inc t1 t' → PgValid t'.
Proof.
  intros Hclk Hsp Hc Hv Hb. assert (isDID (did_String space) ∧ isCID (cid_String cause)) as [? ?].
  { split; by eexists. }
  destruct Hb as [(n & now & _ & [Hf _ _])|(n & now & [[_ ->]|[_ [Hf _ _]]])]; [|done|].
  - eapply PgValid_diffs; [exact Hv|rewrite Hf; try done..]; intros k; cbn.
    + intros Hk. apply lookup_insert_is_Some in Hk as [<-|[_ ?]]; [right|by left].
      split_and!; [done..|apply timestamptz_idemp|apply Hclk].
    + auto.
  - eapply PgValid_diffs; [exact Hv|rewrite Hf; try done..]; intros k; cbn.
    + auto.
    + intros Hk. apply lookup_insert_is_Some in Hk as [<-|[_ ?]]; [right|by left].
      split_and!; [done..|apply timestamptz_idemp|apply Hclk].
Qed.
Lemma withShards_Some space root shards m k :
  is_Some (withShards space root shards m !! k) →
  is_Some (m !! k) ∨ k.1 = uploadKey space root ∧ ∃ shard, shard ∈ shards ∧ k.2 = cid_String shard.
Proof.
  unfold withShards. revert m. induction shards as [|s shards IH]; intros m; [by left|].
  cbn [foldl]. intros [Hk|(? & s' & ? & ?)]%IH; [|right; split; [done|]; exists s'; split; [by right|done]].
  unfold insertOrNothing in Hk. destruct (m !! _) eqn:E; [by left|]. cbn [snd] in Hk.
  apply lookup_insert_is_Some in Hk as [<-|[_ ?]]; [|by left].
  right. split; [done|]. exists s. split; [by left|done].
Qed.
Lemma PgValid_does call t t' :
  pgClock → pgDefined call → PgValid t → pgDoes call t t' → PgValid t'.
Proof.
  intros Hclk Hdef Hv. destruct call as [space b cause|space digest cause|space root index shards cause|space root cause];
    cbn [pgDefined pgDoes] in *.
  - destruct Hdef as (Hsp & Hd & Hc). intros (now & _ & Hb).
    eapply PgValid_booked; [done|exact Hsp|exact Hc| |left; exact Hb].
    destruct Hv as [Hvb Hu Hs Hdf Hud]. split; cbn; try done.
    intros k r [[<- <-]|[_ Hk]]%lookup_insert_Some; [|by apply Hvb].
    split_and!; by eexists.
  - destruct Hdef as (Hsp & Hc). intros (size & _ & Hb).
    eapply PgValid_booked; [done|exact Hsp|exact Hc| |left; exact Hb].
    destruct Hv as [Hvb Hu Hs Hdf Hud]. split; cbn; try done.
    intros k r [_ Hk]%lookup_delete_Some. by apply Hvb.
  - destruct Hdef as (Hsp & Hr & Hc & Hi & Hsh). intros (now & Hb).
    assert (PgValid (set_upload_shard (withShards space root shards (upload_shard t))
      (set_upload (<[uploadKey space root :=
       upsertedRow index cause now (upload t !! uploadKey space root)]> (upload t)) t))) as Hv1.
    { destruct Hv as [Hvb Hu Hs Hdf Hud]. split; cbn; try done.
      - intros k r [[<- <-]|[_ Hk]]%lookup_insert_Some; [|by apply Hu].
        cbn. split_and!; [by exists space|by exists root|by exists cause|]. destruct index as [i|]; [|done]. exists i. split; [by apply Hi|done].
      - intros k [Hk|(Hk & s & Hin & Hs2)]%withShards_Some.
        + apply Hs in Hk as [? ?]. split; [done|]. apply lookup_insert_is_Some'. by right.
        + split; [|rewrite Hk; apply lookup_insert_is_Some'; by left].
          rewrite Forall_forall in Hsh. exists s. split; [by apply Hsh|done]. }
    destruct (upload t !! _); cbn in Hb; [by rewrite Hb|].
    eapply PgValid_booked; [done|exact Hsp|exact Hc|exact Hv1|right; exact Hb].
  - destruct Hdef as (Hsp & Hc). intros (_ & Hb).
    eapply PgValid_booked; [done|exact Hsp|exact Hc| |right; exact Hb].
    destruct Hv as [Hvb Hu Hs Hdf Hud]. split; cbn; try done.
    + intros k r [_ Hk]%lookup_delete_Some. by apply Hu.
    + intros k [[] Hk]. apply map_lookup_filter_Some in Hk as [Hk Hne]. cbn in Hne.
      destruct (Hs k (ex_intro _ _ Hk)) as [? [r Hr]]. split; [done|]. exists r.
      by rewrite lookup_delete_ne.
Qed.

(** ** The listings *)
#[export] Instance blobs_ok space : ListingOk textLe (PgBlobRegistry.listing space) PgValid.
Proof.
  split; [|intros t [[sp d] row] rec Hv Hin Hs|done].
  - intros t. apply NoDup_selectWhere. intros [[s1 d1] r1] [[s2 d2] r2]; cbn. congruence.
  - apply elem_of_selectWhere in Hin as [_ Hin]. apply (valid_blob t Hv) in Hin as (Hsp & Hd & Hc).
    destruct (isDID_parse _ Hsp) as (x & Ex & _), (isDigest_parse _ Hd) as (y & Ey & Hy),
      (isCID_parse _ Hc) as (z & Ez & _). cbn in Hs, Ex, Ey, Hy.
    rewrite Ex in Hs; cbn in Hs. rewrite Ey in Hs; cbn in Hs. rewrite Ez in Hs; cbn in Hs.
    injection Hs as <-. cbn. by rewrite Hy.
Qed.
Lemma scanRecord_valid t space r :
  PgValid t → r ∈ l_select (PgBlobRegistry.listing space) t →
  ∃ rec, PgBlobRegistry.scanRecord r = Ok rec.
Proof.
  destruct r as [[sp d] row]. intros Hv [_ Hin]%elem_of_selectWhere.
  apply (valid_blob t Hv) in Hin as (Hsp & Hd & Hc).
  destruct (isDID_parse _ Hsp) as (x & Ex & _), (isDigest_parse _ Hd) as (y & Ey & Hy),
    (isCID_parse _ Hc) as (z & Ez & _). cbn in Ex, Ey |- *.
  rewrite Ex; cbn. rewrite Ey; cbn. rewrite Ez; cbn. eauto.
Qed.
#[export] Instance uploads_ok space : ListingOk textLe (PgUpload.listing space) PgValid.
Proof.
  split; [|intros t [[sp d] row] rec Hv Hin Hs|done].
  - intros t. apply NoDup_selectWhere. intros [[s1 d1] r1] [[s2 d2] r2]; cbn. congruence.
  - apply elem_of_selectWhere in Hin as [_ Hin]. apply (valid_upload t Hv) in Hin as (Hsp & Hd & _).
    destruct (isDID_parse _ Hsp) as (x & Ex & _), (isCID_parse _ Hd) as (y & Ey & Hy).
    cbn in Hs, Ex, Ey, Hy. rewrite Ex in Hs; cbn in Hs. rewrite Ey in Hs; cbn in Hs.
    destruct (match u_index row with Some _ => _ | None => _ end); [|done..]. cbn in Hs.
    destruct (cid_Parse (u_cause row)); [|done..]. cbn in Hs. injection Hs as <-. cbn. by rewrite Hy.
Qed.
#[export] Instance shards_ok space root : ListingOk textLe (PgUpload.shardListing space root) PgValid.
Proof.
  split; [|intros t [[sp d] row] rec Hv Hin Hs|done].
  - intros t. apply NoDup_selectWhere. intros [[s1 d1] r1] [[s2 d2] r2]; cbn. congruence.
  - apply elem_of_selectWhere in Hin as [_ Hin]. destruct (valid_shard t Hv (sp, d)) as [Hd _]; [by eexists|].
    destruct (isCID_parse _ Hd) as (y & Ey & Hy). cbn in Hs, Ey, Hy. rewrite Ey in Hs.
    injection Hs as <-. cbn. by rewrite Hy.
Qed.
(** A diff row reads back, and its cursor names its key. *)
Lemma scanRow_valid (k : DiffKey) row :
  validDiff k → ∃ rec, PgSpaceDiff.scanRow (k, row) = Ok rec ∧ Delta rec = d_delta row ∧
    ReceiptAt rec = k.1.2 ∧ did_String (Space rec) = k.1.1 ∧ cid_String (Cause rec) = k.2.
Proof.
  destruct k as [[sp at'] c]. intros (Hsp & Hc & _).
  destruct (isDID_parse _ Hsp) as (x & Ex & Hx), (isCID_parse _ Hc) as (y & Ey & Hy).
  cbn in *. rewrite Ex; cbn. rewrite Ey; cbn. eauto 10.
Qed.
Lemma diff_resume (k : DiffKey) row rec :
  validDiff k → PgSpaceDiff.scanRow (k, row) = Ok rec →
  ('(receiptAt, cause) ← owrap "invalid cursor"
      (DecodeCursor (EncodeCursor (ReceiptAt rec) (cid_String (Cause rec))));
   Ok (timestamptz receiptAt, cause)) = Ok (diffKey (k, row)).
Proof.
  intros Hv Hs. destruct (scanRow_valid k row Hv) as (rec' & Hs' & _ & Hat & _ & Hc).
  rewrite Hs in Hs'. injection Hs' as <-. destruct Hv as (_ & _ & Ht & Hm).
  rewrite DecodeCursor_EncodeCursor by by rewrite Hat. cbn. by rewrite Hat, Hc, Ht.
Qed.
Lemma diff_first (after : Z) (r r' : DiffKey * DiffRow) :
  bool_decide (after = zeroTime) || (timestamptz after <? r.1.1.2)%Z = true →
  diffLe (diffKey r) (diffKey r') →
  bool_decide (after = zeroTime) || (timestamptz after <? r'.1.1.2)%Z = true.
Proof.
  rewrite !orb_true_iff, !Z.ltb_lt. unfold diffLe, diffKey. cbn. intros [?|?] Hle; [by left|right]. lia.
Qed.
#[export] Instance space_diffs_ok space after :
  ListingOk diffLe (PgSpaceDiff.listing space after) PgValid.
Proof.
  split; [|intros t [k row] rec Hv Hin Hs|intros r r'; apply diff_first].
  - intros t. apply (NoDup_selectWhere diffKey). intros [[[s1 t1] c1] r1] [[[s2 t2] c2] r2]; unfold diffKey; cbn. congruence.
  - apply elem_of_selectWhere in Hin as [_ Hin]. apply diff_resume; [|done].
    apply (valid_space_diff t Hv). by eexists.
Qed.
#[export] Instance upload_diffs_ok space after :
  ListingOk diffLe (PgUploadDiff.listing space after) PgValid.
Proof.
  split; [|intros t [k row] rec Hv Hin Hs|intros r r'; apply diff_first].
  - intros t. apply (NoDup_selectWhere diffKey). intros [[[s1 t1] c1] r1] [[[s2 t2] c2] r2]; unfold diffKey; cbn. congruence.
  - apply elem_of_selectWhere in Hin as [_ Hin]. apply diff_resume; [|done].
    apply (valid_upload_diff t Hv). by eexists.
Qed.

(** ** What was registered is read back *)
Lemma uint64_int64 z : is_uint64 z → uint64 (int64 z) = z.
Proof. unfold is_uint64, uint64, int64. intros. divmod. Qed.
Lemma bookedBytes_registry s cause delta inc t t' :
  bookedBytes s cause delta inc t t' → blob_registry t' = blob_registry t.
Proof. intros (n & now & _ & [Hf _ _]). by rewrite Hf. Qed.

(** Over PostgreSQL, after [Register] succeeded and until the blob is removed,
    [Get] answers with exactly the space, digest, size and cause that were
    registered, whatever the size as a uint64, and a second [Register] of the
    digest is refused with [ErrEntryExists] and changes nothing. *)
Theorem pg_registered_read (space : DID) (b : Blob) (cause cause' : Cid) (b' : Blob)
    (c c1 c2 : Conn Tables) :
  did_Defined space → multihash_Valid (Digest b) → cid_Defined cause → is_uint64 (BlobSize b) →
  PgBlobRegistry.Register space b cause c = (Ok tt, c1) →
  began c2 = None →
  blob_registry (begun c2) !! blobKey space (Digest b) =
    blob_registry (tables c1) !! blobKey space (Digest b) →
  fault (calls c2) = None → fault (S (calls c2)) = None → Digest b' = Digest b →
  (∃ at', (PgBlobRegistry.Get space (Digest b) c2).1 =
     Ok {| BlobRegistry.Space := space; BlobRegistry.blob := b; BlobRegistry.Cause := cause;
           BlobRegistry.InsertedAt := at' |}) ∧
  (PgBlobRegistry.Register space b' cause' c2).1 = Err ErrEntryExists ∧
  tables (PgBlobRegistry.Register space b' cause' c2).2 = begun c2.
Proof.
  intros Hsp Hd Hc Hsz Hr Hb2 Hsame Hf Hf' Hdig.
  eapply (transaction_atomic _ _ (registered space b cause)) in Hr; [|intros; apply registerBody_effect].
  cbn in Hr. destruct Hr as (now & _ & Hbk). apply bookedBytes_registry in Hbk.
  rewrite Hbk in Hsame. cbn [blob_registry set_blob_registry] in Hsame.
  rewrite lookup_insert_eq in Hsame. split.
  - exists now. unfold PgBlobRegistry.Get. fold (blobKey space (Digest b)).
    rewrite M_bind_step. unfold queryRow. rewrite run_quiet, (seen_None _ Hb2), Hsame by done. cbn.
    rewrite did_Parse_Defined by done. cbn. rewrite digestutil_Parse_Format by done. cbn.
    rewrite cid_Parse_Defined by done. cbn. rewrite uint64_int64 by done. by destruct b.
  - unfold PgBlobRegistry.Register, transaction. rewrite Hf. rewrite M_bind_step, orFail_step.
    rewrite run_quiet by done. cbn [seen began tables calls]. unfold insertRow. rewrite Hdig.
    fold (blobKey space (Digest b)). unfold begun in Hsame. rewrite Hsame. by split.
Qed.

(** What [CollectM] over a listing of the default limit serves. *)
Lemma CollectM_default {R B X} (le : relation B) `{!RelDecision le} (l : Listing Tables R B X) fuel c :
  CollectM (λ cfg, listPage le l cfg (limitOf cfg)) fuel c =
  CollectM (λ cfg, listPage le l cfg (Z.of_nat 1000)) fuel c.
Proof. by apply collectLoopM_ext. Qed.

(** C36: collecting a space's blobs page by page over PostgreSQL is not disturbed
    by what other connections register and remove between the pages: every
    record served was registered at some moment of the walk, the digests come
    in strictly ascending order (none twice), and every blob that was there all
    along is served. *)
Theorem pg_list_stable (space : DID) (fuel : nat) (c c' : Conn Tables)
    (recs : list BlobRegistry.Record_) :
  (∀ t, meanwhile (tables c) t → PgValid t) →
  CollectM (PgBlobRegistry.List space) fuel c = (Ok recs, c') →
  ∃ rows : list ((string * string) * BlobRow),
    Forall2 (λ r rec, PgBlobRegistry.scanRecord r = Ok rec) rows recs ∧
    StronglySorted (λ x y, ¬ textLe y.1.2 x.1.2) rows ∧
    Forall (λ r, r.1.1 = did_String space ∧
      ∃ t, meanwhile (tables c) t ∧ blob_registry t !! r.1 = Some r.2) rows ∧
    (∀ k r, k.1 = did_String space →
       (∀ t, meanwhile (tables c) t → blob_registry t !! k = Some r) → (k, r) ∈ rows).
Proof.
  intros Hv. unfold PgBlobRegistry.List. rewrite CollectM_default. intros Hrun.
  eapply (collectLoopM_stable textLe (PgBlobRegistry.listing space) PgValid 1000) in Hrun
    as (rows & xs & -> & Hscan & Hsort & Hall & Hin); [|done|done|exact Hv|done|done].
  exists rows. split_and!; [done|done|..].
  - eapply Forall_impl; [exact Hall|]. intros [k r] [_ (t & Ht & [? ?]%elem_of_selectWhere)]. eauto.
  - intros k r Hk Hr. apply Hin; [done|]. intros t Ht. apply elem_of_selectWhere. auto.
Qed.

(** C37: with nobody else writing and the server answering, collecting a space's
    blobs over PostgreSQL ends and returns the records of exactly its entries,
    in the order of their digests. *)
Theorem pg_list_all (space : DID) (fuel : nat) (c : Conn Tables) :
  quiet (T := Tables) → PgValid (tables c) →
  size (blob_registry (tables c)) < fuel →
  ∃ recs, (CollectM (PgBlobRegistry.List space) fuel c).1 = Ok recs ∧
    Forall2 (λ r rec, PgBlobRegistry.scanRecord r = Ok rec)
      (orderBy textLe (λ r, r.1.2)
         (selectWhere (λ r, r.1.1 = did_String space) (blob_registry (tables c)))) recs.
Proof.
  intros Hq Hv Hfuel. set (rows := orderBy _ _ _).
  assert (∃ recs, Forall2 (λ r rec, PgBlobRegistry.scanRecord r = Ok rec) rows recs) as [recs Hrecs].
  { assert (∀ r, r ∈ rows → ∃ rec, PgBlobRegistry.scanRecord r = Ok rec) as Hall.
    { intros r Hr. subst rows. rewrite orderBy_perm in Hr. by eapply (scanRecord_valid _ space). }
    clear -Hall. induction rows as [|r rows IH]; [by exists []|].
    destruct (Hall r) as [rec Hrec]; [left|]. destruct IH as [recs ?]; [intros; apply Hall; by right|].
    exists (rec :: recs). by constructor. }
  exists recs. split; [|done]. unfold PgBlobRegistry.List. rewrite CollectM_default.
  assert (length recs ≤ size (blob_registry (tables c))) as Hlen.
  { rewrite <-(Forall2_length _ _ _ Hrecs). subst rows. rewrite orderBy_perm. unfold selectWhere.
    rewrite <-length_map_to_list. apply length_filter. }
  eapply (listPage_Collect textLe (PgBlobRegistry.listing space) PgValid 1000); try done.
  - pose proof makeslice_thousand. lia.
  - unfold keptRows. rewrite filter_all; [exact Hrecs|]. by apply Forall_forall.
  - lia.
Qed.
End PgReading.

(** ** Witnesses *)
Section Witnesses.
#[local] Existing Instance StrIds.
#[local] Existing Instance NumberJSON.
#[local] Existing Instance StrCommands.
#[local] Existing Instance plainPostgres.
#[local] Existing Instance quietDatabase.

Lemma quiet_quiet {T} : quiet (T := T).
Proof. done. Qed.
Lemma quiet_clock : pgClock.
Proof.
  intros n. unfold marshalable, UploadDiff.Instant. cbn [timestamptz plainPostgres clock quietDatabase].
  unfold Truncate, Second, Microsecond, zeroTime. split; divmod.
Qed.
Lemma PgValid_empty : PgValid emptyTables.
Proof. split; cbn; intros k; rewrite lookup_empty; intros ?; try done; by destruct 1. Qed.
Lemma heldConn_valid : PgValid (tables heldConn).
Proof.
  destruct (pgExec_atomic_at examplePgRegister exampleConn (pgExec examplePgRegister exampleConn).1 heldConn)
    as (t & Ht & Hd); [apply surjective_pairing|].
  assert ((pgExec examplePgRegister exampleConn).1 = Ok tt) as E by reflexivity. rewrite E in Hd.
  eapply PgValid_does; [apply quiet_clock| | |exact Hd].
  - cbn. unfold did_Defined, cid_Defined. split_and!; [done..|reflexivity || done].
  - assert (t = emptyTables) as ->; [|apply PgValid_empty].
    clear Hd. change (tables exampleConn) with emptyTables in Ht. induction Ht as [|t1 t2 t3 [n ->] _ IH]; auto.
Qed.

Definition examplePgSpace : DID := "s".
Lemma pg_registered_read_witness :
  ∃ at', (PgBlobRegistry.Get examplePgSpace "d" heldConn).1 =
     Ok {| BlobRegistry.Space := examplePgSpace; BlobRegistry.blob := exampleBlob; BlobRegistry.Cause := str_cid "c1";
           BlobRegistry.InsertedAt := at' |}.
Proof.
  destruct (pg_registered_read examplePgSpace exampleBlob (str_cid "c1") (str_cid "c2") exampleBlob exampleConn heldConn heldConn)
    as [Hg _]; try reflexivity.
  - vm_compute. split; [discriminate|reflexivity].
  - exact Hg.
Defined.
Lemma meanwhile_quiet {T} (t t' : T) : meanwhile t t' → t' = t.
Proof. induction 1 as [|t1 t2 t3 [n ->] _ ->]; done. Qed.
Definition exampleRecs : list BlobRegistry.Record_ :=
  [{| BlobRegistry.Space := examplePgSpace; BlobRegistry.blob := exampleBlob;
      BlobRegistry.Cause := str_cid "c1"; BlobRegistry.InsertedAt := 0 |}].
Lemma example_collect : (CollectM (PgBlobRegistry.List examplePgSpace) 3 heldConn).1 = Ok exampleRecs.
Proof. reflexivity. Qed.
Lemma pg_list_stable_witness :
  ∃ rows, Forall2 (λ r rec, PgBlobRegistry.scanRecord r = Ok rec) rows exampleRecs ∧
    StronglySorted (λ x y, ¬ textLe y.1.2 x.1.2) rows.
Proof.
  destruct (pg_list_stable examplePgSpace 3 heldConn
    (CollectM (PgBlobRegistry.List examplePgSpace) 3 heldConn).2 exampleRecs) as (rows & Hs & Ho & _).
  - intros t Ht. rewrite (meanwhile_quiet _ _ Ht). apply heldConn_valid.
  - rewrite <-example_collect. apply surjective_pairing.
  - exists rows. split; [exact Hs|exact Ho].
Defined.
Lemma pg_list_all_witness :
  ∃ recs, (CollectM (PgBlobRegistry.List examplePgSpace) 3 heldConn).1 = Ok recs ∧ len recs = 1%Z.
Proof.
  destruct (pg_list_all examplePgSpace 3 heldConn) as (recs & Hrecs & Hall).
  - apply quiet_quiet.
  - apply heldConn_valid.
  - vm_compute. auto.
  - exists recs. split; [exact Hrecs|]. apply Forall2_length in Hall. unfold len. rewrite <-Hall. reflexivity.
Defined.
End Witnesses.
