(* ===== verification/PgUsage.v ===== *)
(** * Usage over PostgreSQL

    The tables as the backend of the usage service: its reads are the listings
    and the counters of the stores, and what other connections commit between
    them is a sequence of whole transactions. *)
From S2P Require Export PgReading UsageLedger.

Section PgUsage.
Context `{CursorJSON} `{Commands} `{ErrorNames} `{Postgres} `{!Database Tables}.
Implicit Types (t : Tables) (space : DID).

(** What [GetSpace] reads off the tables. *)
Definition spaceRows t space : list (string * Z) :=
  (λ r, (r.1.2, r.2)) <$> selectWhere (λ r, r.1.1 = did_String space) (space_metrics t).
#[export] Instance pgUsage : UsageStores Tables := {|
  getSpaceTotals t space := PgMetrics.totalsOf (spaceRows t space);
  listSpaceDiffs t space after cfg :=
    listPure diffLe (PgSpaceDiff.listing space after) cfg (limitOf cfg) t;
  listUploadDiffs t space after cfg :=
    listPure diffLe (PgUploadDiff.listing space after) cfg (limitOf cfg) t;
|}.

(** The stores' calls, when the server answers, are these reads of the tables
    they see. *)
Lemma pgUsage_answers space after cfg (c : Conn Tables) :
  fault (T := Tables) (calls c) = None → fault (T := Tables) (S (calls c)) = None →
  (PgMetrics.GetSpace space c).1 = Ok (getSpaceTotals (seen c) space) ∧
  (PgSpaceDiff.List space after cfg c).1 = listSpaceDiffs (seen c) space after cfg ∧
  (PgUploadDiff.List space after cfg c).1 = listUploadDiffs (seen c) space after cfg.
Proof.
  intros Hf1 Hf2. split_and!; [|by apply listPage_listPure..].
  unfold PgMetrics.GetSpace. rewrite M_bind_step, orFail_step. unfold query. rewrite Hf1, Hf2.
  rewrite M_bind_step. unfold lift, reads, scanRows. cbn [fst snd].
  change (λ r : string * string * Z, (r.1.2, r.2)) with (λ r : string * string * Z, (r.1.2, r.2)).
  fold (spaceRows (seen c) space).
  assert (mapM (M := outcome) Ok (spaceRows (seen c) space) = Ok (spaceRows (seen c) space)) as ->; [|done].
  apply mapM_Ok. by induction (spaceRows (seen c) space); constructor.
Qed.

(** A total is the row's value. *)
Lemma totalsOf_total (rows : list (string * Z)) k :
  NoDup rows.*1 →
  Metrics.total (PgMetrics.totalsOf rows) k =
  match list_find (λ r, r.1 = k) rows with Some (_, r) => uint64 r.2 | None => 0%Z end.
Proof.
  unfold PgMetrics.totalsOf. intros Hnd.
  assert (∀ m, Metrics.total (foldl (λ m r, <[r.1 := uint64 r.2]> m) m rows) k =
    match list_find (λ r, r.1 = k) rows with
    | Some (_, r) => uint64 r.2 | None => Metrics.total m k end) as ->; [|].
  2: { unfold Metrics.total. by rewrite lookup_empty. }
  induction rows as [|[k' v] rows IH]; intros m; [done|]. cbn in Hnd. apply NoDup_cons in Hnd as [Hni Hnd].
  cbn [foldl list_find fst snd]. rewrite IH by done. destruct (decide (k' = k)) as [->|Hne].
  - cbn. assert (list_find (λ r : string * Z, r.1 = k) rows = None) as ->.
    { apply list_find_None, Forall_forall. intros r Hr <-. apply Hni. by apply list_elem_of_fmap_2. }
    rewrite total_insert. by rewrite decide_True.
  - destruct (list_find _ rows) as [[i r]|]; cbn; [done|]. rewrite total_insert. by rewrite decide_False.
Qed.
Lemma pgUsage_total t space k :
  Metrics.total (getSpaceTotals t space) k = uint64 (pgTotal t (did_String space) k).
Proof.
  cbn [getSpaceTotals pgUsage]. rewrite totalsOf_total.
  2: { unfold spaceRows. rewrite <-list_fmap_compose.
       apply (NoDup_selectWhere (λ r : (string * string) * Z, r.1.2)).
       intros [[s1 k1] v1] [[s2 k2] v2]; cbn. congruence. }
  unfold pgTotal. destruct (list_find _ _) as [[i r]|] eqn:E.
  - apply list_find_Some in E as (Hi & Hk & _). apply list_elem_of_lookup_2 in Hi.
    unfold spaceRows in Hi. apply list_elem_of_fmap in Hi as ([[s k'] v] & -> & [Hs Hl]%elem_of_selectWhere).
    cbn in *. subst. by rewrite Hl.
  - apply list_find_None in E. destruct (space_metrics t !! (did_String space, k)) as [v|] eqn:El; [|done].
    exfalso. rewrite Forall_forall in E. apply (E (k, v)); [|done]. unfold spaceRows.
    apply list_elem_of_fmap. exists ((did_String space, k), v). split; [done|]. by apply elem_of_selectWhere.
Qed.

(** ** The tables evolve as the service asks *)
Lemma selectWhere_perm {K R} `{Countable K} (P : K * R → Prop) `{∀ x, Decision (P x)} (m m' : gmap K R) :
  (∀ k r, P (k, r) → m !! k = Some r ↔ m' !! k = Some r) → selectWhere P m ≡ₚ selectWhere P m'.
Proof.
  intros Hm. apply NoDup_Permutation.
  - apply NoDup_filter, NoDup_map_to_list.
  - apply NoDup_filter, NoDup_map_to_list.
  - intros [k r]. rewrite !elem_of_selectWhere. naive_solver.
Qed.
(** The rows of a space's two logs. *)
Definition sameRows s t t' : Prop := ∀ (k : DiffKey) r, k.1.1 = s →
  (space_diff t !! k = Some r ↔ space_diff t' !! k = Some r) ∧
  (upload_diff t !! k = Some r ↔ upload_diff t' !! k = Some r).
#[export] Instance sameRows_preorder s : PreOrder (sameRows s).
Proof. split; [done|]. intros t1 t2 t3 H12 H23 k r Hk. specialize (H12 k r Hk). specialize (H23 k r Hk). tauto. Qed.
Lemma sameRows_logs space t t' :
  sameRows (did_String space) t t' → Usage.sameLogs space t t'.
Proof.
  intros Hr after cfg. split.
  - apply (listPure_select diffLe _ PgValid). apply selectWhere_perm. intros k r Hk. by apply Hr.
  - apply (listPure_select diffLe _ PgValid). apply selectWhere_perm. intros k r Hk. by apply Hr.
Qed.

(** Totals only increase, and a space whose totals stayed has the same logs. *)
Definition movedOn s t t' : Prop :=
  (∀ k, pgTotal t s k ≤ pgTotal t' s k)%Z ∧
  ((∀ k, k ∈ [BlobAddSizeTotalMetric; BlobRemoveSizeTotalMetric;
              UploadAddTotalMetric; UploadRemoveTotalMetric] → pgTotal t s k = pgTotal t' s k) →
   sameRows s t t').

Lemma movedOn_bytes s sp cause delta inc t t1 t' :
  (∀ k v, inc !! k = Some v → 0 ≤ v ≤ max_int64)%Z →
  (∃ k, k ∈ [BlobAddSizeTotalMetric; BlobRemoveSizeTotalMetric] ∧ 0 < int64 (Metrics.total inc k))%Z →
  t1 = set_blob_registry (blob_registry t1) t →
  bookedBytes sp cause delta inc t1 t' → movedOn s t t'.
Proof.
  intros Hinc (k & Hk & Hpos) Hf (n & now & Hn & [Hf' Ht _ _]).
  assert (∀ s k, pgTotal t1 s k = pgTotal t s k) as Hsame by (by rewrite Hf). split.
  - intros k'. pose proof (inc_nonneg inc k' Hinc). rewrite Ht.
    change (pgTotal (set_space_diff _ t1) s k') with (pgTotal t1 s k'). rewrite Hsame. case_decide; lia.
  - intros Heq k' r Hk'. specialize (Heq k ltac:(set_solver)). rewrite Ht in Heq.
    change (pgTotal (set_space_diff _ t1) s k) with (pgTotal t1 s k) in Heq. rewrite Hsame in Heq.
    rewrite Hf', Hf. cbn. split; [|done]. rewrite lookup_insert_ne; [done|].
    intros <-. cbn in Hk'. rewrite decide_True in Heq by done. lia.
Qed.
Lemma movedOn_upload s sp cause delta metric t t1 t' :
  metric ∈ [UploadAddTotalMetric; UploadRemoveTotalMetric] →
  t1 = set_upload_shard (upload_shard t1) (set_upload (upload t1) t) →
  bookedUpload sp cause delta {[metric := 1%Z]} t1 t' → movedOn s t t'.
Proof.
  intros Hm Hf Hbk.
  assert (∀ s k, pgTotal t1 s k = pgTotal t s k) as Hsame by (by rewrite Hf).
  destruct Hbk as (n & now & [[_ ->]|[Hn [Hf' Ht _ _]]]).
  { split; [intros; by rewrite Hsame|]. intros _ k r _. rewrite Hf. done. }
  assert (∀ k v, ({[metric := 1%Z]} : gmap string Z) !! k = Some v → 0 ≤ v ≤ max_int64)%Z as Hinc.
  { intros k v [<- <-]%lookup_singleton_Some. done. }
  split.
  - intros k'. pose proof (inc_nonneg _ k' Hinc). rewrite Ht.
    change (pgTotal (set_upload_diff _ t1) s k') with (pgTotal t1 s k'). rewrite Hsame. case_decide; lia.
  - intros Heq k' r Hk'. specialize (Heq metric ltac:(set_solver)). rewrite Ht in Heq.
    change (pgTotal (set_upload_diff _ t1) s metric) with (pgTotal t1 s metric) in Heq. rewrite Hsame in Heq.
    rewrite Hf', Hf. cbn. split; [done|]. rewrite lookup_insert_ne; [done|].
    intros <-. cbn in Hk'. rewrite decide_True in Heq by done.
    unfold Metrics.total in Heq. rewrite lookup_singleton_eq in Heq.
    change (int64 (default 0%Z (Some 1%Z))) with 1%Z in Heq. lia.
Qed.
(** A size that moves a counter, and fits its column. *)
Definition positive (size : Z) : Prop := (0 < size ≤ max_int64)%Z.
Lemma positive_accountable size : positive size → accountable size.
Proof. unfold positive, accountable. lia. Qed.
Lemma commit_movedOn s t t' : pgCommit positive t t' → movedOn s t t'.
Proof.
  intros [space b cause t1 t2 Hsz (now & Hn & Hr)
    |space digest cause size t1 t2 Hsz ([r Hr] & Hd)|space root index shards cause t1 t2 (now & Hu)
    |space root cause t1 t2 [_ Hr]]; unfold positive in *.
  - eapply movedOn_bytes; [| | |exact Hr]; [|exists BlobAddSizeTotalMetric; split; [by left|]|done].
    + intros k v. by apply addInc_range, positive_accountable.
    + destruct (addInc_totals b) as (_ & -> & _).
      rewrite int64_size by by apply positive_accountable. apply Hsz.
  - eapply movedOn_bytes; [| | |exact Hd]; [|exists BlobRemoveSizeTotalMetric; split; [right; by left|]|done].
    + intros k v. by apply removeInc_range, positive_accountable.
    + destruct (removeInc_totals {| Digest := digest; BlobSize := size |}) as (_ & _ & _ & -> & _).
      cbn. rewrite int64_size by by apply positive_accountable. apply Hsz.
  - destruct (upload t1 !! _) as [row|]; cbn in Hu.
    + rewrite Hu. split; [done|]. by intros _ k r _.
    + eapply movedOn_upload; [| |exact Hu]; [by left|done].
  - eapply movedOn_upload; [| |exact Hr]; [right; by left|done].
Qed.
Lemma commits_movedOn s t t' : rtc (pgCommit positive) t t' → movedOn s t t'.
Proof.
  induction 1 as [t|t1 t2 t3 Hc Hr IH]; [split; done|].
  destruct (commit_movedOn s t1 t2 Hc) as [Hle1 Hsame1]. destruct IH as [Hle2 Hsame2]. split.
  - intros k. specialize (Hle1 k). specialize (Hle2 k). lia.
  - intros Heq. etrans; [apply Hsame1|apply Hsame2]; intros k Hk; specialize (Heq k Hk);
      specialize (Hle1 k); specialize (Hle2 k); lia.
Qed.
Lemma pg_evolves space t t' :
  PgMetered t → rtc (pgCommit positive) t t' → Usage.evolves space t t'.
Proof.
  intros Hbk Hr. destruct (commits_movedOn (did_String space) t t' Hr) as [Hle Hsame].
  pose proof (PgMetered_commits _ t t' positive_accountable Hbk Hr) as Hbk'.
  assert (∀ t k, PgMetered t → uint64 (pgTotal t (did_String space) k) = pgTotal t (did_String space) k) as Hid.
  { intros t0 k H0'. apply uint64_id. pose proof (pg_range t0 H0' (did_String space) k).
    unfold is_uint64, max_int64 in *. lia. }
  split.
  - intros m _. rewrite !pgUsage_total, !Hid by done. apply Hle.
  - intros Heq. apply sameRows_logs, Hsame. intros k Hk.
    unfold Usage.sameTotals in Heq. rewrite Usage.settled_true in Heq. specialize (Heq k Hk).
    by rewrite !pgUsage_total, !Hid in Heq.
Qed.

(** ** What a reading is of the tables *)
Lemma stored_of_tables t space : PgAgree t → PgMetered t →
  (∀ n, Usage.storedBytes (getSpaceTotals t space) = Ok n → n = pgBytes t (did_String space)) ∧
  (∀ n, Usage.storedUploads (getSpaceTotals t space) = Ok n → n = pgUploads t (did_String space)).
Proof.
  intros Ha Hbk. set (s := did_String space).
  assert (∀ k, uint64 (pgTotal t s k) = pgTotal t s k) as Hid.
  { intros k. apply uint64_id. pose proof (pg_range t Hbk s k). unfold is_uint64, max_int64 in *. lia. }
  pose proof (pg_rows t Hbk s) as Htot. pose proof (pg_uploads t Ha s) as Hup.
  assert (∀ k, 0 ≤ pgTotal t s k ≤ max_int64)%Z as Hr by apply Hbk.
  split.
  - intros n. unfold Usage.storedBytes. rewrite !pgUsage_total. fold s. rewrite !Hid.
    pose proof (Hr BlobAddSizeTotalMetric). pose proof (Hr BlobRemoveSizeTotalMetric).
    rewrite <-Htot.
    destruct (Z.ltb_spec (pgTotal t s BlobAddSizeTotalMetric) (pgTotal t s BlobRemoveSizeTotalMetric)); [done|].
    rewrite (uint64_id (pgBytes t s)) by (unfold is_uint64, max_int64 in *; lia). cbn [orb].
    destruct (_ <? _)%Z; [done|]. intros [= <-]. apply int64_size. unfold accountable, max_int64 in *. lia.
  - intros n. unfold Usage.storedUploads. rewrite !pgUsage_total. fold s. rewrite !Hid.
    pose proof (Hr UploadAddTotalMetric). pose proof (Hr UploadRemoveTotalMetric). rewrite Hup.
    destruct (Z.ltb_spec (pgTotal t s UploadAddTotalMetric) (pgTotal t s UploadRemoveTotalMetric)); [done|].
    rewrite (uint64_id (pgUploads t s)) by (unfold is_uint64, max_int64 in *; lia). cbn [orb].
    destruct (_ <? _)%Z; [done|]. intros [= <-]. apply int64_size. unfold accountable, max_int64 in *. lia.
Qed.
Definition diffRows (l : Listing Tables (DiffKey * DiffRow) (Z * string) DifferenceRecord) t :
  list (DiffKey * DiffRow) := keptRows diffLe l (l_first l) t.
Lemma diffRows_scan (l : Listing Tables (DiffKey * DiffRow) (Z * string) DifferenceRecord) t :
  l_scan l = PgSpaceDiff.scanRow →
  (∀ r, r ∈ l_select l t → validDiff r.1) →
  ∃ rows, Forall2 (λ r rec, PgSpaceDiff.scanRow r = Ok rec) (diffRows l t) rows.
Proof.
  intros Hs Hv. assert (∀ r, r ∈ diffRows l t → validDiff r.1) as Hall.
  { intros r [_ Hr]%elem_of_keptRows. auto. }
  induction (diffRows l t) as [|[k row] rs IH]; [by exists []|].
  destruct (scanRow_valid k row) as (rec & Hrec & _); [apply (Hall (k, row)); by left|].
  destruct IH as [rows ?]; [intros; apply Hall; by right|]. exists (rec :: rows). by constructor.
Qed.
Lemma pg_Pages (l : Listing Tables (DiffKey * DiffRow) (Z * string) DifferenceRecord) t rows :
  ListingOk diffLe l PgValid → l_scan l = PgSpaceDiff.scanRow → PgValid t →
  Forall2 (λ r rec, PgSpaceDiff.scanRow r = Ok rec) (diffRows l t) rows →
  Pages (λ cfg, listPure diffLe l cfg (limitOf cfg) t) None rows.
Proof.
  intros Hok Hs Hv Hrows. eapply (Pages_ext (λ cfg, listPure diffLe l cfg (Z.of_nat 1000) t)); [done|].
  eapply (listPure_Pages diffLe l PgValid 1000); try done.
  - pose proof makeslice_thousand. lia.
  - by rewrite Hs.
Qed.

(** C15: over PostgreSQL, when the counters start out in agreement with the logs, as
    on an empty database, and other connections commit transactions of the registry
    and of the upload store between the reads, about blobs of 1 to 2^63-1 bytes, a
    series that [Sample] returns, whichever reads failed, is that of one instant of
    the call: its anchors are the bytes and the uploads the two logs summed to at that
    instant, and the rows it replays are those the logs then held from a second before
    the range on, in order. That sum is the bytes the registry held if it was so at the start and
    every removal committed since counted the size of the entry it deleted; one that
    counts a size read before another connection replaced the entry
    ([Deregister_stale]) leaves log, counters and series agreeing with each other and
    not with the registry. *)
Theorem Sample_postgres (world : nat → Tables) (down : nat → option error) (space : DID)
    (now from to window : Z) (t t' : nat) (ser : Usage.Series) :
  PgAgree (world 0) → PgMetered (world 0) → (∀ i, PgValid (world i)) →
  (∀ i, rtc (pgCommit positive) (world i) (world (S i))) →
  Usage.sample world down space now from to window t = (Ok ser, t') →
  (from < Usage.To ser)%Z →
  ∃ u rows urows, t ≤ u < t' ∧
  Forall2 (λ r rec, PgSpaceDiff.scanRow r = Ok rec)
    (diffRows (PgSpaceDiff.listing space (from - Second)) (world u)) rows ∧
  Forall2 (λ r rec, PgSpaceDiff.scanRow r = Ok rec)
    (diffRows (PgUploadDiff.listing space (from - Second)) (world u)) urows ∧
  ((len rows ≤ Usage.maxScanRows)%Z → (len urows ≤ Usage.maxScanRows)%Z →
   Usage.Samples ser =
     tab (Z.to_nat (Usage.bucketCount (Usage.To ser - from) window))
       (Usage.sampleAt from (Usage.To ser) window
         {| Usage.storedBytes_ := pgBytes (world u) (did_String space);
            Usage.uploads_ := pgUploads (world u) (did_String space);
            Usage.byteRows_ := rows; Usage.uploadRows_ := urows |})) ∧
  (PgBooks (world 0) → (∀ i, i < u → rtc pgChange (world i) (world (S i))) →
   pgBytes (world u) (did_String space) = pgHeld (world u) (did_String space)).
Proof.
  intros Ha0 Hm0 Hv Hch Hs Hft.
  assert (∀ i, PgAgree (world i)) as Ha.
  { induction i as [|i IH]; [done|]. by eapply PgAgree_commits. }
  assert (∀ i, PgMetered (world i)) as Hm.
  { induction i as [|i IH]; [done|]. by eapply (PgMetered_commits positive), Hch; [apply positive_accountable|]. }
  destruct (Usage.sample_inv world down space now from to window t ser t' Hs)
    as (_ & _ & _ & _ & _ & [(He & _)|(_ & _ & r & Hread & Hsam)]); [lia|].
  unfold Usage.read, mbind, M_bind, wrap, Usage.call in Hread.
  destruct (down t); [done|].
  destruct (Usage.readLoop_describes world down space _ from t (S t) r t'
    (λ i, pg_evolves space _ _ (Hm i) (Hch i)) ltac:(lia) Hread) as (u & Hu & Hd).
  destruct (diffRows_scan (PgSpaceDiff.listing space (from - Second)) (world u)) as [rows Hrows]; [done| |].
  { intros [k row] [_ Hk]%elem_of_selectWhere. apply (valid_space_diff _ (Hv u)). by eexists. }
  destruct (diffRows_scan (PgUploadDiff.listing space (from - Second)) (world u)) as [urows Hurows]; [done| |].
  { intros [k row] [_ Hk]%elem_of_selectWhere. apply (valid_upload_diff _ (Hv u)). by eexists. }
  exists u, rows, urows. split_and!; [lia|lia|done|done| |].
  - intros Hl Hul. rewrite Hsam.
    destruct (stored_of_tables (world u) space (Ha u) (Hm u)) as [Hb Hup]. destruct Hd as [Hdb Hdu Hdr Hdur].
    apply Hb in Hdb. apply Hup in Hdu.
    specialize (Hdr rows (pg_Pages (PgSpaceDiff.listing space (from - Second)) _ rows _ eq_refl (Hv u) Hrows) Hl).
    specialize (Hdur urows (pg_Pages (PgUploadDiff.listing space (from - Second)) _ urows _ eq_refl (Hv u) Hurows) Hul).
    destruct r. cbn in *. by subst.
  - intros Hbk0 Hex. apply pg_bytes. clear -Hbk0 Hex.
    induction u as [|u IH]; [done|]. eapply PgBooks_changes, Hex; [|lia]. apply IH. intros i Hi. apply Hex. lia.
Qed.
End PgUsage.

(** ** Witnesses *)
Section Witnesses.
#[local] Existing Instance StrIds.
#[local] Existing Instance NumberJSON.
#[local] Existing Instance StrCommands.
#[local] Existing Instance StrNames.
#[local] Existing Instance plainPostgres.
#[local] Existing Instance quietDatabase.

Definition examplePgSeries : Usage.Series :=
  match (Usage.sample (λ _, tables heldConn) (λ _, None) examplePgSpace 100000 (-50) 50000 25000 0).1 with
  | Ok ser => ser
  | _ => {| Usage.From := 0; Usage.To := 0; Usage.Window := 0; Usage.Samples := [] |}
  end.
Lemma examplePg_sample :
  Usage.sample (λ _, tables heldConn) (λ _, None) examplePgSpace 100000 (-50) 50000 25000 0 =
    (Ok examplePgSeries, 4) ∧
  Usage.BytesStored <$> Usage.Samples examplePgSeries = [7%Z; 7%Z; 7%Z].
Proof. split; vm_compute; reflexivity. Qed.
Lemma Sample_postgres_witness :
  ∃ u rows, 0 ≤ u < 4 ∧
  Forall2 (λ r rec, PgSpaceDiff.scanRow r = Ok rec)
    (diffRows (PgSpaceDiff.listing examplePgSpace (-50 - Second)) (tables heldConn)) rows ∧
  pgBytes (tables heldConn) (did_String examplePgSpace) = pgHeld (tables heldConn) (did_String examplePgSpace).
Proof.
  destruct (Sample_postgres (λ _, tables heldConn) (λ _, None) examplePgSpace 100000 (-50) 50000 25000 0 4
    examplePgSeries) as (u & rows & urows & Hu & Hrows & _ & _ & Hheld).
  - apply heldConn_books.
  - apply heldConn_books.
  - intros _. apply heldConn_valid.
  - intros _. apply rtc_refl.
  - apply examplePg_sample.
  - vm_compute. reflexivity.
  - exists u, rows. split; [exact Hu|split; [exact Hrows|]].
    apply Hheld; [apply heldConn_books|intros i _; apply rtc_refl].
Defined.
End Witnesses.
