(* ===== verification/PgProviders.v ===== *)
(** * Storage providers and routing policies in PostgreSQL

    [pkg/store/storage_provider/postgres] and [pkg/store/routing_policy/postgres].
    The provider store keeps the promise of [StorageProvider.Reads], so that what
    is proved of routing holds over it too. *)
From S2P Require Export PgReading StorageProvider RoutingPolicy.

(** What the provider store needs of the encoding of containers and of [net/url]. *)
Class ProviderCodec `{Ids} `{Containers} := {
  container_EncodeRaw : Container → outcome string;
  container_DecodeRaw : string → outcome Container;
  container_Raw c b : container_EncodeRaw c = Ok b → b ≠ "" ∧ container_DecodeRaw b = Ok c;
  (** the nil container of a row without proofs *)
  container_nil : Container;
  url_Parse : string → outcome string;
}.

Record ProviderRow := {
  p_endpoint : string; p_weight : Z; p_replication_weight : option Z; p_proofs : option string;
  p_inserted_at : Z; p_updated_at : Z }.

Module PgStorageProvider.
Section PgStorageProvider.
Context `{ProviderCodec} `{Postgres}.

(** provider -> row *)
Definition Table : Type := gmap string ProviderRow.
Context `{!Database Table}.

(** The two weights are INTEGER columns. *)
Definition weightsFit (weight : Z) (replicationWeight : option Z) : bool :=
  is_integer weight && match replicationWeight with Some w => is_integer w | None => true end.
Definition encodeWeight : dbError := Broken "unable to encode: is greater than maximum value for int4".

Definition Add (id : DID) (endpoint : string) (weight : Z) (replicationWeight : option Z)
    (proofs : option Container) : M (Conn Table) unit :=
  match proofs with
  | None => fail (Errorf "missing proofs")
  | Some proofs =>
      proofBytes ← lift (owrap "encoding proofs" (container_EncodeRaw proofs));
      affected ← orFail (wrapped "adding storage provider") (run (λ now t,
        if weightsFit weight replicationWeight then
          inl (insertOrNothing (did_String id)
            {| p_endpoint := endpoint; p_weight := weight; p_replication_weight := replicationWeight;
               p_proofs := Some proofBytes; p_inserted_at := now; p_updated_at := now |} t)
        else inr encodeWeight));
      if affected : bool then mret tt else fail ErrStorageProviderExists
  end.

(** [UPDATE ... WHERE provider = $1], which must affect a row. *)
Definition update (ctx : string) (id : DID) (stmt : Z → ProviderRow → ProviderRow) (fits : bool)
    : M (Conn Table) unit :=
  affected ← orFail (wrapped ctx) (run (λ now t,
    if fits then inl (updateRow (did_String id) (stmt now) t) else inr encodeWeight));
  if (affected =? 0)%Z then fail ErrStorageProviderNotFound else mret tt.
Definition SetWeights (id : DID) (weight : Z) (replicationWeight : option Z) : M (Conn Table) unit :=
  update "setting storage provider weights" id (λ now r,
    {| p_endpoint := p_endpoint r; p_weight := weight; p_replication_weight := replicationWeight;
       p_proofs := p_proofs r; p_inserted_at := p_inserted_at r; p_updated_at := now |})
    (weightsFit weight replicationWeight).
Definition SetProofs (id : DID) (proofs : option Container) : M (Conn Table) unit :=
  match proofs with
  | None => fail (Errorf "missing proofs")
  | Some proofs =>
      proofBytes ← lift (owrap "encoding proofs" (container_EncodeRaw proofs));
      update "setting storage provider proofs" id (λ now r,
        {| p_endpoint := p_endpoint r; p_weight := p_weight r;
           p_replication_weight := p_replication_weight r; p_proofs := Some proofBytes;
           p_inserted_at := p_inserted_at r; p_updated_at := now |}) true
  end.

Definition scanRecord (r : string * ProviderRow) : outcome StorageProvider.Record_ :=
  let '(providerStr, row) := r in
  providerDID ← owrap "parsing provider DID" (did_Parse providerStr);
  endpoint ← owrap "parsing endpoint URL" (url_Parse (p_endpoint row));
  proofs ← match p_proofs row with
           | Some b => if bool_decide (b = "") then Ok container_nil
                       else owrap "decoding proofs" (container_DecodeRaw b)
           | None => Ok container_nil
           end;
  Ok {| StorageProvider.Provider := providerDID; StorageProvider.Endpoint := endpoint;
        StorageProvider.Weight := p_weight row;
        StorageProvider.ReplicationWeight := p_replication_weight row;
        StorageProvider.Proofs := proofs; StorageProvider.InsertedAt := p_inserted_at row;
        StorageProvider.UpdatedAt := p_updated_at row |}.

Definition Get (providerID : DID) : M (Conn Table) StorageProvider.Record_ :=
  r ← queryRow (λ t, t !! did_String providerID);
  match r with
  | inl row => lift (owrap "getting storage provider" (scanRecord (did_String providerID, row)))
  | inr NoRows => fail ErrStorageProviderNotFound
  | inr e => fail (wrapped "getting storage provider" e)
  end.
Definition Delete (providerID : DID) : M (Conn Table) unit :=
  affected ← orFail (wrapped "deleting storage provider")
    (run (λ _ t, inl (deleteRow (did_String providerID) t)));
  if (affected =? 0)%Z then fail ErrStorageProviderNotFound else mret tt.

Definition listing : Listing Table (string * ProviderRow) string StorageProvider.Record_ := {|
  l_select t := map_to_list t;
  l_key r := r.1;
  l_first _ := true;
  l_resume := Ok;
  l_scan := scanRecord;
  l_cursor rec := did_String (StorageProvider.Provider rec);
  l_querying := "listing storage providers";
  l_iterating := "listing storage providers";
|}.
Definition List (cfg : PaginationConfig) : M (Conn Table) (Page StorageProvider.Record_) :=
  listPage textLe listing cfg (limitOf cfg).

(** ** Every row reads back *)
Definition readable (k : string) (r : ProviderRow) : Prop :=
  isDID k ∧ (∃ u, url_Parse (p_endpoint r) = Ok u) ∧
  ∃ b c, p_proofs r = Some b ∧ b ≠ "" ∧ container_DecodeRaw b = Ok c.
Definition valid (t : Table) : Prop := map_Forall readable t.

Lemma provider_readable k r :
  readable k r → ∃ rec, scanRecord (k, r) = Ok rec ∧ did_String (StorageProvider.Provider rec) = k.
Proof.
  intros (Hk & [u Hu] & b & c & Hp & Hne & Hb). destruct (isDID_parse _ Hk) as (d & Hd & <-).
  unfold scanRecord. rewrite Hd. cbn. rewrite Hu. cbn. rewrite Hp, bool_decide_eq_false_2 by done.
  rewrite Hb. cbn. eauto.
Qed.
#[export] Instance listing_ok : ListingOk textLe listing valid.
Proof.
  split; [|intros t [k row] rec Hv Hin Hs|done].
  - intros t. apply NoDup_fst_map_to_list.
  - apply elem_of_map_to_list in Hin. apply Hv in Hin.
    destruct (provider_readable k row Hin) as (rec' & Hs' & Hk).
    change (scanRecord (k, row) = Ok rec) in Hs. rewrite Hs in Hs'. injection Hs' as <-. cbn. by rewrite Hk.
Qed.

Lemma keeps_update ctx id stmt fits (P : Table → Prop) `{!Stable P} :
  (∀ now t r, P t → t !! did_String id = Some r → P (<[did_String id := stmt now r]> t)) →
  keeps P (update ctx id stmt fits).
Proof.
  intros Hs. apply keeps_bind.
  - apply keeps_orFail, keeps_run; [done|]. intros now t n t' Ht. destruct fits; [|done].
    intros [= Hu]. apply updateRow_inv in Hu as [(_ & -> & _)|(_ & r & Hr & ->)]; eauto.
  - intros n. destruct (n =? 0)%Z; [apply keeps_fail|apply keeps_ret].
Qed.
(** Whatever is called and whatever fails, rows go on reading back. *)
Lemma valid_Add `{!Stable valid} id endpoint w rw proofs :
  did_Defined id → (∃ u, url_Parse endpoint = Ok u) → keeps valid (Add id endpoint w rw proofs).
Proof.
  intros Hid Hu. unfold Add. destruct proofs as [c|]; [|apply keeps_fail].
  apply keeps_lift_bind. intros b Hb. unfold owrap in Hb.
  destruct (container_EncodeRaw c) as [b'| | |] eqn:Eb; try done. injection Hb as ->.
  apply container_Raw in Eb as [Hne Hd]. apply keeps_bind.
  - apply keeps_orFail, keeps_run; [done|]. intros now t a t' Ht. destruct (weightsFit w rw); [|done].
    intros [= Hi]. apply insertOrNothing_inv in Hi as [(_ & -> & _)|(_ & -> & _)]; [done|].
    apply map_Forall_insert_2; [|done]. split_and!; [by exists id|done|]. by exists b, c.
  - intros []; [apply keeps_ret|apply keeps_fail].
Qed.
Lemma valid_SetWeights `{!Stable valid} id w rw : keeps valid (SetWeights id w rw).
Proof.
  apply keeps_update; [done|]. intros now t r Ht Hr. apply map_Forall_insert_2; [|done].
  apply (Ht _ _ Hr).
Qed.
Lemma valid_SetProofs `{!Stable valid} id proofs : keeps valid (SetProofs id proofs).
Proof.
  unfold SetProofs. destruct proofs as [c|]; [|apply keeps_fail].
  apply keeps_lift_bind. intros b Hb. unfold owrap in Hb.
  destruct (container_EncodeRaw c) as [b'| | |] eqn:Eb; try done. injection Hb as ->.
  apply container_Raw in Eb as [Hne Hd]. apply keeps_update; [done|].
  intros now t r Ht Hr. apply map_Forall_insert_2; [|done].
  destruct (Ht _ _ Hr) as (Hk & Hu & _). split_and!; [done..|]. by exists b, c.
Qed.
Lemma valid_Delete `{!Stable valid} id : keeps valid (Delete id).
Proof.
  apply keeps_bind.
  - apply keeps_orFail, keeps_run; [done|]. intros now t n t' Ht.
    intros [= [-> _]%deleteRow_inv]. by apply map_Forall_delete.
  - intros n. destruct (n =? 0)%Z; [apply keeps_fail|apply keeps_ret].
Qed.

(** ** The interface routing is proved against *)
Definition Tables_ : Type := { t : Table | valid t }.
Definition recordsOf (t : Tables_) : list StorageProvider.Record_ :=
  omap (λ r, match scanRecord r with Ok rec => Some rec | _ => None end) (rowsIn textLe listing (`t)).
Lemma recordsOf_scan (t : Tables_) :
  Forall2 (λ r rec, scanRecord r = Ok rec ∧ did_String (StorageProvider.Provider rec) = r.1)
    (rowsIn textLe listing (`t)) (recordsOf t).
Proof.
  unfold recordsOf. assert (∀ r, r ∈ rowsIn textLe listing (`t) → readable r.1 r.2) as Hr.
  { intros [k r] Hin. unfold rowsIn in Hin. rewrite orderBy_perm in Hin.
    apply elem_of_map_to_list in Hin. by apply (proj2_sig t). }
  induction (rowsIn textLe listing (`t)) as [|[k r] rows IH]; [constructor|].
  destruct (provider_readable k r) as (rec & Hs & Hk); [apply (Hr (k, r)); by left|].
  cbn [omap list_omap]. rewrite Hs. constructor; [done|]. apply IH. intros. apply Hr. by right.
Qed.
Lemma recordsOf_keys (t : Tables_) :
  did_String <$> (StorageProvider.Provider <$> recordsOf t) = (rowsIn textLe listing (`t)).*1.
Proof.
  pose proof (recordsOf_scan t) as Hs. induction Hs as [|[k r] rec rows recs [_ Hk] _ IH]; [done|].
  cbn in *. by rewrite Hk, IH.
Qed.
Lemma recordsOf_NoDup t : NoDup (StorageProvider.Provider <$> recordsOf t).
Proof.
  apply (NoDup_fmap_1 did_String). rewrite recordsOf_keys.
  apply (rowsIn_NoDup textLe listing valid).
Qed.
(** [Get], when the server answers, as a read of the table. *)
Definition getIn (t : Table) (providerID : DID) : outcome StorageProvider.Record_ :=
  match t !! did_String providerID with
  | Some row => owrap "getting storage provider" (scanRecord (did_String providerID, row))
  | None => Err ErrStorageProviderNotFound
  end.
Lemma Get_quiet providerID (c : Conn Table) :
  fault (T := Table) (calls c) = None → (Get providerID c).1 = getIn (seen c) providerID.
Proof.
  intros Hf. unfold Get, getIn. rewrite M_bind_step. unfold queryRow. rewrite run_quiet by done.
  by destruct (seen c !! did_String providerID).
Qed.
Lemma getIn_spec (t : Tables_) d :
  getIn (`t) d = match findFunc (λ r, bool_decide (StorageProvider.Provider r = d)) (recordsOf t) with
                 | Some r => Ok r
                 | None => Err ErrStorageProviderNotFound
                 end.
Proof.
  pose proof (recordsOf_scan t) as Hs. unfold getIn. destruct (`t !! did_String d) as [row|] eqn:El.
  - assert ((did_String d, row) ∈ rowsIn textLe listing (`t)) as [i Hi]%list_elem_of_lookup.
    { unfold rowsIn. rewrite orderBy_perm. by apply elem_of_map_to_list. }
    destruct (Forall2_lookup_l _ _ _ _ _ Hs Hi) as (rec & Hrec & Hscan & Hk). cbn in Hk.
    apply (inj did_String) in Hk. rewrite Hscan. cbn.
    destruct (findFunc _ _) as [rec'|] eqn:Ef.
    + apply findFunc_Some in Ef as [Hin Heq]. apply bool_decide_eq_true in Heq. f_equal.
      eapply (NoDup_key_inj StorageProvider.Provider); [apply recordsOf_NoDup|by eapply list_elem_of_lookup_2|done|congruence].
    + pose proof (proj1 (findFunc_None _ _) Ef rec) as Hn. apply list_elem_of_lookup_2 in Hrec.
      apply Hn in Hrec. by apply bool_decide_eq_false in Hrec.
  - destruct (findFunc _ _) as [rec|] eqn:Ef; [|done]. exfalso.
    apply findFunc_Some in Ef as [[i Hi]%list_elem_of_lookup Heq]. apply bool_decide_eq_true in Heq.
    destruct (Forall2_lookup_r _ _ _ _ _ Hs Hi) as ([k row] & Hrow & _ & Hk). cbn in Hk.
    apply list_elem_of_lookup_2 in Hrow. unfold rowsIn in Hrow. rewrite orderBy_perm in Hrow.
    apply elem_of_map_to_list in Hrow. cbn in Hrow. rewrite <-Heq, Hk in El. unfold Table in *. cbn in Hrow. rewrite El in Hrow. done.
Qed.
Lemma listIn_Pages (t : Tables_) :
  Pages (λ cfg, listPure textLe listing cfg (limitOf cfg) (`t)) None (recordsOf t).
Proof.
  eapply (Pages_ext (λ cfg, listPure textLe listing cfg (Z.of_nat 1000) (`t))); [done|].
  eapply (listPure_Pages textLe listing valid 1000); try done.
  - apply (proj2_sig t).
  - pose proof makeslice_thousand. lia.
  - unfold keptRows. rewrite filter_all by by apply Forall_forall.
    eapply Forall2_impl; [apply recordsOf_scan|]. by intros r rec [? _].
Qed.
#[export] Instance pgReads : StorageProvider.Reads Tables_ := {|
  StorageProvider.sp_Get t := getIn (`t);
  StorageProvider.sp_List t cfg := listPure textLe listing cfg (limitOf cfg) (`t);
  StorageProvider.listing := recordsOf;
  StorageProvider.listing_NoDup := recordsOf_NoDup;
  StorageProvider.sp_Get_spec := getIn_spec;
  StorageProvider.sp_List_Pages := listIn_Pages;
|}.
End PgStorageProvider.
End PgStorageProvider.

(** ** Routing policies *)
Record PolicyRow := {
  rp_candidates : list string; rp_cause : string; rp_inserted_at : Z; rp_updated_at : Z }.
Record SpaceRow := {
  sr_policy : string; sr_cause : string; sr_inserted_at : Z; sr_updated_at : Z }.

Module PgRoutingPolicy.
Section PgRoutingPolicy.
Context `{Ids} `{Postgres}.

(** policy -> row and space -> row, each space's policy referencing a row of the
    first. No statement deletes a policy. *)
Record Tables := {
  routing_policy : gmap string PolicyRow;
  space_routing : gmap string SpaceRow;
}.
Context `{!Database Tables}.

Definition SetCandidates (policy : DID) (candidates : list DID) (cause : Cid) : M (Conn Tables) unit :=
  match candidates with
  | [] => fail (Errorf "missing candidates")
  | _ :: _ =>
      orFail (wrapped "storing routing policy") (run (λ now t, inl (tt,
        {| routing_policy := upsertRow (did_String policy)
             {| rp_candidates := did_String <$> candidates; rp_cause := cid_String cause;
                rp_inserted_at := now; rp_updated_at := now |}
             (λ old, {| rp_candidates := did_String <$> candidates; rp_cause := cid_String cause;
                        rp_inserted_at := rp_inserted_at old; rp_updated_at := now |})
             (routing_policy t);
           space_routing := space_routing t |})))
  end.

Definition scanPolicy (r : string * PolicyRow) : outcome RoutingPolicy.PolicyRecord :=
  let '(policyStr, row) := r in
  policyDID ← owrap "parsing policy DID" (did_Parse policyStr);
  dids ← mapM (λ c, owrap "parsing candidate DID" (did_Parse c)) (rp_candidates row);
  cause ← owrap "parsing cause CID" (cid_Parse (rp_cause row));
  Ok {| RoutingPolicy.Policy := policyDID; RoutingPolicy.Candidates := dids;
        RoutingPolicy.policyCause := cause; RoutingPolicy.policyInsertedAt := rp_inserted_at row;
        RoutingPolicy.policyUpdatedAt := rp_updated_at row |}.
Definition GetPolicy (policy : DID) : M (Conn Tables) RoutingPolicy.PolicyRecord :=
  r ← queryRow (λ t, routing_policy t !! did_String policy);
  match r with
  | inl row => lift (scanPolicy (did_String policy, row))
  | inr NoRows => fail ErrPolicyNotFound
  | inr e => fail (wrapped "getting routing policy" e)
  end.

Definition SetSpacePolicy (space policy : DID) (cause : Cid) : M (Conn Tables) unit :=
  orFail (λ e, if hasCode foreignKeyViolation e then ErrPolicyNotFound
               else wrapped "storing space routing policy" e)
    (run (λ now t,
      match routing_policy t !! did_String policy with
      | None => inr (PgError foreignKeyViolation "insert or update on table violates foreign key constraint")
      | Some _ => inl (tt,
          {| routing_policy := routing_policy t;
             space_routing := upsertRow (did_String space)
               {| sr_policy := did_String policy; sr_cause := cid_String cause;
                  sr_inserted_at := now; sr_updated_at := now |}
               (λ old, {| sr_policy := did_String policy; sr_cause := cid_String cause;
                          sr_inserted_at := sr_inserted_at old; sr_updated_at := now |})
               (space_routing t) |})
      end)).
Definition ClearSpacePolicy (space : DID) : M (Conn Tables) unit :=
  orFail (wrapped "clearing space routing policy") (run (λ _ t, inl (tt,
    {| routing_policy := routing_policy t;
       space_routing := (deleteRow (did_String space) (space_routing t)).2 |}))).

Definition scanSpace (r : string * SpaceRow) : outcome RoutingPolicy.SpaceRecord :=
  let '(spaceStr, row) := r in
  spaceDID ← owrap "parsing space DID" (did_Parse spaceStr);
  policyDID ← owrap "parsing policy DID" (did_Parse (sr_policy row));
  cause ← owrap "parsing cause CID" (cid_Parse (sr_cause row));
  Ok {| RoutingPolicy.Space := spaceDID; RoutingPolicy.spacePolicy := policyDID;
        RoutingPolicy.spaceCause := cause; RoutingPolicy.spaceInsertedAt := sr_inserted_at row;
        RoutingPolicy.spaceUpdatedAt := sr_updated_at row |}.
Definition GetSpacePolicy (space : DID) : M (Conn Tables) RoutingPolicy.SpaceRecord :=
  r ← queryRow (λ t, space_routing t !! did_String space);
  match r with
  | inl row => lift (scanSpace (did_String space, row))
  | inr NoRows => fail ErrSpacePolicyNotFound
  | inr e => fail (wrapped "getting space routing policy" e)
  end.

(** ** The memory backend is what the tables implement *)

(** The operations of the store's interface, by what they answer with. *)
Inductive Op : Type → Type :=
  | SetCandidatesOp (policy : DID) (candidates : list DID) (cause : Cid) : Op unit
  | GetPolicyOp (policy : DID) : Op RoutingPolicy.PolicyRecord
  | SetSpacePolicyOp (space policy : DID) (cause : Cid) : Op unit
  | ClearSpacePolicyOp (space : DID) : Op unit
  | GetSpacePolicyOp (space : DID) : Op RoutingPolicy.SpaceRecord.
Definition exec {A} (o : Op A) : M (Conn Tables) A :=
  match o with
  | SetCandidatesOp policy candidates cause => SetCandidates policy candidates cause
  | GetPolicyOp policy => GetPolicy policy
  | SetSpacePolicyOp space policy cause => SetSpacePolicy space policy cause
  | ClearSpacePolicyOp space => ClearSpacePolicy space
  | GetSpacePolicyOp space => GetSpacePolicy space
  end.
Definition inMemory {A} (o : Op A) (now : Z) (s : RoutingPolicy.Store) : outcome A * RoutingPolicy.Store :=
  match o with
  | SetCandidatesOp policy candidates cause => RoutingPolicy.SetCandidates policy candidates cause now s
  | GetPolicyOp policy => (RoutingPolicy.GetPolicy s policy, s)
  | SetSpacePolicyOp space policy cause => RoutingPolicy.SetSpacePolicy space policy cause now s
  | ClearSpacePolicyOp space => RoutingPolicy.ClearSpacePolicy space s
  | GetSpacePolicyOp space => (RoutingPolicy.GetSpacePolicy s space, s)
  end.
(** Every DID and CID an operation names has a text that parses. *)
Definition opDefined {A} (o : Op A) : Prop :=
  match o with
  | SetCandidatesOp policy candidates cause =>
      did_Defined policy ∧ Forall (λ d, did_Defined d) candidates ∧ cid_Defined cause
  | SetSpacePolicyOp space policy cause => did_Defined space ∧ did_Defined policy ∧ cid_Defined cause
  | _ => True
  end.

Definition policyRow (r : RoutingPolicy.PolicyRecord) : PolicyRow :=
  {| rp_candidates := did_String <$> RoutingPolicy.Candidates r;
     rp_cause := cid_String (RoutingPolicy.policyCause r);
     rp_inserted_at := RoutingPolicy.policyInsertedAt r;
     rp_updated_at := RoutingPolicy.policyUpdatedAt r |}.
Definition spaceRow (r : RoutingPolicy.SpaceRecord) : SpaceRow :=
  {| sr_policy := did_String (RoutingPolicy.spacePolicy r);
     sr_cause := cid_String (RoutingPolicy.spaceCause r);
     sr_inserted_at := RoutingPolicy.spaceInsertedAt r;
     sr_updated_at := RoutingPolicy.spaceUpdatedAt r |}.
(** The tables a memory store is kept as. *)
Definition tablesOf (s : RoutingPolicy.Store) : Tables := {|
  routing_policy := kmap did_String (policyRow <$> RoutingPolicy.policies s);
  space_routing := kmap did_String (spaceRow <$> RoutingPolicy.spaces s);
|}.
Record represented (s : RoutingPolicy.Store) : Prop := {
  rep_policies : map_Forall (λ d r, RoutingPolicy.Policy r = d ∧ did_Defined d ∧
    Forall (λ c, did_Defined c) (RoutingPolicy.Candidates r) ∧ cid_Defined (RoutingPolicy.policyCause r))
    (RoutingPolicy.policies s);
  rep_spaces : map_Forall (λ d r, RoutingPolicy.Space r = d ∧ did_Defined d ∧
    did_Defined (RoutingPolicy.spacePolicy r) ∧ cid_Defined (RoutingPolicy.spaceCause r))
    (RoutingPolicy.spaces s);
}.

Lemma lookup_tableOf {R X} (f : R → X) (m : gmap DID R) d :
  (kmap did_String (f <$> m) : gmap string X) !! did_String d = f <$> m !! d.
Proof. by rewrite lookup_kmap, lookup_fmap by apply _. Qed.
Lemma insert_tableOf {R X} (f : R → X) (m : gmap DID R) d r :
  <[did_String d := f r]> (kmap did_String (f <$> m) : gmap string X) = kmap did_String (f <$> <[d := r]> m).
Proof. by rewrite fmap_insert, kmap_insert by apply _. Qed.
Lemma delete_tableOf {R X} (f : R → X) (m : gmap DID R) d :
  delete (did_String d) (kmap did_String (f <$> m) : gmap string X) = kmap did_String (f <$> delete d m).
Proof. by rewrite fmap_delete, kmap_delete by apply _. Qed.

Lemma scanPolicy_row s d r :
  represented s → RoutingPolicy.policies s !! d = Some r →
  scanPolicy (did_String d, policyRow r) = Ok r.
Proof.
  intros Hs Hr. destruct (rep_policies s Hs d r Hr) as (Hd & Hdef & Hc & Hcause). unfold scanPolicy.
  rewrite did_Parse_Defined by done. cbn [owrap mbind outcome_bind policyRow rp_candidates].
  assert (mapM (λ c, owrap "parsing candidate DID" (did_Parse c)) (did_String <$> RoutingPolicy.Candidates r)
    = Ok (RoutingPolicy.Candidates r)) as ->.
  { apply mapM_Ok, Forall2_fmap_l, Forall_Forall2_diag. eapply Forall_impl; [exact Hc|].
    intros c Hcd. unfold compose. by rewrite did_Parse_Defined. }
  cbn. rewrite cid_Parse_Defined by done. cbn. rewrite <-Hd. by destruct r.
Qed.
Lemma scanSpace_row s d r :
  represented s → RoutingPolicy.spaces s !! d = Some r →
  scanSpace (did_String d, spaceRow r) = Ok r.
Proof.
  intros Hs Hr. destruct (rep_spaces s Hs d r Hr) as (Hd & Hdef & Hp & Hcause). unfold scanSpace.
  rewrite did_Parse_Defined by done. cbn. rewrite did_Parse_Defined by done. cbn.
  rewrite cid_Parse_Defined by done. cbn. rewrite <-Hd. by destruct r.
Qed.
Lemma represented_inMemory {A} (o : Op A) now s :
  opDefined o → represented s → represented (inMemory o now s).2.
Proof.
  intros Ho [Hp Hsp]. destruct o as [policy [|c cs] cause| |space policy cause|space|]; cbn; try done.
  - destruct Ho as (Hpol & Hcs & Hcause). split; cbn; [|done]. apply map_Forall_insert_2; [|done].
    destruct (RoutingPolicy.policies s !! policy) eqn:E; cbn; [|done].
    destruct (Hp _ _ E) as [-> _]. done.
  - destruct Ho as (Hs & Hpol & Hcause). unfold RoutingPolicy.SetSpacePolicy.
    destruct (RoutingPolicy.policies s !! policy); [|done]. split; cbn; [done|].
    apply map_Forall_insert_2; [|done]. destruct (RoutingPolicy.spaces s !! space) eqn:E; cbn; [|done].
    destruct (Hsp _ _ E) as [-> _]. done.
  - split; cbn; [done|]. by apply map_Forall_delete.
Qed.

Lemma exec_inMemory {A} (o : Op A) (s : RoutingPolicy.Store) (c : Conn Tables) :
  represented s → seen c = tablesOf s →
  answers (exec o) c (inMemory o (nowOf c) s).1 (tablesOf (inMemory o (nowOf c) s).2).
Proof.
  intros Hs Hc. destruct o as [policy cands cause|policy|space policy cause|space|space]; cbn [exec inMemory].
  - destruct cands as [|d ds]; cbn [RoutingPolicy.SetCandidates fst snd]; [rewrite <-Hc; apply answers_refused|].
    apply answers_orFail. split; [done|]. rewrite Hc. unfold tablesOf, upsertRow. cbn. f_equal.
    rewrite lookup_tableOf, <-insert_tableOf. by destruct (RoutingPolicy.policies s !! policy).
  - apply (answers_run _ _ (λ x, match x with
      | inl row => scanPolicy (did_String policy, row)
      | inr NoRows => Err ErrPolicyNotFound
      | inr e => Err (wrapped "getting routing policy" e) end)); [by intros [|[]]|by intros []; eauto|].
    rewrite Hc. cbn [tablesOf routing_policy]. rewrite lookup_tableOf. unfold RoutingPolicy.GetPolicy.
    destruct (RoutingPolicy.policies s !! policy) as [r|] eqn:E; [|done]. split; [|done].
    by apply (scanPolicy_row s).
  - apply answers_orFail. rewrite Hc. cbn [tablesOf routing_policy space_routing]. rewrite lookup_tableOf.
    unfold RoutingPolicy.SetSpacePolicy.
    destruct (RoutingPolicy.policies s !! policy); cbn; [|done]. split; [done|].
    unfold tablesOf, upsertRow. cbn. f_equal. rewrite lookup_tableOf, <-insert_tableOf.
    by destruct (RoutingPolicy.spaces s !! space).
  - apply answers_orFail. split; [done|]. rewrite Hc. unfold tablesOf, deleteRow. cbn. f_equal.
    rewrite lookup_tableOf, <-delete_tableOf.
    destruct (RoutingPolicy.spaces s !! space) eqn:E; cbn; [done|].
    rewrite delete_id; [done|]. by rewrite lookup_tableOf, E.
  - apply (answers_run _ _ (λ x, match x with
      | inl row => scanSpace (did_String space, row)
      | inr NoRows => Err ErrSpacePolicyNotFound
      | inr e => Err (wrapped "getting space routing policy" e) end)); [by intros [|[]]|by intros []; eauto|].
    rewrite Hc. cbn [tablesOf space_routing]. rewrite lookup_tableOf. unfold RoutingPolicy.GetSpacePolicy.
    destruct (RoutingPolicy.spaces s !! space) as [r|] eqn:E; [|done]. split; [|done].
    by apply (scanSpace_row s).
Qed.

(** C34: the PostgreSQL store of routing policies implements the memory one: run on
    the tables a memory store is kept as, each operation answers what the
    memory store answers at the time of the statement and leaves the tables
    of the store that leaves; or its call fails, with an error and the tables
    of either. *)
Theorem pg_policies_refine {A} (o : Op A) (s : RoutingPolicy.Store) (c : Conn Tables) :
  represented s → RoutingPolicy.wf s → opDefined o → seen c = tablesOf s →
  represented (inMemory o (nowOf c) s).2 ∧ RoutingPolicy.wf (inMemory o (nowOf c) s).2 ∧
  answers (exec o) c (inMemory o (nowOf c) s).1 (tablesOf (inMemory o (nowOf c) s).2).
Proof.
  intros Hs Hwf Ho Hc. split_and!; [by apply represented_inMemory| |by apply exec_inMemory].
  destruct o; cbn; [by apply RoutingPolicy.wf_SetCandidates|done|
    by apply RoutingPolicy.wf_SetSpacePolicy|by apply RoutingPolicy.wf_ClearSpacePolicy|done].
Qed.
End PgRoutingPolicy.
End PgRoutingPolicy.

(** ** Witnesses *)
Section Witnesses.
#[local] Existing Instance StrIds.
#[local] Existing Instance plainPostgres.
#[local] Existing Instance quietDatabase.

Definition examplePgPolicy : RoutingPolicy.Store :=
  (PgRoutingPolicy.inMemory (PgRoutingPolicy.SetCandidatesOp (str_did "policy") [str_did "node"] (str_cid "c")) 7
     RoutingPolicy.New).2.
Definition examplePgUse : PgRoutingPolicy.Op unit :=
  PgRoutingPolicy.SetSpacePolicyOp (str_did "space") (str_did "policy") (str_cid "c2").
Definition examplePolicyConn : Conn PgRoutingPolicy.Tables :=
  {| tables := PgRoutingPolicy.tablesOf examplePgPolicy; calls := 0; began := None |}.
Lemma pg_policies_refine_witness :
  answers (PgRoutingPolicy.exec examplePgUse) examplePolicyConn
    (PgRoutingPolicy.inMemory examplePgUse (nowOf examplePolicyConn) examplePgPolicy).1
    (PgRoutingPolicy.tablesOf (PgRoutingPolicy.inMemory examplePgUse (nowOf examplePolicyConn) examplePgPolicy).2) ∧
  (PgRoutingPolicy.inMemory examplePgUse (nowOf examplePolicyConn) examplePgPolicy).1 = Ok tt.
Proof.
  split; [|reflexivity].
  refine (proj2 (proj2 (PgRoutingPolicy.pg_policies_refine examplePgUse examplePgPolicy examplePolicyConn _ _ _ _))).
  - unfold examplePgPolicy. apply PgRoutingPolicy.represented_inMemory; [|by split; apply map_Forall_empty].
    split_and!; [done|by repeat constructor|done].
  - apply RoutingPolicy.wf_SetCandidates, RoutingPolicy.policies_wf_New.
  - done.
  - unfold seen, examplePolicyConn. reflexivity.
Defined.
End Witnesses.
