(* ===== verification/PgAccounts.v ===== *)
(** * Consumers, subscriptions and customers in PostgreSQL

    [pkg/store/consumer/postgres], [pkg/store/subscription/postgres] and
    [pkg/store/customer/postgres], and provisioning over the first two. *)
From Stdlib Require Import DecimalString DecimalZ.
From S2P Require Export PgReading Provisioning.

(** What the customer store needs of [encoding/json] and of the JSONB column: the
    details that read back as they were written. *)
Class DetailsJSON (Val : Type) := {
  details_Marshal : gmap string Val → outcome string;
  jsonb : string → string + dbError;
  details_Unmarshal : string → outcome (gmap string Val);
  details_native : gmap string Val → Prop;
  details_roundtrip d : details_native d → d ≠ ∅ →
    ∃ b col, details_Marshal d = Ok b ∧ jsonb b = inl col ∧ col ≠ "" ∧ details_Unmarshal col = Ok d;
}.

Record ConsumerRow := { cs_consumer : string; cs_customer : string; cs_cause : string; cs_inserted_at : Z }.
Record SubscriptionRow := { sb_customer : string; sb_cause : string; sb_inserted_at : Z }.
Record CustomerRow := {
  cu_external_account : option string; cu_product : string; cu_details : option string;
  cu_reserved_capacity : option Z; cu_inserted_at : Z; cu_updated_at : option Z }.

(** Consumers and subscriptions by (subscription, provider), customers by their
    DID. *)
Record AccountTables := {
  consumer : gmap (string * string) ConsumerRow;
  subscription : gmap (string * string) SubscriptionRow;
  customer : gmap string CustomerRow;
}.
Definition set_consumer m t : AccountTables :=
  {| consumer := m; subscription := subscription t; customer := customer t |}.
Definition set_subscription m t : AccountTables :=
  {| consumer := consumer t; subscription := m; customer := customer t |}.
Definition set_customer m t : AccountTables :=
  {| consumer := consumer t; subscription := subscription t; customer := m |}.

(** The order of a pair of columns. *)
Section PairOrder.
Context `{Postgres}.
Definition pairLe (k1 k2 : string * string) : Prop :=
  (textLe k1.1 k2.1 ∧ k1.1 ≠ k2.1) ∨ k1.1 = k2.1 ∧ textLe k1.2 k2.2.
#[export] Instance pairLe_dec : RelDecision pairLe.
Proof. intros ??. unfold pairLe. apply _. Defined.
#[export] Instance pairLe_preorder : PreOrder pairLe.
Proof.
  unfold pairLe. split; [intros [a b]; right; simpl; by split|].
  intros [a1 b1] [a2 b2] [a3 b3]; simpl. intros [[H1 N1]|[-> H1]] [[H2 N2]|[-> H2]].
  - left. split; [by etrans|]. intros ->. apply N1. by apply (anti_symm textLe).
  - auto.
  - auto.
  - right. split; [done|]. by etrans.
Qed.
#[export] Instance pairLe_antisymm : AntiSymm (=) pairLe.
Proof.
  unfold pairLe. intros [a1 b1] [a2 b2]; simpl. intros [[H1 N1]|[-> H1]] [[H2 N2]|[E2 H2]]; try congruence.
  - destruct N1. by apply (anti_symm textLe).
  - f_equal. by apply (anti_symm textLe).
Qed.
#[export] Instance pairLe_total : Total pairLe.
Proof.
  unfold pairLe. intros [a1 b1] [a2 b2]; simpl. destruct (decide (a1 = a2)) as [->|Hne].
  - destruct (total textLe b1 b2); auto.
  - destruct (total textLe a1 a2); auto.
Qed.
End PairOrder.

(** [strings.SplitN(s, sep, 2)] where [sep] occurs. *)
Fixpoint cutAt (sep : Ascii.ascii) (s : string) : option (string * string) :=
  match s with
  | EmptyString => None
  | String.String a s =>
      if bool_decide (a = sep) then Some (EmptyString, s)
      else '(x, y) ← cutAt sep s; Some (String.String a x, y)
  end.
Definition bar : Ascii.ascii := Ascii.ascii_of_nat 124.
Definition noBar (s : string) : Prop := cutAt bar s = None.
Lemma cutAt_join p s : noBar p → cutAt bar (p +:+ String.String bar s) = Some (p, s).
Proof.
  unfold noBar. induction p as [|a p IH]; cbn [cutAt]; intros Hp.
  - change (cutAt bar (String.String bar s) = Some ("", s)). cbn [cutAt]. by rewrite bool_decide_eq_true_2.
  - change (cutAt bar (String.String a (p +:+ String.String bar s)) = Some (String.String a p, s)).
    cbn [cutAt]. case_bool_decide; [done|]. destruct (cutAt bar p) eqn:E; [by destruct p0|].
    by rewrite IH.
Qed.

Module PgConsumer.
Section PgConsumer.
Context `{Ids} `{Postgres} `{!Database AccountTables}.

Definition Add (provider space customer : DID) (subscription : string) (cause : Cid)
    : M (Conn AccountTables) unit :=
  orFail (λ e, if hasCode uniqueViolation e then ErrConsumerExists else wrapped "adding consumer" e)
    (run (λ now t,
      match insertRow (subscription, did_String provider)
              {| cs_consumer := did_String space; cs_customer := did_String customer;
                 cs_cause := cid_String cause; cs_inserted_at := now |} (consumer t) with
      | inl m => inl (tt, set_consumer m t)
      | inr e => inr e
      end)).

Definition scanRecord (r : (string * string) * ConsumerRow) : outcome Consumer.Record_ :=
  let '((subscription, providerStr), row) := r in
  provider ← owrap "parsing provider DID" (did_Parse providerStr);
  space ← owrap "parsing consumer DID" (did_Parse (cs_consumer row));
  customerDID ← owrap "parsing customer DID" (did_Parse (cs_customer row));
  cause ← owrap "parsing cause CID" (cid_Parse (cs_cause row));
  Ok {| Consumer.Provider := provider; Consumer.Consumer := space; Consumer.Customer := customerDID;
        Consumer.Subscription := subscription; Consumer.Cause := cause |}.

(** [LIMIT 1] of rows in no order. *)
Definition Get (provider space : DID) : M (Conn AccountTables) Consumer.Record_ := λ c,
  (r ← queryRow (λ t, head (heapOrder (calls c)
     (selectWhere (λ r, cs_consumer r.2 = did_String space ∧ r.1.2 = did_String provider) (consumer t))));
   match r with
   | inl row => lift (owrap "getting consumer" (scanRecord row))
   | inr NoRows => fail ErrConsumerNotFound
   | inr e => fail (wrapped "getting consumer" e)
   end) c.
Definition GetBySubscription (provider : DID) (subscription : string)
    : M (Conn AccountTables) Consumer.Record_ :=
  r ← queryRow (λ t, consumer t !! (subscription, did_String provider));
  match r with
  | inl row => lift (owrap "getting consumer by subscription"
                       (scanRecord ((subscription, did_String provider), row)))
  | inr NoRows => fail ErrConsumerNotFound
  | inr e => fail (wrapped "getting consumer by subscription" e)
  end.

Definition joinCursor (provider subscription : string) : string :=
  provider +:+ String.String bar subscription.
Definition splitCursor (cursor : string) : outcome (string * string) :=
  match cutAt bar cursor with
  | Some parts => Ok parts
  | None => Err (Errorf ("malformed cursor " +:+ quoted cursor))
  end.

Definition byColumn (column : ConsumerRow → string) (value : string)
    : Listing AccountTables ((string * string) * ConsumerRow) (string * string) Consumer.Record_ := {|
  l_select t := selectWhere (λ r, column r.2 = value) (consumer t);
  l_key r := (r.1.2, r.1.1);
  l_first _ := true;
  l_resume c := owrap "invalid cursor" (splitCursor c);
  l_scan := scanRecord;
  l_cursor rec := joinCursor (did_String (Consumer.Provider rec)) (Consumer.Subscription rec);
  l_querying := "listing consumers";
  l_iterating := "listing consumers";
|}.
Definition listByColumn (column : ConsumerRow → string) (value : string) (cfg : PaginationConfig)
    : M (Conn AccountTables) (Page Consumer.Record_) :=
  listPage pairLe (byColumn column value) cfg (limitOf cfg).
Definition List (space : DID) (cfg : PaginationConfig) : M (Conn AccountTables) (Page Consumer.Record_) :=
  listByColumn cs_consumer (did_String space) cfg.
Definition ListByCustomer (customer : DID) (cfg : PaginationConfig)
    : M (Conn AccountTables) (Page Consumer.Record_) :=
  listByColumn cs_customer (did_String customer) cfg.

Definition readable (k : string * string) (r : ConsumerRow) : Prop :=
  isDID k.2 ∧ noBar k.2 ∧ isDID (cs_consumer r) ∧ isDID (cs_customer r) ∧ isCID (cs_cause r).
Lemma scanRecord_readable k r :
  readable k r → ∃ rec, scanRecord (k, r) = Ok rec ∧
    did_String (Consumer.Provider rec) = k.2 ∧ Consumer.Subscription rec = k.1.
Proof.
  destruct k as [sub p]. intros (Hp & _ & Hs & Hc & Hca).
  destruct (isDID_parse _ Hp) as (x & Ex & Hx), (isDID_parse _ Hs) as (y & Ey & _),
    (isDID_parse _ Hc) as (z & Ez & _), (isCID_parse _ Hca) as (u & Eu & _). cbn in *.
  rewrite Ex; cbn. rewrite Ey; cbn. rewrite Ez; cbn. rewrite Eu; cbn. eauto.
Qed.
#[export] Instance listing_ok column value :
  ListingOk pairLe (byColumn column value) (λ t, map_Forall readable (consumer t)).
Proof.
  split; [|intros t [k row] rec Hv Hin Hs|done].
  - intros t. apply NoDup_selectWhere. intros [[a b] r] [[a' b'] r']; cbn. congruence.
  - apply elem_of_selectWhere in Hin as [_ Hin]. apply Hv in Hin as Hr.
    destruct (scanRecord_readable k row Hr) as (rec' & Hs' & Hp & Hsub).
    change (scanRecord (k, row) = Ok rec) in Hs. rewrite Hs in Hs'. injection Hs' as <-. cbn.
    rewrite Hp, Hsub. unfold splitCursor, joinCursor. destruct Hr as (_ & Hb & _).
    rewrite cutAt_join by done. done.
Qed.
End PgConsumer.
End PgConsumer.

Module PgSubscription.
Section PgSubscription.
Context `{Ids} `{Postgres} `{!Database AccountTables}.

Definition Add (provider : DID) (subscriptionID : string) (customer : DID) (cause : Cid)
    : M (Conn AccountTables) unit :=
  orFail (λ e, if hasCode uniqueViolation e then ErrSubscriptionExists
               else wrapped "adding subscription" e)
    (run (λ now t,
      match insertRow (subscriptionID, did_String provider)
              {| sb_customer := did_String customer; sb_cause := cid_String cause;
                 sb_inserted_at := now |} (subscription t) with
      | inl m => inl (tt, set_subscription m t)
      | inr e => inr e
      end)).

Definition scanRecord (r : (string * string) * SubscriptionRow) : outcome Subscription.Record_ :=
  let '((subscriptionID, providerStr), row) := r in
  provider ← owrap "parsing provider DID" (did_Parse providerStr);
  customer ← owrap "parsing customer DID" (did_Parse (sb_customer row));
  cause ← owrap "parsing cause CID" (cid_Parse (sb_cause row));
  Ok {| Subscription.Provider := provider; Subscription.Subscription := subscriptionID;
        Subscription.Customer := customer; Subscription.Cause := cause;
        Subscription.InsertedAt := sb_inserted_at row |}.
Definition Get (provider : DID) (subscriptionID : string)
    : M (Conn AccountTables) Subscription.Record_ :=
  r ← queryRow (λ t, subscription t !! (subscriptionID, did_String provider));
  match r with
  | inl row => lift (owrap "getting subscription"
                       (scanRecord ((subscriptionID, did_String provider), row)))
  | inr NoRows => fail ErrSubscriptionNotFound
  | inr e => fail (wrapped "getting subscription" e)
  end.

Definition listing (provider customer : DID)
    : Listing AccountTables ((string * string) * SubscriptionRow) string Subscription.Record_ := {|
  l_select t := selectWhere (λ r, sb_customer r.2 = did_String customer ∧ r.1.2 = did_String provider)
                  (subscription t);
  l_key r := r.1.1;
  l_first _ := true;
  l_resume := Ok;
  l_scan := scanRecord;
  l_cursor := Subscription.Subscription;
  l_querying := "listing subscriptions";
  l_iterating := "listing subscriptions";
|}.
Definition ListByProviderAndCustomer (provider customer : DID) (cfg : PaginationConfig)
    : M (Conn AccountTables) (Page Subscription.Record_) :=
  listPage textLe (listing provider customer) cfg (limitOf cfg).

Definition readable (k : string * string) (r : SubscriptionRow) : Prop :=
  isDID k.2 ∧ isDID (sb_customer r) ∧ isCID (sb_cause r).
#[export] Instance listing_ok provider customer :
  ListingOk textLe (listing provider customer) (λ t, map_Forall readable (subscription t)).
Proof.
  split; [|intros t [[sub p] row] rec Hv Hin Hs|done].
  - intros t. apply NoDup_selectWhere. intros [[a b] r] [[a' b'] r']; cbn. intros [_ ->] [_ ->]. congruence.
  - apply elem_of_selectWhere in Hin as [_ Hin]. apply Hv in Hin as (Hp & Hc & Hca).
    destruct (isDID_parse _ Hp) as (x & Ex & _), (isDID_parse _ Hc) as (y & Ey & _),
      (isCID_parse _ Hca) as (u & Eu & _). cbn in Hs, Ex, Ey, Eu.
    rewrite Ex in Hs; cbn in Hs. rewrite Ey in Hs; cbn in Hs. rewrite Eu in Hs; cbn in Hs.
    by injection Hs as <-.
Qed.
End PgSubscription.
End PgSubscription.

Module PgCustomer.
Section PgCustomer.
Context `{Ids} `{Postgres} `{!Database AccountTables} {Val : Type} `{!DetailsJSON Val}.

(** The details that are stored: none when there are none. *)
Definition detailsColumn (details : gmap string Val) : outcome (option string) :=
  if bool_decide (details = ∅) then Ok None
  else b ← owrap "marshalling details" (details_Marshal details); Ok (Some b).
Definition Add (customerID : DID) (externalAccount : option string) (product : DID)
    (details : gmap string Val) (reservedCapacity : option Z) : M (Conn AccountTables) unit :=
  detailsJSON ← lift (detailsColumn details);
  orFail (λ e, if hasCode uniqueViolation e then ErrCustomerExists else wrapped "adding customer" e)
    (run (λ now t,
      match match detailsJSON with
            | Some b => match jsonb (Val := Val) b with inl col => inl (Some col) | inr e => inr e end
            | None => inl None
            end with
      | inr e => inr e
      | inl col =>
          match insertRow (did_String customerID)
                  {| cu_external_account := externalAccount; cu_product := did_String product;
                     cu_details := col; cu_reserved_capacity := int64 <$> reservedCapacity;
                     cu_inserted_at := now; cu_updated_at := None |} (customer t) with
          | inl m => inl (tt, set_customer m t)
          | inr e => inr e
          end
      end)).
Definition UpdateProduct (customerID product : DID) : M (Conn AccountTables) unit :=
  affected ← orFail (wrapped "updating customer product") (run (λ now t,
    let '(n, m) := updateRow (did_String customerID) (λ r,
      {| cu_external_account := cu_external_account r; cu_product := did_String product;
         cu_details := cu_details r; cu_reserved_capacity := cu_reserved_capacity r;
         cu_inserted_at := cu_inserted_at r; cu_updated_at := Some now |}) (customer t) in
    inl (n, set_customer m t)));
  if (affected =? 0)%Z then fail ErrCustomerNotFound else mret tt.

Definition scanRecord (r : string * CustomerRow) : outcome (Customer.Record_ Val) :=
  let '(customerStr, row) := r in
  customerID ← owrap "parsing customer DID" (did_Parse customerStr);
  product ← owrap "parsing product DID" (did_Parse (cu_product row));
  details ← match cu_details row with
            | Some b => if bool_decide (b = "") then Ok ∅
                        else owrap "unmarshalling details" (details_Unmarshal b)
            | None => Ok ∅
            end;
  Ok {| Customer.Customer := customerID; Customer.ExternalAccount := cu_external_account row;
        Customer.Product := product; Customer.Details := details;
        Customer.ReservedCapacity := uint64 <$> cu_reserved_capacity row;
        Customer.InsertedAt := cu_inserted_at row;
        Customer.UpdatedAt := default zeroTime (cu_updated_at row) |}.
Definition Get (customerID : DID) : M (Conn AccountTables) (Customer.Record_ Val) :=
  r ← queryRow (λ t, customer t !! did_String customerID);
  match r with
  | inl row => lift (owrap "getting customer" (scanRecord (did_String customerID, row)))
  | inr NoRows => fail ErrCustomerNotFound
  | inr e => fail (wrapped "getting customer" e)
  end.
Definition listing : Listing AccountTables (string * CustomerRow) string (Customer.Record_ Val) := {|
  l_select t := map_to_list (customer t);
  l_key r := r.1;
  l_first _ := true;
  l_resume := Ok;
  l_scan := scanRecord;
  l_cursor rec := did_String (Customer.Customer rec);
  l_querying := "listing customers";
  l_iterating := "listing customers";
|}.
Definition List (cfg : PaginationConfig) : M (Conn AccountTables) (Page (Customer.Record_ Val)) :=
  listPage textLe listing cfg (limitOf cfg).

Lemma scanRecord_key k row rec :
  isDID k → scanRecord (k, row) = Ok rec → did_String (Customer.Customer rec) = k.
Proof.
  intros (x & Ex & Hx)%isDID_parse. unfold scanRecord. rewrite Ex. cbn.
  destruct (did_Parse (cu_product row)) as [y| | |]; cbn; [|done..].
  destruct (match cu_details row with Some _ => _ | None => _ end); cbn; [|done..].
  by intros [= <-].
Qed.
#[export] Instance listing_ok :
  ListingOk textLe listing (λ t, map_Forall (λ k _, isDID k) (customer t)).
Proof.
  split; [|intros t [k row] rec Hv Hin Hs|done].
  - intros t. apply NoDup_fst_map_to_list.
  - apply elem_of_map_to_list in Hin. apply Hv in Hin. cbn. f_equal. by eapply scanRecord_key.
Qed.
End PgCustomer.
End PgCustomer.

(** ** Provisioning over the two stores *)
Module PgProvisioning.
Section PgProvisioning.
Context `{Ids} `{!Provisioning.SubscriptionHash} `{Postgres} `{!Database AccountTables}.

Definition Provision : list DID → DID → DID → DID → Cid → M (Conn AccountTables) string :=
  Provisioning.provisionWith PgSubscription.Add PgConsumer.Add.
Definition GetConsumer (provider space : DID) : M (Conn AccountTables) Consumer.Record_ :=
  PgConsumer.Get provider space.

(** Every consumer row has the subscription its space hashes to. *)
Definition hashed (t : AccountTables) : Prop := ∀ k r, consumer t !! k = Some r →
  ∃ d, cs_consumer r = did_String d ∧ Provisioning.NewSubscriptionID d = Ok k.1.
(** The row a space was provisioned with. *)
Definition held (k : string * string) (row : ConsumerRow) (t : AccountTables) : Prop :=
  hashed t ∧ consumer t !! k = Some row.

Lemma keeps_subscriptions (P : AccountTables → Prop) `{!Stable P} provider id customer cause :
  (∀ m t, P t → P (set_subscription m t)) → keeps P (PgSubscription.Add provider id customer cause).
Proof.
  intros HP. apply keeps_orFail, keeps_run; [done|]. intros now t [] t' Ht.
  destruct (insertRow _ _ _) as [m|]; [|done]. intros [= <-]. by apply HP.
Qed.
Lemma hashed_insert t space id p row :
  hashed t → Provisioning.NewSubscriptionID space = Ok id → cs_consumer row = did_String space →
  hashed (set_consumer (<[(id, p) := row]> (consumer t)) t).
Proof.
  intros Hh Hid Hrow k r Hr. cbn in Hr. apply lookup_insert_Some in Hr as [[<- <-]|[_ Hr]]; [by exists space|].
  by apply Hh.
Qed.
Lemma keeps_consumers k row `{!Stable (held k row)} provider space customer id cause :
  Provisioning.NewSubscriptionID space = Ok id →
  keeps (held k row) (PgConsumer.Add provider space customer id cause).
Proof.
  intros Hid. apply keeps_orFail, keeps_run; [done|]. intros now t [] t' [Hh Hk].
  destruct (insertRow _ _ _) as [m|] eqn:Hi; [|done]. intros [= <-].
  apply insertRow_inv in Hi as [Hn ->]. split; [by apply (hashed_insert _ space)|].
  cbn. apply lookup_insert_Some. right. split; [|done]. intros <-. congruence.
Qed.

(** What is known of a [Provision] that succeeded before its last statement. *)
Lemma Provision_Ok providers customer space provider cause (c c' : Conn AccountTables) id :
  Provision providers customer space provider cause c = (Ok id, c') →
  provider ∈ providers ∧ Provisioning.NewSubscriptionID space = Ok id ∧
  ∃ c1, tables c1 = tables (PgSubscription.Add provider id customer cause c).2 ∧
    PgConsumer.Add provider space customer id cause c1 = (Ok tt, c').
Proof.
  unfold Provision, Provisioning.provisionWith.
  destruct (containsFunc _ _) eqn:Ep; [|done]. apply Provisioning.allowed_iff in Ep. cbn [negb].
  intros (id' & c0 & Hid & Hr)%M_bind_Ok. unfold wrap, reads in Hid.
  destruct (Provisioning.NewSubscriptionID space) as [i| | |] eqn:Ei; try done. injection Hid as -> <-.
  apply M_bind_Ok in Hr as (added & c1 & Ht & Hr).
  apply M_bind_Ok in Hr as (u & c2 & Hadd & Hr).
  apply M_bind_Ok in Hr as ([] & c3 & Hc & Hr). injection Hr as -> <-.
  split_and!; [done..|]. exists c2. split.
  - unfold try in Ht. destruct (PgSubscription.Add provider id customer cause c) as [[x|e| |] c4];
      try done; injection Ht as <- <-; [by injection Hadd as <- <-|].
    destruct (negb _); [done|]. by injection Hadd as <- <-.
  - unfold wrap in Hc. by destruct (PgConsumer.Add _ _ _ _ _ _) as [[[]| | |] ?]; try done.
Qed.
Lemma Add_Ok provider space customer id cause (c c' : Conn AccountTables) :
  PgConsumer.Add provider space customer id cause c = (Ok tt, c') →
  consumer (seen c) !! (id, did_String provider) = None ∧
  tables c' = set_consumer (<[(id, did_String provider) :=
    {| cs_consumer := did_String space; cs_customer := did_String customer;
       cs_cause := cid_String cause; cs_inserted_at := nowOf c |}]> (consumer (seen c))) (seen c).
Proof.
  intros Hr%orFail_inv.
  destruct (run_inv _ _ _ _ Hr) as (_ & _ & [([] & _ & Hs)|[(? & ? & _)|(? & ? & ? & _)]]); [|done..].
  destruct (insertRow _ _ _) as [m|] eqn:Hi; [|done]. injection Hs as <-.
  by apply insertRow_inv in Hi as [? ->].
Qed.

(** The only row of a space with a provider is the one its subscription names. *)
Lemma Get_held providerDID space customer cause id row (c : Conn AccountTables) :
  held (id, did_String providerDID) row (seen c) →
  Provisioning.NewSubscriptionID space = Ok id → cs_consumer row = did_String space →
  cs_customer row = did_String customer → cs_cause row = cid_String cause →
  did_Defined providerDID → did_Defined space → did_Defined customer → cid_Defined cause →
  fault (T := AccountTables) (calls c) = None →
  (GetConsumer providerDID space c).1 =
  Ok {| Consumer.Provider := providerDID; Consumer.Consumer := space; Consumer.Customer := customer;
        Consumer.Subscription := id; Consumer.Cause := cause |}.
Proof.
  intros [Hh Hk] Hid Hsp Hcu Hca Hdp Hds Hdc Hdca Hf. unfold GetConsumer, PgConsumer.Get.
  rewrite M_bind_step. unfold queryRow. rewrite run_quiet by done.
  set (rows := selectWhere _ _).
  assert (rows = [((id, did_String providerDID), row)]) as ->.
  { apply Permutation_singleton_r, NoDup_Permutation.
    - apply (NoDup_fmap_1 fst), NoDup_selectWhere. by intros ??.
    - apply NoDup_singleton.
    - intros [k r]. subst rows. rewrite elem_of_selectWhere, list_elem_of_singleton. split.
      + intros [[Hc Hp] Hr]. cbn in Hc, Hp. destruct (Hh _ _ Hr) as (d & Hd & Hn).
        rewrite Hc in Hd. apply (inj did_String) in Hd as <-. destruct k as [k1 k2]. cbn in *.
        assert (k1 = id) as -> by congruence. subst k2. congruence.
      + intros [= -> ->]. done. }
  pose proof (heapOrder_perm (calls c) [((id, did_String providerDID), row)]) as Hp.
  apply Permutation_singleton_r in Hp as ->. cbn [head].
  unfold lift, reads, PgConsumer.scanRecord. rewrite did_Parse_Defined by done; cbn.
  rewrite Hsp, did_Parse_Defined by done; cbn. rewrite Hcu, did_Parse_Defined by done; cbn.
  by rewrite Hca, cid_Parse_Defined by done.
Qed.

(** A server that answers refuses a space that has the provider. *)
Lemma Provision_refused providers customer space provider cause id row (c : Conn AccountTables) :
  (∀ n, fault (T := AccountTables) n = None) → Stable (held (id, did_String provider) row) →
  Provisioning.NewSubscriptionID space = Ok id → provider ∈ providers →
  held (id, did_String provider) row (tables c) →
  (Provision providers customer space provider cause c).1 = Err (Wrap "adding consumer" ErrConsumerExists).
Proof.
  intros Hf Hst Hid Hp%Provisioning.allowed_iff Hc. unfold Provision, Provisioning.provisionWith.
  rewrite Hp. cbn [negb]. rewrite M_bind_step. unfold wrap at 1, reads. rewrite Hid. rewrite M_bind_step.
  pose proof (keeps_subscriptions (held (id, did_String provider) row) provider id customer cause
    ltac:(done) c Hc) as Hk.
  assert (∃ r, try (PgSubscription.Add provider id customer cause) c =
      (Ok r, (PgSubscription.Add provider id customer cause c).2) ∧
    (r = inl tt ∨ r = inr ErrSubscriptionExists)) as (r & -> & Hr).
  { unfold try, PgSubscription.Add. rewrite orFail_step, run_quiet by done. unfold insertRow.
    destruct (subscription (seen c) !! _); cbn; eexists; split; eauto. }
  set (c1 := (PgSubscription.Add _ _ _ _ c).2) in *.
  assert ((wrap "adding consumer" (PgConsumer.Add provider space customer id cause) c1).1 =
    Err (Wrap "adding consumer" ErrConsumerExists)) as Hadd.
  { unfold wrap, PgConsumer.Add. rewrite orFail_step, run_quiet by done. unfold insertRow.
    apply (keeps_seen (held (id, did_String provider) row)) in Hk as [_ ->]. done. }
  rewrite M_bind_step. destruct Hr as [->| ->]; rewrite ?Is_refl; cbn [negb];
    unfold mret at 1, M_ret at 1; cbv beta iota; rewrite M_bind_step;
    destruct (wrap "adding consumer" _ c1) as [[]]; cbn in Hadd |- *; congruence.
Qed.

(** C16: over PostgreSQL a space is provisioned with a provider once: after a
    [Provision] that succeeded, and whatever other connections do that does not
    take its row away, the consumer of the space is the record of that call, and
    every later [Provision] of the space with the provider is refused, for
    whichever account, and leaves the record as it is. *)
Theorem pg_provision_once (providers : list DID) (customer space provider : DID) (cause : Cid)
    (id : string) (c c1 : Conn AccountTables) :
  Stable hashed → hashed (tables c) →
  did_Defined provider → did_Defined space → did_Defined customer → cid_Defined cause →
  Provision providers customer space provider cause c = (Ok id, c1) →
  ∃ row, held (id, did_String provider) row (tables c1) ∧
  (Stable (held (id, did_String provider) row) → ∀ c2, held (id, did_String provider) row (tables c2) →
     (fault (T := AccountTables) (calls c2) = None →
      (GetConsumer provider space c2).1 =
        Ok {| Consumer.Provider := provider; Consumer.Consumer := space; Consumer.Customer := customer;
              Consumer.Subscription := id; Consumer.Cause := cause |}) ∧
     ∀ providers' customer' cause',
       (∀ id', (Provision providers' customer' space provider cause' c2).1 ≠ Ok id') ∧
       held (id, did_String provider) row (tables (Provision providers' customer' space provider cause' c2).2)).
Proof.
  intros Hst Hh Hp Hs Hc Hca (_ & Hid & c0 & Ht0 & Hadd)%Provision_Ok.
  apply Add_Ok in Hadd as [_ Ht1]. set (row := {| cs_consumer := did_String space; cs_customer := did_String customer;
     cs_cause := cid_String cause; cs_inserted_at := nowOf c0 |}) in Ht1.
  assert (hashed (seen c0)) as Hh0.
  { apply (keeps_seen hashed). rewrite Ht0. by apply (keeps_subscriptions hashed). }
  exists row. split.
  { rewrite Ht1. split; [by apply (hashed_insert _ space)|]. apply lookup_insert_eq. }
  intros Hst' c2 Hc2. split; [intros Hf; eapply (Get_held _ _ _ _ _ row); try done; by apply (keeps_seen (held _ row))|].
  intros providers' customer' cause'. split.
  - intros id' Hr. destruct (Provision _ _ _ _ _ c2) as [r c3] eqn:E. cbn in Hr. subst r.
    apply Provision_Ok in E as (_ & Hid' & c4 & Ht4 & Hadd). assert (id' = id) as -> by congruence.
    apply Add_Ok in Hadd as [Hn _].
    assert (held (id, did_String provider) row (seen c4)) as [_ Hk]; [|congruence].
    apply (keeps_seen (held _ row)). rewrite Ht4. by apply (keeps_subscriptions (held _ row)).
  - unfold Provision, Provisioning.provisionWith.
    destruct (negb _); [done|]. rewrite M_bind_step. unfold wrap at 1, reads. rewrite Hid.
    apply (keeps_bind (held (id, did_String provider) row)); [|intros added|done].
    + intros c3 Hc3. unfold try. pose proof (keeps_subscriptions (held (id, did_String provider) row)
        provider id customer' cause' ltac:(done) c3 Hc3) as Hk.
      by destruct (PgSubscription.Add _ _ _ _ c3) as [[]].
    + apply keeps_bind; [destruct added; [apply keeps_ret|destruct (negb _); [apply keeps_fail|apply keeps_ret]]|].
      intros u. apply keeps_bind; [|intros; apply keeps_ret].
      intros c3 Hc3. unfold wrap.
      pose proof (keeps_consumers (id, did_String provider) row provider space customer' id cause' Hid c3 Hc3) as Hk.
      by destruct (PgConsumer.Add _ _ _ _ _ c3) as [[]].
Qed.
End PgProvisioning.
End PgProvisioning.

(** ** What was written of a customer is read back *)
Section CustomerRead.
Context `{Ids} `{Postgres} `{!Database AccountTables} {Val : Type} `{!DetailsJSON Val}.

Lemma detailsColumn_read (details : gmap string Val) :
  details_native details →
  ∃ js, PgCustomer.detailsColumn details = Ok js ∧
    ∃ col, match js with
           | Some b => match jsonb (Val := Val) b with inl col => inl (Some col) | inr e => inr e end
           | None => inl None
           end = inl col ∧
      match col with
      | Some b => if bool_decide (b = "") then Ok ∅ else owrap "unmarshalling details" (details_Unmarshal b)
      | None => Ok ∅
      end = Ok details.
Proof.
  intros Hn. unfold PgCustomer.detailsColumn. case_bool_decide as Hd; [subst; eauto|].
  destruct (details_roundtrip details Hn Hd) as (b & col & -> & Hb & Hne & Hu). cbn.
  exists (Some b). split; [done|]. exists (Some col). cbn. rewrite Hb. split; [done|]. by rewrite bool_decide_eq_false_2, Hu.
Qed.

(** Over PostgreSQL, after [Add] of a customer succeeded and until its row is
    changed, [Get] answers with exactly the account, product, details and
    capacity that were added, whatever the capacity as a uint64. *)
Theorem pg_customer_read (customerID product : DID) (externalAccount : option string)
    (details : gmap string Val) (reservedCapacity : option Z) (c c1 c2 : Conn AccountTables) :
  did_Defined customerID → did_Defined product → details_native details →
  from_option is_uint64 True reservedCapacity →
  PgCustomer.Add customerID externalAccount product details reservedCapacity c = (Ok tt, c1) →
  customer (seen c2) !! did_String customerID = customer (tables c1) !! did_String customerID →
  fault (T := AccountTables) (calls c2) = None →
  (PgCustomer.Get (Val := Val) customerID c2).1 =
  Ok {| Customer.Customer := customerID; Customer.ExternalAccount := externalAccount;
        Customer.Product := product; Customer.Details := details;
        Customer.ReservedCapacity := reservedCapacity;
        Customer.InsertedAt := nowOf c; Customer.UpdatedAt := zeroTime |}.
Proof.
  intros Hid Hp Hn Hcap Hadd Hsame Hf.
  destruct (detailsColumn_read details Hn) as (js & Hjs & col & Hcol & Hread).
  unfold PgCustomer.Add in Hadd. apply M_bind_Ok in Hadd as (js' & c0 & Hl & Hadd).
  unfold lift, reads in Hl. rewrite Hjs in Hl. injection Hl as <- <-. apply orFail_inv in Hadd.
  destruct (run_inv _ _ _ _ Hadd) as (_ & _ & [([] & _ & Hs)|[(? & ? & _)|(? & ? & ? & _)]]); [|done..].
  rewrite Hcol in Hs. destruct (insertRow _ _ _) as [m|] eqn:Hi; [|done]. injection Hs as Ht.
  apply insertRow_inv in Hi as [_ ->]. rewrite <-Ht in Hsame. cbn in Hsame. rewrite lookup_insert_eq in Hsame.
  unfold PgCustomer.Get. rewrite M_bind_step. unfold queryRow. rewrite run_quiet, Hsame by done.
  unfold lift, reads, PgCustomer.scanRecord. cbn [fst cu_product cu_details].
  rewrite did_Parse_Defined by done; cbn. rewrite did_Parse_Defined by done; cbn [mbind outcome_bind owrap].
  rewrite Hread. cbn. destruct reservedCapacity as [n|]; cbn in *; [|done]. by rewrite uint64_int64.
Qed.
End CustomerRead.

(** ** Witnesses *)
Section Witnesses.
#[local] Existing Instance StrIds.
#[local] Existing Instance StrHash.
#[local] Existing Instance plainPostgres.
#[local] Existing Instance quietDatabase.

Definition exampleAccountConn : Conn AccountTables :=
  {| tables := {| consumer := ∅; subscription := ∅; customer := ∅ |}; calls := 0; began := None |}.
Definition exampleProvision (account : DID) : M (Conn AccountTables) string :=
  PgProvisioning.Provision [str_did "p"] account (str_did "s") (str_did "p") (str_cid "c").
Definition exampleProvisioned : Conn AccountTables := (exampleProvision (str_did "alice") exampleAccountConn).2.
Lemma pg_provision_once_witness :
  (PgProvisioning.GetConsumer (str_did "p") (str_did "s") exampleProvisioned).1 =
    Ok {| Consumer.Provider := str_did "p"; Consumer.Consumer := str_did "s";
          Consumer.Customer := str_did "alice"; Consumer.Subscription := "consumer:s"; Consumer.Cause := str_cid "c" |} ∧
  (exampleProvision (str_did "bob") exampleProvisioned).1 ≠ Ok "consumer:s".
Proof.
  destruct (PgProvisioning.pg_provision_once [str_did "p"] (str_did "alice") (str_did "s") (str_did "p") (str_cid "c")
    "consumer:s" exampleAccountConn exampleProvisioned) as (row & Hheld & Hrest).
  - by intros n t.
  - intros k r Hr. cbn in Hr. by rewrite lookup_empty in Hr.
  - done.
  - done.
  - done.
  - done.
  - reflexivity.
  - destruct (Hrest ltac:(by intros n t) exampleProvisioned Hheld) as [Hget Hagain]. split.
    + apply Hget. reflexivity.
    + apply Hagain.
Defined.

(** Details as one decimal number. *)
Definition numberOf (d : gmap string string) : string := Itoa (Zpos (encode d)).
Definition ofNumber (s : string) : outcome (gmap string string) :=
  match option_map Z.of_int (NilZero.int_of_string s) with
  | Some (Zpos p) => match decode p with Some d => Ok d | None => Err (Errorf "details") end
  | _ => Err (Errorf "details")
  end.
Lemma ofNumber_numberOf d : ofNumber (numberOf d) = Ok d.
Proof.
  unfold ofNumber, numberOf. rewrite int_of_string_Itoa. cbn [option_map].
  by rewrite DecimalZ.of_to, decode_encode.
Qed.
Program Definition numberDetails : DetailsJSON string := {|
  details_Marshal d := Ok (numberOf d); jsonb b := inl b; details_Unmarshal := ofNumber;
  details_native _ := True |}.
Next Obligation.
  intros d _ _. exists (numberOf d), (numberOf d). split_and!; [done..| |apply ofNumber_numberOf].
  intros Hd. pose proof (ofNumber_numberOf d) as Hn. by rewrite Hd in Hn.
Qed.
#[local] Existing Instance numberDetails.
Definition exampleCustomerAdded : Conn AccountTables :=
  (PgCustomer.Add (str_did "alice") None (str_did "plan") {[ "plan" := "free" ]} (Some (2 ^ 64 - 1)%Z) exampleAccountConn).2.
Lemma pg_customer_read_witness :
  (PgCustomer.Get (Val := string) (str_did "alice") exampleCustomerAdded).1 =
  Ok {| Customer.Customer := str_did "alice"; Customer.ExternalAccount := None;
        Customer.Product := str_did "plan"; Customer.Details := {[ "plan" := "free" ]};
        Customer.ReservedCapacity := Some (2 ^ 64 - 1)%Z; Customer.InsertedAt := nowOf exampleAccountConn;
        Customer.UpdatedAt := zeroTime |}.
Proof.
  apply (pg_customer_read (Val := string) (str_did "alice") (str_did "plan") None {[ "plan" := "free" ]} (Some (2 ^ 64 - 1)%Z)
    exampleAccountConn exampleCustomerAdded exampleCustomerAdded); try done.
Defined.
End Witnesses.
