(* ===== verification/PgSpaces.v ===== *)
(** * Provisioning a space over PostgreSQL

    [/provider/add] when the provisioning service keeps its consumers and
    subscriptions in the database. *)
From S2P Require Export PgAccounts Spaces.

Section PgSpaces.
Context `{Ucan} `{!Accounts} `{!Provisioning.SubscriptionHash} `{ErrorNames} `{SpaceErrors}
  `{ErrorText} `{Postgres} `{!Database AccountTables} {Val : Type}.
Import PgProvisioning.

Definition pgProviderAdd : bool → Customer.Store Val → list DID →
    Request Spaces.ProviderAddArguments → M (Conn AccountTables) (Reply string) :=
  Spaces.providerAddWith Provision.

(** Once a space has a provider, a server that answers refuses every later
    [/provider/add] of the two, whichever account makes it, as the comment of
    [Provision] says. *)
Theorem pg_providerAdd_refused (allow : bool) (customers : Customer.Store Val) (providers : list DID)
    (req : Request Spaces.ProviderAddArguments) (account : DID) (id : string) (row : ConsumerRow)
    (c : Conn AccountTables) :
  let space := Spaces.pv_Consumer (req_Arguments req) in
  let provider := Spaces.pv_Provider (req_Arguments req) in
  Provisioning.NewSubscriptionID space = Ok id →
  Stable (held (id, did_String provider) row) → held (id, did_String provider) row (tables c) →
  (∀ n, fault (T := AccountTables) n = None) →
  Spaces.parseAccount (inv_Subject (req_Invocation req)) = Ok account →
  allow = true ∨ Spaces.billed customers account → provider ∈ providers →
  (pgProviderAdd allow customers providers req c).1 =
  Ok (SetFailure (Wrap "adding consumer" ErrConsumerExists)).
Proof.
  intros space provider Hid Hst Hheld Hf Ha Hp Hin. unfold pgProviderAdd.
  rewrite (Spaces.providerAddWith_planned _ _ _ _ _ account) by done. fold space provider.
  pose proof (Provision_refused providers account space provider (inv_Task (req_Invocation req)) id row c
    Hf Hst Hid Hin Hheld) as Hr.
  destruct (Provision _ _ _ _ _ c) as [r c']. cbn [fst] in Hr. subst r. cbn [fst].
  by rewrite orb_true_r.
Qed.
End PgSpaces.
