(* ===== verification/PgReplica.v ===== *)
(** * Replicas and revocations in PostgreSQL

    [pkg/store/replica/postgres] and [pkg/store/revocation/postgres]. *)
From S2P Require Export PgReading Replica.

Record ReplicaRow := {
  rl_status : string; rl_cause : string; rl_inserted_at : Z; rl_updated_at : Z }.

Module PgReplica.
Section PgReplica.
Context `{Ids} `{Postgres}.

(** (space, digest, provider) -> row *)
Definition Table : Type := gmap (string * string * string) ReplicaRow.
Context `{!Database Table}.
Definition replicaKey (space : DID) (digest : Multihash) (provider : DID) : string * string * string :=
  (did_String space, digestutil_Format digest, did_String provider).

Definition Add (space : DID) (digest : Multihash) (provider : DID)
    (status : Replica.ReplicationStatus) (cause : Cid) : M (Conn Table) unit :=
  orFail (λ e, if hasCode uniqueViolation e then ErrReplicaExists else wrapped "adding replica" e)
    (run (λ now t,
      match insertRow (replicaKey space digest provider)
              {| rl_status := Replica.status_String status; rl_cause := cid_String cause;
                 rl_inserted_at := now; rl_updated_at := now |} t with
      | inl t => inl (tt, t)
      | inr e => inr e
      end)).

(** [UPDATE ... WHERE space, digest and provider], which must affect a row. *)
Definition update (ctx : string) (space : DID) (digest : Multihash) (provider : DID)
    (up : Z → ReplicaRow → ReplicaRow) : M (Conn Table) unit :=
  affected ← orFail (wrapped ctx)
    (run (λ now t, inl (updateRow (replicaKey space digest provider) (up now) t)));
  if (affected =? 0)%Z then fail ErrReplicaNotFound else mret tt.
Definition Retry (space : DID) (digest : Multihash) (provider : DID)
    (status : Replica.ReplicationStatus) (cause : Cid) : M (Conn Table) unit :=
  update "retrying replica" space digest provider (λ now r,
    {| rl_status := Replica.status_String status; rl_cause := cid_String cause;
       rl_inserted_at := rl_inserted_at r; rl_updated_at := now |}).
Definition SetStatus (space : DID) (digest : Multihash) (provider : DID)
    (status : Replica.ReplicationStatus) : M (Conn Table) unit :=
  update "setting replica status" space digest provider (λ now r,
    {| rl_status := Replica.status_String status; rl_cause := rl_cause r;
       rl_inserted_at := rl_inserted_at r; rl_updated_at := now |}).

Definition parseStatus (s : string) : outcome Replica.ReplicationStatus :=
  if bool_decide (s = Replica.status_String Replica.Allocated) then Ok Replica.Allocated
  else if bool_decide (s = Replica.status_String Replica.Transferred) then Ok Replica.Transferred
  else if bool_decide (s = Replica.status_String Replica.Failed) then Ok Replica.Failed
  else Err (Errorf ("unknown replication status " +:+ quoted s)).
Definition scanRecord (r : (string * string * string) * ReplicaRow) : outcome Replica.Record_ :=
  let '((spaceStr, digestStr, providerStr), row) := r in
  space ← owrap "parsing space DID" (did_Parse spaceStr);
  digest ← owrap "parsing digest" (digestutil_Parse digestStr);
  provider ← owrap "parsing provider DID" (did_Parse providerStr);
  status ← parseStatus (rl_status row);
  cause ← owrap "parsing cause CID" (cid_Parse (rl_cause row));
  Ok {| Replica.Space := space; Replica.Digest := digest; Replica.Provider := provider;
        Replica.Status := status; Replica.Cause := cause;
        Replica.CreatedAt := rl_inserted_at row; Replica.UpdatedAt := rl_updated_at row |}.
Definition ofBlob (space : DID) (digest : Multihash) (t : Table)
    : list ((string * string * string) * ReplicaRow) :=
  selectWhere (λ r, r.1.1.1 = did_String space ∧ r.1.1.2 = digestutil_Format digest) t.
Definition List (space : DID) (digest : Multihash) : M (Conn Table) (list Replica.Record_) :=
  got ← orFail (wrapped "listing replicas")
    (query (λ t, inl (orderBy textLe (λ r, r.1.2) (ofBlob space digest t))));
  lift (scanRows "iterating replicas" scanRecord got).

(** ** Every row reads back *)
Definition readable (k : string * string * string) (r : ReplicaRow) : Prop :=
  isDID k.1.1 ∧ isDigest k.1.2 ∧ isDID k.2 ∧ (∃ s, rl_status r = Replica.status_String s) ∧ isCID (rl_cause r).
Definition valid (t : Table) : Prop := map_Forall readable t.

Lemma parseStatus_String s : parseStatus (Replica.status_String s) = Ok s.
Proof. by destruct s. Qed.
Lemma replica_readable space digest provider status cause r :
  did_Defined space → multihash_Valid digest → did_Defined provider → cid_Defined cause →
  rl_status r = Replica.status_String status → rl_cause r = cid_String cause →
  scanRecord (replicaKey space digest provider, r) =
  Ok {| Replica.Space := space; Replica.Digest := digest; Replica.Provider := provider;
        Replica.Status := status; Replica.Cause := cause;
        Replica.CreatedAt := rl_inserted_at r; Replica.UpdatedAt := rl_updated_at r |}.
Proof.
  intros Hs Hd Hp Hc Hst Hca. unfold scanRecord, replicaKey.
  rewrite did_Parse_Defined by done; cbn. rewrite digestutil_Parse_Format by done; cbn.
  rewrite did_Parse_Defined by done; cbn. rewrite Hst, parseStatus_String; cbn.
  rewrite Hca, cid_Parse_Defined by done. done.
Qed.
Lemma replicas_Add `{!Stable valid} space digest provider status cause :
  did_Defined space → multihash_Valid digest → did_Defined provider → cid_Defined cause →
  keeps valid (Add space digest provider status cause).
Proof.
  intros Hs Hd Hp Hc. apply keeps_orFail, keeps_run; [done|]. intros now t [] t' Ht.
  destruct (insertRow _ _ _) as [t1|] eqn:Hi; [|done]. intros [= <-]. apply insertRow_inv in Hi as [_ ->].
  apply map_Forall_insert_2; [|done]. split_and!; [by exists space|by exists digest|by exists provider|by exists status|by exists cause].
Qed.
Lemma valid_update `{!Stable valid} ctx space digest provider up :
  (∀ now k r, readable k r → readable k (up now r)) →
  keeps valid (update ctx space digest provider up).
Proof.
  intros Hup. apply keeps_bind.
  - apply keeps_orFail, keeps_run; [done|]. intros now t n t' Ht.
    intros [= [(_ & -> & _)|(_ & r & Hr & ->)]%updateRow_inv]; [done|].
    apply map_Forall_insert_2; [|done]. by apply Hup, Ht.
  - intros n. destruct (n =? 0)%Z; [apply keeps_fail|apply keeps_ret].
Qed.
Lemma valid_Retry `{!Stable valid} space digest provider status cause :
  cid_Defined cause → keeps valid (Retry space digest provider status cause).
Proof.
  intros Hc. apply valid_update. intros now k r (? & ? & ? & _ & _).
  split_and!; [done..|by exists status|by exists cause].
Qed.
Lemma valid_SetStatus `{!Stable valid} space digest provider status :
  keeps valid (SetStatus space digest provider status).
Proof.
  apply valid_update. intros now k r (? & ? & ? & _ & ?). split_and!; [done..|by exists status|done].
Qed.

(** What [List] answers with, when the server does. *)
Lemma List_quiet space digest (c : Conn Table) :
  fault (T := Table) (calls c) = None → fault (T := Table) (S (calls c)) = None →
  (List space digest c).1 = mapM scanRecord (orderBy textLe (λ r, r.1.2) (ofBlob space digest (seen c))).
Proof.
  intros Hf1 Hf2. unfold List. rewrite M_bind_step, orFail_step. unfold query. rewrite Hf1, Hf2.
  unfold lift, reads, scanRows. cbn [fst snd]. by destruct (mapM _ _).
Qed.
(** What a change of a row leaves. *)
Lemma update_Ok ctx space digest provider up (c c' : Conn Table) :
  update ctx space digest provider up c = (Ok tt, c') →
  ∃ r, seen c !! replicaKey space digest provider = Some r ∧
    tables c' = <[replicaKey space digest provider := up (nowOf c) r]> (seen c).
Proof.
  unfold update. intros (n & c1 & Hr%orFail_inv & Hn)%M_bind_Ok.
  destruct (run_inv _ _ _ _ Hr) as (_ & _ & [(x & [= <-] & Hs)|[(? & ? & _)|(? & ? & ? & _)]]); [|done..].
  injection Hs as Hs. destruct (n =? 0)%Z eqn:E; [done|]. injection Hn as <-.
  apply updateRow_inv in Hs as [(-> & _)|(_ & r & Hk & ->)]; [done|]. eauto.
Qed.

(** How a row of a listing reads. *)
Definition reads_as (space : DID) (digest : Multihash)
    (x : (string * string * string) * ReplicaRow) (rec : Replica.Record_) : Prop :=
  scanRecord x = Ok rec ∧ Replica.Space rec = space ∧ Replica.Digest rec = digest ∧
  did_String (Replica.Provider rec) = x.1.2.
Lemma rows_read space digest t rows :
  did_Defined space → multihash_Valid digest → valid t → (∀ x, x ∈ rows → x ∈ ofBlob space digest t) →
  ∃ recs, Forall2 (reads_as space digest) rows recs.
Proof.
  intros Hs Hd Hv. induction rows as [|[[[s1 d1] p1] row] rows IH]; intros Hin; [by exists []|].
  destruct IH as [recs IH]; [intros; apply Hin; by right|].
  specialize (Hin _ ltac:(left)). apply elem_of_selectWhere in Hin as [[E1 E2] Hx]. cbn in E1, E2. subst s1 d1.
  destruct (Hv _ _ Hx) as (_ & _ & (p & Hpd & Hpe) & (st & Hst) & (cause & Hcd & Hce)). cbn in Hpe. subst p1.
  eexists (_ :: recs). constructor; [|exact IH].
  split; [by apply (replica_readable space digest p st cause)|done].
Qed.
Lemma reads_sorted space digest rows recs :
  Forall2 (reads_as space digest) rows recs → StronglySorted (byKey textLe (λ x, x.1.2)) rows →
  StronglySorted (byKey textLe (λ r, did_String (Replica.Provider r))) recs.
Proof.
  induction 1 as [|x rec rows recs (_ & _ & _ & Hk) Hr IH]; [constructor|].
  intros [Hs Hall]%StronglySorted_inv. constructor; [auto|].
  clear IH Hs. induction Hr as [|y rec' rows recs (_ & _ & _ & Hk') _ IH]; [constructor|].
  apply Forall_cons in Hall as [Hxy Hall]. constructor; [|auto]. unfold byKey in *. by rewrite Hk, Hk'.
Qed.
Lemma reads_keys space digest rows recs :
  Forall2 (reads_as space digest) rows recs →
  did_String <$> (Replica.Provider <$> recs) = (λ x, x.1.2) <$> rows.
Proof. induction 1 as [|x rec rows recs (_ & _ & _ & Hk) _ IH]; [done|]. cbn. by rewrite Hk, IH. Qed.
Lemma List_reads space digest (c : Conn Table) :
  did_Defined space → multihash_Valid digest → valid (seen c) →
  fault (T := Table) (calls c) = None → fault (T := Table) (S (calls c)) = None →
  ∃ recs, (List space digest c).1 = Ok recs ∧
    Forall2 (reads_as space digest) (orderBy textLe (λ r, r.1.2) (ofBlob space digest (seen c))) recs ∧
    NoDup (Replica.Provider <$> recs) ∧
    StronglySorted (byKey textLe (λ r, did_String (Replica.Provider r))) recs.
Proof.
  intros Hs Hd Hv Hf1 Hf2.
  destruct (rows_read space digest (seen c) (orderBy textLe (λ r, r.1.2) (ofBlob space digest (seen c))))
    as [recs Hrecs]; [done..|intros x; by rewrite orderBy_perm|].
  exists recs. rewrite (List_quiet _ _ _ Hf1 Hf2). split_and!; [|done|..].
  - apply mapM_Ok. eapply Forall2_impl; [exact Hrecs|]. by intros ?? [? _].
  - apply (NoDup_fmap_1 did_String). rewrite (reads_keys _ _ _ _ Hrecs). apply orderBy_key_NoDup; [apply _..|].
    apply NoDup_selectWhere. intros [[[? ?] ?] ?] [[[? ?] ?] ?]; cbn. intros [-> ->] [-> ->]. congruence.
  - eapply reads_sorted; [exact Hrecs|]. apply orderBy_sorted; apply _.
Qed.

(** Over PostgreSQL, after [SetStatus] succeeded [List] answers with the
    replicas of the blob, one per provider and in the order of their text, the
    one it names having the status that was set, at the time of the statement,
    and the cause it was allocated or retried with. *)
Theorem pg_status_listed (space : DID) (digest : Multihash) (provider : DID)
    (status : Replica.ReplicationStatus) (c c1 c2 : Conn Table) :
  did_Defined space → multihash_Valid digest → did_Defined provider →
  valid (seen c) → SetStatus space digest provider status c = (Ok tt, c1) →
  seen c2 = tables c1 → fault (T := Table) (calls c2) = None → fault (T := Table) (S (calls c2)) = None →
  ∃ recs old rec, (List space digest c2).1 = Ok recs ∧
    NoDup (Replica.Provider <$> recs) ∧
    StronglySorted (byKey textLe (λ r, did_String (Replica.Provider r))) recs ∧
    seen c !! replicaKey space digest provider = Some old ∧ rec ∈ recs ∧
    Replica.Space rec = space ∧ Replica.Digest rec = digest ∧ Replica.Provider rec = provider ∧
    Replica.Status rec = status ∧ cid_String (Replica.Cause rec) = rl_cause old ∧
    Replica.CreatedAt rec = rl_inserted_at old ∧ Replica.UpdatedAt rec = nowOf c.
Proof.
  intros Hs Hd Hp Hv Hset Hc2 Hf1 Hf2. apply update_Ok in Hset as (r & Hr & Ht).
  destruct (Hv _ _ Hr) as (? & ? & ? & Hst & (cause & Hcd & Hce)).
  assert (valid (seen c2)) as Hv2.
  { rewrite Hc2, Ht. apply map_Forall_insert_2; [|done]. split_and!; [done..|by exists status|by exists cause]. }
  destruct (List_reads space digest c2) as (recs & Hl & Hreads & Hnd & Hsort); [done..|].
  set (row := {| rl_status := Replica.status_String status; rl_cause := rl_cause r;
       rl_inserted_at := rl_inserted_at r; rl_updated_at := nowOf c |}).
  assert (seen c2 !! replicaKey space digest provider = Some row) as Hrow
    by (rewrite Hc2, Ht; apply lookup_insert_eq).
  assert ((replicaKey space digest provider, row) ∈ orderBy textLe (λ r, r.1.2) (ofBlob space digest (seen c2)))
    as [i Hi]%list_elem_of_lookup.
  { rewrite orderBy_perm. by apply elem_of_selectWhere. }
  destruct (Forall2_lookup_l _ _ _ _ _ Hreads Hi) as (rec & Hrec & Hscan & Hsp & Hdg & Hk).
  exists recs, r, rec.
  rewrite (replica_readable space digest provider status cause) in Hscan by done.
  injection Hscan as <-. split_and!; try done. by eapply list_elem_of_lookup_2.
Qed.
End PgReplica.
End PgReplica.

Record RevocationRow := { rv_cause : string; rv_inserted_at : Z }.

Module PgRevocation.
(** (delegation, scope) -> row *)
Abbreviation Table := (gmap (string * string) RevocationRow) (only parsing).
Section PgRevocation.
Context `{Ids} `{Postgres}.
Context `{!Database Table}.

Definition Add (delegation : Cid) (scope : DID) (cause : Cid) : M (Conn Table) unit :=
  orFail (wrapped "adding revocation") (run (λ now t,
    inl (tt, (insertOrNothing (cid_String delegation, did_String scope)
                {| rv_cause := cid_String cause; rv_inserted_at := now |} t).2))).

Definition clear (delegation : Cid) (t : Table) : Table :=
  (deleteWhere (λ r, r.1.1 = cid_String delegation) t).2.
Definition resetBody (delegation : Cid) (scope : DID) (cause : Cid) : M (Conn Table) unit :=
  _ ← orFail (wrapped "clearing revocation") (run (λ _ t, inl (tt, clear delegation t)));
  orFail (wrapped "inserting revocation") (run (λ now t,
    match insertRow (cid_String delegation, did_String scope)
            {| rv_cause := cid_String cause; rv_inserted_at := now |} t with
    | inl t => inl (tt, t)
    | inr e => inr e
    end)).
Definition Reset (delegation : Cid) (scope : DID) (cause : Cid) : M (Conn Table) unit :=
  transaction "committing revocation reset" (resetBody delegation scope cause).

(** The loop over the rows of [Find]: a row of it, and what it adds. *)
Definition scanRow (r : (string * string) * RevocationRow) : outcome (Cid * DID * Cid) :=
  let '((revokeStr, scopeStr), row) := r in
  dlgCID ← owrap "parsing delegation CID" (cid_Parse revokeStr);
  scopeDID ← owrap "parsing scope DID" (did_Parse scopeStr);
  cause ← owrap "parsing cause CID" (cid_Parse (rv_cause row));
  Ok (dlgCID, scopeDID, cause).
Definition addScope (result : gmap Cid (gmap DID Cid)) (x : Cid * DID * Cid) : gmap Cid (gmap DID Cid) :=
  let '(dlgCID, scopeDID, cause) := x in
  <[dlgCID := <[scopeDID := cause]> (default ∅ (result !! dlgCID))]> result.
Definition Find (delegations : list Cid) : M (Conn Table) (gmap Cid (gmap DID Cid)) :=
  match delegations with
  | [] => mret ∅
  | _ :: _ =>
      got ← orFail (wrapped "finding revocations")
        (queryAny (λ t, selectWhere (λ r, r.1.1 ∈ cid_String <$> delegations) t));
      lift (rows ← scanRows "iterating revocations" scanRow got; Ok (foldl addScope ∅ rows))
  end.

(** ** The memory backend is what the table implements *)
Inductive Op : Type → Type :=
  | AddOp (delegation : Cid) (scope : DID) (cause : Cid) : Op unit
  | ResetOp (delegation : Cid) (scope : DID) (cause : Cid) : Op unit
  | FindOp (delegations : list Cid) : Op (gmap Cid (gmap DID Cid)).
Definition exec {A} (o : Op A) : M (Conn Table) A :=
  match o with
  | AddOp d s c => Add d s c
  | ResetOp d s c => Reset d s c
  | FindOp ds => Find ds
  end.
Definition inMemory {A} (o : Op A) (s : Revocation.Store) : outcome A * Revocation.Store :=
  match o with
  | AddOp d sc c => Revocation.Add d sc c s
  | ResetOp d sc c => Revocation.Reset d sc c s
  | FindOp ds => (Ok (Revocation.Find s ds), s)
  end.
Definition opDefined {A} (o : Op A) : Prop :=
  match o with
  | AddOp d s c | ResetOp d s c => cid_Defined d ∧ did_Defined s ∧ cid_Defined c
  | FindOp _ => True
  end.

(** [Find] of no delegations asks the server nothing. *)
Definition asksNothing {A} (o : Op A) : bool :=
  match o with FindOp [] => true | _ => false end.

(** A table that keeps the revocations of a memory store: the times apart, the
    same, in texts that parse. *)
Record keptAs (s : Revocation.Store) (t : Table) : Prop := {
  kept_row d scope :
    rv_cause <$> t !! (cid_String d, did_String scope) = cid_String <$> Revocation.revoked s d scope;
  kept_key k r : t !! k = Some r → ∃ d scope cause,
    k = (cid_String d, did_String scope) ∧ rv_cause r = cid_String cause ∧
    cid_Defined d ∧ did_Defined scope ∧ cid_Defined cause;
}.
(** A delegation in the store has been revoked by somebody. *)
Definition revocations_wf (s : Revocation.Store) : Prop :=
  map_Forall (λ _ m, m ≠ ∅) (Revocation.revocations s).

Lemma keptAs_insert s s' t d scope cause now :
  keptAs s t → cid_Defined d → did_Defined scope → cid_Defined cause →
  (∀ d' scope', Revocation.revoked s' d' scope' =
     if decide (d' = d ∧ scope' = scope) then Some cause else Revocation.revoked s d' scope') →
  keptAs s' (<[(cid_String d, did_String scope) := {| rv_cause := cid_String cause; rv_inserted_at := now |}]> t).
Proof.
  intros [Hrow Hkey] Hd Hs Hc Hs'. split.
  - intros d' scope'. rewrite Hs'. case_decide as Hdec.
    + destruct Hdec as [-> ->]. by rewrite lookup_insert_eq.
    + rewrite lookup_insert_ne; [apply Hrow|]. intros [= Ed%(inj cid_String) Es%(inj did_String)]. by destruct Hdec.
  - intros k r [[<- <-]|[_ Hr]]%lookup_insert_Some; [|by eapply Hkey]. by exists d, scope, cause.
Qed.
Lemma keptAs_Add s t d scope cause now :
  keptAs s t → cid_Defined d → did_Defined scope → cid_Defined cause →
  keptAs (Revocation.Add d scope cause s).2
    (insertOrNothing (cid_String d, did_String scope)
       {| rv_cause := cid_String cause; rv_inserted_at := now |} t).2.
Proof.
  intros Hk Hd Hs Hc. pose proof (kept_row s t Hk d scope) as Hrow.
  destruct (insertOrNothing _ _ t) as [b t'] eqn:E.
  apply insertOrNothing_inv in E as [(_ & -> & [r Hr])|(_ & -> & Hn)]; cbn [snd].
  - rewrite Hr in Hrow. split; [|apply (kept_key s t Hk)]. intros d' scope'.
    rewrite Revocation.revoked_Add, decide_False; [apply (kept_row s t Hk)|].
    intros (_ & _ & Hnone). by rewrite Hnone in Hrow.
  - rewrite Hn in Hrow. symmetry in Hrow. apply fmap_None in Hrow.
    apply (keptAs_insert s); [done..|]. intros d' scope'. rewrite Revocation.revoked_Add.
    apply decide_ext. tauto.
Qed.
Lemma keptAs_Reset s t d scope cause now :
  keptAs s t → cid_Defined d → did_Defined scope → cid_Defined cause →
  keptAs (Revocation.Reset d scope cause s).2
    (<[(cid_String d, did_String scope) := {| rv_cause := cid_String cause; rv_inserted_at := now |}]> (clear d t)).
Proof.
  intros [Hrow Hkey] Hd Hs Hc.
  apply (keptAs_insert {| Revocation.revocations := delete d (Revocation.revocations s) |}); [split|done..|].
  - intros d' scope'. unfold clear, deleteWhere, Revocation.revoked. cbn [snd Revocation.revocations].
    destruct (decide (d' = d)) as [->|Hne].
    + rewrite lookup_delete_eq, map_lookup_filter_None_2; [done|]. right. intros r _ Hn. by apply Hn.
    + rewrite lookup_delete_ne by done. fold (Revocation.revoked s d' scope'). rewrite <-Hrow.
      destruct (t !! _) as [r|] eqn:Er.
      * erewrite map_lookup_filter_Some_2; [done|exact Er|]. cbn. by intros ?%(inj cid_String).
      * rewrite map_lookup_filter_None_2; [done|by left].
  - unfold clear, deleteWhere. cbn [snd]. intros k r [Hk _]%map_lookup_filter_Some. by eapply Hkey.
  - intros d' scope'. unfold Revocation.revoked, Revocation.Reset. cbn [snd Revocation.revocations].
    destruct (decide (d' = d)) as [->|Hne].
    + rewrite lookup_insert_eq, lookup_delete_eq. cbn. destruct (decide (scope' = scope)) as [->|Hs'].
      * by rewrite lookup_singleton_eq, decide_True.
      * rewrite lookup_singleton_ne, decide_False; [done|by intros [_ ?]|done].
    + rewrite lookup_insert_ne, lookup_delete_ne, decide_False; [done|by intros [? _]|done|done].
Qed.
Lemma wf_inMemory {A} (o : Op A) s : revocations_wf s → revocations_wf (inMemory o s).2.
Proof.
  intros Hwf. destruct o as [d sc c|d sc c|]; cbn; [| |done].
  - unfold Revocation.Add. destruct (default _ _ !! sc) eqn:E; cbn; apply map_Forall_insert_2; try done.
    + intros Hm. by rewrite Hm, lookup_empty in E.
    + apply insert_non_empty.
  - apply map_Forall_insert_2; [|done]. apply insert_non_empty.
Qed.

(** The scopes collected: those of the rows, and no delegation without one. *)
Lemma foldl_addScope rows :
  NoDup (fst <$> rows) →
  (∀ d scope c, (foldl addScope ∅ rows !! d ≫= lookup scope) = Some c ↔ (d, scope, c) ∈ rows) ∧
  map_Forall (λ _ m, m ≠ ∅) (foldl addScope ∅ rows).
Proof.
  induction rows as [|[[d0 s0] c0] rows IH] using rev_ind; intros Hnd.
  { split; [|apply map_Forall_empty]. intros d scope c. cbn. rewrite lookup_empty. split; [done|set_solver]. }
  rewrite fmap_app in Hnd. apply NoDup_app in Hnd as (Hnd & Hdis & _).
  destruct (IH Hnd) as [IHl IHne]. clear IH. rewrite foldl_app. cbn [foldl]. set (m := foldl addScope ∅ rows) in *.
  assert ((m !! d0 ≫= lookup s0) = None) as Hfresh.
  { destruct (m !! d0 ≫= lookup s0) as [c|] eqn:E; [|done]. apply IHl in E.
    edestruct Hdis; [by apply (list_elem_of_fmap_2 fst) in E; exact E|]. cbn. by left. }
  unfold addScope. split.
  - intros d scope c. rewrite elem_of_app, list_elem_of_singleton, <-IHl.
    destruct (decide (d = d0)) as [->|Hd].
    + rewrite lookup_insert_eq. cbn. destruct (decide (scope = s0)) as [->|Hs].
      * rewrite lookup_insert_eq, Hfresh. naive_solver.
      * rewrite lookup_insert_ne by done. destruct (m !! d0); cbn; [|rewrite lookup_empty]; naive_solver.
    + rewrite lookup_insert_ne by done. naive_solver.
  - apply map_Forall_insert_2; [|done]. apply insert_non_empty.
Qed.
(** Maps of maps none of which is empty are equal when all their entries are. *)
Lemma nested_eq (m1 m2 : gmap Cid (gmap DID Cid)) :
  map_Forall (λ _ m, m ≠ ∅) m1 → map_Forall (λ _ m, m ≠ ∅) m2 →
  (∀ d scope, (m1 !! d ≫= lookup scope) = (m2 !! d ≫= lookup scope)) → m1 = m2.
Proof.
  intros H1 H2 Heq. apply map_eq. intros d. specialize (Heq d).
  destruct (m1 !! d) as [x|] eqn:E1, (m2 !! d) as [y|] eqn:E2; cbn in Heq; [| | |done].
  - f_equal. by apply map_eq.
  - destruct (H1 d x E1). apply map_eq. intros i. by rewrite Heq, lookup_empty.
  - destruct (H2 d y E2). apply map_eq. intros i. by rewrite <-Heq, lookup_empty.
Qed.

Section Find.
Context (s : Revocation.Store) (t : Table) (Hk : keptAs s t).
Lemma scanRow_kept k r :
  t !! k = Some r → ∃ x, scanRow (k, r) = Ok x ∧ k = (cid_String x.1.1, did_String x.1.2) ∧
    Revocation.revoked s x.1.1 x.1.2 = Some x.2.
Proof using Hk.
  intros Hr. destruct (kept_key s t Hk _ _ Hr) as (d & scope & cause & -> & Hc & Hd & Hs & Hca).
  exists (d, scope, cause). split_and!; [|done|].
  - unfold scanRow. rewrite cid_Parse_Defined by done; cbn. rewrite did_Parse_Defined by done; cbn.
    by rewrite Hc, cid_Parse_Defined.
  - pose proof (kept_row s t Hk d scope) as Hrow. rewrite Hr in Hrow. cbn in Hrow. rewrite Hc in Hrow.
    cbn. destruct (Revocation.revoked s d scope); [|done]. by injection Hrow as ->%(inj cid_String).
Qed.
(** The rows of a query read as the revocations of the delegations asked for. *)
Lemma rows_of_Find (delegations : list Cid) rows :
  rows ≡ₚ selectWhere (λ r, r.1.1 ∈ cid_String <$> delegations) t →
  ∃ xs, mapM scanRow rows = Ok xs ∧ NoDup (fst <$> xs) ∧
    ∀ d scope c, (d, scope, c) ∈ xs ↔ d ∈ delegations ∧ Revocation.revoked s d scope = Some c.
Proof using Hk.
  intros Hp.
  assert (∀ l, (∀ x, x ∈ l → x ∈ rows) → ∃ xs, Forall2 (λ r x, scanRow r = Ok x ∧
    r.1 = (cid_String x.1.1, did_String x.1.2) ∧ Revocation.revoked s x.1.1 x.1.2 = Some x.2) l xs) as Hall.
  { induction l as [|[k r] l IH]; intros Hl; [by exists []|]. destruct IH as [xs Hxs]; [set_solver|].
    specialize (Hl (k, r) ltac:(left)). rewrite Hp in Hl. apply elem_of_selectWhere in Hl as [_ Hr].
    destruct (scanRow_kept _ _ Hr) as (x & ?). exists (x :: xs). by constructor. }
  destruct (Hall rows) as [xs Hxs]; [done|]. exists xs. split_and!.
  - apply mapM_Ok. eapply Forall2_impl; [exact Hxs|]. by intros ?? [? _].
  - apply (NoDup_fmap_1 (λ k : Cid * DID, (cid_String k.1, did_String k.2))).
    assert ((λ k : Cid * DID, (cid_String k.1, did_String k.2)) <$> (fst <$> xs) = rows.*1) as ->.
    { clear -Hxs. induction Hxs as [|r x rows xs (_ & Hrx & _) _ IH]; [done|]. cbn. by rewrite IH, Hrx. }
    rewrite Hp. apply NoDup_selectWhere. by intros ??.
  - intros d scope c. split.
    + intros [i Hi]%list_elem_of_lookup. destruct (Forall2_lookup_r _ _ _ _ _ Hxs Hi) as (r & Hr & _ & Hrk & Hrev).
      apply list_elem_of_lookup_2 in Hr. rewrite Hp in Hr. destruct r as [k r].
      apply elem_of_selectWhere in Hr as [Hin _]. cbn in Hrk. subst k. cbn in Hin, Hrev. split; [|done].
      apply list_elem_of_fmap in Hin as (d' & Hd' & Hin). by apply (inj cid_String) in Hd' as ->.
    + intros [Hd Hrev]. pose proof (kept_row s t Hk d scope) as Hrow. rewrite Hrev in Hrow.
      apply fmap_Some in Hrow as (r & Hr & _).
      assert (((cid_String d, did_String scope), r) ∈ rows) as [i Hi]%list_elem_of_lookup.
      { rewrite Hp. apply elem_of_selectWhere. split; [|done]. cbn. by apply list_elem_of_fmap_2. }
      destruct (Forall2_lookup_l _ _ _ _ _ Hxs Hi) as ([[d' sc'] c'] & Hx & _ & Hkx & Hrx). cbn in Hkx, Hrx.
      injection Hkx as Ed%(inj cid_String) Es%(inj did_String). subst d' sc'.
      apply list_elem_of_lookup_2 in Hx. congruence.
Qed.
Lemma found (delegations : list Cid) rows :
  revocations_wf s → rows ≡ₚ selectWhere (λ r, r.1.1 ∈ cid_String <$> delegations) t →
  (xs ← mapM scanRow rows; Ok (foldl addScope ∅ xs)) = Ok (Revocation.Find s delegations).
Proof using Hk.
  intros Hwf Hp. destruct (rows_of_Find delegations rows Hp) as (xs & -> & Hnd & Hxs). cbn. f_equal.
  destruct (foldl_addScope xs Hnd) as [Hl Hne]. apply nested_eq; [done| |].
  - intros d m. rewrite Revocation.Find_lookup. case_decide; [|done]. apply Hwf.
  - intros d scope. rewrite Revocation.Find_lookup. apply option_eq. intros c. rewrite Hl, Hxs.
    case_decide; unfold Revocation.revoked; naive_solver.
Qed.
End Find.

Lemma Find_exec (ds : list Cid) (s : Revocation.Store) (c c' : Conn Table) (r : outcome (gmap Cid (gmap DID Cid))) :
  keptAs s (seen c) → revocations_wf s → began c = None → Find ds c = (r, c') →
  (r = Ok (Revocation.Find s ds) ∧
   if asksNothing (FindOp ds) then c' = c else tables c' = seen c) ∨
  ((∃ e, r = Err e) ∧ tables c' = seen c ∧ ∃ n, fault (T := Table) n ≠ None).
Proof.
  intros Hk Hwf Hb. destruct ds as [|d ds]; [intros [= <- <-]; by left|].
  cbn [asksNothing]. unfold Find.
  rewrite M_bind_step, orFail_step. unfold queryAny, query.
  destruct (fault (calls c)) as [[e k]|] eqn:E1; [intros [= <- <-]; right; split_and!; eauto; by eexists; erewrite E1|].
  destruct (fault (S (calls c))) as [[e k]|] eqn:E2; unfold lift, reads, scanRows; cbn [fst snd].
  - intros [= <- <-]. right. split_and!; [|done|by eexists; erewrite E2].
    assert (∀ rows, rows ⊆+ selectWhere (λ r, r.1.1 ∈ cid_String <$> (d :: ds)) (seen c) →
      ∃ xs, mapM scanRow rows = Ok xs) as Hok.
    { induction rows as [|[k1 r1] rows IH]; intros Hsub; [by exists []|].
      assert ((k1, r1) ∈ selectWhere (λ r, r.1.1 ∈ cid_String <$> (d :: ds)) (seen c)) as [_ Hin]%elem_of_selectWhere.
      { eapply elem_of_submseteq; [|exact Hsub]. by left. }
      destruct (scanRow_kept s _ Hk _ _ Hin) as (x & Hx & _).
      destruct IH as [xs Hxs]; [etrans; [|exact Hsub]; by apply submseteq_cons|].
      exists (x :: xs). cbn [mapM]. rewrite Hx. cbn. by rewrite Hxs. }
    match goal with |- context [mapM scanRow ?rows] => destruct (Hok rows) as [xs Hxs] end.
    { etrans; [apply sublist_submseteq, sublist_take|]. by rewrite heapOrder_perm. }
    rewrite Hxs. cbn. by eexists.
  - intros [= <- <-]. left. split; [|done].
    rewrite <-(found s (seen c) Hk (d :: ds) _ Hwf (heapOrder_perm (calls c) _)).
    by destruct (mapM _ _).
Qed.

(** What the two statements of [Reset] do, or a call failed. *)
Lemma Reset_body (d : Cid) (scope : DID) (cause : Cid) (c c' : Conn Table) (r : outcome unit) b :
  began c = Some b →
  resetBody d scope cause c = (r, c') →
  match r with
  | Ok _ => ∃ now, tables c' = <[(cid_String d, did_String scope) :=
      {| rv_cause := cid_String cause; rv_inserted_at := now |}]> (clear d (tables c))
  | Err _ => ∃ n, fault (T := Table) n ≠ None
  | _ => False
  end.
Proof.
  intros Hb. unfold resetBody. rewrite M_bind_step, orFail_step. destruct (run _ c) as [x c1] eqn:E.
  apply run_inv in E as (Hb1 & _ & [([] & -> & Hs)|[(e & -> & Hs & _)|(e & k & -> & Hf & _)]]); [|done|].
  2: { intros [= <- <-]. exists (calls c). by rewrite Hf. }
  injection Hs as Ht1. rewrite (seen_Some _ _ Hb) in Ht1. rewrite orFail_step.
  destruct (run _ c1) as [x c2] eqn:E. rewrite Hb in Hb1.
  apply run_inv in E as (_ & _ & [([] & -> & Hs)|[(e & -> & Hs & _)|(e & k & -> & Hf & _)]]); intros [= <- <-].
  - rewrite (seen_Some _ _ Hb1) in Hs. destruct (insertRow _ _ _) as [t|] eqn:Ei; [|done].
    apply insertRow_inv in Ei as [_ ->]. injection Hs as <-. eexists. by rewrite <-Ht1.
  - exfalso. rewrite (seen_Some _ _ Hb1), <-Ht1 in Hs. unfold insertRow in Hs.
    destruct (clear d (tables c) !! _) eqn:El; [|done]. unfold clear, deleteWhere in El.
    apply map_lookup_filter_Some in El as [_ El]. by apply El.
  - exists (calls c1). by rewrite Hf.
Qed.

(** C35: the PostgreSQL store of revocations implements the memory one, over a server
    whose calls may fail and whose rows come in any order: an operation that
    succeeds answers what the memory store answers ([Find]: for the delegations
    asked for, every scope and the first cause since its last [Reset]) and
    leaves the table that keeps what the memory store then holds, but for a [Find] of
    no delegations, which asks the server nothing and leaves the connection as it is;
    one that fails leaves the table of before or of after; none panics, and without a
    fault none fails. *)
Theorem pg_revocations_refine {A} (o : Op A) (s : Revocation.Store) (c c' : Conn Table) (r : outcome A) :
  keptAs s (seen c) → revocations_wf s → opDefined o → began c = None → exec o c = (r, c') →
  revocations_wf (inMemory o s).2 ∧
  match r with
  | Ok _ => r = (inMemory o s).1 ∧
      (if asksNothing o then c' = c else keptAs (inMemory o s).2 (tables c'))
  | Err _ => (∃ n, fault (T := Table) n ≠ None) ∧
             (keptAs s (tables c') ∨ keptAs (inMemory o s).2 (tables c'))
  | _ => False
  end.
Proof.
  intros Hk Hwf Ho Hb Hr. split; [by apply wf_inMemory|].
  destruct o as [d sc cause|d sc cause|ds]; cbn [exec inMemory fst snd] in *.
  - destruct Ho as (Hd & Hs & Hc). unfold Add in Hr. rewrite orFail_step in Hr.
    assert ((Revocation.Add d sc cause s).1 = Ok tt) as Hok
      by (unfold Revocation.Add; by destruct (default _ _ !! sc)).
    destruct (run _ c) as [x c1] eqn:E. pose proof (keptAs_Add s (seen c) d sc cause (nowOf c) Hk Hd Hs Hc) as Hka.
    apply run_inv in E as (_ & _ & [([] & -> & Ht)|[(e & -> & Ht & _)|(e & k & -> & Hf & Ht)]]); [|done|].
    + injection Ht as Ht. injection Hr as <- <-. rewrite Hok, <-Ht. auto.
    + injection Hr as <- <-. split; [exists (calls c); by rewrite Hf|].
      destruct Ht as [->|[[] [= <-]]]; auto.
  - destruct Ho as (Hd & Hs & Hc). unfold Reset, transaction in Hr. rewrite (seen_None c Hb) in Hk. unfold begun in Hk.
    destruct (fault (calls c)) as [[e k]|] eqn:E0; [injection Hr as <- <-; split; [exists (calls c); by rewrite E0|by left]|].
    destruct (resetBody _ _ _ _) as [rb c1] eqn:Eb. eapply Reset_body in Eb; [|done]. cbn [tables] in Eb.
    destruct rb as [[]|e| |]; [|injection Hr as <- <-; auto|done..]. destruct Eb as [now Ht].
    pose proof (keptAs_Reset s _ d sc cause now Hk Hd Hs Hc) as Hkr. rewrite <-Ht in Hkr.
    destruct (fault (calls c1)) as [[e k]|] eqn:E1; injection Hr as <- <-; cbn [tables]; [|auto].
    split; [exists (calls c1); by rewrite E1|]. destruct k; auto.
  - apply (Find_exec ds s) in Hr as [[-> Ht]|([e ->] & -> & Hf)]; [|by auto..].
    split; [done|]. destruct (asksNothing _); [done|by rewrite Ht].
Qed.
End PgRevocation.
End PgRevocation.

(** ** Witnesses *)
Section Witnesses.
#[local] Existing Instance StrIds.
#[local] Existing Instance plainPostgres.
#[local] Existing Instance quietDatabase.

Definition exampleRevocations : Revocation.Store :=
  {| Revocation.revocations := {[ str_cid "dlg" := {[ str_did "alice" := str_cid "c1" ]} ]} |}.
Definition exampleRevocationTable : gmap (string * string) RevocationRow :=
  {[ ("dlg", "alice") := {| rv_cause := "c1"; rv_inserted_at := 5 |} ]}.
Definition exampleRevocationConn : Conn (gmap (string * string) RevocationRow) :=
  {| tables := exampleRevocationTable; calls := 0; began := None |}.
Lemma exampleRevocations_kept : PgRevocation.keptAs exampleRevocations exampleRevocationTable.
Proof.
  split.
  - intros d scope. unfold Revocation.revoked, exampleRevocations, exampleRevocationTable.
    cbn [Revocation.revocations]. destruct (decide (d = str_cid "dlg")) as [->|Hd].
    + rewrite lookup_singleton_eq. cbn [mbind option_bind]. destruct (decide (scope = str_did "alice")) as [->|Hs].
      * by rewrite lookup_singleton_eq.
      * rewrite !lookup_singleton_ne; [done|congruence|]. intros E. apply Hs. by apply (f_equal snd) in E.
    + rewrite !lookup_singleton_ne; [done|congruence|]. intros E. apply Hd. by apply (f_equal fst) in E.
  - intros k r. unfold exampleRevocationTable. intros [<- <-]%lookup_singleton_Some. by exists (str_cid "dlg"), (str_did "alice"), (str_cid "c1").
Qed.
Definition exampleReset : PgRevocation.Op unit :=
  PgRevocation.ResetOp (str_cid "dlg") (str_did "bob") (str_cid "c2").
Lemma pg_revocations_refine_witness :
  (PgRevocation.exec exampleReset exampleRevocationConn).1 = Ok tt ∧
  PgRevocation.keptAs (PgRevocation.inMemory exampleReset exampleRevocations).2
    (tables (PgRevocation.exec exampleReset exampleRevocationConn).2).
Proof.
  split; [reflexivity|].
  destruct (PgRevocation.pg_revocations_refine exampleReset exampleRevocations exampleRevocationConn
    (PgRevocation.exec exampleReset exampleRevocationConn).2 (Ok tt)) as (_ & _ & Hkept).
  - apply exampleRevocations_kept.
  - by apply map_Forall_singleton.
  - done.
  - done.
  - reflexivity.
  - exact Hkept.
Defined.

Definition exampleReplicaTable : gmap (string * string * string) ReplicaRow :=
  {[ ("space", "d", "node") := {| rl_status := "allocated"; rl_cause := "c"; rl_inserted_at := 3; rl_updated_at := 3 |} ]}.
Definition exampleReplicaConn : Conn PgReplica.Table :=
  {| tables := exampleReplicaTable; calls := 0; began := None |}.
Lemma pg_status_listed_witness :
  ∃ recs, (PgReplica.List (str_did "space") "d"
    (PgReplica.SetStatus (str_did "space") "d" (str_did "node") Replica.Transferred exampleReplicaConn).2).1 = Ok recs ∧
    NoDup (Replica.Provider <$> recs).
Proof.
  destruct (PgReplica.pg_status_listed (str_did "space") "d" (str_did "node") Replica.Transferred exampleReplicaConn
    (PgReplica.SetStatus (str_did "space") "d" (str_did "node") Replica.Transferred exampleReplicaConn).2
    (PgReplica.SetStatus (str_did "space") "d" (str_did "node") Replica.Transferred exampleReplicaConn).2)
    as (recs & _ & _ & Hl & Hnd & _); try reflexivity.
  - apply map_Forall_singleton. split_and!;
      [by exists (str_did "space")|by exists "d"|by exists (str_did "node")|by exists Replica.Allocated|by exists (str_cid "c")].
  - exists recs. split; [exact Hl|exact Hnd].
Defined.
End Witnesses.
