(* ===== verification/PgMessages.v ===== *)
(** * Agent messages and delegations in PostgreSQL and S3

    [pkg/store/agent/postgres] and [pkg/store/delegation/postgres] keep an index
    in the database and the payloads as objects of a bucket. A call to the bucket
    is a call like those of the database: it may fail, having been carried out or
    not, and others write in between. *)
From S2P Require Export Sql Agent Delegation.

(** What is read back of an encoded message, and of its CID as a SHA-256. *)
Class MessageCodec `{Ucan} := {
  container_UnmarshalCBOR : string → outcome Container;
  container_Unmarshal_Marshal ct b :
    container_MarshalCBOR ct = Ok b → ∃ ct', container_UnmarshalCBOR b = Ok ct' ∧
      (∀ inv, inv ∈ ct_Invocations ct' ↔ inv ∈ ct_Invocations ct) ∧
      (∀ rcpt, rcpt ∈ ct_Receipts ct' ↔ rcpt ∈ ct_Receipts ct);
  message_Sum_inj b b' c : message_Sum b = Ok c → message_Sum b' = Ok c → b = b';
  message_Sum_Defined ct b c : container_MarshalCBOR ct = Ok b → message_Sum b = Ok c → cid_Defined c;
  inv_Link_Defined inv : cid_Defined (inv_Link inv);
  rcpt_Link_Defined rcpt : cid_Defined (rcpt_Link rcpt);
}.

(** ** Objects of a bucket, of tables that hold one *)
Section Bucket.
Context `{Postgres} {T : Type} `{!Database T}.
Context (objects : T → gmap string string) (setObjects : gmap string string → T → T).

Definition PutObject (key body : string) : M (Conn T) (unit + dbError) :=
  run (λ _ t, inl (tt, setObjects (<[key := body]> (objects t)) t)).
Definition GetObject (key : string) : M (Conn T) (string + dbError) :=
  queryRow (λ t, objects t !! key).
(** Reading the body of the answer. *)
Definition readBody : M (Conn T) (unit + dbError) := run (λ _ t, inl (tt, t)).
(** The bucket is there from the start; making sure of it leaves its objects as
    they are. *)
Definition Initialize (bucketName : string) : M (Conn T) unit :=
  head ← run (λ _ t, inl (tt, t));
  match head with
  | inl _ => mret tt
  | inr _ =>
      orFail (wrapped ("creating S3 bucket " +:+ quoted bucketName)) (run (λ _ t, inl (tt, t)))
  end.
End Bucket.

Record IndexRow := { ai_token : string; ai_message : string; ai_inserted_at : Z }.
(** (task, kind) -> row, and the bucket of messages. *)
Record AgentTables := {
  agent_index : gmap (string * string) IndexRow;
  messages : gmap string string;
}.
Definition set_agent_index m t : AgentTables := {| agent_index := m; messages := messages t |}.
Definition set_messages m t : AgentTables := {| agent_index := agent_index t; messages := m |}.

Lemma wrap_fst {S A B} ctx (m : M S A) (k : A → M S B) s a :
  (m s).1 = Ok a → (wrap ctx m ≫= k) s = k a (m s).2.
Proof. intros Hm. rewrite M_bind_step. unfold wrap. destruct (m s) as [r s']. cbn in Hm. by subst r. Qed.

Module PgAgent.
Section PgAgent.
Context `{MessageCodec} `{Postgres} `{!Database AgentTables}.

Definition toMessagePath (msg : Cid) : string := cid_String msg +:+ "/" +:+ cid_String msg.

Definition fetchMessage (msgRoot : Cid) : M (Conn AgentTables) Container :=
  b ← orFail (wrapped "getting message from S3") (GetObject messages (toMessagePath msgRoot));
  _ ← orFail (wrapped "decoding container") readBody;
  lift (owrap "decoding container" (container_UnmarshalCBOR b)).

(** The token of the index is parsed and not looked at. *)
Definition getByTask (task : Cid) (kind : string) : M (Conn AgentTables) (Cid * Container) :=
  r ← queryRow (λ t, agent_index t !! (cid_String task, kind));
  match r with
  | inl row =>
      tokenRoot ← lift (owrap "parsing root CID" (cid_Parse (ai_token row)));
      msgRoot ← lift (owrap "parsing message root CID" (cid_Parse (ai_message row)));
      msg ← fetchMessage msgRoot;
      mret (tokenRoot, msg)
  | inr NoRows => fail (if bool_decide (kind = "in") then ErrInvocationNotFound else ErrReceiptNotFound)
  | inr e => fail (wrapped "querying agent_index" e)
  end.
Definition GetInvocation (task : Cid) : M (Conn AgentTables) Invocation :=
  '(_, ct) ← wrap ("getting invocation for task " +:+ cid_String task) (getByTask task "in");
  match findFunc (Agent.ofTask task) (ct_Invocations ct) with
  | Some inv => mret inv
  | None => fail ErrInvocationNotFound
  end.
Definition GetReceipt (task : Cid) : M (Conn AgentTables) Receipt :=
  '(_, ct) ← wrap ("getting receipt for task " +:+ cid_String task) (getByTask task "out");
  match ct_Receipt ct task with
  | Some rcpt => mret rcpt
  | None => fail ErrReceiptNotFound
  end.

(** The messages are fetched concurrently; nothing they read changes, and the
    order of the model is one they may come in. *)
Fixpoint fetchMessages (msgRoots : list Cid) : M (Conn AgentTables) (list Container) :=
  match msgRoots with
  | [] => mret []
  | msgRoot :: msgRoots =>
      ct ← fetchMessage msgRoot;
      cts ← fetchMessages msgRoots;
      mret (ct :: cts)
  end.
Definition collectInvocations (tasks : list Cid) (msgs : list Container) : gmap Cid Invocation :=
  foldl (λ found inv, if bool_decide (inv_Task inv ∈ tasks) then <[inv_Task inv := inv]> found else found)
    ∅ (msgs ≫= ct_Invocations).
Definition GetInvocations (tasks : list Cid) : M (Conn AgentTables) (gmap Cid Invocation) :=
  match tasks with
  | [] => mret ∅
  | _ :: _ =>
      got ← orFail (wrapped "querying agent_index") (queryAny (λ t,
        remove_dups ((λ r : (string * string) * IndexRow, ai_message r.2) <$>
          selectWhere (λ r, r.1.2 = "in" ∧ r.1.1 ∈ cid_String <$> tasks) (agent_index t))));
      msgRoots ← lift (scanRows "iterating messages"
        (λ m, owrap "parsing message root CID" (cid_Parse m)) got);
      msgs ← fetchMessages msgRoots;
      mret (collectInvocations tasks msgs)
  end.

Definition listing (task : Cid) : Listing AgentTables ((string * string) * IndexRow) string string := {|
  l_select t := selectWhere (λ r, r.1.1 = cid_String task) (agent_index t);
  l_key r := ai_message r.2;
  l_first _ := true;
  l_resume := Ok;
  l_scan r := Ok (ai_message r.2);
  l_cursor m := m;
  l_querying := "querying agent_index";
  l_iterating := "iterating messages";
|}.
Fixpoint fetchListed (msgRoots : list string) : M (Conn AgentTables) (list Container) :=
  match msgRoots with
  | [] => mret []
  | m :: msgRoots =>
      msgRoot ← lift (owrap "parsing message CID" (cid_Parse m));
      ct ← fetchMessage msgRoot;
      cts ← fetchListed msgRoots;
      mret (ct :: cts)
  end.
Definition List (task : Cid) (cfg : PaginationConfig) : M (Conn AgentTables) (Page Container) :=
  page ← listPage textLe (listing task) cfg (limitOf cfg);
  results ← fetchListed (Results page);
  mret (mkPage (Cursor page) results).

(** The rows of a batch by their primary key, the last entry for it winning. *)
Definition indexRow (rows : gmap (Cid * string) Cid) (e : Agent.IndexEntry) : gmap (Cid * string) Cid :=
  let rows := match Agent.ie_Invocation e with
              | Some src => <[(Agent.is_Task src, "in") := inv_Link (Agent.is_Invocation src)]> rows
              | None => rows
              end in
  match Agent.ie_Receipt e with
  | Some src => <[(Agent.rs_Task src, "out") := rcpt_Link (Agent.rs_Receipt src)]> rows
  | None => rows
  end.
Definition indexRows (index : list Agent.IndexEntry) : gmap (Cid * string) Cid := foldl indexRow ∅ index.
(** The stable order rows are inserted in. *)
Definition keyLe (a b : (Cid * string) * Cid) : Prop :=
  if bool_decide (cid_Bytes a.1.1 = cid_Bytes b.1.1) then String.le a.1.2 b.1.2
  else String.le (cid_Bytes a.1.1) (cid_Bytes b.1.1).
#[export] Instance keyLe_dec : RelDecision keyLe.
Proof. intros a b. unfold keyLe. destruct (bool_decide _); apply _. Defined.
Definition upsertEntry (now : Z) (msgRoot : Cid) (m : gmap (string * string) IndexRow)
    (r : (Cid * string) * Cid) : gmap (string * string) IndexRow :=
  upsertRow (cid_String r.1.1, r.1.2)
    {| ai_token := cid_String r.2; ai_message := cid_String msgRoot; ai_inserted_at := now |}
    (λ old, {| ai_token := cid_String r.2; ai_message := cid_String msgRoot;
               ai_inserted_at := ai_inserted_at old |}) m.

(** The payload goes before the index. A statement without a row to insert is
    not SQL. *)
Definition Write (message : Container) (entries : list Agent.IndexEntry) : M (Conn AgentTables) unit :=
  match entries with
  | [] => mret tt
  | _ :: _ =>
      let c := if ct_concrete message then message
               else container_New (ct_Invocations message) (ct_Receipts message)
                      (ct_Delegations message) in
      buf ← lift (owrap "marshaling agent message to CBOR" (container_MarshalCBOR c));
      msgRoot ← lift (owrap "hashing agent message" (message_Sum buf));
      _ ← orFail (wrapped "writing agent message to S3")
            (PutObject messages set_messages (toMessagePath msgRoot) buf);
      let rows := sortFunc keyLe (map_to_list (indexRows entries)) in
      orFail (wrapped "writing agent index") (run (λ now t,
        match rows with
        | [] => inr (PgError "42601" "syntax error")
        | _ :: _ => inl (tt, set_agent_index (foldl (upsertEntry now msgRoot) (agent_index t) rows) t)
        end))
  end.

(** ** Where the rows of a write come from *)
Definition entryOf (message : Container) (e : Agent.IndexEntry) : Prop :=
  (∀ src, Agent.ie_Invocation e = Some src → Agent.is_Invocation src ∈ ct_Invocations message ∧
     Agent.is_Task src = inv_Task (Agent.is_Invocation src)) ∧
  (∀ src, Agent.ie_Receipt e = Some src → Agent.rs_Receipt src ∈ ct_Receipts message ∧
     Agent.rs_Task src = rcpt_Ran (Agent.rs_Receipt src)).
(** A message has a token of the kind for the task. *)
Definition tokenFor (ct : Container) (task : Cid) (kind : string) (tok : Cid) : Prop :=
  (kind = "in" ∧ ∃ inv, inv ∈ ct_Invocations ct ∧ inv_Task inv = task ∧ tok = inv_Link inv) ∨
  (kind = "out" ∧ ∃ rcpt, rcpt ∈ ct_Receipts ct ∧ rcpt_Ran rcpt = task ∧ tok = rcpt_Link rcpt).
Lemma Index_entryOf message e : e ∈ Agent.Index message → entryOf message e.
Proof.
  unfold Agent.Index. intros [(inv & -> & Hin)%list_elem_of_fmap|(r & -> & Hin)%list_elem_of_fmap]%elem_of_app;
    split; cbn; intros src Hs; try done; by injection Hs as <-.
Qed.
Lemma indexRow_from message rows e :
  map_Forall (λ k tok, tokenFor message k.1 k.2 tok) rows → entryOf message e →
  map_Forall (λ k tok, tokenFor message k.1 k.2 tok) (indexRow rows e).
Proof.
  intros Hrows [Hi Hr]. unfold indexRow.
  assert (map_Forall (λ k tok, tokenFor message k.1 k.2 tok)
    (match Agent.ie_Invocation e with
     | Some src => <[(Agent.is_Task src, "in") := inv_Link (Agent.is_Invocation src)]> rows
     | None => rows
     end)) as Hrows'.
  { destruct (Agent.ie_Invocation e) as [src|]; [|done]. apply map_Forall_insert_2; [|done].
    destruct (Hi src eq_refl) as [? ->]. left. eauto. }
  destruct (Agent.ie_Receipt e) as [src|]; [|done]. apply map_Forall_insert_2; [|done].
  destruct (Hr src eq_refl) as [? ->]. right. eauto.
Qed.
Lemma indexRows_from message entries :
  Forall (entryOf message) entries →
  map_Forall (λ k tok, tokenFor message k.1 k.2 tok) (indexRows entries).
Proof.
  unfold indexRows. assert (map_Forall (λ k tok, tokenFor message k.1 k.2 tok) (∅ : gmap (Cid * string) Cid)) as Hm
    by apply map_Forall_empty.
  revert Hm. generalize (∅ : gmap (Cid * string) Cid). induction entries as [|e entries IH]; intros m Hm; [done|].
  intros [He Hes]%Forall_cons. cbn [foldl]. apply IH; [by apply indexRow_from|done].
Qed.
Lemma indexRow_keys rows e k : is_Some (rows !! k) → is_Some (indexRow rows e !! k).
Proof.
  intros Hk. unfold indexRow. destruct (Agent.ie_Invocation e), (Agent.ie_Receipt e);
    rewrite ?lookup_insert_is_Some'; auto.
Qed.
Lemma indexRows_keys rows entries k : is_Some (rows !! k) → is_Some (foldl indexRow rows entries !! k).
Proof. revert rows. induction entries as [|e es IH]; intros rows Hk; [done|]. cbn. by apply IH, indexRow_keys. Qed.
(** Every token of a message has a row. *)
Lemma indexed_keys message k tok : tokenFor message k.1 k.2 tok → is_Some (indexRows (Agent.Index message) !! k).
Proof.
  destruct k as [task kind]. cbn. intros Ht.
  assert (∃ e, e ∈ Agent.Index message ∧ ∀ rows, is_Some (indexRow rows e !! (task, kind))) as (e & He & Hrow).
  { unfold Agent.Index. destruct Ht as [(-> & inv & Hin & <- & _)|(-> & r & Hin & <- & _)]; eexists; split.
    - apply elem_of_app. left. apply list_elem_of_fmap_2. exact Hin.
    - intros rows. unfold indexRow. cbn. rewrite lookup_insert_eq. eauto.
    - apply elem_of_app. right. apply list_elem_of_fmap_2. exact Hin.
    - intros rows. unfold indexRow. cbn. rewrite lookup_insert_eq. eauto. }
  apply list_elem_of_split in He as (l1 & l2 & ->). unfold indexRows. rewrite foldl_app. cbn [foldl].
  apply indexRows_keys, Hrow.
Qed.

(** What a batch of upserts leaves under a key. *)
Lemma upserts_lookup now at' rows m k :
  (∃ r x, r ∈ rows ∧ k = (cid_String r.1.1, r.1.2) ∧ foldl (upsertEntry now at') m rows !! k = Some x ∧
     ai_token x = cid_String r.2 ∧ ai_message x = cid_String at') ∨
  ((∀ r, r ∈ rows → k ≠ (cid_String r.1.1, r.1.2)) ∧ foldl (upsertEntry now at') m rows !! k = m !! k).
Proof.
  induction rows as [|r rows IH] using rev_ind; [right; split; [set_solver|done]|].
  rewrite foldl_app. cbn [foldl]. set (m' := foldl _ _ _) in *. unfold upsertEntry, upsertRow.
  destruct (decide (k = (cid_String r.1.1, r.1.2))) as [->|Hne].
  - left. exists r. rewrite lookup_insert_eq. destruct (m' !! _); eexists; split_and!; try done; set_solver.
  - rewrite lookup_insert_ne by done. destruct IH as [(r' & x & Hr' & IH)|[IH IHm]].
    + left. exists r', x. split; [set_solver|done].
    + right. split; [|done]. intros r' [Hr'| ->%list_elem_of_singleton]%elem_of_app; [by apply IH|done].
Qed.

(** ** No row without its message *)
Definition has (msgs : gmap string string) (at' : Cid) (ct : Container) : Prop :=
  ∃ b, msgs !! toMessagePath at' = Some b ∧ message_Sum b = Ok at' ∧ container_UnmarshalCBOR b = Ok ct.
Definition rowSound (msgs : gmap string string) (k : string * string) (r : IndexRow) : Prop :=
  ∃ task at' tok ct, k.1 = cid_String task ∧ ai_message r = cid_String at' ∧ ai_token r = cid_String tok ∧
    cid_Defined at' ∧ cid_Defined tok ∧ has msgs at' ct ∧ tokenFor ct task k.2 tok.
Definition sound (t : AgentTables) : Prop := map_Forall (rowSound (messages t)) (agent_index t).
(** A message that was put and is not in the index yet. *)
Definition holding (b : string) (at' : Cid) (t : AgentTables) : Prop :=
  sound t ∧ messages t !! toMessagePath at' = Some b.

#[export] Instance toMessagePath_inj : Inj (=) (=) toMessagePath.
Proof.
  intros a b Hp. unfold toMessagePath in Hp. apply (inj cid_String).
  revert Hp. generalize (cid_String a) (cid_String b). intros x y Hp.
  assert (String.length x = String.length y) as Hlen.
  { apply (f_equal String.length) in Hp. rewrite !string_length_app in Hp. cbn in Hp. lia. }
  revert Hp. generalize ("/" +:+ x) ("/" +:+ y). revert y Hlen.
  induction x as [|c x IH]; intros [|d y] Hlen u v; cbn; try done. intros [= -> Hp].
  f_equal. eapply IH; [|exact Hp]. by injection Hlen.
Qed.
Lemma message_put t b at' :
  sound t → message_Sum b = Ok at' →
  holding b at' (set_messages (<[toMessagePath at' := b]> (messages t)) t).
Proof.
  intros Hs Hb. split; [|apply lookup_insert_eq]. intros k r Hr.
  destruct (Hs k r Hr) as (task & a & tok & ct & ? & ? & ? & ? & ? & (b' & Hb' & Hsum & Hdec) & ?).
  exists task, a, tok, ct. split_and!; try done. exists b'. split; [|done]. cbn.
  destruct (decide (toMessagePath a = toMessagePath at')) as [Heq%(inj toMessagePath)|Hne].
  - subst a. rewrite lookup_insert_eq. f_equal. by eapply message_Sum_inj.
  - by rewrite lookup_insert_ne.
Qed.
Lemma sound_upserts t b at' ct rows now :
  holding b at' t → message_Sum b = Ok at' → container_UnmarshalCBOR b = Ok ct → cid_Defined at' →
  (∀ r, r ∈ rows → tokenFor ct r.1.1 r.1.2 r.2) →
  sound (set_agent_index (foldl (upsertEntry now at') (agent_index t) rows) t).
Proof.
  intros [Hs Hb] Hsum Hdec Hdef Hrows k x Hx. cbn in Hx |- *.
  destruct (upserts_lookup now at' rows (agent_index t) k) as [(r & y & Hr & -> & Hy & Htok & Hmsg)|[_ Hk]].
  - rewrite Hx in Hy. injection Hy as <-. exists r.1.1, at', r.2, ct.
    pose proof (Hrows r Hr) as Ht. split_and!; try done; [|by exists b].
    destruct Ht as [(_ & inv & _ & _ & ->)|(_ & rc & _ & _ & ->)]; [apply inv_Link_Defined|apply rcpt_Link_Defined].
  - rewrite Hk in Hx. by apply Hs.
Qed.

(** What is put for a message: it reads back with the message's tokens. *)
Definition encodable (message : Container) : Container :=
  if ct_concrete message then message
  else container_New (ct_Invocations message) (ct_Receipts message) (ct_Delegations message).
Lemma encoded message buf at' :
  container_MarshalCBOR (encodable message) = Ok buf → message_Sum buf = Ok at' →
  cid_Defined at' ∧ ∃ ct, container_UnmarshalCBOR buf = Ok ct ∧
    ∀ task kind tok, tokenFor ct task kind tok ↔ tokenFor message task kind tok.
Proof.
  intros Hb Hs. split; [by eapply message_Sum_Defined|].
  destruct (container_Unmarshal_Marshal _ _ Hb) as (ct & Hct & Hi & Hr). exists ct. split; [done|].
  assert ((∀ inv, inv ∈ ct_Invocations ct ↔ inv ∈ ct_Invocations message) ∧
    (∀ rcpt, rcpt ∈ ct_Receipts ct ↔ rcpt ∈ ct_Receipts message)) as [Hi' Hr'].
  { unfold encodable in Hi, Hr. destruct (ct_concrete message); [done|].
    split; intros x; [rewrite Hi, ct_New_Invocations|rewrite Hr, ct_New_Receipts]; done. }
  intros task kind tok. unfold tokenFor. setoid_rewrite Hi'. by setoid_rewrite Hr'.
Qed.
(** What a write of a message leaves when it succeeds. *)
Definition filedAt (message : Container) (at' : Cid) (buf : string) (t : AgentTables) : Prop :=
  messages t !! toMessagePath at' = Some buf ∧
  ∀ task kind tok, tokenFor message task kind tok → ∃ x tok',
    agent_index t !! (cid_String task, kind) = Some x ∧ ai_message x = cid_String at' ∧
    ai_token x = cid_String tok' ∧ tokenFor message task kind tok'.
Lemma index_filed message at' buf now t :
  messages t !! toMessagePath at' = Some buf →
  filedAt message at' buf (set_agent_index (foldl (upsertEntry now at') (agent_index t)
    (sortFunc keyLe (map_to_list (indexRows (Agent.Index message))))) t).
Proof.
  intros Hb. split; [done|]. intros task kind tok Htok. cbn.
  set (rows := sortFunc _ _).
  assert (∀ r, r ∈ rows → tokenFor message r.1.1 r.1.2 r.2) as Hrows.
  { intros [k tk] Hr. unfold rows, sortFunc in Hr. rewrite merge_sort_Permutation in Hr.
    apply elem_of_map_to_list in Hr. eapply (indexRows_from message (Agent.Index message)); [|exact Hr].
    apply Forall_forall, Index_entryOf. }
  destruct (upserts_lookup now at' rows (agent_index t) (cid_String task, kind))
    as [(r & x & Hr & Hk & Hx & Ht & Hm)|[Hno _]].
  - injection Hk as ->%(inj cid_String) ->. exists x, r.2. split_and!; auto.
  - exfalso. destruct (indexed_keys message (task, kind) tok Htok) as [tk Hk].
    apply (Hno ((task, kind), tk)); [|done]. unfold rows, sortFunc. rewrite merge_sort_Permutation.
    by apply elem_of_map_to_list.
Qed.

Section Others.
(** The others do to the tables what [Write] does: they leave no row without its
    message, and take no message away. *)
Context `{!Stable sound} `{!∀ b at', Stable (holding b at')}.

Lemma Write_step message (c c' : Conn AgentTables) r :
  sound (tables c) → Write message (Agent.Index message) c = (r, c') →
  sound (tables c') ∧
  (r = Ok tt → Agent.Index message ≠ [] → ∃ at' buf ct,
     cid_Defined at' ∧ container_UnmarshalCBOR buf = Ok ct ∧
     (∀ task kind tok, tokenFor ct task kind tok ↔ tokenFor message task kind tok) ∧
     filedAt message at' buf (tables c')).
Proof.
  intros Hs. unfold Write. destruct (Agent.Index message) as [|e0 es] eqn:Ei; [by intros [= <- <-]|]. rewrite <-Ei. clear Ei.
  cbv zeta. fold (encodable message). rewrite M_bind_step. unfold lift at 1, reads.
  destruct (container_MarshalCBOR (encodable message)) as [buf|e| |] eqn:Eb; cbn [owrap]; try by intros [= <- <-].
  rewrite M_bind_step. unfold lift at 1, reads.
  destruct (message_Sum buf) as [at'|e| |] eqn:Es; cbn [owrap]; try by intros [= <- <-].
  destruct (encoded message buf at' Eb Es) as (Hat & ct & Hdec & Htok).
  rewrite M_bind_step, orFail_step. destruct (PutObject _ _ _ _ c) as [x c1] eqn:Ep.
  apply run_inv in Ep as (_ & _ & [([] & -> & Hp)|[(e & -> & Hp & _)|(e & k & -> & _ & Hp)]]); [|done|].
  2: { intros [= <- <-]. split; [|done]. apply (keeps_seen sound) in Hs.
       destruct Hp as [->|[[] [= <-]]]; [done|]. by apply (message_put _ buf at'). }
  injection Hp as Hp. apply (keeps_seen sound) in Hs. pose proof (message_put _ buf at' Hs Es) as Hh.
  rewrite Hp in Hh. apply (keeps_seen (holding buf at')) in Hh.
  set (rows := sortFunc _ _). rewrite orFail_step. destruct (run _ c1) as [x c2] eqn:Er.
  assert (∀ now, sound (set_agent_index (foldl (upsertEntry now at') (agent_index (seen c1)) rows) (seen c1))) as Hup.
  { intros now. eapply sound_upserts; [exact Hh|done..|]. intros [k tk] Hr. unfold rows, sortFunc in Hr.
    rewrite merge_sort_Permutation in Hr. apply elem_of_map_to_list in Hr. apply Htok.
    eapply (indexRows_from message (Agent.Index message)); [|exact Hr]. apply Forall_forall, Index_entryOf. }
  assert (∀ now t a t', match rows with
      | [] => inr (PgError "42601" "syntax error")
      | _ :: _ => inl (tt, set_agent_index (foldl (upsertEntry now at') (agent_index t) rows) t)
      end = inl (a, t') → t' = set_agent_index (foldl (upsertEntry now at') (agent_index t) rows) t) as Hstmt.
  { intros now t a t'. destruct rows; [done|]. by intros [= _ <-]. }
  apply run_inv in Er as (_ & _ & [([] & -> & Hr)|[(e & -> & _ & Hr)|(e & k & -> & _ & Hr)]]); intros [= <- <-].
  - apply Hstmt in Hr as ->. split; [apply Hup|]. intros _ _.
    exists at', buf, ct. split_and!; try done. apply index_filed, Hh.
  - rewrite Hr. split; [apply Hh|done].
  - split; [|done]. destruct Hr as [->|[[] Hr]]; [apply Hh|].
    apply Hstmt in Hr as ->. apply Hup.
Qed.

(** C17: over PostgreSQL and S3 the index never names a message that is not in the
    bucket: a row of a task has the CID of an object that hashes to it and
    decodes to a message with an invocation (or receipt) of the task and its
    link. [Write] keeps this however it fails, the upload or the insertion
    carried out or not, whatever others write meanwhile. *)
Theorem pg_agent_sound (message : Container) (c : Conn AgentTables) :
  sound (tables c) → sound (tables (Write message (Agent.Index message) c).2).
Proof.
  intros Hs. destruct (Write _ _ c) as [r c'] eqn:E. by apply Write_step in E as [? _].
Qed.
End Others.

(** ** What was written is read *)
Section Reading.
(** The server answers. *)
Context (Hquiet : ∀ n, fault (T := AgentTables) n = None).

Lemma fetchMessage_quiet at' buf ct (c : Conn AgentTables) (P : AgentTables → Prop) `{!Stable P} :
  (∀ t, P t → messages t !! toMessagePath at' = Some buf) → container_UnmarshalCBOR buf = Ok ct →
  P (tables c) → (fetchMessage at' c).1 = Ok ct.
Proof.
  intros HP Hdec Hc. unfold fetchMessage. rewrite M_bind_step, orFail_step. unfold GetObject, queryRow.
  rewrite run_quiet by apply Hquiet. rewrite (HP (seen c)) by by apply keeps_seen.
  rewrite M_bind_step, orFail_step. unfold readBody. rewrite run_quiet by apply Hquiet.
  unfold lift, reads. by rewrite Hdec.
Qed.
Lemma getByTask_quiet task kind at' buf ct (c : Conn AgentTables) (P : AgentTables → Prop) `{!Stable P} :
  (∀ t, P t → messages t !! toMessagePath at' = Some buf ∧
     ∃ x tok, agent_index t !! (cid_String task, kind) = Some x ∧ ai_message x = cid_String at' ∧
       ai_token x = cid_String tok ∧ cid_Defined tok) →
  container_UnmarshalCBOR buf = Ok ct → cid_Defined at' → P (tables c) →
  ∃ tok, (getByTask task kind c).1 = Ok (tok, ct).
Proof.
  intros HP Hdec Hat Hc. apply (keeps_seen P) in Hc. unfold getByTask.
  rewrite M_bind_step. unfold queryRow. rewrite run_quiet by apply Hquiet.
  destruct (HP _ Hc) as (_ & x & tok & -> & Hm & Ht & Htok). exists tok.
  rewrite M_bind_step. unfold lift at 1, reads. rewrite Ht, cid_Parse_Defined by done. cbn [owrap].
  rewrite M_bind_step. unfold lift at 1, reads. rewrite Hm, cid_Parse_Defined by done. cbn [owrap].
  rewrite M_bind_step. match goal with |- context [fetchMessage at' ?c2] =>
    pose proof (fetchMessage_quiet at' buf ct c2 P (λ t Ht, proj1 (HP t Ht)) Hdec Hc) as Hf;
    destruct (fetchMessage at' c2) as [r c3] end.
  cbn [fst] in Hf. by subst r.
Qed.
Lemma filedAt_row message at' buf t task kind tok :
  filedAt message at' buf t → tokenFor message task kind tok →
  messages t !! toMessagePath at' = Some buf ∧
  ∃ x tok', agent_index t !! (cid_String task, kind) = Some x ∧ ai_message x = cid_String at' ∧
    ai_token x = cid_String tok' ∧ cid_Defined tok'.
Proof.
  intros [Hb Hrow] Htok. split; [done|]. destruct (Hrow _ _ _ Htok) as (x & tok' & Hx & Hm & Ht & Htok').
  exists x, tok'. split_and!; try done.
  destruct Htok' as [(_ & inv & _ & _ & ->)|(_ & r & _ & _ & ->)]; [apply inv_Link_Defined|apply rcpt_Link_Defined].
Qed.

Context `{!Stable sound} `{!∀ b at', Stable (holding b at')}.
(** C38: over PostgreSQL and S3, after [Write] of a message succeeded and while no
    other message is written for its tasks, [GetInvocation] of the task of an
    invocation of the message answers with an invocation of the message and of
    that task, and [GetReceipt] of the task of a receipt with a receipt of the
    message and of that task. *)
Theorem pg_agent_read (message : Container) (c c1 : Conn AgentTables) :
  sound (tables c) → Write message (Agent.Index message) c = (Ok tt, c1) →
  Agent.Index message ≠ [] →
  ∃ at' buf, filedAt message at' buf (tables c1) ∧
    (Stable (filedAt message at' buf) → ∀ c2, filedAt message at' buf (tables c2) →
       (∀ inv, inv ∈ ct_Invocations message → ∃ inv', (GetInvocation (inv_Task inv) c2).1 = Ok inv' ∧
          inv' ∈ ct_Invocations message ∧ inv_Task inv' = inv_Task inv) ∧
       (∀ rcpt, rcpt ∈ ct_Receipts message → ∃ rcpt', (GetReceipt (rcpt_Ran rcpt) c2).1 = Ok rcpt' ∧
          rcpt' ∈ ct_Receipts message ∧ rcpt_Ran rcpt' = rcpt_Ran rcpt)).
Proof.
  intros Hs Hw Hne. apply Write_step in Hw as [_ Hw]; [|done].
  destruct (Hw eq_refl Hne) as (at' & buf & ct & Hat & Hdec & Htok & Hfiled). exists at', buf. split; [done|].
  intros Hst c2 Hc2. split.
  - intros inv Hin. assert (tokenFor message (inv_Task inv) "in" (inv_Link inv)) as Ht by (left; eauto).
    destruct (getByTask_quiet (inv_Task inv) "in" at' buf ct c2 (filedAt message at' buf)) as [tok Hget]; [|done..|].
    { intros t Hft. by eapply filedAt_row. }
    unfold GetInvocation. erewrite wrap_fst by exact Hget. cbn beta iota.
    destruct (findFunc (Agent.ofTask (inv_Task inv)) (ct_Invocations ct)) as [inv'|] eqn:Ef.
    + apply findFunc_Some in Ef as [Hin' Hof]. apply bool_decide_eq_true in Hof.
      assert (tokenFor ct (inv_Task inv') "in" (inv_Link inv')) as Ht' by (left; eauto).
      apply Htok in Ht' as [(_ & i & Hi & _ & <-%(inj inv_Link))|(? & _)]; [|done]. by exists inv'.
    + exfalso. apply Htok in Ht as [(_ & i & Hi & Hti & _)|(? & _)]; [|done].
      pose proof (proj1 (findFunc_None _ _) Ef i Hi) as Hn. apply bool_decide_eq_false in Hn. done.
  - intros rcpt Hin. assert (tokenFor message (rcpt_Ran rcpt) "out" (rcpt_Link rcpt)) as Ht by (right; eauto).
    destruct (getByTask_quiet (rcpt_Ran rcpt) "out" at' buf ct c2 (filedAt message at' buf)) as [tok Hget]; [|done..|].
    { intros t Hft. by eapply filedAt_row. }
    unfold GetReceipt. erewrite wrap_fst by exact Hget. cbn beta iota.
    destruct (ct_Receipt ct (rcpt_Ran rcpt)) as [rcpt'|] eqn:Ef.
    + apply ct_Receipt_Some in Ef as [Hin' Hran].
      assert (tokenFor ct (rcpt_Ran rcpt') "out" (rcpt_Link rcpt')) as Ht' by (right; eauto).
      apply Htok in Ht' as [(? & _)|(_ & i & Hi & _ & <-%(inj rcpt_Link))]; [done|]. by exists rcpt'.
    + exfalso. apply Htok in Ht as [(? & _)|(_ & i & Hi & Hti & _)]; [done|].
      by apply (ct_Receipt_None _ _ Ef i Hi).
Qed.
End Reading.
End PgAgent.
End PgAgent.

(** ** Delegations *)

(** What is read of a token, and back of an encoded one. A delegation is not an
    invocation, nor do their CIDs agree. *)
Class TokenCodec `{Ucan} := {
  tok_Issuer : Delegation.Token → DID;
  tok_Expiration : Delegation.Token → option Z;
  delegation_Encode : Delegation → outcome string;
  invocation_Encode : Invocation → outcome string;
  invocation_Decode : string → outcome Invocation;
  delegation_Decode : string → outcome Delegation;
  invocation_Decode_Encode i b : invocation_Encode i = Ok b → invocation_Decode b = Ok i;
  delegation_Decode_Encode d b : delegation_Encode d = Ok b →
    delegation_Decode b = Ok d ∧ ∃ e, invocation_Decode b = Err e;
  inv_dlg_Link i d : inv_Link i ≠ dlg_Link d;
}.

Record DelegationRow := {
  dg_audience : string; dg_issuer : string; dg_cause : option string; dg_expiration : option Z;
  dg_inserted_at : Z; dg_updated_at : Z }.
(** link -> row, and the bucket of tokens. *)
Record DelegationTables := {
  delegation : gmap string DelegationRow;
  tokens : gmap string string;
}.
Definition set_delegation m t : DelegationTables := {| delegation := m; tokens := tokens t |}.
Definition set_tokens m t : DelegationTables := {| delegation := delegation t; tokens := m |}.

(** Pages of which every result is fetched. *)
Lemma Pages_mapM {X Y} (f : X → outcome Y) g cur xs ys :
  Pages g cur xs → Forall2 (λ x y, f x = Ok y) xs ys →
  Pages (λ cfg, page ← g cfg; rs ← mapM f (Results page); Ok (mkPage (Cursor page) rs)) cur ys.
Proof.
  intros Hp. revert ys. induction Hp as [cur rs Hp|cur c rs rest Hp Hne _ IH]; intros ys Hall.
  - apply Pages_last. rewrite Hp. cbn [mbind outcome_bind Results Cursor]. apply mapM_Ok in Hall. by rewrite Hall.
  - apply Forall2_app_inv_l in Hall as (y1 & y2 & H1 & H2 & ->). eapply Pages_more.
    + rewrite Hp. cbn [mbind outcome_bind Results Cursor]. apply mapM_Ok in H1. by rewrite H1.
    + intros ->. by apply Forall2_nil_inv_r in H1.
    + by apply IH.
Qed.

Module PgDelegation.
Section PgDelegation.
Context `{TokenCodec} `{Postgres} `{!Database DelegationTables}.

Definition encodeToken (t : Delegation.Token) : outcome string :=
  match t with
  | Delegation.OfDelegation d =>
      owrap ("encoding delegation " +:+ cid_String (dlg_Link d)) (delegation_Encode d)
  | Delegation.OfInvocation i =>
      owrap ("encoding invocation " +:+ cid_String (inv_Link i)) (invocation_Encode i)
  end.
(** The body of the loop of [PutMany]. *)
Definition putToken (token : Delegation.Token) (cause : Cid) : M (Conn DelegationTables) unit :=
  let link := cid_String (Delegation.Link token) in
  body ← lift (encodeToken token);
  _ ← orFail (wrapped ("storing delegation " +:+ link +:+ " in S3"))
        (PutObject tokens set_tokens link body);
  let aud := did_String (Delegation.audienceOf token) in
  let causeStr := if bool_decide (cause ≠ cid_Undef) then Some (cid_String cause) else None in
  let expiration := int64 <$> tok_Expiration token in
  orFail (wrapped ("indexing delegation " +:+ link)) (run (λ now t, inl (tt,
    set_delegation (upsertRow link
      {| dg_audience := aud; dg_issuer := did_String (tok_Issuer token); dg_cause := causeStr;
         dg_expiration := expiration; dg_inserted_at := now; dg_updated_at := now |}
      (λ old, {| dg_audience := aud; dg_issuer := did_String (tok_Issuer token); dg_cause := causeStr;
                 dg_expiration := expiration; dg_inserted_at := dg_inserted_at old;
                 dg_updated_at := now |}) (delegation t)) t))).
Fixpoint PutMany (ts : list Delegation.Token) (cause : Cid) : M (Conn DelegationTables) unit :=
  match ts with
  | [] => mret tt
  | token :: ts =>
      _ ← putToken token cause;
      PutMany ts cause
  end.

(** An invocation, or else a delegation. *)
Definition decodeToken (link body : string) : outcome Delegation.Token :=
  match invocation_Decode body with
  | Ok inv => Ok (Delegation.OfInvocation inv)
  | Err _ =>
      dlg ← owrap ("decoding token " +:+ link) (delegation_Decode body);
      Ok (Delegation.OfDelegation dlg)
  | Panic => Panic
  | Diverge => Diverge
  end.
Definition fetchToken (link : string) : M (Conn DelegationTables) Delegation.Token :=
  b ← orFail (wrapped ("getting token " +:+ link +:+ " from S3")) (GetObject tokens link);
  _ ← orFail (wrapped ("reading token " +:+ link +:+ " body from S3")) readBody;
  lift (decodeToken link b).

Definition listing (audience : DID) : Listing DelegationTables (string * DelegationRow) string string := {|
  l_select t := selectWhere (λ r, dg_audience r.2 = did_String audience) (delegation t);
  l_key r := r.1;
  l_first _ := true;
  l_resume := Ok;
  l_scan r := Ok r.1;
  l_cursor link := link;
  l_querying := "querying delegations by audience";
  l_iterating := "iterating delegations";
|}.
Fixpoint fetchTokens (links : list string) : M (Conn DelegationTables) (list Delegation.Token) :=
  match links with
  | [] => mret []
  | link :: links =>
      token ← wrap ("fetching token " +:+ link) (fetchToken link);
      ts ← fetchTokens links;
      mret (token :: ts)
  end.
Definition ListByAudience (audience : DID) (cfg : PaginationConfig)
    : M (Conn DelegationTables) (Page Delegation.Token) :=
  page ← listPage textLe (listing audience) cfg (limitOf cfg);
  results ← fetchTokens (Results page);
  mret (mkPage (Cursor page) results).

#[export] Instance listing_ok audience : ListingOk textLe (listing audience) (λ _, True).
Proof.
  split; [|intros t [link row] rec _ _ [= <-]; done|done].
  intros t. apply NoDup_selectWhere. by intros [? ?] [? ?].
Qed.

(** ** No row without its token *)
Definition stored (objects : gmap string string) (tok : Delegation.Token) : Prop :=
  ∃ b, objects !! Delegation.linkName tok = Some b ∧
    decodeToken (Delegation.linkName tok) b = Ok tok.
Definition rowOf (tok : Delegation.Token) (link : string) (r : DelegationRow) : Prop :=
  link = Delegation.linkName tok ∧ dg_audience r = did_String (Delegation.audienceOf tok).
Definition sound (t : DelegationTables) : Prop := map_Forall (λ link r,
  ∃ tok, rowOf tok link r ∧ stored (tokens t) tok) (delegation t).
Definition holding (tok : Delegation.Token) (t : DelegationTables) : Prop :=
  sound t ∧ stored (tokens t) tok.

Lemma Link_inj tok tok' : Delegation.linkName tok = Delegation.linkName tok' → tok = tok'.
Proof.
  unfold Delegation.linkName. intros Hl%(inj cid_String). destruct tok as [d|i], tok' as [d'|i']; cbn in Hl.
  - by apply (inj dlg_Link) in Hl as ->.
  - by destruct (inv_dlg_Link i' d).
  - by destruct (inv_dlg_Link i d').
  - by apply (inj inv_Link) in Hl as ->.
Qed.
Lemma decode_encode tok b link : encodeToken tok = Ok b → decodeToken link b = Ok tok.
Proof.
  unfold encodeToken, decodeToken. destruct tok as [d|i].
  - destruct (delegation_Encode d) as [b'| | |] eqn:E; intros Hb; try done. injection Hb as ->.
    destruct (delegation_Decode_Encode d b E) as [-> [e ->]]. done.
  - destruct (invocation_Encode i) as [b'| | |] eqn:E; intros Hb; try done. injection Hb as ->.
    by rewrite (invocation_Decode_Encode i b E).
Qed.
Lemma token_put t tok b :
  sound t → encodeToken tok = Ok b →
  holding tok (set_tokens (<[Delegation.linkName tok := b]> (tokens t)) t).
Proof.
  intros Hs Hb. split.
  - intros link r Hr. destruct (Hs link r Hr) as (tok' & Hrow & b' & Hb' & Hdec). exists tok'. split; [done|].
    unfold stored. cbn. destruct (decide (Delegation.linkName tok' = Delegation.linkName tok)) as [Heq|Hne].
    + apply Link_inj in Heq as ->. exists b. rewrite lookup_insert_eq. split; [done|]. by apply decode_encode.
    + exists b'. by rewrite lookup_insert_ne.
  - exists b. cbn. rewrite lookup_insert_eq. split; [done|]. by apply decode_encode.
Qed.
Lemma sound_index t tok r :
  holding tok t → dg_audience r = did_String (Delegation.audienceOf tok) →
  sound (set_delegation (<[Delegation.linkName tok := r]> (delegation t)) t).
Proof.
  intros [Hs Hst] Hr. apply map_Forall_insert_2; [|exact Hs]. exists tok. by repeat split.
Qed.

Section Others.
Context `{!Stable sound} `{!∀ tok, Stable (holding tok)}.

Lemma keeps_putToken tok cause : keeps sound (putToken tok cause).
Proof.
  intros c Hs. unfold putToken. rewrite M_bind_step. unfold lift, reads.
  destruct (encodeToken tok) as [b|e| |] eqn:Eb; try done.
  rewrite M_bind_step, orFail_step. destruct (PutObject _ _ _ _ c) as [x c1] eqn:Ep.
  apply (keeps_seen sound) in Hs.
  assert (∀ t, (tt, set_tokens (<[cid_String (Delegation.Link tok):=b]> (tokens (seen c))) (seen c)) = t →
    holding tok t.2) as Hput by (intros t <-; by apply token_put).
  apply run_inv in Ep as (_ & _ & [([] & -> & Hp)|[(e & -> & Hp & _)|(e & k & -> & _ & Hp)]]); [|done|].
  2: { cbn [snd]. destruct Hp as [->|[[] [= Hp]]]; [done|]. rewrite <-Hp. apply (Hput _ eq_refl). }
  injection Hp as Hp. pose proof (Hput _ eq_refl) as Hh. cbn [snd] in Hh. rewrite Hp in Hh.
  apply (keeps_seen (holding tok)) in Hh. rewrite orFail_step. destruct (run _ c1) as [x c2] eqn:Er.
  apply run_inv in Er as (_ & _ & [([] & -> & Hr)|[(e & -> & Hr & _)|(e & k & -> & _ & Hr)]]); [|done|].
  - cbn [snd]. injection Hr as <-. apply sound_index; [done|]. by destruct (delegation (seen c1) !! _).
  - cbn [snd]. destruct Hr as [->|[[] [= <-]]]; [apply Hh|].
    apply sound_index; [done|]. by destruct (delegation (seen c1) !! _).
Qed.
Lemma keeps_PutMany ts cause : keeps sound (PutMany ts cause).
Proof.
  induction ts as [|tok ts IH]; [apply keeps_ret|]. cbn [PutMany].
  apply keeps_bind; [apply keeps_putToken|intros u; apply IH].
Qed.
(** C18: over PostgreSQL and S3 the index never names a delegation that is not in
    the bucket: a row's link is that of a token whose object is there and
    decodes to it, and the row is filed under the token's audience, or its
    subject where it has none. [PutMany] keeps this wherever it stops, each
    upload and insertion carried out or not, whatever others write meanwhile. *)
Theorem pg_delegations_sound (ts : list Delegation.Token) (cause : Cid) (c : Conn DelegationTables) :
  sound (tables c) → sound (tables (PutMany ts cause c).2).
Proof. apply keeps_PutMany. Qed.
End Others.

(** ** What an audience is served *)
Section Reading.
Context (Hquiet : quiet (T := DelegationTables)).

Definition tokenAt (t : DelegationTables) (link : string) : outcome Delegation.Token :=
  match tokens t !! link with
  | Some b => owrap ("fetching token " +:+ link) (decodeToken link b)
  | None => Err (Wrap ("fetching token " +:+ link)
                   (wrapped ("getting token " +:+ link +:+ " from S3") NoRows))
  end.
Lemma fetchTokens_quiet links (c : Conn DelegationTables) :
  (fetchTokens links c).1 = mapM (tokenAt (tables c)) links ∧ tables (fetchTokens links c).2 = tables c.
Proof.
  revert c. induction links as [|link links IH]; intros c; [done|]. cbn [fetchTokens mapM].
  assert ((fetchToken link c).1 = match tokens (tables c) !! link with
      | Some b => decodeToken link b
      | None => Err (wrapped ("getting token " +:+ link +:+ " from S3") NoRows) end ∧
    tables (fetchToken link c).2 = tables c) as [Hf Ht].
  { unfold fetchToken. rewrite M_bind_step, orFail_step. unfold GetObject, queryRow.
    rewrite run_quiet by apply (Hquiet _ (tables c)). rewrite quiet_seen by done.
    destruct (tokens (tables c) !! link) as [b|]; [|done].
    rewrite M_bind_step, orFail_step. unfold readBody. rewrite run_quiet by apply (Hquiet _ (tables c)).
    split; [done|]. cbn. by rewrite quiet_seen. }
  assert (tokenAt (tables c) link = match tokens (tables c) !! link with
    | Some b => owrap ("fetching token " +:+ link) (decodeToken link b)
    | None => Err (Wrap ("fetching token " +:+ link)
                     (wrapped ("getting token " +:+ link +:+ " from S3") NoRows))
    end) as -> by done.
  rewrite M_bind_step. unfold wrap. destruct (fetchToken link c) as [r c1]. cbn [fst snd] in Hf, Ht.
  subst r. destruct (IH c1) as [Hr Ht1]. rewrite Ht in Hr, Ht1.
  destruct (tokens (tables c) !! link) as [b|]; cbn [owrap mbind outcome_bind]; [|by split].
  destruct (decodeToken link b); cbn [owrap mbind outcome_bind]; try by split.
  rewrite M_bind_step. destruct (fetchTokens links c1) as [r c2]. cbn [fst snd] in Hr, Ht1. subst r.
  by destruct (mapM _ _).
Qed.
(** [ListByAudience] as a read of the tables. *)
Definition listIn (audience : DID) (t : DelegationTables) (cfg : PaginationConfig)
    : outcome (Page Delegation.Token) :=
  page ← listPure textLe (listing audience) cfg (limitOf cfg) t;
  rs ← mapM (tokenAt t) (Results page);
  Ok (mkPage (Cursor page) rs).
Lemma ListByAudience_quiet audience cfg (c : Conn DelegationTables) :
  (ListByAudience audience cfg c).1 = listIn audience (tables c) cfg ∧
  tables (ListByAudience audience cfg c).2 = tables c.
Proof.
  unfold ListByAudience, listIn. rewrite M_bind_step.
  assert (∀ n, fault (T := DelegationTables) n = None) as Hf by (intros n; apply (Hquiet n (tables c))).
  pose proof (listPage_listPure textLe (listing audience) cfg (limitOf cfg) c (Hf _) (Hf _)) as Hp.
  rewrite quiet_seen in Hp by done.
  pose proof (listPage_tables textLe (listing audience) cfg (limitOf cfg) c) as Ht.
  destruct (listPage _ _ _ _ c) as [r c1]. cbn [fst snd] in Hp, Ht. rewrite quiet_seen in Ht by done.
  assert (tables c1 = tables c) as Ht1 by (by destruct Ht). rewrite <-Hp. clear Hp.
  destruct r as [page| | |]; [|done..]. cbn [mbind outcome_bind].
  destruct (fetchTokens_quiet (Results page) c1) as [Hr Hrt]. rewrite M_bind_step.
  destruct (fetchTokens (Results page) c1) as [r c2]. cbn [fst snd] in Hr, Hrt. subst r. rewrite Ht1.
  rewrite Ht1 in Hrt. by destruct (mapM _ _).
Qed.
Lemma links_Pages audience t ts :
  Forall2 (λ link tok, tokenAt t link = Ok tok) (rowsIn textLe (listing audience) t).*1 ts →
  Pages (listIn audience t) None ts.
Proof.
  intros Hat.
  assert (Pages (λ cfg, listPure textLe (listing audience) cfg (Z.of_nat 1000) t) None
    (rowsIn textLe (listing audience) t).*1) as Hp.
  { eapply (listPure_Pages textLe (listing audience) (λ _, True) 1000); try done.
    - pose proof makeslice_thousand. lia.
    - unfold keptRows. rewrite filter_all by by apply Forall_forall.
      apply Forall2_fmap_r, Forall_Forall2_diag, Forall_forall. done. }
  eapply Pages_ext; [|eapply (Pages_mapM (tokenAt t)); [exact Hp|exact Hat]]. done.
Qed.
Lemma rows_tokens audience t :
  sound t → ∃ ts, Forall2 (λ (r : string * DelegationRow) tok, tokenAt t r.1 = Ok tok ∧ rowOf tok r.1 r.2)
    (rowsIn textLe (listing audience) t) ts.
Proof.
  intros Hs. assert (∀ r, r ∈ rowsIn textLe (listing audience) t → delegation t !! r.1 = Some r.2) as Hin.
  { intros [link r]. unfold rowsIn. rewrite orderBy_perm. by intros [_ ?]%elem_of_selectWhere. }
  induction (rowsIn textLe (listing audience) t) as [|[link r] rows IH]; [by exists []|].
  destruct IH as [ts Hts]; [set_solver|].
  destruct (Hs link r (Hin (link, r) ltac:(left))) as (tok & Hrow & b & Hb & Hdec).
  exists (tok :: ts). constructor; [|done]. split; [|done]. destruct Hrow as [-> _].
  unfold tokenAt. cbn. by rewrite Hb, Hdec.
Qed.

(** C39: over PostgreSQL and S3, with nobody else writing and the server answering,
    collecting an audience's delegations ends and returns exactly the tokens
    indexed for it, none twice, in the order of their links. *)
Theorem pg_delegations_collected (audience : DID) (fuel : nat) (c : Conn DelegationTables) :
  sound (tables c) → size (delegation (tables c)) < fuel →
  ∃ ts, (CollectM (ListByAudience audience) fuel c).1 = Ok ts ∧
    NoDup ts ∧ Forall (λ tok, Delegation.audienceOf tok = audience) ts ∧
    StronglySorted (byKey textLe Delegation.linkName) ts ∧
    (∀ tok r, delegation (tables c) !! Delegation.linkName tok = Some r →
       dg_audience r = did_String audience → tok ∈ ts).
Proof.
  intros Hs Hfuel. destruct (rows_tokens audience (tables c) Hs) as [ts Hts]. exists ts.
  set (rows := rowsIn textLe (listing audience) (tables c)) in Hts.
  assert (Delegation.linkName <$> ts = rows.*1) as Hlinks.
  { clear -Hts. induction Hts as [|r tok rows ts (_ & Hl & _) _ IH]; [done|]. cbn. by rewrite IH, Hl. }
  assert (Forall2 (λ link tok, tokenAt (tables c) link = Ok tok) rows.*1 ts) as Hat.
  { apply Forall2_fmap_l. eapply Forall2_impl; [exact Hts|]. by intros ?? [? _]. }
  assert (∀ r, r ∈ rows → delegation (tables c) !! r.1 = Some r.2 ∧ dg_audience r.2 = did_String audience) as Hin.
  { intros [link r]. unfold rows, rowsIn. rewrite orderBy_perm. by intros [? ?]%elem_of_selectWhere. }
  assert (NoDup (Delegation.linkName <$> ts)) as Hnd.
  { rewrite Hlinks. apply (rowsIn_NoDup textLe (listing audience) (λ _, True)). }
  split_and!.
  - unfold CollectM. rewrite (collectLoopM_quiet _ (listIn audience (tables c)) (tables c)); [| |done].
    + apply Collect_Pages; [by apply links_Pages|]. rewrite <-(Forall2_length _ _ _ Hts).
      unfold rows, rowsIn. rewrite orderBy_perm. cbn [l_select listing]. unfold selectWhere.
      pose proof (length_filter (λ r : string * DelegationRow, dg_audience r.2 = did_String audience)
        (map_to_list (delegation (tables c)))) as Hl.
      rewrite length_map_to_list in Hl. lia.
    + intros cfg c1 <-. apply ListByAudience_quiet.
  - by apply NoDup_fmap_1 in Hnd.
  - apply Forall_forall. intros tok [i Hi]%list_elem_of_lookup.
    destruct (Forall2_lookup_r _ _ _ _ _ Hts Hi) as (r & Hr & _ & _ & Haud).
    apply list_elem_of_lookup_2, Hin in Hr as [_ Hr]. rewrite Hr in Haud. by apply (inj did_String) in Haud.
  - assert (StronglySorted textLe (Delegation.linkName <$> ts)) as Hsort.
    { rewrite Hlinks. eapply StronglySorted_fmap; [|apply (rowsIn_sorted textLe (listing audience))]. done. }
    clear -Hsort. induction ts as [|tok ts IH]; [constructor|].
    rewrite fmap_cons in Hsort. apply StronglySorted_cons in Hsort as [Hall Hs]. constructor; [by apply IH|].
    rewrite Forall_fmap in Hall. exact Hall.
  - intros tok r Hr Haud. assert ((Delegation.linkName tok, r) ∈ rows) as [i Hi]%list_elem_of_lookup.
    { unfold rows, rowsIn. rewrite orderBy_perm. by apply elem_of_selectWhere. }
    destruct (Forall2_lookup_l _ _ _ _ _ Hts Hi) as (tok' & Ht' & _ & Hl & _). cbn in Hl.
    apply Link_inj in Hl as ->. by eapply list_elem_of_lookup_2.
Qed.
End Reading.
End PgDelegation.
End PgDelegation.

(** ** Codecs to compute with, and witnesses *)
Section Witnesses.
#[local] Existing Instances StrIds RecContainers RecUcan plainPostgres.
#[local] Existing Instance quietDatabase.

Lemma pack_ne f fs : pack (f :: fs) ≠ "".
Proof. unfold pack. cbn [foldr]. destruct f as [|c f]; cbn; [done|]. by destruct (special c). Qed.
Program Definition RecMessageCodec : @MessageCodec StrIds RecContainers RecUcan := {|
  container_UnmarshalCBOR := readContainer |}.
Next Obligation. intros ct b [= <-]. exists ct. split; [apply readContainer_link|done]. Qed.
Next Obligation. intros b b' c Hb Hb'. injection Hb as ->. by injection Hb'. Qed.
Next Obligation.
  intros ct b c Hb Hc. injection Hb as <-. injection Hc as <-. apply bool_decide_pack, pack_ne.
Qed.
Next Obligation. intros inv. apply bool_decide_pack, pack_ne. Qed.
Next Obligation. intros rcpt. apply bool_decide_pack, pack_ne. Qed.
#[local] Existing Instance RecMessageCodec.

#[local] Instance quiet_Stable {T} (P : T → Prop) : Stable P.
Proof. by intros n t. Qed.
Definition exampleAgentConn : Conn AgentTables :=
  {| tables := {| agent_index := ∅; messages := ∅ |}; calls := 0; began := None |}.
Definition examplePgInvocation : token :=
  {| t_task := "task"; t_issuer := "i"; t_subject := "s"; t_audience := "a"; t_command := "/c"; t_args := ""; t_nonce := "" |}.
Definition examplePgMessage : @Container RecContainers :=
  {| rc_invs := [examplePgInvocation]; rc_rcpts := [{| rt_ran := "task"; rt_out := inl "done" |}]; rc_dlgs := [] |}.
Lemma exampleAgent_sound : PgAgent.sound (tables exampleAgentConn).
Proof. apply map_Forall_empty. Qed.
Definition examplePgWritten : Conn AgentTables :=
  (PgAgent.Write examplePgMessage (Agent.Index examplePgMessage) exampleAgentConn).2.
Lemma pg_agent_sound_witness : PgAgent.sound (tables examplePgWritten).
Proof. apply (PgAgent.pg_agent_sound examplePgMessage exampleAgentConn exampleAgent_sound). Defined.
Lemma pg_agent_read_witness :
  ∃ inv', (PgAgent.GetInvocation (str_cid "task") examplePgWritten).1 = Ok inv' ∧
    inv' ∈ ct_Invocations examplePgMessage.
Proof.
  destruct (PgAgent.pg_agent_read ltac:(done) examplePgMessage exampleAgentConn examplePgWritten exampleAgent_sound)
    as (at' & buf & Hfiled & Hread); [reflexivity|done|].
  destruct (Hread ltac:(by intros n t) examplePgWritten Hfiled) as [Hinv _].
  destruct (Hinv examplePgInvocation ltac:(left)) as (inv' & Hget & Hin & _).
  exists inv'. split; [exact Hget|exact Hin].
Defined.

Definition readInvocation (s : string) : outcome token :=
  match unpack s with
  | [tag; l] => if bool_decide (tag = "inv") then Ok (readToken l) else Err (Errorf "not an invocation")
  | _ => Err (Errorf "not an invocation")
  end.
Definition readDelegation (s : string) : outcome token :=
  match unpack s with
  | [_; l] => Ok (readToken l)
  | _ => Err (Errorf "not a delegation")
  end.
Program Definition RecTokenCodec : @TokenCodec StrIds RecContainers RecUcan := {|
  tok_Issuer t := match t with Delegation.OfDelegation d => t_issuer d | Delegation.OfInvocation i => t_issuer i end;
  tok_Expiration _ := None;
  delegation_Encode d := Ok (pack ["dlg"; tokenLink d]);
  invocation_Encode i := Ok (pack ["inv"; tokenLink i]);
  invocation_Decode := readInvocation; delegation_Decode := readDelegation;
  inv_dlg_Link := token_dlgLink |}.
Next Obligation.
  intros i b Hb. assert (b = pack ["inv"; tokenLink i]) as -> by by injection Hb.
  unfold readInvocation. rewrite unpack_pack. change (Ok (readToken (tokenLink i)) = Ok i). by rewrite readToken_tokenLink.
Qed.
Next Obligation.
  intros d b Hb. assert (b = pack ["dlg"; tokenLink d]) as -> by by injection Hb.
  unfold readDelegation, readInvocation. rewrite !unpack_pack. split; [|by eexists].
  change (Ok (readToken (tokenLink d)) = Ok d). by rewrite readToken_tokenLink.
Qed.
#[local] Existing Instance RecTokenCodec.

Definition exampleDelegationConn : Conn DelegationTables :=
  {| tables := {| delegation := ∅; tokens := ∅ |}; calls := 0; began := None |}.
Lemma exampleDelegations_sound : PgDelegation.sound (tables exampleDelegationConn).
Proof. apply map_Forall_empty. Qed.
(** The same delegation twice, and one for somebody else. *)
Definition examplePut : Conn DelegationTables :=
  (PgDelegation.PutMany [exampleDelegation "alice" "s" "1"; exampleDelegation "alice" "s" "1";
     exampleDelegation "bob" "s" "2"] (str_cid "cause") exampleDelegationConn).2.
Lemma pg_delegations_sound_witness : PgDelegation.sound (tables examplePut).
Proof.
  apply (PgDelegation.pg_delegations_sound [exampleDelegation "alice" "s" "1"; exampleDelegation "alice" "s" "1";
     exampleDelegation "bob" "s" "2"] (str_cid "cause") exampleDelegationConn exampleDelegations_sound).
Defined.
Lemma examplePut_sound : PgDelegation.sound (tables examplePut).
Proof. apply PgDelegation.keeps_PutMany, exampleDelegations_sound. Qed.
Lemma pg_delegations_collected_witness :
  ∃ ts, (CollectM (PgDelegation.ListByAudience (str_did "alice")) 4 examplePut).1 = Ok ts ∧ NoDup ts.
Proof.
  destruct (PgDelegation.pg_delegations_collected ltac:(done) (str_did "alice") 4 examplePut examplePut_sound)
    as (ts & Hts & Hnd & _).
  - vm_compute. lia.
  - exists ts. split; [exact Hts|exact Hnd].
Defined.
End Witnesses.
