(* ===== verification/System.v ===== *)
(** * The service as a whole

    The blob and upload commands run one after the other on one node, each with
    the providers, policies and provisioning of its moment, and what a space holds
    is compared with an abstract machine that knows nothing but sets of blobs. *)
From S2P Require Export BlobAdd Conclude BlobRemove Uploads.
From S2P Require Import Concrete.

Module System.
Section System.
Context `{Env} `{!CursorJSON} `{Commands} `{ErrorNames}.
#[local] Existing Instance StorageProvider.Kept_Reads.

(** What a command finds configured when it runs. *)
Record Deployment := {
  issuer : Issuer;
  router : StorageProvider.Kept;
  policies : RoutingPolicy.Store;
  provisioning : Provisioning.State;
  replicas : Replica.Store;
  fuel : nat;
}.
Inductive command :=
  | Add (req : Request BlobSpec)
  | Conclude (req : Request (list Cid))
  | Remove (order : gset DID → list DID) (req : Request Multihash)
  | Abort (req : Request Cid)
  | UploadAdd (req : Request Uploads.AddArguments)
  | UploadRemove (req : Request Cid).

(** The effect of a command, its answer aside. *)
Definition effect {A} (m : M Node A) : M Node unit := λ n,
  let '(r, n') := m n in ((λ _, tt) <$> r, n').
Definition serve (d : Deployment) (c : command) : M Node unit :=
  match c with
  | Add req => effect (BlobAdd.blobAdd (router d) (policies d) (provisioning d) (issuer d) (fuel d)
                         (fuel d) req)
  | Conclude req => effect (Conclude.conclude
                     {[ cmd_Put := Conclude.httpPutConclude (router d) (issuer d) ]} req)
  | Remove order req => effect (BlobRemove.blobRemove (router d) (replicas d) (issuer d) order req)
  | Abort req => effect (BlobRemove.blobAbort (router d) (issuer d) req)
  | UploadAdd req => effect (Uploads.uploadAdd (fuel d) (provisioning d) req)
  | UploadRemove req => effect (Uploads.uploadRemove req)
  end.
(** The node after a run of commands; an answer that is an error stops nothing. *)
Fixpoint run (evs : list (Deployment * command)) (n : Node) : Node :=
  match evs with
  | [] => n
  | (d, c) :: evs => run evs (serve d c n).2
  end.
Lemma run_snoc evs d c n : run (evs ++ [(d, c)]) n = (serve d c (run evs n)).2.
Proof. revert n. induction evs as [|[d' c'] evs IH]; intros n; [done|]. apply IH. Qed.

(** ** The abstract machine *)
Definition Holdings : Type := gset (DID * Multihash).
Inductive change := Gain (space : DID) (digest : Multihash) | Lose (space : DID) (digest : Multihash).
Definition apply (hs : Holdings) (ch : change) : Holdings :=
  match ch with
  | Gain space digest => {[ (space, digest) ]} ∪ hs
  | Lose space digest => hs ∖ {[ (space, digest) ]}
  end.
(** Who may change what: an add gains its own space the digest it names, when it
    answers with a node's successful receipt of the accept; a delivered conclusion gains the space of an allocation the store has a blob that a node was
    shown to have accepted; a removal loses its own space the digest it names. *)
Definition entitled (d : Deployment) (n : Node) (c : command) (ch : change) : Prop :=
  match c, ch with
  | Add req, Gain space digest =>
      space = inv_Subject (req_Invocation req) ∧ spec_Digest (req_Arguments req) = Some digest ∧
      ∃ site ct rcpt o ok,
        (BlobAdd.blobAdd (router d) (policies d) (provisioning d) (issuer d) (fuel d) (fuel d) req n).1
          = Ok (SetSuccess site (Some ct)) ∧
        rcpt ∈ ct_Receipts ct ∧ rcpt_Out rcpt = inl o ∧ UnmarshalAcceptOK o = Ok ok
  | Conclude req, Gain space digest =>
      ∃ c put cls inv rcpt, Conclude.delivered req c ∧
        inv_Command (Conclude.co_Invocation c) = cmd_Put ∧
        IsErr (Conclude.co_Receipt c) = false ∧ Conclude.resolvedFrom (agentStore n) c put ∧
        Conclude.space put = space ∧ Digest (Conclude.blob put) = digest ∧
        Conclude.shown cls put inv rcpt
  | Remove _ req, Lose space digest =>
      space = inv_Subject (req_Invocation req) ∧ digest = req_Arguments req
  | _, _ => False
  end.
(** What the registry of a node stands for. *)
Definition holdings (n : Node) : Holdings :=
  list_to_set (map_to_list (BlobRegistry.blobs (registry (world n))) ≫=
    λ '(space, ents), (λ ent, (space, Digest (BlobRegistry.blob ent))) <$> ents).
Lemma elem_of_holdings n space digest : (space, digest) ∈ holdings n ↔ holds n space digest.
Proof.
  unfold holdings, holds, BlobRegistry.digests, BlobRegistry.entries.
  rewrite elem_of_list_to_set, list_elem_of_bind. split.
  - intros ([sp ents] & (ent & [= -> ->] & Hin)%list_elem_of_fmap & Hm%elem_of_map_to_list).
    rewrite Hm. apply list_elem_of_fmap. by exists ent.
  - intros (ent & -> & Hin)%list_elem_of_fmap.
    destruct (BlobRegistry.blobs (registry (world n)) !! space) as [ents|] eqn:Em;
      [|by apply elem_of_nil in Hin].
    exists (space, ents). split; [|by apply elem_of_map_to_list].
    apply list_elem_of_fmap. by exists ent.
Qed.

(** ** A command at a time *)
Context (Hresponsive : responsive) (Hrand : ∀ t, Routing.fair (rand t)).

(** A configuration the service can work with: the stores are well formed, the
    weights can be added up, and the fuel covers the listings. *)
Record ready (d : Deployment) : Prop := {
  ready_policies : RoutingPolicy.wf (policies d);
  ready_weights : Routing.weighable (router d);
  ready_providers : length (StorageProvider.listing (router d)) < fuel d;
  ready_provisioning : Provisioning.wf (provisioning d);
  ready_records space :
    (len (Consumer.records (Provisioning.consumerStore (provisioning d)) space) ≤ max_int64)%Z;
  ready_fuel space :
    length (Consumer.records (Provisioning.consumerStore (provisioning d)) space) < fuel d;
}.
Lemma ready_lists d space :
  ready d → returns (Provisioning.ListServiceProviders (fuel d) (provisioning d) space).
Proof.
  intros Hd. by destruct (Provisioning.ListServiceProviders_lists (provisioning d) space (fuel d)
    (ready_provisioning d Hd) (ready_records d Hd space) (ready_fuel d Hd space)) as (ps & -> & _).
Qed.

(** [c] takes the blob away from the space. *)
Definition removes (c : command) (space : DID) (digest : Multihash) : Prop :=
  match c with
  | Remove _ req => space = inv_Subject (req_Invocation req) ∧ digest = req_Arguments req
  | _ => False
  end.
#[export] Instance removes_dec c space digest : Decision (removes c space digest).
Proof. destruct c; cbn; apply _. Defined.

Definition served (d : Deployment) (c : command) (n : Node) (r : outcome unit) (n' : Node) : Prop :=
  returns r ∧ sound n' ∧
  (∀ sp dg, holds n' sp dg → holds n sp dg ∨ entitled d n c (Gain sp dg)) ∧
  (∀ sp dg, holds n' sp dg → ¬ removes c sp dg) ∧
  (∀ sp dg, holds n sp dg → removes c sp dg ∨ holds n' sp dg).
Lemma served_kept d c n r n' :
  returns r → sound n' → registry (world n') = registry (world n) →
  (∀ sp dg, ¬ removes c sp dg) → served d c n r n'.
Proof.
  intros Hr Hn Hw Hc. assert (∀ sp dg, holds n' sp dg ↔ holds n sp dg) as Hh.
  { intros sp dg. unfold holds. by rewrite Hw. }
  split_and!; [done|done| |by intros ? ? _|].
  - intros sp dg ?%Hh. by left.
  - intros sp dg ?%Hh. by right.
Qed.

Lemma served_add d req n :
  ready d → sound n → served d (Add req) n (serve d (Add req) n).1 (serve d (Add req) n).2.
Proof.
  intros Hd Hn. cbn [serve]. unfold effect.
  pose proof (BlobAdd.blobAdd_registersOwn (router d) (policies d) (provisioning d) (issuer d)
    (fuel d) (fuel d) req n) as Hreg.
  destruct (BlobAdd.completes_blobAdd (router d) (policies d) (provisioning d) (issuer d)
    (fuel d) Hresponsive (ready_policies d Hd) Hrand (ready_weights d Hd) (ready_providers d Hd)
    (fuel d) req (ready_providers d Hd)
    (ready_lists d (inv_Subject (req_Invocation req)) Hd) n Hn) as [Hret Hs].
  assert (∀ sp dg, sp = inv_Subject (req_Invocation req) → spec_Digest (req_Arguments req) = Some dg →
    (∃ site ct rcpt o ok,
      (BlobAdd.blobAdd (router d) (policies d) (provisioning d) (issuer d) (fuel d) (fuel d) req n).1
        = Ok (SetSuccess site (Some ct)) ∧
      rcpt ∈ ct_Receipts ct ∧ rcpt_Out rcpt = inl o ∧ UnmarshalAcceptOK o = Ok ok) →
    entitled d n (Add req) (Gain sp dg)) as Hent by done.
  destruct (BlobAdd.blobAdd _ _ _ _ _ _ _ n) as [r n']. cbn [fst snd] in *.
  destruct Hreg as [Hw|(dg & site & ct & rcpt & o & ok & Hdg & -> & Hin & Ho & Hok & _ & Hh)].
  - apply served_kept; [by destruct r|done|by rewrite Hw|by intros ? ? []].
  - split_and!; [done|done| |by intros ? ? _ []|].
    + intros sp d' [?|[-> ->]]%Hh; [by left|right]. apply Hent; [done..|].
      by exists site, ct, rcpt, o, ok.
    + intros sp d' ?. right. apply Hh. by left.
Qed.
Lemma served_conclude d req n :
  sound n → served d (Conclude req) n (serve d (Conclude req) n).1 (serve d (Conclude req) n).2.
Proof.
  intros Hn. cbn [serve]. unfold effect.
  destruct (Conclude.conclude_gains (router d) (issuer d) req n Hresponsive Hn)
    as (r & n' & -> & Hret & Hs & Hmono & Hgain). cbn [fst snd].
  split_and!; [by destruct r|done|done|by intros ? ? _ []|].
  intros sp d' Hh. right. by apply Hmono.
Qed.
Lemma served_remove d order req n :
  sound n →
  served d (Remove order req) n (serve d (Remove order req) n).1 (serve d (Remove order req) n).2.
Proof.
  intros Hn. cbn [serve]. unfold effect.
  destruct (BlobRemove.blobRemove_removes (router d) (replicas d) (issuer d) order req n
    Hresponsive Hn) as (n' & -> & Hs & Hh & _). cbn [fst snd].
  split_and!; [done|done|by intros sp d' [? _]%Hh; left|by intros sp d' [_ ?]%Hh|].
  intros sp d' Hd. cbn [removes].
  destruct (decide (sp = inv_Subject (req_Invocation req) ∧ d' = req_Arguments req)) as [?|Hne];
    [by left|right]. by apply Hh.
Qed.
Lemma served_abort d req n :
  sound n → served d (Abort req) n (serve d (Abort req) n).1 (serve d (Abort req) n).2.
Proof.
  intros Hn. cbn [serve]. unfold effect.
  pose proof (BlobRemove.keepsRegistry_blobAbort (router d) (issuer d) req n) as Hw.
  destruct (BlobRemove.completes_blobAbort (router d) (issuer d) req Hresponsive n Hn) as [Hret Hs].
  destruct (BlobRemove.blobAbort _ _ _ n) as [r n']. cbn [fst snd] in *.
  apply served_kept; [by destruct r|done|by rewrite Hw|by intros ? ? []].
Qed.
Lemma served_upload d c n :
  ready d → sound n →
  match c with UploadAdd _ | UploadRemove _ => True | _ => False end →
  served d c n (serve d c n).1 (serve d c n).2.
Proof.
  intros Hd Hn Hc. destruct c as [| | | |req|req]; try done; cbn [serve]; unfold effect.
  - pose proof (Uploads.uploadAdd_kept (fuel d) (provisioning d) req n
      (ready_lists d (inv_Subject (req_Invocation req)) Hd)) as Hk.
    destruct (Uploads.uploadAdd _ _ _ n) as [r n']. destruct Hk as (Hret & Ha & Hw). cbn [fst snd].
    apply served_kept; [by destruct r|unfold sound; by rewrite Ha|done|by intros ? ? []].
  - pose proof (Uploads.uploadRemove_kept req n) as Hk.
    destruct (Uploads.uploadRemove _ n) as [r n']. destruct Hk as (Hret & Ha & Hw). cbn [fst snd].
    apply served_kept; [by destruct r|unfold sound; by rewrite Ha|done|by intros ? ? []].
Qed.
Lemma serve_served d c n :
  ready d → sound n → served d c n (serve d c n).1 (serve d c n).2.
Proof.
  intros Hd Hn. destruct c.
  - by apply served_add.
  - by apply served_conclude.
  - by apply served_remove.
  - by apply served_abort.
  - by apply served_upload.
  - by apply served_upload.
Qed.

(** ** A run of commands *)
Definition configured (evs : list (Deployment * command)) : Prop := Forall (λ ev, ready ev.1) evs.

Lemma run_take evs i n d c :
  evs !! i = Some (d, c) → run (take (S i) evs) n = (serve d c (run (take i evs) n)).2.
Proof. intros Hi. by rewrite (take_S_r _ _ _ Hi), run_snoc. Qed.
Lemma run_sound evs n : configured evs → sound n → sound (run evs n).
Proof.
  revert n. induction evs as [|[d c] evs IH]; intros n; [done|].
  intros [Hd Hevs]%Forall_cons Hn. apply (IH _ Hevs). by destruct (serve_served d c n Hd Hn) as (_ & ? & _).
Qed.

Lemma gains_apply (gained : list (DID * Multihash)) hs :
  foldl apply hs ((λ p, Gain p.1 p.2) <$> gained) = list_to_set gained ∪ hs.
Proof.
  revert hs. induction gained as [|[sp d] gained IH]; intros hs; cbn [foldl fmap list_fmap].
  { set_solver. }
  rewrite IH. cbn [apply fst snd list_to_set]. set_solver.
Qed.
(** What a command changes, as the abstract machine sees it. *)
Definition changes (d : Deployment) (c : command) (n : Node) : list change :=
  match c with
  | Remove _ req => [Lose (inv_Subject (req_Invocation req)) (req_Arguments req)]
  | _ => (λ p, Gain p.1 p.2) <$> elements (holdings (serve d c n).2 ∖ holdings n)
  end.
Lemma serve_refines d c n :
  ready d → sound n →
  holdings (serve d c n).2 = foldl apply (holdings n) (changes d c n) ∧
  Forall (entitled d n c) (changes d c n).
Proof.
  intros Hd Hn. destruct (serve_served d c n Hd Hn) as (_ & _ & Hgain & Hnot & Hkeep).
  assert ((∀ sp dg, ¬ removes c sp dg) →
    let l := (λ p, Gain p.1 p.2) <$> elements (holdings (serve d c n).2 ∖ holdings n) in
    holdings (serve d c n).2 = foldl apply (holdings n) l ∧ Forall (entitled d n c) l) as Hgen.
  { intros Hc. cbv zeta. rewrite gains_apply, list_to_set_elements_L. split.
    - apply set_eq. intros [sp dg]. rewrite elem_of_union, elem_of_difference, !elem_of_holdings.
      split.
      + intros Hh. destruct (decide (holds n sp dg)); [by right|by left].
      + intros [[? _]|Hh]; [done|]. by destruct (Hkeep sp dg Hh) as [?%Hc|?].
    - apply Forall_forall. intros ch ([sp dg] & -> & Hin)%list_elem_of_fmap.
      apply elem_of_elements, elem_of_difference in Hin as [Hin Hout].
      rewrite elem_of_holdings in Hin, Hout. by destruct (Hgain sp dg Hin). }
  destruct c as [req|req|order req|req|req|req]; try (apply Hgen; by intros ? ? []).
  split; [|by repeat constructor]. cbn [changes foldl apply]. apply set_eq. intros [sp dg].
  rewrite elem_of_difference, elem_of_singleton, !elem_of_holdings. split.
  - intros Hh. destruct (Hgain sp dg Hh) as [?|[]]. split; [done|]. intros [= -> ->].
    by destruct (Hnot _ _ Hh).
  - intros [Hh Hne]. destruct (Hkeep sp dg Hh) as [[-> ->]|?]; done.
Qed.

(** The changes of a whole run, command by command. *)
Fixpoint log (evs : list (Deployment * command)) (n : Node) : list (list change) :=
  match evs with
  | [] => []
  | (d, c) :: evs => changes d c n :: log evs (serve d c n).2
  end.

(** C1: the service implements the machine of sets: whatever commands it serves, in
    whatever order, what the spaces hold at the end is what they held at the start
    after the changes of each command in turn; every change is one its command was
    entitled to when it ran, a removal always takes its blob away, and every command
    comes back. *)
Theorem run_refines (evs : list (Deployment * command)) (n : Node) :
  configured evs → sound n →
  holdings (run evs n) = foldl apply (holdings n) (concat (log evs n)) ∧
  length (log evs n) = length evs ∧
  ∀ i d c chs, evs !! i = Some (d, c) → log evs n !! i = Some chs →
    returns (serve d c (run (take i evs) n)).1 ∧
    Forall (entitled d (run (take i evs) n) c) chs ∧
    ∀ order req, c = Remove order req →
      chs = [Lose (inv_Subject (req_Invocation req)) (req_Arguments req)].
Proof.
  revert n. induction evs as [|[d c] evs IH]; intros n; [done|].
  intros [Hd Hevs]%Forall_cons Hn. cbn [fst] in Hd. destruct (serve_served d c n Hd Hn) as (Hret & Hs & _).
  destruct (serve_refines d c n Hd Hn) as [Heq Hent].
  destruct (IH (serve d c n).2 Hevs Hs) as (Hrun & Hlen & Hall).
  cbn [run log]. split_and!.
  - cbn [concat]. by rewrite foldl_app, <-Heq.
  - cbn [length]. by rewrite Hlen.
  - intros [|i] d' c' chs; cbn [lookup list_lookup take run].
    + intros [= <- <-] [= <-]. split_and!; [done|done|]. by intros order req ->.
    + apply Hall.
Qed.

Lemma run_origin evs n space digest :
  configured evs → sound n → holds (run evs n) space digest →
  holds n space digest ∧ (∀ j d c, evs !! j = Some (d, c) → ¬ removes c space digest) ∨
  ∃ i d c, evs !! i = Some (d, c) ∧ entitled d (run (take i evs) n) c (Gain space digest) ∧
    ∀ j d' c', i < j → evs !! j = Some (d', c') → ¬ removes c' space digest.
Proof.
  induction evs as [|[d c] evs IH] using rev_ind; intros Hevs Hn Hh.
  { left. split; [done|]. by intros j d c ?. }
  apply Forall_app in Hevs as [Hevs [Hd _]%Forall_cons]. cbn [fst] in Hd.
  rewrite run_snoc in Hh.
  destruct (serve_served d c (run evs n) Hd (run_sound evs n Hevs Hn)) as (_ & _ & Hgain & Hnot & _).
  specialize (Hnot _ _ Hh).
  assert (∀ i, i ≤ length evs → take i (evs ++ [(d, c)]) = take i evs) as Htake.
  { intros i Hi. by rewrite take_app_le. }
  destruct (Hgain _ _ Hh) as [Hold|Hent].
  - destruct (IH Hevs Hn Hold) as [[Hstart Hnone]|(i & d1 & c1 & Hi & Hent & Hnone)].
    + left. split; [done|]. intros j d' c' Hj.
      apply lookup_app_Some in Hj as [?|[_ [_ [= <- <-]]%list_lookup_singleton_Some]]; [by eapply Hnone|done].
    + right. exists i, d1, c1. apply lookup_lt_Some in Hi as Hlt. split_and!.
      * by apply lookup_app_l_Some.
      * by rewrite Htake by lia.
      * intros j d' c' Hlt' Hj.
        apply lookup_app_Some in Hj as [?|[_ [_ [= <- <-]]%list_lookup_singleton_Some]]; [by eapply Hnone|done].
  - right. exists (length evs), d, c. split_and!.
    + by rewrite lookup_app_r, Nat.sub_diag by lia.
    + rewrite Htake by lia. by rewrite firstn_all.
    + intros j d' c' Hlt Hj. apply lookup_lt_Some in Hj. rewrite length_app in Hj. cbn in Hj. lia.
Qed.

(** C2: a blob is held exactly on good authority, and for as long as its space wants:
    what a space holds at the end of a run on a fresh node was gained by an add of
    that space naming its digest, or by a conclusion whose node was shown to have
    accepted it for an allocation to that space, and was not removed by the space
    since; and what was ever held is held until its space removes it. *)
Theorem blob_provenance (evs : list (Deployment * command)) (space : DID) (digest : Multihash) :
  configured evs →
  let fresh := {| ticks := 0; agentStore := Agent.New; world := emptyWorld |} in
  (holds (run evs fresh) space digest →
   ∃ i d c, evs !! i = Some (d, c) ∧ entitled d (run (take i evs) fresh) c (Gain space digest) ∧
     ∀ j d' c', i < j → evs !! j = Some (d', c') → ¬ removes c' space digest) ∧
  (∀ i, holds (run (take i evs) fresh) space digest →
     (∀ j d c, i ≤ j → evs !! j = Some (d, c) → ¬ removes c space digest) →
     holds (run evs fresh) space digest).
Proof.
  intros Hevs fresh. assert (sound fresh) as Hn by apply Agent.sound_New. split.
  - intros Hh. destruct (run_origin evs fresh space digest Hevs Hn Hh) as [[Hstart _]|?]; [|done].
    exfalso. unfold holds, BlobRegistry.digests, BlobRegistry.entries in Hstart. cbn in Hstart.
    rewrite lookup_empty in Hstart. by apply elem_of_nil in Hstart.
  - revert Hn. generalize fresh as n. intros n Hn i Hh Hnone.
    assert (∀ evs n, configured evs → sound n → holds n space digest →
      (∀ j d c, evs !! j = Some (d, c) → ¬ removes c space digest) →
      holds (run evs n) space digest) as Hstay.
    { clear -Hresponsive Hrand. intros evs. induction evs as [|[d c] evs IH]; intros n; [done|].
      intros [Hd Hevs]%Forall_cons Hn Hh Hnone. cbn [run fst] in *.
      destruct (serve_served d c n Hd Hn) as (_ & Hs & _ & _ & Hkeep).
      apply (IH _ Hevs Hs).
      - destruct (Hkeep _ _ Hh) as [Hr|?]; [|done]. by destruct (Hnone 0 d c).
      - intros j d' c'. apply (Hnone (S j)). }
    rewrite <-(take_drop i evs) at 1.
    assert (∀ l1 l2 m, run (l1 ++ l2) m = run l2 (run l1 m)) as Hrun.
    { clear. intros l1. induction l1 as [|[d c] l1 IH]; intros l2 m; [done|]. apply IH. }
    rewrite Hrun. apply Hstay; [by apply Forall_drop| |done|].
    + apply run_sound; [by apply Forall_take|done].
    + intros j d c. rewrite lookup_drop. apply Hnone. lia.
Qed.

(** ** The accounts of a run *)
(** The sizes a command may register are of the kind [ok]: an add's blob, and the
    blobs of the allocations a conclusion may find in the message store. *)
Definition sizes (ok : Z → Prop) (n : Node) (c : command) : Prop :=
  match c with
  | Add req => ok (spec_Size (req_Arguments req))
  | Conclude _ => Conclude.sizedAllocations ok (agentStore n)
  | _ => True
  end.
Lemma serve_books ok d c n :
  sound n → sizes ok n c → rtc (stepFor ok) (world n) (world (serve d c n).2).
Proof.
  intros Hn Hs.
  assert (∀ A (m : M Node A), world (effect m n).2 = world (m n).2) as He.
  { intros A m. unfold effect. by destruct (m n). }
  destruct c as [req|req|order req|req|req|req]; cbn [serve sizes] in *; rewrite He.
  - by apply BlobAdd.keepsBooks_blobAdd.
  - by apply Conclude.keepsBooks_conclude.
  - apply BlobRemove.keepsBooks_blobRemove.
  - by rewrite BlobRemove.keepsRegistry_blobAbort.
  - apply Uploads.keepsBooks_uploadAdd.
  - apply Uploads.keepsBooks_uploadRemove.
Qed.
Lemma run_books ok evs n :
  configured evs → sound n →
  (∀ i d c, evs !! i = Some (d, c) → sizes ok (run (take i evs) n) c) →
  rtc (stepFor ok) (world n) (world (run evs n)).
Proof.
  revert n. induction evs as [|[d c] evs IH]; intros n; [intros; apply rtc_refl|].
  intros [Hd Hevs]%Forall_cons Hn Hsizes. cbn [run fst] in *.
  destruct (serve_served d c n Hd Hn) as (_ & Hs & _).
  etrans; [apply (serve_books ok d c n Hn (Hsizes 0 d c eq_refl))|].
  apply IH; [done..|]. intros i d' c' Hi. by apply (Hsizes (S i) d' c').
Qed.

(** C3: whatever commands a fresh node serves, in whatever order and about blobs of
    whatever size, while the calls to other modules and nodes return and each
    command finds well-formed stores and weights that can be added up, its accounts
    agree with its registry modulo 2^64: every space's byte log sums to the bytes of
    the blobs it holds, its byte and blob counters differ by those bytes and that
    number, its upload counters by its upload log, and the service's totals are the
    sums over the spaces. The byte log is exact if, besides, the sizes the adds ask
    for, and those of the allocations in the message store when a conclusion is
    served, fit the int64 of a diff row; a client that claims a larger one has it
    logged as a loss. *)
Theorem run_balances (evs : list (Deployment * command)) (space : DID) :
  configured evs →
  let fresh := {| ticks := 0; agentStore := Agent.New; world := emptyWorld |} in
  let w := world (run evs fresh) in
  balanced w space ∧
  ((∀ i d c, evs !! i = Some (d, c) → sizes accountable (run (take i evs) fresh) c) →
   sumDelta (byteRows (ledger w) space) = held w space).
Proof.
  intros Hevs fresh w. assert (sound fresh) as Hn by apply Agent.sound_New. split.
  - apply Books_balanced, (Books_reachable (λ _, True)), (run_books _ evs fresh Hevs Hn).
    intros i d [] _; done.
  - intros Hs. by apply exact_byteRows, Exact_reachable, (run_books _ evs fresh).
Qed.
End System.
End System.

(** ** Witnesses *)
Section Witnesses.
#[local] Existing Instances StrIds NumberJSON StrCommands StrNames RecContainers RecUcan RecForge
  RecEnv StorageProvider.Kept_Reads.

Definition exampleDeployment : System.Deployment := {|
  System.issuer := sprue; System.router := nodeAt "holding"; System.policies := RoutingPolicy.New;
  System.provisioning := exampleProvisioning; System.replicas := Replica.New; System.fuel := 3 |}.
Lemma exampleDeployment_ready : System.ready exampleDeployment.
Proof.
  assert (∀ space : DID, length (Consumer.records (Provisioning.consumerStore exampleProvisioning)
    space) ≤ 1) as Hone.
  { intros space. unfold exampleProvisioning. cbn [Provisioning.consumerStore].
    rewrite Consumer.Add_fresh; [cbn [snd]|apply Consumer.consumers_wf_New|].
    - rewrite Consumer.consumers_records_insert. case_decide; vm_compute; lia.
    - apply not_elem_of_nil. }
  split.
  - apply RoutingPolicy.policies_wf_New.
  - vm_compute. discriminate.
  - vm_compute. lia.
  - split; [apply Consumer.consumers_wf_Add, Consumer.consumers_wf_New|apply Subscription.subs_wf_New].
  - intros space. specialize (Hone space). unfold len, max_int64. cbn [System.provisioning exampleDeployment]. lia.
  - intros space. specialize (Hone space). cbn [System.provisioning System.fuel exampleDeployment]. lia.
Qed.
(** A space adds a blob, removes another, and adds its blob again. *)
Definition exampleRun : list (System.Deployment * System.command) :=
  (λ c, (exampleDeployment, c)) <$>
    [System.Add (exampleAdd "did:key:space" exampleSpec);
     System.Remove elements exampleRemove;
     System.Add (exampleAdd "did:key:space" exampleSpec)].
Lemma exampleRun_configured : System.configured exampleRun.
Proof. repeat (constructor; [apply exampleDeployment_ready|]). constructor. Qed.

Lemma run_refines_witness :
  length (System.log exampleRun freshNode) = 3 ∧
  System.holdings (System.run exampleRun freshNode) =
  foldl System.apply (System.holdings freshNode) (concat (System.log exampleRun freshNode)).
Proof.
  destruct (System.run_refines rec_responsive rec_fair exampleRun freshNode exampleRun_configured)
    as (Hh & Hlen & _).
  - apply Agent.sound_New.
  - split; [exact Hlen|exact Hh].
Defined.

Lemma blob_provenance_witness :
  ∃ i d c, exampleRun !! i = Some (d, c) ∧
    System.entitled d (System.run (take i exampleRun) freshNode) c
      (System.Gain (str_did "did:key:space") "digest").
Proof.
  destruct (System.blob_provenance rec_responsive rec_fair exampleRun (str_did "did:key:space")
    "digest" exampleRun_configured) as [Horigin _].
  destruct Horigin as (i & d & c & Hi & Hent & _).
  - apply (bool_decide_unpack _). vm_compute. exact I.
  - exists i, d, c. split; [exact Hi|exact Hent].
Defined.

Lemma run_balances_witness :
  balanced (world (System.run exampleRun freshNode)) (str_did "did:key:space") ∧
  sumDelta (byteRows (ledger (world (System.run exampleRun freshNode))) (str_did "did:key:space")) =
  held (world (System.run exampleRun freshNode)) (str_did "did:key:space") ∧
  held (world (System.run exampleRun freshNode)) (str_did "did:key:space") = 3%Z.
Proof.
  destruct (System.run_balances rec_responsive rec_fair exampleRun (str_did "did:key:space")
    exampleRun_configured) as [Hbal Hsum].
  split; [exact Hbal|split; [apply Hsum|vm_compute; reflexivity]].
  intros [|[|[|i]]] d c; [intros [= <- <-]..|discriminate].
  - split; discriminate.
  - exact I.
  - split; discriminate.
Defined.
End Witnesses.
